(* ===== verification/_CoqProject ===== *)
-Q . S2P
Prelude.v
Changeset.v
Apply.v
Cursor.v
Compose.v
Follow.v
Utf8.v
Diff.v
Fsm.v
Stores.v
Future.v
Config.v
Node.v
Election.v
Replication.v
Rpc.v
Sync.v
Leader.v
Machine.v
Restart.v
Frame.v
Network.v
ElectionSafety.v
LogMatching.v
LeaderCompleteness.v
CommitSafety.v
Entries.v
Single.v
Json.v
JsonRound.v
Stdgo.v
Codec.v
Bolt.v
Transport.v
Document.v
Applied.v
Progress.v
Server.v
Sessions.v
Promises.v
Wire.v
Closing.v
Setup.v
Editor.v
Command.v
