(* ===== verification/Prelude.v ===== *)
(** * A distributed collaborative editor, verified

    The program (Go, under [src/]) is a text editor shared by many clients. A client
    sends a changeset (a SUBMIT message); the leader of a Raft cluster puts it into a
    replicated log; every server applies the committed entries in log order to its
    document, rebasing each changeset over the revisions that were committed since the
    revision it was made for; and the result goes back to the clients. These layers
    carry this, and the files follow them:

    - operational transformation, [src/internal/ot];
    - the document state machine, [src/internal/fsm];
    - consensus, [src/internal/raft], with its storage ([src/internal/store]) and its
      transports;
    - the WebSocket server, [src/internal/server], and the command that starts a
      server, [src/cmd/server].

    ** The files

    - [Prelude]: this header, Go's values and results, lemmas, hints and tactics.
    - [Changeset] ([ot/changeset.go]): operations, changesets, constructors,
      [Validate]; the well-formedness [wf] and the reference semantics [exec] that
      the other OT files are measured against.
    - [Apply] ([ot/apply.go]): [ApplyChangeset], which computes [exec].
    - [Cursor] (the part that [ot/compose.go] and [ot/follow.go] share): the cursor
      over a list of operations and the merging [addOp].
    - [Compose] ([ot/compose.go]): one changeset that acts like two in turn.
    - [Follow] ([ot/follow.go]): the rebase of B over a concurrent A; the reference
      merge of the two, its symmetry, and convergence.
    - [Utf8], [Diff] ([ot/diff.go]): Go's conversions between strings and runes, and
      [DiffToChangeset] by a longest common subsequence.
    - [Fsm] ([fsm/types.go], [fsm/fsm.go]): [Apply] with its deduplication and its
      rebase loop, [HeadText], [HeadRev], [RevisionsSince].
    - [Stores] ([raft/types.go], [raft/inmem.go], the encoding of
      [store/boltstore.go]): the classes [LogStore] and [StableStore] are the Go
      interfaces; [LogStoreSpec], [StableStoreSpec] and [LogStoreReliable] are what
      the node relies on, and the in-memory stores are instances.
    - [Future] ([raft/future.go]): the result of a proposal.
    - [Config] ([raft/config.go]): the configuration and its check.
    - [Node] ([raft/raft.go], [raft/types.go]): the messages and the state of a node,
      persisting and restoring, stepping down.
    - [Election] ([raft/election.go]), [Replication] ([raft/replication.go]): both
      sides of the two RPCs and the advance of the commit index.
    - [Rpc] ([handleRPC] of [raft/raft.go]): runs of RPCs and their votes.
    - [Sync] ([replicateOnce]): a leader and a follower, round after round.
    - [Leader] ([raft/raft.go]): proposals, becoming leader, applying.
    - [Machine] ([raft/raft.go], [raft/replication.go]): the goroutines of a node as a
      transition system.
    - [Restart] ([NewRaftNode], [restoreState]): a node that crashes and is started again
      from its stores, and what is on disk at every step.
    - [Network] ([startElection], [handleRPC]): several nodes with the votes and
      entries that are under way between them and their answers, and their crashes;
      [Frame]: what the operations leave alone.
    - What holds of a cluster, each file on the one before it: [ElectionSafety] (votes),
      [LogMatching] (the history of the leaders' logs), [LeaderCompleteness] (what a
      majority has acknowledged), [CommitSafety] (commit indices), [Entries] (where the
      entries come from), [Applied] (the state machines and the documents), [Progress]
      (what a majority can do by itself).
    - [Single]: the goroutines of a node in a cluster of one server.
    - [Json], [JsonRound]: Go's [encoding/json] and [encoding/base64], and their round
      trip; [Stdgo]: what is used of [strings] and [time].
    - [Codec] (the structs of [ot], [fsm] and [raft] with their tags): what is stored
      and sent as JSON, with the law of each type; [MarshalEntry], [UnmarshalEntry].
    - [Bolt] ([store/boltstore.go]): the disk store, an instance of the two stores by what
      [bbolt] documents ([BoltLaws]); [DeleteRange], which goes on with a cursor after a
      deletion, under the further law [BoltCursor].
    - [Transport] ([raft/transport.go], [raft/inmem.go]): the wire format, both ends of
      a TCP connection, and the in-memory transport.
    - [Document] ([fsm/fsm.go] as the [FSM] of a node): from the log to the document.
    - [Server], [Sessions] ([server/websocket.go]): connections, clients, commits and
      broadcasts as steps over a node, and what holds of every run; [Promises]: what the
      messages that are sent say is true; [Wire]: the messages as JSON.
    - [Closing] ([raft/raft.go]): a node after [Shutdown], while its goroutines go on.
    - [Setup] ([server/cluster.go], [cmd/server/main.go]): the configuration, and
      starting a server, on [BoltStore] or on any stores that keep their promises.
    - [Editor]: all servers with their clients; the end-to-end theorems, on any stores.
    - [Command] ([cmd/server/main.go]): the process around a server, and its health page.

    ** How the model corresponds to the code

    - A Go [int] or [uint64] is a [Z]; [+ᵢ] and [+ᵤ] (with [-ᵢ], [-ᵤ]) wrap around as
      Go's operations do. A string or [[]byte] is a list of bytes ([text]).
    - A call gives an [outcome]: it returns ([Ret]), returns an error ([Err]), panics
      ([Panic], for an index or a slice out of range), or a loop is cut off by its
      fuel ([NoFuel]). Loops that are not structural take fuel computed from their
      arguments, such as the lengths of the two changesets for [Compose] and
      [Follow] or the distance of two indices for the loops over the log; the
      theorems say that the call returns, so the fuel is enough.
    - A node is the record [RaftNode] of the fields that [raft.go] lists, over the
      types of its two stores, of its state machine and of its results; a handler
      takes a node and gives the node after it. The futures are a heap from addresses
      to [ApplyFuture], since clients, the log and the timers share them.
    - Critical sections of the node's lock are the steps of [Machine.step]; the
      network, the timers and the clients are the labels of the steps. A replicator
      of an earlier leadership keeps the peer state it points to, which is no longer
      in the node's table.
    - Iteration over a map is over its [map_to_list]; the theorems do not depend on
      the order. Logging is left out.
    - The goroutines of the WebSocket server are the steps of [Server.sstep], over the
      node's; those of several nodes are the steps of [Network.nstep], where a message
      and its answer may arrive late or never, and a node may crash at any time and start
      again with the stores it had. A handler that waits for a future does so in a step
      ([LWait]); the callbacks that [Apply] has spawned stay listed in the document
      ([doc_spawned]), and those that have had the lock are in [taken].
    - [Editor.estep] runs the WebSocket servers and the network together; the connections
      of a server end when it crashes. [Command.process_step] is one server in its process:
      after a signal, [main] makes the calls of its shutdown one at a time ([phase]) while
      everything else goes on. [RaftNode.Shutdown] itself, which closes its channel and then
      takes the lock, is one step.
    - A step that the code ends with a panic of the node is not enabled in [Machine.step]
      ([Machine.try]), and so not in the steps over it. That the state machine does not
      panic on what is committed is stated of the calls ([Apply_never_crashes],
      [editor_never_panics], [indices_in_order] for the accesses to the log), not of the
      steps. The WebSocket server's own panics are results of [Server.sstep].
    - A TCP connection is the list of bytes that arrive; a deadline or a broken
      connection is a list that ends. The connection gives its request to the node
      ([delivery]): the send blocks for ever, or no answer comes in time, or one does.
    - A slice is a list: [nil] and an empty slice are one value, which JSON writes as
      [null], where Go writes an empty slice that is not [nil] as [[]]; [Decode] reads both.
      A node on [BoltStore] has the database twice, as its log and as its stable store,
      and each operation touches only the bucket of its side; closing it closes both.
    - Interfaces: a node is proved against any stores ([LogStoreSpec],
      [StableStoreSpec]; [Stores] and [Bolt] are instances) and any state machine (the
      class [FSM]; [Document] is one); the document against any codec of entries (the
      class [EntryCodec]; [Codec.json_codec] is the program's); the WebSocket server
      against any codec of messages (the class [WireCodec]; [Wire.json_wire] is the
      program's).
    - Parameters: [go.etcd.io/bbolt] (the class [Bolt] with its laws [BoltLaws], and apart
      from them [BoltCursor], which goes beyond its documentation and on which only the
      theorems about [DeleteRange] rest; a map of maps that can be closed is an instance of
      all three), [rand.Int63n], the answers of the operating system.

    ** What is proved

    - OT: two concurrent changesets without adjacent insertions converge
      ([Follow_convergence]; [Follow_noncanonical_diverges] shows two with), and [Follow]
      computes the reference merge ([Follow_correct]); [Compose] acts as the two in
      turn and is associative ([Compose_correct], [Compose_assoc]); [Validate] is
      exactly well-formedness ([Validate_spec]), [ApplyChangeset] computes [exec] and
      errs or succeeds on every valid list of operations ([ApplyChangeset_correct],
      [ApplyChangeset_decides]); the diff turns the old text into the new one and
      keeps as much as possible ([DiffToChangeset_correct],
      [DiffToChangeset_minimal]).
    - Document: on a log of validated submissions without overflow or negative revisions
      no replica crashes ([Apply_never_crashes]), the text is the replay of the revision
      log ([Apply_invariant]), a submission is committed, rebased over the revisions since
      its own, as the next revision ([Apply_accepts]), once ([Apply_exactly_once],
      [Apply_resubmission]), and a
      client catches up by the revisions since its own ([RevisionsSince_catch_up]).
    - Votes: the rules of a grant ([handleRequestVote_correct]), one candidate per
      term for a follower ([follower_votes_once]); what is on disk when a node crashes
      ([restart_restores], [vote_survives_restart]); a leader has counted a quorum in its term
      ([leader_won_its_term]).
    - Log: AppendEntries keeps Log Matching ([handleAppendEntries_matching]), rounds
      of it copy the leader's log in finitely many steps ([sync_replicates]), and the
      commit index moves to what a majority holds ([advanceCommitIndex_majority]).
    - Application: entries are applied in order, once ([applyCommitted_in_order]), so
      replicas agree ([replicas_agree]); proposals and their futures
      ([handleApplyRequest_correct], [failPendingFutures_answers],
      [future_first_wins]); the stores ([inmem_replace_suffix],
      [uint64ToBytes_order]) and the configuration ([validate_iff]).
    - Elections: no two servers are leader of one term ([election_safety]), in
      particular servers that the program has started on disk stores
      ([servers_elect_safely]).
    - Clusters: entries of one index and term are equal on all servers, and so are the
      logs up to them ([log_matching]). The history of [LogMatching] gives every term
      its leader's log, and every log is made of its pieces. What one server has
      committed no other contradicts, then or later ([state_machine_safety]), every later
      leader has it ([leader_completeness]), and the indices of a server keep their order
      and go back only in a crash ([indices_in_order]). All of it, and [election_safety],
      in runs in which servers crash and start again: a new process has the old one's log,
      its term and its vote, or a newer term, and its machine starts over. So state
      machines that start equal have applied the committed entries of one log
      ([state_machines_agree]), and the documents of the servers that the program has set up
      agree ([servers_agree]). Whatever leaders
      the entries have been copied through, they are no-ops or were submitted by clients
      of the run ([entries_are_submitted]). And from every state that such a run
      reaches, the servers of a majority that are up can go on without the others: elect
      one of them, and commit, apply and answer what a client then submits to it
      ([majority_commits]; their goroutines are where the code waits as a follower). The
      runs are [led_run]s: [ElectionSafety.calm],
      [LogMatching.orderly] and [CommitSafety.timely] say of each answer to
      AppendEntries what the code does not check when it arrives, and
      [noop_race_diverges] and [late_answer_diverges] are runs that need the check; a
      crash finds on disk the term and the vote or what was being written, as it does
      unless a write of them has failed ([restart_restores]; [vote_despite_failed_write]
      is what happens otherwise).
    - Storage and messages: entries come back as they were stored
      ([entry_roundtrip]); the disk store keeps what is written, errs once it is closed
      ([BoltStore_keeps] and the instances of [Bolt]) and, if a cursor goes on after a
      deletion, replaces a suffix ([bolt_replace_suffix]); a remote call gets the answer
      that was given to the request ([tcp_call_delivers]), connections end unless a send to
      the node blocks ([handleConnection_terminates]), and the clients' messages arrive
      ([messages_arrive]).
    - Server and document: a server's document is what the state machine makes of its
      log, and two servers agree ([document_of_log], [documents_agree]); the server
      panics on nothing but a negative revision ([server_never_panics]); only checked
      entries are proposed ([proposals_admitted]); a commit reaches its author and the
      others ([onCommit_delivers]), and a client that connects can go on
      ([connect_catches_up]).
    - The whole editor: all servers, with their nodes, documents and WebSocket servers,
      and the clients, whose proposals are the submissions of the network underneath
      ([editor_refines_network]). Nothing that civil clients do crashes a server
      ([editor_never_panics]: arbitrary bytes, but no negative revision, lengths that fit an
      [int] and insertions of at most [K] bytes, in runs in which [K] for each step still
      fits), and what a client has been told is in the revision log of every server that has
      applied as much, then or later and whatever crashes in between
      ([acknowledged_edits_last]). Both are for servers on any stores that keep their
      promises.
    - Starting and stopping: [SetupRaft_spec], [main_config_correct], [initial_text]; a node
      that is shut down takes no proposal and leaves its loops ([quiet_step],
      [quiet_leader_ends]); the life of a process until its exit status, one call of its
      shutdown at a time ([process_life], [late_leader]); the health page and the
      identifiers for which it is JSON ([health_page]).
    - Where the code falls short, on concrete inputs or in general:
      [Apply_negative_base_panics], [Apply_stale_length_commits],
      [Follow_noncanonical_diverges], [Validate_overflow_panics],
      [DiffToChangeset_invalid_utf8], [candidate_votes_twice],
      [vote_despite_failed_write], [stale_response_makes_leader],
      [noop_race_diverges], [late_answer_diverges], [single_node_never_commits],
      [large_backlog_never_sent], [stopped_connection], [late_leader],
      [negative_revision_crashes], [torn_connect_ack], [reconnect_unregisters],
      [broadcasts_reordered].

    ** Bounds

    Lengths are assumed to fit a machine integer where the code adds them
    ([max_int], about 9.2e18; [max_uint] for log indices), as named hypotheses of
    the theorems that need it; [Validate_overflow_panics] shows what happens beyond.

    A request of more than ten megabytes is refused by the transport
    ([Transport.max_payload]); the theorems about delivery take the size as a
    hypothesis. The JSON parser has the depth limit of Go's scanner (10000), and what
    the program writes is at most six deep.

    The theorems about runs of a cluster are for runs of fewer than 2^62 steps, so that
    no log reaches the largest index, and for terms below 2^64 - 1.

    ** Not modelled

    The browser client; of [cmd/server/main.go], what [net/http] does for a connection, the
    static files and logging; the WebSocket handshake, pings and deadlines (a write may
    fail at any time). Timers and durations appear as labels that may come at any
    time. A crash comes between two critical sections or in the middle of [persistState],
    but not between the two transactions on the log ([DeleteRange] and [StoreLogs]) of one
    AppendEntries. [%q] in the error of a data directory that cannot be made is for a path
    without special characters ([Command.Quote] has the rest). *)
From Stdlib Require Export ZArith Lia Strings.Byte.
From stdpp Require Export prelude list gmap strings.

Declare Scope go_scope.
Delimit Scope go_scope with go.
Open Scope Z_scope.

(** * Bytes, text, machine integers *)

Abbreviation byte := Byte.byte.

(** A Go [string] or [[]byte] that holds data: a sequence of bytes. *)
Abbreviation text := (list byte).

#[export] Instance byte_eq_dec : EqDecision byte.
Proof.
  intros x y. destruct (Byte.eqb x y) eqn:E; [left|right].
  - by apply Byte.byte_dec_bl.
  - intros ->. by rewrite (Byte.byte_dec_lb eq_refl) in E.
Defined.

(** The bytes of a literal. *)
Definition bytes_of (s : string) : text := String.list_byte_of_string s.

#[export] Instance byte_countable : Countable byte :=
  inj_countable Byte.to_N Byte.of_N Byte.of_to_N.

(** The value of a byte, 0..255. *)
Definition byte_val (b : byte) : Z := Z.of_N (Byte.to_N b).

(** The byte with value [z] modulo 256. *)
Definition byte_of_Z (z : Z) : byte :=
  match Byte.of_N (Z.to_N (z mod 256)) with Some b => b | None => Byte.x00 end.

(** [len(s)] of a slice or string. *)
Definition zlen {A} (l : list A) : Z := Z.of_nat (length l).

(** Go's [int] and [int64] on a 64-bit platform. *)
Definition max_int : Z := 2 ^ 63 - 1.
Definition wrap64 (z : Z) : Z := (z + 2 ^ 63) mod 2 ^ 64 - 2 ^ 63.

(** Go's [uint64]. *)
Definition max_uint : Z := 2 ^ 64 - 1.
Definition uwrap64 (z : Z) : Z := z mod 2 ^ 64.

Notation "x +ᵢ y" := (wrap64 (x + y)) (at level 50, left associativity) : go_scope.
Notation "x -ᵢ y" := (wrap64 (x - y)) (at level 50, left associativity) : go_scope.
Notation "x +ᵤ y" := (uwrap64 (x + y)) (at level 50, left associativity) : go_scope.
Notation "x -ᵤ y" := (uwrap64 (x - y)) (at level 50, left associativity) : go_scope.

(** Go's [<=] on strings: bytewise lexicographic order. *)
Fixpoint str_leb (s t : text) : bool :=
  match s, t with
  | [], _ => true
  | _ :: _, [] => false
  | x :: s', y :: t' =>
      if byte_val x <? byte_val y then true
      else if byte_val x =? byte_val y then str_leb s' t'
      else false
  end.

(** * Outcomes of a call

    [Ret v] is a normal return, [Err e] a returned non-nil [error],
    [Panic] a run-time panic (slice or index out of range), and [NoFuel] says
    that the model's loop bound ran out: it is no behaviour of the code, and a
    loop that gives [NoFuel] for every bound does not terminate. *)
Inductive outcome (E A : Type) : Type :=
| Ret (a : A)
| Err (e : E)
| Panic
| NoFuel.
Arguments Ret {E A} a.
Arguments Err {E A} e.
Arguments Panic {E A}.
Arguments NoFuel {E A}.

#[export] Instance outcome_ret E : MRet (outcome E) := fun A a => Ret a.
#[export] Instance outcome_bind E : MBind (outcome E) := fun A B f m =>
  match m with
  | Ret a => f a
  | Err e => Err e
  | Panic => Panic
  | NoFuel => NoFuel
  end.

Definition is_ret {E A} (m : outcome E A) : bool :=
  match m with Ret _ => true | _ => false end.

(** The value of a call that returns, for examples. *)
Definition ret_of {E A} (d : A) (m : outcome E A) : A :=
  match m with Ret a => a | _ => d end.

#[export] Instance outcome_eq_dec E A `{EqDecision E, EqDecision A} :
  EqDecision (outcome E A).
Proof. solve_decision. Defined.

(** [s[lo:hi]]: panics unless [0 <= lo <= hi <= len(s)]. *)
Definition slice {E A} (s : list A) (lo hi : Z) : outcome E (list A) :=
  if (0 <=? lo) && (lo <=? hi) && (hi <=? zlen s)
  then Ret (take (Z.to_nat (hi - lo)) (drop (Z.to_nat lo) s))
  else Panic.

(** [s[i]]: panics unless [0 <= i < len(s)]. *)
Definition index {E A} (s : list A) (i : Z) : outcome E A :=
  if (0 <=? i) then
    match s !! Z.to_nat i with Some x => Ret x | None => Panic end
  else Panic.

(** * Lemmas *)

Lemma wrap64_small z : - 2 ^ 63 <= z <= max_int -> wrap64 z = z.
Proof. unfold wrap64, max_int. intros H. rewrite Z.mod_small; lia. Qed.

Lemma wrap64_range z : - 2 ^ 63 <= wrap64 z <= max_int.
Proof.
  unfold wrap64, max_int.
  pose proof (Z.mod_pos_bound (z + 2 ^ 63) (2 ^ 64) ltac:(lia)). lia.
Qed.

Lemma uwrap64_small z : 0 <= z <= max_uint -> uwrap64 z = z.
Proof. unfold uwrap64, max_uint. intros H. rewrite Z.mod_small; lia. Qed.

Lemma uwrap64_range z : 0 <= uwrap64 z <= max_uint.
Proof.
  unfold uwrap64, max_uint.
  pose proof (Z.mod_pos_bound z (2 ^ 64) ltac:(lia)). lia.
Qed.

Lemma zlen_nil {A} : zlen (@nil A) = 0.
Proof. reflexivity. Qed.
Lemma zlen_cons {A} (x : A) l : zlen (x :: l) = 1 + zlen l.
Proof. unfold zlen. simpl. lia. Qed.
Lemma zlen_app {A} (l k : list A) : zlen (l ++ k) = zlen l + zlen k.
Proof. unfold zlen. rewrite length_app. lia. Qed.
Lemma zlen_nonneg {A} (l : list A) : 0 <= zlen l.
Proof. unfold zlen. lia. Qed.
Lemma zlen_to_nat {A} (l : list A) : Z.to_nat (zlen l) = length l.
Proof. unfold zlen. lia. Qed.
Lemma zlen_take {A} (l : list A) n : zlen (take n l) = Z.min (Z.of_nat n) (zlen l).
Proof. unfold zlen. rewrite length_take. lia. Qed.
Lemma zlen_drop {A} (l : list A) n : zlen (drop n l) = Z.max 0 (zlen l - Z.of_nat n).
Proof. unfold zlen. rewrite length_drop. lia. Qed.
Lemma zlen_zero {A} (l : list A) : zlen l = 0 -> l = [].
Proof. unfold zlen. destruct l; simpl; [done|lia]. Qed.

Lemma byte_val_inj a b : byte_val a = byte_val b -> a = b.
Proof.
  unfold byte_val. intros H%N2Z.inj.
  pose proof (Byte.of_to_N a) as Ha. rewrite H, Byte.of_to_N in Ha. congruence.
Qed.

Lemma byte_val_of_Z z : 0 <= z < 256 -> byte_val (byte_of_Z z) = z.
Proof.
  intros Hz. unfold byte_of_Z. rewrite Z.mod_small by lia.
  destruct (Byte.of_N (Z.to_N z)) as [b|] eqn:E.
  - unfold byte_val. rewrite (Byte.to_of_N _ E). lia.
  - apply Byte.of_N_None_iff in E. lia.
Qed.

Lemma str_leb_refl s : str_leb s s = true.
Proof.
  induction s as [|x s IH]; simpl; [done|].
  by rewrite Z.ltb_irrefl, Z.eqb_refl.
Qed.

Lemma str_leb_total s t : str_leb s t = false -> str_leb t s = true.
Proof.
  revert t. induction s as [|x s IH]; intros [|y t]; simpl; try done.
  destruct (Z.ltb_spec (byte_val x) (byte_val y)); [done|].
  destruct (Z.eqb_spec (byte_val x) (byte_val y)) as [E|E].
  - rewrite E, Z.ltb_irrefl, Z.eqb_refl. apply IH.
  - destruct (Z.ltb_spec (byte_val y) (byte_val x)); [done|lia].
Qed.

Lemma str_leb_antisym s t : str_leb s t = true -> str_leb t s = true -> s = t.
Proof.
  revert t. induction s as [|x s IH]; intros [|y t]; simpl; try done.
  destruct (Z.eq_dec (byte_val x) (byte_val y)) as [E|E].
  - rewrite E, Z.ltb_irrefl, Z.eqb_refl. intros H1 H2.
    by rewrite (byte_val_inj _ _ E), (IH t H1 H2).
  - intros H1 H2. exfalso. revert H1 H2.
    destruct (Z.ltb_spec (byte_val x) (byte_val y)),
      (Z.ltb_spec (byte_val y) (byte_val x)),
      (Z.eqb_spec (byte_val x) (byte_val y)),
      (Z.eqb_spec (byte_val y) (byte_val x)); try done; lia.
Qed.

Lemma str_leb_trans s t u : str_leb s t = true -> str_leb t u = true -> str_leb s u = true.
Proof.
  revert t u. induction s as [|x s IH]; intros [|y t] [|z u]; simpl; try done.
  destruct (Z.ltb_spec (byte_val x) (byte_val y)), (Z.ltb_spec (byte_val y) (byte_val z)),
    (Z.eqb_spec (byte_val x) (byte_val y)), (Z.eqb_spec (byte_val y) (byte_val z)),
    (Z.ltb_spec (byte_val x) (byte_val z)), (Z.eqb_spec (byte_val x) (byte_val z));
    try done; try lia. apply IH.
Qed.

Lemma slice_ok {E A} (s : list A) lo hi :
  0 <= lo -> lo <= hi -> hi <= zlen s ->
  slice (E := E) s lo hi = Ret (take (Z.to_nat (hi - lo)) (drop (Z.to_nat lo) s)).
Proof.
  intros ???. unfold slice.
  by rewrite (proj2 (Z.leb_le 0 lo)), (proj2 (Z.leb_le lo hi)), (proj2 (Z.leb_le hi _)).
Qed.

Lemma ret_of_eq {E A} (d : A) (m : outcome E A) : is_ret m = true -> m = Ret (ret_of d m).
Proof. by destruct m. Qed.

Lemma ret_of_pair {E A B} (d : A * B) (m : outcome E (A * B)) :
  is_ret m = true -> m = Ret (fst (ret_of d m), snd (ret_of d m)).
Proof. intros Hm. rewrite (ret_of_eq d m Hm) at 1. by destruct (ret_of d m). Qed.

Lemma bind_ret {E A B} (m : outcome E A) (f : A -> outcome E B) b :
  m ≫= f = Ret b <-> exists a, m = Ret a /\ f a = Ret b.
Proof.
  destruct m; unfold mbind; simpl; split; try (by intros [? [? ?]]);
    try done; [eauto | intros [? [[= <-] ?]]; done].
Qed.

(** * Automation *)

Create HintDb godb.
Create Rewrite HintDb zlen.
#[export] Hint Rewrite @zlen_nil @zlen_cons @zlen_app @zlen_take @zlen_drop : zlen.
#[export] Hint Resolve zlen_nonneg str_leb_refl : godb.

(** [zl]: linear arithmetic over lengths of lists and machine integers. *)
Ltac zlen_facts :=
  repeat match goal with
  | |- context [zlen ?l] => lazymatch goal with H : 0 <= zlen l |- _ => fail
                            | _ => pose proof (zlen_nonneg l) end
  | _ : context [zlen ?l] |- _ => lazymatch goal with H : 0 <= zlen l |- _ => fail
                            | _ => pose proof (zlen_nonneg l) end
  end.
Ltac zl := autorewrite with zlen in *; zlen_facts; unfold max_int in *; lia.

(** [bool_cases]: split the conditionals of the goal on integer tests. *)
Ltac bool_cases :=
  repeat match goal with
  | |- context [if ?a <? ?b then _ else _] => destruct (Z.ltb_spec a b)
  | |- context [if ?a <=? ?b then _ else _] => destruct (Z.leb_spec a b)
  | |- context [if ?a =? ?b then _ else _] => destruct (Z.eqb_spec a b)
  end.

(** A closed computation that gives a value, by evaluating only that it does. *)
Definition is_some {A} (o : option A) : bool := match o with Some _ => true | None => false end.
Lemma default_eq {A} (d : A) (o : option A) : is_some o = true -> o = Some (default d o).
Proof. by destruct o. Qed.

(** [by_compute]: a closed goal that evaluation decides. *)
Ltac by_compute :=
  first [ vm_compute; reflexivity
        | apply (bool_decide_unpack _); vm_compute; exact I
        | vm_compute; intuition congruence ].
