(* ===== verification/Changeset.v ===== *)
(** Changesets ([internal/ot/changeset.go]): the operations, the constructors
    [Identity], [TextToChangeset], [MakeInsert], [MakeDelete], the test
    [IsIdentity] and the checker [Validate]; the well-formedness predicate the
    other files share, and the reference semantics [exec] of a list of
    operations as a function on texts. *)
From S2P Require Import Prelude.

(** * Data *)

(** [type OpType string]: the three constants, and any other string a decoded
    message may carry (the [default] branches of the switches). *)
Inductive OpType : Type :=
| OpRetain
| OpInsert
| OpDelete
| OpUnknown (s : string).

#[export] Instance OpType_eq_dec : EqDecision OpType.
Proof. solve_decision. Defined.

Record Op : Type := mkOp { Typ : OpType; Len : Z; Chars : text }.

#[export] Instance Op_eq_dec : EqDecision Op.
Proof. solve_decision. Defined.

Record Changeset : Type := mkChangeset { OldLen : Z; NewLen : Z; Ops : list Op }.

#[export] Instance Changeset_eq_dec : EqDecision Changeset.
Proof. solve_decision. Defined.

(** The struct literals [Op{Type: OpRetain, Len: n}] etc.: the other field has
    its zero value. *)
Definition retain (n : Z) : Op := mkOp OpRetain n [].
Definition insert_op (s : text) : Op := mkOp OpInsert 0 s.
Definition delete_op (n : Z) : Op := mkOp OpDelete n [].

(** The errors of the package, one constructor per [fmt.Errorf]. *)
Inductive ot_error : Type :=
| ErrRetainLen (n : Z)                    (* retain len must be positive, got n *)
| ErrInsertEmpty                          (* insert chars must not be empty *)
| ErrDeleteLen (n : Z)                    (* delete len must be positive, got n *)
| ErrUnknownOp (t : OpType)               (* unknown op type: t *)
| ErrConsumed (n oldLen : Z)              (* ops consume n chars but OldLen=oldLen *)
| ErrProduced (n newLen : Z)              (* ops produce n chars but NewLen=newLen *)
| ErrOldLen (oldLen len : Z)              (* OldLen does not match text length *)
| ErrRetainRange (n pos len : Z)          (* retain n at pos exceeds text length *)
| ErrDeleteRange (n pos len : Z)          (* delete n at pos exceeds text length *)
| ErrNotConsumed (pos len : Z).           (* only consumed pos of len source chars *)

#[export] Instance ot_error_eq_dec : EqDecision ot_error.
Proof. solve_decision. Defined.

(** * Operations *)

Definition Identity (n : Z) : Changeset :=
  if n =? 0 then mkChangeset 0 0 []
  else mkChangeset n n [retain n].

Definition IsIdentity (c : Changeset) : bool :=
  if negb (OldLen c =? NewLen c) then false
  else if (OldLen c =? 0) && (zlen (Ops c) =? 0) then true
  else match Ops c with
       | [op] => bool_decide (Typ op = OpRetain) && (Len op =? OldLen c)
       | _ => false
       end.

Definition TextToChangeset (s : text) : Changeset :=
  let n := zlen s in
  if n =? 0 then mkChangeset 0 0 []
  else mkChangeset 0 n [insert_op s].

Definition MakeInsert (oldLen pos : Z) (s : text) : Changeset :=
  let ops := if 0 <? pos then [retain pos] else [] in
  let ops := ops ++ [insert_op s] in
  let tail := (oldLen -ᵢ pos)%go in
  let ops := if 0 <? tail then ops ++ [retain tail] else ops in
  mkChangeset oldLen (oldLen +ᵢ zlen s)%go ops.

Definition MakeDelete (oldLen pos count : Z) : Changeset :=
  let ops := if 0 <? pos then [retain pos] else [] in
  let ops := ops ++ [delete_op count] in
  let tail := (oldLen -ᵢ pos -ᵢ count)%go in
  let ops := if 0 <? tail then ops ++ [retain tail] else ops in
  mkChangeset oldLen (oldLen -ᵢ count)%go ops.

(** The loop of [Validate]: returns the totals [(sourceConsumed, newLen)]. *)
Fixpoint validate_loop (ops : list Op) (sourceConsumed newLen : Z)
  : outcome ot_error (Z * Z) :=
  match ops with
  | [] => Ret (sourceConsumed, newLen)
  | op :: ops' =>
      match Typ op with
      | OpRetain =>
          if Len op <=? 0 then Err (ErrRetainLen (Len op))
          else validate_loop ops' (sourceConsumed +ᵢ Len op)%go (newLen +ᵢ Len op)%go
      | OpInsert =>
          if zlen (Chars op) =? 0 then Err ErrInsertEmpty
          else validate_loop ops' sourceConsumed (newLen +ᵢ zlen (Chars op))%go
      | OpDelete =>
          if Len op <=? 0 then Err (ErrDeleteLen (Len op))
          else validate_loop ops' (sourceConsumed +ᵢ Len op)%go newLen
      | OpUnknown s => Err (ErrUnknownOp (OpUnknown s))
      end
  end.

Definition Validate (c : Changeset) : outcome ot_error unit :=
  p ← validate_loop (Ops c) 0 0;
  let '(sourceConsumed, newLen) := p in
  if negb (sourceConsumed =? OldLen c) then Err (ErrConsumed sourceConsumed (OldLen c))
  else if negb (newLen =? NewLen c) then Err (ErrProduced newLen (NewLen c))
  else Ret tt.

(** * Well-formedness *)

(** Source characters an operation consumes, and result characters it makes. *)
Definition op_src (op : Op) : Z :=
  match Typ op with OpRetain | OpDelete => Len op | _ => 0 end.
Definition op_dst (op : Op) : Z :=
  match Typ op with OpRetain => Len op | OpInsert => zlen (Chars op) | _ => 0 end.

Fixpoint src_len (ops : list Op) : Z :=
  match ops with [] => 0 | op :: r => op_src op + src_len r end.
Fixpoint dst_len (ops : list Op) : Z :=
  match ops with [] => 0 | op :: r => op_dst op + dst_len r end.

Definition valid_op (op : Op) : Prop :=
  match Typ op with
  | OpRetain | OpDelete => 0 < Len op
  | OpInsert => Chars op <> []
  | OpUnknown _ => False
  end.

#[export] Instance valid_op_dec op : Decision (valid_op op).
Proof. unfold valid_op. destruct (Typ op); apply _. Defined.

Definition valid_ops (ops : list Op) : Prop := Forall valid_op ops.

(** A changeset whose two lengths are the totals of its operations, all of them
    non-empty, and fit a machine integer. *)
Record wf (c : Changeset) : Prop := mk_wf {
  wf_ops : valid_ops (Ops c);
  wf_old : src_len (Ops c) = OldLen c;
  wf_new : dst_len (Ops c) = NewLen c;
  wf_old_max : OldLen c <= max_int;
  wf_new_max : NewLen c <= max_int
}.

Lemma wf_iff c :
  valid_ops (Ops c) /\ src_len (Ops c) = OldLen c /\ dst_len (Ops c) = NewLen c /\
    OldLen c <= max_int /\ NewLen c <= max_int <-> wf c.
Proof. split; [intros (?&?&?&?&?); by constructor | by intros []]. Qed.

#[export] Instance wf_dec c : Decision (wf c) :=
  match decide (valid_ops (Ops c) /\ src_len (Ops c) = OldLen c /\
    dst_len (Ops c) = NewLen c /\ OldLen c <= max_int /\ NewLen c <= max_int) with
  | left H => left (proj1 (wf_iff c) H)
  | right H => right (fun W => H (proj2 (wf_iff c) W))
  end.

(** No two neighbouring insertions: the condition under which [Follow]
    commutes. *)
Fixpoint no_adj_ins (ops : list Op) : Prop :=
  match ops with
  | [] => True
  | op :: r =>
      (Typ op = OpInsert -> match r with [] => True | op' :: _ => Typ op' <> OpInsert end)
      /\ no_adj_ins r
  end.

(** * Reference semantics

    What a list of operations does to a text, as a total function: no error
    paths, no cursors. *)
Fixpoint exec (ops : list Op) (src : text) : text :=
  match ops with
  | [] => []
  | op :: r =>
      match Typ op with
      | OpRetain => take (Z.to_nat (Len op)) src ++ exec r (drop (Z.to_nat (Len op)) src)
      | OpInsert => Chars op ++ exec r src
      | OpDelete => exec r (drop (Z.to_nat (Len op)) src)
      | OpUnknown _ => exec r src
      end
  end.

(** * Lemmas on lengths and validity *)

Create Rewrite HintDb ops.

Lemma valid_retain n : valid_op (retain n) <-> 0 < n.
Proof. done. Qed.
Lemma valid_delete n : valid_op (delete_op n) <-> 0 < n.
Proof. done. Qed.
Lemma valid_insert s : valid_op (insert_op s) <-> s <> [].
Proof. done. Qed.
Lemma op_src_retain n : op_src (retain n) = n.
Proof. done. Qed.
Lemma op_dst_retain n : op_dst (retain n) = n.
Proof. done. Qed.
Lemma op_src_delete n : op_src (delete_op n) = n.
Proof. done. Qed.
Lemma op_dst_delete n : op_dst (delete_op n) = 0.
Proof. done. Qed.
Lemma op_src_insert s : op_src (insert_op s) = 0.
Proof. done. Qed.
Lemma op_dst_insert s : op_dst (insert_op s) = zlen s.
Proof. done. Qed.
#[export] Hint Rewrite valid_retain valid_delete valid_insert op_src_retain op_dst_retain
  op_src_delete op_dst_delete op_src_insert op_dst_insert : ops.

Lemma valid_op_src op : valid_op op -> 0 <= op_src op.
Proof. unfold valid_op, op_src. destruct (Typ op); lia. Qed.

Lemma valid_op_dst op : valid_op op -> 0 <= op_dst op.
Proof. unfold valid_op, op_dst. destruct (Typ op); try lia. intros; apply zlen_nonneg. Qed.

Lemma valid_ops_src ops : valid_ops ops -> 0 <= src_len ops.
Proof. induction 1 as [|op r H _ IH]; simpl; [lia|]. apply valid_op_src in H. lia. Qed.

Lemma valid_ops_dst ops : valid_ops ops -> 0 <= dst_len ops.
Proof. induction 1 as [|op r H _ IH]; simpl; [lia|]. apply valid_op_dst in H. lia. Qed.

#[export] Hint Resolve valid_op_src valid_op_dst valid_ops_src valid_ops_dst : godb.

Lemma src_len_app xs ys : src_len (xs ++ ys) = src_len xs + src_len ys.
Proof. induction xs as [|x xs IH]; simpl; lia. Qed.

Lemma dst_len_app xs ys : dst_len (xs ++ ys) = dst_len xs + dst_len ys.
Proof. induction xs as [|x xs IH]; simpl; lia. Qed.

Lemma valid_ops_app xs ys : valid_ops (xs ++ ys) <-> valid_ops xs /\ valid_ops ys.
Proof. apply Forall_app. Qed.

#[export] Hint Rewrite src_len_app dst_len_app : ops.

Lemma exec_app xs ys src :
  valid_ops xs ->
  exec (xs ++ ys) src = exec xs src ++ exec ys (drop (Z.to_nat (src_len xs)) src).
Proof.
  intros H. revert src. induction H as [|op r Hop Hr IH]; intros src; simpl.
  - by rewrite drop_0.
  - pose proof (valid_ops_src _ Hr). unfold valid_op, op_src in *.
    destruct (Typ op); rewrite IH.
    + rewrite <-app_assoc, drop_drop. do 4 f_equal; lia.
    + rewrite <-app_assoc. do 4 f_equal; lia.
    + rewrite drop_drop. do 3 f_equal; lia.
    + done.
Qed.

Lemma exec_zlen ops src :
  valid_ops ops -> src_len ops <= zlen src -> zlen (exec ops src) = dst_len ops.
Proof.
  intros H. revert src. induction H as [|op r Hop Hr IH]; intros src; simpl; [done|].
  pose proof (valid_ops_src _ Hr). unfold valid_op, op_src, op_dst in *.
  destruct (Typ op); intros Hs; try done; autorewrite with zlen;
    rewrite IH; autorewrite with zlen; lia.
Qed.

Lemma no_adj_ins_tail op r : no_adj_ins (op :: r) -> no_adj_ins r.
Proof. by intros [_ H]. Qed.

(** ** [Validate] *)

Lemma validate_loop_ok ops a b :
  0 <= a -> 0 <= b ->
  a + src_len ops <= max_int -> b + dst_len ops <= max_int ->
  valid_ops ops ->
  validate_loop ops a b = Ret (a + src_len ops, b + dst_len ops).
Proof.
  intros Ha Hb Hsa Hsb H. revert a b Ha Hb Hsa Hsb.
  induction H as [|op r Hop Hr IH]; intros a b Ha Hb Hsa Hsb; simpl in *.
  { by rewrite !Z.add_0_r. }
  pose proof (valid_ops_src _ Hr). pose proof (valid_ops_dst _ Hr).
  unfold valid_op, op_src, op_dst in *.
  destruct (Typ op); try done; zlen_facts; unfold max_int in *.
  - destruct (Z.leb_spec (Len op) 0); [lia|].
    rewrite !wrap64_small, IH by (unfold max_int; lia). do 2 f_equal; lia.
  - destruct (Z.eqb_spec (zlen (Chars op)) 0) as [E|E].
    { by apply zlen_zero in E. }
    rewrite wrap64_small, IH by (unfold max_int; lia). do 2 f_equal; lia.
  - destruct (Z.leb_spec (Len op) 0); [lia|].
    rewrite wrap64_small, IH by (unfold max_int; lia). do 2 f_equal; lia.
Qed.

Lemma validate_loop_valid ops a b p :
  validate_loop ops a b = Ret p -> valid_ops ops.
Proof.
  revert a b. induction ops as [|op r IH]; intros a b; simpl; [constructor|].
  unfold valid_ops. rewrite Forall_cons. unfold valid_op at 1.
  destruct (Typ op).
  - destruct (Z.leb_spec (Len op) 0) as [|Hl]; [done|]. intros H%IH. by split.
  - destruct (Z.eqb_spec (zlen (Chars op)) 0) as [E|E]; [done|].
    intros H%IH. split; [|done]. intros E'. by rewrite E' in E.
  - destruct (Z.leb_spec (Len op) 0) as [|Hl]; [done|]. intros H%IH. by split.
  - done.
Qed.

Lemma Validate_wf c : wf c -> Validate c = Ret tt.
Proof.
  intros [Hv Ho Hn Hmo Hmn]. unfold Validate.
  rewrite (validate_loop_ok _ 0 0) by (auto; lia).
  simpl. by rewrite Ho, Hn, !Z.eqb_refl.
Qed.

Lemma Validate_iff c :
  src_len (Ops c) <= max_int -> dst_len (Ops c) <= max_int ->
  (Validate c = Ret tt <-> wf c).
Proof.
  intros Hs Hd. split; [|apply Validate_wf].
  intros H. assert (Hv : valid_ops (Ops c)).
  { unfold Validate in H. apply bind_ret in H as [p [H _]].
    by eapply validate_loop_valid. }
  revert H. unfold Validate. rewrite (validate_loop_ok _ 0 0) by (auto; lia). simpl. rewrite !Z.add_0_l.
  destruct (Z.eqb_spec (src_len (Ops c)) (OldLen c)); simpl; [|done].
  destruct (Z.eqb_spec (dst_len (Ops c)) (NewLen c)); simpl; [|done].
  intros _. constructor; auto; lia.
Qed.

(** ** The constructors *)

Lemma Identity_wf n : 0 <= n <= max_int -> wf (Identity n).
Proof.
  intros Hn. unfold Identity. destruct (Z.eqb_spec n 0) as [->|].
  - constructor; simpl; try lia. constructor.
  - constructor; simpl; rewrite ?op_src_retain, ?op_dst_retain; try lia.
    constructor; [apply valid_retain; lia|constructor].
Qed.

Lemma Identity_exec n t : zlen t = n -> exec (Ops (Identity n)) t = t.
Proof.
  intros <-. unfold Identity. destruct (Z.eqb_spec (zlen t) 0) as [E|E].
  - by rewrite (zlen_zero t E).
  - simpl. by rewrite zlen_to_nat, firstn_all, app_nil_r.
Qed.

Lemma Identity_lens n : OldLen (Identity n) = n /\ NewLen (Identity n) = n.
Proof. unfold Identity. destruct (Z.eqb_spec n 0) as [->|]; done. Qed.

Lemma TextToChangeset_wf s : zlen s <= max_int -> wf (TextToChangeset s).
Proof.
  intros Hs. unfold TextToChangeset. destruct (Z.eqb_spec (zlen s) 0) as [E|E].
  - constructor; simpl; try lia. constructor.
  - constructor; simpl; rewrite ?op_src_insert, ?op_dst_insert; unfold max_int in *; try lia.
    constructor; [|constructor]. apply valid_insert. by intros ->.
Qed.

Lemma TextToChangeset_exec s : exec (Ops (TextToChangeset s)) [] = s.
Proof.
  unfold TextToChangeset. destruct (Z.eqb_spec (zlen s) 0) as [E|E].
  - by rewrite (zlen_zero s E).
  - simpl. apply app_nil_r.
Qed.

Lemma MakeInsert_wf n p s :
  0 <= p <= n -> s <> [] -> n + zlen s <= max_int -> wf (MakeInsert n p s).
Proof.
  intros Hp Hs Hm. unfold MakeInsert. zlen_facts.
  rewrite !wrap64_small by (unfold max_int in *; lia).
  constructor; cbn [Ops OldLen NewLen];
    destruct (Z.ltb_spec 0 p), (Z.ltb_spec 0 (n - p)); cbn [app];
    try (cbn [src_len dst_len]; autorewrite with ops; lia);
    repeat constructor; try (autorewrite with ops); done || lia.
Qed.

Lemma MakeDelete_wf n p k :
  0 <= p -> 0 < k -> p + k <= n -> n <= max_int -> wf (MakeDelete n p k).
Proof.
  intros Hp Hk Hn Hm. unfold MakeDelete.
  rewrite (wrap64_small (n - p)), !wrap64_small by (unfold max_int in *; lia).
  constructor; cbn [Ops OldLen NewLen];
    destruct (Z.ltb_spec 0 p), (Z.ltb_spec 0 (n - p - k)); cbn [app];
    try (cbn [src_len dst_len]; autorewrite with ops; lia);
    repeat constructor; try (autorewrite with ops); done || lia.
Qed.

(** A final [retain] of what is left, emitted only when something is left. *)
Lemma exec_tail n d :
  zlen d = n -> exec (if 0 <? n then [retain n] else []) d = d.
Proof.
  intros <-. destruct (Z.ltb_spec 0 (zlen d)); simpl.
  - by rewrite zlen_to_nat, firstn_all, app_nil_r.
  - pose proof (zlen_nonneg d). by rewrite (zlen_zero d) by lia.
Qed.

(** A leading [retain], emitted only when there is something before. *)
Lemma exec_lead p r t :
  0 <= p ->
  exec ((if 0 <? p then [retain p] else []) ++ r) t
  = take (Z.to_nat p) t ++ exec r (drop (Z.to_nat p) t).
Proof.
  intros Hp. destruct (Z.ltb_spec 0 p); [done|].
  by replace p with 0 by lia.
Qed.

Lemma if_snoc {A} (b : bool) (l : list A) x :
  (if b then l ++ [x] else l) = l ++ (if b then [x] else []).
Proof. destruct b; [done|by rewrite app_nil_r]. Qed.

Lemma MakeInsert_exec n p s t :
  0 <= p <= n -> n <= max_int -> zlen t = n ->
  exec (Ops (MakeInsert n p s)) t = take (Z.to_nat p) t ++ s ++ drop (Z.to_nat p) t.
Proof.
  intros Hp Hm Hl. unfold MakeInsert. rewrite (wrap64_small (n - p)) by (unfold max_int in *; lia).
  cbn [Ops]. rewrite if_snoc, <-app_assoc, exec_lead by lia. f_equal.
  simpl. by rewrite exec_tail by (autorewrite with zlen; lia).
Qed.

Lemma MakeDelete_exec n p k t :
  0 <= p -> 0 < k -> p + k <= n -> n <= max_int -> zlen t = n ->
  exec (Ops (MakeDelete n p k)) t = take (Z.to_nat p) t ++ drop (Z.to_nat (p + k)) t.
Proof.
  intros Hp Hk Hn Hm Hl. unfold MakeDelete.
  rewrite (wrap64_small (n - p)), (wrap64_small (n - p - k)) by (unfold max_int in *; lia).
  cbn [Ops]. rewrite if_snoc, <-app_assoc, exec_lead by lia. f_equal.
  simpl. rewrite drop_drop, exec_tail by (autorewrite with zlen; lia).
  by rewrite Z2Nat.inj_add by lia.
Qed.
