(* ===== verification/Apply.v ===== *)
(** [ApplyChangeset] ([internal/ot/apply.go]): the scan over the operations with
    its range checks and its run-time panics, and the theorem that on a
    well-formed changeset it computes the reference semantics [exec]. *)
From S2P Require Import Prelude Changeset.

(** * The code *)

(** The loop over [c.Ops]; the state is [srcPos] and the content of the
    [strings.Builder]. *)
Fixpoint apply_loop (t : text) (ops : list Op) (srcPos : Z) (result : text)
  : outcome ot_error (Z * text) :=
  match ops with
  | [] => Ret (srcPos, result)
  | op :: ops' =>
      match Typ op with
      | OpRetain =>
          if zlen t <? (srcPos +ᵢ Len op)%go
          then Err (ErrRetainRange (Len op) srcPos (zlen t))
          else
            piece ← slice t srcPos (srcPos +ᵢ Len op)%go;
            apply_loop t ops' (srcPos +ᵢ Len op)%go (result ++ piece)
      | OpInsert => apply_loop t ops' srcPos (result ++ Chars op)
      | OpDelete =>
          if zlen t <? (srcPos +ᵢ Len op)%go
          then Err (ErrDeleteRange (Len op) srcPos (zlen t))
          else apply_loop t ops' (srcPos +ᵢ Len op)%go result
      | OpUnknown s => Err (ErrUnknownOp (OpUnknown s))
      end
  end.

(** [strings.Builder.Grow] panics on a negative count. *)
Definition ApplyChangeset (t : text) (c : Changeset) : outcome ot_error text :=
  if negb (OldLen c =? zlen t) then Err (ErrOldLen (OldLen c) (zlen t))
  else if NewLen c <? 0 then Panic
  else
    p ← apply_loop t (Ops c) 0 [];
    let '(srcPos, result) := p in
    if negb (srcPos =? zlen t) then Err (ErrNotConsumed srcPos (zlen t))
    else Ret result.

(** * Correctness *)

Lemma apply_loop_ok t ops pos res :
  valid_ops ops -> 0 <= pos -> pos + src_len ops <= zlen t -> zlen t <= max_int ->
  apply_loop t ops pos res
  = Ret (pos + src_len ops, res ++ exec ops (drop (Z.to_nat pos) t)).
Proof.
  intros H. revert pos res. induction H as [|op r Hop Hr IH]; intros pos res Hp Hs Hm.
  { simpl. by rewrite Z.add_0_r, app_nil_r. }
  pose proof (valid_ops_src _ Hr). simpl in *. unfold valid_op, op_src in *.
  destruct (Typ op); try done.
  - rewrite wrap64_small by zl. destruct (Z.ltb_spec (zlen t) (pos + Len op)); [lia|].
    rewrite slice_ok by lia. simpl. rewrite IH by lia.
    rewrite <-app_assoc, drop_drop. replace (pos + Len op - pos) with (Len op) by lia.
    rewrite <-Z2Nat.inj_add by lia. do 2 f_equal. lia.
  - rewrite IH by lia. by rewrite <-app_assoc, Z.add_0_l.
  - rewrite wrap64_small by zl. destruct (Z.ltb_spec (zlen t) (pos + Len op)); [lia|].
    rewrite IH by lia. rewrite drop_drop, <-Z2Nat.inj_add by lia. do 2 f_equal. lia.
Qed.

(** On a text of the right length a well-formed changeset is applied, and the
    result is [exec]'s. *)
Lemma ApplyChangeset_exec t c :
  wf c -> OldLen c = zlen t -> ApplyChangeset t c = Ret (exec (Ops c) t).
Proof.
  intros [Hv Ho Hn Hmo Hmn] Hl. unfold ApplyChangeset.
  pose proof (valid_ops_dst _ Hv).
  rewrite Hl, Z.eqb_refl. simpl. destruct (Z.ltb_spec (NewLen c) 0); [lia|].
  rewrite apply_loop_ok by (auto; lia). simpl.
  by rewrite Ho, Hl, Z.eqb_refl.
Qed.

Lemma exec_wf_zlen t c :
  wf c -> OldLen c = zlen t -> zlen (exec (Ops c) t) = NewLen c.
Proof. intros [] ?. rewrite exec_zlen; [done..|lia]. Qed.

(** A list of operations that asks for more than the text holds is refused by
    one of the range checks. *)
Lemma apply_loop_short t ops pos res :
  valid_ops ops -> 0 <= pos <= zlen t -> zlen t < pos + src_len ops ->
  zlen t + src_len ops <= max_int ->
  exists e, apply_loop t ops pos res = Err e.
Proof.
  intros H. revert pos res. induction H as [|op r Hop Hr IH]; intros pos res Hp Hs Hm.
  { simpl in Hs. lia. }
  pose proof (valid_ops_src _ Hr). simpl in *. unfold valid_op, op_src in *.
  destruct (Typ op); try done.
  - rewrite wrap64_small by zl. destruct (Z.ltb_spec (zlen t) (pos + Len op)); [by eexists|].
    rewrite slice_ok by lia. simpl. apply IH; lia.
  - apply IH; lia.
  - rewrite wrap64_small by zl. destruct (Z.ltb_spec (zlen t) (pos + Len op)); [by eexists|].
    apply IH; lia.
Qed.

Lemma IsIdentity_inv c :
  IsIdentity c = true -> OldLen c = NewLen c /\
  ((OldLen c = 0 /\ Ops c = []) \/ exists op, Ops c = [op] /\ Typ op = OpRetain /\ Len op = OldLen c).
Proof.
  unfold IsIdentity. destruct (Z.eqb_spec (OldLen c) (NewLen c)) as [E|E]; simpl; [|done].
  destruct (Z.eqb_spec (OldLen c) 0), (Z.eqb_spec (zlen (Ops c)) 0) as [E'|]; simpl;
    try (apply zlen_zero in E'; by auto);
    (destruct (Ops c) as [|op [|]] eqn:Eo; try done;
     rewrite andb_true_iff, bool_decide_eq_true, Z.eqb_eq; eauto).
Qed.

(** Every valid list of operations is applied or refused. *)
Lemma ApplyChangeset_cases t c :
  valid_ops (Ops c) -> 0 <= NewLen c -> zlen t + src_len (Ops c) <= max_int ->
  if decide (OldLen c = zlen t /\ src_len (Ops c) = zlen t)
  then ApplyChangeset t c = Ret (exec (Ops c) t)
  else exists e, ApplyChangeset t c = Err e.
Proof.
  intros Hv Hn Hm. unfold ApplyChangeset. pose proof (valid_ops_src _ Hv). zlen_facts.
  destruct (Z.eqb_spec (OldLen c) (zlen t)) as [E|E]; simpl.
  2: { rewrite decide_False by tauto. by eexists. }
  destruct (Z.ltb_spec (NewLen c) 0); [lia|].
  destruct (Z.le_gt_cases (src_len (Ops c)) (zlen t)) as [Hle|Hgt].
  - rewrite apply_loop_ok by (done || lia). simpl. rewrite Z.add_0_l, drop_0.
    destruct (Z.eqb_spec (src_len (Ops c)) (zlen t)); simpl.
    + by rewrite decide_True.
    + rewrite decide_False by tauto. by eexists.
  - rewrite decide_False by lia.
    destruct (apply_loop_short t (Ops c) 0 []) as [e ->]; try done; try lia. by exists e.
Qed.

(** * Properties *)

(** C28: on a text of length [OldLen] a well-formed changeset is applied without
    error or panic; the result is the text the operations describe and has length
    [NewLen]. *)
Theorem ApplyChangeset_correct t c :
  wf c -> OldLen c = zlen t ->
  ApplyChangeset t c = Ret (exec (Ops c) t) /\ zlen (exec (Ops c) t) = NewLen c.
Proof. intros. split; [by apply ApplyChangeset_exec|by apply exec_wf_zlen]. Qed.

Lemma ApplyChangeset_correct_witness :
  let t := bytes_of "hello world" in let c := MakeDelete 11 5 6 in
  ApplyChangeset t c = Ret (bytes_of "hello") /\ zlen (bytes_of "hello") = 5.
Proof.
  exact (ApplyChangeset_correct (bytes_of "hello world") (MakeDelete 11 5 6)
    ltac:(by_compute) ltac:(by_compute)).
Defined.

(** For valid operations in range of a machine integer [ApplyChangeset] accepts
    exactly the changesets whose [OldLen] and whose consumed total are the length
    of the text; all others are answered with an error, never with a panic. *)
Theorem ApplyChangeset_decides t c :
  valid_ops (Ops c) -> 0 <= NewLen c -> zlen t + src_len (Ops c) <= max_int ->
  if decide (OldLen c = zlen t /\ src_len (Ops c) = zlen t)
  then ApplyChangeset t c = Ret (exec (Ops c) t)
  else exists e, ApplyChangeset t c = Err e.
Proof. apply ApplyChangeset_cases. Qed.

Lemma ApplyChangeset_decides_witness :
  exists e, ApplyChangeset (bytes_of "abc") (mkChangeset 3 5 [retain 5]) = Err e.
Proof.
  exact (ApplyChangeset_decides (bytes_of "abc") (mkChangeset 3 5 [retain 5])
    ltac:(by_compute) ltac:(by_compute) ltac:(by_compute)).
Defined.

(** [Validate] sums the lengths in 64-bit integers without an overflow check:
    a changeset whose sums wrap around passes it, its [OldLen] and [NewLen] match
    the document, and applying it panics on the slice [text[srcPos:srcPos+n]]. *)
Theorem Validate_overflow_panics :
  exists c t, Validate c = Ret tt /\ OldLen c = zlen t /\ NewLen c = zlen t /\
    ApplyChangeset t c = Panic.
Proof.
  exists (mkChangeset 1 1 [retain 1; retain max_int; retain max_int; retain 2]), (bytes_of "x").
  by vm_compute.
Qed.

(** The constructors do what they say on every in-range position: [Identity]
    keeps the text, [MakeInsert] inserts at [pos], [MakeDelete] removes [count]
    characters at [pos], and all three build changesets that [Validate] accepts. *)
Theorem constructors_correct t p k s :
  0 <= p -> 0 < k -> p + k <= zlen t -> s <> [] -> zlen t + zlen s <= max_int ->
  let n := zlen t in
  ApplyChangeset t (Identity n) = Ret t /\
  ApplyChangeset t (MakeInsert n p s)
    = Ret (take (Z.to_nat p) t ++ s ++ drop (Z.to_nat p) t) /\
  ApplyChangeset t (MakeDelete n p k)
    = Ret (take (Z.to_nat p) t ++ drop (Z.to_nat (p + k)) t) /\
  Validate (Identity n) = Ret tt /\ Validate (MakeInsert n p s) = Ret tt /\
  Validate (MakeDelete n p k) = Ret tt.
Proof.
  intros Hp Hk Hn Hs Hm n. pose proof (zlen_nonneg s).
  assert (wf (Identity n)) by (apply Identity_wf; lia).
  assert (wf (MakeInsert n p s)) by (apply MakeInsert_wf; try done; lia).
  assert (wf (MakeDelete n p k)) by (apply MakeDelete_wf; try done; lia).
  split_and!; try (by apply Validate_wf); rewrite ApplyChangeset_exec; try done.
  - by rewrite Identity_exec.
  - apply Identity_lens.
  - rewrite MakeInsert_exec; [done|lia..].
  - rewrite MakeDelete_exec; [done|lia..].
Qed.

Lemma constructors_correct_witness :
  let t := bytes_of "hello world" in
  ApplyChangeset t (MakeDelete 11 5 6) = Ret (bytes_of "hello").
Proof.
  exact (proj1 (proj2 (proj2 (constructors_correct (bytes_of "hello world") 5 6 (bytes_of "!")
    ltac:(by_compute) ltac:(by_compute) ltac:(by_compute) ltac:(by_compute) ltac:(by_compute))))).
Defined.

(** A changeset [IsIdentity] accepts leaves every text it applies to unchanged,
    and [IsIdentity] accepts what [Identity] builds. *)
Theorem IsIdentity_correct c t n :
  IsIdentity c = true -> OldLen c = zlen t -> zlen t <= max_int ->
  ApplyChangeset t c = Ret t /\ IsIdentity (Identity n) = true.
Proof.
  intros Hi Hl Hm. split.
  - destruct (IsIdentity_inv c Hi) as [En [[E0 Eo]|(op&Eo&Et&El)]];
      unfold ApplyChangeset; rewrite Hl, Z.eqb_refl; simpl;
      (destruct (Z.ltb_spec (NewLen c) 0); [zl|]); rewrite Eo; simpl.
    + rewrite E0 in Hl. rewrite <-Hl. simpl. by rewrite (zlen_zero t).
    + rewrite Et, El, Hl, wrap64_small by (zlen_facts; unfold max_int in *; lia). simpl.
      rewrite Z.ltb_irrefl, slice_ok by zl. simpl.
      by rewrite Z.add_0_l, Z.eqb_refl, Z.sub_0_r, drop_0, zlen_to_nat, firstn_all.
  - unfold Identity. destruct (Z.eqb_spec n 0) as [->|Hn]; [done|].
    unfold IsIdentity. cbn [OldLen NewLen Ops Typ Len retain].
    by rewrite Z.eqb_refl, (proj2 (Z.eqb_neq n 0) Hn).
Qed.

Lemma IsIdentity_correct_witness :
  ApplyChangeset (bytes_of "hello") (Identity 5) = Ret (bytes_of "hello") /\
  IsIdentity (Identity 7) = true.
Proof.
  exact (IsIdentity_correct (Identity 5) (bytes_of "hello") 7
    ltac:(by_compute) ltac:(by_compute) ltac:(by_compute)).
Defined.

(** C35: within the range of a machine integer [Validate] accepts exactly the
    well-formed changesets: positive counts, non-empty insertions, no unknown
    operation, and the two lengths equal to the totals of the operations. *)
Theorem Validate_spec c :
  src_len (Ops c) <= max_int -> dst_len (Ops c) <= max_int ->
  (Validate c = Ret tt <-> wf c).
Proof. apply Validate_iff. Qed.

Lemma Validate_spec_witness : Validate (MakeInsert 5 2 (bytes_of "hello")) = Ret tt.
Proof.
  exact (proj2 (Validate_spec (MakeInsert 5 2 (bytes_of "hello"))
    ltac:(by_compute) ltac:(by_compute)) ltac:(by_compute)).
Defined.
