(* ===== verification/Cursor.v ===== *)
(** The machinery [Compose] and [Follow] share ([compose.go] and [follow.go]
    declare it twice, as closures): the cursor [opSlice] over a list of
    operations with [peek] and [consume], and [addOp], which appends an operation
    to the result and merges it with the last one.

    The abstraction [rem_ops] reads a cursor as the list of operations that
    remain; [peek] and [consume] act on that list as [head] and a trim, and
    [addOp] leaves the reference semantics of an append. *)
From S2P Require Import Prelude Changeset.

(** * The code *)

Record opSlice : Type := mkSlice {
  ops : list Op;
  pos : nat;      (* index of the current op *)
  off : Z         (* units already consumed from the current op *)
}.

(** The current op less its first [k] units. *)
Definition trim (op : Op) (k : Z) : Op :=
  match Typ op with
  | OpInsert => mkOp (Typ op) (Len op) (drop (Z.to_nat k) (Chars op))
  | _ => mkOp (Typ op) (Len op -ᵢ k)%go (Chars op)
  end.

Definition peek (s : opSlice) : option Op :=
  match ops s !! pos s with
  | None => None
  | Some op => Some (trim op (off s))
  end.

(** What is left of [op] past the offset [off]: [rem] in the code. *)
Definition op_rem (op : Op) (off : Z) : Z :=
  match Typ op with
  | OpInsert => (zlen (Chars op) -ᵢ off)%go
  | _ => (Len op -ᵢ off)%go
  end.

Fixpoint consume_loop (fuel : nat) (s : opSlice) (n : Z) : opSlice * Z :=
  match fuel with
  | O => (s, n)
  | S fuel' =>
      if n <=? 0 then (s, n)
      else match ops s !! pos s with
           | None => (s, n)
           | Some op =>
               let rem := op_rem op (off s) in
               if rem <=? n
               then consume_loop fuel' (mkSlice (ops s) (S (pos s)) 0) (n -ᵢ rem)%go
               else consume_loop fuel' (mkSlice (ops s) (pos s) (off s +ᵢ n)%go) 0
           end
  end.

(** Every iteration moves to the next op or ends the loop, so the number of ops
    left bounds the loop ([consume_loop_exits]). *)
Definition consume (s : opSlice) (n : Z) : opSlice :=
  fst (consume_loop (length (ops s) - pos s) s n).

Definition start (l : list Op) : opSlice := mkSlice l 0 0.

(** [last.Len += op.Len] and [last.Chars += op.Chars], by type. *)
Definition merge_into (l op : Op) : option Op :=
  match Typ op with
  | OpRetain | OpDelete => Some (mkOp (Typ l) (Len l +ᵢ Len op)%go (Chars l))
  | OpInsert => Some (mkOp (Typ l) (Len l) (Chars l ++ Chars op))
  | OpUnknown _ => None
  end.

Definition addOp (res : list Op) (op : Op) : list Op :=
  match last res with
  | Some l =>
      if decide (Typ l = Typ op) then
        match merge_into l op with
        | Some l' => <[(length res - 1)%nat := l']> res
        | None => res ++ [op]
        end
      else res ++ [op]
  | None => res ++ [op]
  end.

#[global] Arguments consume : simpl never.
#[global] Arguments addOp : simpl never.
#[global] Arguments trim : simpl never.

(** * The cursor as a list *)

(** Units an operation ranges over: the length of its text or its count. *)
Definition op_size (op : Op) : Z :=
  match Typ op with OpInsert => zlen (Chars op) | _ => Len op end.

Definition rem_ops (s : opSlice) : list Op :=
  match drop (pos s) (ops s) with
  | [] => []
  | op :: r => trim op (off s) :: r
  end.

(** Every operation is valid and fits a machine integer. *)
Definition good_op (op : Op) : Prop := valid_op op /\ op_size op <= max_int.
Definition good_ops (l : list Op) : Prop := Forall good_op l.

(** The offset stays inside the current operation, so the slice
    [op.Chars[s.off:]] of [peek] is in range. *)
Definition cursor_ok (s : opSlice) : Prop :=
  good_ops (ops s) /\
  match ops s !! pos s with
  | Some op => 0 <= off s < op_size op
  | None => off s = 0
  end.

Lemma valid_op_size op : valid_op op -> 0 < op_size op.
Proof.
  unfold valid_op, op_size. destruct (Typ op); try done.
  intros H. destruct (Chars op); [done|]. zl.
Qed.

Lemma good_valid l : good_ops l -> valid_ops l.
Proof. intros H. eapply Forall_impl; [exact H|]. by intros op []. Qed.

Lemma valid_good l :
  valid_ops l -> src_len l <= max_int -> dst_len l <= max_int -> good_ops l.
Proof.
  induction 1 as [|op r Hop Hr IH]; simpl; intros Hs Hd; constructor.
  - split; [done|]. pose proof (valid_ops_src _ Hr). pose proof (valid_ops_dst _ Hr).
    unfold valid_op, op_size, op_src, op_dst in *. destruct (Typ op); try done; lia.
  - pose proof (valid_op_src _ Hop). pose proof (valid_op_dst _ Hop). apply IH; lia.
Qed.

#[export] Hint Resolve good_valid valid_op_size : godb.

Lemma peek_rem s : peek s = head (rem_ops s).
Proof.
  unfold peek, rem_ops. destruct s as [l p o]; simpl.
  destruct (l !! p) as [op|] eqn:E.
  - by rewrite (drop_S _ _ _ E).
  - apply lookup_ge_None in E. by rewrite drop_ge.
Qed.

Lemma rem_start l : rem_ops (start l) = match l with [] => [] | op :: r => trim op 0 :: r end.
Proof. unfold rem_ops, start. simpl. by rewrite drop_0. Qed.

Lemma trim_0 op : good_op op -> trim op 0 = op.
Proof.
  intros [Hv Hs]. unfold trim, op_size, valid_op in *.
  destruct op as [[] L C]; simpl in *; rewrite ?drop_0, ?Z.sub_0_r; try done;
    rewrite wrap64_small by (unfold max_int in *; lia); done.
Qed.

Lemma rem_start_good l : good_ops l -> rem_ops (start l) = l.
Proof.
  rewrite rem_start. destruct 1; [done|]. by rewrite trim_0.
Qed.

Lemma start_ok l : good_ops l -> cursor_ok (start l).
Proof.
  intros H. split; [done|]. simpl. destruct H as [|op r [Hv _] Hr]; [done|]. simpl.
  pose proof (valid_op_size _ Hv). lia.
Qed.

Lemma op_rem_small op k :
  good_op op -> 0 <= k <= op_size op -> op_rem op k = op_size op - k.
Proof.
  intros [Hv Hs] Hk. unfold op_rem, op_size in *.
  destruct (Typ op); apply wrap64_small; unfold max_int in *; lia.
Qed.

Lemma trim_size op k :
  good_op op -> 0 <= k < op_size op -> op_size (trim op k) = op_size op - k.
Proof.
  intros [Hv Hs] Hk. unfold trim, op_size in *.
  destruct op as [[] L C]; simpl in *; autorewrite with zlen;
    rewrite ?wrap64_small by (unfold max_int in *; lia); lia.
Qed.

Lemma trim_good op k : good_op op -> 0 <= k < op_size op -> good_op (trim op k).
Proof.
  intros Hg Hk. pose proof (trim_size _ _ Hg Hk) as Ht. destruct Hg as [Hv Hs].
  split; [|lia]. unfold trim, op_size, valid_op in *.
  destruct op as [[] L C]; simpl in *; try done; try lia.
  intros E. rewrite E, zlen_nil in Ht. lia.
Qed.

Lemma trim_trim op j k :
  good_op op -> 0 <= j -> 0 <= k -> j + k < op_size op ->
  trim (trim op j) k = trim op (j + k).
Proof.
  intros [Hv Hs] Hj Hk Hjk. unfold trim, op_size in *.
  destruct op as [[] L C]; simpl in *.
  - f_equal. rewrite !wrap64_small; unfold max_int in *; rewrite ?wrap64_small; unfold max_int in *; lia.
  - f_equal. rewrite drop_drop. f_equal. lia.
  - f_equal. rewrite !wrap64_small; unfold max_int in *; rewrite ?wrap64_small; unfold max_int in *; lia.
  - done.
Qed.

Lemma trim_Typ op k : Typ (trim op k) = Typ op.
Proof. unfold trim. by destruct (Typ op) eqn:E. Qed.

Lemma cursor_rem_good s : cursor_ok s -> good_ops (rem_ops s).
Proof.
  intros [Hg Ho]. unfold rem_ops. destruct s as [l p o]; simpl in *.
  destruct (l !! p) as [op|] eqn:E.
  - rewrite (drop_S _ _ _ E). assert (good_op op) by (by eapply Forall_lookup_1).
    constructor; [by apply trim_good|by apply Forall_drop].
  - apply lookup_ge_None in E. rewrite drop_ge by done. constructor.
Qed.

(** The current operation, when the remaining list is not empty. *)
Lemma rem_cons_inv s op r :
  cursor_ok s -> rem_ops s = op :: r ->
  exists op0, ops s !! pos s = Some op0 /\ good_op op0 /\ op = trim op0 (off s) /\
    r = drop (S (pos s)) (ops s) /\ 0 <= off s < op_size op0 /\
    op_size op = op_size op0 - off s.
Proof.
  intros [Hg Ho] Hr. unfold rem_ops in Hr. destruct (ops s !! pos s) as [op0|] eqn:E.
  - rewrite (drop_S _ _ _ E) in Hr. injection Hr as <- <-.
    assert (good_op op0) by (by eapply Forall_lookup_1).
    exists op0. split_and!; try done; try lia. by apply trim_size.
  - apply lookup_ge_None in E. by rewrite drop_ge in Hr.
Qed.

Lemma consume_exact s op r :
  cursor_ok s -> rem_ops s = op :: r ->
  cursor_ok (consume s (op_size op)) /\ rem_ops (consume s (op_size op)) = r.
Proof.
  intros Hok Hr. destruct (rem_cons_inv _ _ _ Hok Hr) as (op0&E&Hg0&->&->&Ho&Hsz).
  destruct Hok as [Hg _].
  assert (Hc : consume s (op_size (trim op0 (off s))) = mkSlice (ops s) (S (pos s)) 0).
  { unfold consume. pose proof (lookup_lt_Some _ _ _ E).
    destruct (length (ops s) - pos s)%nat eqn:Ef; [lia|]. simpl. rewrite E.
    destruct (Z.leb_spec (op_size (trim op0 (off s))) 0); [lia|].
    rewrite (op_rem_small op0) by (done || lia).
    destruct (Z.leb_spec (op_size op0 - off s) (op_size (trim op0 (off s)))); [|lia].
    rewrite Hsz, Z.sub_diag, wrap64_small by (unfold max_int; lia).
    by destruct n. }
  rewrite Hc. split.
  - split; [done|]. simpl. destruct (ops s !! S (pos s)) as [op1|] eqn:E1; [|done].
    assert (good_op op1) as [Hv1 _] by (by eapply Forall_lookup_1).
    pose proof (valid_op_size _ Hv1). lia.
  - unfold rem_ops. simpl.
    destruct (ops s !! S (pos s)) as [op1|] eqn:E1.
    + rewrite (drop_S _ _ _ E1). rewrite trim_0; [done|]. by eapply Forall_lookup_1.
    + apply lookup_ge_None in E1. by rewrite drop_ge.
Qed.

Lemma consume_partial s op r n :
  cursor_ok s -> rem_ops s = op :: r -> 0 < n < op_size op ->
  cursor_ok (consume s n) /\ rem_ops (consume s n) = trim op n :: r.
Proof.
  intros Hok Hr Hn. destruct (rem_cons_inv _ _ _ Hok Hr) as (op0&E&Hg0&->&->&Ho&Hsz).
  destruct Hok as [Hg _].
  assert (Hm : op_size op0 <= max_int) by apply Hg0.
  assert (Hc : consume s n = mkSlice (ops s) (pos s) (off s + n)).
  { unfold consume. pose proof (lookup_lt_Some _ _ _ E).
    destruct (length (ops s) - pos s)%nat eqn:Ef; [lia|]. simpl. rewrite E.
    destruct (Z.leb_spec n 0); [lia|].
    rewrite (op_rem_small op0) by (done || lia).
    destruct (Z.leb_spec (op_size op0 - off s) n); [lia|].
    rewrite wrap64_small by (unfold max_int in *; lia).
    by destruct n0. }
  rewrite Hc. split.
  - split; [done|]. simpl. rewrite E. lia.
  - unfold rem_ops. simpl. rewrite (drop_S _ _ _ E), trim_trim by (done || lia). done.
Qed.

(** [consume] advances the remaining list by [n] units, for any [n] inside its
    first operation. *)
Definition advance (op : Op) (r : list Op) (n : Z) : list Op :=
  if n =? op_size op then r else trim op n :: r.

Lemma consume_advance s op r n :
  cursor_ok s -> rem_ops s = op :: r -> 0 < n <= op_size op ->
  cursor_ok (consume s n) /\ rem_ops (consume s n) = advance op r n.
Proof.
  intros Hok Hr Hn. unfold advance. destruct (Z.eqb_spec n (op_size op)) as [->|].
  - by apply consume_exact.
  - apply consume_partial; [done..|lia].
Qed.

(** The loop bound of [consume] is never what stops it. *)
Lemma consume_loop_exits fuel s n :
  (length (ops s) - pos s <= fuel)%nat ->
  let '(s', n') := consume_loop fuel s n in n' <= 0 \/ ops s' !! pos s' = None.
Proof.
  revert s n. induction fuel as [|fuel IH]; intros s n Hf; simpl.
  { right. apply lookup_ge_None. lia. }
  destruct (Z.leb_spec n 0); [by left|].
  destruct (ops s !! pos s) as [op|] eqn:E; [|by right].
  apply lookup_lt_Some in E. destruct (_ <=? n).
  - apply IH. simpl. lia.
  - destruct fuel; simpl; left; lia.
Qed.

(** * [addOp] is an append, up to merging *)

(** Neighbouring operations differ in type: the form [addOp] builds. *)
Fixpoint canonical (l : list Op) : Prop :=
  match l with
  | [] => True
  | op :: r => match r with [] => True | op' :: _ => Typ op' <> Typ op end /\ canonical r
  end.

Lemma canonical_no_adj_ins l : canonical l -> no_adj_ins l.
Proof.
  induction l as [|op r IH]; simpl; [done|]. intros [H Hr]. split; [|by apply IH].
  intros E. destruct r; [done|]. by rewrite <-E.
Qed.

Lemma canonical_snoc l x y :
  canonical (l ++ [x]) -> Typ y <> Typ x -> canonical (l ++ [x; y]).
Proof.
  induction l as [|op r IH]; simpl; [tauto|]. intros [H Hr] Hy.
  split; [by destruct r|]. by apply IH.
Qed.

Lemma canonical_replace l x y :
  canonical (l ++ [x]) -> Typ y = Typ x -> canonical (l ++ [y]).
Proof.
  induction l as [|op r IH]; simpl; [done|]. intros [H Hr] Hy.
  split; [|by apply IH]. destruct r; simpl in *; congruence.
Qed.

Lemma addOp_cases res op :
  valid_op op ->
  (addOp res op = res ++ [op] /\
     match last res with Some l => Typ op <> Typ l | None => True end) \/
  (exists init l l', res = init ++ [l] /\ Typ l = Typ op /\
     merge_into l op = Some l' /\ addOp res op = init ++ [l']).
Proof.
  intros Hv. unfold addOp. destruct res as [|l init Hi] using rev_ind; [by left|].
  rewrite last_snoc. destruct (decide (Typ l = Typ op)) as [E|E].
  - right. destruct (merge_into l op) as [l'|] eqn:Em.
    + exists init, l, l'. split_and!; try done.
      rewrite length_app. simpl. rewrite Nat.add_sub.
      rewrite insert_app_r_alt by lia. by rewrite Nat.sub_diag.
    + exfalso. unfold merge_into, valid_op in *. by destruct (Typ op).
  - left. split; [done|]. congruence.
Qed.

Lemma merge_into_spec l op l' :
  valid_op l -> valid_op op -> Typ l = Typ op ->
  op_src l + op_src op <= max_int ->
  merge_into l op = Some l' ->
  Typ l' = Typ l /\ valid_op l' /\ op_src l' = op_src l + op_src op /\
  op_dst l' = op_dst l + op_dst op /\
  forall src, exec [l'] src = exec [l; op] src.
Proof.
  unfold valid_op, merge_into, op_src, op_dst. intros Hl Ho E Hm. rewrite E in Hl, Hm.
  rewrite <-E. simpl. destruct l as [tl L C], op as [to L' C']; simpl in *. subst tl.
  destruct to; simpl in *; try done; intros [= <-]; simpl.
  - rewrite wrap64_small by (unfold max_int in *; lia). split_and!; try done; try lia.
    intros src. rewrite !app_nil_r, take_take_drop. f_equal. lia.
  - split_and!; try done; [by destruct C|by rewrite zlen_app|].
    intros src. by rewrite !app_nil_r.
  - rewrite wrap64_small by (unfold max_int in *; lia). split_and!; try done; lia.
Qed.

(** All there is to know of [addOp res op], for a valid result list with room
    for [op]. *)
Lemma addOp_spec res op :
  valid_ops res -> valid_op op -> src_len res + op_src op <= max_int ->
  valid_ops (addOp res op) /\
  src_len (addOp res op) = src_len res + op_src op /\
  dst_len (addOp res op) = dst_len res + op_dst op /\
  (forall src, exec (addOp res op) src = exec (res ++ [op]) src) /\
  (canonical res -> canonical (addOp res op)).
Proof.
  intros Hr Ho Hm.
  destruct (addOp_cases res op Ho) as [[-> Hlast]|(init&l&l'&->&E&Em&->)].
  - split_and!; try done; autorewrite with ops; simpl; try lia.
    + apply valid_ops_app. split; [done|]. by constructor.
    + destruct res as [|l init Hi] using rev_ind; [by split|].
      rewrite last_snoc in Hlast. intros Hc. rewrite <-app_assoc. by apply canonical_snoc.
  - apply valid_ops_app in Hr as [Hi Hl]. apply (Forall_singleton valid_op) in Hl.
    rewrite !src_len_app, !dst_len_app. rewrite src_len_app in Hm. simpl in *.
    pose proof (valid_ops_src _ Hi).
    destruct (merge_into_spec l op l') as (Et&Hv'&Hs'&Hd'&Hx'); try done; [lia|].
    split_and!; simpl; try lia.
    + apply valid_ops_app. split; [done|]. by constructor.
    + intros src. rewrite <-app_assoc, !exec_app by done. by rewrite Hx'.
    + intros Hc. by eapply canonical_replace.
Qed.

(** * Splitting an operation

    [first op n] is the first [n] units of [op]; [advance op r n] is the rest. *)
Definition first (op : Op) (n : Z) : Op :=
  match Typ op with
  | OpInsert => insert_op (take (Z.to_nat n) (Chars op))
  | t => mkOp t n []
  end.

Lemma first_Typ op n : Typ (first op n) = Typ op.
Proof. unfold first. by destruct (Typ op) eqn:E. Qed.

Lemma first_src op n :
  op_src (first op n) = match Typ op with OpRetain | OpDelete => n | _ => 0 end.
Proof. unfold first, op_src. by destruct (Typ op). Qed.

Lemma first_dst op n :
  0 <= n <= op_size op ->
  op_dst (first op n) = match Typ op with OpRetain | OpInsert => n | _ => 0 end.
Proof.
  unfold first, op_dst, op_size. destruct (Typ op); simpl; try done.
  autorewrite with zlen. lia.
Qed.

Lemma first_valid op n : good_op op -> 0 < n <= op_size op -> valid_op (first op n).
Proof.
  intros [Hv Hs] Hn. unfold first, valid_op, op_size in *.
  destruct (Typ op); simpl; try done; try lia.
  intros E. apply (f_equal length) in E. rewrite length_take in E. unfold zlen in *.
  simpl in E. lia.
Qed.

Lemma advance_good op r n :
  good_op op -> good_ops r -> 0 < n <= op_size op -> good_ops (advance op r n).
Proof.
  intros Ho Hr Hn. unfold advance. destruct (Z.eqb_spec n (op_size op)); [done|].
  constructor; [apply trim_good; [done|lia]|done].
Qed.

Lemma advance_length op r n : (length (advance op r n) <= S (length r))%nat.
Proof. unfold advance. destruct (n =? _); simpl; lia. Qed.

Lemma advance_all op r : advance op r (op_size op) = r.
Proof. unfold advance. by rewrite Z.eqb_refl. Qed.

(** Advancing both lists by the shorter of their heads finishes a head. *)
Lemma advance_both_length a r b q m :
  (length r + length q + 1 < m)%nat ->
  (length (advance a r (Z.min (op_size a) (op_size b)))
   + length (advance b q (Z.min (op_size a) (op_size b))) < m)%nat.
Proof.
  intros Hm. destruct (Z.min_spec (op_size a) (op_size b)) as [[_ ->]|[_ ->]];
    rewrite advance_all.
  - pose proof (advance_length b q (op_size a)). lia.
  - pose proof (advance_length a r (op_size b)). lia.
Qed.

Lemma split_src op r n :
  good_op op -> 0 < n <= op_size op ->
  src_len (op :: r) = op_src (first op n) + src_len (advance op r n).
Proof.
  intros [Hv Hs] Hn. unfold advance, first, op_src, op_size, valid_op in *.
  destruct (Z.eqb_spec n (match Typ op with OpInsert => zlen (Chars op) | _ => Len op end));
    simpl; unfold op_src; rewrite ?trim_Typ; unfold trim; destruct (Typ op); simpl; try done;
    rewrite ?wrap64_small by (unfold max_int in *; lia); try lia.
Qed.

Lemma split_dst op r n :
  good_op op -> 0 < n <= op_size op ->
  dst_len (op :: r) = op_dst (first op n) + dst_len (advance op r n).
Proof.
  intros [Hv Hs] Hn. unfold advance, first, op_dst, op_size, valid_op in *.
  destruct (Z.eqb_spec n (match Typ op with OpInsert => zlen (Chars op) | _ => Len op end));
    simpl; unfold op_dst; rewrite ?trim_Typ; unfold trim; destruct (Typ op); simpl; try done;
    autorewrite with zlen;
    rewrite ?wrap64_small by (unfold max_int in *; lia); try lia.
Qed.

Lemma split_exec op r n src :
  good_op op -> 0 < n <= op_size op ->
  exec (op :: r) src = exec (first op n :: advance op r n) src.
Proof.
  intros [Hv Hs] Hn. unfold advance, first, op_size, valid_op in *.
  destruct op as [t L C]; simpl in *.
  destruct (Z.eqb_spec n (match t with OpInsert => zlen C | _ => L end)) as [E|E];
    destruct t; simpl; try done; rewrite ?wrap64_small by (unfold max_int in *; lia).
  - by rewrite E.
  - by rewrite E, zlen_to_nat, firstn_all.
  - by rewrite E.
  - rewrite app_assoc, take_take_drop, drop_drop, <-Z2Nat.inj_add by lia.
    by replace (n + (L - n)) with L by lia.
  - by rewrite app_assoc, take_drop.
  - rewrite drop_drop, <-Z2Nat.inj_add by lia. by replace (n + (L - n)) with L by lia.
Qed.

(** ** Inserted characters *)

(** How many characters an operation inserts. *)
Definition op_ins (op : Op) : Z :=
  match Typ op with OpInsert => zlen (Chars op) | _ => 0 end.
Fixpoint ins_len (ops : list Op) : Z :=
  match ops with [] => 0 | op :: r => op_ins op + ins_len r end.

Lemma op_ins_nonneg op : 0 <= op_ins op.
Proof. unfold op_ins. zlen_facts. destruct (Typ op); lia. Qed.

Lemma ins_len_nonneg l : 0 <= ins_len l.
Proof. induction l as [|op r IH]; simpl; [lia|]. pose proof (op_ins_nonneg op). lia. Qed.

Lemma ins_len_app xs ys : ins_len (xs ++ ys) = ins_len xs + ins_len ys.
Proof. induction xs as [|op r IH]; simpl; lia. Qed.

(** The result is no longer than the source and the insertions. *)
Lemma dst_len_ins l : valid_ops l -> dst_len l <= src_len l + ins_len l.
Proof.
  induction 1 as [|op r Hop Hr IH]; simpl; [lia|].
  unfold valid_op, op_dst, op_src, op_ins in *. destruct (Typ op); lia.
Qed.

Lemma ins_len_dst l : valid_ops l -> ins_len l <= dst_len l.
Proof.
  induction 1 as [|op r Hop Hr IH]; simpl; [lia|].
  unfold valid_op, op_dst, op_ins in *. destruct (Typ op); lia.
Qed.

Lemma op_ins_typ x y z :
  Typ x = Typ y -> Typ z = Typ y -> op_dst x = op_dst y + op_dst z ->
  op_ins x = op_ins y + op_ins z.
Proof. unfold op_ins, op_dst. intros -> ->. destruct (Typ y); lia. Qed.

Lemma addOp_ins res op :
  valid_ops res -> valid_op op -> src_len res + op_src op <= max_int ->
  ins_len (addOp res op) = ins_len res + op_ins op.
Proof.
  intros Hv Ho Hs. destruct (addOp_cases res op Ho) as [[-> _]|(init&l&l'&->&Ht&Hm&->)].
  { rewrite ins_len_app. simpl. lia. }
  rewrite src_len_app in Hs. apply valid_ops_app in Hv as [Vi Vl].
  pose proof (valid_ops_src _ Vi). cbn [src_len] in Hs. apply Forall_cons in Vl as [Vl _].
  destruct (merge_into_spec l op l') as (Ht'&_&_&Hd&_); try done; try lia.
  rewrite !ins_len_app. cbn [ins_len]. rewrite (op_ins_typ l' l op); [lia|done|congruence|done].
Qed.

Lemma advance_ins op r n : Typ op <> OpInsert -> ins_len (advance op r n) = ins_len (op :: r).
Proof.
  intros Ht. unfold advance. cbn [ins_len].
  assert (forall k, op_ins (trim op k) = 0 /\ op_ins op = 0) as Hz.
  { intros k. unfold op_ins. rewrite trim_Typ. by destruct (Typ op). }
  destruct (_ =? _); cbn [ins_len]; destruct (Hz n); lia.
Qed.
