(* ===== verification/Compose.v ===== *)
(** [Compose] ([internal/ot/compose.go]): the two-cursor loop, and the theorems
    that it terminates without panic on consecutive well-formed changesets and
    that its result does what applying the two in turn does. *)
From S2P Require Import Prelude Changeset Apply Cursor.

(** * The code *)

(** The [switch] over the types of the two operations: what [n] characters of
    the intermediate document add to the result. *)
Definition compose_emit (a b : Op) (n : Z) (res : list Op) : outcome ot_error (list Op) :=
  match Typ a, Typ b with
  | OpRetain, OpRetain => Ret (addOp res (retain n))
  | OpRetain, OpDelete => Ret (addOp res (delete_op n))
  | OpInsert, OpRetain =>
      piece ← slice (Chars a) 0 n;
      Ret (addOp res (insert_op piece))
  | OpInsert, OpDelete => Ret res
  | _, _ => Ret res
  end.

Fixpoint compose_loop (fuel : nat) (aSlice bSlice : opSlice) (res : list Op)
  : outcome ot_error (list Op) :=
  match fuel with
  | O => NoFuel
  | S fuel' =>
      (* Rule 2: A deletes *)
      let rule2 a :=
        compose_loop fuel' (consume aSlice (Len a)) bSlice (addOp res (delete_op (Len a))) in
      (* both operate on A's output *)
      let both a b :=
        let aLen := if decide (Typ a = OpInsert) then zlen (Chars a) else Len a in
        let n := if Len b <? aLen then Len b else aLen in
        res' ← compose_emit a b n res;
        compose_loop fuel' (consume aSlice n) (consume bSlice n) res' in
      match peek bSlice, peek aSlice with
      | None, None => Ret res
      | Some b, ao =>
          (* Rule 1: B inserts *)
          if decide (Typ b = OpInsert) then
            compose_loop fuel' aSlice (consume bSlice (zlen (Chars b)))
              (addOp res (insert_op (Chars b)))
          else match ao with
               | Some a => if decide (Typ a = OpDelete) then rule2 a else both a b
               | None => Ret res
               end
      | None, Some a => if decide (Typ a = OpDelete) then rule2 a else Ret res
      end
  end.

(** On valid operations every iteration finishes at least one op of A or B. *)
Definition compose_fuel (A B : Changeset) : nat := S (length (Ops A) + length (Ops B)).

Definition Compose (A B : Changeset) : outcome ot_error Changeset :=
  res ← compose_loop (compose_fuel A B) (start (Ops A)) (start (Ops B)) [];
  Ret (mkChangeset (OldLen A) (NewLen B) res).

(** * Correctness *)

(** What the rest of a run of the loop does to the result list [res], when [ra]
    and [rb] are the operations left of A and B. *)
Record composed (res ra rb res' : list Op) : Prop := mk_composed {
  co_valid : valid_ops res';
  co_src : src_len res' = src_len res + src_len ra;
  co_dst : dst_len res' = dst_len res + dst_len rb;
  co_canonical : canonical res -> canonical res';
  co_exec : forall src, src_len res + src_len ra <= zlen src ->
    exec res' src
    = exec res src ++ exec rb (exec ra (drop (Z.to_nat (src_len res)) src))
}.

Lemma composed_done res rb :
  valid_ops res -> rb = [] -> composed res [] rb res.
Proof.
  intros Hv ->. constructor; simpl; try done; try lia.
  intros src _. by rewrite app_nil_r.
Qed.

(** One emitted operation. *)
Lemma composed_emit res op ra rb ra' rb' res' :
  valid_ops res -> valid_op op -> valid_ops ra' ->
  src_len res + src_len ra <= max_int ->
  src_len ra = op_src op + src_len ra' ->
  dst_len rb = op_dst op + dst_len rb' ->
  (forall d, src_len ra <= zlen d ->
     exec rb (exec ra d)
     = exec [op] d ++ exec rb' (exec ra' (drop (Z.to_nat (op_src op)) d))) ->
  composed (addOp res op) ra' rb' res' -> composed res ra rb res'.
Proof.
  intros Hr Ho Hra' Hm Hs Hd Hx [Cv Cs Cd Cc Cx].
  pose proof (valid_ops_src _ Hra'). pose proof (valid_ops_src _ Hr).
  pose proof (valid_op_src _ Ho).
  destruct (addOp_spec res op) as (Av&As&Ad&Ax&Ac); [done..|lia|].
  constructor; [done|lia|lia|tauto|].
  intros src Hsrc. rewrite Cx by lia. rewrite Ax, exec_app by done.
  rewrite <-app_assoc. f_equal. rewrite Hx by (autorewrite with zlen; lia).
  do 3 f_equal. rewrite As, drop_drop. f_equal. lia.
Qed.

(** A character that A inserted and B deleted. *)
Lemma composed_skip res ra rb ra' rb' res' :
  valid_ops res -> src_len ra = src_len ra' -> dst_len rb = dst_len rb' ->
  (forall d, src_len ra <= zlen d -> exec rb (exec ra d) = exec rb' (exec ra' d)) ->
  composed res ra' rb' res' -> composed res ra rb res'.
Proof.
  intros Hr Hs Hd Hx [Cv Cs Cd Cc Cx]. pose proof (valid_ops_src _ Hr).
  constructor; [done|lia|lia|done|].
  intros src Hsrc. rewrite Cx by lia. f_equal. symmetry. apply Hx.
  autorewrite with zlen. lia.
Qed.

(** The case in which both cursors are on characters of A's output: the two
    operations split after [n] characters, and the first parts combine into at
    most one operation. *)
Lemma exec_retain_retain n r' q' d :
  0 <= n <= zlen d ->
  exec (retain n :: q') (exec (retain n :: r') d)
  = exec [retain n] d ++ exec q' (exec r' (drop (Z.to_nat n) d)).
Proof.
  intros Hn. simpl. assert (Z.to_nat n = length (take (Z.to_nat n) d))
    by (rewrite length_take; unfold zlen in *; lia).
  by rewrite app_nil_r, take_app_length', drop_app_length' by done.
Qed.

Lemma exec_retain_delete n r' q' d :
  0 <= n <= zlen d ->
  exec (delete_op n :: q') (exec (retain n :: r') d)
  = exec [delete_op n] d ++ exec q' (exec r' (drop (Z.to_nat n) d)).
Proof.
  intros Hn. simpl. rewrite drop_app_length'; [done|].
  rewrite length_take; unfold zlen in *; lia.
Qed.

Lemma exec_insert_retain n s r' q' d :
  zlen s = n ->
  exec (retain n :: q') (exec (insert_op s :: r') d)
  = exec [insert_op s] d ++ exec q' (exec r' d).
Proof.
  intros <-. simpl. rewrite zlen_to_nat, app_nil_r.
  by rewrite take_app_length, drop_app_length.
Qed.

Lemma exec_insert_delete n s r' q' d :
  zlen s = n ->
  exec (delete_op n :: q') (exec (insert_op s :: r') d) = exec q' (exec r' d).
Proof. intros <-. simpl. by rewrite zlen_to_nat, drop_app_length. Qed.

(** The slice of the inserted text is in range. *)
Lemma piece_ok a n :
  good_op a -> Typ a = OpInsert -> 0 < n <= op_size a ->
  slice (E := ot_error) (Chars a) 0 n = Ret (take (Z.to_nat n) (Chars a)) /\
  zlen (take (Z.to_nat n) (Chars a)) = n.
Proof.
  intros _ E Hn. unfold op_size in Hn. rewrite E in Hn.
  rewrite slice_ok by lia. rewrite Z.sub_0_r, drop_0. autorewrite with zlen. split; [done|lia].
Qed.

Lemma composed_both a b r q n res :
  good_op a -> good_op b -> good_ops r -> valid_ops res ->
  Typ a = OpRetain \/ Typ a = OpInsert -> Typ b = OpRetain \/ Typ b = OpDelete ->
  0 < n <= op_size a -> n <= op_size b ->
  src_len res + src_len (a :: r) <= max_int ->
  exists res1, compose_emit a b n res = Ret res1 /\ valid_ops res1 /\
  src_len res1 + src_len (advance a r n) = src_len res + src_len (a :: r) /\
  (forall res', composed res1 (advance a r n) (advance b q n) res' ->
   composed res (a :: r) (b :: q) res').
Proof.
  intros Ga Gb Gr Hr Ta Tb Hn Hnb Hm.
  assert (Hra' : valid_ops (advance a r n)) by (apply good_valid, advance_good; done).
  pose proof (split_src a r n Ga ltac:(lia)) as Sa.
  pose proof (split_dst b q n Gb ltac:(lia)) as Sb.
  pose proof (split_dst a r n Ga ltac:(lia)) as Da.
  rewrite first_src in Sa. rewrite first_dst in Sb by lia.
  pose proof (valid_ops_src _ Hra').
  assert (Hx : forall d, exec (b :: q) (exec (a :: r) d)
    = exec (first b n :: advance b q n) (exec (first a n :: advance a r n) d)).
  { intros d. rewrite (split_exec b q n) by (done || lia).
    by rewrite (split_exec a r n) by (done || lia). }
  pose proof (first_valid a n Ga ltac:(lia)) as Va.
  unfold first in Hx, Va. unfold compose_emit.
  set (sA := src_len (a :: r)) in *. set (dB := dst_len (b :: q)) in *.
  assert (Hemit : forall op, valid_op op ->
    sA = op_src op + src_len (advance a r n) -> dB = op_dst op + dst_len (advance b q n) ->
    (forall d, sA <= zlen d -> exec (b :: q) (exec (a :: r) d)
       = exec [op] d ++ exec (advance b q n)
           (exec (advance a r n) (drop (Z.to_nat (op_src op)) d))) ->
    valid_ops (addOp res op) /\
    src_len (addOp res op) + src_len (advance a r n) = src_len res + sA /\
    (forall res', composed (addOp res op) (advance a r n) (advance b q n) res' ->
     composed res (a :: r) (b :: q) res')).
  { intros op Ho Hs Hd He. destruct (addOp_spec res op) as (Av&As&_); [done..|lia|].
    split_and!; [done|lia|]. intros res'. by apply composed_emit. }
  destruct Ta as [Ta|Ta], Tb as [Tb|Tb]; rewrite Ta, Tb in *; cbn match in Sa, Sb.
  - eexists. split; [done|]. apply Hemit; [done..|].
    intros d Hd. rewrite Hx. apply (exec_retain_retain n). lia.
  - eexists. split; [done|]. apply Hemit; [done..|].
    intros d Hd. rewrite Hx. apply (exec_retain_delete n). lia.
  - destruct (piece_ok a n) as [-> Hl]; [done..|].
    eexists. split; [done|]. apply Hemit; [done|done|unfold op_dst; simpl; lia|].
    intros d Hd. rewrite Hx. simpl drop. rewrite drop_0. by apply exec_insert_retain.
  - destruct (piece_ok a n) as [_ Hl]; [done..|].
    eexists. split; [done|]. split_and!; [done|lia|].
    intros res'. apply composed_skip; [done|lia|lia|].
    intros d Hd. rewrite Hx. by apply exec_insert_delete.
Qed.

(** Rule 1 and rule 2: an insertion of B, a deletion of A. *)
Lemma composed_rule1 ra b q res res' :
  good_op b -> Typ b = OpInsert -> valid_ops res -> valid_ops ra ->
  src_len res + src_len ra <= max_int ->
  composed (addOp res (insert_op (Chars b))) ra q res' ->
  composed res ra (b :: q) res'.
Proof.
  intros [Vb _] Tb Hr Hra Hm. unfold valid_op in Vb. rewrite Tb in Vb.
  apply composed_emit; try done; simpl; unfold op_dst; rewrite ?Tb; simpl; try done.
  intros d _. by rewrite app_nil_r.
Qed.

Lemma composed_rule2 a r rb res res' :
  good_op a -> Typ a = OpDelete -> valid_ops res -> valid_ops r ->
  src_len res + src_len (a :: r) <= max_int ->
  composed (addOp res (delete_op (Len a))) r rb res' ->
  composed res (a :: r) rb res'.
Proof.
  intros [Va _] Ta Hr Hra Hm. unfold valid_op in Va. rewrite Ta in Va.
  apply composed_emit; try done; simpl; unfold op_src; rewrite ?Ta; simpl; done.
Qed.

(** The contract of the loop with [fuel] iterations: from cursors on [ra] and
    [rb] whose lengths agree it returns, and the result is [composed]. *)
Definition compose_loop_correct (fuel : nat) : Prop :=
  forall sa sb res ra rb,
  cursor_ok sa -> cursor_ok sb -> rem_ops sa = ra -> rem_ops sb = rb ->
  valid_ops res -> dst_len ra = src_len rb -> src_len res + src_len ra <= max_int ->
  (length ra + length rb < fuel)%nat ->
  exists res', compose_loop fuel sa sb res = Ret res' /\ composed res ra rb res'.

Section steps.
  Context (fuel : nat) (IH : compose_loop_correct fuel).
  Context (sa sb : opSlice) (res : list Op).
  Hypothesis (Ha : cursor_ok sa) (Hb : cursor_ok sb) (Hr : valid_ops res).

Lemma rule1_step ra b q :
  rem_ops sa = ra -> rem_ops sb = b :: q -> Typ b = OpInsert ->
  dst_len ra = src_len (b :: q) -> src_len res + src_len ra <= max_int ->
  (length ra + length q < fuel)%nat ->
  exists res', compose_loop fuel sa (consume sb (zlen (Chars b)))
      (addOp res (insert_op (Chars b))) = Ret res' /\ composed res ra (b :: q) res'.
Proof.
  intros Ea Eb Tb Hd Hm Hf. pose proof (cursor_rem_good _ Ha) as Ga. rewrite Ea in Ga.
  pose proof (cursor_rem_good _ Hb) as Gb. rewrite Eb in Gb.
  apply Forall_cons in Gb as [Gb Gq]. pose proof (good_valid _ Ga) as Va.
  destruct (consume_exact sb b q) as [Hb' Eb']; [done..|].
  assert (Hsz : op_size b = zlen (Chars b)) by (unfold op_size; by rewrite Tb).
  rewrite Hsz in *. pose proof (valid_ops_src _ Va).
  assert (Vo : valid_op (insert_op (Chars b))).
  { destruct Gb as [Vb _]. unfold valid_op in Vb. by rewrite Tb in Vb. }
  assert (Sb : op_src b = 0) by (unfold op_src; by rewrite Tb).
  destruct (addOp_spec res (insert_op (Chars b))) as (Av&As&_); [done..| |].
  { change (op_src (insert_op (Chars b))) with 0. lia. }
  change (op_src (insert_op (Chars b))) with 0 in As. simpl in Hd.
  destruct (IH sa (consume sb (zlen (Chars b))) (addOp res (insert_op (Chars b))) ra q)
    as (res'&->&Hc); try done; [lia..|].
  eexists. split; [done|]. by apply composed_rule1.
Qed.

Lemma rule2_step a r rb :
  rem_ops sa = a :: r -> rem_ops sb = rb -> Typ a = OpDelete ->
  dst_len (a :: r) = src_len rb -> src_len res + src_len (a :: r) <= max_int ->
  (length r + length rb < fuel)%nat ->
  exists res', compose_loop fuel (consume sa (Len a)) sb (addOp res (delete_op (Len a)))
    = Ret res' /\ composed res (a :: r) rb res'.
Proof.
  intros Ea Eb Ta Hd Hm Hf. pose proof (cursor_rem_good _ Ha) as Ga. rewrite Ea in Ga.
  apply Forall_cons in Ga as [Ga Gr]. pose proof (good_valid _ Gr) as Vr.
  destruct (consume_exact sa a r) as [Ha' Ea']; [done..|].
  assert (Hsz : op_size a = Len a) by (unfold op_size; by rewrite Ta).
  rewrite Hsz in *. pose proof (valid_ops_src _ Vr).
  assert (Vo : valid_op (delete_op (Len a))).
  { destruct Ga as [Va _]. unfold valid_op in Va. by rewrite Ta in Va. }
  assert (Da : op_dst a = 0) by (unfold op_dst; by rewrite Ta).
  assert (Sa : op_src a = Len a) by (unfold op_src; by rewrite Ta).
  simpl in Hd, Hm.
  destruct (addOp_spec res (delete_op (Len a))) as (Av&As&_); [done..| |].
  { change (op_src (delete_op (Len a))) with (Len a). lia. }
  change (op_src (delete_op (Len a))) with (Len a) in As.
  destruct (IH (consume sa (Len a)) sb (addOp res (delete_op (Len a))) r rb)
    as (res'&->&Hc); try done; [lia..|].
  eexists. split; [done|]. apply composed_rule2; try done.
Qed.

Lemma both_step a r b q n :
  rem_ops sa = a :: r -> rem_ops sb = b :: q ->
  Typ a = OpRetain \/ Typ a = OpInsert -> Typ b = OpRetain \/ Typ b = OpDelete ->
  n = Z.min (op_size a) (op_size b) ->
  dst_len (a :: r) = src_len (b :: q) -> src_len res + src_len (a :: r) <= max_int ->
  (length r + length q + 1 < fuel)%nat ->
  exists res', (res1 ← compose_emit a b n res;
     compose_loop fuel (consume sa n) (consume sb n) res1) = Ret res' /\
    composed res (a :: r) (b :: q) res'.
Proof.
  intros Ea Eb Ta Tb Hn Hd Hm Hf. pose proof (cursor_rem_good _ Ha) as Ga. rewrite Ea in Ga.
  pose proof (cursor_rem_good _ Hb) as Gb. rewrite Eb in Gb.
  apply Forall_cons in Ga as [Ga Gr]. apply Forall_cons in Gb as [Gb Gq].
  pose proof (valid_op_size _ (proj1 Ga)). pose proof (valid_op_size _ (proj1 Gb)).
  destruct (consume_advance sa a r n) as [Ha' Ea']; [done..|lia|].
  destruct (consume_advance sb b q n) as [Hb' Eb']; [done..|lia|].
  destruct (composed_both a b r q n res) as (res1&He&Hv1&Hs1&Hc1); try done; try lia.
  rewrite He. simpl.
  pose proof (split_dst a r n Ga ltac:(lia)) as Da. rewrite first_dst in Da by lia.
  pose proof (split_src b q n Gb ltac:(lia)) as Sb. rewrite first_src in Sb.
  destruct (IH (consume sa n) (consume sb n) res1 (advance a r n) (advance b q n))
    as (res'&->&Hc); try done; try lia.
  - destruct Ta as [Ta|Ta], Tb as [Tb|Tb]; rewrite Ta, Tb in *; lia.
  - rewrite Hn. apply advance_both_length. lia.
  - eexists. split; [done|]. by apply Hc1.
Qed.
End steps.

(** The loop, from any pair of cursors. *)
Lemma compose_loop_ok fuel : compose_loop_correct fuel.
Proof.
  induction fuel as [|fuel IH]; intros sa sb res ra rb Ha Hb Ea Eb Hr Hd Hm Hf; [lia|].
  pose proof (cursor_rem_good _ Ha) as Ga. pose proof (cursor_rem_good _ Hb) as Gb.
  rewrite Ea in Ga. rewrite Eb in Gb. simpl. rewrite !peek_rem, Ea, Eb.
  destruct Gb as [|b q Gb Gq], Ga as [|a r Ga Gr]; cbn [head hd_error].

  - eexists. split; [done|]. by apply composed_done.
  - destruct (decide (Typ a = OpDelete)) as [Ta|Ta].
    + apply (rule2_step fuel IH); try done. simpl in *. lia.
    + exfalso. pose proof (valid_ops_dst _ (good_valid _ Gr)). destruct Ga as [Va _].
      pose proof (valid_op_size _ Va). simpl in Hd. unfold op_dst, valid_op, op_size in *.
      destruct (Typ a); try done; lia.
  - destruct (decide (Typ b = OpInsert)) as [Tb|Tb].
    + apply (rule1_step fuel IH); try done. simpl in *. lia.
    + exfalso. pose proof (valid_ops_src _ (good_valid _ Gq)). destruct Gb as [Vb _].
      pose proof (valid_op_size _ Vb). simpl in Hd. unfold op_src, valid_op, op_size in *.
      destruct (Typ b); try done; lia.
  - simpl in Hf. destruct (decide (Typ b = OpInsert)) as [Tb|Tb].
    { apply (rule1_step fuel IH); try done. simpl in *. lia. }
    destruct (decide (Typ a = OpDelete)) as [Ta|Ta].
    { apply (rule2_step fuel IH); try done. simpl in *. lia. }
    destruct Ga as [Va Sa], Gb as [Vb Sb].
    apply (both_step fuel IH); try done; try lia.
    + unfold valid_op in Va. destruct (Typ a); try done; auto.
    + unfold valid_op in Vb. destruct (Typ b); try done; auto.
    + unfold op_size, valid_op in *. destruct (Typ a), (Typ b); simpl; try done;
        bool_cases; lia.
Qed.

(** [Compose] on consecutive well-formed changesets. *)
Lemma Compose_ok A B :
  wf A -> wf B -> NewLen A = OldLen B ->
  exists C, Compose A B = Ret C /\ wf C /\ canonical (Ops C) /\
    OldLen C = OldLen A /\ NewLen C = NewLen B /\
    forall t, zlen t = OldLen A -> exec (Ops C) t = exec (Ops B) (exec (Ops A) t).
Proof.
  intros [Va Oa Na Ma1 Ma2] [Vb Ob Nb Mb1 Mb2] E.
  assert (Ga : good_ops (Ops A)) by (apply valid_good; [done|lia..]).
  assert (Gb : good_ops (Ops B)) by (apply valid_good; [done|lia..]).
  destruct (compose_loop_ok (compose_fuel A B) (start (Ops A)) (start (Ops B)) []
    (Ops A) (Ops B)) as (res&Hres&[Cv Cs Cd Cc Cx]);
    try (by apply start_ok); try (by apply rem_start_good); try done; simpl; try lia.
  { constructor. }
  { unfold compose_fuel. lia. }
  unfold Compose. rewrite Hres. simpl in *. eexists. split; [done|].
  split_and!; try done.
  - constructor; simpl; try done; lia.
  - by apply Cc.
  - intros t Ht. rewrite Cx by lia. by rewrite drop_0.
Qed.

(** * Changesets up to what they do *)

(** Two changesets with the same lengths and the same effect on every text. *)
Definition cs_eqv (A B : Changeset) : Prop :=
  OldLen A = OldLen B /\ NewLen A = NewLen B /\
  forall t, zlen t = OldLen A -> ApplyChangeset t A = ApplyChangeset t B.

#[export] Instance cs_eqv_equivalence : Equivalence cs_eqv.
Proof.
  split.
  - by intros A.
  - intros A B (E1&E2&E3). split_and!; try done. intros t Ht. rewrite E3; congruence.
  - intros A B C (E1&E2&E3) (F1&F2&F3). split_and!; try congruence.
    intros t Ht. rewrite E3, F3; congruence.
Qed.

Lemma exec_eqv A B :
  wf A -> wf B -> OldLen A = OldLen B -> NewLen A = NewLen B ->
  (forall t, zlen t = OldLen A -> exec (Ops A) t = exec (Ops B) t) -> cs_eqv A B.
Proof.
  intros WA WB E1 E2 Hx. split_and!; try done.
  intros t Ht. rewrite !ApplyChangeset_exec; try done; try congruence. by rewrite Hx.
Qed.

(** * Properties *)

(** C21: [Compose] of two consecutive well-formed changesets returns a changeset that
    is well formed, canonical (no neighbouring operations of one type) and has
    the outer lengths; applying it is applying the two in turn. *)
Theorem Compose_correct t A B :
  wf A -> wf B -> NewLen A = OldLen B -> OldLen A = zlen t ->
  exists C, Compose A B = Ret C /\ wf C /\ canonical (Ops C) /\
    OldLen C = OldLen A /\ NewLen C = NewLen B /\
    ApplyChangeset t C = (u ← ApplyChangeset t A; ApplyChangeset u B).
Proof.
  intros WA WB E Ht. destruct (Compose_ok A B) as (C&HC&WC&Cc&OC&NC&XC); [done..|].
  exists C. split_and!; try done.
  rewrite (ApplyChangeset_exec t A), (ApplyChangeset_exec t C) by (done || congruence). simpl.
  rewrite ApplyChangeset_exec; [by rewrite XC|done|]. by rewrite exec_wf_zlen.
Qed.

Lemma Compose_correct_witness :
  exists C, Compose (MakeInsert 5 5 (bytes_of " world")) (MakeDelete 11 5 6) = Ret C /\
    wf C /\ canonical (Ops C) /\ OldLen C = 5 /\ NewLen C = 5 /\
    ApplyChangeset (bytes_of "hello") C = Ret (bytes_of "hello").
Proof.
  exact (Compose_correct (bytes_of "hello") (MakeInsert 5 5 (bytes_of " world"))
    (MakeDelete 11 5 6) ltac:(by_compute) ltac:(by_compute) ltac:(by_compute) ltac:(by_compute)).
Defined.

(** C40: composition is associative up to effect, and the identity changeset is its
    unit: consecutive changesets form a category, the algebra of the
    algorithm's documents A.X.Y. *)
Theorem Compose_assoc A B C :
  wf A -> wf B -> wf C -> NewLen A = OldLen B -> NewLen B = OldLen C ->
  (exists AB BC L R, Compose A B = Ret AB /\ Compose B C = Ret BC /\
     Compose AB C = Ret L /\ Compose A BC = Ret R /\ cs_eqv L R) /\
  (exists L R, Compose (Identity (OldLen A)) A = Ret L /\ cs_eqv L A /\
     Compose A (Identity (NewLen A)) = Ret R /\ cs_eqv R A).
Proof.
  intros WA WB WC E1 E2. split.
  - destruct (Compose_ok A B) as (AB&HAB&WAB&_&OAB&NAB&XAB); [done..|].
    destruct (Compose_ok B C) as (BC&HBC&WBC&_&OBC&NBC&XBC); [done..|].
    destruct (Compose_ok AB C) as (L&HL&WL&_&OL&NL&XL); [done|done|congruence|].
    destruct (Compose_ok A BC) as (R&HR&WR&_&OR&NR&XR); [done|done|congruence|].
    exists AB, BC, L, R. split_and!; try done.
    apply exec_eqv; try done; try congruence.
    intros t Ht. rewrite XL, XAB, XR, XBC; try congruence.
    rewrite exec_wf_zlen; congruence.
  - pose proof (Identity_lens (OldLen A)) as [IO IN].
    pose proof (Identity_lens (NewLen A)) as [JO JN].
    assert (Hp : 0 <= OldLen A /\ 0 <= NewLen A).
    { destruct WA as [Va Oa Na _ _]. rewrite <-Oa, <-Na. auto with godb. }
    assert (wf (Identity (OldLen A))) by (apply Identity_wf; destruct WA; lia).
    assert (wf (Identity (NewLen A))) by (apply Identity_wf; destruct WA; lia).
    destruct (Compose_ok (Identity (OldLen A)) A) as (L&HL&WL&_&OL&NL&XL); [done..|].
    destruct (Compose_ok A (Identity (NewLen A))) as (R&HR&WR&_&OR&NR&XR); [done..|].
    exists L, R. split_and!; try done; apply exec_eqv; try done; try congruence;
      intros t Ht.
    + rewrite XL, Identity_exec; congruence.
    + rewrite XR, Identity_exec; try congruence. rewrite exec_wf_zlen; congruence.
Qed.

Lemma Compose_assoc_witness :
  exists AB BC L R, Compose (MakeInsert 3 1 (bytes_of "XY")) (MakeDelete 5 0 2) = Ret AB /\
    Compose (MakeDelete 5 0 2) (MakeInsert 3 3 (bytes_of "Z")) = Ret BC /\
    Compose AB (MakeInsert 3 3 (bytes_of "Z")) = Ret L /\
    Compose (MakeInsert 3 1 (bytes_of "XY")) BC = Ret R /\ cs_eqv L R.
Proof.
  exact (proj1 (Compose_assoc (MakeInsert 3 1 (bytes_of "XY")) (MakeDelete 5 0 2)
    (MakeInsert 3 3 (bytes_of "Z")) ltac:(by_compute) ltac:(by_compute) ltac:(by_compute)
    ltac:(by_compute) ltac:(by_compute))).
Defined.
