(* ===== verification/Follow.v ===== *)
(** [Follow] ([internal/ot/follow.go]): the rebase loop with its tie-break on
    simultaneous insertions, a reference merge of two concurrent changesets, the
    theorem that applying A and then [Follow A B] gives that merge, and the
    symmetry of the merge, which is convergence. *)
From S2P Require Import Prelude Changeset Apply Cursor.

(** * The code *)

(** [addOp] of [follow.go] also keeps [result.NewLen] up to date; the result is
    the pair of the operations and [NewLen]. *)
Definition newlen_gain (op : Op) : Z :=
  match Typ op with
  | OpRetain => Len op
  | OpInsert => zlen (Chars op)
  | _ => 0
  end.

Definition addOpN (result : list Op * Z) (op : Op) : list Op * Z :=
  (addOp (fst result) op,
   match Typ op with
   | OpRetain | OpInsert => (snd result +ᵢ newlen_gain op)%go
   | _ => snd result
   end).

#[global] Arguments addOpN : simpl never.

Definition follow_emit (a b : Op) (n : Z) (result : list Op * Z) : list Op * Z :=
  match Typ a, Typ b with
  | OpRetain, OpRetain => addOpN result (retain n)
  | OpRetain, OpDelete => addOpN result (delete_op n)
  | OpDelete, OpRetain => result
  | OpDelete, OpDelete => result
  | _, _ => result
  end.

Definition is_insert (o : option Op) : bool :=
  match o with Some op => bool_decide (Typ op = OpInsert) | None => false end.

Fixpoint follow_loop (fuel : nat) (aSlice bSlice : opSlice) (result : list Op * Z)
  : outcome ot_error (list Op * Z) :=
  match fuel with
  | O => NoFuel
  | S fuel' =>
      (* B' skips what A inserted *)
      let skipA a :=
        follow_loop fuel' (consume aSlice (zlen (Chars a))) bSlice
          (addOpN result (retain (zlen (Chars a)))) in
      (* B' inserts what B inserts *)
      let insB b :=
        follow_loop fuel' aSlice (consume bSlice (zlen (Chars b)))
          (addOpN result (insert_op (Chars b))) in
      match peek aSlice, peek bSlice with
      | None, None => Ret result
      | Some a, None => if is_insert (Some a) then skipA a else Ret result
      | None, Some b => if is_insert (Some b) then insB b else Ret result
      | Some a, Some b =>
          if is_insert (Some a) && is_insert (Some b) then
            if str_leb (Chars a) (Chars b) then skipA a else insB b
          else if is_insert (Some a) then skipA a
          else if is_insert (Some b) then insB b
          else
            let n := if Len b <? Len a then Len b else Len a in
            follow_loop fuel' (consume aSlice n) (consume bSlice n)
              (follow_emit a b n result)
      end
  end.

(** On valid operations every iteration finishes at least one op of A or B. *)
Definition follow_fuel (A B : Changeset) : nat := S (length (Ops A) + length (Ops B)).

Definition Follow (A B : Changeset) : outcome ot_error Changeset :=
  result ← follow_loop (follow_fuel A B) (start (Ops A)) (start (Ops B)) ([], 0);
  Ret (mkChangeset (NewLen A) (snd result) (fst result)).

(** * The merge of two concurrent changesets

    [merge_ops fuel ra rb] is m(A, B) of the algorithm description: one list of
    operations on the common source. *)
Definition merge_head (a b : Op) (n : Z) : Op :=
  match Typ a, Typ b with
  | OpRetain, OpRetain => retain n
  | _, _ => delete_op n
  end.

Fixpoint merge_ops (fuel : nat) (ra rb : list Op) : list Op :=
  match fuel with
  | O => []
  | S fuel' =>
      match ra, rb with
      | [], [] => []
      | a :: r, [] =>
          if is_insert (Some a) then insert_op (Chars a) :: merge_ops fuel' r rb else []
      | [], b :: q =>
          if is_insert (Some b) then insert_op (Chars b) :: merge_ops fuel' ra q else []
      | a :: r, b :: q =>
          if is_insert (Some a) && is_insert (Some b) then
            if str_leb (Chars a) (Chars b)
            then insert_op (Chars a) :: merge_ops fuel' r rb
            else insert_op (Chars b) :: merge_ops fuel' ra q
          else if is_insert (Some a) then insert_op (Chars a) :: merge_ops fuel' r rb
          else if is_insert (Some b) then insert_op (Chars b) :: merge_ops fuel' ra q
          else
            let n := Z.min (Len a) (Len b) in
            merge_head a b n :: merge_ops fuel' (advance a r n) (advance b q n)
      end
  end.

Definition merge (A B : Changeset) : list Op :=
  merge_ops (follow_fuel A B) (Ops A) (Ops B).

(** * Correctness of the loop *)

(** What the rest of a run does to the result [res]: with [ra] left of A and
    [m] the merge of what is left, the operations added read A's output and
    write the merged document. *)
Record followed (res : list Op * Z) (ra m : list Op) (res' : list Op * Z) : Prop := mk_followed {
  fo_valid : valid_ops (fst res');
  fo_src : src_len (fst res') = src_len (fst res) + dst_len ra;
  fo_dst : dst_len (fst res') = dst_len (fst res) + dst_len m;
  fo_new : snd res' = dst_len (fst res');
  fo_canonical : canonical (fst res) -> canonical (fst res');
  fo_exec : forall x d, src_len ra <= zlen d ->
    drop (Z.to_nat (src_len (fst res))) x = exec ra d ->
    exec (fst res') x = exec (fst res) x ++ exec m d
}.

(** The result list is valid and its recorded length is right. *)
Definition res_ok (res : list Op * Z) : Prop :=
  valid_ops (fst res) /\ snd res = dst_len (fst res).

Lemma newlen_gain_dst op : valid_op op -> op_dst op = newlen_gain op.
Proof. unfold valid_op, op_dst, newlen_gain. by destruct (Typ op). Qed.

Lemma addOpN_spec res op :
  res_ok res -> valid_op op ->
  src_len (fst res) + op_src op <= max_int -> dst_len (fst res) + op_dst op <= max_int ->
  res_ok (addOpN res op) /\
  src_len (fst (addOpN res op)) = src_len (fst res) + op_src op /\
  dst_len (fst (addOpN res op)) = dst_len (fst res) + op_dst op /\
  (canonical (fst res) -> canonical (fst (addOpN res op))) /\
  (forall x, exec (fst (addOpN res op)) x
     = exec (fst res) x ++ exec [op] (drop (Z.to_nat (src_len (fst res))) x)).
Proof.
  intros [Hv Hn] Ho Hs Hd. destruct (addOp_spec (fst res) op) as (Av&As&Ad&Ax&Ac); [done..|].
  pose proof (valid_ops_dst _ Hv). pose proof (valid_op_dst _ Ho).
  unfold addOpN, res_ok. simpl. split_and!; try done.
  - rewrite Ad, Hn. unfold op_dst, newlen_gain in *.
    destruct (Typ op); try lia; apply wrap64_small; unfold max_int in *; lia.
  - intros x. by rewrite Ax, exec_app.
Qed.

Lemma addOpN_ins res op :
  res_ok res -> valid_op op -> src_len (fst res) + op_src op <= max_int ->
  ins_len (fst (addOpN res op)) = ins_len (fst res) + op_ins op.
Proof. intros [Hv _]. by apply addOp_ins. Qed.

Lemma followed_done res : res_ok res -> followed res [] [] res.
Proof.
  intros [Hv Hn]. constructor; simpl; try done; try lia.
  intros x d _ _. by rewrite app_nil_r.
Qed.

(** One emitted operation [op], one operation [h] of the merge. *)
Lemma followed_emit res op h ra ra' m res' :
  res_ok res -> valid_op op -> valid_ops ra' ->
  src_len (fst res) + op_src op <= max_int -> dst_len (fst res) + op_dst op <= max_int ->
  dst_len ra = op_src op + dst_len ra' -> op_dst op = op_dst h ->
  src_len ra = op_src h + src_len ra' -> 0 <= op_src h ->
  (forall d, src_len ra <= zlen d ->
     drop (Z.to_nat (op_src op)) (exec ra d) = exec ra' (drop (Z.to_nat (op_src h)) d) /\
     exec [op] (exec ra d) = exec [h] d) ->
  (forall d, exec (h :: m) d = exec [h] d ++ exec m (drop (Z.to_nat (op_src h)) d)) ->
  followed (addOpN res op) ra' m res' -> followed res ra (h :: m) res'.
Proof.
  intros Hr Ho Vra' Hs Hd Ea Eh Es Hh Hx Hm [Fv Fs Fd Fn Fc Fx].
  pose proof (valid_ops_src _ Vra'). pose proof (valid_ops_src _ (proj1 Hr)).
  pose proof (valid_op_src _ Ho).
  destruct (addOpN_spec res op) as (_&As&Ad&Ac&Ax); [done..|].
  constructor; [done|lia|simpl; lia|done|tauto|].
  intros x d Hlen Hdrop. destruct (Hx d Hlen) as [Hx1 Hx2].
  rewrite (Fx x (drop (Z.to_nat (op_src h)) d)).
  - by rewrite Ax, Hdrop, Hx2, Hm, app_assoc.
  - autorewrite with zlen. lia.
  - rewrite As, Z2Nat.inj_add, <-drop_drop by lia. by rewrite Hdrop.
Qed.

(** Source characters that A deleted: nothing is emitted. *)
Lemma followed_skip res ra ra' m n res' :
  valid_ops ra' -> 0 <= n ->
  dst_len ra = dst_len ra' -> src_len ra = n + src_len ra' ->
  (forall d, exec ra d = exec ra' (drop (Z.to_nat n) d)) ->
  followed res ra' m res' -> followed res ra (delete_op n :: m) res'.
Proof.
  intros Vra' Hn Hd Hs Hx [Fv Fs Fd Fn Fc Fx]. pose proof (valid_ops_src _ Vra').
  constructor; [done|lia|simpl; unfold op_dst; simpl; lia|done|done|].
  intros x d Hlen Hdrop. rewrite (Fx x (drop (Z.to_nat n) d)); [done| |].
  - autorewrite with zlen. lia.
  - by rewrite Hdrop, Hx.
Qed.

Lemma followed_skipA res a r m res' :
  res_ok res -> good_op a -> Typ a = OpInsert -> valid_ops r ->
  src_len (fst res) + dst_len (a :: r) <= max_int ->
  dst_len (fst res) + dst_len (a :: r) <= max_int ->
  followed (addOpN res (retain (zlen (Chars a)))) r m res' ->
  followed res (a :: r) (insert_op (Chars a) :: m) res'.
Proof.
  intros Hr Ga Ta Vr Hs Hd. pose proof (valid_op_size _ (proj1 Ga)) as Hz.
  pose proof (valid_ops_dst _ Vr).
  assert (Da : op_dst a = zlen (Chars a)) by (unfold op_dst; by rewrite Ta).
  assert (Sa : op_src a = 0) by (unfold op_src; by rewrite Ta).
  unfold op_size in Hz. rewrite Ta in Hz. simpl in Hs, Hd.
  apply followed_emit; try done; simpl; rewrite ?Da, ?Sa; unfold op_src, op_dst; simpl; try lia.
  - intros d Hlen. rewrite Ta, zlen_to_nat, app_nil_r, drop_0.
    by rewrite drop_app_length, take_app_length, app_nil_r.
  - intros d. by rewrite app_nil_r, drop_0.
Qed.

Lemma followed_insB res b ra m res' :
  res_ok res -> good_op b -> Typ b = OpInsert -> valid_ops ra ->
  src_len (fst res) <= max_int -> dst_len (fst res) + zlen (Chars b) <= max_int ->
  followed (addOpN res (insert_op (Chars b))) ra m res' ->
  followed res ra (insert_op (Chars b) :: m) res'.
Proof.
  intros Hr [Vb _] Tb Vra Hs Hd. unfold valid_op in Vb. rewrite Tb in Vb.
  apply followed_emit; try done; unfold op_src, op_dst; simpl; try lia.
  intros d. by rewrite app_nil_r, drop_0.
Qed.

(** Both cursors are on source characters. *)
Lemma followed_both a b r n res m res' :
  good_op a -> good_op b -> good_ops r -> res_ok res ->
  Typ a <> OpInsert -> Typ b <> OpInsert ->
  0 < n <= op_size a -> n <= op_size b ->
  src_len (fst res) + dst_len (a :: r) <= max_int ->
  dst_len (fst res) + dst_len (a :: r) <= max_int ->
  followed (follow_emit a b n res) (advance a r n) m res' ->
  followed res (a :: r) (merge_head a b n :: m) res'.
Proof.
  intros Ga Gb Gr Hr Ta Tb Hn Hnb Hs Hd.
  assert (Va' : valid_ops (advance a r n)) by (apply good_valid, advance_good; done).
  pose proof (valid_ops_dst _ Va'). pose proof (valid_ops_src _ Va').
  pose proof (split_dst a r n Ga ltac:(lia)) as Da. rewrite first_dst in Da by lia.
  pose proof (split_src a r n Ga ltac:(lia)) as Sa. rewrite first_src in Sa.
  assert (Hx := fun d => split_exec a r n d Ga ltac:(lia)).
  set (dA := dst_len (a :: r)) in *. set (sA := src_len (a :: r)) in *.
  unfold follow_emit, merge_head, first in *.
  pose proof (proj1 Ga) as Va. pose proof (proj1 Gb) as Vb. unfold valid_op in Va, Vb.
  destruct (Typ a); try done; cbn match in *.
  - assert (Hlen : forall d : text, sA <= zlen d -> length (take (Z.to_nat n) d) = Z.to_nat n).
    { intros d Hd'. rewrite length_take. unfold zlen in *. lia. }
    destruct (Typ b); try done; apply followed_emit; try done;
      try (rewrite ?valid_retain, ?valid_delete; unfold op_src, op_dst; simpl; lia).
    + intros d Hd'. specialize (Hlen d Hd'). rewrite Hx. simpl.
      by rewrite drop_app_length', take_app_length' by done.
    + intros d. simpl. by rewrite app_nil_r.
    + intros d Hd'. specialize (Hlen d Hd'). rewrite Hx. simpl.
      by rewrite drop_app_length' by done.
  - destruct (Typ b); try done; apply followed_skip; try done; lia.
Qed.

(** The contract of the loop with [fuel] iterations. *)
Definition follow_loop_correct (fuel : nat) : Prop :=
  forall sa sb res ra rb,
  cursor_ok sa -> cursor_ok sb -> rem_ops sa = ra -> rem_ops sb = rb -> res_ok res ->
  src_len ra = src_len rb ->
  src_len (fst res) + dst_len ra <= max_int ->
  dst_len (fst res) + dst_len ra + dst_len rb <= max_int ->
  (length ra + length rb < fuel)%nat ->
  exists res', follow_loop fuel sa sb res = Ret res' /\
    followed res ra (merge_ops fuel ra rb) res'.

(** Emitting for [n] source characters, seen from the lengths. *)
Lemma follow_emit_spec a b r q n res :
  good_op a -> good_op b -> good_ops r -> good_ops q -> res_ok res ->
  Typ a <> OpInsert -> Typ b <> OpInsert -> 0 < n <= op_size a -> n <= op_size b ->
  src_len (fst res) + dst_len (a :: r) <= max_int ->
  dst_len (fst res) + dst_len (a :: r) <= max_int ->
  let res1 := follow_emit a b n res in
  res_ok res1 /\ (canonical (fst res) -> canonical (fst res1)) /\
  src_len (fst res1) + dst_len (advance a r n) = src_len (fst res) + dst_len (a :: r) /\
  dst_len (fst res1) + dst_len (advance a r n) <= dst_len (fst res) + dst_len (a :: r) /\
  dst_len (advance b q n) <= dst_len (b :: q) /\
  ins_len (fst res1) = ins_len (fst res).
Proof.
  intros Ga Gb Gr Gq Hr Ta Tb Hn Hnb Hs Hd.
  pose proof (valid_ops_dst _ (good_valid _ (advance_good a r n Ga Gr ltac:(lia)))).
  pose proof (valid_ops_dst _ (good_valid _ (advance_good b q n Gb Gq ltac:(lia)))).
  pose proof (split_dst a r n Ga ltac:(lia)) as Da. rewrite first_dst in Da by lia.
  pose proof (split_dst b q n Gb ltac:(lia)) as Db. rewrite first_dst in Db by lia.
  pose proof (proj1 Ga) as Va. pose proof (proj1 Gb) as Vb. unfold valid_op in Va, Vb.
  unfold follow_emit. destruct (Typ a); try done; destruct (Typ b); try done;
    try (split_and!; [done|done|lia..]).
  - destruct (addOpN_spec res (retain n)) as (?&As&Ad&?&_);
      [done|autorewrite with ops; lia..|].
    pose proof (addOpN_ins res (retain n) Hr ltac:(apply valid_retain; lia) ltac:(autorewrite with ops; lia)) as Ai.
    autorewrite with ops in As, Ad. change (op_ins (retain n)) with 0 in Ai.
    split_and!; [done|done|lia..].
  - destruct (addOpN_spec res (delete_op n)) as (?&As&Ad&?&_);
      [done|autorewrite with ops; lia..|].
    pose proof (addOpN_ins res (delete_op n) Hr ltac:(apply valid_delete; lia) ltac:(autorewrite with ops; lia)) as Ai.
    autorewrite with ops in As, Ad. change (op_ins (delete_op n)) with 0 in Ai.
    split_and!; [done|done|lia..].
Qed.

Section steps.
  Context (fuel : nat) (IH : follow_loop_correct fuel).
  Context (sa sb : opSlice) (res : list Op * Z).
  Hypothesis (Ha : cursor_ok sa) (Hb : cursor_ok sb) (Hr : res_ok res).

Lemma skipA_step a r rb :
  rem_ops sa = a :: r -> rem_ops sb = rb -> Typ a = OpInsert ->
  src_len (a :: r) = src_len rb ->
  src_len (fst res) + dst_len (a :: r) <= max_int ->
  dst_len (fst res) + dst_len (a :: r) + dst_len rb <= max_int ->
  (length r + length rb < fuel)%nat ->
  exists res', follow_loop fuel (consume sa (zlen (Chars a))) sb
      (addOpN res (retain (zlen (Chars a)))) = Ret res' /\
    followed res (a :: r) (insert_op (Chars a) :: merge_ops fuel r rb) res'.
Proof.
  intros Ea Eb Ta He Hs Hd Hf.
  pose proof (cursor_rem_good _ Ha) as Ga. rewrite Ea in Ga. apply Forall_cons in Ga as [Ga Gr].
  pose proof (cursor_rem_good _ Hb) as Gb. rewrite Eb in Gb.
  pose proof (valid_ops_dst _ (good_valid _ Gr)). pose proof (valid_ops_dst _ (good_valid _ Gb)).
  destruct (consume_exact sa a r) as [Ha' Ea']; [done..|].
  assert (Hsz : op_size a = zlen (Chars a)) by (unfold op_size; by rewrite Ta).
  pose proof (valid_op_size _ (proj1 Ga)) as Hpos. rewrite Hsz in *.
  assert (Sa : op_src a = 0) by (unfold op_src; by rewrite Ta).
  assert (Da : op_dst a = zlen (Chars a)) by (unfold op_dst; by rewrite Ta).
  simpl in He, Hs, Hd.
  destruct (addOpN_spec res (retain (zlen (Chars a)))) as (Hr'&As&Ad&_);
    [done|by apply valid_retain|autorewrite with ops; lia..|].
  autorewrite with ops in As, Ad.
  destruct (IH (consume sa (zlen (Chars a))) sb (addOpN res (retain (zlen (Chars a)))) r rb)
    as (res'&->&Hc); try done; try lia.
  eexists. split; [done|]. apply followed_skipA; auto with godb; simpl; lia.
Qed.

Lemma insB_step ra b q :
  rem_ops sa = ra -> rem_ops sb = b :: q -> Typ b = OpInsert ->
  src_len ra = src_len (b :: q) ->
  src_len (fst res) + dst_len ra <= max_int ->
  dst_len (fst res) + dst_len ra + dst_len (b :: q) <= max_int ->
  (length ra + length q < fuel)%nat ->
  exists res', follow_loop fuel sa (consume sb (zlen (Chars b)))
      (addOpN res (insert_op (Chars b))) = Ret res' /\
    followed res ra (insert_op (Chars b) :: merge_ops fuel ra q) res'.
Proof.
  intros Ea Eb Tb He Hs Hd Hf.
  pose proof (cursor_rem_good _ Hb) as Gb. rewrite Eb in Gb. apply Forall_cons in Gb as [Gb Gq].
  pose proof (cursor_rem_good _ Ha) as Ga. rewrite Ea in Ga.
  pose proof (valid_ops_dst _ (good_valid _ Ga)). pose proof (valid_ops_dst _ (good_valid _ Gq)).
  destruct (consume_exact sb b q) as [Hb' Eb']; [done..|].
  assert (Hsz : op_size b = zlen (Chars b)) by (unfold op_size; by rewrite Tb).
  rewrite Hsz in *.
  assert (Sb : op_src b = 0) by (unfold op_src; by rewrite Tb).
  assert (Db : op_dst b = zlen (Chars b)) by (unfold op_dst; by rewrite Tb).
  assert (Vo : valid_op (insert_op (Chars b))).
  { destruct Gb as [Vb _]. unfold valid_op in Vb. by rewrite Tb in Vb. }
  simpl in He, Hd.
  destruct (addOpN_spec res (insert_op (Chars b))) as (Hr'&As&Ad&_);
    [done|done|autorewrite with ops; lia..|].
  autorewrite with ops in As, Ad.
  destruct (IH sa (consume sb (zlen (Chars b))) (addOpN res (insert_op (Chars b))) ra q)
    as (res'&->&Hc); try done; try lia.
  eexists. split; [done|]. apply followed_insB; auto with godb; lia.
Qed.

Lemma source_step a r b q n :
  rem_ops sa = a :: r -> rem_ops sb = b :: q ->
  Typ a <> OpInsert -> Typ b <> OpInsert -> n = Z.min (Len a) (Len b) ->
  src_len (a :: r) = src_len (b :: q) ->
  src_len (fst res) + dst_len (a :: r) <= max_int ->
  dst_len (fst res) + dst_len (a :: r) + dst_len (b :: q) <= max_int ->
  (length r + length q + 1 < fuel)%nat ->
  exists res', follow_loop fuel (consume sa n) (consume sb n) (follow_emit a b n res) = Ret res' /\
    followed res (a :: r)
      (merge_head a b n :: merge_ops fuel (advance a r n) (advance b q n)) res'.
Proof.
  intros Ea Eb Ta Tb Hn He Hs Hd Hf.
  pose proof (cursor_rem_good _ Ha) as Ga. rewrite Ea in Ga. apply Forall_cons in Ga as [Ga Gr].
  pose proof (cursor_rem_good _ Hb) as Gb. rewrite Eb in Gb. apply Forall_cons in Gb as [Gb Gq].
  pose proof (valid_op_size _ (proj1 Ga)) as Pa. pose proof (valid_op_size _ (proj1 Gb)) as Pb.
  assert (La : op_size a = Len a) by (unfold op_size; by destruct (Typ a)).
  assert (Lb : op_size b = Len b) by (unfold op_size; by destruct (Typ b)).
  destruct (consume_advance sa a r n) as [Ha' Ea']; [done..|lia|].
  destruct (consume_advance sb b q n) as [Hb' Eb']; [done..|lia|].
  pose proof (good_valid _ (advance_good a r n Ga Gr ltac:(lia))) as Va'.
  pose proof (good_valid _ (advance_good b q n Gb Gq ltac:(lia))) as Vb'.
  pose proof (valid_ops_dst _ Va'). pose proof (valid_ops_dst _ Vb').
  pose proof (valid_ops_dst (b :: q) ltac:(apply good_valid; by constructor)).
  pose proof (split_dst a r n Ga ltac:(lia)) as Da. rewrite first_dst in Da by lia.
  pose proof (split_src a r n Ga ltac:(lia)) as Sa. rewrite first_src in Sa.
  pose proof (split_dst b q n Gb ltac:(lia)) as Db. rewrite first_dst in Db by lia.
  pose proof (split_src b q n Gb ltac:(lia)) as Sb. rewrite first_src in Sb.
  assert (Hf' : (length (advance a r n) + length (advance b q n) < fuel)%nat).
  { replace n with (Z.min (op_size a) (op_size b)) by lia.
    apply advance_both_length. lia. }
  destruct (follow_emit_spec a b r q n res) as (Hr'&_&Hs'&Hd'&Hd''&_); try done; try lia.
  destruct (IH (consume sa n) (consume sb n) (follow_emit a b n res)
    (advance a r n) (advance b q n)) as (res'&->&Hc); try done; try lia.
  { pose proof (proj1 Ga) as Va. pose proof (proj1 Gb) as Vb. unfold valid_op in Va, Vb.
    destruct (Typ a), (Typ b); try done; lia. }
  eexists. split; [done|]. apply followed_both; try done; try lia.
Qed.
End steps.

Lemma is_insert_spec op : is_insert (Some op) = true <-> Typ op = OpInsert.
Proof. unfold is_insert. by rewrite bool_decide_eq_true. Qed.

Lemma not_insert_src op : valid_op op -> Typ op <> OpInsert -> 0 < op_src op.
Proof. unfold valid_op, op_src. by destruct (Typ op). Qed.

(** The loop, from any pair of cursors on operations over the same source. *)
Lemma follow_loop_ok fuel : follow_loop_correct fuel.
Proof.
  induction fuel as [|fuel IH]; intros sa sb res ra rb Ha Hb Ea Eb Hr He Hs Hd Hf; [lia|].
  pose proof (cursor_rem_good _ Ha) as Ga. pose proof (cursor_rem_good _ Hb) as Gb.
  rewrite Ea in Ga. rewrite Eb in Gb. cbn [follow_loop merge_ops]. rewrite !peek_rem, Ea, Eb.
  destruct Ga as [|a r Ga Gr], Gb as [|b q Gb Gq]; cbn [head hd_error].
  - eexists. split; [done|]. by apply followed_done.
  - destruct (is_insert (Some b)) eqn:Tb.
    + apply is_insert_spec in Tb. apply (insB_step fuel IH); try done. simpl in *. lia.
    + exfalso. assert (Tb' : Typ b <> OpInsert) by (rewrite <-is_insert_spec; congruence).
      pose proof (not_insert_src _ (proj1 Gb) Tb').
      pose proof (valid_ops_src _ (good_valid _ Gq)). simpl in He. lia.
  - destruct (is_insert (Some a)) eqn:Ta.
    + apply is_insert_spec in Ta. apply (skipA_step fuel IH); try done. simpl in *. lia.
    + exfalso. assert (Ta' : Typ a <> OpInsert) by (rewrite <-is_insert_spec; congruence).
      pose proof (not_insert_src _ (proj1 Ga) Ta').
      pose proof (valid_ops_src _ (good_valid _ Gr)). simpl in He. lia.
  - assert (HA : Typ a = OpInsert -> exists res',
      follow_loop fuel (consume sa (zlen (Chars a))) sb (addOpN res (retain (zlen (Chars a))))
        = Ret res' /\ followed res (a :: r) (insert_op (Chars a) :: merge_ops fuel r (b :: q)) res').
    { intros Ta. apply (skipA_step fuel IH); try done. simpl in *. lia. }
    assert (HB : Typ b = OpInsert -> exists res',
      follow_loop fuel sa (consume sb (zlen (Chars b))) (addOpN res (insert_op (Chars b)))
        = Ret res' /\ followed res (a :: r) (insert_op (Chars b) :: merge_ops fuel (a :: r) q) res').
    { intros Tb. apply (insB_step fuel IH); try done. simpl in *. lia. }
    destruct (is_insert (Some a)) eqn:Ta, (is_insert (Some b)) eqn:Tb; cbn [andb].
    + apply is_insert_spec in Ta, Tb. destruct (str_leb _ _); auto.
    + apply is_insert_spec in Ta. auto.
    + apply is_insert_spec in Tb. auto.
    + assert (Ta' : Typ a <> OpInsert) by (rewrite <-is_insert_spec; congruence).
      assert (Tb' : Typ b <> OpInsert) by (rewrite <-is_insert_spec; congruence).
      assert (Hn : (if Len b <? Len a then Len b else Len a) = Z.min (Len a) (Len b))
        by (bool_cases; lia).
      rewrite Hn. simpl in Hf. apply (source_step fuel IH); try done; lia.
Qed.

(** ** The loop on any valid operations

    Without the assumption that A and B have one source the loop still ends, with
    a valid result whose lengths are bounded by those of the inputs. *)
Record ended (res : list Op * Z) (ra rb : list Op) (res' : list Op * Z) : Prop := mk_ended {
  en_ok : res_ok res';
  en_canonical : canonical (fst res) -> canonical (fst res');
  en_src : src_len (fst res') <= src_len (fst res) + dst_len ra;
  en_dst : dst_len (fst res') <= dst_len (fst res) + dst_len ra + ins_len rb;
  en_ins : ins_len (fst res') <= ins_len (fst res) + ins_len rb
}.

Definition follow_loop_total (fuel : nat) : Prop :=
  forall sa sb res ra rb,
  cursor_ok sa -> cursor_ok sb -> rem_ops sa = ra -> rem_ops sb = rb -> res_ok res ->
  src_len (fst res) + dst_len ra <= max_int ->
  dst_len (fst res) + dst_len ra + ins_len rb <= max_int ->
  (length ra + length rb < fuel)%nat ->
  exists res', follow_loop fuel sa sb res = Ret res' /\ ended res ra rb res'.

Lemma skipA_total fuel sa sb res a r rb :
  follow_loop_total fuel -> cursor_ok sa -> cursor_ok sb -> res_ok res ->
  rem_ops sa = a :: r -> rem_ops sb = rb -> Typ a = OpInsert ->
  src_len (fst res) + dst_len (a :: r) <= max_int ->
  dst_len (fst res) + dst_len (a :: r) + ins_len rb <= max_int ->
  (length r + length rb < fuel)%nat ->
  exists res', follow_loop fuel (consume sa (zlen (Chars a))) sb
      (addOpN res (retain (zlen (Chars a)))) = Ret res' /\
    ended res (a :: r) rb res'.
Proof.
  intros IH Ha Hb Hr Ea Eb Ta Hs Hd Hf.
  pose proof (cursor_rem_good _ Ha) as Ga. rewrite Ea in Ga. apply Forall_cons in Ga as [Ga Gr].
  pose proof (cursor_rem_good _ Hb) as Gb. rewrite Eb in Gb.
  pose proof (valid_ops_dst _ (good_valid _ Gr)). pose proof (ins_len_nonneg rb).
  destruct (consume_exact sa a r) as [Ha' Ea']; [done..|].
  assert (Hsz : op_size a = zlen (Chars a)) by (unfold op_size; by rewrite Ta).
  pose proof (valid_op_size _ (proj1 Ga)) as Hpos. rewrite Hsz in *.
  assert (Da : op_dst a = zlen (Chars a)) by (unfold op_dst; by rewrite Ta).
  change (dst_len (a :: r)) with (op_dst a + dst_len r) in *.
  destruct (addOpN_spec res (retain (zlen (Chars a)))) as (Hr'&As&Ad&Ac&_);
    [done|by apply valid_retain|autorewrite with ops; lia..|].
  pose proof (addOpN_ins res (retain (zlen (Chars a))) Hr ltac:(by apply valid_retain)
    ltac:(autorewrite with ops; lia)) as Ai.
  change (op_ins (retain (zlen (Chars a)))) with 0 in Ai.
  autorewrite with ops in As, Ad.
  destruct (IH (consume sa (zlen (Chars a))) sb (addOpN res (retain (zlen (Chars a)))) r rb)
    as (res'&->&[R1 R2 R3 R4 R5]); try done; try lia.
  exists res'. split; [done|]. split; [done|tauto|cbn [dst_len ins_len]; lia..].
Qed.

Lemma insB_total fuel sa sb res ra b q :
  follow_loop_total fuel -> cursor_ok sa -> cursor_ok sb -> res_ok res ->
  rem_ops sa = ra -> rem_ops sb = b :: q -> Typ b = OpInsert ->
  src_len (fst res) + dst_len ra <= max_int ->
  dst_len (fst res) + dst_len ra + ins_len (b :: q) <= max_int ->
  (length ra + length q < fuel)%nat ->
  exists res', follow_loop fuel sa (consume sb (zlen (Chars b)))
      (addOpN res (insert_op (Chars b))) = Ret res' /\
    ended res ra (b :: q) res'.
Proof.
  intros IH Ha Hb Hr Ea Eb Tb Hs Hd Hf.
  pose proof (cursor_rem_good _ Hb) as Gb. rewrite Eb in Gb. apply Forall_cons in Gb as [Gb Gq].
  pose proof (cursor_rem_good _ Ha) as Ga. rewrite Ea in Ga.
  pose proof (valid_ops_dst _ (good_valid _ Ga)). pose proof (ins_len_nonneg q).
  destruct (consume_exact sb b q) as [Hb' Eb']; [done..|].
  assert (Hsz : op_size b = zlen (Chars b)) by (unfold op_size; by rewrite Tb).
  pose proof (valid_op_size _ (proj1 Gb)) as Hpos. rewrite Hsz in *.
  assert (Db : op_dst b = zlen (Chars b)) by (unfold op_dst; by rewrite Tb).
  assert (Vo : valid_op (insert_op (Chars b))).
  { destruct Gb as [Vb _]. unfold valid_op in Vb. by rewrite Tb in Vb. }
  assert (Ib : op_ins b = zlen (Chars b)) by (unfold op_ins; by rewrite Tb).
  change (ins_len (b :: q)) with (op_ins b + ins_len q) in *.
  destruct (addOpN_spec res (insert_op (Chars b))) as (Hr'&As&Ad&Ac&_);
    [done|done|autorewrite with ops; lia..|].
  pose proof (addOpN_ins res (insert_op (Chars b)) Hr ltac:(done)
    ltac:(autorewrite with ops; lia)) as Ai.
  change (op_ins (insert_op (Chars b))) with (zlen (Chars b)) in Ai.
  autorewrite with ops in As, Ad.
  destruct (IH sa (consume sb (zlen (Chars b))) (addOpN res (insert_op (Chars b))) ra q)
    as (res'&->&[R1 R2 R3 R4 R5]); try done; try lia.
  exists res'. split; [done|]. split; [done|tauto|cbn [dst_len ins_len]; lia..].
Qed.

Lemma source_total fuel sa sb res a r b q n :
  follow_loop_total fuel -> cursor_ok sa -> cursor_ok sb -> res_ok res ->
  rem_ops sa = a :: r -> rem_ops sb = b :: q ->
  Typ a <> OpInsert -> Typ b <> OpInsert -> n = Z.min (Len a) (Len b) ->
  src_len (fst res) + dst_len (a :: r) <= max_int ->
  dst_len (fst res) + dst_len (a :: r) + ins_len (b :: q) <= max_int ->
  (length r + length q + 1 < fuel)%nat ->
  exists res', follow_loop fuel (consume sa n) (consume sb n) (follow_emit a b n res) = Ret res' /\
    ended res (a :: r) (b :: q) res'.
Proof.
  intros IH Ha Hb Hr Ea Eb Ta Tb Hn Hs Hd Hf.
  pose proof (cursor_rem_good _ Ha) as Ga. rewrite Ea in Ga. apply Forall_cons in Ga as [Ga Gr].
  pose proof (cursor_rem_good _ Hb) as Gb. rewrite Eb in Gb. apply Forall_cons in Gb as [Gb Gq].
  pose proof (valid_op_size _ (proj1 Ga)) as Pa. pose proof (valid_op_size _ (proj1 Gb)) as Pb.
  assert (La : op_size a = Len a) by (unfold op_size; by destruct (Typ a)).
  assert (Lb : op_size b = Len b) by (unfold op_size; by destruct (Typ b)).
  destruct (consume_advance sa a r n) as [Ha' Ea']; [done..|lia|].
  destruct (consume_advance sb b q n) as [Hb' Eb']; [done..|lia|].
  pose proof (ins_len_nonneg (b :: q)).
  destruct (follow_emit_spec a b r q n res) as (Hr'&Ac&Hs'&Hd'&_&Hi'); try done; try lia.
  pose proof (advance_ins b q n Tb) as Hib.
  assert (Hf' : (length (advance a r n) + length (advance b q n) < fuel)%nat).
  { replace n with (Z.min (op_size a) (op_size b)) by lia.
    apply advance_both_length. lia. }
  destruct (IH (consume sa n) (consume sb n) (follow_emit a b n res)
    (advance a r n) (advance b q n)) as (res'&->&[R1 R2 R3 R4 R5]); try done; try lia.
  exists res'. split; [done|]. split; [done|tauto|lia..].
Qed.

Lemma follow_loop_ends fuel : follow_loop_total fuel.
Proof.
  induction fuel as [|fuel IH]; intros sa sb res ra rb Ha Hb Ea Eb Hr Hs Hd Hf; [lia|].
  pose proof (cursor_rem_good _ Ha) as Ga. pose proof (cursor_rem_good _ Hb) as Gb.
  rewrite Ea in Ga. rewrite Eb in Gb. cbn [follow_loop]. rewrite !peek_rem, Ea, Eb.
  pose proof (valid_ops_dst _ (good_valid _ Ga)). pose proof (ins_len_nonneg rb).
  assert (Hstop : exists res', Ret (E := ot_error) res = Ret res' /\ ended res ra rb res').
  { exists res. split; [done|]. split; [done|done|lia..]. }
  destruct Ga as [|a r Ga Gr], Gb as [|b q Gb Gq]; cbn [head hd_error]; [done| | |].
  - destruct (is_insert (Some b)) eqn:Tb; [|done]. apply is_insert_spec in Tb.
    apply (insB_total fuel); try done. simpl in *. lia.
  - destruct (is_insert (Some a)) eqn:Ta; [|done]. apply is_insert_spec in Ta.
    apply (skipA_total fuel); try done. simpl in *. lia.
  - assert (HA := skipA_total fuel sa sb res a r (b :: q) IH Ha Hb Hr Ea Eb).
    assert (HB := insB_total fuel sa sb res (a :: r) b q IH Ha Hb Hr Ea Eb).
    assert (Hf1 : (length r + length (b :: q) < fuel)%nat) by (simpl in *; lia).
    assert (Hf2 : (length (a :: r) + length q < fuel)%nat) by (simpl in *; lia).
    destruct (is_insert (Some a)) eqn:Ta, (is_insert (Some b)) eqn:Tb; cbn [andb];
      try apply is_insert_spec in Ta; try apply is_insert_spec in Tb; [destruct (str_leb _ _); auto|auto..|].
    assert (Ta' : Typ a <> OpInsert) by (rewrite <-is_insert_spec; congruence).
    assert (Tb' : Typ b <> OpInsert) by (rewrite <-is_insert_spec; congruence).
    apply (source_total fuel); try done; [bool_cases; lia|simpl in *; lia].
Qed.

(** * The merge is symmetric *)

Lemma no_adj_ins_advance op r n :
  no_adj_ins (op :: r) -> Typ op <> OpInsert -> no_adj_ins (advance op r n).
Proof.
  intros [_ Hr] Ht. unfold advance. destruct (_ =? _); [done|].
  split; [|done]. by rewrite trim_Typ.
Qed.

Lemma merge_head_comm a b n : merge_head a b n = merge_head b a n.
Proof. unfold merge_head. by destruct (Typ a), (Typ b). Qed.

(** Past the left insertion of a tie the other one follows: no second insertion
    can come between. *)
Lemma merge_ops_insert_r fuel a r b q :
  no_adj_ins (a :: r) -> Typ a = OpInsert -> Typ b = OpInsert ->
  merge_ops (S fuel) r (b :: q) = insert_op (Chars b) :: merge_ops fuel r q.
Proof.
  intros [Hr _] Ta Tb. cbn [merge_ops]. apply is_insert_spec in Tb. rewrite Tb.
  destruct r as [|x r]; [done|].
  assert (is_insert (Some x) = false) as ->; [|done].
  apply not_true_is_false. rewrite is_insert_spec. by apply Hr.
Qed.

Lemma merge_ops_insert_l fuel a r b q :
  no_adj_ins (b :: q) -> Typ a = OpInsert -> Typ b = OpInsert ->
  merge_ops (S fuel) (a :: r) q = insert_op (Chars a) :: merge_ops fuel r q.
Proof.
  intros [Hq _] Ta Tb. cbn [merge_ops]. apply is_insert_spec in Ta. rewrite Ta.
  destruct q as [|x q]; [done|].
  assert (is_insert (Some x) = false) as ->; [|done].
  apply not_true_is_false. rewrite is_insert_spec. by apply Hq.
Qed.

Lemma merge_ops_comm fuel ra rb :
  good_ops ra -> good_ops rb -> no_adj_ins ra -> no_adj_ins rb ->
  (length ra + length rb < fuel)%nat ->
  merge_ops fuel ra rb = merge_ops fuel rb ra.
Proof.
  revert ra rb. induction (lt_wf fuel) as [fuel _ IH]. intros ra rb Ga Gb Na Nb Hf.
  destruct fuel as [|fuel]; [lia|].
  destruct Ga as [|a r Ga Gr], Gb as [|b q Gb Gq]; cbn [merge_ops]; try done.
  - destruct (is_insert (Some b)); [|done]. f_equal.
    apply IH; try done; [lia|constructor|apply Nb|simpl in *; lia].
  - destruct (is_insert (Some a)); [|done]. f_equal.
    apply IH; try done; [lia|constructor|apply Na|simpl in *; lia].
  - simpl in Hf.
    destruct (is_insert (Some a)) eqn:Ta, (is_insert (Some b)) eqn:Tb; cbn [andb].
    + apply is_insert_spec in Ta, Tb.
      destruct (str_leb (Chars a) (Chars b)) eqn:L1, (str_leb (Chars b) (Chars a)) eqn:L2.
      * destruct fuel as [|fuel]; [lia|].
        rewrite (merge_ops_insert_r fuel a r b q), (merge_ops_insert_r fuel b q a r) by done.
        rewrite (str_leb_antisym _ _ L1 L2). do 2 f_equal.
        apply IH; try done; [lia|apply Na|apply Nb|lia].
      * f_equal. apply IH; try done; [lia|by constructor|apply Na|simpl; lia].
      * f_equal. apply IH; try done; [lia|by constructor|apply Nb|simpl; lia].
      * by rewrite (str_leb_total _ _ L1) in L2.
    + f_equal. apply IH; try done; [lia|by constructor|apply Na|simpl; lia].
    + f_equal. apply IH; try done; [lia|by constructor|apply Nb|simpl; lia].
    + assert (Ta' : Typ a <> OpInsert) by (rewrite <-is_insert_spec; congruence).
      assert (Tb' : Typ b <> OpInsert) by (rewrite <-is_insert_spec; congruence).
      pose proof (valid_op_size _ (proj1 Ga)). pose proof (valid_op_size _ (proj1 Gb)).
      assert (La : op_size a = Len a) by (unfold op_size; by destruct (Typ a)).
      assert (Lb : op_size b = Len b) by (unfold op_size; by destruct (Typ b)).
      rewrite (Z.min_comm (Len b)), (merge_head_comm b). f_equal.
      apply IH; [lia|apply advance_good; first [done|lia]..| | |].
      * by apply no_adj_ins_advance.
      * by apply no_adj_ins_advance.
      * rewrite <-La, <-Lb. apply advance_both_length. lia.
Qed.

(** * [Follow] as a whole *)

Lemma wf_good c : wf c -> good_ops (Ops c).
Proof. intros []. apply valid_good; [done|lia..]. Qed.

(** The merge is a valid list of operations, no longer than both results. *)
Lemma merge_ops_valid fuel ra rb :
  good_ops ra -> good_ops rb ->
  valid_ops (merge_ops fuel ra rb) /\
  dst_len (merge_ops fuel ra rb) <= dst_len ra + dst_len rb.
Proof.
  revert ra rb. induction fuel as [|fuel IH]; intros ra rb Ga Gb; cbn [merge_ops].
  { split; [constructor|]. pose proof (valid_ops_dst _ (good_valid _ Ga)).
    pose proof (valid_ops_dst _ (good_valid _ Gb)). simpl. lia. }
  assert (Hins : forall x y l, good_op x -> is_insert (Some x) = true ->
    valid_ops l /\ dst_len l <= y ->
    valid_ops (insert_op (Chars x) :: l) /\
    dst_len (insert_op (Chars x) :: l) <= op_dst x + y).
  { intros x y l [Vx _] Tx%is_insert_spec [Vl Dl]. unfold valid_op in Vx. rewrite Tx in Vx.
    split; [by constructor|]. simpl. rewrite op_dst_insert.
    unfold op_dst. rewrite Tx. lia. }
  destruct Ga as [|a r Ga Gr], Gb as [|b q Gb Gq].
  - split; [constructor|done].
  - destruct (is_insert (Some b)) eqn:Tb.
    + apply Hins; [done..|]. by apply (IH []); [constructor|].
    + split; [constructor|]. pose proof (valid_op_dst _ (proj1 Gb)).
      pose proof (valid_ops_dst _ (good_valid _ Gq)). simpl. lia.
  - destruct (is_insert (Some a)) eqn:Ta.
    + change (dst_len (a :: r)) with (op_dst a + dst_len r). rewrite <-Z.add_assoc.
      apply Hins; [done..|]. by apply (IH r []); [|constructor].
    + split; [constructor|]. pose proof (valid_op_dst _ (proj1 Ga)).
      pose proof (valid_ops_dst _ (good_valid _ Gr)). simpl. lia.
  - assert (HA : is_insert (Some a) = true ->
      valid_ops (insert_op (Chars a) :: merge_ops fuel r (b :: q)) /\
      dst_len (insert_op (Chars a) :: merge_ops fuel r (b :: q))
        <= dst_len (a :: r) + dst_len (b :: q)).
    { intros Ta. change (dst_len (a :: r)) with (op_dst a + dst_len r).
      rewrite <-Z.add_assoc. apply Hins; [done..|]. apply IH; [done|by constructor]. }
    assert (HB : is_insert (Some b) = true ->
      valid_ops (insert_op (Chars b) :: merge_ops fuel (a :: r) q) /\
      dst_len (insert_op (Chars b) :: merge_ops fuel (a :: r) q)
        <= dst_len (a :: r) + dst_len (b :: q)).
    { intros Tb. change (dst_len (b :: q)) with (op_dst b + dst_len q).
      rewrite (Z.add_comm (op_dst b)), Z.add_assoc, (Z.add_comm _ (op_dst b)).
      apply Hins; [done..|]. apply IH; [by constructor|done]. }
    destruct (is_insert (Some a)) eqn:Ta, (is_insert (Some b)) eqn:Tb; cbn [andb];
      [destruct (str_leb _ _); auto|by auto..|].
    assert (Ta' : Typ a <> OpInsert) by (rewrite <-is_insert_spec; congruence).
    assert (Tb' : Typ b <> OpInsert) by (rewrite <-is_insert_spec; congruence).
    pose proof (valid_op_size _ (proj1 Ga)). pose proof (valid_op_size _ (proj1 Gb)).
    assert (La : op_size a = Len a) by (unfold op_size; by destruct (Typ a)).
    assert (Lb : op_size b = Len b) by (unfold op_size; by destruct (Typ b)).
    set (n := Z.min (Len a) (Len b)).
    pose proof (split_dst a r n Ga ltac:(lia)) as Da. rewrite first_dst in Da by lia.
    pose proof (split_dst b q n Gb ltac:(lia)) as Db. rewrite first_dst in Db by lia.
    destruct (IH (advance a r n) (advance b q n)) as [IV ID];
      [apply advance_good; first [done|lia]..|].
    assert (Hh : valid_op (merge_head a b n))
      by (unfold merge_head; destruct (Typ a); try destruct (Typ b); unfold valid_op; simpl; lia).
    split; [by constructor|]. simpl dst_len at 1. rewrite Da, Db.
    unfold merge_head. destruct (Typ a), (Typ b); try done;
      rewrite ?op_dst_retain, ?op_dst_delete; lia.
Qed.

Lemma Follow_ok A B :
  wf A -> wf B -> OldLen A = OldLen B -> NewLen A + NewLen B <= max_int ->
  exists F, Follow A B = Ret F /\ wf F /\ canonical (Ops F) /\
    OldLen F = NewLen A /\ NewLen F = dst_len (merge A B) /\
    forall t, zlen t = OldLen A -> exec (Ops F) (exec (Ops A) t) = exec (merge A B) t.
Proof.
  intros WA WB E Hm. pose proof (wf_good _ WA) as Ga. pose proof (wf_good _ WB) as Gb.
  destruct WA as [Va Oa Na Ma1 Ma2], WB as [Vb Ob Nb Mb1 Mb2].
  pose proof (valid_ops_dst _ Va). pose proof (valid_ops_dst _ Vb).
  destruct (follow_loop_ok (follow_fuel A B) (start (Ops A)) (start (Ops B)) ([], 0)
    (Ops A) (Ops B)) as ([res new]&Hres&[Fv Fs Fd Fn Fc Fx]);
    try (by apply start_ok); try (by apply rem_start_good); simpl; try lia.
  { split; [constructor|done]. }
  { unfold follow_fuel. lia. }
  fold (merge A B) in Fd, Fx. unfold Follow. rewrite Hres.
  cbn [fst snd dst_len src_len] in *.
  assert (Hd : dst_len res <= max_int).
  { destruct (merge_ops_valid (follow_fuel A B) (Ops A) (Ops B)) as [_ H1]; [done..|].
    fold (merge A B) in H1. lia. }
  eexists. split; [done|]. split_and!; simpl; try done; try lia.
  - constructor; simpl; try done; lia.
  - by apply Fc.
  - intros t Ht. apply Fx; [lia|]. by rewrite drop_0.
Qed.

(** [Follow] on any two well-formed changesets, over one document or not. *)
Lemma Follow_total A B :
  wf A -> good_ops (Ops B) -> NewLen A + ins_len (Ops B) <= max_int ->
  exists F, Follow A B = Ret F /\ OldLen F = NewLen A /\ good_ops (Ops F) /\
    canonical (Ops F) /\ NewLen F = dst_len (Ops F) /\ src_len (Ops F) <= NewLen A /\
    dst_len (Ops F) <= NewLen A + ins_len (Ops B) /\ ins_len (Ops F) <= ins_len (Ops B).
Proof.
  intros WA Gb Hm. pose proof (wf_good _ WA) as Ga.
  pose proof (ins_len_nonneg (Ops B)) as Hb.
  destruct WA as [Va Oa Na Ma1 Ma2].
  destruct (follow_loop_ends (follow_fuel A B) (start (Ops A)) (start (Ops B)) ([], 0)
    (Ops A) (Ops B)) as ([res new]&Hres&[[Rv Rn] Rc Rs Rd Ri]);
    try (by apply start_ok); try (by apply rem_start_good); simpl; try lia.
  { split; [constructor|done]. }
  { unfold follow_fuel. lia. }
  unfold Follow. rewrite Hres. cbn [fst snd dst_len src_len ins_len] in *.
  eexists. split; [done|]. simpl. split_and!; try done; [|by apply Rc|lia..].
  apply valid_good; [done|lia..].
Qed.

Lemma merge_comm A B :
  wf A -> wf B -> no_adj_ins (Ops A) -> no_adj_ins (Ops B) -> merge A B = merge B A.
Proof.
  intros WA WB NA NB. unfold merge, follow_fuel.
  rewrite (Nat.add_comm (length (Ops B))). apply merge_ops_comm; try done.
  - by apply wf_good.
  - by apply wf_good.
  - lia.
Qed.


(** * Properties *)

(** C1: convergence (TP1). Two concurrent changesets, neither of which has two insertions
    next to each other ([no_adj_ins]; [Follow_noncanonical_diverges] shows that without it
    the orders can differ), can be applied in either order: [A] then [Follow A B] and [B] then
    [Follow B A] both succeed and give the same text. *)
Theorem Follow_convergence t A B :
  wf A -> wf B -> OldLen A = zlen t -> OldLen B = zlen t ->
  NewLen A + NewLen B <= max_int -> no_adj_ins (Ops A) -> no_adj_ins (Ops B) ->
  exists tA tB fAB fBA u,
    ApplyChangeset t A = Ret tA /\ ApplyChangeset t B = Ret tB /\
    Follow A B = Ret fAB /\ Follow B A = Ret fBA /\
    ApplyChangeset tA fAB = Ret u /\ ApplyChangeset tB fBA = Ret u.
Proof.
  intros WA WB EA EB Hm NA NB.
  destruct (Follow_ok A B) as (F&HF&WF&_&OF&_&XF); [done|done|congruence|done|].
  destruct (Follow_ok B A) as (G&HG&WG&_&OG&_&XG); [done|done|congruence|lia|].
  eexists _, _, F, G, _. split_and!.
  - by apply ApplyChangeset_exec.
  - by apply ApplyChangeset_exec.
  - done.
  - done.
  - apply ApplyChangeset_exec; [done|]. by rewrite exec_wf_zlen.
  - rewrite ApplyChangeset_exec; [|done|by rewrite exec_wf_zlen].
    by rewrite XF, XG, merge_comm.
Qed.

Lemma Follow_convergence_witness :
  let A := MakeInsert 1 0 (bytes_of "b") in let B := MakeInsert 1 0 (bytes_of "a") in
  exists tA tB fAB fBA u,
    ApplyChangeset (bytes_of "x") A = Ret tA /\ ApplyChangeset (bytes_of "x") B = Ret tB /\
    Follow A B = Ret fAB /\ Follow B A = Ret fBA /\
    ApplyChangeset tA fAB = Ret u /\ ApplyChangeset tB fBA = Ret u.
Proof.
  exact (Follow_convergence (bytes_of "x") (MakeInsert 1 0 (bytes_of "b"))
    (MakeInsert 1 0 (bytes_of "a")) ltac:(by_compute) ltac:(by_compute) ltac:(by_compute)
    ltac:(by_compute) ltac:(by_compute) ltac:(by_compute) ltac:(by_compute)).
Defined.

(** C22: [Follow A B] terminates without error or panic on well-formed changesets over
    one document; the result is well formed, canonical, starts from A's result,
    and A followed by it writes the merge m(A, B). *)
Theorem Follow_correct t A B :
  wf A -> wf B -> OldLen A = zlen t -> OldLen B = zlen t -> NewLen A + NewLen B <= max_int ->
  exists F, Follow A B = Ret F /\ wf F /\ canonical (Ops F) /\ OldLen F = NewLen A /\
    (u ← ApplyChangeset t A; ApplyChangeset u F) = Ret (exec (merge A B) t).
Proof.
  intros WA WB EA EB Hm.
  destruct (Follow_ok A B) as (F&HF&WF&CF&OF&_&XF); [done|done|congruence|done|].
  exists F. split_and!; try done. rewrite (ApplyChangeset_exec t A) by done. simpl.
  rewrite ApplyChangeset_exec; [by rewrite XF|done|by rewrite exec_wf_zlen].
Qed.

Lemma Follow_correct_witness :
  let A := MakeDelete 3 0 1 in let B := MakeInsert 3 3 (bytes_of "t") in
  exists F, Follow A B = Ret F /\ wf F /\ canonical (Ops F) /\ OldLen F = 2 /\
    (u ← ApplyChangeset (bytes_of "car") A; ApplyChangeset u F) = Ret (bytes_of "art").
Proof.
  exact (Follow_correct (bytes_of "car") (MakeDelete 3 0 1) (MakeInsert 3 3 (bytes_of "t"))
    ltac:(by_compute) ltac:(by_compute) ltac:(by_compute) ltac:(by_compute) ltac:(by_compute)).
Defined.

(** The merge is commutative, m(A, B) = m(B, A), as one list of operations,
    and it is the list [Follow] realises on either side. *)
Theorem merge_symmetric A B :
  wf A -> wf B -> OldLen A = OldLen B -> NewLen A + NewLen B <= max_int ->
  no_adj_ins (Ops A) -> no_adj_ins (Ops B) ->
  merge A B = merge B A /\
  exists F G, Follow A B = Ret F /\ Follow B A = Ret G /\ NewLen F = NewLen G /\
    forall t, zlen t = OldLen A ->
      exec (Ops F) (exec (Ops A) t) = exec (Ops G) (exec (Ops B) t).
Proof.
  intros WA WB E Hm NA NB. split; [by apply merge_comm|].
  destruct (Follow_ok A B) as (F&HF&WF&_&OF&LF&XF); [done..|].
  destruct (Follow_ok B A) as (G&HG&WG&_&OG&LG&XG); [done|done|done|lia|].
  exists F, G. rewrite (merge_comm A B) in * by done. split_and!; try done; try congruence.
  intros t Ht. rewrite XF, XG; congruence.
Qed.

Lemma merge_symmetric_witness :
  merge (MakeInsert 1 0 (bytes_of "b")) (MakeInsert 1 0 (bytes_of "a"))
  = merge (MakeInsert 1 0 (bytes_of "a")) (MakeInsert 1 0 (bytes_of "b")).
Proof.
  exact (proj1 (merge_symmetric (MakeInsert 1 0 (bytes_of "b")) (MakeInsert 1 0 (bytes_of "a"))
    ltac:(by_compute) ltac:(by_compute) ltac:(by_compute) ltac:(by_compute)
    ltac:(by_compute) ltac:(by_compute))).
Defined.

(** Without the canonical form convergence fails. [Validate] accepts changesets
    with neighbouring insertions, and for two of them the documents of the two
    clients differ for good. *)
Theorem Follow_noncanonical_diverges :
  exists t A B fAB fBA tA tB u v,
    Validate A = Ret tt /\ Validate B = Ret tt /\ OldLen A = zlen t /\ OldLen B = zlen t /\
    Follow A B = Ret fAB /\ Follow B A = Ret fBA /\
    ApplyChangeset t A = Ret tA /\ ApplyChangeset t B = Ret tB /\
    ApplyChangeset tA fAB = Ret u /\ ApplyChangeset tB fBA = Ret v /\ u <> v.
Proof.
  exists [], (mkChangeset 0 2 [insert_op (bytes_of "x"); insert_op (bytes_of "b")]),
    (mkChangeset 0 2 [insert_op (bytes_of "x"); insert_op (bytes_of "a")]).
  do 6 eexists. split_and!; try (vm_compute; reflexivity). by vm_compute.
Qed.

(** An operation of length zero is never consumed. *)
Lemma follow_loop_empty fuel res :
  follow_loop fuel (start [retain 0]) (start [retain 0]) res = NoFuel.
Proof.
  revert res. induction fuel as [|fuel IH]; intros res; [done|].
  change (follow_loop fuel (start [retain 0]) (start [retain 0])
    (follow_emit (retain 0) (retain 0) 0 res) = NoFuel). apply IH.
Qed.

Lemma follow_loop_empty_insert fuel res :
  follow_loop fuel (start [insert_op []]) (start []) res = NoFuel.
Proof.
  revert res. induction fuel as [|fuel IH]; intros res; [done|].
  change (follow_loop fuel (start [insert_op []]) (start [])
    (addOpN res (retain 0)) = NoFuel). apply IH.
Qed.

(** [Validate]'s refusal of empty operations is what makes [Follow] terminate:
    with an empty retain, or an empty insertion, in its input the loop runs for
    ever (no number of iterations is enough). *)
Theorem Follow_empty_op_loops fuel result :
  follow_loop fuel (start [retain 0]) (start [retain 0]) result = NoFuel /\
  follow_loop fuel (start [insert_op []]) (start []) result = NoFuel /\
  Validate (mkChangeset 0 0 [retain 0]) = Err (ErrRetainLen 0) /\
  Validate (mkChangeset 0 0 [insert_op []]) = Err ErrInsertEmpty.
Proof. split_and!; [apply follow_loop_empty|apply follow_loop_empty_insert|done..]. Qed.
