(* ===== verification/Utf8.v ===== *)
(** Go's conversions between strings and runes, which [diff.go] uses: [[]rune(s)]
    decodes UTF-8, each invalid byte giving U+FFFD, and [string(r)] encodes one
    rune. A rune is a [Z]. *)
From S2P Require Import Prelude.

Abbreviation rune := Z.
Definition rune_error : rune := 0xFFFD.

(** [string(r)]. *)
Definition encode_rune (r : rune) : text :=
  if (r <? 0) || (0x10FFFF <? r) || ((0xD800 <=? r) && (r <=? 0xDFFF))
  then map byte_of_Z [0xEF; 0xBF; 0xBD]
  else if r <? 0x80 then [byte_of_Z r]
  else if r <? 0x800 then map byte_of_Z [0xC0 + r / 64; 0x80 + r mod 64]
  else if r <? 0x10000 then
    map byte_of_Z [0xE0 + r / 4096; 0x80 + r / 64 mod 64; 0x80 + r mod 64]
  else
    map byte_of_Z [0xF0 + r / 262144; 0x80 + r / 4096 mod 64; 0x80 + r / 64 mod 64;
                   0x80 + r mod 64].

(** A continuation byte in the range [lo..hi]. *)
Definition cont (lo hi : Z) (b : byte) : bool := (lo <=? byte_val b) && (byte_val b <=? hi).

(** The range of the second byte, by the first: it excludes overlong forms,
    surrogates and values past U+10FFFF. *)
Definition second_lo (b0 : Z) : Z :=
  if b0 =? 0xE0 then 0xA0 else if b0 =? 0xF0 then 0x90 else 0x80.
Definition second_hi (b0 : Z) : Z :=
  if b0 =? 0xED then 0x9F else if b0 =? 0xF4 then 0x8F else 0xBF.

(** The first rune of a non-empty string and the number of bytes it takes. *)
Definition decode_rune (s : text) : rune * nat :=
  match s with
  | [] => (rune_error, 0%nat)
  | b0 :: s1 =>
      let v0 := byte_val b0 in
      if v0 <? 0x80 then (v0, 1%nat)
      else if (v0 <? 0xC2) || (0xF4 <? v0) then (rune_error, 1%nat)
      else match s1 with
      | [] => (rune_error, 1%nat)
      | b1 :: s2 =>
          if negb (cont (second_lo v0) (second_hi v0) b1) then (rune_error, 1%nat)
          else
            let v1 := byte_val b1 - 0x80 in
            if v0 <? 0xE0 then ((v0 - 0xC0) * 64 + v1, 2%nat)
            else match s2 with
            | [] => (rune_error, 1%nat)
            | b2 :: s3 =>
                if negb (cont 0x80 0xBF b2) then (rune_error, 1%nat)
                else
                  let v2 := byte_val b2 - 0x80 in
                  if v0 <? 0xF0 then ((v0 - 0xE0) * 4096 + v1 * 64 + v2, 3%nat)
                  else match s3 with
                  | [] => (rune_error, 1%nat)
                  | b3 :: _ =>
                      if negb (cont 0x80 0xBF b3) then (rune_error, 1%nat)
                      else
                        let v3 := byte_val b3 - 0x80 in
                        ((v0 - 0xF0) * 262144 + v1 * 4096 + v2 * 64 + v3, 4%nat)
                  end
            end
      end
  end.

(** [[]rune(s)]; every rune takes at least one byte, so [length s] steps are
    enough. *)
Fixpoint runes_loop (fuel : nat) (s : text) : list rune :=
  match fuel, s with
  | _, [] => []
  | O, _ => []
  | S fuel', _ =>
      let '(r, w) := decode_rune s in r :: runes_loop fuel' (drop w s)
  end.
Definition runes (s : text) : list rune := runes_loop (length s) s.

Definition encode_runes (rs : list rune) : text := concat (map encode_rune rs).

(** [utf8.ValidString]: the string survives the round trip. *)
Definition valid_utf8 (s : text) : Prop := encode_runes (runes s) = s.

#[export] Instance valid_utf8_dec s : Decision (valid_utf8 s).
Proof. unfold valid_utf8. apply _. Defined.

Lemma encode_rune_pos r : 0 < zlen (encode_rune r).
Proof. unfold encode_rune. repeat case_match; simpl; zl. Qed.

Lemma encode_runes_cons r rs : encode_runes (r :: rs) = encode_rune r ++ encode_runes rs.
Proof. done. Qed.

Lemma encode_runes_app rs qs : encode_runes (rs ++ qs) = encode_runes rs ++ encode_runes qs.
Proof. unfold encode_runes. by rewrite map_app, concat_app. Qed.

(** ** Decoding an encoded rune *)

(** The runes a valid string can hold. *)
Definition scalar (r : rune) : Prop :=
  0 <= r <= 0x10FFFF /\ ~ (0xD800 <= r <= 0xDFFF).

Lemma cont_of_Z lo hi z : 0 <= z < 256 -> lo <= z <= hi -> cont lo hi (byte_of_Z z) = true.
Proof.
  intros Hz Hr. unfold cont. rewrite byte_val_of_Z by done.
  by rewrite (proj2 (Z.leb_le lo z)), (proj2 (Z.leb_le z hi)) by lia.
Qed.

Ltac zb :=
  repeat match goal with
  | |- context [?a <? ?b] =>
      first [ rewrite (proj2 (Z.ltb_lt a b)) by (Z.div_mod_to_equations; lia)
            | rewrite (proj2 (Z.ltb_ge a b)) by (Z.div_mod_to_equations; lia) ]
  end.

Lemma decode_encode r rest :
  scalar r -> decode_rune (encode_rune r ++ rest) = (r, length (encode_rune r)).
Proof.
  intros [Hr Hs]. unfold encode_rune.
  destruct (Z.ltb_spec r 0); [lia|]. destruct (Z.ltb_spec 0x10FFFF r); [lia|].
  destruct (Z.leb_spec 0xD800 r), (Z.leb_spec r 0xDFFF); try lia; cbn [andb orb].
  all: destruct (Z.ltb_spec r 0x80); [|destruct (Z.ltb_spec r 0x800);
    [|destruct (Z.ltb_spec r 0x10000)]]; try lia; unfold decode_rune;
    cbn [app map length];
    rewrite !byte_val_of_Z by (Z.div_mod_to_equations; lia); zb; cbn [orb];
    repeat first
      [ progress cbn [negb]
      | rewrite cont_of_Z by (unfold second_lo, second_hi; try (bool_cases);
                              Z.div_mod_to_equations; lia)
      | progress zb ];
    f_equal; Z.div_mod_to_equations; lia.
Qed.

Lemma runes_loop_encode fuel rs :
  Forall scalar rs -> (length (encode_runes rs) <= fuel)%nat ->
  runes_loop fuel (encode_runes rs) = rs.
Proof.
  intros H. revert fuel. induction H as [|r rs Hr Hrs IH]; intros fuel Hf; [by destruct fuel|].
  rewrite encode_runes_cons, length_app in Hf. pose proof (encode_rune_pos r) as Hp.
  unfold zlen in Hp. rewrite encode_runes_cons.
  destruct fuel as [|fuel]; [lia|]. simpl. rewrite decode_encode by done.
  rewrite drop_app_length, IH by lia.
  destruct (encode_rune r ++ encode_runes rs) eqn:E; [|done].
  apply (f_equal length) in E. rewrite length_app in E. simpl in E. lia.
Qed.

(** Decoding recovers any sequence of scalar values, so its encoding is valid. *)
Lemma runes_encode rs : Forall scalar rs -> runes (encode_runes rs) = rs.
Proof. intros H. by apply runes_loop_encode. Qed.

Lemma encode_valid_utf8 rs : Forall scalar rs -> valid_utf8 (encode_runes rs).
Proof. intros H. unfold valid_utf8. by rewrite runes_encode. Qed.
