(* ===== verification/Diff.v ===== *)
(** [DiffToChangeset] ([internal/ot/diff.go]): the table of longest common
    subsequences, the backtracking, and the merging of segments into operations;
    the theorems that the changeset turns the old text into the new one when both
    are valid UTF-8, and that it keeps a longest common subsequence. *)
From S2P Require Import Prelude Changeset Apply Cursor Utf8.

(** * The code *)

(** [dp[i][j]] and [dp[i][j] = v] on the table, a slice of rows. *)
Definition get2 (dp : list (list Z)) (i j : nat) : Z := (dp !!! i) !!! j.
Definition set2 (dp : list (list Z)) (i j : nat) (v : Z) : list (list Z) :=
  alter (<[j := v]>) i dp.

(** The body of the double loop. *)
Definition lcs_cell (old nw : list rune) (i : nat) (dp : list (list Z)) (j : nat)
  : list (list Z) :=
  if old !!! (i - 1)%nat =? nw !!! (j - 1)%nat
  then set2 dp i j (get2 dp (i - 1) (j - 1) +ᵢ 1)%go
  else if get2 dp i (j - 1) <? get2 dp (i - 1) j
  then set2 dp i j (get2 dp (i - 1) j)
  else set2 dp i j (get2 dp i (j - 1)).

Definition lcs_row (old nw : list rune) (dp : list (list Z)) (i : nat) : list (list Z) :=
  foldl (lcs_cell old nw i) dp (seq 1 (length nw)).

Definition lcs_table (old nw : list rune) : list (list Z) :=
  foldl (lcs_row old nw)
    (replicate (S (length old)) (replicate (S (length nw)) 0)) (seq 1 (length old)).

(** A segment: a kept, inserted or deleted rune (['='], ['+'], ['-']). *)
Inductive seg_kind : Type := Keep | Ins | Del.
Record seg : Type := mkSeg { kind : seg_kind; r : rune }.

Fixpoint backtrack (fuel : nat) (old nw : list rune) (dp : list (list Z)) (i j : nat)
    (segs : list seg) : list seg :=
  match fuel with
  | O => segs
  | S fuel' =>
      if negb ((0 <? i)%nat || (0 <? j)%nat) then segs
      else if (0 <? i)%nat && (0 <? j)%nat && (old !!! (i - 1)%nat =? nw !!! (j - 1)%nat)
      then backtrack fuel' old nw dp (i - 1) (j - 1) (segs ++ [mkSeg Keep (old !!! (i - 1)%nat)])
      else if (0 <? j)%nat && ((i =? 0)%nat || (get2 dp (i - 1) j <=? get2 dp i (j - 1)))
      then backtrack fuel' old nw dp i (j - 1) (segs ++ [mkSeg Ins (nw !!! (j - 1)%nat)])
      else backtrack fuel' old nw dp (i - 1) j (segs ++ [mkSeg Del (old !!! (i - 1)%nat)])
  end.

Definition seg_op (s : seg) : Op :=
  match kind s with
  | Keep => retain (zlen (encode_rune (r s)))
  | Ins => insert_op (encode_rune (r s))
  | Del => delete_op (zlen (encode_rune (r s)))
  end.

(** The segments in document order; every backtracking step shortens a prefix. *)
Definition diff_segs (old nw : list rune) : list seg :=
  reverse (backtrack (length old + length nw) old nw (lcs_table old nw)
    (length old) (length nw) []).

Definition DiffToChangeset (oldText newText : text) : Changeset :=
  mkChangeset (zlen oldText) (zlen newText)
    (foldl (fun ops s => addOp ops (seg_op s)) [] (diff_segs (runes oldText) (runes newText))).


(** * The table holds the lengths of longest common subsequences *)

(** The recurrence, as a function of the two prefix lengths. *)
Fixpoint lcs (old nw : list rune) (i : nat) : nat -> Z :=
  match i with
  | O => fun _ => 0
  | S i' =>
      fix row (j : nat) : Z :=
        match j with
        | O => 0
        | S j' =>
            if old !!! i' =? nw !!! j' then lcs old nw i' j' + 1
            else Z.max (lcs old nw i' (S j')) (row j')
        end
  end.

Lemma lcs_S old nw i j :
  lcs old nw (S i) (S j)
  = if old !!! i =? nw !!! j then lcs old nw i j + 1
    else Z.max (lcs old nw i (S j)) (lcs old nw (S i) j).
Proof. done. Qed.

Lemma lcs_0_r old nw i : lcs old nw i 0 = 0.
Proof. by destruct i. Qed.

Lemma lcs_range old nw i j : 0 <= lcs old nw i j <= Z.of_nat i.
Proof.
  revert j. induction i as [|i IHi]; intros j; [simpl; lia|].
  induction j as [|j IHj]; [simpl; lia|].
  rewrite lcs_S. pose proof (IHi j). pose proof (IHi (S j)). case_match; lia.
Qed.

Section table.
  Context (old nw : list rune).
  Hypothesis Hfit : zlen old <= max_int.

(** The table with the cells before [(i, j)] (row by row) filled, the rest zero. *)
Definition filled (dp : list (list Z)) (i j : nat) : Prop :=
  length dp = S (length old) /\
  (forall k row, dp !! k = Some row -> length row = S (length nw)) /\
  (forall i' j', (i' <= length old)%nat -> (j' <= length nw)%nat ->
     get2 dp i' j' = if decide ((i' < i)%nat \/ (i' = i /\ (j' < j)%nat))
                     then lcs old nw i' j' else 0).

Lemma get2_set2 dp i j v i' j' :
  (i < length dp)%nat -> (forall k row, dp !! k = Some row -> (j < length row)%nat) ->
  get2 (set2 dp i j v) i' j' = if decide (i' = i /\ j' = j) then v else get2 dp i' j'.
Proof.
  intros Hi Hj. unfold get2, set2.
  destruct (lookup_lt_is_Some_2 dp i Hi) as [row Hrow].
  rewrite (list_lookup_total_alt (alter _ _ _)).
  destruct (decide (i' = i)) as [->|Hne].
  - rewrite list_lookup_alter_eq, Hrow. simpl.
    rewrite (list_lookup_total_alt dp), Hrow. simpl.
    destruct (decide (j' = j)) as [->|Hnej].
    + rewrite decide_True by done. apply list_lookup_total_insert_eq. eauto.
    + rewrite decide_False by tauto. by apply list_lookup_total_insert_ne.
  - rewrite list_lookup_alter_ne, decide_False by intuition congruence.
    by rewrite (list_lookup_total_alt dp).
Qed.

Lemma filled_step dp i j :
  filled dp (S i) (S j) -> (i < length old)%nat -> (j < length nw)%nat ->
  filled (lcs_cell old nw (S i) dp (S j)) (S i) (S (S j)).
Proof.
  intros (Hl&Hr&Hg) Hi Hj.
  assert (Hset : filled (set2 dp (S i) (S j) (lcs old nw (S i) (S j))) (S i) (S (S j))).
  { split_and!.
    - unfold set2. by rewrite length_alter.
    - intros k row. unfold set2. destruct (decide (k = S i)) as [->|].
      + rewrite list_lookup_alter_eq. destruct (dp !! S i) eqn:E; simpl; [|done].
        intros [= <-]. rewrite length_insert. eauto.
      + rewrite list_lookup_alter_ne by done. eauto.
    - intros i' j' Hi' Hj'. rewrite get2_set2; [|lia|].
      2: { intros k row Hk. apply Hr in Hk. lia. }
      rewrite Hg by done. repeat case_decide; try lia; try done.
      by destruct_and!; subst. }
  unfold lcs_cell. replace (S i - 1)%nat with i by lia. replace (S j - 1)%nat with j by lia.
  rewrite lcs_S in Hset. pose proof (lcs_range old nw i j) as Hrange.
  rewrite !Hg, !decide_True by lia.
  destruct (old !!! i =? nw !!! j).
  - rewrite wrap64_small by (unfold zlen, max_int in *; lia). done.
  - destruct (Z.ltb_spec (lcs old nw (S i) j) (lcs old nw i (S j))).
    + by rewrite Z.max_l in Hset by lia.
    + by rewrite Z.max_r in Hset by lia.
Qed.

Lemma filled_row dp i :
  filled dp (S i) 1 -> (i < length old)%nat -> filled (lcs_row old nw dp (S i)) (S (S i)) 1.
Proof.
  intros Hf Hi. unfold lcs_row.
  assert (H : forall m j dp, (j + m <= length nw)%nat -> filled dp (S i) (S j) ->
    filled (foldl (lcs_cell old nw (S i)) dp (seq (S j) m)) (S i) (S (j + m))).
  { induction m as [|m IH]; intros j dp' Hj Hd; simpl; [by rewrite Nat.add_0_r|].
    replace (S (j + S m)) with (S (S j + m)) by lia. apply IH; [lia|].
    apply filled_step; [done..|lia]. }
  specialize (H (length nw) 0%nat dp ltac:(lia) Hf). simpl in H.
  destruct H as (Hl&Hr&Hg). split_and!; [done..|].
  intros i' j' Hi' Hj'. rewrite Hg by done.
  repeat case_decide; try done; try lia.
  assert (j' = 0)%nat as -> by lia. by rewrite lcs_0_r.
Qed.

Lemma lcs_table_spec i j :
  (i <= length old)%nat -> (j <= length nw)%nat ->
  get2 (lcs_table old nw) i j = lcs old nw i j.
Proof.
  intros Hi Hj.
  assert (H : forall n k dp, (k + n <= length old)%nat -> filled dp (S k) 1 ->
    filled (foldl (lcs_row old nw) dp (seq (S k) n)) (S (k + n)) 1).
  { induction n as [|n IH]; intros k dp Hk Hd; simpl; [by rewrite Nat.add_0_r|].
    replace (S (k + S n)) with (S (S k + n)) by lia. apply IH; [lia|].
    apply filled_row; [done|lia]. }
  destruct (H (length old) 0%nat
    (replicate (S (length old)) (replicate (S (length nw)) 0)) ltac:(lia)) as (_&_&Hg).
  - split_and!; [by rewrite length_replicate| |].
    + intros k row. rewrite lookup_replicate. intros [-> _]. by rewrite length_replicate.
    + intros i' j' Hi' Hj'. unfold get2. rewrite !lookup_total_replicate_2 by lia.
      case_decide as Hd; [|done]. destruct Hd as [?|[-> ?]].
      * by assert (i' = 0)%nat as -> by lia.
      * assert (j' = 0)%nat as -> by lia. by rewrite lcs_0_r.
  - unfold lcs_table. simpl in Hg. rewrite Hg by done. rewrite decide_True by lia. done.
Qed.
End table.

(** * The segments spell both texts *)

Definition old_of (s : seg) : list rune := match kind s with Ins => [] | _ => [r s] end.
Definition new_of (s : seg) : list rune := match kind s with Del => [] | _ => [r s] end.
Definition kept_of (s : seg) : list rune := match kind s with Keep => [r s] | _ => [] end.
Definition spell (f : seg -> list rune) (l : list seg) : list rune := concat (map f l).

Lemma spell_app f l k : spell f (l ++ k) = spell f l ++ spell f k.
Proof. unfold spell. by rewrite map_app, concat_app. Qed.

Lemma spell_snoc f l s : spell f (l ++ [s]) = spell f l ++ f s.
Proof. rewrite spell_app. unfold spell. simpl. by rewrite app_nil_r. Qed.

Lemma take_pred_snoc (l : list rune) i :
  (0 < i <= length l)%nat -> take i l = take (i - 1) l ++ [l !!! (i - 1)%nat].
Proof.
  intros Hi. replace i with (S (i - 1)) at 1 by lia. apply take_S_r.
  apply list_lookup_lookup_total_lt. lia.
Qed.

(** One run of the backtracking from [(i, j)] adds the segments of the two
    prefixes, in reverse, and keeps as many runes as the table says. *)
Lemma backtrack_spec old nw dp fuel i j segs :
  (forall i' j', (i' <= length old)%nat -> (j' <= length nw)%nat ->
     get2 dp i' j' = lcs old nw i' j') ->
  (i <= length old)%nat -> (j <= length nw)%nat -> (i + j <= fuel)%nat ->
  exists l, backtrack fuel old nw dp i j segs = segs ++ l /\
    spell old_of (reverse l) = take i old /\ spell new_of (reverse l) = take j nw /\
    zlen (spell kept_of (reverse l)) = lcs old nw i j.
Proof.
  intros Hdp. revert i j segs. induction fuel as [|fuel IH]; intros i j segs Hi Hj Hf.
  { exists []. assert (i = 0)%nat as -> by lia. assert (j = 0)%nat as -> by lia.
    by rewrite app_nil_r. }
  assert (Hadd : forall i' j' s,
    (i' <= length old)%nat -> (j' <= length nw)%nat -> (i' + j' <= fuel)%nat ->
    take i old = take i' old ++ old_of s -> take j nw = take j' nw ++ new_of s ->
    lcs old nw i j = lcs old nw i' j' + zlen (kept_of s) ->
    exists l, backtrack fuel old nw dp i' j' (segs ++ [s]) = segs ++ l /\
      spell old_of (reverse l) = take i old /\ spell new_of (reverse l) = take j nw /\
      zlen (spell kept_of (reverse l)) = lcs old nw i j).
  { intros i' j' s Hi' Hj' Hf' Ho Hn Hk.
    destruct (IH i' j' (segs ++ [s])) as (l&->&L1&L2&L3); [done..|].
    exists (s :: l). rewrite <-app_assoc, reverse_cons, !spell_snoc, L1, L2, zlen_app, L3.
    by rewrite Ho, Hn, Hk. }
  cbn [backtrack].
  destruct (Nat.ltb_spec 0 i) as [Pi|Pi], (Nat.ltb_spec 0 j) as [Pj|Pj]; cbn [andb orb negb].
  - pose proof (take_pred_snoc old i ltac:(lia)) as Ti.
    pose proof (take_pred_snoc nw j ltac:(lia)) as Tj.
    assert (Hl : lcs old nw i j = if old !!! (i - 1)%nat =? nw !!! (j - 1)%nat
      then lcs old nw (i - 1) (j - 1) + 1
      else Z.max (lcs old nw (i - 1) j) (lcs old nw i (j - 1))).
    { destruct i as [|i]; [lia|]. destruct j as [|j]; [lia|].
      by rewrite lcs_S, !Nat.sub_succ, !Nat.sub_0_r. }
    destruct (Z.eqb_spec (old !!! (i - 1)%nat) (nw !!! (j - 1)%nat)) as [E|E].
    + apply Hadd; try lia; unfold old_of, new_of; simpl; try done.
      by rewrite E.
    + rewrite !Hdp by lia. destruct (Nat.eqb_spec i 0); [lia|]. cbn [orb].
      destruct (Z.leb_spec (lcs old nw (i - 1) j) (lcs old nw i (j - 1))).
      * apply Hadd; try lia; unfold old_of, new_of; simpl; rewrite ?app_nil_r; done || zl.
      * apply Hadd; try lia; unfold old_of, new_of; simpl; rewrite ?app_nil_r; done || zl.
  - assert (j = 0)%nat as -> by lia. pose proof (take_pred_snoc old i ltac:(lia)) as Ti.
    apply Hadd; try lia; unfold old_of, new_of; simpl; try done. by rewrite !lcs_0_r.
  - assert (i = 0)%nat as -> by lia. pose proof (take_pred_snoc nw j ltac:(lia)) as Tj.
    apply Hadd; try lia; unfold old_of, new_of; simpl; done.
  - exists []. assert (i = 0)%nat as -> by lia. assert (j = 0)%nat as -> by lia.
    by rewrite app_nil_r.
Qed.

Lemma diff_segs_spec old nw :
  zlen old <= max_int ->
  spell old_of (diff_segs old nw) = old /\ spell new_of (diff_segs old nw) = nw /\
  zlen (spell kept_of (diff_segs old nw)) = lcs old nw (length old) (length nw).
Proof.
  intros Hfit. unfold diff_segs.
  destruct (backtrack_spec old nw (lcs_table old nw) (length old + length nw)
    (length old) (length nw) []) as (l&->&L1&L2&L3); try done.
  { intros. by apply lcs_table_spec. }
  simpl. by rewrite L1, L2, L3, !firstn_all.
Qed.

(** * From segments to operations *)

Lemma seg_op_valid s : valid_op (seg_op s).
Proof.
  unfold seg_op. pose proof (encode_rune_pos (r s)) as Hp.
  destruct (kind s); autorewrite with ops; try done.
  intros E. by rewrite E in Hp.
Qed.

Lemma seg_op_src s : op_src (seg_op s) = zlen (encode_runes (old_of s)).
Proof.
  unfold seg_op, old_of, encode_runes. destruct (kind s); autorewrite with ops; simpl; try done;
    by rewrite app_nil_r.
Qed.

Lemma seg_op_dst s : op_dst (seg_op s) = zlen (encode_runes (new_of s)).
Proof.
  unfold seg_op, new_of, encode_runes. destruct (kind s); autorewrite with ops; simpl; try done;
    by rewrite app_nil_r.
Qed.

Lemma seg_op_exec s rest :
  exec [seg_op s] (encode_runes (old_of s) ++ rest) = encode_runes (new_of s).
Proof.
  unfold seg_op, old_of, new_of, encode_runes. destruct (kind s); simpl;
    by rewrite ?app_nil_r, ?zlen_to_nat, ?take_app_length.
Qed.

Lemma spell_cons f s l : spell f (s :: l) = f s ++ spell f l.
Proof. done. Qed.

Lemma fold_addOp_spec l res :
  valid_ops res -> src_len res + zlen (encode_runes (spell old_of l)) <= max_int ->
  let ops' := foldl (fun ops s => addOp ops (seg_op s)) res l in
  valid_ops ops' /\
  src_len ops' = src_len res + zlen (encode_runes (spell old_of l)) /\
  dst_len ops' = dst_len res + zlen (encode_runes (spell new_of l)) /\
  (canonical res -> canonical ops') /\
  (forall src, drop (Z.to_nat (src_len res)) src = encode_runes (spell old_of l) ->
     exec ops' src = exec res src ++ encode_runes (spell new_of l)).
Proof.
  revert res. induction l as [|s l IH]; intros res Hr Hm; simpl.
  { split_and!; try done; [symmetry; apply Z.add_0_r..|]. intros. by rewrite app_nil_r. }
  rewrite !spell_cons, !encode_runes_app, !zlen_app in *.
  pose proof (seg_op_valid s) as Hv. pose proof (seg_op_src s) as Hs.
  pose proof (valid_ops_src _ Hr). zlen_facts.
  destruct (addOp_spec res (seg_op s)) as (Av&As&Ad&Ax&Ac); [done..|lia|].
  destruct (IH (addOp res (seg_op s))) as (IV&IS&ID&IC&IX); [done|lia|].
  rewrite seg_op_dst in Ad. split_and!; try done; try lia; [tauto|].
  intros src Hsrc. rewrite IX.
  - by rewrite Ax, exec_app, Hsrc, seg_op_exec, app_assoc by done.
  - rewrite As, Hs, Z2Nat.inj_add, <-drop_drop, Hsrc by lia.
    by rewrite zlen_to_nat, drop_app_length.
Qed.

Lemma DiffToChangeset_ok oldText newText :
  valid_utf8 oldText -> valid_utf8 newText ->
  zlen oldText <= max_int -> zlen newText <= max_int -> zlen (runes oldText) <= max_int ->
  let c := DiffToChangeset oldText newText in
  wf c /\ canonical (Ops c) /\ OldLen c = zlen oldText /\ NewLen c = zlen newText /\
  exec (Ops c) oldText = newText.
Proof.
  intros Vo Vn Ho Hn Hr c.
  destruct (diff_segs_spec (runes oldText) (runes newText) Hr) as (So&Sn&_).
  destruct (fold_addOp_spec (diff_segs (runes oldText) (runes newText)) [])
    as (Fv&Fs&Fd&Fc&Fx); [constructor|rewrite So, Vo; simpl; lia|].
  rewrite So, Vo in Fs. rewrite Sn, Vn in Fd. rewrite So, Sn, Vn in Fx. rewrite Vo in Fx.
  split_and!; try done.
  - by apply Fc.
  - apply Fx. by rewrite drop_0.
Qed.

(** * The kept runes are a longest common subsequence *)

Lemma sublist_snoc_inv (s l : list rune) z x :
  s ++ [z] `sublist_of` l ++ [x] -> s `sublist_of` l /\ (z <> x -> s ++ [z] `sublist_of` l).
Proof.
  intros (l1&l2&E&H1&H2)%sublist_app_r.
  assert (H2' : l2 = [] \/ l2 = [x]).
  { apply sublist_cons_r in H2 as [H2|(k&->&H2)]; apply sublist_nil_r in H2; subst; auto. }
  destruct H2' as [->| ->].
  - rewrite app_nil_r in E. subst l1. split; [|done].
    transitivity (s ++ [z]); [by apply sublist_inserts_r|done].
  - apply app_inj_tail in E as [-> ->]. by split.
Qed.

Lemma lcs_max old nw i j s :
  (i <= length old)%nat -> (j <= length nw)%nat ->
  s `sublist_of` take i old -> s `sublist_of` take j nw -> zlen s <= lcs old nw i j.
Proof.
  revert j s. induction i as [|i IHi]; intros j s Hi Hj H1 H2.
  { rewrite take_0 in H1. apply sublist_nil_r in H1 as ->. done. }
  revert s H1 H2. induction j as [|j IHj]; intros s H1 H2.
  { rewrite take_0 in H2. by apply sublist_nil_r in H2 as ->. }
  destruct s as [|z s _] using rev_ind.
  { apply lcs_range. }
  pose proof (take_pred_snoc old (S i) ltac:(lia)) as Ti.
  pose proof (take_pred_snoc nw (S j) ltac:(lia)) as Tj.
  rewrite Nat.sub_succ, Nat.sub_0_r in Ti, Tj.
  pose proof H1 as H1'. pose proof H2 as H2'. rewrite Ti in H1'. rewrite Tj in H2'.
  apply sublist_snoc_inv in H1' as [A1 A2]. apply sublist_snoc_inv in H2' as [B1 B2].
  rewrite lcs_S. destruct (Z.eqb_spec (old !!! i) (nw !!! j)) as [E|E].
  - specialize (IHi j s ltac:(lia) ltac:(lia) A1 B1). rewrite zlen_app, zlen_cons, zlen_nil. lia.
  - destruct (Z.eq_dec z (old !!! i)) as [->|Hz].
    + specialize (IHj ltac:(lia) _ H1 (B2 E)). lia.
    + specialize (IHi (S j) _ ltac:(lia) Hj (A2 Hz) H2). lia.
Qed.

Lemma kept_sublist l :
  spell kept_of l `sublist_of` spell old_of l /\ spell kept_of l `sublist_of` spell new_of l.
Proof.
  induction l as [|s l [IH1 IH2]]; [by split|]. rewrite !spell_cons.
  unfold kept_of, old_of, new_of. destruct (kind s); simpl; split; try done;
    by constructor.
Qed.

(** * Properties *)

(** C27: for valid UTF-8 texts the changeset of [DiffToChangeset] is well formed and
    canonical, and applied to the old text it gives the new one. *)
Theorem DiffToChangeset_correct oldText newText :
  valid_utf8 oldText -> valid_utf8 newText ->
  zlen oldText <= max_int -> zlen newText <= max_int -> zlen (runes oldText) <= max_int ->
  let c := DiffToChangeset oldText newText in
  Validate c = Ret tt /\ canonical (Ops c) /\ ApplyChangeset oldText c = Ret newText.
Proof.
  intros Vo Vn Ho Hn Hr c.
  destruct (DiffToChangeset_ok oldText newText) as (W&C&O&N&X); [done..|].
  split_and!; [by apply Validate_wf|done|]. exact (eq_trans (ApplyChangeset_exec _ _ W O) (f_equal Ret X)).
Qed.

Lemma DiffToChangeset_correct_witness :
  let c := DiffToChangeset (bytes_of "the cat sat") (bytes_of "the dog sat") in
  Validate c = Ret tt /\ canonical (Ops c) /\
  ApplyChangeset (bytes_of "the cat sat") c = Ret (bytes_of "the dog sat").
Proof.
  exact (DiffToChangeset_correct (bytes_of "the cat sat") (bytes_of "the dog sat")
    ltac:(by_compute) ltac:(by_compute) ltac:(by_compute) ltac:(by_compute) ltac:(by_compute)).
Defined.

(** The diff is minimal: the runes it keeps are a common subsequence of the two
    texts, and no common subsequence is longer. *)
Theorem DiffToChangeset_minimal old nw :
  zlen old <= max_int ->
  let kept := spell kept_of (diff_segs old nw) in
  kept `sublist_of` old /\ kept `sublist_of` nw /\
  forall s, s `sublist_of` old -> s `sublist_of` nw -> zlen s <= zlen kept.
Proof.
  intros Hfit kept. destruct (diff_segs_spec old nw Hfit) as (So&Sn&Sk).
  destruct (kept_sublist (diff_segs old nw)) as [K1 K2]. rewrite So in K1. rewrite Sn in K2.
  split_and!; try done. intros s H1 H2. unfold kept. rewrite Sk.
  apply lcs_max; rewrite ?firstn_all; done.
Qed.

Lemma DiffToChangeset_minimal_witness :
  let kept := spell kept_of (diff_segs [1; 2; 3; 4] [2; 4; 5]) in
  kept `sublist_of` [1; 2; 3; 4] /\ kept `sublist_of` [2; 4; 5] /\
  forall s, s `sublist_of` [1; 2; 3; 4] -> s `sublist_of` [2; 4; 5] -> zlen s <= 2.
Proof.
  exact (DiffToChangeset_minimal [1; 2; 3; 4] [2; 4; 5] ltac:(by_compute)).
Defined.

(** Validity of the texts is needed. On a string that is not valid UTF-8, which
    a Go string may be, the lengths of the operations count the three bytes of
    U+FFFD for each invalid byte, and the changeset does not validate. *)
Theorem DiffToChangeset_invalid_utf8 :
  exists oldText newText, Validate (DiffToChangeset oldText newText) = Err (ErrConsumed 3 1) /\
    exists e, ApplyChangeset oldText (DiffToChangeset oldText newText) = Err e.
Proof.
  exists [Byte.xff], [Byte.xff]. split; [by vm_compute|]. eexists. by vm_compute.
Qed.
