(* ===== verification/Fsm.v ===== *)
(** The replicated state machine ([internal/fsm/types.go], [internal/fsm/fsm.go]):
    the log entries, the revision log, [Apply] with its deduplication guard and its
    rebase loop, and the accessors. The theorems relate the cached text to a replay
    of the revision log, and show that validated submissions never crash a
    replica, are committed once, and are kept in order. *)
From stdpp Require Import sorting.
From S2P Require Import Prelude Changeset Apply Cursor Compose Follow.

(** * Data *)

(** [ClientID] is a JSON string (UTF-8 bytes), [SubmissionID] an [int64],
    [BaseRev] an [int]. *)
Record RaftLogEntry : Type := mkEntry {
  ClientID : text; SubmissionID : Z; BaseRev : Z; EChangeset : Changeset
}.

Record RevisionRecord : Type := mkRevision {
  RevNumber : Z; RChangeset : Changeset; Source : text
}.

Record ApplyResult : Type := mkResult {
  CPrime : Changeset; NewRev : Z; RClientID : text; IsDuplicate : bool
}.

#[export] Instance entry_eq_dec : EqDecision RaftLogEntry.
Proof. solve_decision. Defined.
#[export] Instance revision_eq_dec : EqDecision RevisionRecord.
Proof. solve_decision. Defined.
#[export] Instance result_eq_dec : EqDecision ApplyResult.
Proof. solve_decision. Defined.

(** The fields of the struct the operations use; [mu] makes each operation one
    step, [logger] only reports, and [onCommit] is represented by the list of
    callbacks an operation spawns. *)
Record DocumentStateMachine : Type := mkFSM {
  headText : text;
  headRev : Z;
  revisionLog : list RevisionRecord;
  clientLastSubmission : gmap text Z
}.

#[export] Instance fsm_eq_dec : EqDecision DocumentStateMachine.
Proof. solve_decision. Defined.

Definition NewDocumentStateMachine (initialText : text) : DocumentStateMachine :=
  mkFSM initialText 0 [] ∅.

(** The zero value of [ot.Changeset]. *)
Definition zeroChangeset : Changeset := mkChangeset 0 0 [].

(** * The operations *)

(** What a call of [Apply] does: the new state, its return value ([None] is [nil])
    and the results handed to goroutines that call [onCommit]. *)
Record applied : Type := mkApplied {
  machine : DocumentStateMachine;
  response : option ApplyResult;
  callbacks : list ApplyResult
}.

(** [for r := entry.BaseRev; r < fsm.headRev; r++]: every pass reads the next
    record of the log, so [S (length log)] passes are enough. *)
Fixpoint rebase_loop (fuel : nat) (log : list RevisionRecord) (r head : Z) (C : Changeset)
  : outcome ot_error Changeset :=
  match fuel with
  | O => NoFuel
  | S fuel' =>
      if r <? head then
        historical ← index log r;
        C' ← Follow (RChangeset historical) C;
        rebase_loop fuel' log (r +ᵢ 1)%go head C'
      else Ret C
  end.

(** The idempotency guard. *)
Definition is_seen (fsm : DocumentStateMachine) (entry : RaftLogEntry) : bool :=
  match clientLastSubmission fsm !! ClientID entry with
  | Some lastSub => SubmissionID entry <=? lastSub
  | None => false
  end.

(** The code after the guard and the transformation, on the new text. *)
Definition commit (fsm : DocumentStateMachine) (entry : RaftLogEntry) (C : Changeset)
  (newText : text) : applied :=
  let record := mkRevision (headRev fsm) C (ClientID entry) in
  let rev := (headRev fsm +ᵢ 1)%go in
  let result := mkResult C rev (ClientID entry) false in
  mkApplied
    (mkFSM newText rev (revisionLog fsm ++ [record])
      (<[ClientID entry := SubmissionID entry]> (clientLastSubmission fsm)))
    (Some result) [result].

(** An [error] is logged and [Apply] returns [nil]; a panic is not recovered. *)
Definition or_nil {A} (fsm : DocumentStateMachine) (m : outcome ot_error A)
  (k : A -> outcome Empty_set applied) : outcome Empty_set applied :=
  match m with
  | Ret a => k a
  | Err _ => Ret (mkApplied fsm None [])
  | Panic => Panic
  | NoFuel => NoFuel
  end.

Definition apply_entry (fsm : DocumentStateMachine) (entry : RaftLogEntry)
  : outcome Empty_set applied :=
  if is_seen fsm entry then
    let res := mkResult zeroChangeset (headRev fsm) (ClientID entry) true in
    Ret (mkApplied fsm (Some res) [res])
  else
    or_nil fsm
      (rebase_loop (S (length (revisionLog fsm))) (revisionLog fsm) (BaseRev entry)
         (headRev fsm) (EChangeset entry))
      (fun C =>
         or_nil fsm (ApplyChangeset (headText fsm) C) (fun newText =>
           Ret (commit fsm entry C newText))).

Definition HeadText (fsm : DocumentStateMachine) : text := headText fsm.
Definition HeadRev (fsm : DocumentStateMachine) : Z := headRev fsm.

(** [nil] and an empty slice are both [[]]. *)
Definition RevisionsSince (fsm : DocumentStateMachine) (fromRev : Z)
  : outcome Empty_set (list RevisionRecord) :=
  if zlen (revisionLog fsm) <=? fromRev then Ret []
  else slice (revisionLog fsm) fromRev (zlen (revisionLog fsm)).

(** ** The codec

    [MarshalEntry] and [UnmarshalEntry] of a node; [inl] is a JSON error. *)
Class EntryCodec := {
  MarshalEntry : RaftLogEntry -> option text;
  UnmarshalEntry : text -> string + RaftLogEntry
}.

Definition Apply `{EC : EntryCodec} (fsm : DocumentStateMachine) (data : text)
  : outcome Empty_set applied :=
  match UnmarshalEntry data with
  | inl _ => Ret (mkApplied fsm None [])
  | inr entry => apply_entry fsm entry
  end.

(** The calls Raft makes, in log order, on one replica: the final state and the
    return values. *)
Fixpoint run `{EC : EntryCodec} (fsm : DocumentStateMachine) (log : list text)
  : outcome Empty_set (DocumentStateMachine * list (option ApplyResult)) :=
  match log with
  | [] => Ret (fsm, [])
  | data :: log' =>
      a ← Apply fsm data;
      p ← run (machine a) log';
      Ret (fst p, response a :: snd p)
  end.

(** * Replaying the revision log *)

Fixpoint replay (t : text) (cs : list Changeset) : outcome ot_error text :=
  match cs with
  | [] => Ret t
  | c :: cs' => t' ← ApplyChangeset t c; replay t' cs'
  end.

Definition changesets (log : list RevisionRecord) : list Changeset := map RChangeset log.

Lemma replay_app t cs ds : replay t (cs ++ ds) = (t' ← replay t cs; replay t' ds).
Proof.
  revert t. induction cs as [|c cs IH]; intros t; simpl; [done|].
  destruct (ApplyChangeset t c); simpl; auto.
Qed.

Lemma replay_snoc t cs c : replay t (cs ++ [c]) = (t' ← replay t cs; ApplyChangeset t' c).
Proof.
  rewrite replay_app. destruct (replay t cs) as [u| | |]; simpl; try done.
  by destruct (ApplyChangeset u c).
Qed.

(** ** The three ends of [Apply] *)

Inductive apply_case (fsm : DocumentStateMachine) (e : RaftLogEntry) : applied -> Prop :=
| apply_rejected : apply_case fsm e (mkApplied fsm None [])
| apply_duplicate :
    is_seen fsm e = true ->
    let res := mkResult zeroChangeset (headRev fsm) (ClientID e) true in
    apply_case fsm e (mkApplied fsm (Some res) [res])
| apply_committed C t :
    is_seen fsm e = false ->
    rebase_loop (S (length (revisionLog fsm))) (revisionLog fsm) (BaseRev e) (headRev fsm)
      (EChangeset e) = Ret C ->
    ApplyChangeset (headText fsm) C = Ret t ->
    apply_case fsm e (commit fsm e C t).

Lemma apply_entry_case fsm e a : apply_entry fsm e = Ret a -> apply_case fsm e a.
Proof.
  unfold apply_entry. destruct (is_seen fsm e) eqn:Es.
  { intros [= <-]. by constructor. }
  unfold or_nil. destruct (rebase_loop _ _ _ _ _) as [C| | |] eqn:Er; intros [=].
  2: { subst. constructor. }
  destruct (ApplyChangeset (headText fsm) C) as [t| | |] eqn:Ea; simplify_eq/=.
  - by apply apply_committed.
  - constructor.
Qed.

(** ** The invariant of every replica *)

Record fsm_inv (init : text) (fsm : DocumentStateMachine) : Prop := mk_fsm_inv {
  inv_text : replay init (changesets (revisionLog fsm)) = Ret (headText fsm);
  inv_rev : headRev fsm = wrap64 (zlen (revisionLog fsm));
  inv_num : forall i rec, revisionLog fsm !! i = Some rec -> RevNumber rec = wrap64 (Z.of_nat i)
}.

Lemma fsm_inv_new init : fsm_inv init (NewDocumentStateMachine init).
Proof. by constructor. Qed.

Lemma wrap64_wrap64 z k : wrap64 (wrap64 z + k) = wrap64 (z + k).
Proof.
  unfold wrap64. replace ((z + 2 ^ 63) mod 2 ^ 64 - 2 ^ 63 + k + 2 ^ 63)
    with ((z + 2 ^ 63) mod 2 ^ 64 + k) by lia.
  rewrite Zplus_mod_idemp_l. f_equal. f_equal. lia.
Qed.

Lemma fsm_inv_entry init fsm e a :
  fsm_inv init fsm -> apply_entry fsm e = Ret a -> fsm_inv init (machine a).
Proof.
  intros [Ht Hr Hn] Ha. destruct (apply_entry_case _ _ _ Ha) as [|?|C t _ _ Et]; [done..|].
  constructor; simpl.
  - unfold changesets. rewrite map_app. cbn [map RChangeset]. rewrite replay_snoc. fold (changesets (revisionLog fsm)).
    by rewrite Ht.
  - rewrite Hr, wrap64_wrap64, zlen_app. done.
  - intros i rec [Hi|[Hi H]]%lookup_app_Some; [by eauto|].
    apply list_lookup_singleton_Some in H as [H0 <-]. simpl. rewrite Hr.
    f_equal. unfold zlen. lia.
Qed.

Section run.
  Context `{EC : EntryCodec}.

Lemma Apply_ret fsm data a :
  Apply fsm data = Ret a ->
  (exists err, UnmarshalEntry data = inl err /\ a = mkApplied fsm None []) \/
  (exists e, UnmarshalEntry data = inr e /\ apply_entry fsm e = Ret a).
Proof. unfold Apply. destruct (UnmarshalEntry data); [intros [= <-]|]; eauto. Qed.

Lemma fsm_inv_Apply init fsm data a :
  fsm_inv init fsm -> Apply fsm data = Ret a -> fsm_inv init (machine a).
Proof.
  intros Hi Ha. destruct (Apply_ret _ _ _ Ha) as [(?&_&->)|(e&_&He)]; [done|].
  by eapply fsm_inv_entry.
Qed.

Lemma run_cons fsm data log fsm' rs :
  run fsm (data :: log) = Ret (fsm', rs) ->
  exists a rs', Apply fsm data = Ret a /\ run (machine a) log = Ret (fsm', rs') /\
    rs = response a :: rs'.
Proof.
  simpl. intros (a&Ha&Hb)%bind_ret. apply bind_ret in Hb as ([f' rs']&Hr&[= <- <-]). eauto.
Qed.

Lemma run_app fsm l k :
  run fsm (l ++ k) = (p ← run fsm l; q ← run (fst p) k; Ret (fst q, snd p ++ snd q)).
Proof.
  revert fsm. induction l as [|d l IH]; intros fsm; simpl.
  { destruct (run fsm k) as [[]| | |]; done. }
  destruct (Apply fsm d) as [a| | |]; simpl; try done. rewrite IH.
  destruct (run (machine a) l) as [[f rs]| | |]; simpl; try done.
  by destruct (run f k) as [[f' rs']| | |].
Qed.

Lemma run_length log : forall fsm fsm' rs, run fsm log = Ret (fsm', rs) -> length rs = length log.
Proof.
  induction log as [|d log IH]; intros fsm fsm' rs Hr; [by injection Hr as _ <-|].
  destruct (run_cons _ _ _ _ _ Hr) as (a&rs'&_&Hr'&->). cbn. f_equal. by eapply IH.
Qed.

(** Rule induction over a run. *)
Lemma run_ind (P : DocumentStateMachine -> Prop) :
  (forall fsm data a, P fsm -> Apply fsm data = Ret a -> P (machine a)) ->
  forall log fsm fsm' rs, P fsm -> run fsm log = Ret (fsm', rs) -> P fsm'.
Proof.
  intros Hs log. induction log as [|d log IH]; intros fsm fsm' rs HP Hr.
  - simpl in Hr. by simplify_eq.
  - destruct (run_cons _ _ _ _ _ Hr) as (a&rs'&Ha&Hr'&_). eauto.
Qed.

Lemma fsm_inv_run init log fsm rs :
  run (NewDocumentStateMachine init) log = Ret (fsm, rs) -> fsm_inv init fsm.
Proof. apply run_ind; [apply fsm_inv_Apply|apply fsm_inv_new]. Qed.

End run.

(** * Validated submissions never crash a replica *)

(** What [handleSubmit] checks ([Validate]), and the base revision a client that
    follows the protocol sends. *)
Definition admitted (e : RaftLogEntry) : Prop := wf (EChangeset e) /\ 0 <= BaseRev e.

Definition inserted (e : RaftLogEntry) : Z := ins_len (Ops (EChangeset e)).

(** A replica whose log holds well-formed changesets and whose texts were never
    longer than [cap]. *)
Record machine_ok (init : text) (cap : Z) (fsm : DocumentStateMachine) : Prop := mk_ok {
  ok_inv : fsm_inv init fsm;
  ok_log : Forall (fun c => wf c /\ NewLen c <= cap) (changesets (revisionLog fsm));
  ok_init : zlen init <= cap;
  ok_text : zlen (headText fsm) <= cap;
  ok_rev : headRev fsm = zlen (revisionLog fsm)
}.

Lemma index_lt {E A} (l : list A) i :
  0 <= i < zlen l -> exists x, index (E := E) l i = Ret x /\ l !! Z.to_nat i = Some x.
Proof.
  intros [H0 H1]. unfold index. rewrite (proj2 (Z.leb_le 0 i)) by done.
  destruct (lookup_lt_is_Some_2 l (Z.to_nat i)) as [x E']; [unfold zlen in H1; lia|].
  exists x. by rewrite E'.
Qed.

(** The rebase loop ends, and what it gives is no larger than the documents and
    the insertions it was given. *)
Lemma rebase_loop_total fuel log r C cap :
  Forall (fun c => wf c /\ NewLen c <= cap) (changesets log) ->
  0 <= r -> zlen log <= max_int -> Z.max 0 (zlen log - r) < Z.of_nat fuel ->
  good_ops (Ops C) -> NewLen C = dst_len (Ops C) -> cap + ins_len (Ops C) <= max_int ->
  exists C', rebase_loop fuel log r (zlen log) C = Ret C' /\
    good_ops (Ops C') /\ NewLen C' = dst_len (Ops C') /\
    ins_len (Ops C') <= ins_len (Ops C) /\ (C' = C \/ src_len (Ops C') <= cap).
Proof.
  intros Hlog. revert r C. induction fuel as [|fuel IH]; intros r C Hr Hm Hf Hg Hn Hc.
  { lia. }
  cbn [rebase_loop]. destruct (Z.ltb_spec r (zlen log)) as [Hlt|Hge].
  2: { exists C. split_and!; try done; auto. }
  destruct (index_lt (E := ot_error) log r) as (h&->&Eh); [lia|].
  assert (Hh : wf (RChangeset h) /\ NewLen (RChangeset h) <= cap).
  { apply (proj1 (Forall_map _ _ _)) in Hlog. exact (proj1 (Forall_lookup _ _) Hlog _ _ Eh). }
  destruct Hh as [Wh Lh].
  destruct (Follow_total (RChangeset h) C) as (F&HF&_&Gf&_&Nf&Sf&Df&If); [done..|lia|].
  unfold mbind. simpl. rewrite HF. simpl. rewrite wrap64_small by lia.
  destruct (IH (r + 1) F) as (C'&->&G'&N'&I'&HC); try done; try lia.
  exists C'. split_and!; try done; [lia|]. right. destruct HC as [->|]; lia.
Qed.

(** A changeset that was built by the loop is applied or refused. *)
Lemma ApplyChangeset_rebased t C cap :
  good_ops (Ops C) -> NewLen C = dst_len (Ops C) -> zlen t <= cap ->
  2 * (cap + ins_len (Ops C)) <= max_int -> (wf C \/ src_len (Ops C) <= cap) ->
  (exists e, ApplyChangeset t C = Err e) \/
  (wf C /\ OldLen C = zlen t /\ ApplyChangeset t C = Ret (exec (Ops C) t)).
Proof.
  intros Hg Hn Ht Hm Hs. pose proof (good_valid _ Hg) as Hv.
  pose proof (valid_ops_dst _ Hv). pose proof (ins_len_nonneg (Ops C)).
  pose proof (dst_len_ins _ Hv).
  destruct (Z.eq_dec (OldLen C) (zlen t)) as [E|E].
  2: { left. unfold ApplyChangeset. destruct (Z.eqb_spec (OldLen C) (zlen t)); [done|]. by eexists. }
  assert (Hsrc : src_len (Ops C) <= cap) by (destruct Hs as [[]|]; lia).
  pose proof (ApplyChangeset_cases t C Hv ltac:(lia) ltac:(lia)) as Hd.
  destruct (decide _) as [[_ Es]|]; [|by left].
  right. split_and!; try done. constructor; [done|lia..].
Qed.

Lemma machine_ok_weaken init cap cap' fsm :
  cap <= cap' -> machine_ok init cap fsm -> machine_ok init cap' fsm.
Proof.
  intros Hc [? Hl ???]. constructor; try done; try lia.
  eapply Forall_impl; [exact Hl|]. simpl. intros c [? ?]. split; [done|lia].
Qed.

Lemma apply_entry_total init cap fsm e :
  machine_ok init cap fsm -> admitted e -> 2 * (cap + inserted e) <= max_int ->
  zlen (revisionLog fsm) < max_int ->
  exists a, apply_entry fsm e = Ret a /\ machine_ok init (cap + inserted e) (machine a).
Proof.
  intros Hok [We Hb] Hm Hl. pose proof (ins_len_nonneg (Ops (EChangeset e))) as Hi.
  unfold inserted in *. assert (0 <= cap) by (pose proof (ok_init _ _ _ Hok); zlen_facts; lia).
  assert (Hok' := machine_ok_weaken init cap (cap + ins_len (Ops (EChangeset e))) fsm
    ltac:(lia) Hok).
  unfold apply_entry. destruct (is_seen fsm e) eqn:Es; [by eexists|].
  destruct (rebase_loop_total (S (length (revisionLog fsm))) (revisionLog fsm) (BaseRev e)
    (EChangeset e) cap) as (C&HC&Gc&Nc&Ic&Sc); try (by apply Hok); try (by apply wf_good);
    try lia; [unfold zlen; lia|symmetry; exact (wf_new _ We)|].
  rewrite (ok_rev _ _ _ Hok), HC. cbn [or_nil].
  pose proof (ok_text _ _ _ Hok).
  destruct (ApplyChangeset_rebased (headText fsm) C cap) as [[err Ha]|(Wc&Ec&Ha)];
    try done; try lia; [destruct Sc as [->|]; auto|rewrite Ha; by eexists|].
  assert (Hret : apply_entry fsm e = Ret (commit fsm e C (exec (Ops C) (headText fsm)))).
  { unfold apply_entry. by rewrite Es, (ok_rev _ _ _ Hok), HC; simpl; rewrite Ha. }
  rewrite Ha. eexists. split; [done|].
  pose proof (exec_wf_zlen _ _ Wc Ec) as Hz. pose proof (dst_len_ins _ (wf_ops _ Wc)).
  assert (Hlen : zlen (exec (Ops C) (headText fsm)) <= cap + ins_len (Ops (EChangeset e))).
  { destruct Wc. lia. }
  constructor; try done.
  - by apply (fsm_inv_entry init fsm e _ (ok_inv _ _ _ Hok)).
  - simpl. unfold changesets. rewrite map_app. apply Forall_app. split; [apply Hok'|].
    constructor; [|constructor]. split; [done|simpl; lia].
  - apply Hok'.
  - simpl. rewrite (ok_rev _ _ _ Hok), wrap64_small, zlen_app; [done|zl].
Qed.

Section total.
  Context `{EC : EntryCodec}.

(** Every entry that decodes is an admitted one. *)
Definition admitted_data (data : text) : Prop :=
  match UnmarshalEntry data with inr e => admitted e | inl _ => True end.

Definition inserted_data (data : text) : Z :=
  match UnmarshalEntry data with inr e => inserted e | inl _ => 0 end.

Definition total_inserted (log : list text) : Z := foldr (fun d n => inserted_data d + n) 0 log.

Lemma inserted_data_nonneg d : 0 <= inserted_data d.
Proof. unfold inserted_data. destruct (UnmarshalEntry d); [lia|]. apply ins_len_nonneg. Qed.

Lemma total_inserted_nonneg log : 0 <= total_inserted log.
Proof.
  induction log as [|d l IH]; simpl; [lia|]. pose proof (inserted_data_nonneg d). lia.
Qed.

Lemma Apply_log_length fsm data a :
  Apply fsm data = Ret a ->
  (length (revisionLog fsm) <= length (revisionLog (machine a))
   <= S (length (revisionLog fsm)))%nat.
Proof.
  intros Ha. destruct (Apply_ret _ _ _ Ha) as [(?&_&->)|(e&_&He)]; simpl; [lia|].
  destruct (apply_entry_case _ _ _ He); simpl; rewrite ?length_app; simpl; lia.
Qed.

Lemma run_total init cap fsm log :
  machine_ok init cap fsm -> Forall admitted_data log ->
  2 * (cap + total_inserted log) <= max_int ->
  zlen (revisionLog fsm) + zlen log <= max_int ->
  exists fsm' rs, run fsm log = Ret (fsm', rs) /\ length rs = length log /\
    machine_ok init (cap + total_inserted log) fsm'.
Proof.
  intros Hok Hl. revert cap fsm Hok.
  induction Hl as [|d l Hd Hl IH]; intros cap fsm Hok Hm Hz; simpl in *.
  { exists fsm, []. by rewrite Z.add_0_r. }
  pose proof (total_inserted_nonneg l). pose proof (inserted_data_nonneg d).
  assert (Hstep : exists a, Apply fsm d = Ret a /\
    machine_ok init (cap + inserted_data d) (machine a)).
  { unfold Apply, inserted_data, admitted_data in *. destruct (UnmarshalEntry d) as [err|e].
    - eexists. split; [done|]. by rewrite Z.add_0_r.
    - apply apply_entry_total; [done..|lia|zl]. }
  destruct Hstep as (a&Ea&Ha).
  pose proof (Apply_log_length _ _ _ Ea).
  destruct (IH (cap + inserted_data d) (machine a)) as (fsm'&rs&Hr&Hlen&Hok');
    [done|lia|unfold zlen in *; simpl in *; lia|].
  exists fsm', (response a :: rs). rewrite Ea. simpl. rewrite Hr. simpl.
  split_and!; [done|by rewrite Hlen|].
  by replace (cap + (inserted_data d + total_inserted l))
    with (cap + inserted_data d + total_inserted l) by lia.
Qed.

Lemma machine_ok_new init : machine_ok init (zlen init) (NewDocumentStateMachine init).
Proof. constructor; simpl; try done. Qed.

End total.

(** * Deduplication *)

(** [a] has been applied for client [c] up to at least submission [s]. *)
Definition seen_upto (fsm : DocumentStateMachine) (c : text) (s : Z) : Prop :=
  exists l, clientLastSubmission fsm !! c = Some l /\ s <= l.

Lemma is_seen_spec fsm e :
  is_seen fsm e = true <-> seen_upto fsm (ClientID e) (SubmissionID e).
Proof.
  unfold is_seen, seen_upto. destruct (clientLastSubmission fsm !! ClientID e) as [l|].
  - rewrite Z.leb_le. split; [eauto|by intros (?&[= <-]&?)].
  - split; [done|by intros (?&?&?)].
Qed.

Lemma not_seen fsm e :
  is_seen fsm e = false <-> ~ seen_upto fsm (ClientID e) (SubmissionID e).
Proof. by rewrite <-not_true_iff_false, is_seen_spec. Qed.

(** The record a committed result stands for. *)
Definition record_of (r : ApplyResult) : RevisionRecord :=
  mkRevision (NewRev r -ᵢ 1)%go (CPrime r) (RClientID r).
Definition committed (r : option ApplyResult) : option ApplyResult :=
  match r with Some res => if IsDuplicate res then None else Some res | None => None end.

Lemma omap_committed_length rs : (length (omap committed rs) <= length rs)%nat.
Proof. induction rs as [|r rs IH]; csimpl; [done|]. destruct (committed r); csimpl; lia. Qed.

Lemma seen_upto_entry fsm e a c s :
  apply_entry fsm e = Ret a -> seen_upto fsm c s -> seen_upto (machine a) c s.
Proof.
  intros Ha Hs. destruct (apply_entry_case _ _ _ Ha) as [|?|C t Hn _ _]; [done..|].
  destruct Hs as (l&Hl&Hle). unfold seen_upto. simpl.
  destruct (decide (ClientID e = c)) as [<-|Hc].
  - rewrite lookup_insert_eq. eexists. split; [done|].
    unfold is_seen in Hn. rewrite Hl in Hn. apply Z.leb_gt in Hn. lia.
  - rewrite lookup_insert_ne by done. eauto.
Qed.

Lemma committed_case fsm e a res :
  apply_entry fsm e = Ret a -> committed (response a) = Some res ->
  is_seen fsm e = false /\ exists C t, a = commit fsm e C t /\
    res = mkResult C (headRev fsm +ᵢ 1)%go (ClientID e) false.
Proof.
  intros Ha Hc. destruct (apply_entry_case _ _ _ Ha) as [|?|C t Hn _ _]; try done.
  simpl in Hc. simplify_eq. eauto.
Qed.

Section dedup.
  Context `{EC : EntryCodec}.

Lemma seen_upto_run c s log fsm fsm' rs :
  seen_upto fsm c s -> run fsm log = Ret (fsm', rs) -> seen_upto fsm' c s.
Proof.
  apply (run_ind (fun f => seen_upto f c s)). intros f d a Hs Ha.
  destruct (Apply_ret _ _ _ Ha) as [(?&_&->)|(e&_&He)]; [done|]. by eapply seen_upto_entry.
Qed.

(** The submission ids of client [c] that a run committed, in log order. *)
Fixpoint submissions (c : text) (log : list text) (rs : list (option ApplyResult)) : list Z :=
  match log, rs with
  | data :: log', r :: rs' =>
      match UnmarshalEntry data, committed r with
      | inr e, Some _ =>
          if bool_decide (ClientID e = c) then SubmissionID e :: submissions c log' rs'
          else submissions c log' rs'
      | _, _ => submissions c log' rs'
      end
  | _, _ => []
  end.

Lemma submissions_sorted c log fsm fsm' rs :
  run fsm log = Ret (fsm', rs) ->
  StronglySorted Z.lt (submissions c log rs) /\
  Forall (fun s => ~ seen_upto fsm c s) (submissions c log rs).
Proof.
  revert fsm rs. induction log as [|d log IH]; intros fsm rs Hr.
  { simpl in Hr. simplify_eq. split; constructor. }
  destruct (run_cons _ _ _ _ _ Hr) as (a&rs'&Ha&Hr'&->). destruct (IH _ _ Hr') as [Hs Hf].
  assert (Hmono : forall e s, UnmarshalEntry d = inr e ->
    ~ seen_upto (machine a) c s -> ~ seen_upto fsm c s).
  { intros e s He Hn Hc. apply Hn. unfold Apply in Ha. rewrite He in Ha.
    by eapply seen_upto_entry. }
  simpl. destruct (UnmarshalEntry d) as [err|e] eqn:Eu.
  { unfold Apply in Ha. rewrite Eu in Ha. by simplify_eq/=. }
  assert (Hf' : Forall (fun s => ~ seen_upto fsm c s) (submissions c log rs')).
  { eapply Forall_impl; [exact Hf|]. simpl. eauto. }
  destruct (committed (response a)) as [res|] eqn:Ec; [|done].
  case_bool_decide as Hc; [|done]. subst c.
  unfold Apply in Ha. rewrite Eu in Ha.
  destruct (committed_case _ _ _ _ Ha Ec) as (Hn&C&t&->&_).
  split; constructor; try done.
  - eapply Forall_impl; [exact Hf|]. simpl. intros s Hns.
    apply Z.nle_gt. intros Hle. apply Hns. eexists. simpl.
    by rewrite lookup_insert_eq.
  - rewrite <-is_seen_spec, Hn. done.
Qed.

(** ** The revision log is the list of committed results *)

Lemma run_records init log fsm fsm' rs :
  fsm_inv init fsm -> run fsm log = Ret (fsm', rs) ->
  revisionLog fsm' = revisionLog fsm ++ map record_of (omap committed rs).
Proof.
  revert fsm rs. induction log as [|d log IH]; intros fsm rs Hi Hr.
  { simpl in Hr. simplify_eq. by rewrite app_nil_r. }
  destruct (run_cons _ _ _ _ _ Hr) as (a&rs'&Ha&Hr'&->).
  rewrite (IH _ _ (fsm_inv_Apply _ _ _ _ Hi Ha) Hr').
  destruct (Apply_ret _ _ _ Ha) as [(?&_&->)|(e&_&He)]; [done|].
  destruct (apply_entry_case _ _ _ He) as [|?|C t _ _ _]; [done..|].
  simpl. rewrite <-app_assoc. f_equal. simpl. f_equal. unfold record_of. simpl. f_equal.
  rewrite (inv_rev _ _ Hi). unfold Z.sub.
  rewrite wrap64_wrap64, <-Z.add_assoc, wrap64_wrap64. f_equal. lia.
Qed.

End dedup.

(** * A submission on a known revision is committed *)

Lemma ApplyChangeset_old t c u : ApplyChangeset t c = Ret u -> OldLen c = zlen t.
Proof. unfold ApplyChangeset. by destruct (Z.eqb_spec (OldLen c) (zlen t)). Qed.

(** One [Follow] of the loop: the rebased changeset fits the next text. *)
Lemma Follow_step u u' h C cap :
  wf h -> NewLen h <= cap -> zlen u <= cap -> ApplyChangeset u h = Ret u' ->
  wf C -> OldLen C = zlen u -> 2 * cap + ins_len (Ops C) <= max_int ->
  exists F, Follow h C = Ret F /\ wf F /\ OldLen F = zlen u' /\
    ins_len (Ops F) <= ins_len (Ops C) /\ zlen u' <= cap.
Proof.
  intros Wh Lh Lu Hu WC EC Hm. pose proof (ApplyChangeset_old _ _ _ Hu) as Eh.
  pose proof (dst_len_ins _ (wf_ops _ WC)) as Hd.
  pose proof (wf_new _ WC). pose proof (wf_old _ WC).
  pose proof (wf_new _ Wh). pose proof (valid_ops_dst _ (wf_ops _ Wh)).
  assert (Hz : zlen u' = NewLen h).
  { rewrite (ApplyChangeset_exec u h) in Hu by done. simplify_eq. by apply exec_wf_zlen. }
  destruct (Follow_ok h C) as (F&HF&WF&_&OF&_&_); [done|done|lia|lia|].
  zlen_facts.
  destruct (Follow_total h C) as (F'&HF'&_&_&_&_&_&_&IF); [done|by apply wf_good|lia|].
  assert (F' = F) as -> by congruence. exists F. split_and!; try done; lia.
Qed.

(** The rebase as a fold of [Follow] over the changesets that came in between. *)
Fixpoint rebased (C : Changeset) (hs : list Changeset) : outcome ot_error Changeset :=
  match hs with
  | [] => Ret C
  | h :: hs' => C' ← Follow h C; rebased C' hs'
  end.


Lemma rebase_loop_ok fuel log r C u v cap :
  Forall (fun c => wf c /\ NewLen c <= cap) (changesets log) ->
  0 <= r <= zlen log -> zlen log <= max_int -> zlen log - r < Z.of_nat fuel ->
  replay u (changesets (drop (Z.to_nat r) log)) = Ret v ->
  wf C -> OldLen C = zlen u -> zlen u <= cap -> 2 * cap + ins_len (Ops C) <= max_int ->
  exists C', rebase_loop fuel log r (zlen log) C = Ret C' /\ wf C' /\ OldLen C' = zlen v /\
    rebased C (changesets (drop (Z.to_nat r) log)) = Ret C'.
Proof.
  intros Hlog. revert r C u. induction fuel as [|fuel IH]; intros r C u Hr Hm Hf Hv WC EC Hu Hc.
  { lia. }
  cbn [rebase_loop]. destruct (Z.ltb_spec r (zlen log)) as [Hlt|Hge].
  2: { rewrite drop_ge in * by (unfold zlen in *; lia). simpl in Hv. simplify_eq.
       exists C. done. }
  destruct (index_lt (E := ot_error) log r) as (h&->&Eh); [lia|].
  assert (Hh : wf (RChangeset h) /\ NewLen (RChangeset h) <= cap).
  { pose proof Hlog as Hl. apply (proj1 (Forall_map _ _ _)) in Hl.
    exact (proj1 (Forall_lookup _ _) Hl _ _ Eh). }
  destruct Hh as [Wh Lh].
  rewrite (drop_S _ _ _ Eh) in Hv |- *. cbn [changesets map replay rebased] in Hv |- *.
  apply bind_ret in Hv as (u'&Hu'&Hv).
  destruct (Follow_step u u' (RChangeset h) C cap) as (F&HF&WF&EF&IF&Lu'); try done.
  unfold mbind. simpl. rewrite HF. simpl. rewrite wrap64_small by lia.
  replace (S (Z.to_nat r)) with (Z.to_nat (r + 1)) in * by lia.
  destruct (IH (r + 1) F u') as (C'&->&WC'&EC'&HC'); try done; try lia.
  exists C'. by split_and!.
Qed.

Lemma replay_split init log r u v :
  replay init (changesets log) = Ret v -> replay init (take r (changesets log)) = Ret u ->
  replay u (changesets (drop r log)) = Ret v.
Proof.
  intros Hv Hu. rewrite <-(take_drop r (changesets log)), replay_app, Hu in Hv. simpl in Hv.
  unfold changesets in *. by rewrite skipn_map in Hv.
Qed.

Lemma replay_zlen init cs u cap :
  Forall (fun c => wf c /\ NewLen c <= cap) cs -> zlen init <= cap ->
  replay init cs = Ret u -> zlen u <= cap.
Proof.
  intros H. revert init. induction H as [|c cs [Wc Lc] _ IH]; intros init Hi Hr.
  { simpl in Hr. by simplify_eq. }
  simpl in Hr. apply bind_ret in Hr as (t&Ht&Hr).
  apply (IH t); [|done]. pose proof (ApplyChangeset_old _ _ _ Ht) as Eo.
  rewrite ApplyChangeset_exec in Ht by done. simplify_eq. by rewrite exec_wf_zlen.
Qed.

Lemma apply_entry_accepts init cap fsm e u :
  machine_ok init cap fsm -> wf (EChangeset e) -> 0 <= BaseRev e <= headRev fsm ->
  2 * cap + inserted e <= max_int -> zlen (revisionLog fsm) < max_int ->
  ~ seen_upto fsm (ClientID e) (SubmissionID e) ->
  replay init (take (Z.to_nat (BaseRev e)) (changesets (revisionLog fsm))) = Ret u ->
  OldLen (EChangeset e) = zlen u ->
  exists C, wf C /\
    rebased (EChangeset e) (drop (Z.to_nat (BaseRev e)) (changesets (revisionLog fsm))) = Ret C /\
    OldLen C = zlen (headText fsm) /\
    apply_entry fsm e = Ret (commit fsm e C (exec (Ops C) (headText fsm))).
Proof.
  intros Hok We Hb Hm Hl Hs Hu Eu.
  pose proof (ok_rev _ _ _ Hok) as Hrev. rewrite Hrev in Hb.
  destruct (rebase_loop_ok (S (length (revisionLog fsm))) (revisionLog fsm) (BaseRev e)
    (EChangeset e) u (headText fsm) cap) as (C&HC&WC&EC&Hreb); try done; try lia.
  - apply Hok.
  - unfold zlen. lia.
  - apply (replay_split init); [apply Hok|done].
  - eapply replay_zlen; [|apply Hok|exact Hu]. apply Forall_take, Hok.
  - exists C. split_and!; try done; [by rewrite <-Hreb; unfold changesets; rewrite skipn_map|].
    unfold apply_entry. rewrite <-is_seen_spec in Hs.
    apply not_true_is_false in Hs. rewrite Hs, Hrev, HC. simpl.
    by rewrite (ApplyChangeset_exec _ _ WC EC).
Qed.

(** * Examples

    A codec with a fixed table of entries, each encoded as one byte. *)
Definition table_codec (t : list RaftLogEntry) : EntryCodec := {|
  MarshalEntry e :=
    i ← fst <$> list_find (fun x => x = e) t; b ← Byte.of_N (N.of_nat i); Some [b];
  UnmarshalEntry d :=
    match d with
    | [b] => match t !! Z.to_nat (byte_val b) with Some e => inr e | None => inl "bad"%string end
    | _ => inl "bad"%string
    end
|}.

(** Two clients type into an empty document at the same time. *)
Definition alice_1 : RaftLogEntry :=
  mkEntry (bytes_of "alice") 1 0 (TextToChangeset (bytes_of "hi")).
Definition bob_1 : RaftLogEntry :=
  mkEntry (bytes_of "bob") 1 0 (TextToChangeset (bytes_of "yo")).
Definition alice_2 : RaftLogEntry :=
  mkEntry (bytes_of "alice") 2 1 (MakeInsert 2 2 (bytes_of "!")).
Definition demo_codec : EntryCodec := table_codec [alice_1; bob_1; alice_2].
Definition demo_log : list text := [[Byte.x00]; [Byte.x01]; [Byte.x00]].
Definition demo_run : DocumentStateMachine * list (option ApplyResult) :=
  ret_of (NewDocumentStateMachine [], [])
    (run (EC := demo_codec) (NewDocumentStateMachine []) demo_log).
Definition demo_machine : DocumentStateMachine := fst demo_run.
Definition demo_results : list (option ApplyResult) := snd demo_run.

Lemma demo_run_ret :
  run (EC := demo_codec) (NewDocumentStateMachine []) demo_log = Ret (demo_machine, demo_results).
Proof. apply ret_of_pair. vm_compute. reflexivity. Qed.

Example demo_text : headText demo_machine = bytes_of "hiyo".
Proof. vm_compute. reflexivity. Qed.
Example demo_dup : demo_results !! 2%nat = Some (Some (mkResult zeroChangeset 2 (bytes_of "alice") true)).
Proof. vm_compute. reflexivity. Qed.

(** * Properties *)

(** C14: the key invariant of the state machine. Whatever bytes the log holds, a
    replica that survived it caches the text that replaying its revision log gives,
    its revision number is the length of that log, and the records are numbered in
    order. *)
Theorem Apply_invariant `{EC : EntryCodec} init log fsm rs :
  run (NewDocumentStateMachine init) log = Ret (fsm, rs) ->
  replay init (changesets (revisionLog fsm)) = Ret (HeadText fsm) /\
  HeadRev fsm = wrap64 (zlen (revisionLog fsm)) /\
  forall i rec, revisionLog fsm !! i = Some rec -> RevNumber rec = wrap64 (Z.of_nat i).
Proof. intros Hr. destruct (fsm_inv_run _ _ _ _ Hr). by split_and!. Qed.

Lemma Apply_invariant_witness :
  replay [] (changesets (revisionLog demo_machine)) = Ret (HeadText demo_machine) /\
  HeadRev demo_machine = wrap64 (zlen (revisionLog demo_machine)) /\
  forall i rec, revisionLog demo_machine !! i = Some rec -> RevNumber rec = wrap64 (Z.of_nat i).
Proof.
  exact (Apply_invariant (EC := demo_codec) [] demo_log demo_machine demo_results
    demo_run_ret).
Defined.

(** C10: crash freedom. When every entry of the log that decodes holds a well-formed
    changeset (one that passes [Validate] by its true lengths, which fit an [int], and not
    by lengths that wrap around) and names a base revision that is not negative, and the
    text and everything ever inserted fit in half of an [int], every call of [Apply]
    returns: no panic and no endless loop on any replica; and every recorded changeset is
    well formed. Both conditions are needed: handleSubmit lets other entries through
    ([Apply_negative_base_panics], [Apply.Validate_overflow_panics]). *)
Theorem Apply_never_crashes `{EC : EntryCodec} init log :
  Forall admitted_data log -> 2 * (zlen init + total_inserted log) <= max_int ->
  zlen log <= max_int ->
  exists fsm rs, run (NewDocumentStateMachine init) log = Ret (fsm, rs) /\
    length rs = length log /\
    Forall (fun c => Validate c = Ret tt) (changesets (revisionLog fsm)) /\
    HeadRev fsm = zlen (revisionLog fsm).
Proof.
  intros Hl Hm Hz.
  destruct (run_total init (zlen init) (NewDocumentStateMachine init) log)
    as (fsm&rs&Hr&Hlen&Hok); [apply machine_ok_new|done..|].
  exists fsm, rs. split_and!; [done..| |apply Hok].
  eapply Forall_impl; [apply Hok|]. simpl. intros c [Hc _]. by apply Validate_wf.
Qed.

Lemma Apply_never_crashes_witness :
  exists fsm rs,
    run (EC := demo_codec) (NewDocumentStateMachine []) demo_log = Ret (fsm, rs) /\
    length rs = 3%nat /\
    Forall (fun c => Validate c = Ret tt) (changesets (revisionLog fsm)) /\
    HeadRev fsm = zlen (revisionLog fsm).
Proof.
  exact (Apply_never_crashes (EC := demo_codec) [] demo_log
    ltac:(repeat constructor; by_compute) ltac:(by_compute) ltac:(by_compute)).
Defined.

(** C19: acceptance. On a replica whose log held well-formed submissions, take a
    submission that is well formed, is built on the text of a revision the replica knows
    (its [OldLen] is the length of that text), and is not seen yet. It is committed as the
    next revision: the changeset committed is the submission's, taken through [Follow] over
    every changeset that was committed after its base revision, in order; it fits the
    current text and makes the new text; it is recorded at the end of the revision log,
    with its author, and the submission as the client's last one; the result goes to the
    caller and to [onCommit]. *)
Theorem Apply_accepts `{EC : EntryCodec} init log fsm rs data e u :
  run (NewDocumentStateMachine init) log = Ret (fsm, rs) ->
  Forall admitted_data log -> zlen log < max_int ->
  2 * (zlen init + total_inserted log) + inserted e <= max_int ->
  UnmarshalEntry data = inr e -> Validate (EChangeset e) = Ret tt ->
  src_len (Ops (EChangeset e)) <= max_int -> dst_len (Ops (EChangeset e)) <= max_int ->
  0 <= BaseRev e <= headRev fsm -> ~ seen_upto fsm (ClientID e) (SubmissionID e) ->
  replay init (take (Z.to_nat (BaseRev e)) (changesets (revisionLog fsm))) = Ret u ->
  OldLen (EChangeset e) = zlen u ->
  exists a res, Apply fsm data = Ret a /\ response a = Some res /\ callbacks a = [res] /\
    IsDuplicate res = false /\ RClientID res = ClientID e /\
    NewRev res = HeadRev fsm + 1 /\ HeadRev (machine a) = HeadRev fsm + 1 /\
    rebased (EChangeset e) (drop (Z.to_nat (BaseRev e)) (changesets (revisionLog fsm))) = Ret (CPrime res) /\
    ApplyChangeset (HeadText fsm) (CPrime res) = Ret (HeadText (machine a)) /\
    revisionLog (machine a) = revisionLog fsm ++ [mkRevision (HeadRev fsm) (CPrime res) (ClientID e)] /\
    clientLastSubmission (machine a) = <[ClientID e := SubmissionID e]> (clientLastSubmission fsm).
Proof.
  intros Hr Hl Hz Hm Hu Hv Hs Hd Hb Hseen Hbase Ho.
  apply Validate_iff in Hv; [|done..].
  pose proof (ins_len_nonneg (Ops (EChangeset e))). unfold inserted in *.
  destruct (run_total init (zlen init) (NewDocumentStateMachine init) log)
    as (fsm'&rs'&Hr'&Hlen&Hok); [apply machine_ok_new|done|lia|simpl; zl|].
  assert (fsm' = fsm) as -> by congruence.
  assert (Hsz : zlen (revisionLog fsm) <= zlen log).
  { rewrite (run_records init _ _ _ _ (fsm_inv_new init) Hr). simpl.
    unfold zlen. rewrite length_map, <-Hlen. assert (rs' = rs) as -> by congruence.
    pose proof (omap_committed_length rs). lia. }
  destruct (apply_entry_accepts init _ fsm e u Hok) as (C&WC&Hreb&HoC&Ha); try done; try lia.
  unfold Apply. rewrite Hu, Ha. eexists _, _. split; [done|].
  simpl. unfold HeadRev, HeadText. rewrite (ok_rev _ _ _ Hok) in *.
  rewrite wrap64_small by (zlen_facts; unfold max_int in *; lia).
  split_and!; try done. by apply ApplyChangeset_exec.
Qed.

Lemma Apply_accepts_witness :
  exists a res, Apply (EC := demo_codec) demo_machine [Byte.x02] = Ret a /\
    response a = Some res /\ callbacks a = [res] /\
    IsDuplicate res = false /\ RClientID res = bytes_of "alice" /\
    NewRev res = HeadRev demo_machine + 1 /\ HeadRev (machine a) = HeadRev demo_machine + 1 /\
    rebased (EChangeset alice_2) (drop 1 (changesets (revisionLog demo_machine))) = Ret (CPrime res) /\
    ApplyChangeset (HeadText demo_machine) (CPrime res) = Ret (HeadText (machine a)) /\
    revisionLog (machine a)
      = revisionLog demo_machine ++ [mkRevision (HeadRev demo_machine) (CPrime res) (bytes_of "alice")] /\
    clientLastSubmission (machine a) = <[bytes_of "alice" := 2]> (clientLastSubmission demo_machine).
Proof.
  exact (Apply_accepts (EC := demo_codec) [] demo_log demo_machine demo_results
    [Byte.x02] alice_2 (bytes_of "hi")
    demo_run_ret ltac:(repeat constructor; by_compute) ltac:(by_compute)
    ltac:(by_compute) ltac:(by_compute) ltac:(by_compute) ltac:(by_compute) ltac:(by_compute)
    ltac:(by_compute)
    (proj1 (not_seen demo_machine alice_2) ltac:(by_compute))
    ltac:(by_compute) ltac:(by_compute)).
Defined.

(** C20: exactly once. In any run the submission ids committed for one client are
    strictly increasing, so no submission is committed twice; and the revision log
    consists of the committed results the callers were given, in order. *)
Theorem Apply_exactly_once `{EC : EntryCodec} init log fsm rs :
  run (NewDocumentStateMachine init) log = Ret (fsm, rs) ->
  (forall c, StronglySorted Z.lt (submissions c log rs)) /\
  revisionLog fsm = map record_of (omap committed rs).
Proof.
  intros Hr. split; [intros c; by eapply submissions_sorted|].
  exact (run_records init log _ _ _ (fsm_inv_new init) Hr).
Qed.

Lemma Apply_exactly_once_witness :
  (forall c, StronglySorted Z.lt (submissions (EC := demo_codec) c demo_log demo_results)) /\
  revisionLog demo_machine = map record_of (omap committed demo_results).
Proof.
  exact (Apply_exactly_once (EC := demo_codec) [] demo_log demo_machine demo_results
    demo_run_ret).
Defined.

(** A resubmission is harmless. Once a submission was committed, applying the
    same bytes again after any further entries changes nothing and reports a
    duplicate at the head revision. *)
Theorem Apply_resubmission `{EC : EntryCodec} fsm data a res log fsm' rs :
  Apply fsm data = Ret a -> committed (response a) = Some res ->
  run (machine a) log = Ret (fsm', rs) ->
  let dup := mkResult zeroChangeset (HeadRev fsm') (RClientID res) true in
  Apply fsm' data = Ret (mkApplied fsm' (Some dup) [dup]).
Proof.
  intros Ha Hc Hr dup. destruct (Apply_ret _ _ _ Ha) as [(?&_&->)|(e&Hu&He)]; [done|].
  destruct (committed_case _ _ _ _ He Hc) as (_&C&t&->&->).
  assert (Hs : seen_upto fsm' (ClientID e) (SubmissionID e)).
  { eapply seen_upto_run; [|exact Hr]. eexists. simpl. rewrite lookup_insert_eq.
    split; [done|lia]. }
  apply is_seen_spec in Hs. unfold Apply. rewrite Hu. unfold apply_entry. by rewrite Hs.
Qed.

Definition demo_first : applied :=
  match Apply (EC := demo_codec) (NewDocumentStateMachine []) [Byte.x00] with
  | Ret a => a
  | _ => mkApplied (NewDocumentStateMachine []) None []
  end.

Lemma Apply_resubmission_witness :
  let dup := mkResult zeroChangeset 1 (bytes_of "alice") true in
  Apply (EC := demo_codec) (machine demo_first) [Byte.x00]
  = Ret (mkApplied (machine demo_first) (Some dup) [dup]).
Proof.
  exact (Apply_resubmission (EC := demo_codec) (NewDocumentStateMachine []) [Byte.x00]
    demo_first (mkResult (EChangeset alice_1) 1 (bytes_of "alice") false) []
    (machine demo_first) [] ltac:(reflexivity) ltac:(by_compute) ltac:(reflexivity)).
Defined.

(** Catch-up. A client that holds the text of revision [k] and applies the
    changesets of [RevisionsSince k], in order, holds the replica's text; from the
    head revision on the answer is empty, and a negative revision panics. *)
Theorem RevisionsSince_catch_up `{EC : EntryCodec} init log fsm rs k u :
  run (NewDocumentStateMachine init) log = Ret (fsm, rs) ->
  replay init (take (Z.to_nat k) (changesets (revisionLog fsm))) = Ret u ->
  if k <? 0 then RevisionsSince fsm k = Panic
  else exists recs, RevisionsSince fsm k = Ret recs /\
    recs = drop (Z.to_nat k) (revisionLog fsm) /\
    replay u (changesets recs) = Ret (HeadText fsm).
Proof.
  intros Hr Hu. pose proof (fsm_inv_run _ _ _ _ Hr) as [Ht _ _].
  pose proof (replay_split _ _ _ _ _ Ht Hu) as Hv.
  unfold RevisionsSince. zlen_facts. destruct (Z.ltb_spec k 0).
  - destruct (Z.leb_spec (zlen (revisionLog fsm)) k); [lia|].
    unfold slice. by destruct (Z.leb_spec 0 k); [lia|].
  - exists (drop (Z.to_nat k) (revisionLog fsm)). split_and!; [|done|done].
    destruct (Z.leb_spec (zlen (revisionLog fsm)) k).
    + by rewrite drop_ge by (unfold zlen in *; lia).
    + rewrite slice_ok by lia. f_equal. apply take_ge. rewrite length_drop.
      unfold zlen in *. lia.
Qed.

Lemma RevisionsSince_catch_up_witness :
  exists recs, RevisionsSince demo_machine 1 = Ret recs /\
    recs = drop 1 (revisionLog demo_machine) /\
    replay (bytes_of "hi") (changesets recs) = Ret (HeadText demo_machine).
Proof.
  exact (RevisionsSince_catch_up (EC := demo_codec) [] demo_log demo_machine demo_results 1
    (bytes_of "hi") demo_run_ret ltac:(by_compute)).
Defined.

(** A committed entry with a negative base revision crashes every replica that
    applies it, whatever its changeset: [handleSubmit] checks the changeset and not
    [BaseRev], and the loop indexes the revision log with it. *)
Theorem Apply_negative_base_panics `{EC : EntryCodec} init log fsm rs data e :
  run (NewDocumentStateMachine init) log = Ret (fsm, rs) -> zlen (revisionLog fsm) <= max_int ->
  UnmarshalEntry data = inr e -> BaseRev e < 0 ->
  ~ seen_upto fsm (ClientID e) (SubmissionID e) ->
  Apply fsm data = Panic.
Proof.
  intros Hr Hz Hu Hb Hs. destruct (fsm_inv_run _ _ _ _ Hr) as [_ Hrev _].
  apply not_seen in Hs. unfold Apply. rewrite Hu. unfold apply_entry. rewrite Hs.
  cbn [rebase_loop]. zlen_facts. rewrite Hrev, wrap64_small by zl.
  destruct (Z.ltb_spec (BaseRev e) (zlen (revisionLog fsm))); [|lia].
  unfold index. by destruct (Z.leb_spec 0 (BaseRev e)); [lia|].
Qed.

Lemma Apply_negative_base_panics_witness :
  Validate (Identity 0) = Ret tt /\
  Apply (EC := table_codec [mkEntry (bytes_of "mallory") 1 (-1) (Identity 0)])
    (NewDocumentStateMachine []) [Byte.x00] = Panic.
Proof.
  split; [by_compute|].
  exact (Apply_negative_base_panics
    (EC := table_codec [mkEntry (bytes_of "mallory") 1 (-1) (Identity 0)])
    [] [] (NewDocumentStateMachine []) [] [Byte.x00]
    (mkEntry (bytes_of "mallory") 1 (-1) (Identity 0))
    ltac:(by_compute) ltac:(by_compute) ltac:(by_compute) ltac:(by_compute)
    (proj1 (not_seen (NewDocumentStateMachine []) _) ltac:(by_compute))).
Defined.

(** The length check on a submission is lost when the loop runs. A validated
    changeset whose [OldLen] is not the length of its base revision is refused on
    the head revision, but on an older one it is rebased, committed and
    acknowledged, here with its insertion dropped. *)
Theorem Apply_stale_length_commits :
  exists fsm e a res,
    apply_entry (NewDocumentStateMachine []) alice_1 = Ret (mkApplied fsm (Some res) [res]) /\
    Validate (EChangeset e) = Ret tt /\ In (insert_op (bytes_of "x")) (Ops (EChangeset e)) /\
    BaseRev e = 0 /\ OldLen (EChangeset e) <> 0 /\
    apply_entry (NewDocumentStateMachine []) e
      = Ret (mkApplied (NewDocumentStateMachine []) None []) /\
    apply_entry fsm e = Ret a /\ response a = Some (mkResult (Identity 2) 2 (ClientID e) false) /\
    HeadText (machine a) = HeadText fsm.
Proof.
  pose (e := mkEntry (bytes_of "bob") 1 0 (mkChangeset 5 6 [retain 5; insert_op (bytes_of "x")])).
  exists (machine demo_first), e, (commit (machine demo_first) e (Identity 2) (bytes_of "hi")),
    (mkResult (EChangeset alice_1) 1 (bytes_of "alice") false).
  split_and!; try reflexivity; [simpl; tauto|done].
Qed.
