(* ===== verification/Stores.v ===== *)
(** Storage of a Raft node: log entries ([internal/raft/types.go]), the [LogStore]
    and [StableStore] interfaces with the promises the node relies on, the
    in-memory implementations ([internal/raft/inmem.go]) and the big-endian
    encoding of indices ([internal/store/boltstore.go]). The in-memory stores are
    proved to keep the promises. *)
From stdpp Require Import pretty.
From S2P Require Import Prelude.

(** * Data *)

(** [Index] and [Term] are [uint64]. *)
Record LogEntry : Type := mkLog { Index : Z; Term : Z; Data : text }.

#[export] Instance logentry_eq_dec : EqDecision LogEntry.
Proof. solve_decision. Defined.

(** [GetLog] returns a pointer and an [error]: without an error the pointer is not
    [nil], with one it may be either. *)
Inductive got : Type :=
| Got (e : LogEntry)
| NotGot (ptr : option LogEntry) (err : string).

(** * Big-endian integers *)

Fixpoint be_encode (n : nat) (v : Z) : text :=
  match n with
  | O => []
  | S n' => be_encode n' (v / 256) ++ [byte_of_Z (v mod 256)]
  end.

Definition be_decode (b : text) : Z := foldl (fun acc x => acc * 256 + byte_val x) 0 b.

Definition uint64ToBytes (v : Z) : text := be_encode 8 v.

(** [binary.BigEndian.Uint64] reads eight bytes and panics on a shorter slice. *)
Definition bytesToUint64 (b : text) : outcome string Z :=
  if zlen b <? 8 then Panic else Ret (be_decode (take 8 b)).

(** * The interfaces *)

Class LogStore (St : Type) := {
  FirstIndex : St -> Z * option string;
  LastIndex : St -> Z * option string;
  GetLog : St -> Z -> got;
  StoreLogs : St -> list LogEntry -> outcome string St;
  DeleteRange : St -> Z -> Z -> outcome string St
}.

Definition StoreLog `{LogStore St} (s : St) (entry : LogEntry) : outcome string St :=
  StoreLogs s [entry].

Class StableStore (St : Type) := {
  Set_ : St -> text -> text -> outcome string St;
  Get : St -> text -> outcome string text;
  SetUint64 : St -> text -> Z -> outcome string St;
  GetUint64 : St -> text -> outcome string Z
}.

Definition KeyCurrentTerm : text := bytes_of "CurrentTerm".
Definition KeyVotedFor : text := bytes_of "VotedFor".

(** * InmemLogStore *)

Record InmemLogStore : Type := mkInmem {
  entries : gmap Z LogEntry; lowIdx : Z; highIdx : Z
}.

Definition NewInmemLogStore : InmemLogStore := mkInmem ∅ 0 0.

(** One pass of the loop of [StoreLogs]; copying [Data] makes an equal value. *)
Definition inmem_store (s : InmemLogStore) (e : LogEntry) : InmemLogStore :=
  mkInmem (<[Index e := e]> (entries s))
    (if (lowIdx s =? 0) || (Index e <? lowIdx s) then Index e else lowIdx s)
    (if highIdx s <? Index e then Index e else highIdx s).

(** [for i := min; i <= max; i++ { delete(s.entries, i) }] on [uint64]s. *)
Fixpoint delete_loop (fuel : nat) (m : gmap Z LogEntry) (i max : Z) : outcome string (gmap Z LogEntry) :=
  if i <=? max then
    match fuel with
    | O => NoFuel
    | S fuel' => delete_loop fuel' (delete i m) (i +ᵤ 1)%go max
    end
  else Ret m.

(** The recomputation of the bounds, over the keys in the map's order. *)
Definition low_of (keys : list Z) : Z :=
  foldl (fun low idx => if (low =? 0) || (idx <? low) then idx else low) 0 keys.
Definition high_of (keys : list Z) : Z :=
  foldl (fun high idx => if high <? idx then idx else high) 0 keys.

Definition inmem_DeleteRange (s : InmemLogStore) (min max : Z) : outcome string InmemLogStore :=
  m ← delete_loop (Z.to_nat (max - min + 1)) (entries s) min max;
  let keys := (map_to_list m).*1 in
  Ret (mkInmem m (low_of keys) (high_of keys)).

#[export] Instance InmemLogStore_ops : LogStore InmemLogStore := {
  FirstIndex s := (lowIdx s, None);
  LastIndex s := (highIdx s, None);
  GetLog s index :=
    match entries s !! index with
    | Some e => Got e
    | None => NotGot None ("log entry " +:+ pretty index +:+ " not found")
    end;
  StoreLogs s es := Ret (foldl inmem_store s es);
  DeleteRange := inmem_DeleteRange
}.

(** * InmemStableStore *)

Abbreviation InmemStableStore := (gmap (list byte) text).

Definition inmem_Get (s : InmemStableStore) (key : text) : text :=
  match s !! key with Some val => val | None => [] end.

#[export] Instance InmemStableStore_ops : StableStore InmemStableStore := {
  Set_ s key val := Ret (<[key := val]> s);
  Get s key := Ret (inmem_Get s key);
  SetUint64 s key val := Ret (<[key := uint64ToBytes val]> s);
  GetUint64 s key :=
    let val := inmem_Get s key in
    if zlen val =? 0 then Ret 0 else bytesToUint64 val
}.

(** * What the node relies on

    A store [s] represents a log when it holds exactly the entries of the list, at
    the indices 1, 2, ... An operation may fail, and then changes nothing. *)
Definition entry_at (k : Z) (e : LogEntry) : Prop := Index e = k /\ 0 <= Term e <= max_uint.

Definition numbered (k : Z) (es : list LogEntry) : Prop :=
  forall i e, es !! i = Some e -> entry_at (k + Z.of_nat i) e.

Class LogStoreSpec (St : Type) `{LogStore St} := {
  repr : St -> list LogEntry -> Prop;
  repr_numbered s l : repr s l -> numbered 1 l;
  LastIndex_spec s l : repr s l -> LastIndex s = (zlen l, None);
  GetLog_hit s l i e : repr s l -> 1 <= i -> l !! Z.to_nat (i - 1) = Some e -> GetLog s i = Got e;
  GetLog_miss s l i :
    repr s l -> 0 <= i <= max_uint -> i = 0 \/ zlen l < i -> exists p err, GetLog s i = NotGot p err;
  StoreLogs_spec s l es :
    repr s l -> numbered (zlen l + 1) es -> zlen l + zlen es <= max_uint ->
    (exists err, StoreLogs s es = Err err) \/
    (exists s', StoreLogs s es = Ret s' /\ repr s' (l ++ es));
  DeleteRange_spec s l k :
    repr s l -> 1 <= k <= zlen l -> zlen l < max_uint ->
    (exists err, DeleteRange s k (zlen l) = Err err) \/
    (exists s', DeleteRange s k (zlen l) = Ret s' /\ repr s' (take (Z.to_nat (k - 1)) l))
}.

(** A log whose writes do not fail. *)
Class LogStoreReliable (St : Type) `{LogStoreSpec St} := {
  StoreLogs_reliable s l es :
    repr s l -> numbered (zlen l + 1) es -> is_ret (StoreLogs s es) = true;
  DeleteRange_reliable s l k :
    repr s l -> 1 <= k <= zlen l -> zlen l < max_uint -> is_ret (DeleteRange s k (zlen l)) = true
}.

(** A write of the stable store either fails or is what later reads return. *)
Class StableStoreSpec (St : Type) `{StableStore St} := {
  Set_spec s k v :
    (exists err, Set_ s k v = Err err) \/
    (exists s', Set_ s k v = Ret s' /\ Get s' k = Ret v /\
       forall k', k' <> k -> Get s' k' = Get s k' /\ GetUint64 s' k' = GetUint64 s k');
  SetUint64_spec s k v :
    (exists err, SetUint64 s k v = Err err) \/
    (exists s', SetUint64 s k v = Ret s' /\ (0 <= v <= max_uint -> GetUint64 s' k = Ret v) /\
       forall k', k' <> k -> Get s' k' = Get s k' /\ GetUint64 s' k' = GetUint64 s k')
}.

(** A store whose writes do not fail. *)
Class StableStoreReliable (St : Type) `{StableStore St} := {
  Set_reliable s k v : is_ret (Set_ s k v) = true;
  SetUint64_reliable s k v : is_ret (SetUint64 s k v) = true
}.

Lemma keys_distinct : KeyVotedFor <> KeyCurrentTerm.
Proof. done. Qed.

(** * Big-endian encoding *)

Lemma length_be_encode n v : length (be_encode n v) = n.
Proof.
  revert v. induction n as [|n IH]; intros v; simpl; [done|].
  rewrite length_app, IH. simpl. lia.
Qed.

Lemma be_decode_snoc b x : be_decode (b ++ [x]) = be_decode b * 256 + byte_val x.
Proof. unfold be_decode. by rewrite foldl_app. Qed.

Lemma be_decode_encode n v : 0 <= v -> be_decode (be_encode n v) = v mod 256 ^ Z.of_nat n.
Proof.
  revert v. induction n as [|n IH]; intros v Hv; cbn [be_encode].
  { by rewrite Z.mod_1_r. }
  pose proof (Z.mod_pos_bound v 256 ltac:(lia)). pose proof (Z.div_pos v 256 Hv ltac:(lia)).
  rewrite be_decode_snoc, IH, byte_val_of_Z by lia.
  rewrite Nat2Z.inj_succ, Z.pow_succ_r, Z.rem_mul_r by lia. lia.
Qed.

Lemma byte_val_range x : 0 <= byte_val x < 256.
Proof. unfold byte_val. pose proof (Byte.to_N_bounded x). lia. Qed.

Lemma foldl_be b acc :
  foldl (fun acc x => acc * 256 + byte_val x) acc b = acc * 256 ^ zlen b + be_decode b.
Proof.
  unfold be_decode. revert acc. induction b as [|x b IH]; intros acc; cbn [foldl].
  { rewrite zlen_nil. lia. }
  rewrite IH, (IH (0 * 256 + byte_val x)), zlen_cons. zlen_facts.
  rewrite Z.pow_add_r by lia. lia.
Qed.

Lemma be_decode_cons x b : be_decode (x :: b) = byte_val x * 256 ^ zlen b + be_decode b.
Proof. exact (foldl_be b (byte_val x)). Qed.

Lemma be_decode_range b : 0 <= be_decode b < 256 ^ zlen b.
Proof.
  induction b as [|x b IH]; [done|]. rewrite be_decode_cons, zlen_cons. zlen_facts.
  rewrite Z.pow_add_r by lia. pose proof (byte_val_range x). nia.
Qed.

(** Bytewise order is the order of the numbers. *)
Lemma str_leb_decode a b :
  length a = length b -> str_leb a b = (be_decode a <=? be_decode b).
Proof.
  revert b. induction a as [|x a IH]; intros [|y b] Hl; try done.
  cbn [str_leb]. rewrite !be_decode_cons.
  assert (zlen a = zlen b) as -> by (unfold zlen; simpl in Hl; lia).
  pose proof (be_decode_range a) as Ra. pose proof (be_decode_range b) as Rb.
  assert (Hz : zlen a = zlen b) by (unfold zlen; simpl in Hl; lia). rewrite Hz in Ra.
  destruct (Z.ltb_spec (byte_val x) (byte_val y)).
  { symmetry. apply Z.leb_le. nia. }
  destruct (Z.eqb_spec (byte_val x) (byte_val y)) as [->|].
  - rewrite IH by (simpl in Hl; lia). apply eq_true_iff_eq. rewrite !Z.leb_le. lia.
  - symmetry. apply Z.leb_gt. nia.
Qed.

Lemma uint64_roundtrip v : 0 <= v <= max_uint -> bytesToUint64 (uint64ToBytes v) = Ret v.
Proof.
  intros Hv. unfold bytesToUint64, uint64ToBytes, zlen.
  rewrite length_be_encode. simpl (_ <? _). cbv iota.
  rewrite take_ge by (by rewrite length_be_encode).
  rewrite be_decode_encode by lia. unfold max_uint in Hv. rewrite Z.mod_small; [done|lia].
Qed.

(** * The in-memory log keeps the promises *)

Lemma numbered_nil k : numbered k [].
Proof. by intros i e H. Qed.

Lemma numbered_cons k e es : numbered k (e :: es) <-> entry_at k e /\ numbered (k + 1) es.
Proof.
  unfold numbered. split.
  - intros H. split; [by specialize (H O e eq_refl); rewrite Z.add_0_r in H|].
    intros i x Hx. specialize (H (S i) x Hx). by replace (k + 1 + Z.of_nat i) with (k + Z.of_nat (S i)) by lia.
  - intros [He H] [|i] x Hx; simpl in Hx; simplify_eq; [by rewrite Z.add_0_r|].
    specialize (H i x Hx). by replace (k + Z.of_nat (S i)) with (k + 1 + Z.of_nat i) by lia.
Qed.

Lemma numbered_app k l es :
  numbered k (l ++ es) <-> numbered k l /\ numbered (k + zlen l) es.
Proof.
  revert k. induction l as [|e l IH]; intros k; simpl.
  - rewrite zlen_nil, Z.add_0_r. pose proof (numbered_nil k). tauto.
  - rewrite !numbered_cons, IH, zlen_cons. replace (k + (1 + zlen l)) with (k + 1 + zlen l) by lia.
    tauto.
Qed.

Lemma numbered_take k l n : numbered k l -> numbered k (take n l).
Proof.
  intros H i e Hi. apply H. by apply lookup_take_Some in Hi as [? _].
Qed.

Record inmem_repr (s : InmemLogStore) (l : list LogEntry) : Prop := mk_repr {
  re_num : numbered 1 l;
  re_entries : forall i, entries s !! i = if 1 <=? i then l !! Z.to_nat (i - 1) else None;
  re_low : lowIdx s = match l with [] => 0 | _ => 1 end;
  re_high : highIdx s = zlen l
}.

Lemma inmem_store_repr s l e :
  inmem_repr s l -> entry_at (zlen l + 1) e -> inmem_repr (inmem_store s e) (l ++ [e]).
Proof.
  intros [Hn He Hl Hh] Ht. pose proof Ht as [Hi _]. zlen_facts. constructor; simpl.
  - apply numbered_app. split; [done|]. apply numbered_cons.
    split; [by replace (1 + zlen l) with (zlen l + 1) by lia|apply numbered_nil].
  - intros i. rewrite Hi. destruct (decide (i = zlen l + 1)) as [->|Hne].
    + rewrite lookup_insert_eq. destruct (Z.leb_spec 1 (zlen l + 1)); [|lia].
      symmetry. apply list_lookup_middle. unfold zlen in *. lia.
    + rewrite lookup_insert_ne, He by done. destruct (Z.leb_spec 1 i); [|done].
      destruct (Z.le_gt_cases i (zlen l)).
      * by rewrite lookup_app_l by (unfold zlen in *; lia).
      * rewrite !lookup_ge_None_2; [done|rewrite ?length_app; simpl; unfold zlen in *; lia..].
  - rewrite Hi, Hl. destruct l as [|x l]; [done|]. simpl (_ ++ _).
    destruct (Z.ltb_spec (zlen (x :: l) + 1) 1); [lia|done].
  - rewrite Hh, Hi, zlen_app. by destruct (Z.ltb_spec (zlen l) (zlen l + 1)); [|lia].
Qed.

Lemma inmem_stores_repr es : forall s l,
  inmem_repr s l -> numbered (zlen l + 1) es -> inmem_repr (foldl inmem_store s es) (l ++ es).
Proof.
  induction es as [|e es IH]; intros s l Hr Hn; simpl; [by rewrite app_nil_r|].
  apply numbered_cons in Hn as [He Hn].
  replace (l ++ e :: es) with ((l ++ [e]) ++ es) by (by rewrite <-app_assoc).
  apply IH; [by apply inmem_store_repr|]. by rewrite zlen_app.
Qed.

Lemma delete_loop_spec fuel : forall m i max,
  0 <= i -> max < max_uint -> (Z.to_nat (max - i + 1) <= fuel)%nat ->
  exists m', delete_loop fuel m i max = Ret m' /\
    forall j, m' !! j = if (i <=? j) && (j <=? max) then None else m !! j.
Proof.
  induction fuel as [|fuel IH]; intros m i max Hi Hm Hf; cbn [delete_loop];
    (destruct (Z.leb_spec i max) as [Hle|Hgt]; [|
      exists m; split; [done|]; intros j;
      destruct (Z.leb_spec i j), (Z.leb_spec j max); simpl; done || lia]); [lia|].
  rewrite uwrap64_small by lia.
  destruct (IH (delete i m) (i + 1) max) as (m'&->&Hm'); [lia..|].
  exists m'. split; [done|]. intros j. rewrite Hm'.
  destruct (decide (j = i)) as [->|Hne].
  - rewrite lookup_delete_eq. destruct (Z.leb_spec i i), (Z.leb_spec i max); try lia. by destruct (_ && _).
  - rewrite lookup_delete_ne by done.
    destruct (Z.leb_spec (i + 1) j), (Z.leb_spec i j), (Z.leb_spec j max); simpl; done || lia.
Qed.

Lemma high_foldl ks h :
  let r := foldl (fun high idx => if high <? idx then idx else high) h ks in
  (r = h \/ r ∈ ks) /\ h <= r /\ forall j, j ∈ ks -> j <= r.
Proof.
  revert h. induction ks as [|k ks IH]; intros h; cbn [foldl].
  { split_and!; [by left|done|]. by intros j ?%not_elem_of_nil. }
  destruct (IH (if h <? k then k else h)) as (H1&H2&H3). cbv zeta in *.
  destruct (Z.ltb_spec h k).
  - split_and!; [|lia|].
    + destruct H1 as [->|H1]; right; [apply elem_of_cons; by left|apply elem_of_cons; by right].
    + intros j [->|Hj]%elem_of_cons; [lia|by apply H3].
  - split_and!; [|lia|].
    + destruct H1 as [->|H1]; [by left|right; apply elem_of_cons; by right].
    + intros j [->|Hj]%elem_of_cons; [lia|by apply H3].
Qed.

Lemma low_foldl ks h :
  (forall j, j ∈ ks -> 1 <= j) -> 0 <= h ->
  let r := foldl (fun low idx => if (low =? 0) || (idx <? low) then idx else low) h ks in
  (r = h \/ r ∈ ks) /\ (h <> 0 -> 1 <= r <= h) /\ forall j, j ∈ ks -> 1 <= r <= j.
Proof.
  revert h. induction ks as [|k ks IH]; intros h Hp Hh; cbn [foldl].
  { split_and!; [by left|lia|]. by intros j ?%not_elem_of_nil. }
  pose proof (Hp k (list_elem_of_here _ _)) as Hk.
  assert (Hp' : forall j, j ∈ ks -> 1 <= j) by (intros j Hj; apply Hp; by right).
  set (h' := if (h =? 0) || (k <? h) then k else h).
  assert (Hh' : (h' = k \/ h' = h) /\ 1 <= h' <= k /\ (h <> 0 -> h' <= h)).
  { unfold h'. destruct (Z.eqb_spec h 0), (Z.ltb_spec k h); simpl; split_and!; lia. }
  destruct (IH h' Hp') as (H1&H2&H3); [lia|]. cbv zeta in *. clear IH. clearbody h'.
  split_and!; [|lia|].
  - destruct H1 as [->|H1]; [destruct Hh' as [[-> | ->] _]|]; [right; by left|by left|right; by right].
  - intros j [->|Hj]%elem_of_cons; [lia|by apply H3].
Qed.

Lemma high_of_spec keys n :
  0 <= n -> (forall j, j ∈ keys <-> 1 <= j <= n) -> high_of keys = n.
Proof.
  intros Hn Hk. destruct (high_foldl keys 0) as (H1&H2&H3). fold (high_of keys) in *.
  destruct (Z.eq_dec n 0) as [->|Hn0].
  - destruct H1 as [H1|H1]; [done|]. apply Hk in H1. lia.
  - pose proof (H3 n (proj2 (Hk n) ltac:(lia))).
    destruct H1 as [H1|H1]; [lia|]. apply Hk in H1. lia.
Qed.

Lemma low_of_spec keys n :
  0 <= n -> (forall j, j ∈ keys <-> 1 <= j <= n) -> low_of keys = if n =? 0 then 0 else 1.
Proof.
  intros Hn Hk. destruct (low_foldl keys 0) as (H1&H2&H3); [intros j Hj; apply Hk in Hj; lia|lia|].
  fold (low_of keys) in *. destruct (Z.eqb_spec n 0) as [->|Hn0].
  - destruct H1 as [H1|H1]; [done|]. apply Hk in H1. lia.
  - pose proof (H3 1 (proj2 (Hk 1) ltac:(lia))). lia.
Qed.

Lemma inmem_delete_repr s l k :
  inmem_repr s l -> 1 <= k <= zlen l -> zlen l < max_uint ->
  exists s', inmem_DeleteRange s k (zlen l) = Ret s' /\
    inmem_repr s' (take (Z.to_nat (k - 1)) l).
Proof.
  intros [Hn He Hl Hh] Hk Hm. unfold inmem_DeleteRange.
  destruct (delete_loop_spec (Z.to_nat (zlen l - k + 1)) (entries s) k (zlen l))
    as (m&->&Hml); [lia..|].
  unfold mbind. simpl. eexists. split; [done|].
  assert (Hlook : forall i, m !! i =
    if 1 <=? i then take (Z.to_nat (k - 1)) l !! Z.to_nat (i - 1) else None).
  { intros i. rewrite Hml, He. destruct (Z.leb_spec 1 i); [|by destruct (_ && _)].
    destruct (Z.leb_spec k i), (Z.leb_spec i (zlen l)); simpl.
    - by rewrite lookup_take_ge by lia.
    - rewrite lookup_take_ge by lia. apply lookup_ge_None_2. unfold zlen in *. lia.
    - by rewrite lookup_take_lt by lia.
    - lia. }
  assert (Hkeys : forall j, j ∈ (map_to_list m).*1 <-> 1 <= j <= k - 1).
  { intros j. rewrite list_elem_of_fmap. split.
    - intros ([j' e]&->&Hj%elem_of_map_to_list). rewrite Hlook in Hj. simpl.
      destruct (Z.leb_spec 1 j'); [|done]. apply lookup_take_Some in Hj as [_ ?]. lia.
    - intros Hj. destruct (m !! j) as [e|] eqn:E.
      + exists (j, e). split; [done|]. by apply elem_of_map_to_list.
      + rewrite Hlook in E. destruct (Z.leb_spec 1 j); [|lia].
        rewrite lookup_take_lt in E by lia. apply lookup_ge_None_1 in E. unfold zlen in *. lia. }
  constructor; simpl; [by apply numbered_take|done| |].
  - rewrite (low_of_spec _ (k - 1)); [|lia|done].
    destruct (Z.eqb_spec (k - 1) 0) as [->|]; [done|].
    destruct (take (Z.to_nat (k - 1)) l) eqn:E; [|done].
    apply (f_equal length) in E. rewrite length_take in E. unfold zlen in *. simpl in E. lia.
  - rewrite (high_of_spec _ (k - 1)); [|lia|done]. rewrite zlen_take. lia.
Qed.

#[export] Program Instance InmemLogStore_spec : LogStoreSpec InmemLogStore := {
  repr := inmem_repr
}.
Next Obligation. by intros s l []. Qed.
Next Obligation. intros s l []. simpl. congruence. Qed.
Next Obligation.
  intros s l i e [_ He _ _] Hi Hl. simpl. rewrite He.
  destruct (Z.leb_spec 1 i); [|lia]. by rewrite Hl.
Qed.
Next Obligation.
  intros s l i [_ He _ _] Hi Hl. simpl. rewrite He.
  destruct (Z.leb_spec 1 i); [|by eexists _, _].
  rewrite lookup_ge_None_2 by (unfold zlen in *; lia). by eexists _, _.
Qed.
Next Obligation.
  intros s l es Hr Hn _. right. eexists. split; [done|]. by apply inmem_stores_repr.
Qed.
Next Obligation. intros s l k Hr Hk Hm. right. by apply inmem_delete_repr. Qed.

#[export] Instance InmemLogStore_reliable : LogStoreReliable InmemLogStore.
Proof.
  split; [done|]. intros s l k Hr Hk Hm.
  by destruct (inmem_delete_repr s l k Hr Hk Hm) as (s'&Hs'&_); simpl; rewrite Hs'.
Qed.

Lemma inmem_new_repr : inmem_repr NewInmemLogStore [].
Proof.
  constructor; simpl; [apply numbered_nil| |done|done].
  intros i. rewrite lookup_empty. by destruct (1 <=? i).
Qed.

Lemma inmem_Get_insert (s : InmemStableStore) k v : inmem_Get (<[k := v]> s) k = v.
Proof. unfold inmem_Get. by rewrite lookup_insert_eq. Qed.

Lemma inmem_Get_insert_ne (s : InmemStableStore) k k' v :
  k' <> k -> inmem_Get (<[k := v]> s) k' = inmem_Get s k'.
Proof. intros Hk. unfold inmem_Get. by rewrite lookup_insert_ne. Qed.

#[export] Instance InmemStableStore_spec : StableStoreSpec InmemStableStore.
Proof.
  split; intros s k v; right; eexists; (split; [reflexivity|]); simpl.
  - rewrite inmem_Get_insert. split; [done|]. intros k' Hk. by rewrite inmem_Get_insert_ne.
  - rewrite inmem_Get_insert. split.
    + intros Hv. rewrite <-(uint64_roundtrip v Hv). unfold zlen, uint64ToBytes.
      by rewrite length_be_encode.
    + intros k' Hk. by rewrite inmem_Get_insert_ne.
Qed.

#[export] Instance InmemStableStore_reliable : StableStoreReliable InmemStableStore.
Proof. by split. Qed.

Lemma delete_loop_max fuel m i : 0 <= i <= max_uint -> delete_loop fuel m i max_uint = NoFuel.
Proof.
  revert m i. induction fuel as [|fuel IH]; intros m i Hi; cbn [delete_loop];
    (destruct (Z.leb_spec i max_uint); [|lia]); [done|].
  apply IH, uwrap64_range.
Qed.

(** * Properties *)

(** The in-memory log does what the node asks of a log. Replacing everything
    from index [k] on by new entries, with [DeleteRange] and then [StoreLogs], leaves
    exactly the first [k - 1] entries followed by the new ones. *)
Theorem inmem_replace_suffix s l k es :
  inmem_repr s l -> 1 <= k <= zlen l -> zlen l < max_uint -> numbered k es ->
  exists s1 s2, DeleteRange s k (zlen l) = Ret s1 /\ StoreLogs s1 es = Ret s2 /\
    inmem_repr s2 (take (Z.to_nat (k - 1)) l ++ es).
Proof.
  intros Hr Hk Hm Hn. destruct (inmem_delete_repr s l k Hr Hk Hm) as (s1&Hd&Hr1).
  eexists s1, _. split; [exact Hd|]. split; [done|].
  apply inmem_stores_repr; [done|]. rewrite zlen_take.
  by replace (Z.min (Z.of_nat (Z.to_nat (k - 1))) (zlen l) + 1) with k by lia.
Qed.

Definition demo_entries : list LogEntry :=
  [mkLog 1 1 []; mkLog 2 1 (bytes_of "a"); mkLog 3 1 (bytes_of "b")].
Definition demo_store : InmemLogStore := foldl inmem_store NewInmemLogStore demo_entries.

Lemma demo_numbered : numbered 1 demo_entries.
Proof. repeat (apply numbered_cons; split; [done|]). apply numbered_nil. Qed.
Lemma demo_store_repr : inmem_repr demo_store demo_entries.
Proof. apply (inmem_stores_repr demo_entries _ []); [apply inmem_new_repr|apply demo_numbered]. Qed.

Lemma inmem_replace_suffix_witness :
  exists s1 s2, DeleteRange demo_store 2 3 = Ret s1 /\ StoreLogs s1 [mkLog 2 2 []] = Ret s2 /\
    inmem_repr s2 [mkLog 1 1 []; mkLog 2 2 []].
Proof.
  exact (inmem_replace_suffix demo_store demo_entries 2 [mkLog 2 2 []] demo_store_repr
    ltac:(by_compute) ltac:(by_compute)
    ltac:(apply numbered_cons; split; [done|apply numbered_nil])).
Defined.

(** The eight-byte keys of the log keep their order. A [uint64] is read back from
    its encoding, and the bytewise order of two encodings is the order of the
    numbers, so a cursor over the keys visits the log by index. *)
Theorem uint64ToBytes_order v w :
  0 <= v <= max_uint -> 0 <= w <= max_uint ->
  bytesToUint64 (uint64ToBytes v) = Ret v /\ zlen (uint64ToBytes v) = 8 /\
  str_leb (uint64ToBytes v) (uint64ToBytes w) = (v <=? w).
Proof.
  intros Hv Hw. split_and!; [by apply uint64_roundtrip| |];
    unfold uint64ToBytes; [by unfold zlen; rewrite length_be_encode|].
  rewrite str_leb_decode by (by rewrite !length_be_encode). rewrite !be_decode_encode by lia. unfold max_uint in *.
  by rewrite !Z.mod_small by lia.
Qed.

Lemma uint64ToBytes_order_witness :
  bytesToUint64 (uint64ToBytes 255) = Ret 255 /\ zlen (uint64ToBytes 255) = 8 /\
  str_leb (uint64ToBytes 255) (uint64ToBytes 256) = true.
Proof. exact (uint64ToBytes_order 255 256 ltac:(by_compute) ltac:(by_compute)). Defined.

(** [DeleteRange] of the in-memory log never returns when asked to delete up to
    the largest index: [i <= max] cannot become false. *)
Theorem inmem_DeleteRange_max_loops s fuel i :
  0 <= i <= max_uint -> delete_loop fuel (entries s) i max_uint = NoFuel.
Proof. apply delete_loop_max. Qed.

Lemma inmem_DeleteRange_max_loops_witness :
  delete_loop 1000 (entries demo_store) 2 max_uint = NoFuel.
Proof. exact (inmem_DeleteRange_max_loops demo_store 1000 2 ltac:(by_compute)). Defined.
