(* ===== verification/Future.v ===== *)
(** The result of a proposal ([internal/raft/future.go]): a future is resolved by the
    first [respond], whichever of the apply loop, the timeout, the loss of
    leadership or the shutdown makes it, and every read sees that result. *)
From S2P Require Import Prelude.

(** The errors of the package, and that of a failed store. *)
Inductive apply_error : Type :=
| ErrNotLeader
| ErrShutdown
| ErrTimeout
| ErrLeaderLost
| ErrStoreLog (err : string).

#[export] Instance apply_error_eq_dec : EqDecision apply_error.
Proof. solve_decision. Defined.

Section future.
  (** What [FSM.Apply] returns: an [interface{}], here an [option] of the type of
      the machine's results. *)
  Context {R : Type}.

(** [errCh] is a channel of capacity 1: its buffer. An [error] is [option
    apply_error], [None] for [nil]. *)
Record ApplyFuture : Type := mkFuture {
  errCh : option (option apply_error);
  f_response : option R;
  respondOnce : bool;
  readOnce : bool;
  f_err : option apply_error
}.

Definition newApplyFuture : ApplyFuture := mkFuture None None false false None.

(** The send cannot block: [respondOnce] guards the only one. *)
Definition respond (f : ApplyFuture) (err : option apply_error) (resp : option R) : ApplyFuture :=
  if respondOnce f then f
  else mkFuture (Some err) resp true (readOnce f) (f_err f).

(** [Error()]: [None] when the receive blocks. *)
Definition Error (f : ApplyFuture) : option (ApplyFuture * option apply_error) :=
  if readOnce f then Some (f, f_err f)
  else
    match errCh f with
    | Some e => Some (mkFuture None (f_response f) (respondOnce f) true e, e)
    | None => None
    end.

Definition Response (f : ApplyFuture) : option R := f_response f.

(** The calls made on a future, in the order in which its locks let them in. *)
Inductive call : Type :=
| CRespond (err : option apply_error) (resp : option R)
| CError.

(** The state, and the results the [Error] calls returned. A blocked [Error] call
    leaves the state alone: its goroutine waits. *)
Definition step_future (p : ApplyFuture * list (option apply_error)) (c : call) :=
  match c with
  | CRespond err resp => (respond (fst p) err resp, snd p)
  | CError =>
      match Error (fst p) with
      | Some (f', e) => (f', snd p ++ [e])
      | None => p
      end
  end.

Definition run_future (cs : list call) : ApplyFuture * list (option apply_error) :=
  foldl step_future (newApplyFuture, []) cs.

(** The first [respond] of a sequence of calls. *)
Fixpoint first_respond (cs : list call) : option (option apply_error * option R) :=
  match cs with
  | [] => None
  | CRespond err resp :: _ => Some (err, resp)
  | CError :: r => first_respond r
  end.

(** ** Correctness *)

Record future_inv (first : option (option apply_error * option R))
    (p : ApplyFuture * list (option apply_error)) : Prop := mk_future_inv {
  fi_once : respondOnce (fst p) = match first with Some _ => true | None => false end;
  fi_chan : errCh (fst p) =
    if readOnce (fst p) then None else match first with Some q => Some (fst q) | None => None end;
  fi_resp : Response (fst p) = match first with Some q => snd q | None => None end;
  fi_reads : forall e, e ∈ snd p -> exists q, first = Some q /\ e = fst q;
  fi_read : readOnce (fst p) = true -> exists q, first = Some q /\ f_err (fst p) = fst q
}.

Lemma first_respond_snoc cs c :
  first_respond (cs ++ [c]) =
  match first_respond cs with
  | Some q => Some q
  | None => match c with CRespond err resp => Some (err, resp) | CError => None end
  end.
Proof. induction cs as [|[err resp|] cs IH]; simpl; [by destruct c|done|done]. Qed.

Lemma future_inv_step cs c :
  future_inv (first_respond cs) (run_future cs) ->
  future_inv (first_respond (cs ++ [c])) (run_future (cs ++ [c])).
Proof.
  rewrite first_respond_snoc. unfold run_future. rewrite foldl_app. cbn [foldl].
  generalize (foldl step_future (newApplyFuture, []) cs) as p. intros [f es].
  destruct f as [ch rs once rd er]. generalize (first_respond cs) as first.
  intros first [H1 H2 H3 H4 H5]. unfold Response in *. simpl in *.
  destruct c as [err resp|]; simpl.
  - unfold respond. simpl. destruct first as [q|]; subst once; [by constructor|].
    destruct rd; [by destruct H5 as (?&?&?)|].
    constructor; simpl; try done. intros e He. by destruct (H4 e He) as (?&?&?).
  - unfold Error. simpl. destruct rd.
    + destruct H5 as (q&->&->); [done|]. constructor; simpl; eauto.
      intros e [He | ->%list_elem_of_singleton]%elem_of_app; eauto.
    + destruct first as [q|]; subst ch; [|by constructor].
      constructor; simpl; eauto.
      intros e [He | ->%list_elem_of_singleton]%elem_of_app; eauto.
Qed.

Lemma future_inv_run cs : future_inv (first_respond cs) (run_future cs).
Proof.
  induction cs as [|c cs IH] using rev_ind; [|by apply future_inv_step].
  constructor; simpl; try done. by intros e ?%not_elem_of_nil.
Qed.

(** * Properties *)

(** Only the first response counts. However the calls on a future interleave,
    every [Error] that returns gives the error of the first [respond], [Response]
    is that call's response, an [Error] returns once there was a [respond], and
    until then it blocks. *)
Theorem future_first_wins (cs : list call) :
  let p := run_future cs in
  (forall e, e ∈ snd p -> exists q, first_respond cs = Some q /\ e = fst q) /\
  Response (fst p) = match first_respond cs with Some q => snd q | None => None end /\
  match first_respond cs with
  | Some q => exists f, Error (fst p) = Some (f, fst q)
  | None => Error (fst p) = None
  end.
Proof.
  destruct (future_inv_run cs) as [H1 H2 H3 H4 H5]. split_and!; [done|done|].
  unfold Error. destruct (readOnce (fst (run_future cs))) eqn:Er.
  - destruct H5 as (q&Hq&He); [done|]. rewrite Hq, He. by eexists.
  - rewrite H2. destruct (first_respond cs); [by eexists|done].
Qed.

End future.
Arguments ApplyFuture : clear implicits.
Arguments newApplyFuture {R}.
