(* ===== verification/Config.v ===== *)
(** The configuration of a Raft node ([internal/raft/config.go]) and its check. *)
From S2P Require Import Prelude.

Record PeerConfig : Type := mkPeer { PeerID : text; Address : text }.

#[export] Instance peerconfig_eq_dec : EqDecision PeerConfig.
Proof. solve_decision. Defined.

(** Durations are nanoseconds; [None] is a nil interface. The logger is left out. *)
Record Config (L S F : Type) : Type := mkConfig {
  ServerID : text;
  Peers : list PeerConfig;
  HeartbeatInterval : Z;
  ElectionTimeoutMin : Z;
  ElectionTimeoutMax : Z;
  CLogStore : option L;
  CStableStore : option S;
  CFSM : option F
}.
Arguments mkConfig {L S F}.
Arguments ServerID {L S F}.
Arguments Peers {L S F}.
Arguments HeartbeatInterval {L S F}.
Arguments ElectionTimeoutMin {L S F}.
Arguments ElectionTimeoutMax {L S F}.
Arguments CLogStore {L S F}.
Arguments CStableStore {L S F}.
Arguments CFSM {L S F}.

Definition Millisecond : Z := 1000000.

(** [ErrConfigMissingField] is a string type. *)
Definition ErrConfigMissingField : Type := string.

Section config.
  Context {L S F : Type}.
  Implicit Types c : Config L S F.

Definition DefaultConfig : Config L S F :=
  mkConfig [] [] (150 * Millisecond) (1000 * Millisecond) (2000 * Millisecond) None None None.

Definition is_none {A} (o : option A) : bool := match o with None => true | Some _ => false end.

(** The search loop of [validate]. *)
Fixpoint find_self (id : text) (ps : list PeerConfig) : bool :=
  match ps with
  | [] => false
  | p :: ps' => if bool_decide (PeerID p = id) then true else find_self id ps'
  end.

Definition validate c : outcome ErrConfigMissingField unit :=
  if bool_decide (ServerID c = []) then Err "ServerID"%string
  else if zlen (Peers c) =? 0 then Err "Peers"%string
  else if is_none (CLogStore c) then Err "LogStore"%string
  else if is_none (CStableStore c) then Err "StableStore"%string
  else if is_none (CFSM c) then Err "FSM"%string
  else if HeartbeatInterval c <=? 0 then Err "HeartbeatInterval"%string
  else if (ElectionTimeoutMin c <=? 0) || (ElectionTimeoutMax c <=? ElectionTimeoutMin c)
  then Err "ElectionTimeout (invalid range)"%string
  else if negb (find_self (ServerID c) (Peers c)) then Err "ServerID not found in Peers list"%string
  else Ret tt.

(** [rand.Int63n] panics on a bound that is not positive. *)
Definition randomElectionTimeout c (Int63n : Z -> Z) : outcome Empty_set Z :=
  let min := ElectionTimeoutMin c in
  let max := ElectionTimeoutMax c in
  let delta := (max -ᵢ min)%go in
  if delta <=? 0 then Panic else Ret (min +ᵢ Int63n delta)%go.

Record config_ok c : Prop := mk_config_ok {
  co_id : ServerID c <> [];
  co_log : is_Some (CLogStore c);
  co_stable : is_Some (CStableStore c);
  co_fsm : is_Some (CFSM c);
  co_heartbeat : 0 < HeartbeatInterval c;
  co_min : 0 < ElectionTimeoutMin c;
  co_max : ElectionTimeoutMin c < ElectionTimeoutMax c;
  co_self : exists p, p ∈ Peers c /\ PeerID p = ServerID c
}.

Lemma find_self_spec id ps : find_self id ps = true <-> exists p, p ∈ ps /\ PeerID p = id.
Proof.
  induction ps as [|p ps IH]; simpl.
  { split; [done|]. by intros (?&?%not_elem_of_nil&_). }
  case_bool_decide as Hp.
  - split; [|done]. intros _. exists p. split; [by left|done].
  - rewrite IH. split; intros (q&Hq&?); exists q; (split; [|done]); [by right|].
    by apply elem_of_cons in Hq as [->|].
Qed.

Lemma is_none_false {A} (o : option A) : is_none o = false <-> is_Some o.
Proof. destruct o; simpl; split; try done; eauto. Qed.

Lemma validate_ok c : validate c = Ret tt <-> config_ok c.
Proof.
  unfold validate. split.
  - case_bool_decide; [done|]. destruct (Z.eqb_spec (zlen (Peers c)) 0); [done|].
    destruct (is_none (CLogStore c)) eqn:E1; [done|].
    destruct (is_none (CStableStore c)) eqn:E2; [done|].
    destruct (is_none (CFSM c)) eqn:E3; [done|].
    destruct (Z.leb_spec (HeartbeatInterval c) 0); [done|].
    destruct (Z.leb_spec (ElectionTimeoutMin c) 0),
      (Z.leb_spec (ElectionTimeoutMax c) (ElectionTimeoutMin c)); try done. simpl.
    destruct (find_self _ _) eqn:E4; [|done]. intros _.
    constructor; first [by apply is_none_false|by apply find_self_spec|done|lia].
  - intros [H1 H2%is_none_false H3%is_none_false H4%is_none_false H5 H6 H7 H8].
    rewrite bool_decide_false, H2, H3, H4 by done.
    pose proof H8 as (p&Hp&_). apply find_self_spec in H8. rewrite H8.
    destruct (Z.eqb_spec (zlen (Peers c)) 0) as [E|];
      [apply zlen_zero in E; rewrite E in Hp; by apply not_elem_of_nil in Hp|].
    bool_cases; [lia|]. by destruct (Z.leb_spec (ElectionTimeoutMin c) 0),
      (Z.leb_spec (ElectionTimeoutMax c) (ElectionTimeoutMin c)); try lia.
Qed.

(** * Properties *)

(** A configuration is accepted exactly when the identifier is set and is one
    of the peers, the two stores and the state machine are there, and the timing
    values make sense (so the random election timeout has a range to pick from). *)
Theorem validate_iff c : validate c = Ret tt <-> config_ok c.
Proof. apply validate_ok. Qed.

(** The randomized timeout of an accepted configuration is drawn without a
    panic and lies in the configured range, for every number generator. *)
Theorem randomElectionTimeout_range c Int63n :
  validate c = Ret tt -> ElectionTimeoutMax c <= max_int ->
  (forall n, 0 < n -> 0 <= Int63n n < n) ->
  exists t, randomElectionTimeout c Int63n = Ret t /\
    ElectionTimeoutMin c <= t < ElectionTimeoutMax c.
Proof.
  intros [_ _ _ _ _ Hmin Hmax _]%validate_ok Hm Hr.
  unfold randomElectionTimeout, max_int in *.
  rewrite (wrap64_small (_ - _)) by (unfold max_int; lia).
  destruct (Z.leb_spec (ElectionTimeoutMax c - ElectionTimeoutMin c) 0); [lia|].
  specialize (Hr (ElectionTimeoutMax c - ElectionTimeoutMin c) ltac:(lia)).
  eexists. split; [done|]. rewrite wrap64_small by (unfold max_int; lia). lia.
Qed.

End config.

Definition demo_config : Config unit unit unit :=
  mkConfig (bytes_of "n1") [mkPeer (bytes_of "n1") (bytes_of "localhost:1")] (150 * Millisecond)
    (1000 * Millisecond) (2000 * Millisecond) (Some tt) (Some tt) (Some tt).

Lemma randomElectionTimeout_range_witness :
  exists t, randomElectionTimeout demo_config (fun n => n / 2) = Ret t /\
    ElectionTimeoutMin demo_config <= t < ElectionTimeoutMax demo_config.
Proof.
  refine (randomElectionTimeout_range demo_config (fun n => n / 2) _ _ _).
  - by_compute.
  - by_compute.
  - intros n Hn. split; [apply Z.div_pos; lia|apply Z.div_lt; lia].
Defined.
