(* ===== verification/Node.v ===== *)
(** The state of a Raft node ([internal/raft/raft.go], [internal/raft/types.go])
    and the helpers its handlers share: persisting and restoring the term and the
    vote, stepping down, and the last log entry. *)
From S2P Require Import Prelude Stores Future Config.

(** * Messages *)

Inductive ServerState : Type := Follower | Candidate | Leader.

#[export] Instance serverstate_eq_dec : EqDecision ServerState.
Proof. solve_decision. Defined.

Record AppendEntriesRequest : Type := mkAE {
  ae_Term : Z; ae_LeaderID : text; ae_PrevLogIndex : Z; ae_PrevLogTerm : Z;
  ae_Entries : list LogEntry; ae_LeaderCommit : Z
}.
Record AppendEntriesResponse : Type := mkAER {
  aer_Term : Z; aer_Success : bool; aer_ConflictTerm : Z; aer_ConflictIndex : Z
}.
Record RequestVoteRequest : Type := mkRV {
  rv_Term : Z; rv_CandidateID : text; rv_LastLogIndex : Z; rv_LastLogTerm : Z
}.
Record RequestVoteResponse : Type := mkRVR { rvr_Term : Z; rvr_VoteGranted : bool }.

#[export] Instance ae_eq_dec : EqDecision AppendEntriesRequest.
Proof. solve_decision. Defined.
#[export] Instance aer_eq_dec : EqDecision AppendEntriesResponse.
Proof. solve_decision. Defined.
#[export] Instance rv_eq_dec : EqDecision RequestVoteRequest.
Proof. solve_decision. Defined.
#[export] Instance rvr_eq_dec : EqDecision RequestVoteResponse.
Proof. solve_decision. Defined.

(** The replication state of one peer; [triggerCh] is a channel of capacity 1:
    whether it holds a token. *)
Record peerState : Type := mkPeerState {
  ps_id : text; ps_addr : text; nextIndex : Z; matchIndex : Z; triggerCh : bool
}.

(** The user's state machine: [None] as a result is [nil]. *)
Class FSM (F R : Type) := { fsm_Apply : F -> text -> outcome Empty_set (F * option R) }.

(** A client's request: the command and (the address of) its future. *)
Record applyRequest : Type := mkApplyRequest { req_data : text; req_future : nat }.

(** * The node

    [L] and [Sb] are the types of the two stores, [F] and [R] those of the state
    machine and its results. [futures] is the heap of the futures that clients and
    the node share; [commitNotifyCh] is a channel of capacity 1 (whether it holds a
    token), [shutdownCh] says whether the channel is closed. [mu] makes each
    function below one step where it holds the lock. *)
Record RaftNode (L Sb F R : Type) : Type := mkNode {
  config : Config L Sb F;
  currentTerm : Z;
  votedFor : text;
  logStore : L;
  stableStore : Sb;
  state : ServerState;
  commitIndex : Z;
  lastApplied : Z;
  peers : gmap (list byte) peerState;
  leaderID : text;
  leaderAddr : text;
  fsm : F;
  pendingFutures : gmap Z nat;
  futures : gmap nat (ApplyFuture R);
  applyCh : list applyRequest;
  commitNotifyCh : bool;
  shutdownCh : bool
}.
Arguments mkNode {L Sb F R}.
Arguments config {L Sb F R}.
Arguments currentTerm {L Sb F R}.
Arguments votedFor {L Sb F R}.
Arguments logStore {L Sb F R}.
Arguments stableStore {L Sb F R}.
Arguments state {L Sb F R}.
Arguments commitIndex {L Sb F R}.
Arguments lastApplied {L Sb F R}.
Arguments peers {L Sb F R}.
Arguments leaderID {L Sb F R}.
Arguments leaderAddr {L Sb F R}.
Arguments fsm {L Sb F R}.
Arguments pendingFutures {L Sb F R}.
Arguments futures {L Sb F R}.
Arguments applyCh {L Sb F R}.
Arguments commitNotifyCh {L Sb F R}.
Arguments shutdownCh {L Sb F R}.

Section node.
  Context {L Sb F R : Type} `{LogStore L} `{StableStore Sb}.
  Implicit Types r : RaftNode L Sb F R.

(** ** Assignments *)

Definition set_currentTerm (v : Z) r : RaftNode L Sb F R :=
  mkNode (config r) v (votedFor r) (logStore r) (stableStore r) (state r) (commitIndex r)
    (lastApplied r) (peers r) (leaderID r) (leaderAddr r) (fsm r) (pendingFutures r)
    (futures r) (applyCh r) (commitNotifyCh r) (shutdownCh r).
Definition set_votedFor (v : text) r : RaftNode L Sb F R :=
  mkNode (config r) (currentTerm r) v (logStore r) (stableStore r) (state r)
    (commitIndex r) (lastApplied r) (peers r) (leaderID r) (leaderAddr r) (fsm r)
    (pendingFutures r) (futures r) (applyCh r) (commitNotifyCh r) (shutdownCh r).
Definition set_logStore (v : L) r : RaftNode L Sb F R :=
  mkNode (config r) (currentTerm r) (votedFor r) v (stableStore r) (state r)
    (commitIndex r) (lastApplied r) (peers r) (leaderID r) (leaderAddr r) (fsm r)
    (pendingFutures r) (futures r) (applyCh r) (commitNotifyCh r) (shutdownCh r).
Definition set_stableStore (v : Sb) r : RaftNode L Sb F R :=
  mkNode (config r) (currentTerm r) (votedFor r) (logStore r) v (state r) (commitIndex r)
    (lastApplied r) (peers r) (leaderID r) (leaderAddr r) (fsm r) (pendingFutures r)
    (futures r) (applyCh r) (commitNotifyCh r) (shutdownCh r).
Definition set_state (v : ServerState) r : RaftNode L Sb F R :=
  mkNode (config r) (currentTerm r) (votedFor r) (logStore r) (stableStore r) v
    (commitIndex r) (lastApplied r) (peers r) (leaderID r) (leaderAddr r) (fsm r)
    (pendingFutures r) (futures r) (applyCh r) (commitNotifyCh r) (shutdownCh r).
Definition set_commitIndex (v : Z) r : RaftNode L Sb F R :=
  mkNode (config r) (currentTerm r) (votedFor r) (logStore r) (stableStore r) (state r) v
    (lastApplied r) (peers r) (leaderID r) (leaderAddr r) (fsm r) (pendingFutures r)
    (futures r) (applyCh r) (commitNotifyCh r) (shutdownCh r).
Definition set_lastApplied (v : Z) r : RaftNode L Sb F R :=
  mkNode (config r) (currentTerm r) (votedFor r) (logStore r) (stableStore r) (state r)
    (commitIndex r) v (peers r) (leaderID r) (leaderAddr r) (fsm r) (pendingFutures r)
    (futures r) (applyCh r) (commitNotifyCh r) (shutdownCh r).
Definition set_peers (v : gmap (list byte) peerState) r : RaftNode L Sb F R :=
  mkNode (config r) (currentTerm r) (votedFor r) (logStore r) (stableStore r) (state r)
    (commitIndex r) (lastApplied r) v (leaderID r) (leaderAddr r) (fsm r)
    (pendingFutures r) (futures r) (applyCh r) (commitNotifyCh r) (shutdownCh r).
Definition set_leaderID (v : text) r : RaftNode L Sb F R :=
  mkNode (config r) (currentTerm r) (votedFor r) (logStore r) (stableStore r) (state r)
    (commitIndex r) (lastApplied r) (peers r) v (leaderAddr r) (fsm r) (pendingFutures r)
    (futures r) (applyCh r) (commitNotifyCh r) (shutdownCh r).
Definition set_leaderAddr (v : text) r : RaftNode L Sb F R :=
  mkNode (config r) (currentTerm r) (votedFor r) (logStore r) (stableStore r) (state r)
    (commitIndex r) (lastApplied r) (peers r) (leaderID r) v (fsm r) (pendingFutures r)
    (futures r) (applyCh r) (commitNotifyCh r) (shutdownCh r).
Definition set_fsm (v : F) r : RaftNode L Sb F R :=
  mkNode (config r) (currentTerm r) (votedFor r) (logStore r) (stableStore r) (state r)
    (commitIndex r) (lastApplied r) (peers r) (leaderID r) (leaderAddr r) v
    (pendingFutures r) (futures r) (applyCh r) (commitNotifyCh r) (shutdownCh r).
Definition set_pendingFutures (v : gmap Z nat) r : RaftNode L Sb F R :=
  mkNode (config r) (currentTerm r) (votedFor r) (logStore r) (stableStore r) (state r)
    (commitIndex r) (lastApplied r) (peers r) (leaderID r) (leaderAddr r) (fsm r) v
    (futures r) (applyCh r) (commitNotifyCh r) (shutdownCh r).
Definition set_futures (v : gmap nat (ApplyFuture R)) r : RaftNode L Sb F R :=
  mkNode (config r) (currentTerm r) (votedFor r) (logStore r) (stableStore r) (state r)
    (commitIndex r) (lastApplied r) (peers r) (leaderID r) (leaderAddr r) (fsm r)
    (pendingFutures r) v (applyCh r) (commitNotifyCh r) (shutdownCh r).
Definition set_applyCh (v : list applyRequest) r : RaftNode L Sb F R :=
  mkNode (config r) (currentTerm r) (votedFor r) (logStore r) (stableStore r) (state r)
    (commitIndex r) (lastApplied r) (peers r) (leaderID r) (leaderAddr r) (fsm r)
    (pendingFutures r) (futures r) v (commitNotifyCh r) (shutdownCh r).
Definition set_commitNotifyCh (v : bool) r : RaftNode L Sb F R :=
  mkNode (config r) (currentTerm r) (votedFor r) (logStore r) (stableStore r) (state r)
    (commitIndex r) (lastApplied r) (peers r) (leaderID r) (leaderAddr r) (fsm r)
    (pendingFutures r) (futures r) (applyCh r) v (shutdownCh r).
Definition set_shutdownCh (v : bool) r : RaftNode L Sb F R :=
  mkNode (config r) (currentTerm r) (votedFor r) (logStore r) (stableStore r) (state r)
    (commitIndex r) (lastApplied r) (peers r) (leaderID r) (leaderAddr r) (fsm r)
    (pendingFutures r) (futures r) (applyCh r) (commitNotifyCh r) v.

(** ** Shared helpers *)

(** A call whose error is only logged: the store stays as it was. *)
Definition or_log {A B} (m : outcome string A) (k : A -> outcome Empty_set B)
  (d : outcome Empty_set B) : outcome Empty_set B :=
  match m with Ret a => k a | Err _ => d | Panic => Panic | NoFuel => NoFuel end.

Definition persistState r : outcome Empty_set (RaftNode L Sb F R) :=
  r1 ← or_log (SetUint64 (stableStore r) KeyCurrentTerm (currentTerm r))
         (fun s => Ret (set_stableStore s r)) (Ret r);
  or_log (Set_ (stableStore r1) KeyVotedFor (votedFor r1))
    (fun s => Ret (set_stableStore s r1)) (Ret r1).

Definition restoreState r : outcome string (RaftNode L Sb F R) :=
  term ← GetUint64 (stableStore r) KeyCurrentTerm;
  votedFor ← Get (stableStore r) KeyVotedFor;
  Ret (set_votedFor votedFor (set_currentTerm term r)).

Definition stepDown r (newTerm : Z) : outcome Empty_set (RaftNode L Sb F R) :=
  persistState
    (set_leaderAddr [] (set_leaderID [] (set_votedFor [] (set_state Follower
      (set_currentTerm newTerm r))))).

Definition lastLogInfo r : Z * Z :=
  match LastIndex (logStore r) with
  | (_, Some _) => (0, 0)
  | (lastIdx, None) =>
      if lastIdx =? 0 then (0, 0)
      else
        match GetLog (logStore r) lastIdx with
        | NotGot _ _ => (0, 0)
        | Got entry => (Index entry, Term entry)
        end
  end.

(** Several loops look a server up in the configuration: the address of the first
    peer with the identifier. *)
Definition find_addr (id : text) (ps : list PeerConfig) : option text :=
  Address <$> head (filter (fun p => PeerID p = id) ps).

(** [for _, p := range r.config.Peers { if p.ID == id { r.leaderAddr = ...; break } }] *)
Definition set_leaderAddr_of (id : text) r : RaftNode L Sb F R :=
  match find_addr id (Peers (config r)) with
  | Some a => set_leaderAddr a r
  | None => r
  end.

(** The non-blocking send on [commitNotifyCh]. *)
Definition notifyCommit r : RaftNode L Sb F R := set_commitNotifyCh true r.

(** [f.respond(err, response)] on the heap. *)
Definition resolve (id : nat) (err : option apply_error) (resp : option R) r : RaftNode L Sb F R :=
  match futures r !! id with
  | Some f => set_futures (<[id := respond f err resp]> (futures r)) r
  | None => r
  end.

Definition State r : ServerState := state r.
Definition IsLeader r : bool := bool_decide (State r = Leader).
Definition LeaderAddr r : text := leaderAddr r.
Definition LeaderID r : text := leaderID r.
Definition CurrentTerm r : Z := currentTerm r.

(** [NewRaftNode]: the checks and the initial state, without the goroutines. *)
Definition NewRaftNode (c : Config L Sb F) : outcome string (RaftNode L Sb F R) :=
  _ ← validate c;
  match CLogStore c, CStableStore c, CFSM c with
  | Some log, Some stable, Some machine =>
      restoreState
        (mkNode c 0 [] log stable Follower 0 0 ∅ [] [] machine ∅ ∅ [] false false)
  | _, _, _ => Panic
  end.

End node.

(** * A node for examples

    The server [id] of a cluster of three, with in-memory stores. *)
Definition demo_peers : list PeerConfig :=
  [mkPeer (bytes_of "n1") (bytes_of "h1"); mkPeer (bytes_of "n2") (bytes_of "h2");
   mkPeer (bytes_of "n3") (bytes_of "h3")].

Definition demo_server : Type := RaftNode InmemLogStore InmemStableStore unit unit.

Definition demo_node (id : string) (term : Z) (st : ServerState) (es : list LogEntry) : demo_server :=
  mkNode
    (mkConfig (bytes_of id) demo_peers (150 * Millisecond) (1000 * Millisecond)
      (2000 * Millisecond) (Some NewInmemLogStore) (Some (∅ : InmemStableStore)) (Some tt))
    term [] (foldl inmem_store NewInmemLogStore es) ∅ st 0 0 ∅ [] [] tt ∅ ∅ [] false false.
