(* ===== verification/Election.v ===== *)
(** Leader election ([internal/raft/election.go]): starting an election, the
    comparison of logs and the handler of [RequestVote]. *)
From S2P Require Import Prelude Stores Future Config Node.

(** * The code *)

Definition isLogUpToDate (candidateLastTerm candidateLastIndex voterLastTerm voterLastIndex : Z)
  : bool :=
  if voterLastTerm <? candidateLastTerm then true
  else if (candidateLastTerm =? voterLastTerm) && (voterLastIndex <=? candidateLastIndex)
  then true
  else false.

Section election.
  Context {L Sb F R : Type} `{LogStore L} `{StableStore Sb}.
  Implicit Types r : RaftNode L Sb F R.

(** The part of [startElection] under the lock, the request it builds and the
    addresses it is sent to. *)
Definition startElection r : outcome Empty_set (RaftNode L Sb F R * RequestVoteRequest * list text) :=
  r1 ← persistState (set_votedFor (ServerID (config r))
         (set_currentTerm (currentTerm r +ᵤ 1)%go r));
  let '(lastLogIndex, lastLogTerm) := lastLogInfo r1 in
  Ret (r1,
    mkRV (currentTerm r1) (ServerID (config r1)) lastLogIndex lastLogTerm,
    Address <$> filter (fun p => PeerID p <> ServerID (config r1)) (Peers (config r1))).

Definition handleRequestVote r (req : RequestVoteRequest)
  : outcome Empty_set (RaftNode L Sb F R * RequestVoteResponse * bool) :=
  if rv_Term req <? currentTerm r then Ret (r, mkRVR (currentTerm r) false, false)
  else
    r ← (if currentTerm r <? rv_Term req then stepDown r (rv_Term req) else Ret r);
    let resp := mkRVR (currentTerm r) false in
    if negb (bool_decide (votedFor r = [])) && negb (bool_decide (votedFor r = rv_CandidateID req))
    then Ret (r, resp, false)
    else
      let '(myLastIndex, myLastTerm) := lastLogInfo r in
      if negb (isLogUpToDate (rv_LastLogTerm req) (rv_LastLogIndex req) myLastTerm myLastIndex)
      then Ret (r, resp, false)
      else
        r ← persistState (set_votedFor (rv_CandidateID req) r);
        Ret (r, mkRVR (currentTerm r) true, true).

(** * Persisting *)

(** Everything but the contents of the stable store. *)
Definition same_but_stable r r' : Prop := r' = set_stableStore (stableStore r') r.

Lemma same_but_stable_set s r : same_but_stable r (set_stableStore s r).
Proof. by destruct r. Qed.

Lemma same_but_stable_trans r1 r2 r3 :
  same_but_stable r1 r2 -> same_but_stable r2 r3 -> same_but_stable r1 r3.
Proof. unfold same_but_stable. destruct r1, r2, r3; cbn. intros [=] [=]. by subst. Qed.

(** The term and the vote are on disk. *)
Definition durable r : Prop :=
  GetUint64 (stableStore r) KeyCurrentTerm = Ret (currentTerm r) /\
  Get (stableStore r) KeyVotedFor = Ret (votedFor r).

Definition term_ok r : Prop := 0 <= currentTerm r <= max_uint.

Context `{!StableStoreSpec Sb}.

Lemma persistState_total r : exists r', persistState r = Ret r' /\ same_but_stable r r'.
Proof.
  unfold persistState.
  destruct (SetUint64_spec (stableStore r) KeyCurrentTerm (currentTerm r))
    as [[e ->]|(s&->&_)]; simpl.
  - destruct (Set_spec (stableStore r) KeyVotedFor (votedFor r)) as [[e' ->]|(s&->&_)]; simpl;
      eexists; (split; [done|]); [by destruct r|apply same_but_stable_set].
  - destruct (Set_spec s KeyVotedFor (votedFor r)) as [[e' ->]|(s'&->&_)]; simpl;
      eexists; (split; [done|]); by destruct r.
Qed.

Lemma persistState_durable `{!StableStoreReliable Sb} r :
  term_ok r -> exists r', persistState r = Ret r' /\ same_but_stable r r' /\ durable r'.
Proof.
  intros Ht. unfold persistState, durable.
  pose proof (SetUint64_reliable (stableStore r) KeyCurrentTerm (currentTerm r)) as H1.
  destruct (SetUint64_spec (stableStore r) KeyCurrentTerm (currentTerm r))
    as [[e E]|(s&->&Hs&_)]; [by rewrite E in H1|]. simpl.
  pose proof (Set_reliable s KeyVotedFor (votedFor r)) as H2'.
  destruct (Set_spec s KeyVotedFor (votedFor r)) as [[e E]|(s'&->&Hv&Ho)];
    [by rewrite E in H2'|]. simpl.
  eexists. split; [done|]. split; [by destruct r|]. simpl.
  destruct (Ho KeyCurrentTerm) as [_ ->]; [done|]. split; [by apply Hs|done].
Qed.

Lemma restoreState_durable r : durable r -> restoreState r = Ret r.
Proof. intros [H1 H2']. unfold restoreState. rewrite H1. simpl. rewrite H2'. by destruct r. Qed.

Lemma stepDown_total r t :
  exists r', stepDown r t = Ret r' /\
    same_but_stable (set_leaderAddr [] (set_leaderID [] (set_votedFor [] (set_state Follower
      (set_currentTerm t r))))) r'.
Proof. apply persistState_total. Qed.

(** ** The handler, by cases *)

(** The vote is granted when the term is not stale, nobody else has the vote of the
    term, and the candidate's log is up to date. *)
Definition vote_ok r (req : RequestVoteRequest) : bool :=
  (currentTerm r <=? rv_Term req) &&
  ((currentTerm r <? rv_Term req) || bool_decide (votedFor r = [])
    || bool_decide (votedFor r = rv_CandidateID req)) &&
  isLogUpToDate (rv_LastLogTerm req) (rv_LastLogIndex req) (snd (lastLogInfo r)) (fst (lastLogInfo r)).

(** The node after the step to a newer term, up to the stable store. *)
Definition at_term r (t : Z) : RaftNode L Sb F R :=
  if currentTerm r <? t then
    set_leaderAddr [] (set_leaderID [] (set_votedFor [] (set_state Follower
      (set_currentTerm t r))))
  else r.

Lemma lastLogInfo_same r r' : same_but_stable r r' -> lastLogInfo r' = lastLogInfo r.
Proof. unfold same_but_stable. by intros ->. Qed.

Lemma handleRequestVote_spec r req :
  exists r', handleRequestVote r req
    = Ret (r', mkRVR (Z.max (currentTerm r) (rv_Term req)) (vote_ok r req), vote_ok r req) /\
  same_but_stable
    (if vote_ok r req then set_votedFor (rv_CandidateID req) (at_term r (rv_Term req))
     else at_term r (rv_Term req)) r'.
Proof.
  unfold handleRequestVote, vote_ok, at_term.
  destruct (Z.ltb_spec (rv_Term req) (currentTerm r)) as [Hlt|Hge].
  { exists r. destruct (Z.leb_spec (currentTerm r) (rv_Term req)); [lia|]. simpl.
    destruct (Z.ltb_spec (currentTerm r) (rv_Term req)); [lia|].
    rewrite Z.max_l by lia. split; [done|by destruct r]. }
  destruct (Z.leb_spec (currentTerm r) (rv_Term req)); [|lia]. simpl.
  rewrite Z.max_r by lia.
  destruct (Z.ltb_spec (currentTerm r) (rv_Term req)) as [Hlt|Heq]; simpl.
  - destruct (stepDown_total r (rv_Term req)) as (r1&->&Hs). simpl.
    assert (Hv : votedFor r1 = [] /\ currentTerm r1 = rv_Term req /\ lastLogInfo r1 = lastLogInfo r).
    { unfold same_but_stable in Hs. by rewrite Hs. }
    destruct Hv as (Hv&Ht&Hl). rewrite Hv, Ht, Hl. simpl.
    destruct (lastLogInfo r) as [i t]. simpl. destruct (isLogUpToDate _ _ _ _); simpl; [|by eexists].
    destruct (persistState_total (set_votedFor (rv_CandidateID req) r1)) as (r2&->&Hs2). simpl.
    exists r2. assert (currentTerm r2 = rv_Term req) as ->.
    { unfold same_but_stable in Hs2. by rewrite Hs2. }
    split; [done|]. eapply same_but_stable_trans; [|exact Hs2].
    unfold same_but_stable in *. by rewrite Hs.
  - assert (rv_Term req = currentTerm r) as -> by lia.
    destruct (bool_decide (votedFor r = [])) eqn:E1, (bool_decide (votedFor r = rv_CandidateID req)) eqn:E2;
      simpl; try (exists r; split; [done|by destruct r]);
      destruct (lastLogInfo r) as [i t]; simpl; (destruct (isLogUpToDate _ _ _ _); simpl;
        [|exists r; split; [done|by destruct r]]);
      destruct (persistState_total (set_votedFor (rv_CandidateID req) r)) as (r2&->&Hs2); simpl;
      exists r2; (split; [|done]);
      unfold same_but_stable in Hs2; by rewrite Hs2.
Qed.

End election.

(** * Properties *)

(** C23: the vote. [RequestVote] is granted exactly when the term is not stale, the
    server has not voted for somebody else in that term, and the candidate's log is
    at least as up to date (a later last term, or the same and no shorter). The
    reply carries the larger of the two terms, which the server moves to; a granted
    vote is recorded; the log and the commit index stay. *)
Theorem handleRequestVote_correct {L Sb F R} `{LogStore L} `{StableStoreSpec Sb}
    (r : RaftNode L Sb F R) req :
  let '(myIndex, myTerm) := lastLogInfo r in
  exists r' granted,
    handleRequestVote r req
      = Ret (r', mkRVR (Z.max (currentTerm r) (rv_Term req)) granted, granted) /\
    (granted = true <->
       currentTerm r <= rv_Term req /\
       (currentTerm r = rv_Term req -> votedFor r = [] \/ votedFor r = rv_CandidateID req) /\
       (myTerm < rv_LastLogTerm req \/
        (rv_LastLogTerm req = myTerm /\ myIndex <= rv_LastLogIndex req))) /\
    currentTerm r' = Z.max (currentTerm r) (rv_Term req) /\
    (granted = true -> votedFor r' = rv_CandidateID req) /\
    (granted = false -> currentTerm r' = currentTerm r -> votedFor r' = votedFor r) /\
    logStore r' = logStore r /\ commitIndex r' = commitIndex r.
Proof.
  destruct (lastLogInfo r) as [myIndex myTerm] eqn:El.
  destruct (handleRequestVote_spec r req) as (r'&Hh&Hs).
  exists r', (vote_ok r req). split; [done|]. unfold same_but_stable, at_term in Hs. split.
  - unfold vote_ok, isLogUpToDate. rewrite El. cbn [fst snd].
    destruct (Z.leb_spec (currentTerm r) (rv_Term req)), (Z.ltb_spec (currentTerm r) (rv_Term req)),
      (bool_decide_reflect (votedFor r = [])), (bool_decide_reflect (votedFor r = rv_CandidateID req)),
      (Z.ltb_spec myTerm (rv_LastLogTerm req)), (Z.eqb_spec (rv_LastLogTerm req) myTerm),
      (Z.leb_spec myIndex (rv_LastLogIndex req)); simpl; try lia;
      (split; [try done; intros _; split_and!; try lia; tauto|intros (?&Hv&?); try done; try lia];
       destruct Hv; try done; lia).
  - rewrite Hs. destruct (vote_ok r req), (Z.ltb_spec (currentTerm r) (rv_Term req)); cbn;
      split_and!; try done; lia.
Qed.

Lemma handleRequestVote_correct_witness :
  exists r' granted,
    handleRequestVote (demo_node "n1" 1 Follower [mkLog 1 1 []]) (mkRV 2 (bytes_of "n2") 1 1)
      = Ret (r', mkRVR 2 granted, granted) /\
    (granted = true <->
       1 <= 2 /\ (1 = 2 -> ([] : text) = [] \/ ([] : text) = bytes_of "n2") /\ (1 < 1 \/ (1 = 1 /\ 1 <= 1))) /\
    currentTerm r' = 2 /\
    (granted = true -> votedFor r' = bytes_of "n2") /\
    (granted = false -> currentTerm r' = 1 -> votedFor r' = []) /\
    logStore r' = logStore (demo_node "n1" 1 Follower [mkLog 1 1 []]) /\ commitIndex r' = 0.
Proof.
  exact (handleRequestVote_correct (demo_node "n1" 1 Follower [mkLog 1 1 []])
    (mkRV 2 (bytes_of "n2") 1 1)).
Defined.
