(* ===== verification/Replication.v ===== *)
(** Log replication ([internal/raft/replication.go]): the request a leader builds for
    a peer, the handler of [AppendEntries], the treatment of the response and the
    advance of the commit index. *)
From stdpp Require Import sorting.
From S2P Require Import Prelude Stores Future Config Node Election.

(** The order that [sort.Slice] is given; [sort_desc] is its result, which for a total
    order does not depend on the algorithm. *)
Definition desc (x y : Z) : Prop := y <= x.
#[export] Instance desc_dec x y : Decision (desc x y) := decide (y <= x).

Definition sort_desc (l : list Z) : list Z := merge_sort desc l.

Section replication.
  Context {L Sb F R : Type} `{LogStore L} `{StableStore Sb}.
  Implicit Types r : RaftNode L Sb F R.

(** * The leader's request *)

(** [for i := peer.nextIndex; i <= lastIdx; i++], which stops at a missing entry. *)
Fixpoint gather_loop (fuel : nat) (log : L) (i lastIdx : Z) (entries : list LogEntry)
  : outcome Empty_set (list LogEntry) :=
  if i <=? lastIdx then
    match fuel with
    | O => NoFuel
    | S fuel' =>
        match GetLog log i with
        | NotGot _ _ => Ret entries
        | Got entry => gather_loop fuel' log (i +ᵤ 1)%go lastIdx (entries ++ [entry])
        end
    end
  else Ret entries.

(** The first half of [replicateOnce], under the read lock; [None] when the node is
    not the leader. *)
Definition replicate_build r (peer : peerState) : outcome Empty_set (option AppendEntriesRequest) :=
  if negb (bool_decide (state r = Leader)) then Ret None
  else
    let prevLogIndex := (nextIndex peer -ᵤ 1)%go in
    let prevLogTerm :=
      if 0 <? prevLogIndex then
        match GetLog (logStore r) prevLogIndex with NotGot _ _ => 0 | Got entry => Term entry end
      else 0 in
    let lastIdx := fst (LastIndex (logStore r)) in
    entries ← gather_loop (Z.to_nat (lastIdx - nextIndex peer + 2)) (logStore r)
                (nextIndex peer) lastIdx [];
    Ret (Some (mkAE (currentTerm r) (ServerID (config r)) prevLogIndex prevLogTerm entries
                 (commitIndex r))).

(** * The follower's handler *)

(** The first index of the conflicting term. *)
Fixpoint conflict_loop (fuel : nat) (log : L) (i term found : Z) : outcome Empty_set Z :=
  if 1 <=? i then
    match fuel with
    | O => NoFuel
    | S fuel' =>
        match GetLog log i with
        | NotGot _ _ => Ret found
        | Got e => if Term e =? term then conflict_loop fuel' log (i -ᵤ 1)%go term i else Ret found
        end
    end
  else Ret found.

(** Step 3: the loop over the new entries. The [bool] says that storing went well;
    a [DeleteRange] stays done when the [StoreLogs] after it fails. *)
Fixpoint append_loop (log : L) (es : list LogEntry) : outcome Empty_set (L * bool) :=
  match es with
  | [] => Ret (log, true)
  | entry :: rest =>
      match GetLog log (Index entry) with
      | NotGot _ _ => or_log (StoreLogs log es) (fun log' => Ret (log', true)) (Ret (log, false))
      | Got existing =>
          if Term existing =? Term entry then append_loop log rest
          else
            or_log (DeleteRange log (Index entry) (fst (LastIndex log)))
              (fun log1 =>
                 or_log (StoreLogs log1 es) (fun log2 => Ret (log2, true)) (Ret (log1, false)))
              (Ret (log, false))
      end
  end.

(** Step 2: [None] when the log is consistent, or the conflict to report. *)
Definition consistency_check (log : L) (req : AppendEntriesRequest)
  : outcome Empty_set (option (Z * Z)) :=
  if 0 <? ae_PrevLogIndex req then
    let lastIdx := fst (LastIndex log) in
    if lastIdx <? ae_PrevLogIndex req then Ret (Some (0, (lastIdx +ᵤ 1)%go))
    else
      let conflict prevEntry :=
        i ← conflict_loop (Z.to_nat (ae_PrevLogIndex req)) log (ae_PrevLogIndex req -ᵤ 1)%go
              (Term prevEntry) (ae_PrevLogIndex req);
        Ret (Some (Term prevEntry, i)) in
      match GetLog log (ae_PrevLogIndex req) with
      | Got prevEntry =>
          if Term prevEntry =? ae_PrevLogTerm req then Ret None else conflict prevEntry
      | NotGot (Some prevEntry) _ => conflict prevEntry
      | NotGot None _ => Ret (Some (0, ae_PrevLogIndex req))
      end
  else Ret None.

(** Step 4. *)
Definition follow_commit r (leaderCommit : Z) : RaftNode L Sb F R :=
  if commitIndex r <? leaderCommit then
    let lastIdx := fst (LastIndex (logStore r)) in
    let newCommit := if lastIdx <? leaderCommit then lastIdx else leaderCommit in
    notifyCommit (set_commitIndex newCommit r)
  else r.

(** The sender of a request that is not stale becomes the leader. *)
Definition accept_leader r (req : AppendEntriesRequest) : outcome Empty_set (RaftNode L Sb F R) :=
  r ← (if currentTerm r <? ae_Term req then stepDown r (ae_Term req)
       else if negb (bool_decide (state r = Follower)) then stepDown r (ae_Term req)
       else Ret r);
  Ret (set_leaderAddr_of (ae_LeaderID req)
    (set_leaderID (ae_LeaderID req) (set_state Follower r))).

Definition handleAppendEntries r (req : AppendEntriesRequest)
  : outcome Empty_set (RaftNode L Sb F R * AppendEntriesResponse * bool) :=
  if ae_Term req <? currentTerm r then Ret (r, mkAER (currentTerm r) false 0 0, false)
  else
    r ← accept_leader r req;
    c ← consistency_check (logStore r) req;
    match c with
    | Some (ct, ci) => Ret (r, mkAER (currentTerm r) false ct ci, true)
    | None =>
        p ← append_loop (logStore r) (ae_Entries req);
        let '(log, stored) := p in
        let r := set_logStore log r in
        if negb stored then Ret (r, mkAER (currentTerm r) false 0 0, true)
        else Ret (follow_commit r (ae_LeaderCommit req), mkAER (currentTerm r) true 0 0, true)
    end.

(** * The commit index of the leader *)

Definition matches_of r : list Z :=
  fst (LastIndex (logStore r)) :: (matchIndex <$> (map_to_list (peers r)).*2).

Definition advanceCommitIndex r : outcome Empty_set (RaftNode L Sb F R) :=
  let matches := sort_desc (matches_of r) in
  let majority := zlen matches / 2 + 1 in
  newCommit ← index matches (majority - 1);
  if newCommit <=? commitIndex r then Ret r
  else
    match GetLog (logStore r) newCommit with
    | NotGot _ _ => Ret r
    | Got entry =>
        if negb (Term entry =? currentTerm r) then Ret r
        else Ret (notifyCommit (set_commitIndex newCommit r))
    end.

(** * The leader's treatment of a response *)

(** The last index of the leader's log with the given term, 0 when there is none. *)
Fixpoint last_of_term_loop (fuel : nat) (log : L) (i term : Z) : outcome Empty_set Z :=
  if 1 <=? i then
    match fuel with
    | O => NoFuel
    | S fuel' =>
        match GetLog log i with
        | NotGot _ _ => Ret 0
        | Got entry => if Term entry =? term then Ret i else last_of_term_loop fuel' log (i -ᵤ 1)%go term
        end
    end
  else Ret 0.

(** The new [nextIndex] after a failure. *)
Definition back_up (log : L) (resp : AppendEntriesResponse) : outcome Empty_set Z :=
  next ← (if 0 <? aer_ConflictTerm resp then
            let lastIdx := fst (LastIndex log) in
            conflictIdx ← last_of_term_loop (Z.to_nat lastIdx) log lastIdx (aer_ConflictTerm resp);
            Ret (if 0 <? conflictIdx then (conflictIdx +ᵤ 1)%go else aer_ConflictIndex resp)
          else Ret (aer_ConflictIndex resp));
  Ret (if next <? 1 then 1 else next).

Definition set_next (n : Z) (p : peerState) : peerState :=
  mkPeerState (ps_id p) (ps_addr p) n (matchIndex p) (triggerCh p).
Definition set_match (m : Z) (p : peerState) : peerState :=
  mkPeerState (ps_id p) (ps_addr p) (nextIndex p) m (triggerCh p).

(** The second half of [replicateOnce], under the lock: [entries] are those that
    were sent to the peer [id]. The replicator holds a pointer to the peer's state;
    when that is no longer in [peers], nothing reads its update. *)
Definition replicate_process r (id : text) (entries : list LogEntry) (resp : AppendEntriesResponse)
  : outcome Empty_set (RaftNode L Sb F R) :=
  if currentTerm r <? aer_Term resp then stepDown r (aer_Term resp)
  else
    match peers r !! id with
    | None => if aer_Success resp then advanceCommitIndex r else Ret r
    | Some peer =>
        if aer_Success resp then
          let peer :=
            match last entries with
            | Some e => set_next (Index e +ᵤ 1)%go (set_match (Index e) peer)
            | None => peer
            end in
          advanceCommitIndex (set_peers (<[id := peer]> (peers r)) r)
        else
          next ← back_up (logStore r) resp;
          Ret (set_peers (<[id := set_next next peer]> (peers r)) r)
    end.

(** The non-blocking sends on the peers' trigger channels. *)
Definition triggerReplication r : RaftNode L Sb F R :=
  set_peers
    ((fun p => mkPeerState (ps_id p) (ps_addr p) (nextIndex p) (matchIndex p) true) <$> peers r) r.

End replication.

(** * Sorting and majorities *)

Lemma sort_desc_sorted l : StronglySorted desc (sort_desc l).
Proof.
  apply Sorted_StronglySorted.
  - intros x y z. unfold desc. lia.
  - apply Sorted_merge_sort. intros x y. unfold desc. lia.
Qed.

Lemma sort_desc_perm l : Permutation (sort_desc l) l.
Proof. apply merge_sort_Permutation. Qed.

(** How many of the servers hold index [v]. *)
Definition holders (v : Z) (l : list Z) : nat := length (filter (fun m => v <= m) l).

Lemma holders_perm v l k : Permutation l k -> holders v l = holders v k.
Proof. unfold holders. by intros ->. Qed.

Lemma holders_cons v m l :
  holders v (m :: l) = ((if decide (v <= m)%Z then 1 else 0) + holders v l)%nat.
Proof. unfold holders. rewrite filter_cons. by destruct (decide (v <= m)). Qed.

(** The element at position [k] of a descending list is the highest index that at
    least [k + 1] servers hold. *)
Lemma sorted_holders l k c :
  StronglySorted desc l -> l !! k = Some c ->
  (k < holders c l)%nat /\ forall v, (k < holders v l)%nat -> v <= c.
Proof.
  intros Hs. revert k. induction Hs as [|m l Hs IH Hm]; intros k Hk; [done|].
  destruct k as [|k]; simpl in Hk.
  - simplify_eq. split.
    + rewrite holders_cons, decide_True by lia. lia.
    + intros v Hv. rewrite holders_cons in Hv. destruct (decide (v <= c)); [done|].
      unfold holders in Hv. destruct (filter _ l) as [|x q] eqn:E; simpl in Hv; [lia|].
      assert (x ∈ filter (fun m => v <= m) l) as [Hx1 Hx2]%list_elem_of_filter
        by (rewrite E; by left).
      rewrite Forall_forall in Hm. specialize (Hm x Hx2). unfold desc in Hm. lia.
  - destruct (IH k Hk) as [H1 H2]. split.
    + rewrite holders_cons. rewrite decide_True; [lia|].
      rewrite Forall_forall in Hm. apply (Hm c). by apply list_elem_of_lookup_2 in Hk.
    + intros v Hv. rewrite holders_cons in Hv. apply H2. destruct (decide (v <= m)); lia.
Qed.

(** * The reference for step 3

    [ae_log l k es]: from position [k] on, skip the entries of [es] that [l] has with
    the same term; at the first that differs cut [l] off, and add the rest. *)
Fixpoint ae_log (l : list LogEntry) (k : nat) (es : list LogEntry) : list LogEntry :=
  match es with
  | [] => l
  | e :: es' =>
      match l !! k with
      | None => l ++ es
      | Some x => if Term x =? Term e then ae_log l (k + 1) es' else take k l ++ es
      end
  end.

Lemma take_eq_length {A} (l k : list A) n : take n l = take n k -> (n <= length k)%nat -> (n <= length l)%nat.
Proof. intros E%(f_equal length) Hn. rewrite !length_take in E. lia. Qed.

Lemma take_eq_le {A} (l k : list A) n m : (m <= n)%nat -> take n l = take n k -> take m l = take m k.
Proof.
  intros Hm E. rewrite <-(Nat.min_l m n) by done. by rewrite <-!take_take, E.
Qed.

(** Two logs match: where they have the same term at an index, they are equal up to
    that index. *)
Definition matching (l k : list LogEntry) : Prop :=
  forall i x y, l !! i = Some x -> k !! i = Some y -> Term x = Term y ->
    take (i + 1) l = take (i + 1) k.

(** [l] has, just before position [k], what the leader's log [ll] has. *)
Definition agree_at (l ll : list LogEntry) (k : nat) : Prop :=
  k = O \/ exists x y, l !! (k - 1)%nat = Some x /\ ll !! (k - 1)%nat = Some y /\ Term x = Term y.

Lemma agree_at_take l ll k : matching l ll -> agree_at l ll k -> take k l = take k ll.
Proof.
  intros Hm [->|(x&y&Hx&Hy&Ht)]; [done|].
  assert (k <> O \/ k = O) as [Hk | ->] by lia; [|done].
  replace k with (k - 1 + 1)%nat by lia. by eapply Hm.
Qed.

Lemma agree_at_len l ll k : agree_at l ll k -> (k <= length l)%nat.
Proof. intros [->|(x&_&Hx%lookup_lt_Some&_)]; lia. Qed.

(** The result against the leader's log [ll], of which [es] is the segment after
    [k]: either nothing changes, or the log becomes a prefix of the leader's. *)
Lemma ae_log_agree l ll k n :
  matching l ll -> agree_at l ll k -> (k + n <= length ll)%nat ->
  let es := take n (drop k ll) in
  let l' := ae_log l k es in
  take (k + n) l' = take (k + n) ll /\
  (l' = l \/ (l' = take (k + n) ll /\
     forall c, (k + n < c <= length l)%nat -> take c l <> take c ll)).
Proof.
  intros Hm Ha. revert k Ha. induction n as [|n IH]; intros k Ha Hl.
  { simpl. rewrite Nat.add_0_r. split; [by apply agree_at_take|by left]. }
  cbv zeta. destruct (lookup_lt_is_Some_2 ll k) as [y Hy]; [lia|].
  rewrite (drop_S _ _ _ Hy). cbn [take firstn ae_log].
  pose proof (agree_at_take _ _ _ Hm Ha) as Ht. pose proof (agree_at_len _ _ _ Ha) as Hk.
  assert (Hsplit : take k ll ++ y :: take n (drop (S k) ll) = take (k + S n) ll).
  { change (y :: take n (drop (S k) ll)) with (take (S n) (y :: drop (S k) ll)).
    rewrite <-(drop_S _ _ _ Hy). by rewrite take_take_drop. }
  destruct (l !! k) as [x|] eqn:Hx.
  - destruct (Z.eqb_spec (Term x) (Term y)) as [He|Hne].
    + assert (Ha' : agree_at l ll (k + 1)).
      { right. exists x, y. by replace (k + 1 - 1)%nat with k by lia. }
      destruct (IH (k + 1)%nat Ha') as [H1 H2]; [lia|].
      replace (S k) with (k + 1)%nat by lia.
      replace (k + S n)%nat with (k + 1 + n)%nat by lia. done.
    + rewrite Ht, Hsplit. split; [by rewrite take_take, Nat.min_id|]. right. split; [done|].
      intros c Hc E. apply Hne.
      assert (take c l !! k = take c ll !! k) as Hcx by (by rewrite E).
      rewrite !lookup_take_lt, Hx, Hy in Hcx by lia. by simplify_eq.
  - apply lookup_ge_None_1 in Hx. assert (length l = k) as Hlk by lia.
    rewrite take_ge in Ht by lia. rewrite Ht, Hsplit.
    split; [by rewrite take_take, Nat.min_id|]. right. split; [done|]. rewrite <-Ht. lia.
Qed.

Lemma matching_prefix l ll j : matching l ll -> matching (take j l) ll.
Proof.
  intros Hm i x y [Hx Hi]%lookup_take_Some Hy Hxy. rewrite take_take, Nat.min_l by lia. by eapply Hm.
Qed.

Lemma matching_take ll n : matching (take n ll) ll.
Proof.
  intros i x y [Hx Hi]%lookup_take_Some Hy _. rewrite take_take.
  by replace (Nat.min (i + 1) n) with (i + 1)%nat by lia.
Qed.

(** What was common stays common, and the logs still match. *)
Lemma ae_log_keeps l ll k n c :
  matching l ll -> agree_at l ll k -> (k + n <= length ll)%nat ->
  let l' := ae_log l k (take n (drop k ll)) in
  matching l' ll /\
  ((c <= length l)%nat -> take c l = take c ll -> take c l' = take c ll /\ (c <= length l')%nat).
Proof.
  intros Hm Ha Hl. cbv zeta.
  destruct (ae_log_agree l ll k n Hm Ha Hl) as [_ [-> | [-> Hd]]]; [done|].
  split; [apply matching_take|]. intros Hc E.
  assert (c <= k + n)%nat as Hle.
  { destruct (Nat.le_gt_cases c (k + n)); [done|]. exfalso. apply (Hd c); [lia|done]. }
  rewrite take_take, length_take. split; [f_equal; lia|lia].
Qed.

(** * The handlers against the interface of the log *)

Section handlers.
  Context {L Sb F R : Type} `{LogStoreSpec L} `{StableStoreSpec Sb}.
  Implicit Types r : RaftNode L Sb F R.

Lemma GetLog_cases s l i :
  repr s l -> 1 <= i <= max_uint ->
  match l !! Z.to_nat (i - 1) with
  | Some e => GetLog s i = Got e
  | None => exists p err, GetLog s i = NotGot p err
  end.
Proof.
  intros Hr Hi. destruct (l !! Z.to_nat (i - 1)) eqn:E; [by eapply GetLog_hit; try lia|].
  apply (GetLog_miss s l i Hr); [lia|]. apply lookup_ge_None_1 in E. unfold zlen. lia.
Qed.

(** Where a log is cut off when a write fails: at its end, or at the first entry that
    differs from the new one. *)
Definition cut_at (l : list LogEntry) (k : nat) (es : list LogEntry) (j : nat) : Prop :=
  (k <= j)%nat /\
  ((length l <= j)%nat \/
   exists x e, l !! j = Some x /\ es !! (j - k)%nat = Some e /\ Term x <> Term e).

(** What the loop can leave behind: [ae_log] when the store works; when a write
    fails, the log or a prefix of it. *)
Lemma cut_keeps l ll k n j c :
  cut_at l k (take n (drop k ll)) j -> (c <= length l)%nat -> take c l = take c ll -> (c <= j)%nat.
Proof.
  intros [Hk [Hj|(x&e&Hx&He&Hne)]] Hc Heq; [lia|].
  destruct (Nat.le_gt_cases c j) as [|Hlt]; [done|]. exfalso. apply Hne.
  apply lookup_take_Some in He as [He _]. rewrite lookup_drop in He.
  replace (k + (j - k))%nat with j in He by lia.
  rewrite <-(lookup_take_lt l c) in Hx by lia. rewrite <-(lookup_take_lt ll c) in He by lia.
  congruence.
Qed.

Lemma append_loop_spec es : forall s l k,
  repr s l -> (k <= length l)%nat -> numbered (Z.of_nat k + 1) es ->
  zlen l + zlen es < max_uint ->
  exists s' ok l', append_loop s es = Ret (s', ok) /\ repr s' l' /\
    if ok then l' = ae_log l k es else exists j, cut_at l k es j /\ l' = take j l.
Proof.
  induction es as [|e es IH]; intros s l k Hr Hk Hn Hm; cbn [append_loop ae_log].
  { by exists s, true, l. }
  pose proof Hn as Hn'. apply numbered_cons in Hn' as [[He _] Hes].
  pose proof (GetLog_cases s l (Index e) Hr ltac:(unfold zlen in *; simpl in *; lia)) as Hget.
  replace (Z.to_nat (Index e - 1)) with k in Hget by lia.
  destruct (l !! k) as [x|] eqn:Ek.
  - rewrite Hget. destruct (Z.eqb_spec (Term x) (Term e)).
    + apply lookup_lt_Some in Ek.
      destruct (IH s l (k + 1)%nat Hr) as (s'&ok&l'&->&Hr'&Hl'); [lia| |zl|].
      { by replace (Z.of_nat (k + 1) + 1) with (Z.of_nat k + 1 + 1) by lia. }
      exists s', ok, l'. split_and!; try done. destruct ok; [done|].
      destruct Hl' as (j&[Hj Hcut]&->). exists j. split; [|done]. split; [lia|].
      destruct Hcut as [?|(y&f&Hy&Hf&Hne)]; [by left|right]. exists y, f. split_and!; [done| |done].
      replace (j - k)%nat with (S (j - (k + 1))) by lia. done.
    + rewrite (LastIndex_spec s l Hr). simpl. pose proof (lookup_lt_Some _ _ _ Ek) as Hlt.
      destruct (DeleteRange_spec s l (Index e) Hr) as [[err ->]|(s1&->&Hr1)];
        [unfold zlen; lia|zl| |]; simpl.
      { exists s, false, l. split_and!; try done. exists (length l). rewrite take_ge; [|done].
        split; [|done]. split; [lia|by left]. }
      replace (Z.to_nat (Index e - 1)) with k in Hr1 by lia.
      assert (Hz : zlen (take k l) = Z.of_nat k) by (rewrite zlen_take; unfold zlen; lia).
      destruct (StoreLogs_spec s1 (take k l) (e :: es) Hr1) as [[err ->]|(s2&->&Hr2)];
        [by rewrite Hz|zl| |]; simpl.
      * exists s1, false, (take k l). split_and!; try done. exists k. split; [|done].
        split; [done|right]. exists x, e. by rewrite Nat.sub_diag.
      * by exists s2, true, (take k l ++ e :: es).
  - destruct Hget as (p&err&->). apply lookup_ge_None_1 in Ek.
    assert (Hz : zlen l = Z.of_nat k) by (unfold zlen; lia).
    destruct (StoreLogs_spec s l (e :: es) Hr) as [[err' ->]|(s2&->&Hr2)];
      [by rewrite Hz|lia| |]; simpl.
    + exists s, false, l. split_and!; try done. exists (length l). rewrite take_ge by done.
      split; [|done]. split; [lia|by left].
    + by exists s2, true, (l ++ e :: es).
Qed.

Lemma conflict_loop_total fuel log i term found :
  (i < Z.of_nat fuel)%Z -> i <= max_uint -> 1 <= found ->
  exists c, conflict_loop fuel log i term found = Ret c /\ 1 <= c /\ (i < found -> c <= found).
Proof.
  revert i found. induction fuel as [|fuel IH]; intros i found Hf Hi Hp; cbn [conflict_loop];
    (destruct (Z.leb_spec 1 i); [|by eexists]); [lia|].
  destruct (GetLog log i); [|by eexists]. destruct (Term e =? term); [|by eexists].
  rewrite uwrap64_small by (unfold max_uint in *; lia).
  destruct (IH (i - 1) i) as (c&->&Hc&Hle); [lia..|]. exists c. split_and!; try done. lia.
Qed.

(** The check passes exactly when the follower has the leader's entry before the new
    ones, and otherwise reports an index that is at most that entry's. *)
Lemma consistency_check_spec s l req :
  repr s l -> 0 <= ae_PrevLogIndex req <= max_uint -> zlen l < max_uint ->
  exists c, consistency_check s req = Ret c /\
  match c with
  | None => ae_PrevLogIndex req = 0 \/
      exists x, l !! Z.to_nat (ae_PrevLogIndex req - 1) = Some x /\ Term x = ae_PrevLogTerm req
  | Some (ct, ci) => 0 < ae_PrevLogIndex req /\ 1 <= ci <= ae_PrevLogIndex req /\
      ((ct = 0 /\ ci = zlen l + 1) \/
       exists x, l !! Z.to_nat (ae_PrevLogIndex req - 1) = Some x /\ ct = Term x /\
         ct <> ae_PrevLogTerm req)
  end.
Proof.
  intros Hr Hp Hm. unfold consistency_check.
  destruct (Z.ltb_spec 0 (ae_PrevLogIndex req)) as [Hpos|]; [|exists None; split; [done|left; lia]].
  rewrite (LastIndex_spec s l Hr). simpl. zlen_facts.
  destruct (Z.ltb_spec (zlen l) (ae_PrevLogIndex req)) as [Hshort|Hlen].
  { rewrite uwrap64_small by lia. eexists. split; [done|]. simpl. split_and!; auto; lia. }
  pose proof (GetLog_cases s l (ae_PrevLogIndex req) Hr ltac:(lia)) as Hget.
  destruct (l !! Z.to_nat (ae_PrevLogIndex req - 1)) as [x|] eqn:E.
  2: { apply lookup_ge_None_1 in E. unfold zlen in *. lia. }
  rewrite Hget. destruct (Z.eqb_spec (Term x) (ae_PrevLogTerm req)).
  { exists None. split; [done|]. right. by exists x. }
  rewrite uwrap64_small by lia.
  destruct (conflict_loop_total (Z.to_nat (ae_PrevLogIndex req)) s (ae_PrevLogIndex req - 1)
    (Term x) (ae_PrevLogIndex req)) as (c&->&Hc&Hle); [lia..|]. simpl.
  eexists. split; [done|]. simpl. split_and!; try lia. right. by exists x.
Qed.

(** What [accept_leader] changes. *)
Record accepted r (req : AppendEntriesRequest) r' : Prop := mk_accepted {
  ac_term : currentTerm r' = ae_Term req;
  ac_state : state r' = Follower;
  ac_leader : leaderID r' = ae_LeaderID req;
  ac_vote : votedFor r' = if (currentTerm r <? ae_Term req) || negb (bool_decide (state r = Follower))
                          then [] else votedFor r;
  ac_log : logStore r' = logStore r;
  ac_commit : commitIndex r' = commitIndex r;
  ac_rest : (config r', lastApplied r', fsm r', peers r', pendingFutures r', futures r')
          = (config r, lastApplied r, fsm r, peers r, pendingFutures r, futures r)
}.

Lemma accept_leader_spec r req :
  currentTerm r <= ae_Term req -> exists r', accept_leader r req = Ret r' /\ accepted r req r'.
Proof.
  intros Ht. unfold accept_leader.
  assert (Hset : forall q : RaftNode L Sb F R, exists a, set_leaderAddr_of (ae_LeaderID req)
    (set_leaderID (ae_LeaderID req) (set_state Follower q))
    = set_leaderAddr a (set_leaderID (ae_LeaderID req) (set_state Follower q))).
  { intros q. unfold set_leaderAddr_of. destruct (find_addr _ _) as [a|]; [by exists a|].
    exists (leaderAddr q). by destruct q. }
  destruct (stepDown_total r (ae_Term req)) as (r1&Hs&Hsame). unfold same_but_stable in Hsame.
  destruct (Z.ltb_spec (currentTerm r) (ae_Term req)); simpl.
  { rewrite Hs. simpl. destruct (Hset r1) as [a ->]. eexists. split; [done|].
    rewrite Hsame. constructor; simpl; try done.
    by destruct (Z.ltb_spec (currentTerm r) (ae_Term req)); [|lia]. }
  case_bool_decide as Hf; simpl.
  - destruct (Hset r) as [a ->]. eexists. split; [done|]. constructor; simpl; try done; [lia|].
    destruct (Z.ltb_spec (currentTerm r) (ae_Term req)); [lia|]. by rewrite bool_decide_true.
  - rewrite Hs. simpl. destruct (Hset r1) as [a ->]. eexists. split; [done|].
    rewrite Hsame. constructor; simpl; try done.
    rewrite bool_decide_false by done. by rewrite orb_true_r.
Qed.

(** A request that a leader with log [ll] can send: the entry before the new ones
    and a segment of the log. *)
Record sent_from (ll : list LogEntry) (req : AppendEntriesRequest) (k n : nat) : Prop := mk_sent {
  se_prev : ae_PrevLogIndex req = Z.of_nat k;
  se_len : (k + n <= length ll)%nat;
  se_term : k = O \/ exists y, ll !! (k - 1)%nat = Some y /\ ae_PrevLogTerm req = Term y;
  se_entries : ae_Entries req = take n (drop k ll)
}.

Lemma numbered_drop k l n : numbered k l -> numbered (k + Z.of_nat n) (drop n l).
Proof.
  intros Hn i e Hi. rewrite lookup_drop in Hi. specialize (Hn _ _ Hi).
  by replace (k + Z.of_nat n + Z.of_nat i) with (k + Z.of_nat (n + i)) by lia.
Qed.

Lemma sent_numbered ll req k n :
  numbered 1 ll -> sent_from ll req k n -> numbered (Z.of_nat k + 1) (ae_Entries req).
Proof.
  intros Hn [_ _ _ ->]. apply numbered_take. rewrite Z.add_comm. by apply numbered_drop.
Qed.

(** How the handler ends on a request that is not stale. *)
Lemma handleAppendEntries_ends r req l ll k n :
  repr (logStore r) l -> numbered 1 ll -> sent_from ll req k n -> matching l ll ->
  currentTerm r <= ae_Term req -> zlen l + zlen ll < max_uint ->
  exists r1 r' resp l', accepted r req r1 /\
    handleAppendEntries r req = Ret (r', resp, true) /\ repr (logStore r') l' /\
    aer_Term resp = ae_Term req /\
    if aer_Success resp
    then agree_at l ll k /\ l' = ae_log l k (take n (drop k ll)) /\
      r' = follow_commit (set_logStore (logStore r') r1) (ae_LeaderCommit req)
    else commitIndex r' = commitIndex r /\ currentTerm r' = ae_Term req /\
      state r' = Follower /\
      ((exists j, cut_at l k (ae_Entries req) j /\ l' = take j l /\ agree_at l ll k /\
          append_loop (logStore r) (ae_Entries req) = Ret (logStore r', false)) \/
       (l' = l /\ ~ agree_at l ll k /\ 1 <= aer_ConflictIndex resp <= Z.of_nat k /\
        (aer_ConflictTerm resp = 0 \/
         exists x y, l !! (k - 1)%nat = Some x /\ ll !! (k - 1)%nat = Some y /\
           Term x <> Term y /\ aer_ConflictTerm resp = Term x))).
Proof.
  intros Hr Hn Hsent Hm Ht Hz. pose proof (sent_numbered _ _ _ _ Hn Hsent) as Hnum.
  destruct Hsent as [Hprev Hlen Hterm Hes].
  destruct (accept_leader_spec r req Ht) as (r1&Ha&Hacc). exists r1.
  unfold handleAppendEntries. destruct (Z.ltb_spec (ae_Term req) (currentTerm r)); [lia|].
  rewrite Ha. cbn [mbind outcome_bind]. rewrite <-(ac_log _ _ _ Hacc) in Hr.
  zlen_facts. assert (Hk : Z.of_nat k <= zlen ll) by (unfold zlen; lia).
  destruct (consistency_check_spec (logStore r1) l req Hr) as (c&->&Hc); [lia|lia|].
  cbn [mbind outcome_bind]. rewrite Hprev in Hc. destruct c as [[ct ci]|].
  - destruct Hc as (Hpos&Hci&Hwhy). eexists _, _, l. split_and!; try done; [apply Hacc|]. simpl.
    rewrite (ac_commit _ _ _ Hacc), (ac_term _ _ _ Hacc), (ac_state _ _ _ Hacc).
    split_and!; try done. right.
    destruct Hterm as [->|(y'&Hy'&Hyt)]; [lia|].
    replace (Z.to_nat (Z.of_nat k - 1)) with (k - 1)%nat in Hwhy by lia.
    split_and!; try done; try lia.
    + intros [->|(x&y&Hx&Hy&Hxy)]; [lia|].
      destruct Hwhy as [[_ Hci']|(x'&Hx'&->&Hne)]; [|congruence].
      apply lookup_lt_Some in Hx. unfold zlen in *. lia.
    + destruct Hwhy as [[-> _]|(x'&Hx'&->&Hne)]; [by left|]. right. exists x', y'.
      split_and!; try done. congruence.
  - assert (Hag : agree_at l ll k).
    { destruct Hc as [Hc|(x&Hx&Hxt)]; [left; lia|].
      destruct Hterm as [->|(y&Hy&Hyt)]; [by left|]. right. exists x, y.
      replace (Z.to_nat (Z.of_nat k - 1)) with (k - 1)%nat in Hx by lia. by rewrite Hxt. }
    destruct (append_loop_spec (ae_Entries req) (logStore r1) l k Hr) as (s'&ok&l'&Hap&Hr'&Hl');
      [by eapply agree_at_len|done|rewrite Hes, zlen_take, zlen_drop; lia|].
    rewrite Hap. cbn [mbind outcome_bind]. destruct ok; cbn [negb].
    + eexists _, _, l'. split; [done|]. split; [done|].
      assert (Hlog : logStore (follow_commit (set_logStore s' r1) (ae_LeaderCommit req)) = s').
      { unfold follow_commit. by destruct (_ <? _). }
      rewrite Hlog. split; [done|]. split; [apply Hacc|]. cbn [aer_Success]. by rewrite <-Hes.
    + eexists _, _, l'. split; [done|]. split; [done|]. split; [done|].
      split; [apply Hacc|]. cbn.
      rewrite (ac_commit _ _ _ Hacc), (ac_term _ _ _ Hacc), (ac_state _ _ _ Hacc).
      split_and!; try done. left.
      destruct Hl' as (j&Hj&->). exists j. by rewrite <-(ac_log _ _ _ Hacc).
Qed.

(** ** The leader's request *)

Lemma gather_loop_spec fuel log l i acc :
  repr log l -> 1 <= i -> zlen l < max_uint -> zlen l - i + 1 < Z.of_nat fuel ->
  gather_loop fuel log i (zlen l) acc = Ret (acc ++ drop (Z.to_nat (i - 1)) l).
Proof.
  intros Hr. revert i acc. induction fuel as [|fuel IH]; intros i acc Hi Hm Hf; cbn [gather_loop];
    (destruct (Z.leb_spec i (zlen l)); [|rewrite drop_ge, app_nil_r by (unfold zlen in *; lia); done]);
    [lia|].
  pose proof (GetLog_cases log l i Hr ltac:(lia)) as Hget.
  destruct (l !! Z.to_nat (i - 1)) as [e|] eqn:E;
    [|apply lookup_ge_None_1 in E; unfold zlen in *; lia].
  rewrite Hget, uwrap64_small, IH by lia. rewrite (drop_S _ _ _ E), <-app_assoc.
  by replace (Z.to_nat (i + 1 - 1)) with (S (Z.to_nat (i - 1))) by lia.
Qed.

(** A leader sends everything from [nextIndex] on, with the entry before it. *)
Lemma replicate_build_sent r peer ll :
  repr (logStore r) ll -> state r = Leader -> 1 <= nextIndex peer <= zlen ll + 1 ->
  zlen ll < max_uint ->
  exists req, replicate_build r peer = Ret (Some req) /\ ae_Term req = currentTerm r /\
    ae_LeaderID req = ServerID (config r) /\ ae_LeaderCommit req = commitIndex r /\
    sent_from ll req (Z.to_nat (nextIndex peer - 1)) (length ll - Z.to_nat (nextIndex peer - 1)).
Proof.
  intros Hr Hs Hn Hm. unfold replicate_build. rewrite bool_decide_true by done. cbn [negb].
  rewrite uwrap64_small by lia. rewrite (LastIndex_spec _ _ Hr). cbn [fst].
  rewrite (gather_loop_spec _ _ ll); [|done|lia..]. cbn [mbind outcome_bind].
  eexists. split; [done|]. split_and!; try done. constructor; cbn.
  - lia.
  - unfold zlen in *. lia.
  - destruct (Z.ltb_spec 0 (nextIndex peer - 1)) as [Hpos|]; [|left; lia]. right.
    pose proof (GetLog_cases _ ll (nextIndex peer - 1) Hr ltac:(lia)) as Hget.
    replace (Z.to_nat (nextIndex peer - 1 - 1)) with (Z.to_nat (nextIndex peer - 1) - 1)%nat
      in Hget by lia.
    destruct (ll !! (Z.to_nat (nextIndex peer - 1) - 1)%nat) as [y|] eqn:E.
    + exists y. by rewrite Hget.
    + apply lookup_ge_None_1 in E. unfold zlen in *. lia.
  - rewrite take_ge; [done|]. rewrite length_drop. lia.
Qed.

(** ** Backing up *)

Lemma last_of_term_loop_spec fuel log l i term :
  repr log l -> 0 <= i <= max_uint -> i <= Z.of_nat fuel ->
  exists c, last_of_term_loop fuel log i term = Ret c /\
    (c = 0 \/ (1 <= c <= i /\ exists e, l !! Z.to_nat (c - 1) = Some e /\ Term e = term)).
Proof.
  intros Hr. revert i. induction fuel as [|fuel IH]; intros i Hi Hf; cbn [last_of_term_loop];
    (destruct (Z.leb_spec 1 i); [|by exists 0; auto]); [lia|].
  pose proof (GetLog_cases log l i Hr ltac:(lia)) as Hget.
  destruct (l !! Z.to_nat (i - 1)) as [e|] eqn:E.
  - rewrite Hget. destruct (Z.eqb_spec (Term e) term).
    + exists i. split; [done|]. right. split; [lia|]. eauto.
    + rewrite uwrap64_small by lia. destruct (IH (i - 1)) as (c&->&Hc); [lia..|].
      exists c. split; [done|]. destruct Hc as [->|[? ?]]; [by left|]. right. split; [lia|done].
  - destruct Hget as (p&err&->). exists 0. auto.
Qed.

(** When the leader has no entry of the conflicting term at or after the entry that
    was checked, the next attempt starts strictly earlier. *)
Lemma back_up_spec log ll resp k :
  repr log ll -> zlen ll < max_uint -> 1 <= aer_ConflictIndex resp <= Z.of_nat k ->
  (0 < aer_ConflictTerm resp ->
   forall i e, (k <= i + 1)%nat -> ll !! i = Some e -> Term e <> aer_ConflictTerm resp) ->
  exists next, back_up log resp = Ret next /\ 1 <= next <= Z.of_nat k.
Proof.
  intros Hr Hm Hc Ht. unfold back_up. destruct (Z.ltb_spec 0 (aer_ConflictTerm resp)).
  - rewrite (LastIndex_spec _ _ Hr). cbn [fst]. zlen_facts.
    destruct (last_of_term_loop_spec (Z.to_nat (zlen ll)) log ll (zlen ll) (aer_ConflictTerm resp) Hr)
      as (c&->&Hcases); [lia..|]. cbn [mbind outcome_bind].
    destruct Hcases as [->|[Hc1 (e&He&Hte)]].
    + cbn. destruct (Z.ltb_spec (aer_ConflictIndex resp) 1); [lia|]. by eexists.
    + destruct (Z.ltb_spec 0 c); [|lia].
      assert (c < Z.of_nat k).
      { destruct (Z.lt_ge_cases c (Z.of_nat k)); [done|]. exfalso.
        apply (Ht ltac:(done) (Z.to_nat (c - 1)) e); [lia|done|done]. }
      rewrite uwrap64_small by lia. destruct (Z.ltb_spec (c + 1) 1); [lia|].
      eexists. split; [done|lia].
  - cbn [mbind outcome_bind]. destruct (Z.ltb_spec (aer_ConflictIndex resp) 1); [lia|]. by eexists.
Qed.

(** ** The commit index *)

Lemma matches_range r l c :
  repr (logStore r) l -> zlen l <= max_uint ->
  (forall id p, peers r !! id = Some p -> 0 <= matchIndex p <= max_uint) ->
  c ∈ sort_desc (matches_of r) -> c <= max_uint.
Proof.
  intros Hr Hz Hp Hc. rewrite sort_desc_perm in Hc. unfold matches_of in Hc.
  rewrite (LastIndex_spec _ _ Hr) in Hc. apply elem_of_cons in Hc as [->|Hc]; [done|].
  apply list_elem_of_fmap in Hc as (p&->&Hc). apply list_elem_of_fmap in Hc as ([id q]&->&Hc).
  apply elem_of_map_to_list in Hc. by destruct (Hp id q Hc).
Qed.

(** The index that [advanceCommitIndex] reads from the sorted list: the highest one that a
    majority holds. *)
Lemma matches_median r : exists c,
  index (E := Empty_set) (sort_desc (matches_of r)) (zlen (sort_desc (matches_of r)) / 2 + 1 - 1) = Ret c /\
  c ∈ sort_desc (matches_of r) /\ (length (matches_of r) / 2 < holders c (matches_of r))%nat /\
  forall v, (length (matches_of r) / 2 < holders v (matches_of r))%nat -> v <= c.
Proof.
  set (ms := sort_desc (matches_of r)).
  assert (Hlen : length ms = length (matches_of r)) by (apply Permutation_length, sort_desc_perm).
  assert (Hpos : (0 < length ms)%nat) by (rewrite Hlen; simpl; lia).
  assert (Hdiv : (length ms / 2 < length ms)%nat) by (apply Nat.div_lt; lia).
  destruct (lookup_lt_is_Some_2 ms (length ms / 2)) as [c Hk]; [done|]. exists c. split.
  { unfold index, zlen. pose proof (Z.div_pos (Z.of_nat (length ms)) 2 ltac:(lia) ltac:(lia)).
    destruct (Z.leb_spec 0 (Z.of_nat (length ms) / 2 + 1 - 1)); [|lia].
    replace (Z.to_nat (Z.of_nat (length ms) / 2 + 1 - 1)) with (length ms / 2)%nat
      by (rewrite <-(Nat2Z.inj_div _ 2); lia).
    by rewrite Hk. }
  destruct (sorted_holders ms _ c (sort_desc_sorted _) Hk) as [H1' H2'].
  rewrite Hlen in H1', H2'. unfold ms in H1', H2'.
  rewrite (holders_perm _ _ _ (sort_desc_perm _)) in H1'.
  split; [by eapply list_elem_of_lookup_2|]. split; [done|]. intros v Hv. apply H2'.
  by rewrite (holders_perm _ _ _ (sort_desc_perm _)).
Qed.

Lemma advanceCommitIndex_spec r l :
  repr (logStore r) l -> zlen l <= max_uint ->
  (forall id p, peers r !! id = Some p -> 0 <= matchIndex p <= max_uint) ->
  0 <= commitIndex r ->
  exists r', advanceCommitIndex r = Ret r' /\
    (r' = r \/ exists c e, r' = notifyCommit (set_commitIndex c r) /\ commitIndex r < c /\
       (length (matches_of r) / 2 < holders c (matches_of r))%nat /\
       (forall v, (length (matches_of r) / 2 < holders v (matches_of r))%nat -> v <= c) /\
       l !! Z.to_nat (c - 1) = Some e /\ Term e = currentTerm r).
Proof.
  intros Hr Hz Hp Hc. destruct (matches_median r) as (c&Hi&Hin&Hmaj&Hmax).
  unfold advanceCommitIndex. rewrite Hi. cbn [mbind outcome_bind].
  destruct (Z.leb_spec c (commitIndex r)); [exists r; auto|].
  pose proof (matches_range r l c Hr Hz Hp Hin) as Hcm.
  pose proof (GetLog_cases _ l c Hr ltac:(lia)) as Hget.
  destruct (l !! Z.to_nat (c - 1)) as [e|] eqn:E; [|destruct Hget as (?&?&->); exists r; auto].
  rewrite Hget. destruct (Z.eqb_spec (Term e) (currentTerm r)); cbn [negb]; [|exists r; auto].
  eexists. split; [done|]. right. by exists c, e.
Qed.

(** Where a majority holds the whole log, and its last entry is of the node's term, the
    commit index becomes the last index. *)
Lemma advanceCommitIndex_moves r l e :
  repr (logStore r) l -> zlen l <= max_uint -> last l = Some e -> Term e = currentTerm r ->
  (forall id p, peers r !! id = Some p -> matchIndex p <= zlen l) ->
  (length (matches_of r) / 2 < holders (zlen l) (matches_of r))%nat -> commitIndex r <= zlen l ->
  exists r', advanceCommitIndex r = Ret r' /\ commitIndex r' = zlen l /\
    (r' = r \/ r' = notifyCommit (set_commitIndex (zlen l) r)).
Proof.
  intros Hr Hz Hl Ht Hp Hmaj Hc. destruct (matches_median r) as (c&Hi&Hin&_&Hmax).
  assert (c = zlen l) as ->.
  { specialize (Hmax _ Hmaj). enough (c <= zlen l) by lia. rewrite sort_desc_perm in Hin.
    unfold matches_of in Hin. rewrite (LastIndex_spec _ _ Hr) in Hin.
    apply elem_of_cons in Hin as [->|Hin]; [done|]. apply list_elem_of_fmap in Hin as (p&->&Hin).
    apply list_elem_of_fmap in Hin as ([id q]&->&Hin). apply elem_of_map_to_list in Hin. by eapply Hp. }
  unfold advanceCommitIndex. rewrite Hi. cbn [mbind outcome_bind].
  destruct (Z.leb_spec (zlen l) (commitIndex r)); [exists r; split_and!; [done|lia|by left]|].
  assert (1 <= zlen l) as Hpos by (destruct l; [done|zl]).
  rewrite (GetLog_hit _ l (zlen l) e Hr); [|done|].
  - rewrite (proj2 (Z.eqb_eq _ _)) by done. cbn [negb]. eexists. split_and!; [done|done|by right].
  - rewrite last_lookup in Hl. by replace (Z.to_nat (zlen l - 1)) with (pred (length l)) by (unfold zlen; lia).
Qed.

(** The commit index follows the leader's, in a log that has it. *)
Lemma follow_commit_max r l c : repr (logStore r) l -> c <= zlen l ->
  currentTerm (follow_commit r c) = currentTerm r /\ state (follow_commit r c) = state r /\
  commitIndex (follow_commit r c) = Z.max (commitIndex r) c.
Proof.
  intros Hr Hc. unfold follow_commit. rewrite (LastIndex_spec _ _ Hr). cbn [fst].
  destruct (Z.ltb_spec (commitIndex r) c); cbn; [|split_and!; lia || done].
  destruct (Z.ltb_spec (zlen l) c); [lia|]. split_and!; try done. lia.
Qed.

End handlers.

(** * Properties *)

(** C16: one step of log replication keeps the Log Matching Property and loses nothing that
    the leader has. A follower whose log matches the leader's log [ll], and which agrees
    with it up to its commit index, gets a request the leader can send. In every case its
    log still matches, its commit index does not go back, whatever prefix it shared with
    the leader's log it still has, and so all that it considers committed is in its log and
    in the leader's. If it reports success it holds the leader's entries up to the last one
    sent, has followed the leader's commit index, and its log is either what it was or the
    leader's up to there. If it does not, the commit index is what it was, and either it
    does not agree with the leader on the entry before the new ones and its log is
    unchanged, or a write has failed, and its log is unchanged or cut at its first conflict
    with the entries sent. *)
Theorem handleAppendEntries_matching {L Sb F R} `{LogStoreSpec L} `{StableStoreSpec Sb}
    (r : RaftNode L Sb F R) req l ll k n :
  repr (logStore r) l -> numbered 1 ll -> sent_from ll req k n -> matching l ll ->
  currentTerm r <= ae_Term req -> zlen l + zlen ll < max_uint ->
  0 <= commitIndex r <= zlen l ->
  take (Z.to_nat (commitIndex r)) l = take (Z.to_nat (commitIndex r)) ll ->
  ae_LeaderCommit req <= Z.of_nat (k + n) ->
  exists r' resp l', handleAppendEntries r req = Ret (r', resp, true) /\
    repr (logStore r') l' /\ matching l' ll /\
    currentTerm r' = ae_Term req /\ state r' = Follower /\ commitIndex r <= commitIndex r' <= zlen l' /\
    take (Z.to_nat (commitIndex r')) l' = take (Z.to_nat (commitIndex r')) ll /\
    (forall c, (c <= length l)%nat -> take c l = take c ll -> take c l' = take c ll) /\
    (aer_Success resp = true ->
       take (k + n) l' = take (k + n) ll /\
       commitIndex r' = Z.max (commitIndex r) (ae_LeaderCommit req) /\
       (l' = l \/ l' = take (k + n) ll)) /\
    (aer_Success resp = false ->
       commitIndex r' = commitIndex r /\
       ((~ agree_at l ll k /\ l' = l) \/
        (agree_at l ll k /\ exists j, cut_at l k (ae_Entries req) j /\ l' = take j l))).
Proof.
  intros Hr Hn Hsent Hm Ht Hz Hc Hcl Hlc. pose proof (se_len _ _ _ _ Hsent) as Hlen.
  destruct (handleAppendEntries_ends r req l ll k n Hr Hn Hsent Hm Ht Hz)
    as (r1&r'&resp&l'&Hacc&Hh&Hr'&_&Hend).
  exists r', resp, l'. split; [done|]. split; [done|].
  destruct (aer_Success resp).
  - destruct Hend as (Hag&Hl'&Hf). rewrite Hl' in *. clear l' Hl'.
    destruct (ae_log_agree l ll k n Hm Hag Hlen) as [Htake Hcase].
    pose proof (ae_log_keeps l ll k n (Z.to_nat (commitIndex r)) Hm Hag Hlen) as [Hm' Hkeep].
    destruct Hkeep as [Hkeep Hcl']; [unfold zlen in *; lia|done|].
    pose proof (take_eq_length _ _ _ Htake Hlen) as Hkl.
    destruct (follow_commit_max (set_logStore (logStore r') r1) _ (ae_LeaderCommit req) Hr') as (E1&E2&E3);
      [unfold zlen; lia|]. rewrite <-Hf in E1, E2, E3. destruct Hacc as [A1 A2 _ _ _ A3 _].
    cbn in E1, E2, E3. rewrite E1, E2, E3, A3. split_and!; try done; try (unfold zlen in *; lia).
    + destruct (Z.max_spec (commitIndex r) (ae_LeaderCommit req)) as [[_ ->]|[_ ->]]; [|done].
      apply (take_eq_le _ _ (k + n)); [lia|done].
    + intros c Hcn Hcc. by apply (ae_log_keeps l ll k n c Hm Hag Hlen).
    + intros _. split_and!; try done. destruct Hcase as [?|[? _]]; auto.
  - destruct Hend as (E1&E2&E3&Hend). rewrite E1, E2, E3. rewrite (se_entries _ _ _ _ Hsent) in *.
    assert (exists j, l' = take j l /\
      forall c, (c <= length l)%nat -> take c l = take c ll -> (c <= j)%nat) as (j&->&Hj).
    { destruct Hend as [(j&Hj&->&_)|(->&_)]; [exists j; split; [done|intros c ??; by eapply cut_keeps]|].
      exists (length l). by rewrite take_ge. }
    assert (forall c, (c <= length l)%nat -> take c l = take c ll -> take c (take j l) = take c ll) as Hkeep.
    { intros c Hc' Hcc. rewrite take_take, Nat.min_l by (by eapply Hj). done. }
    specialize (Hj (Z.to_nat (commitIndex r)) ltac:(unfold zlen in *; lia) Hcl).
    split_and!; try done; [by apply matching_prefix|rewrite zlen_take; lia|apply Hkeep; [unfold zlen in *; lia|done]|].
    intros _. split; [done|]. destruct Hend as [(i&Hi&E&Hag&_)|(E&Hag&_)]; [right|by left]. split; [done|]. by exists i.
Qed.

Definition demo_leader_log : list LogEntry :=
  [mkLog 1 1 []; mkLog 2 2 []; mkLog 3 2 (bytes_of "x")].
Definition demo_follower_log : list LogEntry := [mkLog 1 1 []; mkLog 2 1 (bytes_of "old")].

Lemma demo_follower_repr :
  repr (logStore (demo_node "n2" 1 Follower demo_follower_log)) demo_follower_log.
Proof.
  apply (inmem_stores_repr demo_follower_log _ []); [apply inmem_new_repr|].
  repeat (apply numbered_cons; split; [done|]). apply numbered_nil.
Qed.

Lemma demo_leader_numbered : numbered 1 demo_leader_log.
Proof. repeat (apply numbered_cons; split; [done|]). apply numbered_nil. Qed.

Lemma demo_matching : matching demo_follower_log demo_leader_log.
Proof. intros [|[|[|i]]] x y Hx Hy Hxy; simpl in *; by simplify_eq. Qed.

Definition demo_request : AppendEntriesRequest :=
  mkAE 2 (bytes_of "n1") 1 1 [mkLog 2 2 []; mkLog 3 2 (bytes_of "x")] 2.

Lemma demo_sent : sent_from demo_leader_log demo_request 1 2.
Proof.
  constructor; [done|simpl; lia| |done]. right. by exists (mkLog 1 1 []).
Qed.

Lemma handleAppendEntries_matching_witness :
  let r := demo_node "n2" 1 Follower demo_follower_log in
  exists r' resp l', handleAppendEntries r demo_request = Ret (r', resp, true) /\
    repr (logStore r') l' /\ matching l' demo_leader_log /\
    currentTerm r' = 2 /\ state r' = Follower /\ commitIndex r <= commitIndex r' <= zlen l' /\
    take (Z.to_nat (commitIndex r')) l' = take (Z.to_nat (commitIndex r')) demo_leader_log /\
    (forall c, (c <= length demo_follower_log)%nat -> take c demo_follower_log = take c demo_leader_log ->
       take c l' = take c demo_leader_log) /\
    (aer_Success resp = true ->
       take 3 l' = take 3 demo_leader_log /\ commitIndex r' = Z.max 0 2 /\
       (l' = demo_follower_log \/ l' = take 3 demo_leader_log)) /\
    (aer_Success resp = false ->
       commitIndex r' = 0 /\
       ((~ agree_at demo_follower_log demo_leader_log 1 /\ l' = demo_follower_log) \/
        (agree_at demo_follower_log demo_leader_log 1 /\
         exists j, cut_at demo_follower_log 1 (ae_Entries demo_request) j /\ l' = take j demo_follower_log))).
Proof.
  exact (handleAppendEntries_matching (demo_node "n2" 1 Follower demo_follower_log) demo_request
    demo_follower_log demo_leader_log 1 2 demo_follower_repr demo_leader_numbered demo_sent
    demo_matching ltac:(by_compute) ltac:(by_compute) ltac:(by_compute) ltac:(by_compute)
    ltac:(by_compute)).
Defined.

Example demo_append :
  match handleAppendEntries (demo_node "n2" 1 Follower demo_follower_log) demo_request with
  | Ret (r', resp, _) =>
      (map (GetLog (logStore r')) [1; 2; 3; 4], commitIndex r', resp)
      = (map Got demo_leader_log ++ [NotGot None "log entry 4 not found"], 2, mkAER 2 true 0 0)
  | _ => False
  end.
Proof. vm_compute. reflexivity. Qed.

(** C38: the leader commits by majority and only in its own term. [advanceCommitIndex]
    never panics; when it moves the commit index, the new value is the highest index
    that more than half of the servers (the leader and its peers) hold, and the entry
    there is of the current term; otherwise nothing changes. *)
Theorem advanceCommitIndex_majority {L Sb F R} `{LogStoreSpec L} `{StableStoreSpec Sb}
    (r : RaftNode L Sb F R) l :
  repr (logStore r) l -> zlen l <= max_uint ->
  (forall id p, peers r !! id = Some p -> 0 <= matchIndex p <= max_uint) ->
  0 <= commitIndex r ->
  exists r', advanceCommitIndex r = Ret r' /\
    (r' = r \/ exists c e, r' = notifyCommit (set_commitIndex c r) /\ commitIndex r < c /\
       (length (matches_of r) / 2 < holders c (matches_of r))%nat /\
       (forall v, (length (matches_of r) / 2 < holders v (matches_of r))%nat -> v <= c) /\
       l !! Z.to_nat (c - 1) = Some e /\ Term e = currentTerm r).
Proof. apply advanceCommitIndex_spec. Qed.

Definition demo_leader : demo_server :=
  set_peers
    (<[bytes_of "n2" := mkPeerState (bytes_of "n2") (bytes_of "h2") 4 3 false]>
      (<[bytes_of "n3" := mkPeerState (bytes_of "n3") (bytes_of "h3") 1 0 false]> ∅))
    (demo_node "n1" 2 Leader demo_leader_log).

Lemma demo_leader_repr : repr (logStore demo_leader) demo_leader_log.
Proof.
  apply (inmem_stores_repr demo_leader_log _ []); [apply inmem_new_repr|].
  apply demo_leader_numbered.
Qed.

Lemma demo_leader_peers id p :
  peers demo_leader !! id = Some p -> 0 <= matchIndex p <= max_uint.
Proof.
  unfold demo_leader. simpl.
  intros [[_ <-]|[_ [[_ <-]|[_ Hp]]%lookup_insert_Some]]%lookup_insert_Some; [done|done|].
  by rewrite lookup_empty in Hp.
Qed.

Lemma advanceCommitIndex_majority_witness :
  exists r', advanceCommitIndex demo_leader = Ret r' /\
    (r' = demo_leader \/ exists c e, r' = notifyCommit (set_commitIndex c demo_leader) /\ 0 < c /\
       (length (matches_of demo_leader) / 2 < holders c (matches_of demo_leader))%nat /\
       (forall v, (length (matches_of demo_leader) / 2 < holders v (matches_of demo_leader))%nat ->
         v <= c) /\
       demo_leader_log !! Z.to_nat (c - 1) = Some e /\ Term e = 2).
Proof.
  exact (advanceCommitIndex_majority demo_leader demo_leader_log demo_leader_repr
    ltac:(by_compute) demo_leader_peers ltac:(by_compute)).
Defined.

Example demo_commit :
  match advanceCommitIndex demo_leader with Ret r' => commitIndex r' = 3 | _ => False end.
Proof. vm_compute. reflexivity. Qed.
