(* ===== verification/Rpc.v ===== *)
(** The dispatch of incoming RPCs ([handleRPC] of [internal/raft/raft.go]) and what
    the two handlers together promise about votes: one candidate per term, also
    across a restart. *)
From S2P Require Import Prelude Stores Future Config Node Election Replication.

(** * The code *)

(** [rpc.Command], an [interface{}]. *)
Inductive Command : Type :=
| CAppendEntries (req : AppendEntriesRequest)
| CRequestVote (req : RequestVoteRequest)
| COther.

(** [RPCResponse]: what [rpc.Respond] sends back. *)
Inductive RPCResponse : Type :=
| RAppendEntries (resp : AppendEntriesResponse)
| RRequestVote (resp : RequestVoteResponse)
| RError (err : string).

Section rpc.
  Context {L Sb F R : Type} `{LogStore L} `{StableStore Sb}.
  Implicit Types r : RaftNode L Sb F R.

Definition handleRPC r (cmd : Command) : outcome Empty_set (RaftNode L Sb F R * RPCResponse * bool) :=
  match cmd with
  | CAppendEntries req =>
      p ← handleAppendEntries r req;
      let '(r', resp, resetTimer) := p in Ret (r', RAppendEntries resp, resetTimer)
  | CRequestVote req =>
      p ← handleRequestVote r req;
      let '(r', resp, resetTimer) := p in Ret (r', RRequestVote resp, resetTimer)
  | COther => Ret (r, RError "unknown RPC type", false)
  end.

(** The vote an RPC obtained: the term and the candidate. *)
Definition vote_of (cmd : Command) (resp : RPCResponse) : list (Z * text) :=
  match cmd, resp with
  | CRequestVote req, RRequestVote v => if rvr_VoteGranted v then [(rvr_Term v, rv_CandidateID req)] else []
  | _, _ => []
  end.

(** The RPCs a server handles, in order, with the votes it gives. *)
Fixpoint run_rpcs r (cmds : list Command) : outcome Empty_set (RaftNode L Sb F R * list (Z * text)) :=
  match cmds with
  | [] => Ret (r, [])
  | cmd :: cmds' =>
      p ← handleRPC r cmd;
      let '(r', resp, _) := p in
      q ← run_rpcs r' cmds';
      Ret (fst q, vote_of cmd resp ++ snd q)
  end.

(** Candidates have identifiers ([Config.validate] asks for one). *)
Definition named (cmd : Command) : Prop :=
  match cmd with CRequestVote req => rv_CandidateID req <> [] | _ => True end.

Context `{!StableStoreSpec Sb}.

(** ** Votes of a follower *)

Record vote_step r r' (votes : list (Z * text)) : Prop := mk_vote_step {
  vs_state : state r = Follower -> state r' = Follower;
  vs_term : currentTerm r <= currentTerm r';
  vs_keep : state r = Follower -> currentTerm r' = currentTerm r -> votedFor r <> [] ->
    votedFor r' = votedFor r;
  vs_vote : forall t c, (t, c) ∈ votes ->
    t = currentTerm r' /\ votedFor r' = c /\
    (t = currentTerm r -> votedFor r = [] \/ votedFor r = c)
}.

Lemma vote_step_refl r : vote_step r r [].
Proof. constructor; try done. by intros t c ?%not_elem_of_nil. Qed.

Lemma handleAppendEntries_votes r req r' resp b :
  handleAppendEntries r req = Ret (r', resp, b) -> vote_step r r' [].
Proof.
  unfold handleAppendEntries. destruct (Z.ltb_spec (ae_Term req) (currentTerm r)).
  { intros [= <- _ _]. apply vote_step_refl. }
  destruct (accept_leader_spec r req) as (r1&->&[A1 A2 _ A4 _ _ _]); [done|].
  intros Hh.
  assert (Hsame : state r' = state r1 /\ currentTerm r' = currentTerm r1 /\ votedFor r' = votedFor r1).
  { cbn [mbind outcome_bind] in Hh. apply bind_ret in Hh as ([[ct ci]|]&_&Hh).
    { by injection Hh as <- _ _. }
    apply bind_ret in Hh as ([log ok]&_&Hh). destruct ok; simpl in Hh; injection Hh as <- _ _; [|done].
    unfold follow_commit.
    destruct (commitIndex _ <? _); split_and!; reflexivity. }
  destruct Hsame as (E1&E2&E3). constructor; rewrite ?E1, ?E2, ?E3, ?A1, ?A2; try done.
  - intros Hf Ht Hv. rewrite A4, Hf, bool_decide_true by done.
    by destruct (Z.ltb_spec (currentTerm r) (ae_Term req)); [lia|].
  - by intros t c ?%not_elem_of_nil.
Qed.

Lemma handleRequestVote_votes r req r' resp b :
  handleRequestVote r req = Ret (r', resp, b) ->
  vote_step r r' (if rvr_VoteGranted resp then [(rvr_Term resp, rv_CandidateID req)] else []).
Proof.
  intros Hh. destruct (handleRequestVote_spec r req) as (r2&Hr2&Hs).
  rewrite Hr2 in Hh. injection Hh as <- <- <-. cbn.
  unfold same_but_stable, at_term in Hs. unfold vote_ok in *.
  destruct (Z.leb_spec (currentTerm r) (rv_Term req)); simpl in *.
  2: { destruct (Z.ltb_spec (currentTerm r) (rv_Term req)); [lia|]. rewrite Hs.
       constructor; cbn; try done. by intros t c ?%not_elem_of_nil. }
  rewrite Z.max_r by lia.
  destruct (Z.ltb_spec (currentTerm r) (rv_Term req)); simpl in *.
  - destruct (isLogUpToDate _ _ _ _); simpl in Hs |- *; rewrite Hs; constructor; cbn; try done; try lia.
    + by intros t c [= -> ->]%list_elem_of_singleton; split_and!; [..|lia].
    + by intros t c ?%not_elem_of_nil.
  - destruct (bool_decide (votedFor r = [])) eqn:E1; simpl in *.
    + apply bool_decide_eq_true in E1.
      destruct (isLogUpToDate _ _ _ _); simpl in Hs |- *; rewrite Hs; constructor; cbn; try done.
      * by intros t c [= -> ->]%list_elem_of_singleton; split_and!; [lia|done|left].
      * by intros t c ?%not_elem_of_nil.
    + destruct (bool_decide (votedFor r = rv_CandidateID req)) eqn:E2; simpl in *.
      * apply bool_decide_eq_true in E2.
        destruct (isLogUpToDate _ _ _ _); simpl in Hs |- *; rewrite Hs; constructor; cbn; try done.
        -- by intros t c [= -> ->]%list_elem_of_singleton; split_and!; [lia|done|right].
        -- by intros t c ?%not_elem_of_nil.
      * rewrite Hs. constructor; cbn; try done. by intros t c ?%not_elem_of_nil.
Qed.

Lemma handleRPC_votes r cmd r' resp b :
  handleRPC r cmd = Ret (r', resp, b) -> vote_step r r' (vote_of cmd resp).
Proof.
  destruct cmd as [req|req|]; simpl.
  - intros ([[r1 resp1] b1]&Hh&[= <- <- _])%bind_ret. by eapply handleAppendEntries_votes.
  - intros ([[r1 resp1] b1]&Hh&[= <- <- _])%bind_ret. by eapply handleRequestVote_votes.
  - intros [= <- <- _]. apply vote_step_refl.
Qed.

(** Every later vote of a term is for the candidate that already has it. *)
Lemma run_rpcs_votes cmds : forall r r' votes,
  state r = Follower -> Forall named cmds -> run_rpcs r cmds = Ret (r', votes) ->
  (forall t c, (t, c) ∈ votes -> currentTerm r <= t /\ c <> [] /\
     (t = currentTerm r -> votedFor r <> [] -> c = votedFor r)) /\
  (forall t c c', (t, c) ∈ votes -> (t, c') ∈ votes -> c = c').
Proof.
  induction cmds as [|cmd cmds IH]; intros r r' votes Hf Hn Hr; simpl in Hr.
  { simplify_eq. split; [by intros t c ?%not_elem_of_nil|by intros t c c' ?%not_elem_of_nil]. }
  apply bind_ret in Hr as ([[r1 resp] b]&Hh&Hr). apply bind_ret in Hr as ([r2 vs]&Hr&[= <- <-]).
  apply Forall_cons in Hn as [Hn Hns].
  destruct (handleRPC_votes _ _ _ _ _ Hh) as [V1 V2 V3 V4]. specialize (V1 Hf).
  destruct (IH _ _ _ V1 Hns Hr) as [I1 I2].
  assert (Hnew : forall t c, (t, c) ∈ vote_of cmd resp -> c <> []).
  { intros t c Hc. destruct cmd, resp; simpl in Hc; try by apply not_elem_of_nil in Hc.
    destruct (rvr_VoteGranted _); [|by apply not_elem_of_nil in Hc].
    apply list_elem_of_singleton in Hc. simplify_eq. done. }
  cbn [fst snd]. split.
  - intros t c [Hc|Hc]%elem_of_app.
    + destruct (V4 _ _ Hc) as (->&Hv&Hold). split_and!; [lia|by eapply Hnew|].
      intros Ht Hne. destruct (Hold Ht) as [?|?]; congruence.
    + destruct (I1 _ _ Hc) as (Hle&Hne&Hold). split_and!; [lia|done|]. intros Ht Hv.
      assert (currentTerm r1 = currentTerm r) as Et by lia.
      rewrite <-(V3 Hf Et Hv). apply Hold; [lia|]. by rewrite (V3 Hf Et Hv).
  - intros t c c' [Hc|Hc]%elem_of_app [Hc'|Hc']%elem_of_app.
    + destruct (V4 _ _ Hc) as (_&<-&_), (V4 _ _ Hc') as (_&<-&_). done.
    + destruct (V4 _ _ Hc) as (Et&Ev&_), (I1 _ _ Hc') as (_&_&Hold).
      pose proof (Hnew _ _ Hc). symmetry. rewrite <-Ev. apply Hold; congruence.
    + destruct (V4 _ _ Hc') as (Et&Ev&_), (I1 _ _ Hc) as (_&_&Hold).
      pose proof (Hnew _ _ Hc'). rewrite <-Ev. apply Hold; congruence.
    + by eapply I2.
Qed.

(** ** Votes on disk *)

Definition cmd_term_ok (cmd : Command) : Prop :=
  match cmd with
  | CAppendEntries req => 0 <= ae_Term req <= max_uint
  | CRequestVote req => 0 <= rv_Term req <= max_uint
  | COther => True
  end.

Context `{!StableStoreReliable Sb}.

Lemma stepDown_durable r t :
  0 <= t <= max_uint ->
  exists r', stepDown r t = Ret r' /\ durable r' /\ term_ok r'.
Proof.
  intros Ht. unfold stepDown.
  destruct (persistState_durable (set_leaderAddr [] (set_leaderID [] (set_votedFor []
    (set_state Follower (set_currentTerm t r)))))) as (r1&->&Hs&Hd); [done|].
  exists r1. split_and!; try done. unfold same_but_stable in Hs. unfold term_ok. by rewrite Hs.
Qed.

Lemma vote_durable r c :
  term_ok r -> exists r', persistState (set_votedFor c r) = Ret r' /\ durable r' /\ term_ok r'.
Proof.
  intros Ht. destruct (persistState_durable (set_votedFor c r)) as (r1&->&Hs&Hd); [done|].
  exists r1. split_and!; try done. unfold same_but_stable in Hs. unfold term_ok. by rewrite Hs.
Qed.

Lemma handleRequestVote_durable r req r' resp b :
  durable r -> term_ok r -> 0 <= rv_Term req <= max_uint ->
  handleRequestVote r req = Ret (r', resp, b) -> durable r' /\ term_ok r'.
Proof.
  intros Hd Ht Hq. unfold handleRequestVote. destruct (rv_Term req <? currentTerm r).
  { intros Hh. by injection Hh as <- _ _. }
  assert (exists r1, (if currentTerm r <? rv_Term req then stepDown r (rv_Term req) else Ret r)
    = Ret r1 /\ durable r1 /\ term_ok r1) as (r1&->&Hd1&Ht1).
  { destruct (currentTerm r <? rv_Term req); [by apply stepDown_durable|by exists r]. }
  cbn [mbind outcome_bind].
  destruct (_ && _); [intros Hh; by injection Hh as <- _ _|].
  destruct (lastLogInfo r1) as [i t].
  destruct (negb _); [intros Hh; by injection Hh as <- _ _|].
  destruct (vote_durable r1 (rv_CandidateID req) Ht1) as (r2&->&Hd2&Ht2).
  cbn [mbind outcome_bind]. intros Hh. by injection Hh as <- _ _.
Qed.

Lemma handleAppendEntries_durable r req r' resp b :
  durable r -> term_ok r -> 0 <= ae_Term req <= max_uint ->
  handleAppendEntries r req = Ret (r', resp, b) -> durable r' /\ term_ok r'.
Proof.
  intros Hd Ht Hq. unfold handleAppendEntries. destruct (ae_Term req <? currentTerm r).
  { intros Hh. by injection Hh as <- _ _. }
  assert (exists r1, accept_leader r req = Ret r1 /\ durable r1 /\ term_ok r1)
    as (r1&->&Hd1&Ht1).
  { unfold accept_leader.
    assert (exists r1, (if currentTerm r <? ae_Term req then stepDown r (ae_Term req)
      else if negb (bool_decide (state r = Follower)) then stepDown r (ae_Term req) else Ret r)
      = Ret r1 /\ durable r1 /\ term_ok r1) as (r1&->&Hd1&Ht1).
    { destruct (currentTerm r <? ae_Term req); [by apply stepDown_durable|].
      destruct (negb _); [by apply stepDown_durable|by exists r]. }
    cbn [mbind outcome_bind]. eexists. split; [done|].
    unfold set_leaderAddr_of. by destruct (find_addr _ _). }
  cbn [mbind outcome_bind]. intros Hh. apply bind_ret in Hh as ([[ct ci]|]&_&Hh).
  { by injection Hh as <- _ _. }
  apply bind_ret in Hh as ([log ok]&_&Hh).
  destruct ok; simpl in Hh; injection Hh as <- _ _; [|done].
  unfold follow_commit. by destruct (commitIndex _ <? _).
Qed.

Lemma handleRPC_durable r cmd r' resp b :
  durable r -> term_ok r -> cmd_term_ok cmd -> handleRPC r cmd = Ret (r', resp, b) ->
  durable r' /\ term_ok r'.
Proof.
  intros Hd Ht Hc. destruct cmd as [req|req|]; simpl in *.
  - intros ([[r1 resp1] b1]&Hh&Hx)%bind_ret. injection Hx as <- _ _.
    by eapply handleAppendEntries_durable.
  - intros ([[r1 resp1] b1]&Hh&Hx)%bind_ret. injection Hx as <- _ _.
    by eapply handleRequestVote_durable.
  - intros Hx. by injection Hx as <- _ _.
Qed.

Lemma NewRaftNode_durable r c log machine :
  durable r -> validate c = Ret tt -> CLogStore c = Some log -> CFSM c = Some machine ->
  CStableStore c = Some (stableStore r) ->
  exists r', NewRaftNode c = Ret r' /\ currentTerm r' = currentTerm r /\
    votedFor r' = votedFor r /\ state r' = Follower /\ logStore r' = log.
Proof.
  intros [H1' H2'] Hv Hl Hm Hs. unfold NewRaftNode. rewrite Hv, Hl, Hm, Hs. cbn [mbind outcome_bind].
  unfold restoreState. simpl. rewrite H1'. simpl. rewrite H2'. simpl. by eexists.
Qed.

End rpc.

(** * Properties *)

(** One vote per term. A follower that handles any sequence of RPCs of both kinds,
    whatever they hold, gives the vote of a term to at most one candidate. *)
Theorem follower_votes_once {L Sb F R} `{LogStore L} `{StableStoreSpec Sb}
    (r r' : RaftNode L Sb F R) cmds votes :
  state r = Follower -> Forall named cmds -> run_rpcs r cmds = Ret (r', votes) ->
  forall t c c', (t, c) ∈ votes -> (t, c') ∈ votes -> c = c'.
Proof. intros Hf Hn Hr. by destruct (run_rpcs_votes cmds r r' votes Hf Hn Hr) as [_ ?]. Qed.

Definition demo_cmds : list Command :=
  [CRequestVote (mkRV 2 (bytes_of "n2") 0 0); CRequestVote (mkRV 2 (bytes_of "n3") 9 9);
   CAppendEntries (mkAE 2 (bytes_of "n2") 0 0 [] 0); CRequestVote (mkRV 3 (bytes_of "n3") 9 9)].
Definition demo_rpcs : demo_server * list (Z * text) :=
  ret_of (demo_node "n1" 1 Follower [], []) (run_rpcs (demo_node "n1" 1 Follower []) demo_cmds).

Lemma demo_rpcs_ret :
  run_rpcs (demo_node "n1" 1 Follower []) demo_cmds = Ret (fst demo_rpcs, snd demo_rpcs).
Proof. unfold demo_rpcs. apply ret_of_pair. vm_compute. reflexivity. Qed.

Example demo_votes : snd demo_rpcs = [(2, bytes_of "n2"); (3, bytes_of "n3")].
Proof. vm_compute. reflexivity. Qed.

Lemma follower_votes_once_witness :
  snd demo_rpcs = [(2, bytes_of "n2"); (3, bytes_of "n3")] /\
  forall t c c', (t, c) ∈ snd demo_rpcs -> (t, c') ∈ snd demo_rpcs -> c = c'.
Proof.
  split; [by_compute|].
  exact (follower_votes_once (demo_node "n1" 1 Follower []) (fst demo_rpcs) demo_cmds (snd demo_rpcs)
    ltac:(reflexivity) ltac:(repeat constructor; done) demo_rpcs_ret).
Defined.

(** Votes survive a crash. With a stable store whose writes succeed, the term and
    the vote that an RPC leaves in memory are on disk when the response goes out: a
    node started again from the same stores has both, and is a follower. *)
Theorem vote_survives_restart {L Sb F R} `{LogStore L} `{StableStoreSpec Sb}
    `{!StableStoreReliable Sb} (r r' : RaftNode L Sb F R) cmd resp b c log machine :
  durable r -> term_ok r -> cmd_term_ok cmd -> handleRPC r cmd = Ret (r', resp, b) ->
  validate c = Ret tt -> CLogStore c = Some log -> CFSM c = Some machine ->
  CStableStore c = Some (stableStore r') ->
  exists r'' : RaftNode L Sb F R, NewRaftNode c = Ret r'' /\ currentTerm r'' = currentTerm r' /\
    votedFor r'' = votedFor r' /\ state r'' = Follower /\ durable r''.
Proof.
  intros Hd Ht Hc Hh Hv Hl Hm Hs.
  destruct (handleRPC_durable r cmd r' resp b Hd Ht Hc Hh) as [Hd' _].
  pose proof Hd' as [D1 D2]. unfold NewRaftNode. rewrite Hv, Hl, Hm, Hs. cbn [mbind outcome_bind].
  unfold restoreState. simpl. rewrite D1. simpl. rewrite D2. simpl. by eexists.
Qed.

Definition demo_fresh : demo_server := demo_node "n1" 0 Follower [].
Lemma demo_fresh_durable : durable demo_fresh.
Proof. split; vm_compute; reflexivity. Qed.

Definition demo_vote : Command := CRequestVote (mkRV 2 (bytes_of "n2") 0 0).
Definition demo_voted : demo_server :=
  fst (fst (ret_of (demo_fresh, RError "", false) (handleRPC demo_fresh demo_vote))).

Lemma demo_voted_ret :
  handleRPC demo_fresh demo_vote = Ret (demo_voted, RRequestVote (mkRVR 2 true), true).
Proof.
  unfold demo_voted. generalize (demo_fresh, RError "", false). intros d.
  assert (Hm : match handleRPC demo_fresh demo_vote with
          | Ret (_, RRequestVote v, b) => (rvr_Term v, rvr_VoteGranted v, b) = (2, true, true)
          | _ => False
          end) by (vm_compute; reflexivity).
  destruct (handleRPC demo_fresh demo_vote) as [[[r' [|[t g]|]] b]| | |]; try done.
  simpl in Hm. by simplify_eq.
Qed.

Definition demo_restart : Config InmemLogStore InmemStableStore unit :=
  mkConfig (bytes_of "n1") demo_peers (150 * Millisecond) (1000 * Millisecond) (2000 * Millisecond)
    (Some (logStore demo_voted)) (Some (stableStore demo_voted)) (Some tt).

Lemma vote_survives_restart_witness :
  exists r'' : demo_server, NewRaftNode demo_restart = Ret r'' /\ currentTerm r'' = currentTerm demo_voted /\
    votedFor r'' = votedFor demo_voted /\ state r'' = Follower /\ durable r''.
Proof.
  exact (vote_survives_restart demo_fresh demo_voted demo_vote
    (RRequestVote (mkRVR 2 true)) true demo_restart (logStore demo_voted) tt
    demo_fresh_durable ltac:(by_compute) ltac:(by_compute) demo_voted_ret ltac:(by_compute)
    ltac:(reflexivity) ltac:(reflexivity) ltac:(reflexivity)).
Defined.

(** A candidate can vote twice in one term. It has voted for itself; an
    [AppendEntries] of its own term makes it step down, which clears [votedFor]; and
    then it grants another candidate its vote of that term. *)
Theorem candidate_votes_twice :
  exists (r0 : demo_server) ae rv,
    match startElection r0 with
    | Ret (r1, req, _) =>
        state r1 = Candidate /\ rv_Term req = 2 /\ votedFor r1 = bytes_of "n1" /\ ae_Term ae = 2 /\
        match handleRPC r1 (CAppendEntries ae) with
        | Ret (r2, _, _) =>
            currentTerm r2 = 2 /\ rv_Term rv = 2 /\
            match handleRPC r2 (CRequestVote rv) with
            | Ret (r3, RRequestVote v, _) =>
                currentTerm r3 = 2 /\ rvr_VoteGranted v = true /\ votedFor r3 = bytes_of "n3"
            | _ => False
            end
        | _ => False
        end
    | _ => False
    end.
Proof.
  exists (demo_node "n1" 1 Candidate []), (mkAE 2 (bytes_of "n2") 0 0 [] 0),
    (mkRV 2 (bytes_of "n3") 0 0).
  vm_compute. by split_and!.
Qed.

(** A stable store whose disk is full: reads work, writes fail. *)
Definition full_disk : StableStore unit := {|
  Set_ _ _ _ := Err "no space left"%string;
  Get _ _ := Ret [];
  SetUint64 _ _ _ := Err "no space left"%string;
  GetUint64 _ _ := Ret 0
|}.

(** A vote is granted even when it could not be saved. The errors of
    [persistState] are only logged, so a server with a full disk votes, restarts,
    and votes for another candidate in the same term. *)
Theorem vote_despite_failed_write :
  exists (c : Config InmemLogStore unit unit) rv1 rv2,
    rv_Term rv1 = rv_Term rv2 /\ rv_CandidateID rv1 <> rv_CandidateID rv2 /\
    match NewRaftNode (R := unit) (H0 := full_disk) c with
    | Ret r =>
        match handleRequestVote (H0 := full_disk) r rv1 with
        | Ret (r1, resp1, _) =>
            rvr_VoteGranted resp1 = true /\ CStableStore c = Some (stableStore r1) /\
            CLogStore c = Some (logStore r1)
        | _ => False
        end /\
        match handleRequestVote (H0 := full_disk) r rv2 with
        | Ret (r2, resp2, _) => rvr_VoteGranted resp2 = true
        | _ => False
        end
    | _ => False
    end.
Proof.
  exists (mkConfig (bytes_of "n1") demo_peers (150 * Millisecond) (1000 * Millisecond)
    (2000 * Millisecond) (Some NewInmemLogStore) (Some tt) (Some tt)),
    (mkRV 5 (bytes_of "n2") 0 0), (mkRV 5 (bytes_of "n3") 0 0).
  vm_compute. by split_and!.
Qed.
