(* ===== verification/Sync.v ===== *)
(** A leader and one follower: rounds of [replicateOnce] ([internal/raft/replication.go])
    against the follower's handler. Whatever uncommitted entries the follower has, the
    rounds end, after backing up finitely often, with the leader's log on the
    follower. *)
From S2P Require Import Prelude Stores Future Config Node Election Replication.

Section sync.
  Context {L Sb F R : Type} `{LogStore L} `{StableStore Sb}.
  Implicit Types r rl rf : RaftNode L Sb F R.

(** * The code

    One call of [replicateOnce] for the peer [id] of the leader [rl], with a transport
    that delivers the request to the node [rf] and its response back. *)
Definition replicateOnce rl rf (id : text)
  : outcome Empty_set (RaftNode L Sb F R * RaftNode L Sb F R * bool) :=
  match peers rl !! id with
  | None => Ret (rl, rf, false)
  | Some peer =>
      q ← replicate_build rl peer;
      match q with
      | None => Ret (rl, rf, false)
      | Some req =>
          h ← handleAppendEntries rf req;
          let '(rf', resp, _) := h in
          rl' ← replicate_process rl id (ae_Entries req) resp;
          Ret (rl', rf', aer_Success resp)
      end
  end.

(** The replicator's loop until the follower accepts. *)
Fixpoint sync (fuel : nat) rl rf (id : text)
  : outcome Empty_set (RaftNode L Sb F R * RaftNode L Sb F R) :=
  match fuel with
  | O => NoFuel
  | S fuel' =>
      p ← replicateOnce rl rf id;
      let '(rl', rf', ok) := p in
      if (ok : bool) then Ret (rl', rf') else sync fuel' rl' rf' id
  end.

End sync.

(** * Rounds end *)

(** The leader of a term appends its entries one after the other: where the
    follower's entry differs from the leader's, the leader's log has no entry of the
    follower's term from there on. *)
Definition terms_apart (l ll : list LogEntry) : Prop :=
  forall k i x y z, l !! k = Some x -> ll !! k = Some y -> Term x <> Term y ->
    (k <= i)%nat -> ll !! i = Some z -> Term z <> Term x.

Section rounds.
  Context {L Sb F R : Type} `{LogStoreSpec L} `{!LogStoreReliable L} `{StableStoreSpec Sb}.
  Implicit Types r rl rf : RaftNode L Sb F R.

(** A leader [rl] with log [ll], a follower [rf] with log [l], and the state [p] that
    the leader keeps for the follower. *)
Record pair_ok rl rf (id : text) (ll l : list LogEntry) (p : peerState) : Prop := mk_pair {
  po_leader : repr (logStore rl) ll;
  po_follower : repr (logStore rf) l;
  po_state : state rl = Leader;
  po_peer : peers rl !! id = Some p;
  po_next : 1 <= nextIndex p <= zlen ll + 1;
  po_matches : forall i q, peers rl !! i = Some q -> 0 <= matchIndex q <= max_uint;
  po_commit : 0 <= commitIndex rl;
  po_matching : matching l ll;
  po_apart : terms_apart l ll;
  po_term : currentTerm rf <= currentTerm rl;
  po_size : zlen l + zlen ll < max_uint
}.

Lemma append_loop_reliable es : forall s l k s' ok,
  repr s l -> (k <= length l)%nat -> numbered (Z.of_nat k + 1) es ->
  zlen l + zlen es < max_uint -> append_loop s es = Ret (s', ok) -> ok = true.
Proof.
  induction es as [|e es IH]; intros s l k s' ok Hr Hk Hn Hm Ha; cbn [append_loop] in Ha.
  { by injection Ha as _ <-. }
  pose proof Hn as Hn'. apply numbered_cons in Hn' as [[He _] Hes].
  pose proof (GetLog_cases s l (Index e) Hr ltac:(unfold zlen in *; simpl in *; lia)) as Hget.
  replace (Z.to_nat (Index e - 1)) with k in Hget by lia.
  destruct (l !! k) as [x|] eqn:Ek.
  - rewrite Hget in Ha. apply lookup_lt_Some in Ek. destruct (Term x =? Term e).
    { apply (IH s l (k + 1)%nat s' ok Hr); [lia| |zl|done].
      by replace (Z.of_nat (k + 1) + 1) with (Z.of_nat k + 1 + 1) by lia. }
    rewrite (LastIndex_spec s l Hr) in Ha. simpl in Ha.
    assert (Hi : 1 <= Index e <= zlen l) by (unfold zlen; lia).
    pose proof (DeleteRange_reliable s l (Index e) Hr Hi ltac:(zl)) as Hd.
    destruct (DeleteRange_spec s l (Index e) Hr Hi) as [[err E]|(s1&E&Hr1)];
      [zl|by rewrite E in Hd|]. rewrite E in Ha. simpl in Ha.
    replace (Z.to_nat (Index e - 1)) with k in Hr1 by lia.
    assert (Hz : zlen (take k l) = Z.of_nat k) by (rewrite zlen_take; unfold zlen; lia).
    pose proof (StoreLogs_reliable s1 (take k l) (e :: es) Hr1 ltac:(by rewrite Hz)) as Hs.
    destruct (StoreLogs s1 (e :: es)); try done. simpl in Ha. by injection Ha as _ <-.
  - destruct Hget as (q&err&E). rewrite E in Ha. apply lookup_ge_None_1 in Ek.
    assert (Hz : zlen l = Z.of_nat k) by (unfold zlen; lia).
    pose proof (StoreLogs_reliable s l (e :: es) Hr ltac:(by rewrite Hz)) as Hs.
    destruct (StoreLogs s (e :: es)); try done. simpl in Ha. by injection Ha as _ <-.
Qed.

(** A follower with a working store takes what is sent at a place where it agrees. *)
Lemma sent_stored s l ll req k n s' :
  repr s l -> numbered 1 ll -> sent_from ll req k n -> agree_at l ll k -> zlen l + zlen ll < max_uint ->
  append_loop s (ae_Entries req) <> Ret (s', false).
Proof.
  intros Hr Hn Hsent Hag Hz Ha. pose proof Hsent as [_ Hlen _ Hes].
  assert (false = true); [|done].
  apply (append_loop_reliable (ae_Entries req) s l k s');
    [done|by eapply agree_at_len|exact (sent_numbered _ _ _ _ Hn Hsent)|unfold zlen in *; rewrite Hes, length_take, length_drop; lia|done].
Qed.

(** The last entry sent is the leader's last. *)
Lemma last_sent ll req k n e :
  numbered 1 ll -> sent_from ll req k n -> (k + n = length ll)%nat ->
  last (ae_Entries req) = Some e -> Index e = zlen ll.
Proof.
  intros Hn [_ _ _ ->] Hk He. rewrite take_ge in He by (rewrite length_drop; lia).
  rewrite last_lookup, lookup_drop, length_drop in He.
  pose proof (lookup_lt_Some _ _ _ He). destruct (Hn _ _ He) as [-> _]. unfold zlen. lia.
Qed.

(** The leader's bookkeeping for an accepted request. *)
Lemma process_accepted rl id ll p req k n resp :
  repr (logStore rl) ll -> peers rl !! id = Some p -> nextIndex p = Z.of_nat k + 1 ->
  (forall i q, peers rl !! i = Some q -> 0 <= matchIndex q <= max_uint) -> 0 <= commitIndex rl ->
  sent_from ll req k n -> (k + n = length ll)%nat -> zlen ll < max_uint ->
  aer_Success resp = true -> aer_Term resp <= currentTerm rl ->
  exists rl' p', replicate_process rl id (ae_Entries req) resp = Ret rl' /\
    repr (logStore rl') ll /\ peers rl' !! id = Some p' /\ nextIndex p' = zlen ll + 1.
Proof.
  intros Hl Hp Hnext Hms Hc Hsent Hk Hz Ers Ht. unfold replicate_process.
  destruct (Z.ltb_spec (currentTerm rl) (aer_Term resp)); [lia|]. rewrite Hp, Ers. zlen_facts.
  pose proof (fun e => last_sent _ _ _ _ e (repr_numbered _ _ Hl) Hsent Hk) as Hlast.
  assert (Hpeer : exists p', nextIndex p' = zlen ll + 1 /\ 0 <= matchIndex p' <= max_uint /\
    p' = match last (ae_Entries req) with
         | Some e => set_next (Index e +ᵤ 1)%go (set_match (Index e) p)
         | None => p
         end).
  { eexists. split; [|split; [|done]]; destruct (last (ae_Entries req)) as [e|] eqn:El; cbn.
    - rewrite (Hlast e eq_refl). by rewrite uwrap64_small by lia.
    - apply last_None in El. rewrite (se_entries _ _ _ _ Hsent) in El.
      apply (f_equal length) in El. rewrite length_take, length_drop in El. simpl in El.
      unfold zlen. lia.
    - rewrite (Hlast e eq_refl). lia.
    - exact (Hms id p Hp). }
  destruct Hpeer as (p'&Hnp&Hmp&<-).
  destruct (advanceCommitIndex_spec (set_peers (<[id := p']> (peers rl)) rl) ll Hl)
    as (rl'&->&Hrl'); [lia| |done|].
  { cbn. intros i q [[_ <-]|[_ Hq]]%lookup_insert_Some; [done|by apply (Hms i)]. }
  assert (logStore rl' = logStore rl /\ peers rl' = <[id := p']> (peers rl)) as [E1 E2].
  { by destruct Hrl' as [->|(c&e&->&_)]. }
  exists rl', p'. rewrite E1, E2. split_and!; try done. apply lookup_insert_eq.
Qed.

(** One round: accepted, with the leader's log on the follower, or refused, with
    everything as before except for a smaller [nextIndex]. *)
Lemma replicateOnce_spec rl rf id ll l p :
  pair_ok rl rf id ll l p ->
  exists rl' rf' ok, replicateOnce rl rf id = Ret (rl', rf', ok) /\
    if (ok : bool) then
      exists l' p', repr (logStore rf') l' /\ matching l' ll /\ take (length ll) l' = ll /\
        repr (logStore rl') ll /\ peers rl' !! id = Some p' /\ nextIndex p' = zlen ll + 1
    else exists p', pair_ok rl' rf' id ll l p' /\ nextIndex p' < nextIndex p.
Proof.
  intros [Hl Hf Hst Hp Hn Hms Hc Hm Hapart Ht Hz]. unfold replicateOnce. rewrite Hp.
  zlen_facts.
  destruct (replicate_build_sent rl p ll Hl Hst Hn) as (req&->&Qt&_&_&Hsent); [lia|].
  cbn [mbind outcome_bind]. set (k := Z.to_nat (nextIndex p - 1)) in *.
  set (n := (length ll - k)%nat) in *.
  destruct (handleAppendEntries_ends rf req l ll k n Hf (repr_numbered _ _ Hl) Hsent Hm)
    as (r1&rf'&resp&l'&Hacc&->&Hf'&Hrt&Hend); [by rewrite Qt|done|].
  cbn [mbind outcome_bind].
  pose proof Hsent as [_ Hlen _ Hes]. destruct (aer_Success resp) eqn:Ers.
  - destruct Hend as (Hag&Hl'&_).
    destruct (ae_log_agree l ll k n Hm Hag Hlen) as [Htake _].
    destruct (ae_log_keeps l ll k n 0 Hm Hag Hlen) as [Hm' _].
    rewrite <-Hl' in Htake, Hm'. replace (k + n)%nat with (length ll) in Htake by lia.
    rewrite (take_ge ll) in Htake by done.
    destruct (process_accepted rl id ll p req k n resp) as (rl'&p'&->&Hl'r&Hp'&Hnp);
      try done; try lia.
    cbn [mbind outcome_bind]. eexists _, _, true. split; [done|]. by exists l', p'.
  - destruct Hend as (E1&E2&E3&[(j&_&_&Hag&Hap)|(->&Hnag&Hci&Hct)]).
    { by destruct (sent_stored _ _ _ _ _ _ _ Hf (repr_numbered _ _ Hl) Hsent Hag Hz Hap). }
    unfold replicate_process. rewrite Hp, Ers.
    destruct (Z.ltb_spec (currentTerm rl) (aer_Term resp)); [lia|].
    destruct (back_up_spec (logStore rl) ll resp k Hl) as (next&->&Hnext); [lia|done| |].
    { intros Hpos i e Hi He. destruct Hct as [Hct|(x&y&Hx&Hy&Hxy&Hct)]; [lia|]. rewrite Hct.
      eapply (Hapart (k - 1)%nat i); try done. lia. }
    cbn [mbind outcome_bind].
    eexists _, _, _. split; [done|]. cbv iota. exists (set_next next p). split; [|cbn; lia].
    constructor; cbn; try done; [apply lookup_insert_eq| | |lia].
    { unfold zlen. lia. }
    intros i q [[_ <-]|[_ Hq]]%lookup_insert_Some; [exact (Hms id p Hp)|by apply (Hms i)].
Qed.

Lemma sync_ends fuel rl rf id ll l p :
  pair_ok rl rf id ll l p -> nextIndex p < Z.of_nat fuel ->
  exists rl' rf' l' p', sync fuel rl rf id = Ret (rl', rf') /\
    repr (logStore rf') l' /\ matching l' ll /\ take (length ll) l' = ll /\
    repr (logStore rl') ll /\ peers rl' !! id = Some p' /\ nextIndex p' = zlen ll + 1.
Proof.
  revert rl rf p. induction fuel as [|fuel IH]; intros rl rf p Hok Hf; [destruct Hok; lia|].
  cbn [sync]. destruct (replicateOnce_spec _ _ _ _ _ _ Hok) as (rl'&rf'&ok&->&Hr).
  cbn [mbind outcome_bind]. destruct ok.
  - destruct Hr as (l'&p'&?). by exists rl', rf', l', p'.
  - destruct Hr as (p'&Hok'&Hlt). apply (IH rl' rf' p' Hok'). lia.
Qed.

End rounds.

(** * Properties *)


(** A new leader that starts from its own last index. *)
Definition demo_peer : peerState := mkPeerState (bytes_of "n2") (bytes_of "h2") 4 0 false.
Definition demo_new_leader : demo_server :=
  set_peers {[bytes_of "n2" := demo_peer]} (demo_node "n1" 2 Leader demo_leader_log).

Lemma demo_pair :
  pair_ok demo_new_leader (demo_node "n2" 1 Follower demo_follower_log) (bytes_of "n2")
    demo_leader_log demo_follower_log demo_peer.
Proof.
  constructor; try done.
  - exact demo_leader_repr.
  - exact demo_follower_repr.
  - intros i q Hq. change (peers demo_new_leader) with ({[bytes_of "n2" := demo_peer]} : gmap text peerState) in Hq.
    by apply lookup_singleton_Some in Hq as [_ <-].
  - exact demo_matching.
  - intros [|[|[|k]]] [|[|[|i]]] x y z Hx Hy Hxy Hi Hz; simpl in *; simplify_eq; simpl in *; lia.
Qed.

