(* ===== verification/Leader.v ===== *)
(** Leadership and application ([internal/raft/raft.go]): becoming leader, proposing
    entries, resolving and failing futures, and the loop that applies committed
    entries to the state machine. *)
From S2P Require Import Prelude Stores Future Config Node Election Replication.

Section leader.
  Context {L Sb F R : Type} `{LogStore L} `{StableStore Sb} `{FSM F R}.
  Implicit Types r : RaftNode L Sb F R.

(** * Becoming leader *)

(** [quorum := totalNodes/2 + 1]. *)
Definition quorum r : Z := zlen (Peers (config r)) / 2 + 1.

(** What [runCandidate] does under the lock when it has won. *)
Definition becomeLeader r : RaftNode L Sb F R :=
  set_leaderAddr_of (ServerID (config r))
    (set_leaderID (ServerID (config r)) (set_state Leader r)).

(** The fresh replication state of [runLeader]. *)
Definition initLeader r : RaftNode L Sb F R :=
  let lastIdx := fst (LastIndex (logStore r)) in
  set_peers
    (foldl (fun m p =>
       if bool_decide (PeerID p = ServerID (config r)) then m
       else <[PeerID p := mkPeerState (PeerID p) (Address p) (lastIdx +ᵤ 1)%go 0 false]> m)
      ∅ (Peers (config r))) r.

(** The entry a leader appends: the next index, the current term. *)
Definition next_entry r (data : text) : LogEntry :=
  mkLog (fst (LastIndex (logStore r)) +ᵤ 1)%go (currentTerm r) data.

Definition appendNoOp r : outcome Empty_set (RaftNode L Sb F R) :=
  or_log (StoreLog (logStore r) (next_entry r []))
    (fun log => Ret (triggerReplication (set_logStore log r))) (Ret r).

(** * Proposals *)

(** [Apply]'s select: where the request goes when the node is leader. *)
Inductive submit_choice : Type := Enqueued | TimedOut | ShutDown.

Definition applyCh_cap : nat := 256.

(** Which cases of the select are ready. *)
Definition choice_ready r (c : submit_choice) : bool :=
  match c with
  | Enqueued => (length (applyCh r) <? applyCh_cap)%nat
  | TimedOut => true
  | ShutDown => shutdownCh r
  end.

(** [Apply]: the node and the address of the new future. *)
Definition Apply r (data : text) (c : submit_choice) : RaftNode L Sb F R * nat :=
  let f := fresh (dom (futures r)) in
  let r := set_futures (<[f := newApplyFuture]> (futures r)) r in
  if negb (bool_decide (state r = Leader)) then (resolve f (Some ErrNotLeader) None r, f)
  else
    match c with
    | Enqueued => (set_applyCh (applyCh r ++ [mkApplyRequest data f]) r, f)
    | TimedOut => (resolve f (Some ErrTimeout) None r, f)
    | ShutDown => (resolve f (Some ErrShutdown) None r, f)
    end.

Definition handleApplyRequest r (req : applyRequest) : outcome Empty_set (RaftNode L Sb F R) :=
  if negb (bool_decide (state r = Leader))
  then Ret (resolve (req_future req) (Some ErrNotLeader) None r)
  else
    let entry := next_entry r (req_data req) in
    match StoreLog (logStore r) entry with
    | Ret log =>
        Ret (triggerReplication
          (set_pendingFutures (<[Index entry := req_future req]> (pendingFutures r))
            (set_logStore log r)))
    | Err err => Ret (resolve (req_future req) (Some (ErrStoreLog err)) None r)
    | Panic => Panic
    | NoFuel => NoFuel
    end.

(** Every pending future gets the error, and the map is emptied. *)
Definition fail_all r (err : apply_error) : RaftNode L Sb F R :=
  set_pendingFutures ∅
    (foldl (fun r f => resolve f (Some err) None r) r (map_to_list (pendingFutures r)).*2).

Definition failPendingFutures r : RaftNode L Sb F R := fail_all r ErrLeaderLost.

(** The body of [shutdownOnce]. *)
Definition Shutdown r : RaftNode L Sb F R :=
  if shutdownCh r then r
  else fail_all (set_state Follower (set_shutdownCh true r)) ErrShutdown.

(** * Applying committed entries *)

(** One pass of the loop of [applyCommitted]. *)
Definition apply_one r (idx : Z) : outcome Empty_set (RaftNode L Sb F R) :=
  match GetLog (logStore r) idx with
  | NotGot _ _ => Ret r
  | Got entry =>
      p ← (if 0 <? zlen (Data entry) then fsm_Apply (fsm r) (Data entry) else Ret (fsm r, None));
      let r := set_lastApplied idx (set_fsm (fst p) r) in
      Ret (match pendingFutures r !! idx with
           | Some f =>
               set_pendingFutures (delete idx (pendingFutures r)) (resolve f None (snd p) r)
           | None => r
           end)
  end.

Fixpoint applyCommitted_loop (fuel : nat) r (idx commitIndex : Z)
  : outcome Empty_set (RaftNode L Sb F R) :=
  if idx <=? commitIndex then
    match fuel with
    | O => NoFuel
    | S fuel' =>
        r ← apply_one r idx;
        applyCommitted_loop fuel' r (idx +ᵤ 1)%go commitIndex
    end
  else Ret r.

Definition applyCommitted r : outcome Empty_set (RaftNode L Sb F R) :=
  applyCommitted_loop (Z.to_nat (commitIndex r - lastApplied r)) r
    (lastApplied r +ᵤ 1)%go (commitIndex r).

(** One turn of [applyLoop]: receive the token, apply. *)
Definition applyLoop_turn r : outcome Empty_set (RaftNode L Sb F R) :=
  if commitNotifyCh r then applyCommitted (set_commitNotifyCh false r) else Ret r.

(** * Reference: the state machine fed with a list of entries

    Entries without data are the leaders' no-ops. *)
Fixpoint feed (f : F) (es : list LogEntry) : outcome Empty_set (F * list (option R)) :=
  match es with
  | [] => Ret (f, [])
  | e :: es' =>
      p ← (if 0 <? zlen (Data e) then fsm_Apply f (Data e) else Ret (f, None));
      q ← feed (fst p) es';
      Ret (fst q, snd p :: snd q)
  end.

Lemma feed_app f es ks :
  feed f (es ++ ks) = (p ← feed f es; q ← feed (fst p) ks; Ret (fst q, snd p ++ snd q)).
Proof.
  revert f. induction es as [|e es IH]; intros f; simpl.
  { destruct (feed f ks) as [[]| | |]; done. }
  destruct (if 0 <? zlen (Data e) then fsm_Apply f (Data e) else Ret (f, None))
    as [[f' x]| | |]; simpl; try done. rewrite IH.
  destruct (feed f' es) as [[f2 xs]| | |]; simpl; try done.
  by destruct (feed f2 ks) as [[]| | |].
Qed.

(** * What applying does *)

(** The pending future of index [i] is the future at address [a]. *)
Definition pending_at r (i : Z) (a : nat) (f : ApplyFuture R) : Prop :=
  pendingFutures r !! i = Some a /\ futures r !! a = Some f.

Definition pending_inj r : Prop :=
  forall i j a, pendingFutures r !! i = Some a -> pendingFutures r !! j = Some a -> i = j.

(** The parts of a node that applying leaves alone. *)
Definition unapplied r :=
  (config r, currentTerm r, votedFor r, logStore r, stableStore r, state r, commitIndex r,
   (peers r, leaderID r, leaderAddr r, applyCh r, commitNotifyCh r, shutdownCh r)).

Lemma resolve_futures id err resp r b :
  futures (resolve id err resp r) !! b =
  if decide (b = id) then (fun f => respond f err resp) <$> futures r !! b else futures r !! b.
Proof.
  unfold resolve. destruct (futures r !! id) as [f|] eqn:E; cbn; case_decide as Hb; subst.
  - by rewrite lookup_insert_eq, E.
  - by rewrite lookup_insert_ne.
  - by rewrite E.
  - done.
Qed.

Lemma resolve_rest id err resp r :
  unapplied (resolve id err resp r) = unapplied r /\ fsm (resolve id err resp r) = fsm r /\
  lastApplied (resolve id err resp r) = lastApplied r /\
  pendingFutures (resolve id err resp r) = pendingFutures r.
Proof. unfold resolve. by destruct (futures r !! id). Qed.

(** One pass: the machine takes the entry, the pending future of its index gets the
    response, the other futures stay. *)
Record applied_one r (idx : Z) (f' : F) (x : option R) r' : Prop := mk_applied_one {
  a1_fsm : fsm r' = f';
  a1_last : lastApplied r' = idx;
  a1_rest : unapplied r' = unapplied r;
  a1_pending : pendingFutures r' = delete idx (pendingFutures r);
  a1_resolved : forall a f, pending_at r idx a f -> futures r' !! a = Some (respond f None x);
  a1_others : forall b, (forall a, pendingFutures r !! idx = Some a -> a <> b) ->
    futures r' !! b = futures r !! b
}.

Lemma apply_one_spec r idx e f' x :
  GetLog (logStore r) idx = Got e ->
  (if 0 <? zlen (Data e) then fsm_Apply (fsm r) (Data e) else Ret (fsm r, None)) = Ret (f', x) ->
  exists r', apply_one r idx = Ret r' /\ applied_one r idx f' x r'.
Proof.
  intros Hg Hf. unfold apply_one. rewrite Hg, Hf. cbn [mbind outcome_bind fst snd].
  change (pendingFutures (set_lastApplied idx (set_fsm f' r))) with (pendingFutures r).
  destruct (pendingFutures r !! idx) as [a|] eqn:Ea; eexists; (split; [reflexivity|]).
  - set (r0 := set_lastApplied idx (set_fsm f' r)).
    destruct (resolve_rest a None x r0) as (E1&E2&E3&_).
    constructor; try done.
    + intros a' f [Ha Hfut]. assert (a' = a) as -> by congruence.
      change (futures (resolve a None x r0) !! a = Some (respond f None x)).
      rewrite resolve_futures, decide_True by done. change (futures r0) with (futures r).
      by rewrite Hfut.
    + intros b Hb. change (futures (resolve a None x r0) !! b = futures r !! b).
      rewrite resolve_futures, decide_False; [done|]. intros ->. by apply (Hb a).
  - constructor; cbn; try done.
    + by rewrite delete_id.
    + intros a f [Ha _]. congruence.
Qed.

End leader.

Section applying.
  Context {L Sb F R : Type} `{LogStoreSpec L} `{StableStore Sb} `{FSM F R}.
  Implicit Types r : RaftNode L Sb F R.

(** The whole loop over the entries [es] at the indices [k + 1], [k + 2], ... *)
Record applied_all r (k : Z) (f' : F) (xs : list (option R)) r' : Prop := mk_applied_all {
  aa_fsm : fsm r' = f';
  aa_last : lastApplied r' = k + zlen xs;
  aa_rest : unapplied r' = unapplied r;
  aa_pending : forall i, pendingFutures r' !! i =
    if (k <? i) && (i <=? k + zlen xs) then None else pendingFutures r !! i;
  aa_resolved : forall n x a f, xs !! n = Some x -> pending_at r (k + 1 + Z.of_nat n) a f ->
    futures r' !! a = Some (respond f None x);
  aa_others : forall b, (forall i a, k < i <= k + zlen xs -> pendingFutures r !! i = Some a -> a <> b) ->
    futures r' !! b = futures r !! b
}.

Lemma applied_all_nil r k : lastApplied r = k -> applied_all r k (fsm r) [] r.
Proof.
  intros Hk. constructor; try done.
  - rewrite zlen_nil. lia.
  - intros i. rewrite zlen_nil. by destruct (Z.ltb_spec k i), (Z.leb_spec i (k + 0)); try lia.
Qed.

Lemma applied_all_cons r k f1 x r1 f' xs r' :
  pending_inj r -> 0 <= k ->
  applied_one r (k + 1) f1 x r1 -> applied_all r1 (k + 1) f' xs r' ->
  applied_all r k f' (x :: xs) r'.
Proof.
  intros Hinj Hk [A1 A2 A3 A4 A5 A6] [B1 B2 B3 B4 B5 B6].
  pose proof (zlen_nonneg xs). constructor; try done.
  - rewrite zlen_cons. lia.
  - by rewrite B3.
  - intros i. rewrite B4, A4, zlen_cons. destruct (decide (i = k + 1)) as [->|Hi].
    + rewrite lookup_delete_eq. destruct (Z.ltb_spec k (k + 1)), (Z.leb_spec (k + 1) (k + (1 + zlen xs)));
        simpl; try lia. by destruct (_ && _).
    + rewrite lookup_delete_ne by done.
      destruct (Z.ltb_spec (k + 1) i), (Z.ltb_spec k i), (Z.leb_spec i (k + 1 + zlen xs)),
        (Z.leb_spec i (k + (1 + zlen xs))); simpl; done || lia.
  - intros [|n] y a f Hy [Hpa Hpf]; simpl in Hy.
    + injection Hy as ->. replace (k + 1 + Z.of_nat 0) with (k + 1) in Hpa by lia.
      rewrite B6; [by apply (A5 a f)|].
      intros i b Hi Hb ->. rewrite A4 in Hb. apply lookup_delete_Some in Hb as [Hne Hb].
      by apply Hne, (Hinj _ _ a).
    + apply (B5 n); [done|]. replace (k + 1 + 1 + Z.of_nat n) with (k + 1 + Z.of_nat (S n)) by lia.
      split; [rewrite A4; rewrite lookup_delete_ne; [done|lia]|].
      rewrite A6; [done|]. intros b Hb ->. apply (Hinj _ _ _ Hb) in Hpa. lia.
  - intros b Hb. rewrite B6, A6; [done| |].
    + intros a Ha. apply (Hb (k + 1)); [rewrite zlen_cons; lia|done].
    + intros i a Hi Ha. rewrite A4 in Ha. apply lookup_delete_Some in Ha as [_ Ha].
      apply (Hb i); [rewrite zlen_cons; lia|done].
Qed.

Lemma pending_inj_one r idx f' x r' : pending_inj r -> applied_one r idx f' x r' -> pending_inj r'.
Proof.
  intros Hinj Ha i j a. rewrite (a1_pending _ _ _ _ _ Ha).
  intros [_ Hi]%lookup_delete_Some [_ Hj]%lookup_delete_Some. by eapply Hinj.
Qed.

Lemma applyCommitted_loop_spec es : forall fuel r l k f' xs,
  repr (logStore r) l -> 0 <= k -> k + zlen es < max_uint -> lastApplied r = k ->
  take (length es) (drop (Z.to_nat k) l) = es -> (length es <= fuel)%nat -> pending_inj r ->
  feed (fsm r) es = Ret (f', xs) ->
  exists r', applyCommitted_loop fuel r (k + 1) (k + zlen es) = Ret r' /\
    applied_all r k f' xs r' /\ length xs = length es.
Proof.
  induction es as [|e es IH]; intros fuel r l k f' xs Hr Hk Hm Hlast Hes Hfuel Hinj Hfeed.
  { simpl in Hfeed. injection Hfeed as <- <-. exists r. rewrite zlen_nil.
    split_and!; [|by apply applied_all_nil|done].
    destruct fuel; cbn [applyCommitted_loop]; by destruct (Z.leb_spec (k + 1) (k + 0)); [lia|]. }
  destruct fuel as [|fuel]; [simpl in Hfuel; lia|]. rewrite zlen_cons in *. zlen_facts.
  cbn [applyCommitted_loop]. destruct (Z.leb_spec (k + 1) (k + (1 + zlen es))); [|lia].
  simpl in Hfeed. apply bind_ret in Hfeed as ([f1 x]&Hf1&Hfeed).
  apply bind_ret in Hfeed as ([f2 ys]&Hf2&Hfeed). simpl in Hfeed. injection Hfeed as <- <-.
  assert (He : l !! Z.to_nat k = Some e /\ take (length es) (drop (S (Z.to_nat k)) l) = es).
  { destruct (l !! Z.to_nat k) as [e'|] eqn:E.
    - rewrite (drop_S _ _ _ E) in Hes. simpl in Hes. by injection Hes as -> ->.
    - rewrite drop_ge in Hes by (by apply lookup_ge_None). by rewrite take_nil in Hes. }
  destruct He as [He Hes'].
  assert (Hg : GetLog (logStore r) (k + 1) = Got e).
  { apply (GetLog_hit _ l); [done|lia|]. by replace (k + 1 - 1) with k by lia. }
  destruct (apply_one_spec r (k + 1) e f1 x Hg Hf1) as (r1&Hr1&Ha1). rewrite Hr1.
  cbn [mbind outcome_bind]. rewrite uwrap64_small by lia.
  assert (Hlog : logStore r1 = logStore r).
  { pose proof (a1_rest _ _ _ _ _ Ha1) as E. unfold unapplied in E. congruence. }
  destruct (IH fuel r1 l (k + 1) f2 ys) as (r'&Hr'&Hall&Hlen); try done; try lia.
  - by rewrite Hlog.
  - by apply Ha1.
  - by replace (Z.to_nat (k + 1)) with (S (Z.to_nat k)) by lia.
  - simpl in Hfuel. lia.
  - by eapply pending_inj_one.
  - by rewrite (a1_fsm _ _ _ _ _ Ha1).
  - exists r'. replace (k + (1 + zlen es)) with (k + 1 + zlen es) by lia.
    split_and!; [done|by eapply applied_all_cons|simpl; by rewrite Hlen].
Qed.

(** The entries that are committed and not yet applied. *)
Definition unapplied_entries r (l : list LogEntry) : list LogEntry :=
  drop (Z.to_nat (lastApplied r)) (take (Z.to_nat (commitIndex r)) l).

Lemma applyCommitted_spec r l f' xs :
  repr (logStore r) l -> 0 <= lastApplied r -> lastApplied r <= commitIndex r <= zlen l ->
  zlen l < max_uint -> pending_inj r ->
  feed (fsm r) (unapplied_entries r l) = Ret (f', xs) ->
  exists r', applyCommitted r = Ret r' /\ applied_all r (lastApplied r) f' xs r' /\
    zlen xs = commitIndex r - lastApplied r.
Proof.
  intros Hr H0' Hc Hm Hinj Hfeed. unfold applyCommitted, unapplied_entries in *.
  set (es := drop (Z.to_nat (lastApplied r)) (take (Z.to_nat (commitIndex r)) l)) in *.
  assert (Hes : length es = Z.to_nat (commitIndex r - lastApplied r)).
  { unfold es. rewrite length_drop, length_take. unfold zlen in Hc. lia. }
  rewrite uwrap64_small by lia.
  destruct (applyCommitted_loop_spec es (Z.to_nat (commitIndex r - lastApplied r)) r l
    (lastApplied r) f' xs) as (r'&Hr'&Hall&Hlen); try done; try lia.
  - unfold zlen. lia.
  - rewrite Hes. unfold es. rewrite skipn_firstn_comm. f_equal. lia.
  - exists r'. replace (lastApplied r + zlen es) with (commitIndex r) in Hr' by (unfold zlen; lia).
    split_and!; [done|done|unfold zlen; lia].
Qed.

End applying.

(** * Properties *)

(** C18: applying. A node hands its state machine the data of the entries after
    [lastApplied] up to the commit index, each once, in log order, without the
    no-ops; then [lastApplied] is the commit index, and every pending future of those
    indices is answered, without an error, with what the machine returned for its own
    entry, and is no longer pending. No other future and nothing else of the node
    changes. *)
Theorem applyCommitted_in_order {L Sb F R} `{LogStoreSpec L} `{StableStore Sb} `{FSM F R}
    (r : RaftNode L Sb F R) l f' xs :
  repr (logStore r) l -> 0 <= lastApplied r -> lastApplied r <= commitIndex r <= zlen l ->
  zlen l < max_uint -> pending_inj r ->
  feed (fsm r) (unapplied_entries r l) = Ret (f', xs) ->
  exists r', applyCommitted r = Ret r' /\
    fsm r' = f' /\ lastApplied r' = commitIndex r /\ unapplied r' = unapplied r /\
    (forall i, lastApplied r < i <= commitIndex r -> pendingFutures r' !! i = None) /\
    (forall i a f x, lastApplied r < i -> pending_at r i a f ->
       xs !! Z.to_nat (i - lastApplied r - 1) = Some x ->
       futures r' !! a = Some (respond f None x)) /\
    (forall b, (forall i a, lastApplied r < i <= commitIndex r ->
        pendingFutures r !! i = Some a -> a <> b) -> futures r' !! b = futures r !! b).
Proof.
  intros Hr Ha Hc Hm Hinj Hf.
  destruct (applyCommitted_spec r l f' xs Hr Ha Hc Hm Hinj Hf) as (r'&Hr'&[B1 B2 B3 B4 B5 B6]&Hz).
  exists r'. rewrite Hz in *. replace (lastApplied r + (commitIndex r - lastApplied r))
    with (commitIndex r) in * by lia.
  split_and!; try done.
  - intros i Hi. rewrite B4.
    by destruct (Z.ltb_spec (lastApplied r) i), (Z.leb_spec i (commitIndex r)); try lia.
  - intros i a f x Hi Hp Hx. apply (B5 _ _ _ _ Hx).
    by replace (lastApplied r + 1 + Z.of_nat (Z.to_nat (i - lastApplied r - 1))) with i by lia.
Qed.

(** A state machine that keeps what it was given. *)
#[local] Instance log_machine : FSM (list text) text := {
  fsm_Apply f d := Ret (f ++ [d], Some d)
}.

Definition demo_entries_a : list LogEntry :=
  [mkLog 1 1 []; mkLog 2 1 (bytes_of "a"); mkLog 3 1 (bytes_of "b"); mkLog 4 1 (bytes_of "c")].

Lemma demo_repr_a : repr (foldl inmem_store NewInmemLogStore demo_entries_a) demo_entries_a.
Proof.
  apply (inmem_stores_repr demo_entries_a _ []); [apply inmem_new_repr|].
  repeat (apply numbered_cons; split; [done|]). apply numbered_nil.
Qed.

Definition demo_applier (commit last : Z) (m : list text)
  : RaftNode InmemLogStore InmemStableStore (list text) text :=
  mkNode (mkConfig (bytes_of "n1") demo_peers 1 1 2 None None None) 1 []
    (foldl inmem_store NewInmemLogStore demo_entries_a) ∅ Leader commit last ∅ [] [] m
    {[3 := 7%nat]} {[7%nat := newApplyFuture]} [] false false.

Lemma demo_applier_inj commit last m : pending_inj (demo_applier commit last m).
Proof.
  intros i j a. cbn. by intros [<- _]%lookup_singleton_Some [<- _]%lookup_singleton_Some.
Qed.

Lemma applyCommitted_in_order_witness :
  let r := demo_applier 3 1 [] in
  exists r', applyCommitted r = Ret r' /\
    fsm r' = [bytes_of "a"; bytes_of "b"] /\ lastApplied r' = 3 /\ unapplied r' = unapplied r /\
    (forall i, 1 < i <= 3 -> pendingFutures r' !! i = None) /\
    (forall i a f x, 1 < i -> pending_at r i a f ->
       [Some (bytes_of "a"); Some (bytes_of "b")] !! Z.to_nat (i - 1 - 1) = Some x ->
       futures r' !! a = Some (respond f None x)) /\
    (forall b, (forall i a, 1 < i <= 3 -> pendingFutures r !! i = Some a -> a <> b) ->
       futures r' !! b = futures r !! b).
Proof.
  exact (applyCommitted_in_order (demo_applier 3 1 []) demo_entries_a
    [bytes_of "a"; bytes_of "b"] [Some (bytes_of "a"); Some (bytes_of "b")]
    demo_repr_a ltac:(by_compute) ltac:(by_compute) ltac:(by_compute)
    (demo_applier_inj 3 1 []) ltac:(by_compute)).
Defined.

(** Replicas agree. Two nodes that start from the same machine state, and whose
    logs agree on what both have committed, have after applying the same entries the
    same machine state: the one with the smaller commit index is in the state that
    the other one passed through, and equal indices give equal states. *)
Theorem replicas_agree {L Sb F R} `{LogStoreSpec L} `{StableStore Sb} `{FSM F R}
    (r1 r2 : RaftNode L Sb F R) l1 l2 f2 xs2 :
  repr (logStore r1) l1 -> repr (logStore r2) l2 ->
  lastApplied r1 = 0 -> lastApplied r2 = 0 -> fsm r1 = fsm r2 ->
  0 <= commitIndex r1 <= commitIndex r2 -> commitIndex r1 <= zlen l1 -> commitIndex r2 <= zlen l2 ->
  zlen l1 < max_uint -> zlen l2 < max_uint -> pending_inj r1 -> pending_inj r2 ->
  take (Z.to_nat (commitIndex r1)) l1 = take (Z.to_nat (commitIndex r1)) l2 ->
  feed (fsm r2) (take (Z.to_nat (commitIndex r2)) l2) = Ret (f2, xs2) ->
  exists r1' r2' rest, applyCommitted r1 = Ret r1' /\ applyCommitted r2 = Ret r2' /\
    feed (fsm r1') (drop (Z.to_nat (commitIndex r1)) (take (Z.to_nat (commitIndex r2)) l2))
      = Ret (fsm r2', rest) /\
    (commitIndex r1 = commitIndex r2 -> fsm r1' = fsm r2').
Proof.
  intros R1 R2 A1 A2 Hf Hc C1 C2 M1 M2 I1 I2 Heq Hfeed.
  set (c1 := Z.to_nat (commitIndex r1)) in *. set (c2 := Z.to_nat (commitIndex r2)) in *.
  assert (Hsplit : take c2 l2 = take c1 l1 ++ drop c1 (take c2 l2)).
  { rewrite Heq. rewrite <-(take_drop c1 (take c2 l2)) at 1. f_equal.
    rewrite take_take. f_equal. lia. }
  pose proof Hfeed as Hfeed2. rewrite Hsplit, feed_app in Hfeed.
  apply bind_ret in Hfeed as ([f1 xs1]&Hf1&Hfeed). apply bind_ret in Hfeed as ([f2' ys]&Hf2&Hx).
  simpl in Hx. injection Hx as -> <-. simpl in Hf2.
  destruct (applyCommitted_spec r1 l1 f1 xs1) as (r1'&E1&[B1 _ _ _ _ _]&_); try done; try lia.
  { unfold unapplied_entries. rewrite A1. simpl. by rewrite drop_0, Hf. }
  destruct (applyCommitted_spec r2 l2 f2 (xs1 ++ ys)) as (r2'&E2&[B2 _ _ _ _ _]&_);
    try done; try lia.
  { unfold unapplied_entries. rewrite A2. simpl. by rewrite drop_0. }
  exists r1', r2', ys. rewrite B1, B2. split_and!; try done.
  intros Ec. rewrite drop_ge in Hf2 by (rewrite length_take; lia). simpl in Hf2. congruence.
Qed.

Lemma replicas_agree_witness :
  let r1 := demo_applier 2 0 [] in let r2 := demo_applier 4 0 [] in
  exists r1' r2' rest, applyCommitted r1 = Ret r1' /\ applyCommitted r2 = Ret r2' /\
    feed (fsm r1') (drop 2 (take 4 demo_entries_a)) = Ret (fsm r2', rest) /\
    (2 = 4 -> fsm r1' = fsm r2').
Proof.
  exact (replicas_agree (demo_applier 2 0 []) (demo_applier 4 0 []) demo_entries_a demo_entries_a
    [bytes_of "a"; bytes_of "b"; bytes_of "c"]
    [None; Some (bytes_of "a"); Some (bytes_of "b"); Some (bytes_of "c")]
    demo_repr_a demo_repr_a eq_refl eq_refl eq_refl ltac:(by_compute) ltac:(by_compute)
    ltac:(by_compute) ltac:(by_compute) ltac:(by_compute) (demo_applier_inj 2 0 [])
    (demo_applier_inj 4 0 []) eq_refl ltac:(by_compute)).
Defined.

(** * Proposals and their futures *)

Section proposals.
  Context {L Sb F R : Type} `{LogStoreSpec L} `{StableStore Sb} `{FSM F R}.
  Implicit Types r : RaftNode L Sb F R.

(** The state that a new leader keeps for each peer. *)
Lemma initLeader_peers (r : RaftNode L Sb F R) id x : peers (initLeader r) !! id = Some x ->
  nextIndex x = (fst (LastIndex (logStore r)) +ᵤ 1)%go /\ matchIndex x = 0.
Proof.
  unfold initLeader. cbn [peers set_peers]. set (next := (_ +ᵤ 1)%go).
  assert (forall m : gmap text peerState, map_Forall (fun _ x => nextIndex x = next /\ matchIndex x = 0) m ->
    map_Forall (fun _ x => nextIndex x = next /\ matchIndex x = 0) (foldl (fun m (c : PeerConfig) =>
       if bool_decide (PeerID c = ServerID (config r)) then m
       else <[PeerID c := mkPeerState (PeerID c) (Address c) next 0 false]> m) m (Peers (config r)))) as Hf.
  { induction (Peers (config r)) as [|c cs IH]; intros m Hm; cbn [foldl]; [done|]. apply IH.
    case_bool_decide; [done|]. by apply map_Forall_insert_2. }
  apply (Hf ∅ (map_Forall_empty _)).
Qed.

Lemma respond_idem (f : ApplyFuture R) e1 x1 e2 x2 : respond (respond f e1 x1) e2 x2 = respond f e1 x1.
Proof. unfold respond. destruct (respondOnce f) eqn:E; simpl; [by rewrite E|done]. Qed.

Lemma resolve_all addrs err r :
  let r' := foldl (fun r f => resolve f (Some err) None r) r addrs in
  unapplied r' = unapplied r /\ fsm r' = fsm r /\ lastApplied r' = lastApplied r /\
  forall b, futures r' !! b =
    if decide (b ∈ addrs) then (fun f => respond f (Some err) None) <$> futures r !! b
    else futures r !! b.
Proof.
  revert r. induction addrs as [|a addrs IH]; intros r; simpl.
  { by split_and!. }
  destruct (IH (resolve a (Some err) None r)) as (I1&I2&I3&I4). simpl in *.
  destruct (resolve_rest a (Some err) None r) as (E1&E2&E3&_).
  split_and!; [by rewrite I1|by rewrite I2|by rewrite I3|].
  intros b. rewrite I4, resolve_futures.
  destruct (decide (b = a)) as [->|Hb].
  - rewrite (decide_True (P := a ∈ a :: addrs)) by (by left).
    case_decide; [|done]. destruct (futures r !! a); simpl; [by rewrite respond_idem|done].
  - destruct (decide (b ∈ addrs)) as [Hin|Hin].
    + by rewrite decide_True by (by right).
    + rewrite decide_False; [done|]. by intros [?|?]%elem_of_cons.
Qed.

Lemma fail_all_spec r err :
  pendingFutures (fail_all r err) = ∅ /\ unapplied (fail_all r err) = unapplied r /\
  fsm (fail_all r err) = fsm r /\ lastApplied (fail_all r err) = lastApplied r /\
  (forall i a, pendingFutures r !! i = Some a ->
     futures (fail_all r err) !! a = (fun f => respond f (Some err) None) <$> futures r !! a) /\
  (forall b, (forall i, pendingFutures r !! i <> Some b) ->
     futures (fail_all r err) !! b = futures r !! b).
Proof.
  unfold fail_all. destruct (resolve_all (map_to_list (pendingFutures r)).*2 err r) as (E1&E2&E3&E4).
  split_and!; try done.
  - intros i a Hi. cbn. rewrite E4, decide_True; [done|].
    apply list_elem_of_fmap. exists (i, a). split; [done|]. by apply elem_of_map_to_list.
  - intros b Hb. cbn. rewrite E4, decide_False; [done|].
    intros ([i a]&->&Hi%elem_of_map_to_list)%list_elem_of_fmap. by apply (Hb i).
Qed.

Lemma handleApplyRequest_spec r l req :
  repr (logStore r) l -> zlen l < max_uint - 1 -> 0 <= currentTerm r <= max_uint ->
  exists r', handleApplyRequest r req = Ret r' /\
  if bool_decide (state r = Leader) then
    (exists err, r' = resolve (req_future req) (Some (ErrStoreLog err)) None r) \/
    (repr (logStore r') (l ++ [mkLog (zlen l + 1) (currentTerm r) (req_data req)]) /\
     pendingFutures r' = <[zlen l + 1 := req_future req]> (pendingFutures r) /\
     futures r' = futures r /\ currentTerm r' = currentTerm r /\ commitIndex r' = commitIndex r /\
     forall i p, peers r' !! i = Some p -> triggerCh p = true)
  else r' = resolve (req_future req) (Some ErrNotLeader) None r.
Proof.
  intros Hr Hz Ht. unfold handleApplyRequest, next_entry. case_bool_decide as Hs; cbn [negb]; [|by eexists].
  rewrite (LastIndex_spec _ _ Hr). cbn [fst]. zlen_facts.
  rewrite uwrap64_small by lia. unfold StoreLog.
  set (e := mkLog (zlen l + 1) (currentTerm r) (req_data req)).
  destruct (StoreLogs_spec (logStore r) l [e] Hr) as [[err ->]|(s'&->&Hr')].
  - apply numbered_cons. split; [done|apply numbered_nil].
  - rewrite zlen_cons, zlen_nil. lia.
  - eexists. split; [reflexivity|]. left. by eexists.
  - eexists. split; [reflexivity|]. right. cbn. split_and!; try done.
    intros i p. rewrite lookup_fmap_Some. by intros (q&<-&_).
Qed.

End proposals.

(** A proposal on the leader. It is appended to the log at the next index with
    the current term, its future becomes pending at that index, and every replicator
    is woken; when the log cannot be written, or the node is no longer the leader,
    the future is answered with the error and nothing else happens. *)
Theorem handleApplyRequest_correct {L Sb F R} `{LogStoreSpec L} `{StableStore Sb}
    (r : RaftNode L Sb F R) l req :
  repr (logStore r) l -> zlen l < max_uint - 1 -> 0 <= currentTerm r <= max_uint ->
  exists r', handleApplyRequest r req = Ret r' /\
  if bool_decide (state r = Leader) then
    (exists err, r' = resolve (req_future req) (Some (ErrStoreLog err)) None r) \/
    (repr (logStore r') (l ++ [mkLog (zlen l + 1) (currentTerm r) (req_data req)]) /\
     pendingFutures r' = <[zlen l + 1 := req_future req]> (pendingFutures r) /\
     futures r' = futures r /\ currentTerm r' = currentTerm r /\ commitIndex r' = commitIndex r /\
     forall i p, peers r' !! i = Some p -> triggerCh p = true)
  else r' = resolve (req_future req) (Some ErrNotLeader) None r.
Proof. apply handleApplyRequest_spec. Qed.

Lemma handleApplyRequest_correct_witness :
  let r := demo_applier 0 0 [] in
  exists r', handleApplyRequest r (mkApplyRequest (bytes_of "d") 7) = Ret r' /\
    ((exists err, r' = resolve 7 (Some (ErrStoreLog err)) None r) \/
     (repr (logStore r') (demo_entries_a ++ [mkLog 5 1 (bytes_of "d")]) /\
      pendingFutures r' = <[5 := 7%nat]> (pendingFutures r) /\
      futures r' = futures r /\ currentTerm r' = 1 /\ commitIndex r' = 0 /\
      forall i p, peers r' !! i = Some p -> triggerCh p = true)).
Proof.
  exact (handleApplyRequest_correct (demo_applier 0 0 []) demo_entries_a
    (mkApplyRequest (bytes_of "d") 7) demo_repr_a ltac:(by_compute) ltac:(by_compute)).
Defined.

(** No future is left hanging. When the leadership is lost every pending future
    is answered with that error (unless it was answered before), the table is empty,
    and everything else, the other futures too, stays. *)
Theorem failPendingFutures_answers {L Sb F R} (r : RaftNode L Sb F R) :
  let r' := failPendingFutures r in
  pendingFutures r' = ∅ /\ unapplied r' = unapplied r /\
  fsm r' = fsm r /\ lastApplied r' = lastApplied r /\
  (forall i a, pendingFutures r !! i = Some a ->
     futures r' !! a = (fun f => respond f (Some ErrLeaderLost) None) <$> futures r !! a) /\
  (forall b, (forall i, pendingFutures r !! i <> Some b) -> futures r' !! b = futures r !! b).
Proof. apply fail_all_spec. Qed.
