(* ===== verification/Machine.v ===== *)
(** The goroutines of a node ([run], [runFollower], [runCandidate], [runLeader],
    [runReplicator] and [applyLoop] of [internal/raft]) as a transition system: a step
    is a critical section of the lock, and the main goroutine, the replicators, the
    apply loop and the callers interleave freely. The network, the timers and the
    clients are the labels of the steps. Two critical sections are one step where the
    second only reads the role and the next turn of the loop reads it again. *)
From S2P Require Import Prelude Stores Future Config Node Election Replication Rpc Leader.

(** Where the main goroutine is. [checked] says whether the loop condition has been
    evaluated for this turn; [Electing] is [runCandidate] before [startElection]; the
    candidate's loop has the term and the votes of its election as locals; [Elected] is
    the moment between the count that reached the quorum and the assignment of
    [Leader], when the lock is free. *)
Inductive PC : Type :=
| AtRun
| InFollower (checked : bool)
| Electing
| InCandidate (term votes : Z) (checked : bool)
| Elected (term : Z)
| LeaderInit
| LeaderNoOp
| InLeader (checked : bool)
| Stopped.

#[export] Instance pc_eq_dec : EqDecision PC.
Proof. solve_decision. Defined.

Inductive label : Type :=
| LMain                                 (* the main goroutine goes on by itself *)
| LCommand (cmd : Command)              (* it receives an RPC from the transport *)
| LTimer                                (* its election timer fires *)
| LVote (resp : RequestVoteResponse)    (* the candidate receives a vote *)
| LRequest                              (* the leader receives from applyCh *)
| LSend (id : text)                     (* the replicator of the peer sends a request *)
| LResponse (id : text) (resp : AppendEntriesResponse)
| LLost (id : text)                     (* the request or its response fails *)
| LStaleSend (k : nat)                  (* the same, of an earlier leadership *)
| LStaleResponse (k : nat) (resp : AppendEntriesResponse)
| LApplyWake                            (* the apply loop receives the token *)
| LApplyNext                            (* it applies one entry *)
| LSubmit (data : text) (c : submit_choice)
| LExpire (f : nat)                     (* the timeout of a future *)
| LWait (f : nat)                       (* a call of [Error] on a future returns *)
| LShutdown.

Section machine.
  Context {L Sb F R : Type} `{LogStore L} `{StableStore Sb} `{FSM F R}.

(** A replicator of an earlier leadership: the peer's state it points to, which is no
    longer in [peers], and its request in flight. *)
Record replicator : Type := mkReplicator {
  rp_peer : peerState;
  rp_sent : option AppendEntriesRequest
}.

(** [inflight]: the request whose answer the replicator of a peer waits for;
    [stale]: the replicators of earlier leaderships; [applying]: the locals of
    [applyCommitted], the next index and the commit index it read; [won]: the terms for
    which a quorum of votes was counted, which no code reads. *)
Record proc : Type := mkProc {
  node : RaftNode L Sb F R;
  pc : PC;
  inflight : gmap text AppendEntriesRequest;
  stale : list replicator;
  applying : option (Z * Z);
  won : list Z
}.

Definition start (r : RaftNode L Sb F R) : proc := mkProc r AtRun ∅ [] None [].

Definition goto (p : proc) (r : RaftNode L Sb F R) (k : PC) : proc :=
  mkProc r k (inflight p) (stale p) (applying p) (won p).
Definition with_node (p : proc) (r : RaftNode L Sb F R) : proc := goto p r (pc p).

(** The count reaches the quorum in the term [t]. *)
Definition win (p : proc) (r : RaftNode L Sb F R) (t : Z) : proc :=
  mkProc r (Elected t) (inflight p) (stale p) (applying p) (t :: won p).

(** [runLeader] makes new peer states: the replicators that still run keep theirs. *)
Definition retire (p : proc) : list replicator :=
  ((fun q => mkReplicator (snd q) (inflight p !! fst q)) <$> map_to_list (peers (node p))) ++ stale p.

(** A step is not enabled, or the process dies of a panic. *)
Definition try {A} (m : outcome Empty_set A) (k : A -> option proc) : option proc :=
  match m with Ret a => k a | _ => None end.

(** The turn of the main goroutine that needs no event. *)
Definition main_step (p : proc) : option proc :=
  let r := node p in
  match pc p with
  | AtRun =>
      if shutdownCh r then Some (goto p r Stopped)
      else
        match state r with
        | Follower => Some (goto p r (InFollower false))
        | Candidate => Some (goto p r Electing)
        | Leader => Some (goto p r LeaderInit)
        end
  | Electing =>
      try (startElection r) (fun q =>
        let r' := fst (fst q) in
        if quorum r' <=? 1 then Some (win p r' (currentTerm r'))
        else Some (goto p r' (InCandidate (currentTerm r') 1 false)))
  | InFollower false =>
      Some (goto p r (if bool_decide (state r = Follower) then InFollower true else AtRun))
  | InFollower true => if shutdownCh r then Some (goto p r AtRun) else None
  | InCandidate t v false =>
      Some (goto p r (if bool_decide (state r = Candidate) then InCandidate t v true else AtRun))
  | InCandidate t v true => if shutdownCh r then Some (goto p r AtRun) else None
  | Elected _ => Some (goto p (becomeLeader r) AtRun)
  | LeaderInit => Some (mkProc (initLeader r) LeaderNoOp ∅ (retire p) (applying p) (won p))
  | LeaderNoOp => try (appendNoOp r) (fun r' => Some (goto p r' (InLeader false)))
  | InLeader false =>
      if bool_decide (state r = Leader) then Some (goto p r (InLeader true))
      else Some (goto p (failPendingFutures r) AtRun)
  | InLeader true =>
      if shutdownCh r then Some (goto p (failPendingFutures r) AtRun) else None
  | Stopped => None
  end.

(** An RPC, in the three select statements that receive one. *)
Definition command_step (p : proc) (cmd : Command) : option proc :=
  match pc p with
  | InFollower true =>
      try (handleRPC (node p) cmd) (fun q => Some (goto p (fst (fst q)) (InFollower false)))
  | InCandidate t v true =>
      try (handleRPC (node p) cmd) (fun q =>
        let r' := fst (fst q) in
        if snd q && negb (bool_decide (state r' = Candidate)) then Some (goto p r' AtRun)
        else Some (goto p r' (InCandidate t v false)))
  | InLeader true =>
      try (handleRPC (node p) cmd) (fun q =>
        let r' := fst (fst q) in
        if negb (bool_decide (state r' = Leader)) then Some (goto p (failPendingFutures r') AtRun)
        else Some (goto p r' (InLeader false)))
  | _ => None
  end.

Definition timer_step (p : proc) : option proc :=
  match pc p with
  | InFollower true => Some (goto p (set_state Candidate (node p)) AtRun)
  | InCandidate _ _ true => Some (goto p (node p) AtRun)
  | _ => None
  end.

(** A vote: the term is compared under the lock, the count is a local. *)
Definition vote_step (p : proc) (resp : RequestVoteResponse) : option proc :=
  match pc p with
  | InCandidate t v true =>
      if currentTerm (node p) <? rvr_Term resp
      then try (stepDown (node p) (rvr_Term resp)) (fun r' => Some (goto p r' AtRun))
      else if rvr_VoteGranted resp then
        if quorum (node p) <=? v + 1
        then Some (win p (node p) t)
        else Some (goto p (node p) (InCandidate t (v + 1) false))
      else Some (goto p (node p) (InCandidate t v false))
  | _ => None
  end.

Definition request_step (p : proc) : option proc :=
  match pc p, applyCh (node p) with
  | InLeader true, req :: rest =>
      try (handleApplyRequest (set_applyCh rest (node p)) req) (fun r' =>
        Some (goto p r' (InLeader false)))
  | _, _ => None
  end.

(** A replicator has one request in flight at a time. It sends from the leader's
    state, and the response may come at any later time, whatever the node is then. *)
Definition set_inflight (p : proc) (r : RaftNode L Sb F R) (m : gmap text AppendEntriesRequest) : proc :=
  mkProc r (pc p) m (stale p) (applying p) (won p).

Definition send_step (p : proc) (id : text) : option proc :=
  match peers (node p) !! id, inflight p !! id with
  | Some peer, None =>
      try (replicate_build (node p) peer) (fun q =>
        match q with
        | None => None
        | Some req => Some (set_inflight p (node p) (<[id := req]> (inflight p)))
        end)
  | _, _ => None
  end.

Definition response_step (p : proc) (id : text) (resp : AppendEntriesResponse) : option proc :=
  match inflight p !! id with
  | None => None
  | Some req =>
      try (replicate_process (node p) id (ae_Entries req) resp) (fun r' =>
        Some (set_inflight p r' (delete id (inflight p))))
  end.

Definition lost_step (p : proc) (id : text) : option proc :=
  Some (set_inflight p (node p) (delete id (inflight p))).

Definition set_stale (p : proc) (r : RaftNode L Sb F R) (k : nat) (q : replicator) : proc :=
  mkProc r (pc p) (inflight p) (<[k := q]> (stale p)) (applying p) (won p).

Definition stale_send (p : proc) (k : nat) : option proc :=
  match stale p !! k with
  | Some (mkReplicator peer None) =>
      try (replicate_build (node p) peer) (fun q =>
        match q with
        | None => None
        | Some req => Some (set_stale p (node p) k (mkReplicator peer (Some req)))
        end)
  | _ => None
  end.

(** The second half of [replicateOnce] again, with a pointer that is not in [peers]. *)
Definition stale_response (p : proc) (k : nat) (resp : AppendEntriesResponse) : option proc :=
  let r := node p in
  match stale p !! k with
  | Some (mkReplicator peer (Some req)) =>
      if currentTerm r <? aer_Term resp
      then try (stepDown r (aer_Term resp)) (fun r' => Some (set_stale p r' k (mkReplicator peer None)))
      else if aer_Success resp then
        let peer' :=
          match last (ae_Entries req) with
          | Some e => set_next (Index e +ᵤ 1)%go (set_match (Index e) peer)
          | None => peer
          end in
        try (advanceCommitIndex r) (fun r' => Some (set_stale p r' k (mkReplicator peer' None)))
      else
        try (back_up (logStore r) resp) (fun next =>
          Some (set_stale p r k (mkReplicator (set_next next peer) None)))
  | _ => None
  end.

Definition set_applying (p : proc) (r : RaftNode L Sb F R) (a : option (Z * Z)) : proc :=
  mkProc r (pc p) (inflight p) (stale p) a (won p).

(** The apply loop: take the token and read the two indices, then one entry a step. *)
Definition apply_wake (p : proc) : option proc :=
  match applying p with
  | None =>
      if commitNotifyCh (node p) then
        Some (set_applying p (set_commitNotifyCh false (node p))
          (Some ((lastApplied (node p) +ᵤ 1)%go, commitIndex (node p))))
      else None
  | Some _ => None
  end.

Definition apply_next (p : proc) : option proc :=
  match applying p with
  | None => None
  | Some (idx, commit) =>
      if idx <=? commit then
        try (apply_one (node p) idx) (fun r' => Some (set_applying p r' (Some ((idx +ᵤ 1)%go, commit))))
      else Some (set_applying p (node p) None)
  end.

(** The client that has made the future gets its error. *)
Definition wait_step (p : proc) (f : nat) : option (proc * option apply_error) :=
  fut ← futures (node p) !! f;
  '(fut', err) ← Error fut;
  Some (with_node p (set_futures (<[f := fut']> (futures (node p))) (node p)), err).

Definition step (p : proc) (l : label) : option proc :=
  match l with
  | LMain => main_step p
  | LCommand cmd => command_step p cmd
  | LTimer => timer_step p
  | LVote resp => vote_step p resp
  | LRequest => request_step p
  | LSend id => send_step p id
  | LResponse id resp => response_step p id resp
  | LLost id => lost_step p id
  | LStaleSend k => stale_send p k
  | LStaleResponse k resp => stale_response p k resp
  | LApplyWake => apply_wake p
  | LApplyNext => apply_next p
  | LSubmit data c =>
      if choice_ready (node p) c then Some (with_node p (fst (Apply (node p) data c))) else None
  | LExpire f => Some (with_node p (resolve f (Some ErrTimeout) None (node p)))
  | LWait f => fst <$> wait_step p f
  | LShutdown => Some (with_node p (Shutdown (node p)))
  end.

Lemma wait_step_spec p f p' : fst <$> wait_step p f = Some p' ->
  exists m, p' = with_node p (set_futures m (node p)).
Proof.
  unfold wait_step. destruct (futures (node p) !! f) as [fut|]; [|done]. cbn [mbind option_bind].
  destruct (Error fut) as [[fut' err]|]; [|done]. intros [= <-]. by eexists.
Qed.

Fixpoint steps (p : proc) (ls : list label) : option proc :=
  match ls with
  | [] => Some p
  | l :: ls' => match step p l with Some p' => steps p' ls' | None => None end
  end.

End machine.
Arguments proc : clear implicits.

(** * Role, term and vote

    Which operations change the role, the term and the vote. *)
Section roles.
  Context {L Sb F R : Type} `{LogStore L} `{StableStoreSpec Sb} `{FSM F R}.
  Implicit Types r : RaftNode L Sb F R.
  Implicit Types p : proc L Sb F R.

Definition role r := (state r, currentTerm r, votedFor r, config r).

Definition same_role r r' : Prop := state r' = state r /\ currentTerm r' = currentTerm r.

Lemma role_proj r x t v c : role r = (x, t, v, c) ->
  state r = x /\ currentTerm r = t /\ votedFor r = v /\ config r = c.
Proof. intros Hr. by injection Hr. Qed.

Lemma same_role_refl r : same_role r r.
Proof. by split. Qed.
#[local] Hint Resolve same_role_refl : core.

Lemma role_same r r' : role r' = role r -> same_role r r'.
Proof. by intros (?&?&_)%role_proj. Qed.
#[local] Hint Resolve role_same : core.

Lemma resolve_role id err resp r : role (resolve id err resp r) = role r.
Proof. unfold resolve. by destruct (futures r !! id). Qed.

Lemma fail_all_role r err : role (fail_all r err) = role r.
Proof.
  unfold fail_all. change (role (foldl (fun r f => resolve f (Some err) None r) r
    (map_to_list (pendingFutures r)).*2) = role r).
  generalize (map_to_list (pendingFutures r)).*2 as l. intros l. revert r.
  induction l as [|a l IH]; intros r; cbn [foldl]; [done|]. rewrite IH. apply resolve_role.
Qed.

Lemma stepDown_role r t r' : stepDown r t = Ret r' -> role r' = (Follower, t, [], config r).
Proof.
  destruct (stepDown_total r t) as (r1&E&Hs). rewrite E. intros [= <-].
  unfold same_but_stable in Hs. unfold role. by rewrite Hs.
Qed.

Lemma startElection_role r r' req addrs :
  startElection r = Ret (r', req, addrs) ->
  role r' = (state r, (currentTerm r +ᵤ 1)%go, ServerID (config r), config r) /\
  rv_Term req = currentTerm r' /\ rv_CandidateID req = ServerID (config r) /\
  addrs = Address <$> filter (fun q => PeerID q <> ServerID (config r)) (Peers (config r)).
Proof.
  unfold startElection.
  destruct (persistState_total (set_votedFor (ServerID (config r))
    (set_currentTerm (currentTerm r +ᵤ 1)%go r))) as (r1&->&Hs). cbn [mbind outcome_bind].
  destruct (lastLogInfo r1). intros Hx. injection Hx as <- <- <-.
  unfold same_but_stable in Hs. unfold role. rewrite Hs. by split_and!.
Qed.

Lemma handleRPC_append_role r req r' resp b :
  handleRPC r (CAppendEntries req) = Ret (r', resp, b) ->
  role r' = if ae_Term req <? currentTerm r then role r
            else (Follower, ae_Term req,
                  if (currentTerm r <? ae_Term req) || negb (bool_decide (state r = Follower))
                  then [] else votedFor r, config r).
Proof.
  simpl. intros ([[r1 resp1] b1]&Hh&Hx)%bind_ret. injection Hx as <- _ _. revert Hh.
  unfold handleAppendEntries. destruct (Z.ltb_spec (ae_Term req) (currentTerm r)).
  { intros Hx. by injection Hx as <- _ _. }
  destruct (accept_leader_spec r req) as (r2&->&[A1 A2 _ A4 _ _ A7]); [done|].
  assert (role r2 = (Follower, ae_Term req,
    if (currentTerm r <? ae_Term req) || negb (bool_decide (state r = Follower))
    then [] else votedFor r, config r)) as Hr.
  { unfold role. rewrite A1, A2, A4. f_equal. congruence. }
  cbn [mbind outcome_bind]. intros Hh. apply bind_ret in Hh as ([[ct ci]|]&_&Hh).
  { by injection Hh as <- _ _. }
  apply bind_ret in Hh as ([log ok]&_&Hh).
  destruct ok; simpl in Hh; injection Hh as <- _ _; [|exact Hr].
  unfold follow_commit. destruct (commitIndex _ <? _); exact Hr.
Qed.

Lemma handleRPC_vote_role r req r' resp b :
  handleRPC r (CRequestVote req) = Ret (r', resp, b) ->
  resp = RRequestVote (mkRVR (Z.max (currentTerm r) (rv_Term req)) (vote_ok r req)) /\
  role r' = role (if vote_ok r req then set_votedFor (rv_CandidateID req) (at_term r (rv_Term req))
                  else at_term r (rv_Term req)).
Proof.
  simpl. intros ([[r1 resp1] b1]&Hh&Hx)%bind_ret. injection Hx as <- <- _.
  destruct (handleRequestVote_spec r req) as (r2&Hr2&Hs). rewrite Hr2 in Hh.
  injection Hh as <- <- _. split; [done|]. unfold same_but_stable in Hs. unfold role. by rewrite Hs.
Qed.

Lemma handleRPC_role r cmd r' resp b :
  handleRPC r cmd = Ret (r', resp, b) -> same_role r r' \/ state r' = Follower.
Proof.
  destruct cmd as [req|req|].
  - intros Hr%handleRPC_append_role. destruct (_ <? _).
    + left. by apply role_same.
    + right. by apply role_proj in Hr as (?&_).
  - intros [_ (Hst&Ht&_)%role_proj]%handleRPC_vote_role. unfold same_role. rewrite Hst, Ht.
    unfold at_term. destruct (vote_ok r req), (currentTerm r <? rv_Term req); auto.
  - simpl. intros Hx. injection Hx as <- _ _. by left.
Qed.

Lemma advanceCommitIndex_role r r' : advanceCommitIndex r = Ret r' -> role r' = role r.
Proof.
  unfold advanceCommitIndex. intros (c&_&Hc)%bind_ret.
  destruct (c <=? commitIndex r); [by injection Hc as <-|].
  destruct (GetLog (logStore r) c); [|by injection Hc as <-].
  destruct (negb _); by injection Hc as <-.
Qed.

Lemma replicate_process_role r id es resp r' :
  replicate_process r id es resp = Ret r' ->
  (aer_Term resp <= currentTerm r /\ role r' = role r) \/
  (currentTerm r < aer_Term resp /\ role r' = (Follower, aer_Term resp, [], config r)).
Proof.
  unfold replicate_process. destruct (Z.ltb_spec (currentTerm r) (aer_Term resp)).
  { intros Hs. right. split; [done|]. by apply stepDown_role in Hs. }
  intros Hp. left. split; [done|]. destruct (peers r !! id) as [q|].
  - destruct (aer_Success resp); [by apply advanceCommitIndex_role in Hp|].
    apply bind_ret in Hp as (next&_&Hx). by injection Hx as <-.
  - destruct (aer_Success resp); [by apply advanceCommitIndex_role in Hp|by injection Hp as <-].
Qed.

Lemma appendNoOp_role r r' : appendNoOp r = Ret r' -> role r' = role r.
Proof.
  unfold appendNoOp, or_log.
  destruct (StoreLog (logStore r) (next_entry r [])); intros Hx; try done; by injection Hx as <-.
Qed.

Lemma handleApplyRequest_role r req r' : handleApplyRequest r req = Ret r' -> role r' = role r.
Proof.
  unfold handleApplyRequest. destruct (negb _).
  { intros Hx. injection Hx as <-. apply resolve_role. }
  destruct (StoreLog _ _); intros Hx; try done; injection Hx as <-; [done|apply resolve_role].
Qed.

Lemma Apply_role r data c : role (fst (Apply r data c)) = role r.
Proof.
  unfold Apply. destruct (negb _); [cbn [fst]; by rewrite resolve_role|].
  destruct c; [done|cbn [fst]; by rewrite resolve_role..].
Qed.

Lemma apply_one_role r idx r' : apply_one r idx = Ret r' -> role r' = role r.
Proof.
  unfold apply_one. destruct (GetLog (logStore r) idx); [|intros Hx; by injection Hx as <-].
  intros ([f x]&_&Hx)%bind_ret. injection Hx as <-. cbn [fst snd].
  destruct (pendingFutures _ !! idx); [|done].
  change (role (resolve n None x (set_lastApplied idx (set_fsm f r))) = role r).
  by rewrite resolve_role.
Qed.

Lemma becomeLeader_role r : role (becomeLeader r) = (Leader, currentTerm r, votedFor r, config r).
Proof. unfold becomeLeader, set_leaderAddr_of. by destruct (find_addr _ _). Qed.

Lemma Shutdown_role r :
  role (Shutdown r) = role r \/ role (Shutdown r) = (Follower, currentTerm r, votedFor r, config r).
Proof. unfold Shutdown. destruct (shutdownCh r); [by left|right]. by rewrite fail_all_role. Qed.

(** ** A leader has won its term *)

(** The election that the main goroutine is in, if it is in one. *)
Definition pc_inv p : Prop :=
  match pc p with
  | InCandidate t _ true => currentTerm (node p) = t
  | InCandidate t _ false => state (node p) = Candidate -> currentTerm (node p) = t
  | Elected t => currentTerm (node p) = t /\ t ∈ won p
  | Electing => state (node p) <> Leader
  | _ => True
  end.

Record leader_inv p : Prop := mk_leader_inv {
  li_won : state (node p) = Leader -> currentTerm (node p) ∈ won p;
  li_pc : pc_inv p
}.

(** No response to a request of an earlier leadership brings a newer term while the
    node counts votes. *)
Definition polite p (l : label) : Prop :=
  match l, pc p with
  | LResponse _ resp, (InCandidate _ _ true | Elected _)
  | LStaleResponse _ resp, (InCandidate _ _ true | Elected _) => aer_Term resp <= currentTerm (node p)
  | _, _ => True
  end.

Fixpoint polite_run p (ls : list label) : Prop :=
  match ls with
  | [] => True
  | l :: ls' => polite p l /\ match step p l with Some p' => polite_run p' ls' | None => True end
  end.

(** The node keeps its role and term, and the main goroutine stays where it is. *)
Lemma leader_inv_same p p' :
  leader_inv p -> role (node p') = role (node p) -> pc p' = pc p -> won p' = won p -> leader_inv p'.
Proof.
  intros [H1' H2'] (Es&Et&_)%role_proj Hpc Hw. split; [by rewrite Es, Et, Hw|].
  unfold pc_inv in *. by rewrite Hpc, Es, Et, Hw.
Qed.

(** The main goroutine goes to a place outside an election. *)
Lemma leader_inv_goto p r k :
  leader_inv p -> (same_role (node p) r \/ state r = Follower) ->
  match k with Electing | InCandidate _ _ _ | Elected _ => False | _ => True end ->
  leader_inv (goto p r k).
Proof.
  intros [H1' _] Hr Hk. split; [|unfold pc_inv; cbn; by destruct k].
  cbn. intros Hl. destruct Hr as [[Es Et]|Hr]; [|congruence].
  rewrite Et. apply H1'. congruence.
Qed.

(** A newer term outside the count of votes makes a follower. *)
Lemma leader_inv_down p p' t w c :
  role (node p') = (Follower, t, w, c) -> currentTerm (node p) < t ->
  match pc p with InCandidate _ _ true | Elected _ => t <= currentTerm (node p) | _ => True end ->
  pc p' = pc p -> leader_inv p'.
Proof.
  intros (Es&Et&_)%role_proj Hlt Hp Hpc. split; [congruence|].
  unfold pc_inv. rewrite Hpc, Es, Et. destruct (pc p) as [|[]| |t' v []|t'| | |[]|]; try done; lia.
Qed.

Lemma try_some {A} (m : outcome Empty_set A) (k : A -> option (proc L Sb F R)) p' :
  try m k = Some p' -> exists a, m = Ret a /\ k a = Some p'.
Proof. destruct m; simpl; try done. eauto. Qed.

Lemma main_step_inv p p' : leader_inv p -> main_step p = Some p' -> leader_inv p'.
Proof.
  intros Hi Hs. pose proof Hi as [H1' H2']. unfold main_step, pc_inv in *.
  destruct (pc p) as [|[]| |t v []|t| | |[]|].
  - destruct (shutdownCh (node p)); [simplify_eq; apply leader_inv_goto; auto|].
    destruct (state (node p)) eqn:Es; simplify_eq; try (apply leader_inv_goto; by auto).
    split; cbn; congruence.
  - destruct (shutdownCh (node p)); [|done]. simplify_eq. apply leader_inv_goto; auto.
  - simplify_eq. apply leader_inv_goto; auto. by case_bool_decide.
  - apply try_some in Hs as ([[r' req] addrs]&He&Hs). cbn [fst] in Hs.
    apply startElection_role in He as [(Es&_)%role_proj _].
    destruct (quorum r' <=? 1); simplify_eq; split; cbn; try (intros; congruence).
    split; [done|by left].
  - destruct (shutdownCh (node p)); [|done]. simplify_eq. apply leader_inv_goto; auto.
  - simplify_eq. case_bool_decide; [|by apply leader_inv_goto; auto].
    split; cbn; [done|]. by apply H2'.
  - simplify_eq. destruct H2' as [<- Hw]. pose proof (becomeLeader_role (node p)) as Hr.
    apply role_proj in Hr as (Es&Et&_). split; cbn; [by rewrite Et|done].
  - simplify_eq. split; [exact H1'|done].
  - apply try_some in Hs as (r'&Hr%appendNoOp_role&[= <-]). apply leader_inv_goto; auto.
  - destruct (shutdownCh (node p)); [|done]. simplify_eq. apply leader_inv_goto; auto.
    left. apply role_same, fail_all_role.
  - case_bool_decide; simplify_eq; apply leader_inv_goto; auto. left. apply role_same, fail_all_role.
  - done.
Qed.

Lemma command_step_inv p cmd p' : leader_inv p -> command_step p cmd = Some p' -> leader_inv p'.
Proof.
  intros Hi Hs. pose proof Hi as [H1' H2']. unfold command_step, pc_inv in *.
  destruct (pc p) as [|[]| |t v []|t| | |[]|]; try done;
    apply try_some in Hs as ([[r' resp] b]&Hh%handleRPC_role&Hs); cbn [fst snd] in Hs.
  - simplify_eq. by apply leader_inv_goto.
  - destruct (b && _); simplify_eq; [by apply leader_inv_goto|].
    split; cbn; destruct Hh as [[Es Et]|Hh]; try (intros; congruence).
    by rewrite Es, Et.
  - destruct (negb _); simplify_eq; apply leader_inv_goto; auto.
    destruct (role_same _ _ (fail_all_role r' ErrLeaderLost)) as [Es Et].
    destruct Hh as [[Hh1 Hh2]|Hh]; [left; split; unfold failPendingFutures; congruence|right].
    unfold failPendingFutures. congruence.
Qed.

Lemma vote_step_inv p resp p' : leader_inv p -> vote_step p resp = Some p' -> leader_inv p'.
Proof.
  intros Hi Hs. pose proof Hi as [H1' H2']. unfold vote_step, pc_inv in *.
  destruct (pc p) as [|[]| |t v []|t| | |[]|]; try done.
  destruct (currentTerm (node p) <? rvr_Term resp).
  { apply try_some in Hs as (r'&Hr%stepDown_role&[= <-]). apply role_proj in Hr as (Es&Et&_).
    apply leader_inv_goto; auto. }
  destruct (rvr_VoteGranted resp); [|simplify_eq; split; cbn; auto].
  destruct (quorum (node p) <=? v + 1); simplify_eq; split; cbn; auto.
  - intros Hl. right. by apply H1'.
  - split; [done|by left].
Qed.

(** ** The other goroutines

    What a step of a goroutine other than the main one, or of a caller, can do to the
    role: nothing, or the step to a newer term that a response brings, or the
    shutdown. The main goroutine stays where it is. *)
Definition background (l : label) : bool :=
  match l with
  | LMain | LCommand _ | LTimer | LVote _ | LRequest => false
  | _ => true
  end.

Definition newer_term (l : label) (t : Z) : Prop :=
  match l with
  | LResponse _ resp | LStaleResponse _ resp => t = aer_Term resp
  | _ => False
  end.

Inductive drift p (l : label) p' : Prop :=
| drift_same : role (node p') = role (node p) -> drift p l p'
| drift_down t : newer_term l t -> currentTerm (node p) < t ->
    role (node p') = (Follower, t, [], config (node p)) -> drift p l p'
| drift_shut :
    role (node p') = (Follower, currentTerm (node p), votedFor (node p), config (node p)) ->
    drift p l p'.

Lemma response_drift p id resp p' : response_step p id resp = Some p' ->
  pc p' = pc p /\ won p' = won p /\ drift p (LResponse id resp) p'.
Proof.
  unfold response_step. destruct (inflight p !! id) as [es|]; [|done].
  intros (r'&Hr%replicate_process_role&[= <-])%try_some. split_and!; [done..|].
  destruct Hr as [[_ Hr]|[Hlt Hr]]; [by apply drift_same|by apply (drift_down _ _ _ (aer_Term resp))].
Qed.

Lemma stale_drift p k resp p' : stale_response p k resp = Some p' ->
  pc p' = pc p /\ won p' = won p /\ drift p (LStaleResponse k resp) p'.
Proof.
  unfold stale_response. destruct (stale p !! k) as [[peer [es|]]|]; try done.
  destruct (Z.ltb_spec (currentTerm (node p)) (aer_Term resp)) as [Hlt|Hge].
  { intros (r'&Hr%stepDown_role&[= <-])%try_some. split_and!; [done..|].
    by apply (drift_down _ _ _ (aer_Term resp)). }
  destruct (aer_Success resp).
  - intros (r'&Hr%advanceCommitIndex_role&[= <-])%try_some. split_and!; [done..|]. by apply drift_same.
  - intros (next&_&[= <-])%try_some. split_and!; [done..|]. by apply drift_same.
Qed.

Lemma background_drift p l p' : background l = true -> step p l = Some p' ->
  pc p' = pc p /\ won p' = won p /\ drift p l p'.
Proof.
  intros Hb Hs. destruct l as [|cmd| |resp| |id|id resp|id|k|k resp| | |data c|f|f|]; try done; simpl in Hs.
  - unfold send_step in Hs. destruct (peers (node p) !! id), (inflight p !! id); try done.
    apply try_some in Hs as ([req|]&_&Hs); [|done]. injection Hs as <-.
    split_and!; [done..|]. by apply drift_same.
  - by apply response_drift in Hs.
  - unfold lost_step in Hs. injection Hs as <-. split_and!; [done..|]. by apply drift_same.
  - unfold stale_send in Hs. destruct (stale p !! k) as [[peer [es|]]|]; try done.
    apply try_some in Hs as ([req|]&_&Hs); [|done]. injection Hs as <-.
    split_and!; [done..|]. by apply drift_same.
  - by apply stale_drift in Hs.
  - unfold apply_wake in Hs. destruct (applying p); [done|].
    destruct (commitNotifyCh (node p)); [|done]. injection Hs as <-.
    split_and!; [done..|]. by apply drift_same.
  - unfold apply_next in Hs. destruct (applying p) as [[idx c]|]; [|done].
    destruct (idx <=? c).
    + apply try_some in Hs as (r'&Hr%apply_one_role&[= <-]). split_and!; [done..|]. by apply drift_same.
    + injection Hs as <-. split_and!; [done..|]. by apply drift_same.
  - destruct (choice_ready (node p) c); [|done]. injection Hs as <-.
    split_and!; [done..|]. apply drift_same, Apply_role.
  - injection Hs as <-. split_and!; [done..|]. apply drift_same, resolve_role.
  - apply wait_step_spec in Hs as [m ->]. split_and!; [done..|]. by apply drift_same.
  - injection Hs as <-. split_and!; [done..|].
    destruct (Shutdown_role (node p)) as [Hr|Hr]; [by apply drift_same|by apply drift_shut].
Qed.

Lemma polite_newer p l t : polite p l -> newer_term l t ->
  match pc p with InCandidate _ _ true | Elected _ => t <= currentTerm (node p) | _ => True end.
Proof. by destruct l; try done; intros Hp ->. Qed.

Lemma timer_inv p p' : leader_inv p -> timer_step p = Some p' -> leader_inv p'.
Proof.
  intros Hi Hs. unfold timer_step in Hs.
  destruct (pc p) as [|[]| |t v []|t| | |[]|]; try done; simplify_eq.
  - split; cbn; [done|done].
  - apply leader_inv_goto; auto.
Qed.

Lemma request_step_role p p' : request_step p = Some p' ->
  pc p = InLeader true /\ pc p' = InLeader false /\ won p' = won p /\ role (node p') = role (node p).
Proof.
  unfold request_step. destruct (pc p) as [|[]| |t v []|t| | |[]|]; try done.
  destruct (applyCh (node p)) as [|req rest]; [done|].
  by intros (r'&Hr%handleApplyRequest_role&[= <-])%try_some.
Qed.

Lemma step_inv p l p' : leader_inv p -> polite p l -> step p l = Some p' -> leader_inv p'.
Proof.
  intros Hi Hp Hs. destruct (background l) eqn:Hb.
  { destruct (background_drift p l p' Hb Hs) as (Hpc&Hw&[Hr|t Hn Hlt Hr|Hr]).
    - by apply (leader_inv_same p).
    - apply (leader_inv_down p p' t [] (config (node p)) Hr Hlt); [by eapply polite_newer|done].
    - apply role_proj in Hr as (Es&Et&_). pose proof Hi as [_ H2'].
      split; [congruence|]. unfold pc_inv in *. rewrite Hpc, Hw, Es, Et.
      destruct (pc p) as [|[]| |t v []|t| | |[]|]; done. }
  destruct l; try done; simpl in Hs.
  - by eapply main_step_inv.
  - by eapply command_step_inv.
  - by eapply timer_inv.
  - by eapply vote_step_inv.
  - apply request_step_role in Hs as (_&Hpc&Hw&(Es&Et)%role_same). pose proof Hi as [H1' _].
    split; [by rewrite Es, Et, Hw|]. unfold pc_inv. by rewrite Hpc.
Qed.

Lemma steps_inv ls : forall p p',
  leader_inv p -> polite_run p ls -> steps p ls = Some p' -> leader_inv p'.
Proof.
  induction ls as [|l ls IH]; intros p p' Hi Hp Hs; simpl in *; [by simplify_eq|].
  destruct Hp as [Hp Hpr]. destruct (step p l) as [p1|] eqn:E; [|done].
  apply (IH p1); [by eapply step_inv|done|done].
Qed.

Lemma leader_inv_start r : state r = Follower -> leader_inv (start r).
Proof. intros Hr. split; cbn; [congruence|done]. Qed.

End roles.

(** A leader was elected. Whatever the network, the timers and the clients do, in
    every interleaving of the goroutines, a node that started as a follower is leader
    only of a term for which it counted a quorum of votes in that term, provided that
    no response to a request of an earlier leadership brings a newer term while it
    counts. *)
Theorem leader_won_its_term {L Sb F R} `{LogStore L} `{StableStoreSpec Sb} `{FSM F R}
    (r : RaftNode L Sb F R) ls p :
  state r = Follower -> polite_run (start r) ls -> steps (start r) ls = Some p ->
  state (node p) = Leader -> currentTerm (node p) ∈ won p.
Proof. intros Hr Hp Hs. apply (steps_inv ls (start r)); [by apply leader_inv_start|done..]. Qed.

#[local] Instance unit_machine : FSM unit unit := { fsm_Apply f _ := Ret (f, None) }.

Definition demo_start : proc InmemLogStore InmemStableStore unit unit :=
  start (demo_node "n1" 0 Follower []).

(** A node becomes a candidate and is elected. *)
Definition demo_election (t : Z) : list label :=
  [LMain; LMain; LTimer; LMain; LMain; LMain; LVote (mkRVR t true)].
Definition demo_lead : list label := [LMain; LMain; LMain; LMain; LMain].

Definition demo_leader : proc InmemLogStore InmemStableStore unit unit :=
  default demo_start (steps demo_start (demo_election 1 ++ demo_lead)).

Lemma demo_leader_steps : steps demo_start (demo_election 1 ++ demo_lead) = Some demo_leader.
Proof. apply default_eq. vm_compute. reflexivity. Qed.

Lemma leader_won_its_term_witness :
  state (node demo_leader) = Leader /\ currentTerm (node demo_leader) ∈ won demo_leader.
Proof.
  assert (state (node demo_leader) = Leader) as Hl by (vm_compute; reflexivity).
  split; [exact Hl|].
  apply (leader_won_its_term (demo_node "n1" 0 Follower []) (demo_election 1 ++ demo_lead));
    [reflexivity|vm_compute; tauto|exact demo_leader_steps|exact Hl].
Defined.

(** A leader of term 1 whose request to n2 is in flight loses its leadership to a
    candidate of term 2, and is elected for term 3; n2's response of term 4 arrives
    just before the assignment of [Leader]. *)
Definition stale_trace : list label :=
  demo_election 1 ++ demo_lead ++
  [LSend (bytes_of "n2"); LCommand (CRequestVote (mkRV 2 (bytes_of "n3") 1 1))] ++
  demo_election 3 ++ [LResponse (bytes_of "n2") (mkAER 4 false 0 1)] ++ demo_lead.

(** A leader that nobody elected. [runCandidate] assigns [Leader] without looking
    at the state again: when the response to a request of an earlier leadership has
    raised the term in the meantime, the node becomes leader of that newer term, which
    it did not win, has nobody's vote and has not even voted in, and it appends its
    no-op entry with that term. *)
Theorem stale_response_makes_leader :
  (fun p => (state (node p), currentTerm (node p), votedFor (node p), won p,
     match GetLog (logStore (node p)) 2 with Got e => Term e | _ => 0 end))
    <$> steps demo_start stale_trace = Some (Leader, 4, [], [3; 1], 4).
Proof. vm_compute. reflexivity. Qed.
