(* ===== verification/Restart.v ===== *)
(** A node that crashes and is started again ([NewRaftNode], [persistState] and
    [restoreState] of [internal/raft/raft.go]): a new process has the old one's stores and
    nothing else. Its log, and where writes succeed its term and its vote, are those of the
    old process; the commit index starts at 0, and the state machine from the beginning. *)
From S2P Require Import Prelude Stores Future Config Node Election Replication Rpc Leader Machine.

(** * Starting again *)

Section restart.
  Context {L Sb F R : Type} `{LogStore L} `{StableStore Sb} `{FSM F R}.
  Implicit Types r : RaftNode L Sb F R.
  Implicit Types p : proc L Sb F R.

(** What [persistState] writes, one call of the stable store after the other. *)
Inductive disk_write : Type := WTerm (t : Z) | WVote (v : text).

Fixpoint disk_after (s : Sb) (ws : list disk_write) : outcome string Sb :=
  match ws with
  | [] => Ret s
  | WTerm t :: ws' => s' ← SetUint64 s KeyCurrentTerm t; disk_after s' ws'
  | WVote v :: ws' => s' ← Set_ s KeyVotedFor v; disk_after s' ws'
  end.

(** The configuration of the new process: the same, on what the stores now hold. *)
Definition on_disk r (s : Sb) : Config L Sb F :=
  mkConfig (ServerID (config r)) (Peers (config r)) (HeartbeatInterval (config r))
    (ElectionTimeoutMin (config r)) (ElectionTimeoutMax (config r))
    (Some (logStore r)) (Some s) (CFSM (config r)).

(** The process dies, whatever it is doing, and [NewRaftNode] starts a new one. The crash
    may come in the middle of a critical section that persists its term and vote, when
    [ws] has been written. [won] is a record of the past, not of the process. *)
Definition restart p (ws : list disk_write) : option (proc L Sb F R) :=
  match disk_after (stableStore (node p)) ws with
  | Ret s =>
      match NewRaftNode (on_disk (node p) s) with
      | Ret r => Some (mkProc r AtRun ∅ [] None (won p))
      | _ => None
      end
  | _ => None
  end.

(** What is left of the old process, with [s] on disk. *)
Record restarted p (s : Sb) p' : Prop := mk_restarted {
  rs_config : config (node p') = on_disk (node p) s;
  rs_log : logStore (node p') = logStore (node p);
  rs_stable : stableStore (node p') = s;
  rs_saved : GetUint64 s KeyCurrentTerm = Ret (currentTerm (node p')) /\
    Get s KeyVotedFor = Ret (votedFor (node p'));
  rs_state : state (node p') = Follower;
  rs_peers : peers (node p') = ∅;
  rs_commit : commitIndex (node p') = 0;
  rs_applied : lastApplied (node p') = 0;
  rs_fsm : CFSM (config (node p)) = Some (fsm (node p'));
  rs_clients : pendingFutures (node p') = ∅ /\ applyCh (node p') = [] /\ shutdownCh (node p') = false;
  rs_goroutines : pc p' = AtRun /\ inflight p' = ∅ /\ stale p' = [] /\ applying p' = None;
  rs_won : won p' = won p
}.

Lemma restart_spec p ws p' : restart p ws = Some p' ->
  exists s, disk_after (stableStore (node p)) ws = Ret s /\ restarted p s p'.
Proof.
  unfold restart, NewRaftNode. destruct (disk_after (stableStore (node p)) ws) as [s| | |]; try done.
  destruct (validate (on_disk (node p) s)) as [[]| | |]; try done.
  cbn [mbind outcome_bind on_disk CLogStore CStableStore CFSM].
  destruct (CFSM (config (node p))) as [f|] eqn:Hf; [|done]. unfold restoreState. cbn [stableStore].
  destruct (GetUint64 s KeyCurrentTerm) as [t| | |] eqn:Ht; try done.
  cbn [mbind outcome_bind stableStore set_currentTerm].
  destruct (Get s KeyVotedFor) as [v| | |] eqn:Hv; try done.
  intros [= <-]. exists s. by split.
Qed.

(** A configuration that was accepted is accepted again, so [NewRaftNode] can only fail to
    read. *)
Lemma validate_on_disk r s : validate (config r) = Ret tt -> validate (on_disk r s) = Ret tt.
Proof. rewrite !validate_ok. intros [A1 A2 A3 A4 A5 A6 A7 A8]. by split. Qed.

Lemma restart_reads p ws s t v :
  validate (config (node p)) = Ret tt -> disk_after (stableStore (node p)) ws = Ret s ->
  GetUint64 s KeyCurrentTerm = Ret t -> Get s KeyVotedFor = Ret v ->
  exists p', restart p ws = Some p' /\ restarted p s p'.
Proof.
  intros Hc Hs Ht Hv. pose proof Hc as [_ _ _ [f Hf] _ _ _ _]%validate_ok.
  assert (exists p', restart p ws = Some p') as [p' Hp].
  { unfold restart, NewRaftNode. rewrite Hs, validate_on_disk by done.
    cbn [mbind outcome_bind on_disk CLogStore CStableStore CFSM]. rewrite Hf.
    unfold restoreState. cbn [stableStore]. rewrite Ht. cbn [mbind outcome_bind stableStore set_currentTerm].
    rewrite Hv. by eexists. }
  exists p'. split; [done|]. destruct (restart_spec p ws p' Hp) as (s'&Hs'&Hr).
  rewrite Hs in Hs'. by injection Hs' as <-.
Qed.

(** The new process is in a newer term, or in the same term with the same vote or, where
    there was none, with a first one. *)
Definition recovers r r' : Prop :=
  currentTerm r < currentTerm r' \/
  (currentTerm r' = currentTerm r /\ (votedFor r' = votedFor r \/ votedFor r = [])).

End restart.

(** * What is on disk

    With stores whose writes succeed, every step leaves the term and the vote on disk. *)
Section disk.
  Context {L Sb F R : Type} `{LogStore L} `{StableStoreSpec Sb} `{FSM F R} `{!StableStoreReliable Sb}.
  Implicit Types r : RaftNode L Sb F R.
  Implicit Types p : proc L Sb F R.

(** An operation keeps the configuration, and keeps the disk up to date. *)
Definition saved r r' : Prop :=
  config r' = config r /\ (durable r -> term_ok r -> durable r' /\ term_ok r').

Lemma saved_refl r : saved r r.
Proof. by split. Qed.

Lemma saved_trans r1 r2 r3 : saved r1 r2 -> saved r2 r3 -> saved r1 r3.
Proof. intros [E1 H1'] [E2 H2']. split; [congruence|]. intros Hd Ht. destruct (H1' Hd Ht). auto. Qed.

(** Neither the term and the vote nor the store change. *)
Lemma saved_role r r' : role r' = role r -> stableStore r' = stableStore r -> saved r r'.
Proof.
  intros (_&Et&Ev&Ec)%role_proj Es. split; [done|]. unfold durable, term_ok. by rewrite Es, Et, Ev.
Qed.

Lemma stepDown_saved r t r' : 0 <= t <= max_uint -> stepDown r t = Ret r' -> saved r r'.
Proof.
  intros Ht Hs. split; [by apply stepDown_role, role_proj in Hs as (_&_&_&?)|].
  intros _ _. destruct (stepDown_durable r t Ht) as (r1&E&Hr). rewrite Hs in E. by injection E as <-.
Qed.

Lemma startElection_saved r r' req addrs : startElection r = Ret (r', req, addrs) -> saved r r'.
Proof.
  intros He. split; [by apply startElection_role in He as [(_&_&_&?)%role_proj _]|]. intros _ _.
  unfold startElection in He.
  destruct (vote_durable (set_currentTerm (currentTerm r +ᵤ 1)%go r) (ServerID (config r))) as (r1&E&Hr).
  { apply uwrap64_range. }
  rewrite E in He. cbn [mbind outcome_bind] in He. destruct (lastLogInfo r1). by injection He as <- _ _.
Qed.

Lemma handleRPC_saved r cmd r' resp b : cmd_term_ok cmd -> handleRPC r cmd = Ret (r', resp, b) -> saved r r'.
Proof.
  intros Hc Hh. split; [|intros Hd Ht; by eapply handleRPC_durable]. destruct cmd as [req|req|].
  - apply handleRPC_append_role in Hh. by destruct (_ <? _); apply role_proj in Hh as (_&_&_&?).
  - apply handleRPC_vote_role in Hh as [_ (_&_&_&E)%role_proj]. rewrite E. unfold at_term.
    by destruct (vote_ok r req), (currentTerm r <? rv_Term req).
  - simpl in Hh. by injection Hh as <- _ _.
Qed.

Lemma resolve_stable id err resp r : stableStore (resolve id err resp r) = stableStore r.
Proof. unfold resolve. by destruct (futures r !! id). Qed.

Lemma resolve_saved id err resp r : saved r (resolve id err resp r).
Proof. apply saved_role; [apply resolve_role|apply resolve_stable]. Qed.

Lemma fail_all_stable r err : stableStore (fail_all r err) = stableStore r.
Proof.
  unfold fail_all. cbn [stableStore set_pendingFutures]. generalize (map_to_list (pendingFutures r)).*2.
  intros l. revert r. induction l as [|a l IH]; intros r; cbn [foldl]; [done|]. by rewrite IH, resolve_stable.
Qed.

Lemma fail_all_saved r err : saved r (fail_all r err).
Proof. apply saved_role; [apply fail_all_role|apply fail_all_stable]. Qed.

Lemma advance_saved r r' : advanceCommitIndex r = Ret r' -> saved r r'.
Proof.
  intros Ha. apply saved_role; [by apply advanceCommitIndex_role|]. revert Ha.
  unfold advanceCommitIndex. intros (c&_&Hc)%bind_ret. destruct (c <=? commitIndex r); [by injection Hc as <-|].
  destruct (GetLog (logStore r) c); [|by injection Hc as <-]. destruct (negb _); by injection Hc as <-.
Qed.

Lemma becomeLeader_saved r : saved r (becomeLeader r).
Proof.
  pose proof (becomeLeader_role r) as (_&Et&Ev&Ec)%role_proj. split; [done|].
  assert (stableStore (becomeLeader r) = stableStore r) as Es
    by (unfold becomeLeader, set_leaderAddr_of; by destruct (find_addr _ _)).
  unfold durable, term_ok. by rewrite Es, Et, Ev.
Qed.

Lemma Shutdown_saved r : saved r (Shutdown r).
Proof.
  unfold Shutdown. destruct (shutdownCh r); [apply saved_refl|].
  eapply saved_trans; [|apply fail_all_saved]. by split.
Qed.

Lemma appendNoOp_saved r r' : appendNoOp r = Ret r' -> saved r r'.
Proof.
  intros Ha. apply saved_role; [by apply appendNoOp_role|]. revert Ha. unfold appendNoOp, or_log.
  by destruct (StoreLog (logStore r) (next_entry r [])); intros Hx; try done; injection Hx as <-.
Qed.

Lemma handleApplyRequest_saved r req r' : handleApplyRequest r req = Ret r' -> saved r r'.
Proof.
  intros Ha. apply saved_role; [by eapply handleApplyRequest_role|]. revert Ha.
  unfold handleApplyRequest. destruct (negb _); [intros [= <-]; apply resolve_stable|].
  destruct (StoreLog _ _); intros Hx; try done; injection Hx as <-; [done|apply resolve_stable].
Qed.

Lemma Apply_saved r data c : saved r (fst (Apply r data c)).
Proof.
  apply saved_role; [apply Apply_role|]. unfold Apply.
  destruct (negb _); [|destruct c]; cbn [fst]; rewrite ?resolve_stable; done.
Qed.

Lemma apply_one_saved r idx r' : apply_one r idx = Ret r' -> saved r r'.
Proof.
  intros Ha. apply saved_role; [by eapply apply_one_role|]. revert Ha. unfold apply_one.
  destruct (GetLog (logStore r) idx); [|intros Hx; by injection Hx as <-].
  intros ([f x]&_&Hx)%bind_ret. injection Hx as <-. cbn [fst snd].
  destruct (pendingFutures _ !! idx); [|done]. cbn [stableStore set_pendingFutures]. by rewrite resolve_stable.
Qed.

Lemma replicate_process_saved r id es resp r' :
  0 <= aer_Term resp <= max_uint -> replicate_process r id es resp = Ret r' -> saved r r'.
Proof.
  intros Ht. unfold replicate_process. destruct (currentTerm r <? aer_Term resp); [by apply stepDown_saved|].
  destruct (peers r !! id) as [q|], (aer_Success resp).
  - intros Ha%advance_saved. eapply saved_trans; [|exact Ha]. by split.
  - intros (next&_&[= <-])%bind_ret. by split.
  - apply advance_saved.
  - intros [= <-]. apply saved_refl.
Qed.

(** The terms of a message are uint64 values. *)
Definition terms_fit (l : label) : Prop :=
  match l with
  | LCommand cmd => cmd_term_ok cmd
  | LVote resp => 0 <= rvr_Term resp <= max_uint
  | LResponse _ resp | LStaleResponse _ resp => 0 <= aer_Term resp <= max_uint
  | _ => True
  end.

Lemma main_saved p p' : main_step p = Some p' -> saved (node p) (node p').
Proof.
  intros Hs. unfold main_step in Hs. destruct (pc p) as [|[]| |t v []|t| | |[]|];
    try (destruct (shutdownCh (node p)); [|done]);
    try (injection Hs as <-; first [apply saved_refl|apply becomeLeader_saved|apply fail_all_saved|by split]).
  - destruct (shutdownCh (node p)), (state (node p)); injection Hs as <-; apply saved_refl.
  - apply try_some in Hs as ([[r' req] addrs]&He%startElection_saved&Hs). cbn [fst] in Hs.
    destruct (quorum r' <=? 1); by injection Hs as <-.
  - apply try_some in Hs as (r'&Hr%appendNoOp_saved&[= <-]). done.
  - case_bool_decide; injection Hs as <-; [apply saved_refl|apply fail_all_saved].
  - done.
Qed.

Lemma command_saved p cmd p' : cmd_term_ok cmd -> command_step p cmd = Some p' -> saved (node p) (node p').
Proof.
  unfold command_step. intros Hc Hs. destruct (pc p) as [|[]| |t v []|t| | |[]|]; try done;
    apply try_some in Hs as ([[r' resp] b]&Hh%handleRPC_saved&Hs); try done; cbn [fst snd] in Hs;
    repeat case_match; injection Hs as <-; try done.
  eapply saved_trans; [exact Hh|apply fail_all_saved].
Qed.

Lemma answer_saved p l p' :
  terms_fit l -> (exists id resp, l = LResponse id resp) \/ (exists k resp, l = LStaleResponse k resp) ->
  step p l = Some p' -> saved (node p) (node p').
Proof.
  intros Ht [(id&resp&->)|(k&resp&->)] Hs; simpl in Hs, Ht.
  - unfold response_step in Hs. destruct (inflight p !! id) as [req|]; [|done].
    apply try_some in Hs as (r'&Hr&[= <-]). by eapply replicate_process_saved.
  - unfold stale_response in Hs. destruct (stale p !! k) as [[q [req|]]|]; try done.
    destruct (currentTerm (node p) <? aer_Term resp).
    { apply try_some in Hs as (r'&Hr&[= <-]). by eapply stepDown_saved. }
    destruct (aer_Success resp).
    + by apply try_some in Hs as (r'&Hr%advance_saved&[= <-]).
    + apply try_some in Hs as (next&_&[= <-]). apply saved_refl.
Qed.

Lemma step_saved p l p' : terms_fit l -> step p l = Some p' -> saved (node p) (node p').
Proof.
  intros Ht Hs. destruct l as [|cmd| |resp| |id|id resp|id|k|k resp| | |data c|f|f|]; simpl in Hs.
  - by apply main_saved.
  - by eapply command_saved.
  - unfold timer_step in Hs. destruct (pc p) as [|[]| |t v []|t| | |[]|]; try done; by injection Hs as <-.
  - unfold vote_step in Hs. destruct (pc p) as [|[]| |t v []|t| | |[]|]; try done.
    destruct (currentTerm (node p) <? rvr_Term resp).
    { apply try_some in Hs as (r'&Hr&[= <-]). by eapply stepDown_saved. }
    destruct (rvr_VoteGranted resp); [destruct (_ <=? _)|]; injection Hs as <-; apply saved_refl.
  - unfold request_step in Hs. destruct (pc p) as [|[]| |t v []|t| | |[]|]; try done.
    destruct (applyCh (node p)) as [|req rest]; [done|].
    apply try_some in Hs as (r'&Hr%handleApplyRequest_saved&[= <-]). eapply saved_trans; [|exact Hr]. by split.
  - unfold send_step in Hs. destruct (peers (node p) !! id), (inflight p !! id); try done.
    apply try_some in Hs as ([req|]&_&Hs); [|done]. injection Hs as <-. apply saved_refl.
  - eapply (answer_saved p (LResponse id resp)); eauto.
  - injection Hs as <-. apply saved_refl.
  - unfold stale_send in Hs. destruct (stale p !! k) as [[q [es|]]|]; try done.
    apply try_some in Hs as ([req|]&_&Hs); [|done]. injection Hs as <-. apply saved_refl.
  - eapply (answer_saved p (LStaleResponse k resp)); eauto.
  - unfold apply_wake in Hs. destruct (applying p), (commitNotifyCh (node p)); try done. by injection Hs as <-.
  - unfold apply_next in Hs. destruct (applying p) as [[idx c]|]; [|done]. destruct (idx <=? c).
    + by apply try_some in Hs as (r'&Hr%apply_one_saved&[= <-]).
    + injection Hs as <-. apply saved_refl.
  - destruct (choice_ready (node p) c); [|done]. injection Hs as <-. apply Apply_saved.
  - injection Hs as <-. apply resolve_saved.
  - apply wait_step_spec in Hs as [m ->]. by apply saved_role.
  - injection Hs as <-. apply Shutdown_saved.
Qed.

Lemma steps_saved ls : forall p p',
  Forall terms_fit ls -> steps p ls = Some p' -> saved (node p) (node p').
Proof.
  induction ls as [|l ls IH]; intros p p' Hl Hs; cbn in Hs; [injection Hs as <-; apply saved_refl|].
  apply Forall_cons in Hl as [Hl Hls]. destruct (step p l) as [p1|] eqn:E; [|done].
  eapply saved_trans; [by eapply step_saved|by eapply IH].
Qed.

(** The writes that a critical section makes in a node of the term and the vote [r] has:
    the term first, and a vote only in a newer term or where there was none. *)
Definition writes_of r (t : Z) (ws : list disk_write) : Prop :=
  currentTerm r <= t <= max_uint /\
  (ws = [] \/ ws = [WTerm t] \/ exists v, ws = [WTerm t; WVote v] /\
    (currentTerm r < t \/ votedFor r = [] \/ votedFor r = v)).

Lemma disk_after_reads r t ws s : durable r -> term_ok r -> writes_of r t ws -> disk_after (stableStore r) ws = Ret s ->
  exists t' v', GetUint64 s KeyCurrentTerm = Ret t' /\ Get s KeyVotedFor = Ret v' /\
    (currentTerm r < t' \/ (t' = currentTerm r /\ (v' = votedFor r \/ votedFor r = []))).
Proof.
  intros [D1 D2] Hok [Ht Hws] Hs. destruct Hws as [->|[->|(v&->&Hv)]]; cbn [disk_after] in Hs.
  { injection Hs as <-. exists (currentTerm r), (votedFor r). split_and!; auto. }
  all: destruct (SetUint64_spec (stableStore r) KeyCurrentTerm t) as [[e E]|(s1&E&Ht1&Ho1)];
    rewrite E in Hs; cbn [mbind outcome_bind] in Hs; [done|].
  all: destruct (Ho1 KeyVotedFor) as [Ev _]; [done|]; specialize (Ht1 ltac:(unfold term_ok in *; lia)).
  - injection Hs as <-. exists t, (votedFor r). split_and!; [done|congruence|].
    assert (currentTerm r < t \/ t = currentTerm r) as [?|?] by lia; auto.
  - destruct (Set_spec s1 KeyVotedFor v) as [[e E2]|(s2&E2&Hv2&Ho2)]; rewrite E2 in Hs; cbn [mbind outcome_bind] in Hs; [done|].
    injection Hs as <-. destruct (Ho2 KeyCurrentTerm) as [_ Et]; [done|]. exists t, v. split_and!; [congruence|done|].
    assert (currentTerm r < t \/ t = currentTerm r) as [?|?] by lia; [by left|right]. split; [done|].
    destruct Hv as [Hv|[Hv|Hv]]; [lia|by right|by left].
Qed.

Lemma disk_after_ret ws : forall s, exists s', disk_after s ws = Ret s'.
Proof.
  induction ws as [|[t|v] ws IH]; intros s; cbn [disk_after]; [by eexists|..].
  - pose proof (SetUint64_reliable s KeyCurrentTerm t) as Hs.
    destruct (SetUint64 s KeyCurrentTerm t); [apply IH|done..].
  - pose proof (Set_reliable s KeyVotedFor v) as Hs. destruct (Set_ s KeyVotedFor v); [apply IH|done..].
Qed.

(** A new node has read its term and vote from the disk. *)
Lemma NewRaftNode_saved c r : NewRaftNode c = Ret r ->
  validate c = Ret tt /\ config r = c /\ durable r /\ CFSM c = Some (fsm r).
Proof.
  unfold NewRaftNode. destruct (validate c) as [[]| | |]; try done. cbn [mbind outcome_bind].
  destruct (CLogStore c), (CStableStore c) as [s|], (CFSM c) as [f|]; try done. unfold restoreState, durable.
  cbn [stableStore]. destruct (GetUint64 s KeyCurrentTerm) as [t| | |] eqn:Ht; try done.
  cbn [mbind outcome_bind stableStore set_currentTerm].
  destruct (Get s KeyVotedFor) as [v| | |] eqn:Hv; try done. intros [= <-]. by split_and!.
Qed.

End disk.

(** C24: a crash loses nothing that was promised. A node is created over a stable store
    whose writes succeed ([StableStoreReliable]: [persistState] goes on after a failed
    write, and [vote_despite_failed_write] shows what is lost then) and runs in any way:
    its goroutines interleave freely, with any messages, timers and clients. If it then crashes, between two critical sections or
    when one of them has written a part of its term and vote, [NewRaftNode] starts it
    again on the same stores as a follower with the log it had. Its term and its vote are
    those it had, or what was being written: a newer term, or a first vote. The commit
    index, the applied index and the state machine are those of a first start, from which
    the committed entries are applied again. *)
Theorem restart_restores {L Sb F R} `{LogStore L} `{StableStoreSpec Sb} `{FSM F R} `{!StableStoreReliable Sb}
    (c : Config L Sb F) (r : RaftNode L Sb F R) ls p :
  NewRaftNode c = Ret r -> term_ok r -> Forall terms_fit ls -> steps (start r) ls = Some p ->
  forall t ws, writes_of (node p) t ws ->
  exists p', restart p ws = Some p' /\ state (node p') = Follower /\ logStore (node p') = logStore (node p) /\
    recovers (node p) (node p') /\
    (ws = [] -> currentTerm (node p') = currentTerm (node p) /\ votedFor (node p') = votedFor (node p)) /\
    commitIndex (node p') = 0 /\ lastApplied (node p') = 0 /\ fsm (node p') = fsm r /\ durable (node p').
Proof.
  intros Hnew Ht Hl Hs t ws Hw. destruct (NewRaftNode_saved c r Hnew) as (Hv&Hc&Hd&Hf).
  destruct (steps_saved ls (start r) p Hl Hs) as [Ec Hp]. cbn [node start] in Ec, Hp.
  destruct (Hp Hd Ht) as [Hd' Hok]. rewrite Hc in Ec.
  destruct (disk_after_ret ws (stableStore (node p))) as [s Hds].
  destruct (disk_after_reads (node p) t ws s Hd' Hok Hw Hds) as (t'&v'&Ht'&Hv'&Hrec).
  destruct (restart_reads p ws s t' v') as (p'&Hr&[X1 X2 X3 [X4 X5] X6 _ X8 X9 X10 _ _ _]);
    [by rewrite Ec|done..|].
  assert (currentTerm (node p') = t' /\ votedFor (node p') = v') as [Et Ev] by (split; congruence).
  exists p'. split_and!; try done.
  - unfold recovers. by rewrite Et, Ev.
  - intros ->. destruct Hd' as [D1 D2]. injection Hds as <-. split; congruence.
  - rewrite Ec, Hf in X10. by injection X10.
  - unfold durable. by rewrite X3.
Qed.

#[local] Instance unit_restarted : FSM unit unit := { fsm_Apply f _ := Ret (f, None) }.

Definition demo_first_config : Config InmemLogStore InmemStableStore unit :=
  config (demo_node "n1" 0 Follower []).

Definition demo_new : RaftNode InmemLogStore InmemStableStore unit unit :=
  ret_of (demo_node "n1" 0 Follower []) (NewRaftNode demo_first_config).

(** The node leads term 1 and appends its no-op entry; it crashes when it is asked for its
    vote in term 3 and has written the term, and not the vote. *)
Definition demo_crashed : proc InmemLogStore InmemStableStore unit unit :=
  default (start demo_new) (steps (start demo_new) (demo_election 1 ++ demo_lead)).

Lemma restart_restores_witness :
  exists p', restart demo_crashed [WTerm 3] = Some p' /\ state (node p') = Follower /\
    logStore (node p') = logStore (node demo_crashed) /\ recovers (node demo_crashed) (node p') /\
    ([WTerm 3] = [] -> currentTerm (node p') = currentTerm (node demo_crashed) /\
       votedFor (node p') = votedFor (node demo_crashed)) /\
    commitIndex (node p') = 0 /\ lastApplied (node p') = 0 /\ fsm (node p') = fsm demo_new /\ durable (node p').
Proof.
  apply (restart_restores demo_first_config demo_new (demo_election 1 ++ demo_lead) demo_crashed) with (t := 3).
  - apply ret_of_eq. vm_compute. reflexivity.
  - by_compute.
  - repeat constructor; by_compute.
  - apply default_eq. vm_compute. reflexivity.
  - split; [by_compute|by right; left].
Defined.
