(* ===== verification/Frame.v ===== *)
(** What the operations of a node leave alone ([internal/raft]): the commit and apply
    state, the log and the peers' replication state change only where the code commits,
    applies, appends or replicates. *)
From S2P Require Import Prelude Stores Future Config Node Election Replication Rpc Leader Machine.

Section frame.
  Context {L Sb F R : Type} `{LogStore L} `{StableStoreSpec Sb} `{FSM F R}.
  Implicit Types r : RaftNode L Sb F R.
  Implicit Types p : proc L Sb F R.

(** What committing and applying go by. *)
Definition commits r :=
  (config r, commitIndex r, lastApplied r, commitNotifyCh r, fsm r).

Record kept r r' : Prop := mk_kept {
  kp_commits : commits r' = commits r;
  kp_log : logStore r' = logStore r;
  kp_peers : peers r' = peers r
}.

Lemma kept_refl r : kept r r.
Proof. by split. Qed.

Lemma kept_trans r1 r2 r3 : kept r1 r2 -> kept r2 r3 -> kept r1 r3.
Proof. intros [A1 A2 A3] [B1 B2 B3]. split; congruence. Qed.

Lemma stable_kept r r' : same_but_stable r r' -> kept r r'.
Proof. unfold same_but_stable. by intros ->. Qed.

Lemma resolve_kept id err resp r : kept r (resolve id err resp r).
Proof. unfold resolve. by destruct (futures r !! id). Qed.

Lemma fail_all_kept r err : kept r (fail_all r err).
Proof.
  unfold fail_all. set (l := (map_to_list (pendingFutures r)).*2).
  assert (forall q, kept r q -> kept r (set_pendingFutures ∅ q)) as Hset by (by intros q [? ? ?]).
  apply Hset. clear Hset. generalize l. clear l. intros l.
  revert r. induction l as [|a l IH]; intros r; cbn [foldl]; [apply kept_refl|].
  eapply kept_trans; [apply resolve_kept|apply IH].
Qed.

Lemma stepDown_kept r t r' : stepDown r t = Ret r' -> kept r r'.
Proof.
  destruct (stepDown_total r t) as (r1&E&Hs). rewrite E. intros [= <-].
  by apply stable_kept in Hs as [? ? ?].
Qed.

Lemma startElection_kept r r' req addrs : startElection r = Ret (r', req, addrs) -> kept r r'.
Proof.
  unfold startElection.
  destruct (persistState_total (set_votedFor (ServerID (config r))
    (set_currentTerm (currentTerm r +ᵤ 1)%go r))) as (r1&->&Hs). cbn [mbind outcome_bind].
  destruct (lastLogInfo r1). intros Hx. injection Hx as <- _ _.
  by apply stable_kept in Hs as [? ? ?].
Qed.

Lemma handleRPC_kept r cmd r' resp b :
  (forall req, cmd <> CAppendEntries req) -> handleRPC r cmd = Ret (r', resp, b) -> kept r r'.
Proof.
  intros Hc. destruct cmd as [req|req|]; [by destruct (Hc req)| |]; simpl.
  - intros ([[r1 resp1] b1]&Hh&Hx)%bind_ret. injection Hx as <- _ _.
    destruct (handleRequestVote_spec r req) as (r2&Hr2&Hs). rewrite Hr2 in Hh.
    injection Hh as <- _ _. eapply kept_trans; [|by apply stable_kept]. unfold at_term.
    by destruct (vote_ok r req), (currentTerm r <? rv_Term req).
  - intros Hx. injection Hx as <- _ _. apply kept_refl.
Qed.

Lemma becomeLeader_kept r : kept r (becomeLeader r).
Proof. unfold becomeLeader, set_leaderAddr_of. by destruct (find_addr _ _). Qed.

Lemma Shutdown_kept r : kept r (Shutdown r).
Proof.
  unfold Shutdown. destruct (shutdownCh r); [apply kept_refl|].
  eapply kept_trans; [|apply fail_all_kept]. by split.
Qed.

Lemma Apply_kept r data c : kept r (fst (Apply r data c)).
Proof.
  unfold Apply. destruct (negb _); [cbn [fst]|destruct c; cbn [fst]; [done|..]];
    (eapply kept_trans; [|apply resolve_kept]; done).
Qed.

(** Applying and committing leave the log and the peers. *)
Lemma apply_one_log r idx r' :
  apply_one r idx = Ret r' -> logStore r' = logStore r /\ peers r' = peers r.
Proof.
  unfold apply_one. destruct (GetLog (logStore r) idx); [|intros Hx; by injection Hx as <-].
  intros ([f x]&_&Hx)%bind_ret. injection Hx as <-. cbn [fst snd].
  destruct (pendingFutures _ !! idx) as [a|]; [|done].
  destruct (resolve_kept a None x (set_lastApplied idx (set_fsm f r))) as [_ E1 E2].
  split; [exact E1|exact E2].
Qed.

Lemma advanceCommitIndex_log r r' :
  advanceCommitIndex r = Ret r' -> logStore r' = logStore r /\ peers r' = peers r.
Proof.
  unfold advanceCommitIndex. intros (c&_&Hc)%bind_ret.
  destruct (c <=? commitIndex r); [by injection Hc as <-|].
  destruct (GetLog (logStore r) c); [|by injection Hc as <-].
  destruct (negb _); by injection Hc as <-.
Qed.

Lemma handleAppendEntries_peers r req r' resp b :
  handleAppendEntries r req = Ret (r', resp, b) -> peers r' = peers r.
Proof.
  unfold handleAppendEntries. destruct (Z.ltb_spec (ae_Term req) (currentTerm r)).
  { intros Hx. by injection Hx as <- _ _. }
  destruct (accept_leader_spec r req) as (r2&->&[_ _ _ _ _ _ A7]); [done|].
  assert (peers r2 = peers r) as <- by congruence.
  cbn [mbind outcome_bind]. intros Hh. apply bind_ret in Hh as ([[ct ci]|]&_&Hh).
  { by injection Hh as <- _ _. }
  apply bind_ret in Hh as ([log ok]&_&Hh).
  destruct ok; simpl in Hh; injection Hh as <- _ _; [|done].
  unfold follow_commit. by destruct (commitIndex _ <? _).
Qed.

End frame.
