(* ===== verification/Network.v ===== *)
(** A cluster of nodes and the messages between them: the nodes of [Machine], each at
    its address, with the RequestVote calls of [startElection]
    ([internal/raft/election.go]) and the AppendEntries calls of [replicateOnce]
    ([internal/raft/replication.go]) over a transport that delays, reorders and loses
    messages, as [internal/raft/transport.go] does over TCP connections.

    Every call is delivered at most once and answered at most once, with the answer of
    the receiver's handler; the answer to a RequestVote goes to the election that asked,
    the answer to an AppendEntries to a replicator that waits for it. A node may crash at
    any time and be started again from its stores; what it sent is then still under way. *)
From S2P Require Import Prelude Stores Future Config Node Election Replication Rpc Leader Machine.
From S2P Require Import Restart.

(** A call of [SendRequestVote]: from a server (its address) to an address, with the
    answer once the receiver has given it. *)
Record vote_call : Type := mkVoteCall {
  vc_from : text;
  vc_to : text;
  vc_req : RequestVoteRequest;
  vc_resp : option RequestVoteResponse
}.

(** A call of [SendAppendEntries]. *)
Record append_call : Type := mkAppendCall {
  ac_from : text;
  ac_to : text;
  ac_req : AppendEntriesRequest;
  ac_resp : option AppendEntriesResponse
}.

(** A replicator: of the current peer with an identifier, or of an earlier leadership. *)
Inductive replicator_ref : Type := Current (id : text) | Earlier (k : nat).

Definition answer_label (k : replicator_ref) (resp : AppendEntriesResponse) : label :=
  match k with Current id => LResponse id resp | Earlier k => LStaleResponse k resp end.

(** A vote: the voter's address, the term and the candidate's identifier. *)
Definition ballot : Type := text * Z * text.

Inductive nlabel : Type :=
| NStep (a : text) (l : label)    (* a step of a node that takes no message of another *)
| NVoteRequest (n : nat)          (* a RequestVote arrives *)
| NVoteResponse (n : nat)         (* its answer reaches the election that asked *)
| NVoteLost (n : nat)
| NAppend (n : nat)               (* an AppendEntries request arrives *)
| NAppendResponse (n : nat) (k : replicator_ref)   (* its answer reaches a replicator *)
| NAppendLost (n : nat)
| NRestart (a : text) (ws : list disk_write).   (* the node crashes, and is started again *)

Section network.
  Context {L Sb F R : Type} `{LogStore L} `{StableStore Sb} `{FSM F R}.

(** [ballots]: the votes given so far; [counted]: those that candidates have counted,
    as (candidate's address, term, voter's address). No code reads them. *)
Record network : Type := mkNet {
  procs : gmap text (proc L Sb F R);
  calls : list vote_call;
  appends : list append_call;
  ballots : list ballot;
  counted : list (text * Z * text)
}.

(** What a step of the node at [a] sends: the requests of a new election, with the
    candidate's vote for itself, or a replicator's request. *)
Definition new_calls (a : text) (p : proc L Sb F R) (l : label) : list vote_call :=
  match l, pc p, startElection (node p) with
  | LMain, Electing, Ret (_, req, addrs) => (fun b => mkVoteCall a b req None) <$> addrs
  | _, _, _ => []
  end.

Definition own_ballot (a : text) (p : proc L Sb F R) (l : label) : list ballot :=
  match l, pc p, startElection (node p) with
  | LMain, Electing, Ret (_, req, _) => [(a, rv_Term req, rv_CandidateID req)]
  | _, _, _ => []
  end.

Definition built (a : text) (p : proc L Sb F R) (peer : peerState) : list append_call :=
  match replicate_build (node p) peer with
  | Ret (Some req) => [mkAppendCall a (ps_addr peer) req None]
  | _ => []
  end.

Definition new_appends (a : text) (p : proc L Sb F R) (l : label) : list append_call :=
  match l with
  | LSend id => match peers (node p) !! id with Some peer => built a p peer | None => [] end
  | LStaleSend k => match stale p !! k with Some q => built a p (rp_peer q) | None => [] end
  | _ => []
  end.

(** The labels of a node that a message of another server stands behind. *)
Definition from_outside (l : label) : bool :=
  match l with
  | LVote _ | LCommand (CAppendEntries _) | LCommand (CRequestVote _)
  | LResponse _ _ | LStaleResponse _ _ => true
  | _ => false
  end.

Definition local_step (n : network) (a : text) (l : label) : option network :=
  p ← procs n !! a;
  if from_outside l then None
  else
    p' ← step p l;
    Some (mkNet (<[a := p']> (procs n)) (calls n ++ new_calls a p l)
      (appends n ++ new_appends a p l) (ballots n ++ own_ballot a p l) (counted n)).

(** The receiver handles the call: its answer, and the vote if it gave one. *)
Definition vote_request (n : network) (i : nat) : option network :=
  v ← calls n !! i;
  match vc_resp v with
  | Some _ => None
  | None =>
      p ← procs n !! vc_to v;
      p' ← step p (LCommand (CRequestVote (vc_req v)));
      match handleRPC (node p) (CRequestVote (vc_req v)) with
      | Ret (_, RRequestVote resp, _) =>
          Some (mkNet (<[vc_to v := p']> (procs n))
            (<[i := mkVoteCall (vc_from v) (vc_to v) (vc_req v) (Some resp)]> (calls n)) (appends n)
            (ballots n ++ (if rvr_VoteGranted resp
                           then [(vc_to v, rv_Term (vc_req v), rv_CandidateID (vc_req v))] else []))
            (counted n))
      | _ => None
      end
  end.

(** The answer goes to the channel of the election that made the call. *)
Definition vote_response (n : network) (i : nat) : option network :=
  v ← calls n !! i;
  resp ← vc_resp v;
  p ← procs n !! vc_from v;
  match pc p with
  | InCandidate t _ true =>
      if t =? rv_Term (vc_req v) then
        p' ← step p (LVote resp);
        Some (mkNet (<[vc_from v := p']> (procs n)) (delete i (calls n)) (appends n) (ballots n)
          (counted n ++ (if rvr_VoteGranted resp
                         then [(vc_from v, rv_Term (vc_req v), vc_to v)] else [])))
      else None
  | _ => None
  end.

Definition append_request (n : network) (i : nat) : option network :=
  v ← appends n !! i;
  match ac_resp v with
  | Some _ => None
  | None =>
      if bool_decide (ac_from v = ac_to v) then None
      else
        p ← procs n !! ac_to v;
        p' ← step p (LCommand (CAppendEntries (ac_req v)));
        match handleRPC (node p) (CAppendEntries (ac_req v)) with
        | Ret (_, RAppendEntries resp, _) =>
            Some (mkNet (<[ac_to v := p']> (procs n)) (calls n)
              (<[i := mkAppendCall (ac_from v) (ac_to v) (ac_req v) (Some resp)]> (appends n))
              (ballots n) (counted n))
        | _ => None
        end
  end.

(** The replicator sent this request to this address, and waits for the answer. *)
Definition waits (p : proc L Sb F R) (k : replicator_ref) (v : append_call) : bool :=
  match k with
  | Current id =>
      match peers (node p) !! id, inflight p !! id with
      | Some peer, Some req => bool_decide (ps_addr peer = ac_to v) && bool_decide (req = ac_req v)
      | _, _ => false
      end
  | Earlier k =>
      match stale p !! k with
      | Some (mkReplicator peer (Some req)) =>
          bool_decide (ps_addr peer = ac_to v) && bool_decide (req = ac_req v)
      | _ => false
      end
  end.

Definition append_response (n : network) (i : nat) (k : replicator_ref) : option network :=
  v ← appends n !! i;
  resp ← ac_resp v;
  p ← procs n !! ac_from v;
  if waits p k v then
    p' ← step p (answer_label k resp);
    Some (mkNet (<[ac_from v := p']> (procs n)) (calls n) (delete i (appends n)) (ballots n) (counted n))
  else None.

Definition restart_at (n : network) (a : text) (ws : list disk_write) : option network :=
  p ← procs n !! a;
  p' ← restart p ws;
  Some (mkNet (<[a := p']> (procs n)) (calls n) (appends n) (ballots n) (counted n)).

Definition nstep (n : network) (l : nlabel) : option network :=
  match l with
  | NStep a l => local_step n a l
  | NVoteRequest i => vote_request n i
  | NVoteResponse i => vote_response n i
  | NVoteLost i =>
      Some (mkNet (procs n) (delete i (calls n)) (appends n) (ballots n) (counted n))
  | NAppend i => append_request n i
  | NAppendResponse i k => append_response n i k
  | NAppendLost i =>
      Some (mkNet (procs n) (calls n) (delete i (appends n)) (ballots n) (counted n))
  | NRestart a ws => restart_at n a ws
  end.

Fixpoint nsteps (n : network) (ls : list nlabel) : option network :=
  match ls with
  | [] => Some n
  | l :: ls' => match nstep n l with Some n' => nsteps n' ls' | None => None end
  end.

Definition boot (nodes : gmap text (RaftNode L Sb F R)) : network :=
  mkNet (start <$> nodes) [] [] [] [].

End network.
Arguments network : clear implicits.
