(* ===== verification/ElectionSafety.v ===== *)
(** Election safety: at most one leader per term in a cluster ([startElection],
    [handleRequestVote], [handleAppendEntries], [runCandidate] of [internal/raft]), also
    when servers crash and are started again.
    The votes of a term are split between two candidates only after a leader of that
    term exists, and the servers that elected that leader do not take part in it. *)
From S2P Require Import Prelude Stores Future Config Node Election Replication Rpc Leader Machine.
From S2P Require Import Restart Network.

(** * One node: its term and its vote *)

Section node.
  Context {L Sb F R : Type} `{LogStore L} `{StableStoreSpec Sb} `{FSM F R}.
  Implicit Types r : RaftNode L Sb F R.
  Implicit Types p : proc L Sb F R.

Definition id_of p : text := ServerID (config (node p)).
Definition term p : Z := currentTerm (node p).
Definition vote p : text := votedFor (node p).

(** The term, the vote and the configuration. *)
Definition paper p := (term p, vote p, config (node p)).

Lemma role_paper p p' : role (node p') = role (node p) -> paper p' = paper p.
Proof. unfold paper, term, vote. by intros (_&->&->&->)%role_proj. Qed.

(** Where the main goroutine can handle an RPC, a node that is not a follower has
    voted for itself. *)
Record vote_inv p : Prop := mk_vote_inv {
  vi_leader : state (node p) = Leader -> vote p = id_of p;
  vi_pc : match pc p with
          | InFollower true => state (node p) = Follower
          | InCandidate _ _ true | Elected _ => vote p = id_of p
          | InCandidate _ _ false => state (node p) = Candidate -> vote p = id_of p
          | LeaderInit | LeaderNoOp | InLeader _ => state (node p) <> Candidate
          | _ => True
          end
}.

Lemma vote_inv_start r : state r = Follower -> vote_inv (start r).
Proof. intros Hr. split; cbn; [congruence|done]. Qed.

(** What a step does to them: a newer term; or, in the same term, nothing, or a vote
    where there was none, or the loss of the vote for itself to a leader of the term. *)
Inductive evolves p (l : label) p' : Prop :=
| ev_newer : term p < term p' -> config (node p') = config (node p) -> evolves p l p'
| ev_same : paper p' = paper p -> evolves p l p'
| ev_grant req : l = LCommand (CRequestVote req) -> rv_Term req = term p -> vote p = [] ->
    term p' = term p -> vote p' = rv_CandidateID req -> config (node p') = config (node p) ->
    evolves p l p'
| ev_clear req : l = LCommand (CAppendEntries req) -> ae_Term req = term p -> vote p = id_of p ->
    term p' = term p -> config (node p') = config (node p) -> evolves p l p'.

Lemma paper_node p p' r : node p' = r -> role r = role (node p) -> paper p' = paper p.
Proof. intros <-. apply role_paper. Qed.

(** The main goroutine by itself; the term does not overflow. *)
Definition in_range p : Prop := 0 <= term p < max_uint.

Lemma main_evolves p p' : in_range p -> main_step p = Some p' -> evolves p LMain p'.
Proof.
  intros Hr Hs. unfold main_step in Hs. destruct (pc p) as [|[]| |t v []|t| | |[]|].
  - destruct (shutdownCh (node p)); [injection Hs as <-; by apply ev_same|].
    destruct (state (node p)); injection Hs as <-; by apply ev_same.
  - destruct (shutdownCh (node p)); [|done]. injection Hs as <-. by apply ev_same.
  - injection Hs as <-. by apply ev_same.
  - apply try_some in Hs as ([[r' req] addrs]&He&Hs). cbn [fst] in Hs.
    apply startElection_role in He as [(_&Et&_&Ec)%role_proj _].
    rewrite uwrap64_small in Et by (unfold in_range, term in *; lia).
    destruct (quorum r' <=? 1); injection Hs as <-; apply ev_newer; try exact Ec;
      unfold term; cbn; lia.
  - destruct (shutdownCh (node p)); [|done]. injection Hs as <-. by apply ev_same.
  - injection Hs as <-. by apply ev_same.
  - injection Hs as <-. apply ev_same. unfold paper, term, vote.
    pose proof (becomeLeader_role (node p)) as (_&E1&E2&E3)%role_proj. cbn [node goto]. congruence.
  - injection Hs as <-. by apply ev_same.
  - apply try_some in Hs as (r'&Hr'%appendNoOp_role&[= <-]). apply ev_same. by eapply paper_node.
  - destruct (shutdownCh (node p)); [|done]. injection Hs as <-. apply ev_same.
    eapply paper_node; [done|apply fail_all_role].
  - case_bool_decide; injection Hs as <-; apply ev_same; [done|].
    eapply paper_node; [done|apply fail_all_role].
  - done.
Qed.

(** An RPC, up to what happens to the futures after it. *)
Lemma command_node p cmd p' :
  command_step p cmd = Some p' ->
  exists r' resp b, handleRPC (node p) cmd = Ret (r', resp, b) /\ role (node p') = role r' /\
    won p' = won p /\
    ((pc p = InFollower true /\ pc p' = InFollower false) \/
     (exists t v, pc p = InCandidate t v true /\
        ((b = true /\ state r' <> Candidate /\ pc p' = AtRun) \/
         ((b = false \/ state r' = Candidate) /\ pc p' = InCandidate t v false))) \/
     (pc p = InLeader true /\
        ((state r' <> Leader /\ pc p' = AtRun) \/ (state r' = Leader /\ pc p' = InLeader false)))).
Proof.
  unfold command_step. intros Hs. destruct (pc p) as [|[]| |t v []|t| | |[]|]; try done;
    apply try_some in Hs as ([[r' resp] b]&Hh&Hs); cbn [fst snd] in Hs; exists r', resp, b.
  - injection Hs as <-. split_and!; try done. by left.
  - split; [done|]. destruct b; cbn [andb] in Hs.
    + destruct (bool_decide_reflect (state r' = Candidate)); injection Hs as <-;
        split_and!; try done; right; left; exists t, v; split; try done; [right|left]; auto.
    + injection Hs as <-. split_and!; try done. right. left. exists t, v. auto.
  - split; [done|]. destruct (bool_decide_reflect (state r' = Leader)); injection Hs as <-.
    + split_and!; try done. right. right. auto.
    + split_and!; [apply fail_all_role|done|]. right. right. auto.
Qed.

(** A node that handles RPCs and is not a follower has voted for itself. *)
Lemma not_follower_own_vote p cmd p' :
  vote_inv p -> command_step p cmd = Some p' -> state (node p) <> Follower -> vote p = id_of p.
Proof.
  intros [V1 V2] Hs Hf. unfold command_step in Hs.
  destruct (pc p) as [|[]| |t v []|t| | |[]|]; try done.
  destruct (state (node p)); try done. by apply V1.
Qed.

Lemma command_evolves p cmd p' :
  vote_inv p -> command_step p cmd = Some p' -> evolves p (LCommand cmd) p'.
Proof.
  intros Hv Hs. pose proof (command_node p cmd p' Hs) as (r'&resp&b&Hh&Hr&_).
  destruct cmd as [req|req|].
  - apply handleRPC_append_role in Hh. rewrite <-Hr in Hh.
    destruct (Z.ltb_spec (ae_Term req) (currentTerm (node p))) as [Hlt|Hge].
    { apply ev_same. by apply role_paper. }
    apply role_proj in Hh as (Es&Et&Ev&Ec).
    destruct (Z.ltb_spec (currentTerm (node p)) (ae_Term req)) as [Hlt|Hle].
    { apply ev_newer; [unfold term; lia|done]. }
    assert (currentTerm (node p) = ae_Term req) as Ht by lia. cbn [orb] in Ev.
    destruct (bool_decide_reflect (state (node p) = Follower)) as [Hf|Hf]; cbn in Ev.
    + apply ev_same. unfold paper, term, vote. congruence.
    + apply (ev_clear _ _ _ req); [done|done|by eapply not_follower_own_vote|unfold term; lia|done].
  - apply handleRPC_vote_role in Hh as [_ Hh]. rewrite <-Hr in Hh. unfold at_term in Hh.
    destruct (Z.ltb_spec (currentTerm (node p)) (rv_Term req)) as [Hlt|Hge].
    { apply ev_newer; [|by destruct (vote_ok _ _); apply role_proj in Hh as (_&_&_&Ec)].
      destruct (vote_ok (node p) req); apply role_proj in Hh as (_&Et&_); unfold term; cbn in *; lia. }
    destruct (vote_ok (node p) req) eqn:Hok; [|apply ev_same; by apply role_paper].
    apply role_proj in Hh as (_&Et&Ev&Ec). cbn in Et, Ev, Ec.
    unfold vote_ok in Hok. apply andb_prop in Hok as [Hok _]. apply andb_prop in Hok as [Hle Hok].
    apply Z.leb_le in Hle. destruct (Z.ltb_spec (currentTerm (node p)) (rv_Term req)); [lia|].
    apply orb_prop in Hok as [Hok|Hok].
    + cbn in Hok. apply bool_decide_eq_true in Hok. apply (ev_grant _ _ _ req); try done.
      all: unfold term; lia.
    + apply bool_decide_eq_true in Hok. apply ev_same. unfold paper, term, vote. congruence.
  - simpl in Hh. injection Hh as <- _ _. apply ev_same. by apply role_paper.
Qed.

Lemma vote_step_evolves p resp p' : vote_step p resp = Some p' -> evolves p (LVote resp) p'.
Proof.
  unfold vote_step. intros Hs. destruct (pc p) as [|[]| |t v []|t| | |[]|]; try done.
  destruct (Z.ltb_spec (currentTerm (node p)) (rvr_Term resp)).
  { apply try_some in Hs as (r'&(_&Et&_&Ec)%stepDown_role%role_proj&[= <-]).
    apply ev_newer; [unfold term; cbn; lia|done]. }
  destruct (rvr_VoteGranted resp); [|injection Hs as <-; by apply ev_same].
  destruct (quorum (node p) <=? v + 1); injection Hs as <-; by apply ev_same.
Qed.

Lemma background_evolves p l p' : background l = true -> step p l = Some p' -> evolves p l p'.
Proof.
  intros Hb Hs. destruct (background_drift p l p' Hb Hs) as (_&_&[Hrole|t _ Hlt Hrole|Hrole]).
  - apply ev_same. by apply role_paper.
  - apply role_proj in Hrole as (_&Et&_&Ec). apply ev_newer; [unfold term; lia|done].
  - apply role_proj in Hrole as (_&Et&Ev&Ec). apply ev_same. unfold paper, term, vote. congruence.
Qed.

Lemma step_evolves p l p' : vote_inv p -> in_range p -> step p l = Some p' -> evolves p l p'.
Proof.
  intros Hv Hr Hs. destruct (background l) eqn:Hb; [by apply background_evolves|].
  destruct l as [|cmd| |resp| |id|id resp|id|k|k resp| | |data c|f|f|]; try done; simpl in Hs.
  - by apply main_evolves.
  - by apply command_evolves.
  - unfold timer_step in Hs. destruct (pc p) as [|[]| |t v []|t| | |[]|]; try done;
      injection Hs as <-; by apply ev_same.
  - by apply vote_step_evolves.
  - apply request_step_role in Hs as (_&_&_&Hrole). apply ev_same. by apply role_paper.
Qed.

Lemma main_vote p p' : vote_inv p -> main_step p = Some p' -> vote_inv p'.
Proof.
  intros Hv Hs. pose proof Hv as [V1 V2]. unfold main_step in Hs.
  destruct (pc p) as [|[]| |t v []|t| | |[]|]; cbn in V2.
  - destruct (shutdownCh (node p)); [injection Hs as <-; by split|].
    destruct (state (node p)) eqn:Es; injection Hs as <-; (split; cbn; rewrite ?Es; [exact V1|done]).

  - destruct (shutdownCh (node p)); [|done]. injection Hs as <-. by split.
  - injection Hs as <-. split; [done|]. cbn. by case_bool_decide.
  - apply try_some in Hs as ([[r' req] addrs]&He&Hs). cbn [fst] in Hs.
    apply startElection_role in He as [(Es&_&Ev&Ec)%role_proj _].
    assert (votedFor r' = ServerID (config r')) as Hown by congruence.
    destruct (quorum r' <=? 1); injection Hs as <-; (split; [intros _; exact Hown|]; first [exact Hown|intros _; exact Hown]).
  - destruct (shutdownCh (node p)); [|done]. injection Hs as <-. by split.
  - injection Hs as <-. split; [done|]. cbn. case_bool_decide; [by apply V2|done].
  - injection Hs as <-. pose proof (becomeLeader_role (node p)) as (E0&E1&E2&E3)%role_proj.
    split; [|done]. intros _. unfold vote, id_of in *. cbn [node goto]. congruence.
  - injection Hs as <-. by split.
  - apply try_some in Hs as (r'&(Es&_&Ev&Ec)%appendNoOp_role%role_proj&[= <-]).
    split; unfold vote, id_of in *; cbn; [intros; rewrite Ev, Ec; apply V1|]; congruence.
  - destruct (shutdownCh (node p)); [|done]. injection Hs as <-.
    pose proof (fail_all_role (node p) ErrLeaderLost) as (Es&_&Ev&Ec)%role_proj.
    split; [|done]. unfold vote, id_of in *. cbn [node goto]. unfold failPendingFutures. rewrite Es, Ev, Ec. exact V1.
  - case_bool_decide; injection Hs as <-; [by split|].
    pose proof (fail_all_role (node p) ErrLeaderLost) as (Es&_&Ev&Ec)%role_proj.
    split; [|done]. unfold vote, id_of in *. cbn [node goto]. unfold failPendingFutures. rewrite Es, Ev, Ec. exact V1.
  - done.
Qed.

(** An RPC that leaves the node something else than a follower leaves its vote. *)
Lemma handleRPC_keeps r cmd r' resp b :
  handleRPC r cmd = Ret (r', resp, b) ->
  config r' = config r /\
  (state r' = Follower \/
   (state r' = state r /\ (votedFor r <> [] -> votedFor r' = votedFor r))).
Proof.
  destruct cmd as [req|req|].
  - intros Hr%handleRPC_append_role. destruct (_ <? _); apply role_proj in Hr as (?&_&?&?); auto.
  - intros [_ Hr]%handleRPC_vote_role. apply role_proj in Hr as (Es&_&Ev&Ec).
    unfold at_term in *. destruct (Z.ltb_spec (currentTerm r) (rv_Term req)) as [Hlt|Hge].
    + split; [|left]; by destruct (vote_ok r req).
    + destruct (vote_ok r req) eqn:Hok; [|auto]. split; [done|]. right. split; [done|].
      intros Hne. rewrite Ev. cbn. unfold vote_ok in Hok. apply andb_prop in Hok as [Hok _].
      apply andb_prop in Hok as [_ Hok]. destruct (Z.ltb_spec (currentTerm r) (rv_Term req)); [lia|].
      cbn in Hok. apply orb_prop in Hok as [Hok|Hok]; by apply bool_decide_eq_true in Hok.
  - simpl. intros Hx. injection Hx as <- _ _. auto.
Qed.

Lemma command_vote p cmd p' :
  id_of p <> [] -> vote_inv p -> command_step p cmd = Some p' -> vote_inv p'.
Proof.
  intros Hid [V1 V2] Hs. apply command_node in Hs as (r'&resp&b&Hh&(Es&_&Ev&Ec)%role_proj&_&Hpc).
  apply handleRPC_keeps in Hh as [Hc Hk].
  assert (Hown : vote p = id_of p -> state r' <> Follower -> vote p' = id_of p').
  { intros Hv Hf. destruct Hk as [Hk|[_ Hk]]; [done|]. unfold vote, id_of in *.
    rewrite Ev, Ec, Hc, Hk by congruence. congruence. }
  assert (Hst : state r' <> Follower -> state r' = state (node p)) by (intros; by destruct Hk as [|[? _]]).
  split.
  - intros Hl. rewrite Es in Hl. apply Hown; [|congruence]. apply V1. rewrite <-Hst; congruence.
  - destruct Hpc as [[_ ->]|[(t&v&Hp&[(_&_&->)|(_&->)])|(Hp&[(_&->)|(Hl&->)])]]; try done.
    + rewrite Es. intros Hcan. rewrite Hp in V2. apply Hown; congruence.
    + rewrite Es. congruence.
Qed.

Lemma vote_inv_role p p' :
  vote_inv p -> pc p' = pc p -> role (node p') = role (node p) -> vote_inv p'.
Proof.
  intros [V1 V2] Hpc (Es&Et&Ev&Ec)%role_proj. unfold vote, id_of in *.
  split; unfold vote, id_of; [|rewrite Hpc]; rewrite Es, Ev, Ec; done.
Qed.

Lemma background_vote p l p' :
  vote_inv p -> polite p l -> background l = true -> step p l = Some p' -> vote_inv p'.
Proof.
  intros Hv Hp Hb Hs. destruct (background_drift p l p' Hb Hs) as (Hpc&_&[Hrole|t Hn Hlt Hrole|Hrole]).
  - by eapply vote_inv_role.
  - pose proof (polite_newer p l t Hp Hn) as Hpol. apply role_proj in Hrole as (Es&_).
    destruct Hv as [_ V2]. split; [congruence|]. rewrite Hpc, Es.
    destruct (pc p) as [|[]| |t' v []|t'| | |[]|]; done || lia.
  - apply role_proj in Hrole as (Es&_&Ev&Ec). destruct Hv as [_ V2]. split; [congruence|].
    unfold vote, id_of in *. rewrite Hpc, Es, Ev, Ec.
    destruct (pc p) as [|[]| |t' v []|t'| | |[]|]; done.
Qed.

Lemma step_vote p l p' :
  id_of p <> [] -> vote_inv p -> polite p l -> step p l = Some p' -> vote_inv p'.
Proof.
  intros Hid Hv Hp Hs. destruct (background l) eqn:Hb; [by eapply background_vote|].
  pose proof Hv as [V1 V2].
  destruct l as [|cmd| |resp| |id|id resp|id|k|k resp| | |data c|f|f|]; try done; simpl in Hs.
  - by eapply main_vote.
  - by eapply command_vote.
  - unfold timer_step in Hs. destruct (pc p) as [|[]| |t v []|t| | |[]|]; try done;
      injection Hs as <-; by split.
  - unfold vote_step in Hs. destruct (pc p) as [|[]| |t v []|t| | |[]|] eqn:Hpc; try done.
    destruct (currentTerm (node p) <? rvr_Term resp).
    { apply try_some in Hs as (r'&(Es&_)%stepDown_role%role_proj&[= <-]). split; [|done].
      cbn. congruence. }
    destruct (rvr_VoteGranted resp); [|injection Hs as <-; (split; [exact V1|intros _; exact V2])].
    destruct (quorum (node p) <=? v + 1); injection Hs as <-; (split; [exact V1|]; first [exact V2|intros _; exact V2]).
  - apply request_step_role in Hs as (Hpc&Hpc'&_&Hrole). rewrite Hpc in V2.
    apply role_proj in Hrole as (Es&_&Ev&Ec). split; unfold vote, id_of in *; [|rewrite Hpc'];
      rewrite Es, ?Ev, ?Ec; done.
Qed.

End node.

(** * Polls: majorities of votes

    What the votes of a cluster with the servers [P] look like: the view of a server
    is its identifier, its term, its vote and the terms it has won. *)
Record pview : Type := mkView {
  pv_id : text;
  pv_term : Z;
  pv_vote : text;
  pv_won : list Z
}.

(** Two majorities of a list have a member in common. *)
Lemma majorities_meet {A} `{EqDecision A} (l q1 q2 : list A) :
  NoDup q1 -> NoDup q2 -> q1 ⊆ l -> q2 ⊆ l ->
  zlen l / 2 + 1 <= zlen q1 -> zlen l / 2 + 1 <= zlen q2 -> exists x, x ∈ q1 /\ x ∈ q2.
Proof.
  intros N1 N2 S1 S2 M1 M2. destruct (decide (Exists (fun x => x ∈ q2) q1)) as [He|He].
  { by apply Exists_exists in He. }
  exfalso. assert (Hnd : NoDup (q1 ++ q2)).
  { apply NoDup_app. split_and!; try done. intros x H1 H2. apply He, Exists_exists. eauto. }
  assert (Hs : (length (q1 ++ q2) <= length l)%nat).
  { apply submseteq_length, NoDup_submseteq; [done|].
    intros x [Hx|Hx]%elem_of_app; [by apply S1|by apply S2]. }
  rewrite length_app in Hs. unfold zlen in *. pose proof (Z.div_mod (Z.of_nat (length l)) 2).
  pose proof (Z.mod_pos_bound (Z.of_nat (length l)) 2). lia.
Qed.

Section polls.
  Context (P : list PeerConfig).
  Context (ids_distinct : NoDup (PeerID <$> P)).
  Implicit Types V : gmap text pview.
  Implicit Types B : list ballot.

Definition addrs : list text := Address <$> P.

Definition winner V (T : Z) (a : text) : Prop := exists w, V !! a = Some w /\ T ∈ pv_won w.

(** A majority whose votes in the term [T] are for [N] alone. *)
Definition elected V B (T : Z) (N : text) : Prop :=
  exists Q, NoDup Q /\ Q ⊆ addrs /\ zlen P / 2 + 1 <= zlen Q /\
    forall v, v ∈ Q -> (v, T, N) ∈ B /\ (forall c, (v, T, c) ∈ B -> c = N) /\
      (forall w, V !! v = Some w -> pv_term w = T -> pv_vote w = N).

Record poll_ok V B : Prop := mk_poll_ok {
  po_member : forall a w, V !! a = Some w ->
    exists q, q ∈ P /\ PeerID q = pv_id w /\ Address q = a;
  po_old : forall v T c, (v, T, c) ∈ B -> c <> [] /\ exists w, V !! v = Some w /\ T <= pv_term w;
  po_undecided : forall T, (forall a, ~ winner V T a) -> forall v c, (v, T, c) ∈ B ->
    (forall c', (v, T, c') ∈ B -> c' = c) /\
    (forall w, V !! v = Some w -> pv_term w = T -> pv_vote w = c);
  po_decided : forall T a w, V !! a = Some w -> T ∈ pv_won w -> elected V B T (pv_id w)
}.

Lemma id_inj V B a b w w' :
  poll_ok V B -> V !! a = Some w -> V !! b = Some w' -> pv_id w = pv_id w' -> a = b.
Proof.
  intros Hp Ha Hb Hid. destruct (po_member _ _ Hp a w Ha) as (q&Hq&Eq&<-).
  destruct (po_member _ _ Hp b w' Hb) as (q'&Hq'&Eq'&<-). f_equal.
  apply list_elem_of_lookup in Hq as [i Hi]. apply list_elem_of_lookup in Hq' as [j Hj].
  assert (i = j) as ->.
  { apply (NoDup_lookup _ _ _ (PeerID q) ids_distinct); rewrite list_lookup_fmap.
    - by rewrite Hi.
    - rewrite Hj. cbn. by f_equal; congruence. }
  congruence.
Qed.

Lemma elected_unique V B T N N' : elected V B T N -> elected V B T N' -> N = N'.
Proof.
  intros (Q&D1&S1&M1&H1)(Q'&D2&S2&M2&H2).
  assert (zlen addrs = zlen P) as E by (unfold addrs, zlen; by rewrite length_fmap).
  destruct (majorities_meet addrs Q Q') as (x&Hx&Hx'); try done; [by rewrite E..|].
  destruct (H1 x Hx) as (Hb&_). destruct (H2 x Hx') as (_&Hu&_). by apply Hu.
Qed.

(** At most one server wins a term. *)
Lemma winner_unique V B T a b : poll_ok V B -> winner V T a -> winner V T b -> a = b.
Proof.
  intros Hp (w&Ha&Hw)(w'&Hb&Hw'). apply (id_inj V B a b w w' Hp Ha Hb).
  apply (elected_unique V B T); by eapply po_decided.
Qed.

(** A server moves on: its term does not go down; in the same term it keeps its vote,
    or gets one, or loses the one for itself when another server has won the term; and
    the new votes [B'] are its own, for its vote now, and the only ones of its term. *)
Record moves V B (a : text) (w w' : pview) B' : Prop := mk_moves {
  mv_id : pv_id w' = pv_id w;
  mv_won : pv_won w' = pv_won w;
  mv_term : pv_term w <= pv_term w';
  mv_vote : pv_term w' = pv_term w -> pv_vote w' = pv_vote w \/ pv_vote w = [] \/
    (pv_vote w = pv_id w /\ exists b, b <> a /\ winner V (pv_term w) b);
  mv_new : forall v T c, (v, T, c) ∈ B' -> v = a /\ T = pv_term w' /\ c = pv_vote w' /\ c <> [] /\
    (pv_term w < T \/ pv_vote w = [] \/ pv_vote w = c)
}.

Lemma winner_move V a w w' T b :
  V !! a = Some w -> pv_won w' = pv_won w -> winner (<[a := w']> V) T b <-> winner V T b.
Proof.
  intros Ha Hw. unfold winner. destruct (decide (b = a)) as [->|Hne].
  - rewrite lookup_insert_eq, Ha. split; intros (x&[= <-]&Hx); eexists; (split; [done|]); congruence.
  - by rewrite lookup_insert_ne.
Qed.

(** The votes of the mover in a term, when its vote in that term was for [N]. *)
Lemma moves_keep V B a w w' B' T N :
  poll_ok V B -> V !! a = Some w -> moves V B a w w' B' -> (a, T, N) ∈ B ->
  (pv_term w = T -> pv_vote w = N) -> (forall c, (a, T, c) ∈ B -> c = N) ->
  (forall b, winner V T b -> N = pv_id w -> b = a) ->
  (forall c, (a, T, c) ∈ B ++ B' -> c = N) /\ (pv_term w' = T -> pv_vote w' = N).
Proof.
  intros Hp Ha [M1 M2 M3 M4 M5] Hb Hv Hu Hwin.
  destruct (po_old _ _ Hp _ _ _ Hb) as (HN&w0&Hw0&Hle).
  assert (w0 = w) as -> by congruence. split.
  - intros c [Hc|Hc]%elem_of_app; [by apply Hu|].
    destruct (M5 _ _ _ Hc) as (_&HT&_&_&Hd). assert (pv_term w = T \/ pv_term w < T) as [E|E] by lia.
    + rewrite (Hv E) in Hd. destruct Hd as [Hd|[Hd|Hd]]; [lia|done|done].
    + lia.
  - intros E. assert (pv_term w = T) as Et by lia. specialize (Hv Et).
    destruct M4 as [Hk|[Hk|(Hk&b&Hne&Hb')]]; [lia|congruence|congruence|].
    exfalso. rewrite Et in Hb'. apply Hne, Hwin; [done|congruence].
Qed.

Lemma voted_or_not B v T : (exists d, (v, T, d) ∈ B) \/ ~ (exists d, (v, T, d) ∈ B).
Proof.
  destruct (decide (Exists (fun b => fst b = (v, T)) B)) as [He|He]; [left|right].
  - apply Exists_exists in He as ([x d]&Hd&Hx). cbn in Hx. subst x. eauto.
  - intros [d Hd]. apply He, Exists_exists. eauto.
Qed.

Lemma poll_step V B a w w' B' :
  poll_ok V B -> V !! a = Some w -> moves V B a w w' B' -> poll_ok (<[a := w']> V) (B ++ B').
Proof.
  intros Hp Ha Hm. pose proof Hm as [M1 M2 M3 M4 M5]. split.
  - intros b x Hb. destruct (decide (b = a)) as [->|Hne].
    + rewrite lookup_insert_eq in Hb. injection Hb as <-. rewrite M1. by eapply po_member.
    + rewrite lookup_insert_ne in Hb by done. by eapply po_member.
  - intros v T c [Hc|Hc]%elem_of_app.
    + destruct (po_old _ _ Hp _ _ _ Hc) as (Hn&x&Hx&Hle). split; [done|].
      destruct (decide (v = a)) as [->|Hne].
      * rewrite lookup_insert_eq. exists w'. assert (x = w) as -> by congruence. split; [done|lia].
      * rewrite lookup_insert_ne by done. eauto.
    + destruct (M5 _ _ _ Hc) as (->&->&_&Hn&_). split; [done|]. exists w'.
      by rewrite lookup_insert_eq.
  - intros T Hu. assert (Hu' : forall b, ~ winner V T b).
    { intros b Hb. apply (Hu b). by apply (winner_move V a w). }
    intros v c Hc.
    assert (Hnew : forall d, (v, T, d) ∈ B' -> v = a /\ T = pv_term w' /\ d = pv_vote w').
    { intros d Hd. by destruct (M5 _ _ _ Hd) as (?&?&?&_). }
    destruct (voted_or_not B v T) as [[d Hd]|Hno].
    { destruct (po_undecided _ _ Hp T Hu' v d Hd) as [U1 U2].
      destruct (decide (v = a)) as [->|Hne].
      - destruct (moves_keep V B a w w' B' T d) as [K1 K2]; try done; [by apply U2|by intros b Hb; destruct (Hu' b)|].
        rewrite (K1 c Hc). split; [done|]. intros x Hx. rewrite lookup_insert_eq in Hx.
        injection Hx as <-. exact K2.
      - apply elem_of_app in Hc as [Hc|Hc]; [|by destruct (Hnew _ Hc)].
        rewrite (U1 c Hc). split.
        + intros c' [Hc'|Hc']%elem_of_app; [by apply U1|by destruct (Hnew _ Hc')].
        + intros x Hx. rewrite lookup_insert_ne in Hx by done. by apply U2. }
    apply elem_of_app in Hc as [Hc|Hc]; [destruct Hno; eauto|].
    destruct (Hnew _ Hc) as (->&->&->). split.
    + intros c' [Hc'|Hc']%elem_of_app; [destruct Hno; eauto|by destruct (Hnew _ Hc') as (_&_&->)].
    + intros x Hx _. rewrite lookup_insert_eq in Hx. by injection Hx as <-.
  - intros T b x Hb HT.
    assert (exists x0, V !! b = Some x0 /\ T ∈ pv_won x0 /\ pv_id x0 = pv_id x) as (x0&Hb0&HT0&<-).
    { destruct (decide (b = a)) as [->|Hne].
      - rewrite lookup_insert_eq in Hb. injection Hb as <-. exists w. rewrite M1, <-M2. done.
      - rewrite lookup_insert_ne in Hb by done. eauto. }
    destruct (po_decided _ _ Hp T b x0 Hb0 HT0) as (Q&Q1&Q2&Q3&Q4). exists Q. split_and!; [done..|].
    intros v Hv. destruct (Q4 v Hv) as (B1&B2&B3). split; [apply elem_of_app; by left|].
    destruct (decide (v = a)) as [->|Hne].
    + destruct (moves_keep V B a w w' B' T (pv_id x0)) as [K1 K2]; try done; [by apply B3| |].
      * intros b' Hb' Hid. apply (winner_unique V B T b' a Hp Hb').
        assert (b = a) as -> by (by apply (id_inj V B b a x0 w)). by exists x0.
      * split; [done|]. intros y Hy. rewrite lookup_insert_eq in Hy. by injection Hy as <-.
    + split.
      * intros c [Hc|Hc]%elem_of_app; [by apply B2|]. by destruct (M5 _ _ _ Hc) as (->&_).
      * intros y Hy. rewrite lookup_insert_ne in Hy by done. by apply B3.
Qed.

Lemma winner_or_not V T : (exists b, winner V T b) \/ (forall b, ~ winner V T b).
Proof.
  destruct (decide (map_Exists (fun _ w => T ∈ pv_won w) V)) as [He|He]; [left|right].
  - destruct He as (b&w&Hb&Hw). by exists b, w.
  - intros b (w&Hb&Hw). apply He. by exists b, w.
Qed.

(** A majority for [N] is a majority for [N] alone. *)
Lemma majority_elected V B T a w Q :
  poll_ok V B -> V !! a = Some w -> NoDup Q -> Q ⊆ addrs -> zlen P / 2 + 1 <= zlen Q ->
  (forall v, v ∈ Q -> (v, T, pv_id w) ∈ B) -> elected V B T (pv_id w).
Proof.
  intros Hp Ha Q1 Q2 Q3 Q4. destruct (winner_or_not V T) as [(b&x&Hb&Hx)|Hno].
  - destruct (po_decided _ _ Hp T b x Hb Hx) as (Q'&D1&D2&D3&D4).
    assert (zlen addrs = zlen P) as E by (unfold addrs, zlen; by rewrite length_fmap).
    destruct (majorities_meet addrs Q Q') as (v&Hv&Hv'); try done; [by rewrite E..|].
    destruct (D4 v Hv') as (_&Hu&_). rewrite (Hu _ (Q4 v Hv)). by exists Q'.
  - exists Q. split_and!; try done. intros v Hv.
    destruct (po_undecided _ _ Hp T Hno v (pv_id w) (Q4 v Hv)) as [U1 U2]. auto.
Qed.

Lemma poll_win V B a w T Q :
  poll_ok V B -> V !! a = Some w -> NoDup Q -> Q ⊆ addrs -> zlen P / 2 + 1 <= zlen Q ->
  (forall v, v ∈ Q -> (v, T, pv_id w) ∈ B) ->
  poll_ok (<[a := mkView (pv_id w) (pv_term w) (pv_vote w) (T :: pv_won w)]> V) B.
Proof.
  intros Hp Ha Q1 Q2 Q3 Q4. set (w' := mkView _ _ _ _).
  pose proof (majority_elected V B T a w Q Hp Ha Q1 Q2 Q3 Q4) as Hel.
  assert (Hget : forall b x, <[a := w']> V !! b = Some x -> exists x0, V !! b = Some x0 /\
    pv_id x = pv_id x0 /\ pv_term x = pv_term x0 /\ pv_vote x = pv_vote x0 /\
    (pv_won x = pv_won x0 \/ (b = a /\ pv_won x = T :: pv_won x0))).
  { intros b x Hb. destruct (decide (b = a)) as [->|Hne].
    - rewrite lookup_insert_eq in Hb. injection Hb as <-. exists w. split_and!; auto.
    - rewrite lookup_insert_ne in Hb by done. exists x. split_and!; auto. }
  assert (Hex : forall U N, elected V B U N -> elected (<[a := w']> V) B U N).
  { intros U N (Q'&D1&D2&D3&D4). exists Q'. split_and!; try done. intros v Hv.
    destruct (D4 v Hv) as (B1&B2&B3). split_and!; try done.
    intros x (x0&Hx0&_&Et&Ev&_)%Hget Ht. rewrite Ev. apply B3; congruence. }
  split.
  - intros b x (x0&Hx0&->&_)%Hget. by eapply po_member.
  - intros v U c Hc. destruct (po_old _ _ Hp _ _ _ Hc) as (Hn&x&Hx&Hle). split; [done|].
    destruct (decide (v = a)) as [->|Hne].
    + exists w'. rewrite lookup_insert_eq. assert (x = w) as -> by congruence. done.
    + rewrite lookup_insert_ne by done. eauto.
  - intros U Hu v c Hc. assert (Hu' : forall b, ~ winner V U b).
    { intros b (x&Hb&Hx). apply (Hu b). destruct (decide (b = a)) as [->|Hne].
      - exists w'. rewrite lookup_insert_eq. assert (x = w) as -> by congruence.
        split; [done|]. by right.
      - exists x. by rewrite lookup_insert_ne. }
    destruct (po_undecided _ _ Hp U Hu' v c Hc) as [U1 U2]. split; [done|].
    intros x (x0&Hx0&_&Et&Ev&_)%Hget Ht. rewrite Ev. apply U2; congruence.
  - intros U b x Hb HU. apply Hget in Hb as (x0&Hx0&->&_&_&[Hw|[-> Hw]]); rewrite Hw in HU.
    + apply Hex. by eapply po_decided.
    + assert (x0 = w) as -> by congruence. apply elem_of_cons in HU as [->|HU]; [by apply Hex|].
      apply Hex. by eapply po_decided.
Qed.

End polls.

(** * The cluster *)

Section cluster.
  Context {L Sb F R : Type} `{LogStore L} `{StableStoreSpec Sb} `{FSM F R}.
  Context (P : list PeerConfig).
  Context (ids_distinct : NoDup (PeerID <$> P)).
  Context (addrs_distinct : NoDup (Address <$> P)).
  Implicit Types p : proc L Sb F R.
  Implicit Types n : network L Sb F R.

Definition view_of p : pview := mkView (id_of p) (term p) (vote p) (won p).
Definition views n : gmap text pview := view_of <$> procs n.
Definition call_key (c : vote_call) : text * Z * text := (vc_from c, rv_Term (vc_req c), vc_to c).

(** A call comes from an election of its sender; a granted answer is a vote. *)
Record call_ok n (c : vote_call) : Prop := mk_call_ok {
  co_to : vc_to c ∈ addrs P /\ vc_to c <> vc_from c;
  co_fresh : call_key c ∉ counted n;
  co_from : exists p, procs n !! vc_from c = Some p /\ rv_CandidateID (vc_req c) = id_of p /\
    rv_Term (vc_req c) <= term p /\
    (forall resp, vc_resp c = Some resp -> rvr_VoteGranted resp = true ->
       (vc_to c, rv_Term (vc_req c), id_of p) ∈ ballots n)
}.

Record proc_ok p : Prop := mk_proc_ok {
  pk_peers : Peers (config (node p)) = P;
  pk_id : id_of p <> [];
  pk_term : 0 <= term p;
  pk_leader : leader_inv p;
  pk_vote : vote_inv p
}.

(** The votes counted in the election [t] of the server at [a]. *)
Definition tally n (a : text) (t : Z) : list (text * Z * text) :=
  filter (fun x => fst x = (a, t)) (counted n).

Record net_ok n : Prop := mk_net_ok {
  nk_poll : poll_ok P (views n) (ballots n);
  nk_proc : forall a p, procs n !! a = Some p -> proc_ok p;
  nk_append : forall v, v ∈ appends n -> winner (views n) (ae_Term (ac_req v)) (ac_from v);
  nk_calls : forall c, c ∈ calls n -> call_ok n c;
  nk_distinct : NoDup (call_key <$> calls n);
  nk_once : NoDup (counted n);
  nk_counted : forall a t v, (a, t, v) ∈ counted n -> v ∈ addrs P /\ v <> a /\
    exists p, procs n !! a = Some p /\ t <= term p /\ (v, t, id_of p) ∈ ballots n;
  nk_count : forall a p t k b, procs n !! a = Some p -> pc p = InCandidate t k b ->
    t <= term p /\ (a, t, id_of p) ∈ ballots n /\ k <= 1 + zlen (tally n a t)
}.

(** Between two moments of a run: servers keep their identifiers, terms and wins
    grow, and votes stay. *)
Record grows n n' : Prop := mk_grows {
  gr_procs : forall a p, procs n !! a = Some p -> exists p', procs n' !! a = Some p' /\
    id_of p' = id_of p /\ term p <= term p' /\ won p ⊆ won p';
  gr_ballots : ballots n ⊆ ballots n'
}.

Lemma views_lookup n a w : views n !! a = Some w <-> exists p, procs n !! a = Some p /\ w = view_of p.
Proof.
  unfold views. rewrite lookup_fmap. destruct (procs n !! a) as [p|]; cbn.
  - split; [intros [= <-]; eauto|by intros (?&[= <-]&->)].
  - split; [done|by intros (?&?&_)].
Qed.

Lemma winner_views n T a : winner (views n) T a <-> exists p, procs n !! a = Some p /\ T ∈ won p.
Proof.
  unfold winner. split.
  - intros (w&Hw&HT). apply views_lookup in Hw as (p&Hp&->). eauto.
  - intros (p&Hp&HT). exists (view_of p). split; [|done]. apply views_lookup. eauto.
Qed.

Lemma winner_grows n n' T a : grows n n' -> winner (views n) T a -> winner (views n') T a.
Proof.
  intros Hg (p&Hp&HT)%winner_views. apply winner_views.
  destruct (gr_procs _ _ Hg a p Hp) as (p'&Hp'&_&_&Hw). exists p'. auto.
Qed.

Lemma call_ok_grows n n' c : grows n n' -> counted n' = counted n -> call_ok n c -> call_ok n' c.
Proof.
  intros Hg Hc [T1 T2 (p&Hp&Hid&Ht&Hr)]. split; [done|by rewrite Hc|].
  destruct (gr_procs _ _ Hg _ p Hp) as (p'&Hp'&Ei&Et&_). exists p'. rewrite Ei.
  split_and!; [done|done|lia|]. intros resp H1' H2'. apply (gr_ballots _ _ Hg). by eapply Hr.
Qed.

Lemma counted_grows n n' a t v :
  grows n n' ->
  (v ∈ addrs P /\ v <> a /\ exists p, procs n !! a = Some p /\ t <= term p /\ (v, t, id_of p) ∈ ballots n) ->
  v ∈ addrs P /\ v <> a /\ exists p, procs n' !! a = Some p /\ t <= term p /\ (v, t, id_of p) ∈ ballots n'.
Proof.
  intros Hg (H1'&H2'&p&Hp&Ht&Hb). split_and!; [done..|].
  destruct (gr_procs _ _ Hg _ p Hp) as (p'&Hp'&Ei&Et&_). exists p'. rewrite Ei.
  split_and!; [done|lia|by apply (gr_ballots _ _ Hg)].
Qed.

(** The network with one server moved. *)
Definition moved n (a : text) p' (B' : list ballot) : network L Sb F R :=
  mkNet (<[a := p']> (procs n)) (calls n) (appends n) (ballots n ++ B') (counted n).

Record proc_moves p p' : Prop := mk_proc_moves {
  pm_config : config (node p') = config (node p);
  pm_term : term p <= term p';
  pm_won : won p ⊆ won p'
}.

Lemma moved_grows n a p p' n' B' :
  procs n !! a = Some p -> proc_moves p p' -> procs n' = <[a := p']> (procs n) ->
  ballots n' = ballots n ++ B' -> grows n n'.
Proof.
  intros Ha [Hc Ht Hw] Ep Eb. split.
  - intros b q Hb. rewrite Ep. destruct (decide (b = a)) as [->|Hne].
    + rewrite lookup_insert_eq. exists p'. assert (q = p) as -> by congruence.
      split_and!; try done. unfold id_of. by rewrite Hc.
    + rewrite lookup_insert_ne by done. exists q. split_and!; done.
  - rewrite Eb. intros x Hx. apply elem_of_app. by left.
Qed.

Lemma evolves_moves p l p' : evolves p l p' -> term p <= term p' /\ config (node p') = config (node p).
Proof.
  destruct 1 as [Hlt Hc|Heq|req _ _ _ Et _ Ec|req _ _ _ Et Ec]; [split; [lia|done]| |split; [lia|done]..].
  unfold paper in Heq. split; [|congruence]. assert (term p' = term p) by congruence. lia.
Qed.

(** ** A server moves *)

Lemma evolves_poll n a p l p' B' :
  net_ok n -> procs n !! a = Some p -> evolves p l p' ->
  (forall req, l = LCommand (CAppendEntries req) ->
     exists b, b <> a /\ winner (views n) (ae_Term req) b) ->
  (forall v T c, (v, T, c) ∈ B' -> v = a /\ T = term p' /\ c = vote p' /\ c <> [] /\
     (term p < T \/ vote p = [] \/ vote p = c)) ->
  poll_ok P (<[a := mkView (id_of p') (term p') (vote p') (won p)]> (views n)) (ballots n ++ B').
Proof.
  intros Hn Ha He Happ Hb. destruct (evolves_moves p l p' He) as [Ht Hc].
  apply (poll_step P ids_distinct (views n) (ballots n) a (view_of p)); [by apply Hn| |].
  { apply views_lookup. eauto. }
  split; cbn; try done; [unfold id_of; by rewrite Hc|].
  intros Et. destruct He as [Hlt _|Heq|req _ _ Hv _ _ _|req -> Hreq Hv _ _].
  - lia.
  - left. unfold paper in Heq. congruence.
  - auto.
  - right. right. split; [done|]. destruct (Happ req eq_refl) as (b&Hne&Hw). exists b.
    by rewrite <-Hreq.
Qed.

Lemma views_insert n a p' n' :
  procs n' = <[a := p']> (procs n) -> views n' = <[a := view_of p']> (views n).
Proof. unfold views. intros ->. apply fmap_insert. Qed.

(** A step that is not the start of an election, nor a vote. *)
Lemma plain_step p l p' :
  step p l = Some p' -> match l with LVote _ => False | LMain => pc p <> Electing | _ => True end ->
  won p' = won p /\
  (forall t k b, pc p' = InCandidate t k b -> exists b', pc p = InCandidate t k b').
Proof.
  intros Hs Hl. destruct (background l) eqn:Hb.
  { destruct (background_drift p l p' Hb Hs) as (Hpc&Hw&_). split; [done|]. rewrite Hpc. eauto. }
  destruct l as [|cmd| |resp| |id|id resp|id|k|k resp| | |data c|f|f|]; try done; simpl in Hs.
  - unfold main_step in Hs. destruct (pc p) as [|[]| |t v []|t| | |[]|] eqn:Hpc; try done;
      repeat (case_match; try done);
      try (apply try_some in Hs as (r'&_&Hs)); injection Hs as <-; (split; [done|]);
      intros t0 k0 b0 Hx; cbn in Hx; try case_bool_decide; simplify_eq; eauto.
  - apply command_node in Hs as (r'&resp&b&_&_&Hw&Hpc). split; [done|]. intros t0 k0 b0 Hx.
    destruct Hpc as [[_ E]|[(t&v&Hp&[(_&_&E)|(_&E)])|(Hp&[(_&E)|(_&E)])]]; rewrite E in Hx; try done.
    injection Hx as <- <- _. eauto.
  - unfold timer_step in Hs. destruct (pc p) as [|[]| |t v []|t| | |[]|]; try done; by injection Hs as <-.
  - apply request_step_role in Hs as (_&E&Hw&_). split; [done|]. intros t0 k0 b0. by rewrite E.
Qed.

Lemma step_proc_ok p l p' :
  proc_ok p -> polite p l -> evolves p l p' -> step p l = Some p' -> proc_ok p'.
Proof.
  intros [K1 K2 K3 K4 K5] Hp He Hs. destruct (evolves_moves p l p' He) as [Ht Hc].
  split; [by rewrite Hc|unfold id_of; by rewrite Hc|lia|by eapply step_inv|by eapply step_vote].
Qed.

Lemma proc_ok_insert n a p' :
  net_ok n -> proc_ok p' -> forall b q, <[a := p']> (procs n) !! b = Some q -> proc_ok q.
Proof.
  intros Hn Hp b q Hb. destruct (decide (b = a)) as [->|Hne].
  - rewrite lookup_insert_eq in Hb. by injection Hb as <-.
  - rewrite lookup_insert_ne in Hb by done. by eapply nk_proc.
Qed.

Lemma tally_app n n' C' a t :
  counted n' = counted n ++ C' ->
  tally n' a t = tally n a t ++ filter (fun x => fst x = (a, t)) C'.
Proof. intros E. unfold tally. by rewrite E, filter_app. Qed.

(** A call to AppendEntries that was made before, answered or not. *)
Definition sent_before n (v : append_call) : Prop :=
  exists v0, v0 ∈ appends n /\ ac_from v0 = ac_from v /\ ac_to v0 = ac_to v /\ ac_req v0 = ac_req v.

Lemma sent_before_in n v : v ∈ appends n -> sent_before n v.
Proof. by exists v. Qed.

(** One server moves, new votes are counted: what is left to show of the network. *)
Lemma net_moved n n' a p p' C' :
  net_ok n -> procs n !! a = Some p -> grows n n' -> procs n' = <[a := p']> (procs n) ->
  counted n' = counted n ++ C' -> proc_ok p' -> poll_ok P (views n') (ballots n') ->
  (forall v, v ∈ appends n' -> sent_before n v \/ (ac_from v = a /\ ae_Term (ac_req v) ∈ won p')) ->
  (forall c, c ∈ calls n' -> call_ok n' c) -> NoDup (call_key <$> calls n') -> NoDup (counted n') ->
  (forall x t v, (x, t, v) ∈ C' -> v ∈ addrs P /\ v <> x /\
     exists q, procs n' !! x = Some q /\ t <= term q /\ (v, t, id_of q) ∈ ballots n') ->
  (forall t k b, pc p' = InCandidate t k b ->
     t <= term p' /\ (a, t, id_of p') ∈ ballots n' /\ k <= 1 + zlen (tally n' a t)) ->
  net_ok n'.
Proof.
  intros Hn Ha Hg Ep Ec Hp' Hpoll Hnew Hcalls Hdist Honce HC Hown. split; try done.
  - rewrite Ep. by apply proc_ok_insert.
  - intros v [(v0&Hin&E1&_&E3)|[E1 Hin]]%Hnew; [|rewrite E1].
    + apply (winner_grows n n'); [done|]. rewrite <-E1, <-E3. by apply nk_append.
    + apply winner_views. exists p'. rewrite Ep, lookup_insert_eq. done.
  - rewrite Ec. intros x t v [Hin|Hin]%elem_of_app; [|by apply HC].
    eapply counted_grows; [done|]. by apply nk_counted.
  - intros x q t k b Hx Hq. destruct (decide (x = a)) as [->|Hne].
    { rewrite Ep, lookup_insert_eq in Hx. injection Hx as <-. by eapply Hown. }
    pose proof Hx as Hx0. rewrite Ep, lookup_insert_ne in Hx0 by done.
    destruct (nk_count _ Hn x q t k b Hx0 Hq) as (C1&C2&C3).
    split_and!; [done|by apply (gr_ballots _ _ Hg)|].
    rewrite (tally_app n n' C' x t Ec), zlen_app. pose proof (zlen_nonneg (filter (fun y => fst y = (x, t)) C')). lia.
Qed.

(** Everything but the calls, for a plain step with the new votes [B']. *)
Lemma plain_net n a p l p' n' B' :
  net_ok n -> procs n !! a = Some p -> step p l = Some p' -> polite p l -> evolves p l p' ->
  match l with LVote _ => False | LMain => pc p <> Electing | _ => True end ->
  (forall req, l = LCommand (CAppendEntries req) ->
     exists b, b <> a /\ winner (views n) (ae_Term req) b) ->
  (forall v T c, (v, T, c) ∈ B' -> v = a /\ T = term p' /\ c = vote p' /\ c <> [] /\
     (term p < T \/ vote p = [] \/ vote p = c)) ->
  procs n' = <[a := p']> (procs n) -> ballots n' = ballots n ++ B' -> counted n' = counted n ->
  (forall v, v ∈ appends n' -> sent_before n v \/ (ac_from v = a /\ ae_Term (ac_req v) ∈ won p)) ->
  (forall c, c ∈ calls n' -> call_ok n' c) -> NoDup (call_key <$> calls n') -> net_ok n'.
Proof.
  intros Hn Ha Hs Hpol He Hl Happ Hb Ep Eb Ec Hnew Hcalls Hdist.
  destruct (plain_step p l p' Hs Hl) as [Hw Hpc]. destruct (evolves_moves p l p' He) as [Ht Hc].
  assert (Hg : grows n n').
  { apply (moved_grows n a p p' n' B'); try done. split; [done|done|by rewrite Hw]. }
  apply (net_moved n n' a p p' []); try done.
  - by rewrite app_nil_r.
  - eapply step_proc_ok; try done. by eapply nk_proc.
  - rewrite (views_insert n a p' n' Ep), Eb.
    replace (view_of p') with (mkView (id_of p') (term p') (vote p') (won p))
      by (unfold view_of; by rewrite Hw).
    by apply (evolves_poll n a p l p').
  - rewrite Hw. exact Hnew.
  - rewrite Ec. apply Hn.
  - by intros x t v ?%elem_of_nil.
  - intros t k b Hx. destruct (Hpc t k b Hx) as [b' Hb']. unfold tally. rewrite Ec.
    destruct (nk_count _ Hn a p t k b' Ha Hb') as (C1&C2&C3). split_and!; [lia| |done].
    apply (gr_ballots _ _ Hg). unfold id_of. by rewrite Hc.
Qed.

(** ** The steps of the network *)

(** No stale answer brings a newer term into a count of votes, terms do not overflow,
    and a server that crashes has its term and its vote on disk, or a newer term: with
    stores whose writes succeed it has ([Restart.restart_restores]). *)
Definition calm n (l : nlabel) : Prop :=
  match l with
  | NStep a _ => forall p, procs n !! a = Some p -> term p < max_uint
  | NAppendResponse i k => forall v resp p, appends n !! i = Some v -> ac_resp v = Some resp ->
      procs n !! ac_from v = Some p -> polite p (answer_label k resp)
  | NRestart a ws => forall p p', procs n !! a = Some p -> restart p ws = Some p' ->
      recovers (node p) (node p')
  | _ => True
  end.

Lemma local_polite p l : from_outside l = false -> polite p l.
Proof. by destruct l. Qed.

Lemma no_election (a : text) p l :
  match l with LMain => pc p <> Electing | _ => True end ->
  new_calls a p l = [] /\ own_ballot a p l = [].
Proof. unfold new_calls, own_ballot. destruct l; try done. destruct (pc p); done. Qed.

(** A leader sends AppendEntries of the term it has won. *)
Lemma new_appends_won a p l v :
  proc_ok p -> v ∈ new_appends a p l -> ac_from v = a /\ ae_Term (ac_req v) ∈ won p.
Proof.
  intros Hp Hin.
  assert (forall peer, v ∈ built a p peer -> ac_from v = a /\ ae_Term (ac_req v) ∈ won p) as Hb.
  { intros peer. unfold built, replicate_build.
    destruct (bool_decide_reflect (state (node p) = Leader)) as [Hl|]; cbn [negb];
      [|by intros ?%elem_of_nil].
    destruct (gather_loop _ _ _ _ _) as [es| | |]; cbn; try (by intros ?%elem_of_nil).
    intros ->%list_elem_of_singleton. split; [done|]. cbn. by apply (pk_leader _ Hp). }
  unfold new_appends in Hin. destruct l; try (by apply elem_of_nil in Hin).
  - destruct (peers (node p) !! id); [by eapply Hb|by apply elem_of_nil in Hin].
  - destruct (stale p !! k); [by eapply Hb|by apply elem_of_nil in Hin].
Qed.

Lemma local_plain n a l p p' :
  net_ok n -> calm n (NStep a l) -> procs n !! a = Some p -> from_outside l = false ->
  match l with LMain => pc p <> Electing | _ => True end -> step p l = Some p' ->
  net_ok (mkNet (<[a := p']> (procs n)) (calls n ++ new_calls a p l)
    (appends n ++ new_appends a p l) (ballots n ++ own_ballot a p l) (counted n)).
Proof.
  intros Hn Hcalm Ha Ho Hl Hs. pose proof (Hcalm p Ha) as Hmax. pose proof (local_polite p l Ho) as Hpol.
  pose proof (nk_proc _ Hn a p Ha) as Hp. destruct (no_election a p l Hl) as [-> ->].
  assert (He : evolves p l p').
  { apply step_evolves; [apply Hp| |done]. split; [apply Hp|done]. }
  assert (Hg : grows n (mkNet (<[a := p']> (procs n)) (calls n ++ [])
    (appends n ++ new_appends a p l) (ballots n ++ []) (counted n))).
  { destruct (evolves_moves p l p' He) as [Ht Hc].
    assert (won p' = won p) as Hw by (apply (plain_step p l p' Hs); by destruct l).
    apply (moved_grows n a p p' _ []); try done. split; [done|done|by rewrite Hw]. }
  apply (plain_net n a p l p' _ []); try done.
  - by destruct l.
  - by intros req ->.
  - by intros ? ? ? ?%elem_of_nil.
  - intros v [Hin|Hin]%elem_of_app; [left; by apply sent_before_in|right]. by eapply new_appends_won.
  - intros c Hc. cbn in Hc. rewrite app_nil_r in Hc.
    eapply call_ok_grows; [exact Hg|done|by apply nk_calls].
  - cbn. rewrite app_nil_r. apply Hn.
Qed.

(** A step of one server that sends nothing and leaves the votes alone. *)
Lemma inner_net n a p l p' as' :
  net_ok n -> procs n !! a = Some p -> step p l = Some p' -> polite p l -> evolves p l p' ->
  match l with LVote _ => False | LMain => pc p <> Electing | _ => True end ->
  (forall req, l = LCommand (CAppendEntries req) ->
     exists b, b <> a /\ winner (views n) (ae_Term req) b) ->
  (forall v, v ∈ as' -> sent_before n v) ->
  net_ok (mkNet (<[a := p']> (procs n)) (calls n) as' (ballots n) (counted n)).
Proof.
  intros Hn Ha Hs Hpol He Hl Happ Has.
  set (n' := mkNet _ _ _ _ _).
  assert (Hg : grows n n').
  { destruct (evolves_moves p _ p' He) as [Ht Hc].
    assert (won p' = won p) as Hw by (by apply (plain_step p _ p' Hs)).
    apply (moved_grows n a p p' _ []); try done; [by split; try done; rewrite Hw|].
    cbn. by rewrite app_nil_r. }
  apply (plain_net n a p l p' _ []); try done.
  - by intros ? ? ? ?%elem_of_nil.
  - cbn. by rewrite app_nil_r.
  - intros v Hin. left. by apply Has.
  - intros c Hc. eapply call_ok_grows; [exact Hg|done|by apply nk_calls].
  - apply Hn.
Qed.

Lemma append_ok n i n' : net_ok n -> append_request n i = Some n' -> net_ok n'.
Proof.
  intros Hn Hs. unfold append_request in Hs. apply bind_Some in Hs as (v&Hi&Hs).
  destruct (ac_resp v); [done|].
  destruct (bool_decide_reflect (ac_from v = ac_to v)) as [|Hne]; [done|].
  apply bind_Some in Hs as (p&Ha&Hs). apply bind_Some in Hs as (p'&Hst&Hs).
  destruct (handleRPC (node p) _) as [[[r' [resp| |]] b]| | |]; try done. injection Hs as <-.
  pose proof (nk_proc _ Hn _ p Ha) as Hp. pose proof (list_elem_of_lookup_2 _ _ _ Hi) as Hin.
  apply (inner_net n (ac_to v) p (LCommand (CAppendEntries (ac_req v))) p'); try done.
  - apply command_evolves; [apply Hp|done].
  - intros req' [= <-]. exists (ac_from v). split; [done|]. by apply nk_append.
  - intros w [j Hj]%list_elem_of_lookup. apply list_lookup_insert_Some in Hj as [(_&<-&_)|[_ Hj]].
    + by exists v.
    + apply sent_before_in. by eapply list_elem_of_lookup_2.
Qed.

Lemma append_response_ok n i k n' :
  net_ok n -> calm n (NAppendResponse i k) -> append_response n i k = Some n' -> net_ok n'.
Proof.
  intros Hn Hcalm Hs. unfold append_response in Hs. apply bind_Some in Hs as (v&Hi&Hs).
  apply bind_Some in Hs as (resp&Hresp&Hs). apply bind_Some in Hs as (p&Ha&Hs).
  destruct (waits p k v); [|done]. apply bind_Some in Hs as (p'&Hst&[= <-]).
  apply (inner_net n (ac_from v) p (answer_label k resp) p'); try done.
  - by eapply Hcalm.
  - apply background_evolves; [by destruct k|done].
  - by destruct k.
  - by destruct k.
  - intros w Hw. apply sent_before_in. by apply list_elem_of_delete_inv in Hw.
Qed.

(** *** The start of an election *)

Lemma quorum_peers p : Peers (config (node p)) = P -> quorum (node p) = zlen P / 2 + 1.
Proof. unfold quorum. by intros ->. Qed.

Lemma electing_step p p' r' req to :
  pc p = Electing -> startElection (node p) = Ret (r', req, to) -> main_step p = Some p' ->
  node p' = r' /\ inflight p' = inflight p /\
  ((quorum r' <= 1 /\ won p' = currentTerm r' :: won p /\ pc p' = Elected (currentTerm r')) \/
   (won p' = won p /\ pc p' = InCandidate (currentTerm r') 1 false)).
Proof.
  unfold main_step. intros -> ->. cbn. destruct (Z.leb_spec (quorum r') 1) as [Hq|Hq];
    intros [= <-]; auto 7.
Qed.

(** The receivers of the requests: the other servers, each once. *)
Lemma election_targets n a p r' req to :
  net_ok n -> procs n !! a = Some p -> startElection (node p) = Ret (r', req, to) ->
  NoDup to /\ forall b, b ∈ to -> b ∈ addrs P /\ b <> a.
Proof.
  intros Hn Ha (_&_&_&->)%startElection_role. rewrite (pk_peers _ (nk_proc _ Hn a p Ha)).
  assert (Hsub : sublist (Address <$> filter (fun q => PeerID q <> ServerID (config (node p))) P) (addrs P)).
  { apply fmap_sublist, sublist_filter. }
  split; [by eapply sublist_NoDup|]. intros b (q&->&[Hne Hq]%list_elem_of_filter)%list_elem_of_fmap.
  split; [by apply list_elem_of_fmap_2|]. intros Heq.
  destruct (po_member _ _ _ (nk_poll _ Hn) a (view_of p)) as (q0&Hq0&Hid&Had).
  { apply views_lookup. eauto. }
  apply Hne. cbn in Hid. fold (id_of p). rewrite <-Hid.
  apply list_elem_of_lookup in Hq as [i Hi]. apply list_elem_of_lookup in Hq0 as [j Hj].
  assert (i = j) as ->.
  { apply (NoDup_lookup _ _ _ (Address q) addrs_distinct); rewrite list_lookup_fmap.
    - by rewrite Hi.
    - rewrite Hj. cbn. by rewrite Had, Heq. }
  congruence.
Qed.

Lemma electing_calls n n' a p r' req to :
  net_ok n -> procs n !! a = Some p -> startElection (node p) = Ret (r', req, to) ->
  rv_Term req = term p + 1 -> grows n n' -> counted n' = counted n ->
  (exists p', procs n' !! a = Some p' /\ id_of p' = id_of p /\ term p' = term p + 1) ->
  calls n' = calls n ++ ((fun b => mkVoteCall a b req None) <$> to) ->
  (forall c, c ∈ calls n' -> call_ok n' c) /\ NoDup (call_key <$> calls n').
Proof.
  intros Hn Ha He Ht Hg Ec (p'&Hp'&Hid&Ht') Ecalls.
  destruct (election_targets n a p r' req to Hn Ha He) as [Hnd Hto]. rewrite Ecalls. split.
  - intros c [Hc|(b&->&Hb)%list_elem_of_fmap]%elem_of_app.
    { eapply call_ok_grows; [done|done|]. by apply nk_calls. }
    split; [by apply Hto| |].
    + rewrite Ec. intros Hin. unfold call_key in Hin. cbn in Hin.
      destruct (nk_counted _ Hn _ _ _ Hin) as (_&_&q&Hq&Hle&_).
      rewrite Ha in Hq. injection Hq as <-. lia.
    + exists p'. cbn. split_and!; [done| |lia|done].
      apply startElection_role in He as (_&_&E&_). by rewrite E, Hid.
  - rewrite fmap_app. apply NoDup_app. split_and!; [apply Hn| |].
    + intros k (c&->&Hc)%list_elem_of_fmap (c'&Hk&(b&->&_)%list_elem_of_fmap)%list_elem_of_fmap.
      destruct (nk_calls _ Hn c Hc) as [_ _ (q&Hq&_&Hle&_)]. unfold call_key in Hk. cbn in Hk.
      injection Hk as E1 E2 _. rewrite E1, Ha in Hq. injection Hq as <-. lia.
    + rewrite <-list_fmap_compose. apply NoDup_fmap_2; [|done]. intros b b' Hk. by injection Hk.
Qed.

Lemma electing_ok n a p p' :
  net_ok n -> calm n (NStep a LMain) -> procs n !! a = Some p -> pc p = Electing ->
  step p LMain = Some p' ->
  net_ok (mkNet (<[a := p']> (procs n)) (calls n ++ new_calls a p LMain)
    (appends n ++ new_appends a p LMain) (ballots n ++ own_ballot a p LMain) (counted n)).
Proof.
  intros Hn Hcalm Ha Hpc Hs. pose proof (Hcalm p Ha) as Hmax. assert (polite p LMain) as Hpol by done.
  pose proof (nk_proc _ Hn a p Ha) as Hp.
  assert (Hr : in_range p) by (split; [apply Hp|done]).
  simpl in Hs. pose proof Hs as Hs0. unfold main_step in Hs0. rewrite Hpc in Hs0.
  apply try_some in Hs0 as ([[r' req] to]&He&_).
  pose proof (startElection_role _ _ _ _ He) as ((Est&Et&Ev&Ec)%role_proj&Ereq&Ecand&_).
  rewrite uwrap64_small in Et by (unfold in_range, term in *; lia). fold (term p) in Et.
  destruct (electing_step p p' r' req to Hpc He Hs) as (Enode&_&Hcase).
  pose proof (step_evolves p LMain p' (pk_vote _ Hp) Hr Hs) as Hev.
  unfold new_calls, own_ballot, new_appends. rewrite Hpc, He, app_nil_r.
  set (n' := mkNet _ _ _ _ _).
  assert (Hterm : term p' = term p + 1) by (unfold term at 1; by rewrite Enode).
  assert (Hid : id_of p' = id_of p) by (unfold id_of; by rewrite Enode, Ec).
  assert (Hvote : vote p' = id_of p) by (unfold vote; by rewrite Enode, Ev).
  assert (Hball : [(a, rv_Term req, rv_CandidateID req)] = [(a, term p', id_of p')]).
  { by rewrite Ereq, Ecand, Et, Hterm, Hid. }
  assert (Hg : grows n n').
  { apply (moved_grows n a p p' _ [(a, rv_Term req, rv_CandidateID req)]); try done.
    split; [by rewrite Enode|lia|]. destruct Hcase as [(_&->&_)|(->&_)]; [by intros x; right|done]. }
  assert (Hpoll : poll_ok P (<[a := mkView (id_of p') (term p') (vote p') (won p)]> (views n)) (ballots n')).
  { cbn. rewrite Hball. apply (evolves_poll n a p LMain p'); try done.
    intros v T c [= -> -> ->]%list_elem_of_singleton. rewrite Hvote, Hid.
    split_and!; try done; [apply Hp|left; lia]. }
  destruct (electing_calls n n' a p r' req to) as [K1 K2]; try done.
  { by rewrite Ereq. }
  { exists p'. cbn. by rewrite lookup_insert_eq. }
  apply (net_moved n n' a p p' []); try done.
  - cbn. by rewrite app_nil_r.
  - by apply (step_proc_ok p LMain).
  - rewrite (views_insert n a p' n' eq_refl). destruct Hcase as [(Hq&Hw&_)|(Hw&_)].
    + unfold quorum in Hq. rewrite Ec, (pk_peers _ Hp) in Hq.
      pose proof (poll_win P _ _ a _ (term p') [a] Hpoll (lookup_insert_eq _ _ _)) as Hwin.
      rewrite insert_insert_eq in Hwin. unfold view_of. rewrite Hw, Et, <-Hterm. apply Hwin.
      * apply NoDup_singleton.
      * intros x ->%list_elem_of_singleton.
        destruct (po_member _ _ _ (nk_poll _ Hn) a (view_of p)) as (q&Hq0&_&<-).
        { apply views_lookup. eauto. }
        by apply list_elem_of_fmap_2.
      * done.
      * intros v ->%list_elem_of_singleton. cbn. rewrite Hball. apply elem_of_app. right.
        by apply list_elem_of_singleton.
    + unfold view_of. by rewrite Hw.
  - intros v0 Hin. left. by apply sent_before_in.
  - apply Hn.
  - by intros x t v ?%elem_of_nil.
  - intros t k b Hx. destruct Hcase as [(_&_&Hx')|(_&Hx')]; rewrite Hx' in Hx; [done|].
    injection Hx as <- <- _. rewrite Et, <-Hterm. split_and!; [lia| |].
    + cbn. rewrite Hball. apply elem_of_app. right. by apply list_elem_of_singleton.
    + pose proof (zlen_nonneg (tally n' a (term p'))). lia.
Qed.

(** *** The calls of an election *)

Lemma other_key (cs : list vote_call) i v c :
  NoDup (call_key <$> cs) -> cs !! i = Some v -> c ∈ delete i cs -> call_key c <> call_key v.
Proof.
  intros Hnd Hi Hc Heq. rewrite <-(take_drop_middle cs i v Hi), fmap_app, fmap_cons in Hnd.
  rewrite delete_take_drop in Hc. apply NoDup_app in Hnd as (_&N2&[N3 _]%NoDup_cons).
  apply elem_of_app in Hc as [Hc|Hc]; apply (list_elem_of_fmap_2 call_key) in Hc; rewrite Heq in Hc.
  - apply (N2 _ Hc). by left.
  - by apply N3.
Qed.

Lemma vote_request_ok n i n' : net_ok n -> vote_request n i = Some n' -> net_ok n'.
Proof.
  intros Hn Hs. unfold vote_request in Hs. apply bind_Some in Hs as (v&Hi&Hs).
  destruct (vc_resp v) eqn:Hresp; [done|].
  apply bind_Some in Hs as (p&Ha&Hs). apply bind_Some in Hs as (p'&Hst&Hs).
  simpl in Hst. destruct (command_node _ _ _ Hst) as (r'&rsp&b&Hh&Hr&_).
  rewrite Hh in Hs. destruct (handleRPC_vote_role _ _ _ _ _ Hh) as [-> Hrole].
  rewrite Hrole in Hr. injection Hs as <-. cbn [rvr_VoteGranted].
  pose proof (nk_proc _ Hn _ p Ha) as Hp. set (a := vc_to v) in *. set (req := vc_req v) in *.
  assert (He : evolves p (LCommand (CRequestVote req)) p') by (apply command_evolves; [apply Hp|done]).
  assert (Hv : call_ok n v) by (apply nk_calls; [done|by eapply list_elem_of_lookup_2]).
  set (B' := if vote_ok (node p) req then _ else _).
  assert (HB : forall x T c, (x, T, c) ∈ B' -> vote_ok (node p) req = true /\
    x = a /\ T = term p' /\ c = vote p' /\ c <> [] /\ (term p < T \/ vote p = [] \/ vote p = c)).
  { intros x T c. subst B'. destruct (vote_ok (node p) req) eqn:Hok; [|by intros ?%elem_of_nil].
    intros [= -> -> ->]%list_elem_of_singleton.
    apply role_proj in Hr as (_&Et&Ev&_). destruct (co_from _ _ Hv) as (q&Hq&Hcand&_).
    change (rv_CandidateID req = id_of q) in Hcand.
    pose proof (pk_id _ (nk_proc _ Hn _ q Hq)) as Hid. unfold vote_ok in Hok.
    apply andb_prop in Hok as [Hok _]. apply andb_prop in Hok as [Hle Hok]. apply Z.leb_le in Hle.
    unfold at_term, term, vote in *. cbn in Et, Ev. rewrite Et, Ev.
    destruct (Z.ltb_spec (currentTerm (node p)) (rv_Term req)) as [Hlt|Hge].
    - split_and!; try done; [by rewrite Hcand|]. left. lia.
    - cbn in Hok. apply orb_prop in Hok as [Hok|Hok]; apply bool_decide_eq_true in Hok;
        (split_and!; try done; [lia|by rewrite Hcand|auto]). }
  set (n' := mkNet _ _ _ _ _).
  assert (Hg : grows n n').
  { destruct (evolves_moves p _ p' He) as [Ht Hc].
    assert (won p' = won p) as Hw by (by apply (plain_step p (LCommand (CRequestVote req)) p' Hst)).
    apply (moved_grows n a p p' _ B'); try done. split; [done|done|by rewrite Hw]. }
  apply (plain_net n a p (LCommand (CRequestVote req)) p' n' B'); try done.
  - intros x T c (_&?)%HB. done.
  - intros v0 Hin. left. by apply sent_before_in.
  - intros c [j Hj]%list_elem_of_lookup. apply list_lookup_insert_Some in Hj as [(_&<-&_)|[_ Hj]].
    + pose proof (call_ok_grows n n' v Hg eq_refl Hv) as [C1 C2 (q&Hq&Hcand&Hle&_)].
      split; [done|done|]. exists q. split_and!; try done. cbn. intros rsp [= <-] Hok.
      cbn in Hok. apply elem_of_app. right. subst B'. rewrite Hok.
      apply list_elem_of_singleton. by rewrite <-Hcand.
    + eapply call_ok_grows; [exact Hg|done|]. apply nk_calls; [done|]. by eapply list_elem_of_lookup_2.
  - subst n'. cbn [calls]. rewrite list_fmap_insert, list_insert_id; [apply Hn|].
    rewrite list_lookup_fmap, Hi. done.
Qed.

Lemma vote_step_cases p t k resp p' :
  pc p = InCandidate t k true -> vote_step p resp = Some p' ->
  (won p' = won p /\ pc p' = AtRun) \/
  (won p' = won p /\ pc p' = InCandidate t (if rvr_VoteGranted resp then k + 1 else k) false) \/
  (rvr_VoteGranted resp = true /\ won p' = t :: won p /\ pc p' = Elected t /\
   quorum (node p) <= k + 1).
Proof.
  intros Hpc Hs. unfold vote_step in Hs. rewrite Hpc in Hs.
  destruct (_ <? _); [apply try_some in Hs as (r'&_&[= <-]); auto|].
  destruct (rvr_VoteGranted resp); [|injection Hs as <-; auto].
  destruct (Z.leb_spec (quorum (node p)) (k + 1)); injection Hs as <-; auto 7.
Qed.

(** The candidate with the servers whose votes it has counted. *)
Lemma tally_votes n a p t :
  net_ok n -> procs n !! a = Some p -> (a, t, id_of p) ∈ ballots n ->
  let Q := a :: (snd <$> tally n a t) in
  NoDup Q /\ Q ⊆ addrs P /\ zlen Q = 1 + zlen (tally n a t) /\
  forall v, v ∈ Q -> (v, t, id_of p) ∈ ballots n /\ (v = a \/ (a, t, v) ∈ counted n).
Proof.
  intros Hn Ha Hb Q.
  assert (HQ : forall v, v ∈ snd <$> tally n a t -> (a, t, v) ∈ counted n).
  { intros v ([k v']&->&[Hk Hx]%list_elem_of_filter)%list_elem_of_fmap. cbn in *. by subst k. }
  split_and!.
  - apply NoDup_cons. split.
    + intros Hx%HQ. by destruct (nk_counted _ Hn _ _ _ Hx) as (_&?&_).
    + apply NoDup_fmap_2_strong; [|apply NoDup_filter, Hn].
      intros [k1 v1] [k2 v2] [E1 _]%list_elem_of_filter [E2 _]%list_elem_of_filter Hv.
      cbn in *. congruence.
  - intros v [->|Hv%HQ]%elem_of_cons; [|by apply (nk_counted _ Hn _ _ _ Hv)].
    destruct (po_member _ _ _ (nk_poll _ Hn) a (view_of p)) as (q&Hq0&_&<-).
    { apply views_lookup. eauto. }
    by apply list_elem_of_fmap_2.
  - unfold Q. rewrite zlen_cons. unfold zlen. by rewrite length_fmap.
  - intros v [->|Hv%HQ]%elem_of_cons; [auto|]. split; [|auto].
    destruct (nk_counted _ Hn _ _ _ Hv) as (_&_&q&Hq&_&Hin). rewrite Ha in Hq. by injection Hq as <-.
Qed.

(** The votes that make a leader. *)
Lemma counted_majority n a p t k to :
  net_ok n -> procs n !! a = Some p -> (exists b, pc p = InCandidate t k b) ->
  quorum (node p) <= k + 1 -> to ∈ addrs P -> to <> a -> (a, t, to) ∉ counted n ->
  (to, t, id_of p) ∈ ballots n ->
  exists Q, NoDup Q /\ Q ⊆ addrs P /\ zlen P / 2 + 1 <= zlen Q /\
    forall v, v ∈ Q -> (v, t, id_of p) ∈ ballots n.
Proof.
  intros Hn Ha [b Hpc] Hq Hto Hne Hfresh Hb.
  destruct (nk_count _ Hn a p t k b Ha Hpc) as (_&Hself&Hk).
  destruct (tally_votes n a p t Hn Ha Hself) as (Q1&Q2&Q3&Q4). set (Q := a :: _) in *.
  rewrite (quorum_peers p (pk_peers _ (nk_proc _ Hn a p Ha))) in Hq.
  exists (to :: Q). split_and!.
  - apply NoDup_cons. split; [|done]. intros Hin. by destruct (Q4 _ Hin) as [_ [?|?]].
  - intros v [->|Hv]%elem_of_cons; [done|by apply Q2].
  - rewrite zlen_cons. lia.
  - intros v [->|Hv]%elem_of_cons; [done|by apply Q4].
Qed.

Lemma response_call n n' i v c C' :
  net_ok n -> grows n n' -> calls n !! i = Some v -> counted n' = counted n ++ C' ->
  (forall x, x ∈ C' -> x = call_key v) -> c ∈ delete i (calls n) -> call_ok n' c.
Proof.
  intros Hn Hg Hi Ec HC Hc.
  assert (Hin : c ∈ calls n) by (by apply list_elem_of_delete_inv in Hc).
  pose proof (nk_calls _ Hn c Hin) as [C1 C2 (q&Hq&Hcand&Hle&Hr)]. split; [done| |].
  - rewrite Ec. intros [Hx|Hx%HC]%elem_of_app; [done|].
    by apply (other_key (calls n) i v c); [apply Hn|..].
  - destruct (gr_procs _ _ Hg _ q Hq) as (q'&Hq'&Ei&Et&_). exists q'. rewrite Ei.
    split_and!; [done|done|lia|]. intros resp E1 E2. apply (gr_ballots _ _ Hg). by eapply Hr.
Qed.

Lemma delete_keys (cs : list vote_call) i :
  NoDup (call_key <$> cs) -> NoDup (call_key <$> delete i cs).
Proof. intros Hnd. eapply sublist_NoDup; [exact Hnd|]. apply fmap_sublist, sublist_delete. Qed.

Lemma vote_response_ok n i n' : net_ok n -> vote_response n i = Some n' -> net_ok n'.
Proof.
  intros Hn Hs. unfold vote_response in Hs. apply bind_Some in Hs as (v&Hi&Hs).
  apply bind_Some in Hs as (resp&Hresp&Hs). apply bind_Some in Hs as (p&Ha&Hs).
  destruct (pc p) as [| | |t k []| | | | |] eqn:Hpc; try done.
  destruct (Z.eqb_spec t (rv_Term (vc_req v))) as [->|]; [|done].
  apply bind_Some in Hs as (p'&Hst&Hs). injection Hs as <-. simpl in Hst.
  set (a := vc_from v) in *. set (T := rv_Term (vc_req v)) in *. set (to := vc_to v).
  pose proof (nk_proc _ Hn _ p Ha) as Hp.
  pose proof (vote_step_evolves p resp p' Hst) as He. destruct (evolves_moves p _ p' He) as [Ht Hc].
  assert (Hv : call_ok n v) by (apply nk_calls; [done|by eapply list_elem_of_lookup_2]).
  destruct Hv as [[Hto Hne] Hfresh (p0&Hp0&Hcand&Hle&Hgrant)].
  change (vc_from v) with a in Hp0. rewrite Ha in Hp0. injection Hp0 as <-.
  specialize (Hgrant resp Hresp). destruct (nk_count _ Hn a p T k true Ha Hpc) as (C1&C2&C3).
  pose proof (vote_step_cases p T k resp p' Hpc Hst) as Hcase.
  assert (Hid : id_of p' = id_of p) by (unfold id_of; by rewrite Hc).
  set (C' := if rvr_VoteGranted resp then _ else _).
  assert (HC : forall x, x ∈ C' -> x = call_key v /\ rvr_VoteGranted resp = true).
  { intros x. subst C'. destruct (rvr_VoteGranted resp); [|by intros ?%elem_of_nil].
    by intros ->%list_elem_of_singleton. }
  set (n' := mkNet _ _ _ _ _).
  assert (Hg : grows n n').
  { apply (moved_grows n a p p' _ []); try done; [|by rewrite app_nil_r]. split; [done|done|].
    destruct Hcase as [[-> _]|[[-> _]|(_&->&_)]]; [done|done|by intros x; right]. }
  assert (Hpoll : poll_ok P (<[a := mkView (id_of p') (term p') (vote p') (won p)]> (views n)) (ballots n')).
  { rewrite <-(app_nil_r (ballots n')). apply (evolves_poll n a p (LVote resp) p'); try done.
    by intros ? ? ? ?%elem_of_nil. }
  apply (net_moved n n' a p p' C'); try done.
  - apply (step_proc_ok p (LVote resp)); try done.
  - rewrite (views_insert n a p' n' eq_refl).
    destruct Hcase as [[Hw _]|[[Hw _]|(Hgr&Hw&_&Hq)]]; [unfold view_of; by rewrite Hw..|].
    destruct (counted_majority n a p T k to) as (Q&Q1&Q2&Q3&Q4); try done; [eauto|by apply Hgrant|].
    rewrite <-Hid in Q4.
    pose proof (poll_win P _ _ a _ T Q Hpoll (lookup_insert_eq _ _ _) Q1 Q2 Q3 Q4) as Hwin.
    rewrite insert_insert_eq in Hwin. unfold view_of. rewrite Hw. apply Hwin.
  - intros v0 Hin. left. by apply sent_before_in.
  - intros c Hin. eapply response_call; try done. by intros x [? _]%HC.
  - by apply delete_keys, Hn.
  - apply NoDup_app. split_and!; [apply Hn| |subst C'; destruct (rvr_VoteGranted resp); [apply NoDup_singleton|constructor]].
    intros x Hx [-> _]%HC. done.
  - intros x t' v' [[= -> -> ->] Hgr]%HC. split_and!; [done|done|]. exists p'. cbn.
    rewrite lookup_insert_eq, Hid. split_and!; [done|lia|by apply Hgrant].
  - intros t' k' b' Hx. rewrite (tally_app n n' C' a t' eq_refl), zlen_app.
    destruct Hcase as [[_ E]|[[_ E]|(_&_&E&_)]]; rewrite E in Hx; try done.
    injection Hx as <- <- _. rewrite Hid. split_and!; [lia|done|]. subst C'.
    destruct (rvr_VoteGranted resp); [rewrite filter_cons_True by done|]; cbn; [rewrite zlen_cons|]; 
      rewrite zlen_nil; lia.
Qed.

(** *** Every step, and every run *)

Lemma vote_lost_ok n i :
  net_ok n -> net_ok (mkNet (procs n) (delete i (calls n)) (appends n) (ballots n) (counted n)).
Proof.
  intros Hn. pose proof Hn as [K1 K2 K3 K4 K5 K6 K7 K8]. split; try done; cbn.
  - intros c Hc. assert (c ∈ calls n) as Hin by (by apply list_elem_of_delete_inv in Hc).
    destruct (K4 c Hin) as [C1 C2 C3]. by split.
  - by apply delete_keys.
Qed.

Lemma append_lost_ok n i :
  net_ok n -> net_ok (mkNet (procs n) (calls n) (delete i (appends n)) (ballots n) (counted n)).
Proof.
  intros Hn. pose proof Hn as [K1 K2 K3 K4 K5 K6 K7 K8]. split; try done; cbn.
  - intros v Hv. apply K3. by apply list_elem_of_delete_inv in Hv.
  - intros c Hc. destruct (K4 c Hc) as [C1 C2 C3]. by split.
Qed.

(** *** A crash

    The new process has the identifier of the old one and its wins, and leads and stands
    for nothing. *)
Lemma restarted_id p s p' : restarted p s p' -> id_of p' = id_of p.
Proof. intros Hr. unfold id_of. by rewrite (rs_config _ _ _ Hr). Qed.

Lemma recovers_term p p' : recovers (node p) (node p') -> term p <= term p'.
Proof. unfold recovers, term. lia. Qed.

Lemma restarted_proc p s p' : restarted p s p' -> recovers (node p) (node p') -> proc_ok p -> proc_ok p'.
Proof.
  intros Hr Hrec%recovers_term [K1 K2 K3 _ _]. pose proof (restarted_id p s p' Hr) as Hid.
  destruct Hr as [X1 _ _ _ Hs _ _ _ _ _ (Hpc&_) _].
  split; [by rewrite X1|congruence|lia|split|split]; unfold pc_inv; rewrite ?Hpc; try done; congruence.
Qed.

(** It votes at most where the old one had not. *)
Lemma restarted_moves V B a p s p' : restarted p s p' -> recovers (node p) (node p') ->
  moves V B a (view_of p) (view_of p') [].
Proof.
  intros Hr Hrec. split; cbn.
  - by eapply restarted_id.
  - apply (rs_won _ _ _ Hr).
  - by apply recovers_term.
  - intros Et. destruct Hrec as [Hlt|[_ [Hv|Hv]]]; [unfold term in Et; lia|by left|by right; left].
  - by intros v T c ?%elem_of_nil.
Qed.

Lemma restarted_grows n n' a p s p' :
  procs n !! a = Some p -> restarted p s p' -> recovers (node p) (node p') ->
  procs n' = <[a := p']> (procs n) -> ballots n' = ballots n -> grows n n'.
Proof.
  intros Ha Hr Hrec Ep Eb. split; [|by rewrite Eb]. intros b q Hb. rewrite Ep.
  destruct (decide (b = a)) as [->|Hne].
  - assert (q = p) as -> by congruence. exists p'. rewrite lookup_insert_eq, (rs_won _ _ _ Hr).
    split_and!; [done|by eapply restarted_id|by apply recovers_term|done].
  - exists q. by rewrite lookup_insert_ne.
Qed.

Lemma restart_ok n a ws n' : net_ok n -> calm n (NRestart a ws) -> restart_at n a ws = Some n' -> net_ok n'.
Proof.
  intros Hn Hcalm Hs. unfold restart_at in Hs. apply bind_Some in Hs as (p&Ha&Hs).
  apply bind_Some in Hs as (p'&Hp&[= <-]). specialize (Hcalm p p' Ha Hp).
  destruct (restart_spec p ws p' Hp) as (s&_&Hr). set (n' := mkNet _ _ _ _ _).
  pose proof (restarted_grows n n' a p s p' Ha Hr Hcalm eq_refl eq_refl) as Hg.
  assert (forall x q, procs n' !! x = Some q -> (x = a /\ q = p') \/ procs n !! x = Some q) as Hold.
  { intros x q Hx. change (<[a := p']> (procs n) !! x = Some q) in Hx.
    apply lookup_insert_Some in Hx as [[<- <-]|[_ ?]]; auto. }
  split.
  - rewrite (views_insert n a p' n' eq_refl), <-(app_nil_r (ballots n')).
    apply (poll_step P ids_distinct (views n) (ballots n) a (view_of p)); [by apply Hn| |].
    + apply views_lookup. eauto.
    + by eapply restarted_moves.
  - intros x q [[-> ->]|Hx]%Hold; [|by eapply nk_proc].
    apply (restarted_proc p s p'); [done..|by eapply nk_proc].
  - intros v Hv. eapply winner_grows; [exact Hg|]. by apply nk_append.
  - intros c Hc. eapply call_ok_grows; [exact Hg|done|by apply nk_calls].
  - apply Hn.
  - apply Hn.
  - intros x t v Hx. eapply counted_grows; [exact Hg|by apply nk_counted].
  - intros x q t k b [[-> ->]|Hx]%Hold Hq; [|exact (nk_count _ Hn x q t k b Hx Hq)].
    destruct (rs_goroutines _ _ _ Hr) as [E _]. congruence.
Qed.

Lemma local_ok n a l n' : net_ok n -> calm n (NStep a l) -> local_step n a l = Some n' -> net_ok n'.
Proof.
  intros Hn Hcalm Hs. unfold local_step in Hs. apply bind_Some in Hs as (p&Ha&Hs).
  destruct (from_outside l) eqn:Ho; [done|]. apply bind_Some in Hs as (p'&Hst&Hs). injection Hs as <-.
  assert (match l with LMain => pc p <> Electing | _ => True end \/ (l = LMain /\ pc p = Electing))
    as [Hl|[-> Hpc]].
  { destruct (decide (pc p = Electing)); destruct l; auto. }
  - by apply local_plain.
  - by apply electing_ok.
Qed.

Lemma nstep_ok n l n' : net_ok n -> calm n l -> nstep n l = Some n' -> net_ok n'.
Proof.
  destruct l as [a l|i|i|i|i|i k|i|a ws]; intros Hn Hcalm Hs.
  - by eapply local_ok.
  - by eapply vote_request_ok.
  - by eapply vote_response_ok.
  - injection Hs as <-. by apply vote_lost_ok.
  - by eapply append_ok.
  - by eapply append_response_ok.
  - injection Hs as <-. by apply append_lost_ok.
  - by eapply restart_ok.
Qed.

Fixpoint calm_run n (ls : list nlabel) : Prop :=
  match ls with
  | [] => True
  | l :: ls' => calm n l /\ match nstep n l with Some n' => calm_run n' ls' | None => True end
  end.

Lemma nsteps_ok ls n n' : net_ok n -> calm_run n ls -> nsteps n ls = Some n' -> net_ok n'.
Proof.
  revert n. induction ls as [|l ls IH]; intros n Hn Hc Hs; cbn in Hc, Hs; [by injection Hs as <-|].
  destruct Hc as [Hc Hcr]. destruct (nstep n l) as [n1|] eqn:E; [|done].
  apply (IH n1); [by eapply nstep_ok|done|done].
Qed.

(** A node that is started: a follower of the configuration, at its address, with
    whatever term, vote and log its stores hold. *)
Record booted (a : text) (r : RaftNode L Sb F R) : Prop := mk_booted {
  bt_state : state r = Follower;
  bt_peers : Peers (config r) = P;
  bt_id : ServerID (config r) <> [];
  bt_address : exists q, q ∈ P /\ PeerID q = ServerID (config r) /\ Address q = a;
  bt_term : 0 <= currentTerm r
}.

Lemma boot_ok (nodes : gmap text (RaftNode L Sb F R)) :
  (forall a r, nodes !! a = Some r -> booted a r) -> net_ok (boot nodes).
Proof.
  intros Hb.
  assert (Hp : forall a p, procs (boot nodes) !! a = Some p -> exists r, booted a r /\ p = start r).
  { intros a p Ha. cbn in Ha. rewrite lookup_fmap in Ha.
    destruct (nodes !! a) as [r|] eqn:E; [|done]. injection Ha as <-. eauto. }
  split.
  - split.
    + intros a w (p&(r&Hr&->)%Hp&->)%views_lookup. apply Hr.
    + by intros v T c ?%elem_of_nil.
    + by intros T _ v c ?%elem_of_nil.
    + intros T a w (p&(r&Hr&->)%Hp&->)%views_lookup HT. by apply elem_of_nil in HT.
  - intros a p (r&Hr&->)%Hp. split; [apply Hr..| |].
    + apply leader_inv_start, Hr.
    + apply vote_inv_start, Hr.
  - by intros v ?%elem_of_nil.
  - by intros c ?%elem_of_nil.
  - constructor.
  - constructor.
  - by intros a t v ?%elem_of_nil.
  - intros a p t k b (r&Hr&->)%Hp Hpc. done.
Qed.

End cluster.

(** Servers of one configuration, whose identifiers are distinct, and whose addresses
    are. *)
Record cluster {L Sb F R} (P : list PeerConfig) (nodes : gmap text (RaftNode L Sb F R)) : Prop := mk_cluster {
  cl_ids : NoDup (PeerID <$> P);
  cl_addrs : NoDup (Address <$> P);
  cl_nodes : forall a r, nodes !! a = Some r -> booted P a r
}.

(** What the invariant says of two leaders. *)
Lemma leaders_unique {L Sb F R} `{LogStore L} `{StableStoreSpec Sb} `{FSM F R}
    (P : list PeerConfig) (n : network L Sb F R) a b p q :
  NoDup (PeerID <$> P) -> net_ok P n -> procs n !! a = Some p -> procs n !! b = Some q ->
  state (node p) = Leader -> state (node q) = Leader ->
  currentTerm (node p) = currentTerm (node q) -> a = b.
Proof.
  intros HP Hn Ha Hb Hp Hq Ht.
  apply (winner_unique P HP (views n) (ballots n) (currentTerm (node p))); [apply Hn|..];
    apply winner_views.
  - exists p. split; [done|]. by apply (nk_proc P _ Hn a p Ha).
  - exists q. split; [done|]. rewrite Ht. by apply (nk_proc P _ Hn b q Hb).
Qed.

Lemma cluster_run_ok {L Sb F R} `{LogStore L} `{StableStoreSpec Sb} `{FSM F R}
    (P : list PeerConfig) (nodes : gmap text (RaftNode L Sb F R)) ls n :
  cluster P nodes -> calm_run (boot nodes) ls -> nsteps (boot nodes) ls = Some n -> net_ok P n.
Proof.
  intros [C1 C2 C3] Hcalm Hs. eapply nsteps_ok; [done|done|by apply boot_ok|done|done].
Qed.


#[local] Instance unit_member : FSM unit unit := { fsm_Apply f _ := Ret (f, None) }.

(** The cluster of [demo_peers]; n1 and n2 ask for votes in term 1, and n3 votes for n1. *)
Definition demo_nodes : gmap text (RaftNode InmemLogStore InmemStableStore unit unit) :=
  {[ bytes_of "h1" := demo_node "n1" 0 Follower [];
     bytes_of "h2" := demo_node "n2" 0 Follower [];
     bytes_of "h3" := demo_node "n3" 0 Follower [] ]}.

Definition demo_candidate (a : string) : list nlabel :=
  NStep (bytes_of a) <$> [LMain; LMain; LTimer; LMain; LMain].

(** The calls are n1 to n2, n1 to n3, n2 to n1 and n2 to n3, in this order. *)
Definition demo_race : list nlabel :=
  demo_candidate "h1" ++ demo_candidate "h2" ++
  [NStep (bytes_of "h3") LMain; NStep (bytes_of "h3") LMain; NVoteRequest 1;
   NStep (bytes_of "h3") LMain; NVoteRequest 3; NStep (bytes_of "h1") LMain; NVoteResponse 1;
   NStep (bytes_of "h1") LMain; NStep (bytes_of "h2") LMain; NVoteResponse 2].

Definition demo_net : network InmemLogStore InmemStableStore unit unit :=
  default (boot demo_nodes) (nsteps (boot demo_nodes) demo_race).

Definition demo_winner : proc InmemLogStore InmemStableStore unit unit :=
  default (start (demo_node "n1" 0 Follower [])) (procs demo_net !! bytes_of "h1").

(** [calm_run], decided. *)
Definition politeb {L Sb F R} (p : proc L Sb F R) (resp : AppendEntriesResponse) : bool :=
  match pc p with
  | InCandidate _ _ true | Elected _ => aer_Term resp <=? currentTerm (node p)
  | _ => true
  end.

Definition recoversb {L Sb F R} (r r' : RaftNode L Sb F R) : bool :=
  (currentTerm r <? currentTerm r') ||
  ((currentTerm r' =? currentTerm r) && (bool_decide (votedFor r' = votedFor r) || bool_decide (votedFor r = []))).

Definition calmb {L Sb F R} `{LogStore L} `{StableStore Sb} `{FSM F R} (n : network L Sb F R) (l : nlabel) : bool :=
  match l with
  | NStep a _ => match procs n !! a with Some p => term p <? max_uint | None => true end
  | NAppendResponse i _ =>
      match v ← appends n !! i; resp ← ac_resp v; p ← procs n !! ac_from v; Some (politeb p resp) with
      | Some b => b
      | None => true
      end
  | NRestart a ws =>
      match p ← procs n !! a; p' ← restart p ws; Some (recoversb (node p) (node p')) with
      | Some b => b
      | None => true
      end
  | _ => true
  end.

Fixpoint calm_runb {L Sb F R} `{LogStore L} `{StableStore Sb} `{FSM F R} (n : network L Sb F R)
    (ls : list nlabel) : bool :=
  match ls with
  | [] => true
  | l :: ls' => calmb n l && match nstep n l with Some n' => calm_runb n' ls' | None => true end
  end.

Lemma recoversb_recovers {L Sb F R} (r r' : RaftNode L Sb F R) : recoversb r r' = true -> recovers r r'.
Proof.
  unfold recoversb, recovers. intros [Hq%Z.ltb_lt|[Et%Z.eqb_eq Hq]%andb_prop]%orb_prop; [by left|right].
  split; [done|]. apply orb_prop in Hq as [Hq|Hq]; apply bool_decide_eq_true in Hq; auto.
Qed.

Lemma calmb_calm {L Sb F R} `{LogStore L} `{StableStore Sb} `{FSM F R} (n : network L Sb F R) l :
  calmb n l = true -> calm n l.
Proof.
  destruct l as [a l|i|i|i|i|i k|i|a ws]; try done; cbn; intros Hq.
  - intros p Hp. rewrite Hp in Hq. by apply Z.ltb_lt.
  - intros v resp p Hv Hr Hp. rewrite Hv in Hq. cbn in Hq. rewrite Hr in Hq. cbn in Hq. rewrite Hp in Hq.
    cbn in Hq. unfold politeb in Hq. unfold polite.
    destruct k; cbn; destruct (pc p) as [| | |t v0 []|t| | | |]; try done; by apply Z.leb_le.
  - intros p p' Hp Hr. rewrite Hp in Hq. cbn in Hq. rewrite Hr in Hq. by apply recoversb_recovers.
Qed.

Lemma calm_runb_calm {L Sb F R} `{LogStore L} `{StableStore Sb} `{FSM F R} (n : network L Sb F R) ls :
  calm_runb n ls = true -> calm_run n ls.
Proof.
  revert n. induction ls as [|l ls IH]; intros n Hq; [done|].
  cbn [calm_runb] in Hq. apply andb_prop in Hq as [Hl Hq]. split; [by apply calmb_calm|].
  destruct (nstep n l); [by apply IH|done].
Qed.

Lemma demo_booted (id a : string) :
  bytes_of id <> [] -> mkPeer (bytes_of id) (bytes_of a) ∈ demo_peers ->
  booted demo_peers (bytes_of a) (demo_node id 0 Follower []).
Proof. intros Hid Hin. split; try done. by exists (mkPeer (bytes_of id) (bytes_of a)). Qed.

Lemma demo_cluster : cluster demo_peers demo_nodes.
Proof.
  split; [apply (bool_decide_unpack _); vm_compute; exact I..|].
  intros a r Hr. unfold demo_nodes in Hr.
  repeat (apply lookup_insert_Some in Hr as [[<- <-]|[_ Hr]];
    [apply demo_booted; [done|unfold demo_peers; set_solver]|]).
  apply lookup_singleton_Some in Hr as [<- <-]. apply demo_booted; [done|unfold demo_peers; set_solver].
Qed.

