(* ===== verification/LogMatching.v ===== *)
(** Log matching across a cluster ([handleAppendEntries], [replicateOnce],
    [handleApplyRequest] and [appendNoOp] of [internal/raft]): two entries with the same
    index and term, on any two servers, are equal, and so is everything before them.

    A history gives every term the log of its leader; every log of the cluster is made
    of pieces of the history, and a leader's log is the history of its term. *)
From S2P Require Import Prelude Stores Future Config Node Election Replication Rpc Leader Machine.
From S2P Require Import Restart Frame Network ElectionSafety.

(** * Histories *)

Notation history := (gmap Z (list LogEntry)).

(** Up to each entry, the log is that of the leader of the entry's term. *)
Definition tracked (H : history) (l : list LogEntry) : Prop :=
  forall i e, l !! i = Some e -> exists h, H !! Term e = Some h /\ take (i + 1) l = take (i + 1) h.

(** A leader's log only grows. *)
Definition extends (H H' : history) : Prop :=
  forall T h, H !! T = Some h -> exists k, H' !! T = Some (h ++ k).

Lemma tracked_matching H l k : tracked H l -> tracked H k -> matching l k.
Proof.
  intros Hl Hk i x y Hx Hy Ht. destruct (Hl i x Hx) as (h&Hh&->).
  destruct (Hk i y Hy) as (h'&Hh'&->). rewrite Ht in Hh. congruence.
Qed.

Lemma tracked_nil H : tracked H [].
Proof. intros i e Hi. by rewrite lookup_nil in Hi. Qed.

Lemma tracked_take H l n : tracked H l -> tracked H (take n l).
Proof.
  intros Hl i e [Hi Hn]%lookup_take_Some. destruct (Hl i e Hi) as (h&Hh&Ht). exists h.
  split; [done|]. rewrite take_take, Nat.min_l by lia. done.
Qed.

Lemma extends_refl H : extends H H.
Proof. intros T h Hh. exists []. by rewrite app_nil_r. Qed.

Lemma tracked_extends H H' l : extends H H' -> tracked H l -> tracked H' l.
Proof.
  intros He Hl i e Hi. destruct (Hl i e Hi) as (h&Hh&Ht). destruct (He _ _ Hh) as [k Hk].
  exists (h ++ k). split; [done|]. rewrite Ht. symmetry. apply take_app_le.
  apply lookup_lt_Some in Hi. apply (f_equal length) in Ht. rewrite !length_take in Ht. lia.
Qed.

(** A leader takes office with its log. *)
Lemma extends_office H T l : H !! T = None -> extends H (<[T := l]> H).
Proof.
  intros Hn T' h Hh. exists []. rewrite app_nil_r, lookup_insert_ne; [done|]. by intros ->; congruence.
Qed.

(** It appends entries of its term. *)
Lemma extends_append H T l k : H !! T = Some l -> extends H (<[T := l ++ k]> H).
Proof.
  intros Hl T' h Hh. destruct (decide (T' = T)) as [->|Hne].
  - exists k. rewrite lookup_insert_eq. congruence.
  - exists []. by rewrite app_nil_r, lookup_insert_ne.
Qed.

Lemma tracked_append H T l e :
  H !! T = Some l -> Term e = T -> tracked H l -> tracked (<[T := l ++ [e]]> H) (l ++ [e]).
Proof.
  intros Hl He Ht i x Hi. destruct (decide (i < length l)%nat) as [Hlt|Hge].
  - rewrite lookup_app_l in Hi by done.
    destruct (tracked_extends H (<[T := l ++ [e]]> H) l) with (i := i) (e := x) as (h&Hh&Htk);
      [by apply extends_append|done|done|].
    exists h. split; [done|]. rewrite <-Htk. apply take_app_le. lia.
  - rewrite lookup_app_r in Hi by lia. apply list_lookup_singleton_Some in Hi as [Hi <-].
    exists (l ++ [e]). by rewrite He, lookup_insert_eq.
Qed.

(** What a request carries: a piece of the log of its term's leader, or a place in the
    log that no server has. *)
Definition request_ok (H : history) (req : AppendEntriesRequest) : Prop :=
  (exists h k m, H !! ae_Term req = Some h /\ sent_from h req k m) \/
  (0 < ae_PrevLogIndex req <= max_uint /\ ae_PrevLogTerm req = 0).

Lemma sent_from_app ll x req k n : sent_from ll req k n -> sent_from (ll ++ x) req k n.
Proof.
  intros [S1 S2 S3 S4]. split; [done|rewrite length_app; lia| |].
  - destruct S3 as [->|(y&Hy&Ht)]; [by left|right]. exists y. split; [|done].
    apply lookup_app_l_Some, Hy.
  - rewrite drop_app_le, take_app_le by (rewrite ?length_drop; lia). done.
Qed.

Lemma request_ok_extends H H' req : extends H H' -> request_ok H req -> request_ok H' req.
Proof.
  intros He [(h&k&m&Hh&Hs)|Hb]; [left|by right]. destruct (He _ _ Hh) as [x Hx].
  exists (h ++ x), k, m. split; [done|by apply sent_from_app].
Qed.

(** * One node *)

Section node.
  Context {L Sb F R : Type} `{LogStoreSpec L} `{StableStoreSpec Sb} `{FSM F R}.
  Implicit Types r : RaftNode L Sb F R.
  Implicit Types p : proc L Sb F R.

(** A store represents one log. *)
Lemma repr_unique s l k : zlen l <= max_uint -> repr s l -> repr s k -> l = k.
Proof.
  intros Hm Hl Hk. pose proof (LastIndex_spec s l Hl) as El. rewrite (LastIndex_spec s k Hk) in El.
  injection El as El. assert (length l = length k) as Hlen by (unfold zlen in El; lia).
  apply list_eq. intros i. destruct (l !! i) as [x|] eqn:Hx.
  - destruct (lookup_lt_is_Some_2 k i) as [y Hy]; [apply lookup_lt_Some in Hx; lia|].
    rewrite Hy. replace i with (Z.to_nat (Z.of_nat i + 1 - 1)) in Hx, Hy by lia.
    apply (GetLog_hit s l _ x Hl) in Hx; [|lia]. apply (GetLog_hit s k _ y Hk) in Hy; [|lia]. congruence.
  - apply lookup_ge_None_1 in Hx. symmetry. apply lookup_ge_None_2. lia.
Qed.

(** From the assignment of [Leader] to the end of [appendNoOp], and as long as the node
    is leader, its log is the log of its term. [appendNoOp] does not look at the state. *)
Definition in_charge p : Prop := state (node p) = Leader \/ pc p = LeaderInit \/ pc p = LeaderNoOp.

(** No answer brings a newer term between the start of [runLeader] and the no-op entry. *)
Definition steady p (l : label) : Prop :=
  match l with
  | LResponse _ resp | LStaleResponse _ resp =>
      pc p = LeaderInit \/ pc p = LeaderNoOp -> aer_Term resp <= currentTerm (node p)
  | _ => True
  end.

(** Answers hold uint64 values. *)
Definition fits (l : label) : Prop :=
  match l with
  | LResponse _ resp | LStaleResponse _ resp => aer_ConflictIndex resp <= max_uint
  | _ => True
  end.

(** ** The peers' [nextIndex] and the log *)

Definition next_ok (q : peerState) : Prop := 0 <= nextIndex q <= max_uint.

Definition nexts_ok r : Prop := map_Forall (fun _ => next_ok) (peers r).

Record peers_ok p : Prop := mk_peers_ok {
  ok_peers : nexts_ok (node p);
  ok_stale : Forall (fun q => next_ok (rp_peer q)) (stale p)
}.

Lemma back_up_range log resp next :
  aer_ConflictIndex resp <= max_uint -> back_up log resp = Ret next -> 0 <= next <= max_uint.
Proof.
  intros Hc Hb. unfold back_up in Hb. apply bind_ret in Hb as (i&Hi&Hx).
  assert (i <= max_uint) as Hle.
  { destruct (0 <? aer_ConflictTerm resp); [|injection Hi as <-; done].
    apply bind_ret in Hi as (c&_&Hi). destruct (0 <? c); injection Hi as <-; [|done].
    apply uwrap64_range. }
  destruct (Z.ltb_spec i 1); injection Hx as <-; unfold max_uint in *; lia.
Qed.

Lemma sent_next_ok es q :
  next_ok q -> next_ok (match last es with
    | Some e => set_next (Index e +ᵤ 1)%go (set_match (Index e) q) | None => q end).
Proof. intros Hq. destruct (last es); [|done]. apply uwrap64_range. Qed.

Lemma nexts_ok_kept r r' : kept r r' -> nexts_ok r -> nexts_ok r'.
Proof. unfold nexts_ok. by intros [_ _ ->]. Qed.

Lemma replicate_process_log r id es resp r' :
  replicate_process r id es resp = Ret r' -> logStore r' = logStore r /\
  (aer_ConflictIndex resp <= max_uint -> nexts_ok r -> nexts_ok r').
Proof.
  unfold replicate_process. destruct (currentTerm r <? aer_Term resp).
  { intros Hk%stepDown_kept. split; [apply Hk|]. intros _. by apply nexts_ok_kept. }
  destruct (peers r !! id) as [q|] eqn:Hq.
  - destruct (aer_Success resp).
    + intros [E1 E2]%advanceCommitIndex_log. split; [exact E1|]. intros _ Ho. unfold nexts_ok.
      rewrite E2. apply map_Forall_insert_2; [|exact Ho]. apply sent_next_ok. by apply (Ho id).
    + intros (next&Hb&Hx)%bind_ret. injection Hx as <-. split; [done|]. intros Hc Ho.
      apply map_Forall_insert_2; [|exact Ho]. by apply (back_up_range (logStore r) resp).
  - destruct (aer_Success resp).
    + intros [E1 E2]%advanceCommitIndex_log. split; [exact E1|]. intros _ Ho. unfold nexts_ok. by rewrite E2.
    + intros Hx. by injection Hx as <-.
Qed.

Lemma initLeader_nexts r : nexts_ok (initLeader r).
Proof. intros id x [E _]%initLeader_peers. unfold next_ok. rewrite E. apply uwrap64_range. Qed.

Lemma trigger_nexts r : nexts_ok r -> nexts_ok (triggerReplication r).
Proof.
  unfold nexts_ok, triggerReplication. cbn [peers set_peers]. intros Ho.
  apply map_Forall_fmap. intros id q Hq. by apply (Ho id q).
Qed.

(** Storing an entry of the leader, for [appendNoOp] and [handleApplyRequest]. *)
Lemma appendNoOp_nexts r r' : appendNoOp r = Ret r' -> nexts_ok r -> nexts_ok r'.
Proof.
  unfold appendNoOp, or_log. destruct (StoreLog (logStore r) (next_entry r [])); intros Hx; try done;
    injection Hx as <-; [|done]. intros Ho. by apply trigger_nexts.
Qed.

Lemma handleApplyRequest_nexts r req r' :
  handleApplyRequest r req = Ret r' -> nexts_ok r -> nexts_ok r'.
Proof.
  unfold handleApplyRequest. destruct (negb _).
  { intros [= <-]. apply nexts_ok_kept, resolve_kept. }
  destruct (StoreLog _ _); intros Hx; try done; injection Hx as <-.
  - intros Ho. by apply trigger_nexts.
  - apply nexts_ok_kept, resolve_kept.
Qed.

(** The steps that write the log. *)
Definition writes p (l : label) : bool :=
  match l, pc p with
  | LMain, LeaderNoOp | LRequest, _ | LCommand (CAppendEntries _), _ => true
  | _, _ => false
  end.

(** What a step does to the log and to the peers. *)
Definition upkeep p (l : label) p' : Prop :=
  (writes p l = false -> logStore (node p') = logStore (node p)) /\
  (peers_ok p -> fits l -> peers_ok p').

Lemma upkeep_kept p l r k w : kept (node p) r -> upkeep p l (mkProc r k (inflight p) (stale p) (applying p) w).
Proof.
  intros Hk. split; [intros _; apply Hk|]. intros [O1 O2] _. split; [|done].
  by eapply nexts_ok_kept.
Qed.

Lemma main_upkeep p p' : main_step p = Some p' -> upkeep p LMain p'.
Proof.
  intros Hs. unfold main_step in Hs. destruct (pc p) as [|[]| |t v []|t| | |[]|] eqn:Hpc;
    try (destruct (shutdownCh (node p)); [|done]);
    try (injection Hs as <-; apply upkeep_kept; first [apply kept_refl|apply becomeLeader_kept|apply fail_all_kept]).
  - destruct (shutdownCh (node p)), (state (node p)); injection Hs as <-; apply upkeep_kept, kept_refl.
  - apply try_some in Hs as ([[r' req] addrs]&He%startElection_kept&Hs). cbn [fst] in Hs.
    destruct (quorum r' <=? 1); injection Hs as <-; by apply upkeep_kept.
  - injection Hs as <-. split; [done|]. intros [O1 O2] _. split; [apply initLeader_nexts|].
    cbn [stale]. unfold retire. apply Forall_app_2; [|done]. apply Forall_fmap, Forall_forall.
    intros [id q] Hq%elem_of_map_to_list. by apply (O1 id q).
  - apply try_some in Hs as (r'&Hr&[= <-]). split; [unfold writes; by rewrite Hpc|].
    intros [O1 O2] _. split; [by eapply appendNoOp_nexts|done].
  - case_bool_decide; injection Hs as <-; apply upkeep_kept; [apply kept_refl|apply fail_all_kept].
  - done.
Qed.

Lemma command_kept p cmd p' : command_step p cmd = Some p' -> exists r' resp b,
  handleRPC (node p) cmd = Ret (r', resp, b) /\ kept r' (node p') /\ stale p' = stale p.
Proof.
  unfold command_step. intros Hs. destruct (pc p) as [|[]| |t v []|t| | |[]|]; try done;
    apply try_some in Hs as ([[r' resp] b]&Hh&Hs); cbn [fst snd] in Hs; exists r', resp, b;
    (split; [done|]); repeat case_match; injection Hs as <-; (split; [|done]);
    first [apply kept_refl|apply fail_all_kept].
Qed.

Lemma command_upkeep p cmd p' : command_step p cmd = Some p' -> upkeep p (LCommand cmd) p'.
Proof.
  intros (r'&resp&b&Hh&Hk&Est)%command_kept.
  assert (peers r' = peers (node p) /\ (writes p (LCommand cmd) = false -> logStore r' = logStore (node p)))
    as [Ep El].
  { destruct cmd as [req|req|].
    - split; [|done]. simpl in Hh. apply bind_ret in Hh as ([[r1 resp1] b1]&Hh&Hx).
      injection Hx as <- _ _. by eapply handleAppendEntries_peers.
    - by destruct (handleRPC_kept (node p) (CRequestVote req) r' resp b) as [? ? ?].
    - by destruct (handleRPC_kept (node p) COther r' resp b) as [? ? ?]. }
  split; [intros Hw; rewrite <-(El Hw); apply Hk|]. intros [O1 O2] _. split; [|by rewrite Est].
  unfold nexts_ok. by rewrite (kp_peers _ _ Hk), Ep.
Qed.

Lemma upkeep_node p l p' :
  logStore (node p') = logStore (node p) -> peers (node p') = peers (node p) -> stale p' = stale p ->
  upkeep p l p'.
Proof.
  intros E1 E2 E3. split; [done|]. intros [O1 O2] _. split; [unfold nexts_ok; by rewrite E2|by rewrite E3].
Qed.

Lemma stale_upkeep p k resp p' : stale_response p k resp = Some p' -> upkeep p (LStaleResponse k resp) p'.
Proof.
  unfold stale_response. destruct (stale p !! k) as [[q [es|]]|] eqn:Hk; try done.
  assert (forall r q', logStore r = logStore (node p) -> peers r = peers (node p) ->
    (next_ok q -> aer_ConflictIndex resp <= max_uint -> next_ok (rp_peer q')) ->
    upkeep p (LStaleResponse k resp) (set_stale p r k q')) as Hset.
  { intros r q' E1 E2 Hq. split; [done|]. intros [O1 O2] Hc. split; [unfold nexts_ok; cbn; by rewrite E2|].
    cbn. apply Forall_insert; [done|]. apply Hq; [|done]. by apply (Forall_lookup_1 _ _ _ _ O2 Hk). }
  destruct (currentTerm (node p) <? aer_Term resp).
  { intros (r'&Hr%stepDown_kept&[= <-])%try_some. apply Hset; [apply Hr..|done]. }
  destruct (aer_Success resp).
  - intros (r'&[E1 E2]%advanceCommitIndex_log&[= <-])%try_some. apply Hset; [done..|].
    intros Hq _. by apply sent_next_ok.
  - intros (next&Hb&[= <-])%try_some. apply Hset; [done..|]. intros _ Hc. by eapply back_up_range.
Qed.

Lemma step_upkeep p l p' : step p l = Some p' -> upkeep p l p'.
Proof.
  intros Hs. destruct l as [|cmd| |resp| |id|id resp|id|k|k resp| | |data c|f|f|]; simpl in Hs.
  - by apply main_upkeep.
  - by apply command_upkeep.
  - unfold timer_step in Hs. destruct (pc p) as [|[]| |t v []|t| | |[]|]; try done;
      injection Hs as <-; by apply upkeep_kept.
  - unfold vote_step in Hs. destruct (pc p) as [|[]| |t v []|t| | |[]|]; try done.
    destruct (currentTerm (node p) <? rvr_Term resp).
    { apply try_some in Hs as (r'&Hr%stepDown_kept&[= <-]). by apply upkeep_kept. }
    destruct (rvr_VoteGranted resp); [destruct (_ <=? _)|]; injection Hs as <-;
      apply upkeep_kept, kept_refl.
  - unfold request_step in Hs. destruct (pc p) as [|[]| |t v []|t| | |[]|]; try done.
    destruct (applyCh (node p)) as [|req rest]; [done|].
    apply try_some in Hs as (r'&Hr&[= <-]). split; [done|]. intros [O1 O2] _. split; [|done].
    by apply (handleApplyRequest_nexts _ _ _ Hr).
  - unfold send_step in Hs. destruct (peers (node p) !! id), (inflight p !! id); try done.
    apply try_some in Hs as ([req|]&_&Hs); [|done]. injection Hs as <-. by apply upkeep_node.
  - unfold response_step in Hs. destruct (inflight p !! id) as [es|]; [|done].
    apply try_some in Hs as (r'&[E1 E2]%replicate_process_log&[= <-]). split; [done|].
    intros [O1 O2] Hc. split; [by apply E2|done].
  - injection Hs as <-. by apply upkeep_node.
  - unfold stale_send in Hs. destruct (stale p !! k) as [[q [es|]]|] eqn:Hk; try done.
    apply try_some in Hs as ([req|]&_&Hs); [|done]. injection Hs as <-. split; [done|].
    intros [O1 O2] _. split; [done|]. cbn. apply Forall_insert; [done|].
    by apply (Forall_lookup_1 _ _ _ _ O2 Hk).
  - by apply stale_upkeep.
  - unfold apply_wake in Hs. destruct (applying p), (commitNotifyCh (node p)); try done.
    injection Hs as <-. by apply upkeep_node.
  - unfold apply_next in Hs. destruct (applying p) as [[idx c]|]; [|done]. destruct (idx <=? c).
    + apply try_some in Hs as (r'&[E1 E2]%apply_one_log&[= <-]). by apply upkeep_node.
    + injection Hs as <-. by apply upkeep_node.
  - destruct (choice_ready (node p) c); [|done]. injection Hs as <-. apply upkeep_kept, Apply_kept.
  - injection Hs as <-. apply upkeep_kept, resolve_kept.
  - apply wait_step_spec in Hs as [m ->]. by apply upkeep_node.
  - injection Hs as <-. apply upkeep_kept, Shutdown_kept.
Qed.

(** ** Who is in charge *)

(** A node is in charge after a step when it was so before, in the same term, or when
    it assigns [Leader]. *)
Lemma background_charge p l p' :
  background l = true -> steady p l -> step p l = Some p' -> in_charge p' ->
  in_charge p /\ term p' = term p.
Proof.
  intros Hb Hst Hs Hc. destruct (background_drift p l p' Hb Hs) as (Hpc&_&Hd).
  unfold in_charge, term in *. rewrite Hpc in Hc.
  destruct Hd as [(Es&Et&_)%role_proj|t Hn Hlt (Es&Et&_)%role_proj|(Es&Et&_)%role_proj].
  - by rewrite Es in Hc.
  - destruct Hc as [Hc|Hc]; [congruence|]. exfalso.
    destruct l; try done; simpl in Hn; specialize (Hst Hc); lia.
  - destruct Hc as [Hc|Hc]; [congruence|]. auto.
Qed.

Lemma charge_role p p' : role (node p') = role (node p) -> pc p' = AtRun ->
  in_charge p' -> in_charge p /\ term p' = term p.
Proof.
  intros (Es&Et&_)%role_proj Hpc [Hc|[Hc|Hc]]; [|congruence..].
  split; [left; congruence|exact Et].
Qed.

Lemma main_charge p p' : leader_inv p -> main_step p = Some p' -> in_charge p' ->
  (in_charge p /\ term p' = term p) \/ (exists t, pc p = Elected t).
Proof.
  intros [_ Hi] Hs Hc. unfold main_step in Hs. unfold pc_inv in Hi. unfold in_charge, term in *.
  destruct (pc p) as [|[]| |t v []|t| | |[]|] eqn:Hpc; [| | | | | |right; by exists t|..]; left.
  - destruct (shutdownCh (node p)); [|destruct (state (node p)) eqn:Es]; injection Hs as <-; cbn in Hc;
      destruct Hc as [Hc|[Hc|Hc]]; try done; try congruence; auto.
  - destruct (shutdownCh (node p)); [|done]. injection Hs as <-. cbn in Hc. intuition congruence.
  - injection Hs as <-. cbn in Hc. case_bool_decide; intuition congruence.
  - apply try_some in Hs as ([[r' req] addrs]&He&Hs). cbn [fst] in Hs.
    apply startElection_role in He as [(Es&_)%role_proj _].
    destruct (quorum r' <=? 1); injection Hs as <-; cbn in Hc; intuition congruence.
  - destruct (shutdownCh (node p)); [|done]. injection Hs as <-. cbn in Hc. intuition congruence.
  - injection Hs as <-. cbn in Hc. case_bool_decide; intuition congruence.
  - injection Hs as <-. auto.
  - apply try_some in Hs as (r'&Hr%appendNoOp_role&[= <-]). apply role_proj in Hr as (_&Et&_). auto.
  - destruct (shutdownCh (node p)); [|done]. injection Hs as <-.
    rewrite <-Hpc. exact (charge_role p (goto p (failPendingFutures (node p)) AtRun) (fail_all_role _ _) eq_refl Hc).
  - case_bool_decide; injection Hs as <-; [cbn in Hc; intuition congruence|].
    rewrite <-Hpc. exact (charge_role p (goto p (failPendingFutures (node p)) AtRun) (fail_all_role _ _) eq_refl Hc).
  - done.
Qed.

Lemma command_leads p cmd p' : command_step p cmd = Some p' -> in_charge p' -> state (node p') = Leader.
Proof.
  intros Hs [Hc|Hc]; [done|]. exfalso. apply command_node in Hs as (r'&resp&b&_&_&_&Hpc).
  destruct Hpc as [[_ E]|[(t&v&_&[(_&_&E)|(_&E)])|(_&[(_&E)|(_&E)])]]; intuition congruence.
Qed.

Lemma command_charge p cmd p' : command_step p cmd = Some p' -> in_charge p' ->
  in_charge p /\ term p' = term p.
Proof.
  intros Hs Hc. pose proof (command_leads p cmd p' Hs Hc) as Hl.
  apply command_node in Hs as (r'&resp&b&Hh&(Es&Et&_)%role_proj&_). unfold in_charge, term.
  destruct (handleRPC_role _ _ _ _ _ Hh) as [[E1 E2]|E]; [|congruence].
  split; [left; congruence|congruence].
Qed.

Lemma step_charge p l p' :
  leader_inv p -> steady p l -> step p l = Some p' -> in_charge p' ->
  (in_charge p /\ term p' = term p) \/ (l = LMain /\ exists t, pc p = Elected t).
Proof.
  intros Hi Hst Hs Hc. destruct (background l) eqn:Hb; [left; by eapply background_charge|].
  destruct l as [|cmd| |resp| |id|id resp|id|k|k resp| | |data c|f|f|]; try done; simpl in Hs.
  - destruct (main_charge p p' Hi Hs Hc) as [?|?]; auto.
  - left. by eapply command_charge.
  - left. unfold timer_step, in_charge, term in *. destruct (pc p) as [|[]| |t v []|t| | |[]|]; try done;
      injection Hs as <-; cbn in Hc; intuition congruence.
  - left. unfold vote_step, in_charge, term in *.
    destruct (pc p) as [|[]| |t v []|t| | |[]|]; try done.
    destruct (currentTerm (node p) <? rvr_Term resp).
    { apply try_some in Hs as (r'&(Es&_)%stepDown_role%role_proj&[= <-]). cbn in Hc. intuition congruence. }
    destruct (rvr_VoteGranted resp); [destruct (_ <=? _)|]; injection Hs as <-; cbn in Hc;
      intuition congruence.
  - left. apply request_step_role in Hs as (Hpc&Hpc'&_&(Es&Et&_)%role_proj).
    unfold in_charge, term in *. rewrite Es, Hpc' in Hc. intuition congruence.
Qed.

(** ** Terms won and terms led *)

Record office p : Prop := mk_office {
  of_won : forall t, t ∈ won p -> 1 <= t <= term p;
  of_candidate : forall t v b, pc p = InCandidate t v b -> t ∉ won p /\ 1 <= t <= term p;
  of_charge : in_charge p -> term p ∈ won p
}.

(** A step that starts or wins an election does so for a term that was not won before. *)
Lemma step_won p l p' :
  office p -> evolves p l p' -> (l = LMain -> 0 <= term p < max_uint) -> step p l = Some p' ->
  (won p' = won p /\ (forall t v b, pc p' = InCandidate t v b -> exists v' b', pc p = InCandidate t v' b') /\
    (forall t, pc p' = Elected t -> pc p = Elected t)) \/
  (exists t, 1 <= t <= term p' /\ t ∉ won p /\
    ((won p' = won p /\ exists v b, pc p' = InCandidate t v b) \/
     (won p' = t :: won p /\ pc p' = Elected t))).
Proof.
  intros [O1 O2 _] He Hr Hs.
  destruct (evolves_moves p l p' He) as [Ht _].
  assert ((l = LMain /\ pc p = Electing) \/ ~ (l = LMain /\ pc p = Electing)) as [[-> Hpc]|Hne].
  { destruct (decide (pc p = Electing)), l; intuition congruence. }
  { right. simpl in Hs. pose proof Hs as Hs0. unfold main_step in Hs0. rewrite Hpc in Hs0.
    apply try_some in Hs0 as ([[r' req] to]&He0&_).
    destruct (electing_step p p' r' req to Hpc He0 Hs) as (En&_&Hcase).
    apply startElection_role in He0 as [(_&Et&_)%role_proj _].
    specialize (Hr eq_refl). rewrite uwrap64_small in Et by (unfold term in *; lia).
    exists (term p + 1). unfold term in *. rewrite En, Et. split; [lia|]. split.
    { intros Hw%O1. lia. }
    rewrite <-Et. destruct Hcase as [(_&Hw&Hp)|(Hw&Hp)]; [by right|left; eauto]. }
  destruct (match l with LVote _ => true | _ => false end) eqn:Hl.
  { destruct l as [| | |resp| | | | | | | | | | | |]; try done. simpl in Hs.
    destruct (pc p) as [|[]| |t v []|t| | |[]|] eqn:Hpc; try (unfold vote_step in Hs; by rewrite Hpc in Hs).
    destruct (O2 t v true eq_refl) as [Hnw Ht1].
    destruct (vote_step_cases p t v resp p' Hpc Hs) as [[Hw E]|[[Hw E]|(_&Hw&E&_)]].
    - left. rewrite E. done.
    - left. rewrite E. split_and!; [done| |done]. intros t' v' b' [= <- _ _]. eauto.
    - right. exists t. split; [lia|]. auto. }
  left. destruct (plain_step p l p' Hs) as [Hw Hc].
  { destruct l; try done. intros Hpc. by apply Hne. }
  split_and!; [done|intros t v b Hx; destruct (Hc t v b Hx); eauto|].
  intros t Hx. destruct (background l) eqn:Hb.
  { destruct (background_drift p l p' Hb Hs) as (Hpc&_). congruence. }
  destruct l as [|cmd| |resp| |id|id resp|id|k|k resp| | |data c|f|f|]; try done; simpl in Hs.
  - unfold main_step in Hs. destruct (pc p) as [|[]| |t0 v []|t0| | |[]|] eqn:Hpc; try done;
      try (by destruct Hne); repeat (case_match; try done);
      try (apply try_some in Hs as (r'&_&Hs)); injection Hs as <-; cbn in Hx; try case_bool_decide; done.
  - apply command_node in Hs as (r'&resp&b&_&_&_&Hpc).
    destruct Hpc as [[_ E]|[(t0&v&Hp&[(_&_&E)|(_&E)])|(Hp&[(_&E)|(_&E)])]]; congruence.
  - unfold timer_step in Hs. destruct (pc p) as [|[]| |t0 v []|t0| | |[]|]; try done; by injection Hs as <-.
  - apply request_step_role in Hs as (_&E&_). congruence.
Qed.

Lemma step_office p l p' :
  office p -> leader_inv p -> evolves p l p' -> steady p l -> (l = LMain -> 0 <= term p < max_uint) ->
  step p l = Some p' -> office p' /\ won p ⊆ won p'.
Proof.
  intros Ho Hi He Hst Hr Hs. pose proof Ho as [O1 O2 O3].
  destruct (evolves_moves p l p' He) as [Ht _].
  pose proof (step_won p l p' Ho He Hr Hs) as Hw.
  assert (won p ⊆ won p') as Hsub.
  { destruct Hw as [(->&_)|(t&_&_&[(->&_)|(->&_)])]; [done|done|by intros x; right]. }
  split; [|done]. split.
  - intros t Hin. destruct Hw as [(Ew&_)|(t0&Ht0&_&[(Ew&_)|(Ew&_)])]; rewrite Ew in Hin.
    + specialize (O1 t Hin). lia.
    + specialize (O1 t Hin). lia.
    + apply elem_of_cons in Hin as [->|Hin]; [done|]. specialize (O1 t Hin). lia.
  - intros t v b Hx. destruct Hw as [(Ew&Hc&_)|(t0&Ht0&Hn0&[(Ew&v0&b0&Ec)|(Ew&Ee)])].
    + destruct (Hc t v b Hx) as (v'&b'&Hx'). rewrite Ew. destruct (O2 _ _ _ Hx'). split; [done|lia].
    + assert (t = t0) as -> by congruence. by rewrite Ew.
    + congruence.
  - intros Hc. destruct (step_charge p l p' Hi Hst Hs Hc) as [[Hc' Et]|[-> [t Hpc]]].
    + rewrite Et. apply Hsub. by apply O3.
    + destruct Hi as [_ Hi]. unfold pc_inv in Hi. rewrite Hpc in Hi. destruct Hi as [Et Hin].
      simpl in Hs. unfold main_step in Hs. rewrite Hpc in Hs. injection Hs as <-. cbn [won goto].
      pose proof (becomeLeader_role (node p)) as (_&E&_)%role_proj. unfold term. cbn [node goto].
      by rewrite E, Et.
Qed.

Lemma office_start r : state r = Follower -> office (start r).
Proof.
  intros Hs. split; cbn; try done.
  - by intros t ?%elem_of_nil.
  - intros [Hc|[Hc|Hc]]; cbn in Hc; congruence.
Qed.

(** A new process has the old one's log and leads nothing. *)
Lemma restarted_idle p s p' : restarted p s p' -> ~ in_charge p'.
Proof.
  intros [_ _ _ _ Hs _ _ _ _ _ (Hpc&_) _] [Hc|[Hc|Hc]]; congruence.
Qed.

Lemma restarted_office p s p' : restarted p s p' -> term p <= term p' -> office p -> office p'.
Proof.
  intros Hr Et [O1 _ _]. pose proof (restarted_idle p s p' Hr) as Hidle.
  destruct Hr as [_ _ _ _ _ _ _ _ _ _ (Hpc&_) Hw]. split; [|intros t v b; congruence|done].
  intros t Ht. rewrite Hw in Ht. specialize (O1 t Ht). lia.
Qed.

Lemma restarted_peers p s p' : restarted p s p' -> peers_ok p'.
Proof.
  intros [_ _ _ _ _ Hp _ _ _ _ (_&_&Hs&_) _]. split; [|by rewrite Hs].
  unfold nexts_ok. rewrite Hp. apply map_Forall_empty.
Qed.

(** ** What is written *)

Lemma store_own r l data s' :
  repr (logStore r) l -> zlen l < max_uint - 1 -> 0 <= currentTerm r <= max_uint ->
  StoreLog (logStore r) (next_entry r data) = Ret s' ->
  repr s' (l ++ [mkLog (zlen l + 1) (currentTerm r) data]).
Proof.
  intros Hr Hz Ht. unfold StoreLog, next_entry. rewrite (LastIndex_spec _ _ Hr). cbn [fst]. zlen_facts.
  rewrite uwrap64_small by lia. set (e := mkLog (zlen l + 1) (currentTerm r) data).
  destruct (StoreLogs_spec (logStore r) l [e] Hr) as [[err ->]|(s1&->&Hr')]; [| |done|].
  - apply numbered_cons. split; [done|apply numbered_nil].
  - rewrite zlen_cons, zlen_nil. lia.
  - by intros [= <-].
Qed.

(** Where the data of a leader's entry comes from: a no-op has none, a command's is what
    [applyCh] hands over. *)
Definition drawn p (k : label) (data : text) : Prop :=
  match k with
  | LRequest => exists req rest, applyCh (node p) = req :: rest /\ data = req_data req
  | _ => data = []
  end.

(** The leader's own entries: of its term, at the end. *)
Lemma own_entry p l lg p' :
  (l = LMain /\ pc p = LeaderNoOp) \/ l = LRequest ->
  repr (logStore (node p)) lg -> zlen lg < max_uint - 1 -> 0 <= term p <= max_uint ->
  step p l = Some p' ->
  logStore (node p') = logStore (node p) \/
  (in_charge p /\ term p' = term p /\ pc p' = InLeader false /\ exists data, drawn p l data /\
    repr (logStore (node p')) (lg ++ [mkLog (zlen lg + 1) (term p) data])).
Proof.
  intros Hl Hr Hz Ht Hs. destruct Hl as [[-> Hpc]| ->]; simpl in Hs.
  - unfold main_step in Hs. rewrite Hpc in Hs. apply try_some in Hs as (r'&Ha&[= <-]).
    pose proof (appendNoOp_role _ _ Ha) as (_&Et&_)%role_proj. unfold appendNoOp, or_log in Ha.
    destruct (StoreLog (logStore (node p)) (next_entry (node p) [])) as [s'| | |] eqn:Hst; try done;
      injection Ha as <-; [|by left].
    right. split; [right; right; exact Hpc|]. split_and!; [done..|]. exists []. split; [done|]. by eapply store_own.
  - unfold request_step in Hs. destruct (pc p) as [|[]| |t v []|t| | |[]|] eqn:Hpc; try done.
    destruct (applyCh (node p)) as [|req rest] eqn:Hch; [done|].
    apply try_some in Hs as (r'&Ha&[= <-]). unfold handleApplyRequest in Ha.
    destruct (bool_decide_reflect (state (set_applyCh rest (node p)) = Leader)) as [Hlead|]; cbn [negb] in Ha.
    2: { injection Ha as <-. left. exact (kp_log _ _ (resolve_kept _ _ _ (set_applyCh rest (node p)))). }
    destruct (StoreLog _ _) as [s'| | |] eqn:Hst; try done; injection Ha as <-.
    + right. split; [left; exact Hlead|]. split_and!; [done..|]. exists (req_data req).
      split; [by exists req, rest|]. by apply (store_own (set_applyCh rest (node p))).
    + left. exact (kp_log _ _ (resolve_kept _ _ _ (set_applyCh rest (node p)))).
Qed.

(** The history of a cluster: every log in it is numbered, made of its pieces, and of a
    term that was won. *)
Record history_ok (H : history) (B : Z) : Prop := mk_history_ok {
  hs_tracked : forall T h, H !! T = Some h -> tracked H h;
  hs_numbered : forall T h, H !! T = Some h -> numbered 1 h;
  hs_bound : forall T h, H !! T = Some h -> zlen h <= B;
  hs_term : forall T h, H !! T = Some h -> 1 <= T
}.

Lemma request_fits Hi B req : history_ok Hi B -> B <= max_uint -> request_ok Hi req ->
  ae_PrevLogIndex req <= max_uint.
Proof.
  intros HH HB [(h&k&m&Hh&[-> Hlen _ _])|[? _]]; [|lia].
  pose proof (hs_bound _ _ HH _ _ Hh). unfold zlen in *. lia.
Qed.

(** A request at a place that no log has changes nothing but the term. *)
Lemma bogus_refused r req r' resp b Hi B l :
  history_ok Hi B -> 0 < ae_PrevLogIndex req <= max_uint -> ae_PrevLogTerm req = 0 ->
  repr (logStore r) l -> tracked Hi l -> zlen l <= B -> 2 * B < max_uint ->
  currentTerm r <= ae_Term req -> handleAppendEntries r req = Ret (r', resp, b) ->
  aer_Success resp = false /\ logStore r' = logStore r /\ commitIndex r' = commitIndex r.
Proof.
  intros HH Hp Hzero Hr Ht Hz HB Hge Hh. unfold handleAppendEntries in Hh.
  destruct (Z.ltb_spec (ae_Term req) (currentTerm r)); [lia|].
  destruct (accept_leader_spec r req Hge) as (r1&E&Hacc). rewrite E in Hh. cbn [mbind outcome_bind] in Hh.
  rewrite <-(ac_log _ _ _ Hacc) in Hr |- *.
  destruct (consistency_check_spec (logStore r1) l req Hr) as (c&Ec&Hc); [lia|zlen_facts; lia|].
  rewrite Ec in Hh. cbn [mbind outcome_bind] in Hh. destruct c as [[ct ci]|].
  { injection Hh as <- <- _. split_and!; [done..|apply Hacc]. }
  exfalso. destruct Hc as [Hc|(x&Hx&Hxt)]; [lia|].
  destruct (Ht _ _ Hx) as (h&Hh'&_). pose proof (hs_term _ _ HH _ _ Hh'). lia.
Qed.

(** An AppendEntries request leaves the receiver with a log made of such pieces. *)
Lemma handled_log r req r' resp b Hi B l :
  history_ok Hi B -> request_ok Hi req -> repr (logStore r) l -> tracked Hi l -> zlen l <= B ->
  2 * B < max_uint -> handleAppendEntries r req = Ret (r', resp, b) ->
  logStore r' = logStore r \/
  (state r' = Follower /\ exists l', repr (logStore r') l' /\ tracked Hi l' /\ zlen l' <= B).
Proof.
  intros HH Hreq Hr Ht Hz HB Hh. pose proof HH as [H1' H2' H3' H4'].
  destruct (Z.lt_ge_cases (ae_Term req) (currentTerm r)) as [Hlt|Hge].
  { left. unfold handleAppendEntries in Hh.
    destruct (Z.ltb_spec (ae_Term req) (currentTerm r)); [|lia]. by injection Hh as <- _ _. }
  destruct Hreq as [(h&k&m&Hlog&Hsent)|[Hp Hzero]].
  - destruct (handleAppendEntries_ends r req l h k m) as (r1&r2&resp2&l'&Hacc&E&Hr'&_&Hend);
      [done|by eapply H2'|done|eapply tracked_matching; eauto|done|specialize (H3' _ _ Hlog); lia|].
    rewrite Hh in E. injection E as <- <- _. right.
    assert (forall j, tracked Hi (take j l) /\ zlen (take j l) <= B) as Hcut.
    { intros j. split; [by apply tracked_take|]. rewrite zlen_take. unfold zlen in *. lia. }
    destruct (aer_Success resp).
    + destruct Hend as (Hag&El'&Er'). split.
      { rewrite Er'. unfold follow_commit. destruct (_ <? _); exact (ac_state _ _ _ Hacc). }
      exists l'. split; [done|].
      destruct (ae_log_agree l h k m) as [_ [E|[E _]]];
        [eapply tracked_matching; eauto|done|apply Hsent| |].
      * by rewrite El', E.
      * rewrite El', E. split; [by eapply tracked_take, H1'|].
        specialize (H3' _ _ Hlog). rewrite zlen_take. unfold zlen in *. lia.
    + destruct Hend as (_&_&Hf&Hend). split; [done|]. exists l'. split; [done|].
      destruct Hend as [(j&_&->&_)|(->&_)]; [apply Hcut|done].
  - left. by destruct (bogus_refused r req r' resp b Hi B l) as (_&?&_).
Qed.

Lemma delivered_log p req p' Hi B l :
  history_ok Hi B -> request_ok Hi req -> repr (logStore (node p)) l -> tracked Hi l -> zlen l <= B ->
  2 * B < max_uint -> command_step p (CAppendEntries req) = Some p' ->
  logStore (node p') = logStore (node p) \/
  (~ in_charge p' /\ exists l', repr (logStore (node p')) l' /\ tracked Hi l' /\ zlen l' <= B).
Proof.
  intros HH Hreq Hr Ht Hz HB Hs. destruct (command_kept _ _ _ Hs) as (r'&resp&b&Hh&[_ E _]&_).
  destruct (command_node _ _ _ Hs) as (r2&resp2&b2&Hh2&(Es&_)%role_proj&_).
  rewrite Hh in Hh2. injection Hh2 as <- _ _. simpl in Hh.
  apply bind_ret in Hh as ([[r1 resp1] b1]&Hh&Hx). injection Hx as -> _ _.
  destruct (handled_log _ _ _ _ _ Hi B l HH Hreq Hr Ht Hz HB Hh) as [El|(Ef&l'&Hl')].
  - left. congruence.
  - right. split; [|rewrite E; eauto]. intros Hc. pose proof (command_leads _ _ _ Hs Hc). congruence.
Qed.

(** What a receiver answers. *)
Lemma conflict_loop_range fuel log i t found c :
  found <= max_uint -> i <= max_uint -> conflict_loop fuel log i t found = Ret c -> c <= max_uint.
Proof.
  revert i found. induction fuel as [|fuel IH]; intros i found Hf Hi; cbn [conflict_loop];
    (destruct (1 <=? i); [|by intros [= <-]]); [done|].
  destruct (GetLog log i); [|by intros [= <-]]. destruct (Term e =? t); [|by intros [= <-]].
  apply IH; [done|apply uwrap64_range].
Qed.

Lemma answer_fits r req r' resp b :
  ae_PrevLogIndex req <= max_uint -> handleAppendEntries r req = Ret (r', resp, b) ->
  aer_ConflictIndex resp <= max_uint.
Proof.
  intros Hp. unfold handleAppendEntries. assert (0 <= max_uint) as H0' by done.
  destruct (ae_Term req <? currentTerm r); [intros Hx; by injection Hx as _ <- _|].
  intros (r1&_&Hh)%bind_ret. apply bind_ret in Hh as (c&Hc&Hh). destruct c as [[ct ci]|].
  - injection Hh as _ <- _. cbn. unfold consistency_check in Hc.
    destruct (0 <? ae_PrevLogIndex req); [|done].
    destruct (_ <? ae_PrevLogIndex req); [injection Hc as _ <-; apply uwrap64_range|].
    assert (forall i t c, conflict_loop i (logStore r1) (ae_PrevLogIndex req -ᵤ 1)%go t (ae_PrevLogIndex req)
      = Ret c -> c <= max_uint) as Hl.
    { intros i t c. apply conflict_loop_range; [done|apply uwrap64_range]. }
    destruct (GetLog _ _) as [e|[e|] err]; [destruct (Term e =? _); [done|]| |by injection Hc as _ <-];
      apply bind_ret in Hc as (i&Hi&Hx); injection Hx as _ <-; by eapply Hl.
  - apply bind_ret in Hh as ([log ok]&_&Hh). destruct ok; cbn in Hh; by injection Hh as _ <- _.
Qed.

(** What a leader sends. *)
Lemma built_cases p q (a : text) lg v :
  next_ok q -> repr (logStore (node p)) lg -> zlen lg < max_uint - 1 -> v ∈ built a p q ->
  ac_resp v = None /\ state (node p) = Leader /\
  ((0 < ae_PrevLogIndex (ac_req v) <= max_uint /\ ae_PrevLogTerm (ac_req v) = 0) \/
   exists k m, sent_from lg (ac_req v) k m /\ (k + m)%nat = length lg /\
     ae_Term (ac_req v) = term p /\ ae_LeaderCommit (ac_req v) = commitIndex (node p)).
Proof.
  intros Hq Hr Hz. unfold built, next_ok in *. zlen_facts.
  destruct (decide (state (node p) = Leader)) as [Hl|Hl].
  2: { unfold replicate_build. rewrite bool_decide_false by done. by intros ?%elem_of_nil. }
  destruct (decide (1 <= nextIndex q <= zlen lg + 1)) as [Hin|Hout].
  - destruct (replicate_build_sent (node p) q lg Hr Hl Hin ltac:(lia)) as (x&->&Et&_&Ec&Hs).
    intros ->%list_elem_of_singleton. split_and!; [done..|]. right. cbn [ac_req].
    eexists _, _. split_and!; [exact Hs|unfold zlen in *; lia|done|done].
  - unfold replicate_build. rewrite bool_decide_true by done. cbn [negb].
    destruct (gather_loop _ _ _ _ _) as [es| | |]; cbn; try (by intros ?%elem_of_nil).
    intros ->%list_elem_of_singleton. split_and!; [done..|left; cbn].
    assert (nextIndex q = 0 \/ zlen lg + 1 < nextIndex q) as Hx by lia.
    assert (0 < (nextIndex q -ᵤ 1)%go <= max_uint /\ zlen lg < (nextIndex q -ᵤ 1)%go) as [Hp1 Hp2].
    { destruct Hx as [->|Hx]; [by change ((0 -ᵤ 1)%go) with max_uint; lia|].
      rewrite uwrap64_small; lia. }
    split; [done|]. destruct (Z.ltb_spec 0 (nextIndex q -ᵤ 1)%go); [|done].
    destruct (GetLog_miss _ lg (nextIndex q -ᵤ 1)%go Hr) as (e&err&->); [lia|by right|done].
Qed.

(** The peer's state that a replicator sends from. *)
Lemma new_appends_from p l (a : text) v : peers_ok p -> v ∈ new_appends a p l -> exists q, next_ok q /\ v ∈ built a p q.
Proof.
  intros [O1 O2]. unfold new_appends. destruct l; try (by intros ?%elem_of_nil).
  - destruct (peers (node p) !! id) as [q|] eqn:Hq; [|by intros ?%elem_of_nil].
    exists q. split; [by apply (O1 id)|done].
  - destruct (stale p !! k) as [q|] eqn:Hq; [|by intros ?%elem_of_nil].
    exists (rp_peer q). split; [by apply (Forall_lookup_1 _ _ _ _ O2 Hq)|done].
Qed.

Lemma new_appends_ok p l (a : text) Hi lg v :
  peers_ok p -> repr (logStore (node p)) lg -> zlen lg < max_uint - 1 ->
  (in_charge p -> Hi !! term p = Some lg) -> v ∈ new_appends a p l ->
  request_ok Hi (ac_req v) /\ ac_resp v = None.
Proof.
  intros Ho Hr Hz Hc (q&Hq&Hin)%new_appends_from; [|done].
  destruct (built_cases p q a lg v) as (Hn&Hl&[Hb|(k&m&Hs&_&Et&_)]); try done; split; try done; [by right|left].
  exists lg, k, m. split; [|done]. rewrite Et. apply Hc. by left.
Qed.

(** ** One step *)

(** A node against the history: its log is made of the history's pieces, and is the
    history of its term while the node is in charge. *)
Record log_ok (Hi : history) (B : Z) p : Prop := mk_log_ok {
  lo_log : exists l, repr (logStore (node p)) l /\ tracked Hi l /\ zlen l <= B /\
    (in_charge p -> Hi !! term p = Some l);
  lo_peers : peers_ok p;
  lo_office : office p;
  lo_elected : forall t, pc p = Elected t -> Hi !! t = None
}.

Lemma history_ok_le Hi B B' : B <= B' -> history_ok Hi B -> history_ok Hi B'.
Proof. intros Hle [H1' H2' H3' H4']. split; try done. intros T h Hh. specialize (H3' T h Hh). lia. Qed.

Lemma log_ok_le Hi B B' p : B <= B' -> log_ok Hi B p -> log_ok Hi B' p.
Proof.
  intros Hle [(l&Hr&Ht&Hz&Hc) O1 O2 O3]. split; try done. exists l. split_and!; try done. lia.
Qed.

Lemma restarted_log Hi B p s p' : restarted p s p' -> term p <= term p' -> log_ok Hi B p -> log_ok Hi B p'.
Proof.
  intros Hr Et [(l&Hl&Htr&Hz&_) _ O2 _]. pose proof (restarted_idle p s p' Hr) as Hidle.
  split; [|by eapply restarted_peers|by eapply restarted_office|].
  - exists l. by rewrite (rs_log _ _ _ Hr).
  - destruct (rs_goroutines _ _ _ Hr) as [Hpc _]. intros t. congruence.
Qed.

(** How a step changes the history. *)
Inductive log_change (Hi : history) p (k : label) p' : history -> Prop :=
| lc_kept : logStore (node p') = logStore (node p) ->
    (forall t, k = LMain -> pc p = Elected t -> False) -> log_change Hi p k p' Hi
| lc_office t l : k = LMain -> pc p = Elected t -> logStore (node p') = logStore (node p) ->
    repr (logStore (node p)) l -> Hi !! t = None -> log_change Hi p k p' (<[t := l]> Hi)
| lc_own l data : (k = LMain /\ pc p = LeaderNoOp) \/ k = LRequest -> in_charge p ->
    Hi !! term p = Some l -> repr (logStore (node p)) l ->
    repr (logStore (node p')) (l ++ [mkLog (zlen l + 1) (term p) data]) -> term p' = term p -> drawn p k data ->
    log_change Hi p k p' (<[term p := l ++ [mkLog (zlen l + 1) (term p) data]]> Hi)
| lc_request req : k = LCommand (CAppendEntries req) -> log_change Hi p k p' Hi.

Lemma history_insert Hi B B' T l :
  history_ok Hi B -> B <= B' -> extends Hi (<[T := l]> Hi) -> tracked (<[T := l]> Hi) l ->
  numbered 1 l -> zlen l <= B' -> 1 <= T -> history_ok (<[T := l]> Hi) B'.
Proof.
  intros [H1' H2' H3' H4'] Hle He Ht Hn Hz HT.
  split; intros T' h [[<- <-]|[_ Hh]]%lookup_insert_Some; try done.
  - by eapply tracked_extends, H1'.
  - by eapply H2'.
  - specialize (H3' _ _ Hh). lia.
  - by eapply H4'.
Qed.

(** What is left of a step that leaves the log alone. *)
Lemma log_ok_same Hi B p k p' :
  log_ok Hi B p -> leader_inv p -> evolves p k p' -> steady p k -> fits k -> (k = LMain -> 0 <= term p < max_uint) ->
  step p k = Some p' -> (forall t, t ∉ won p -> t ∈ won p' -> Hi !! t = None) ->
  (forall t, k = LMain -> pc p = Elected t -> False) ->
  logStore (node p') = logStore (node p) -> log_ok Hi B p'.
Proof.
  intros [(l&Hr&Ht&Hz&Hc) O1 O2 O3] Hi' He Hst Hft Hm Hs Hfresh Hne E.
  destruct (step_upkeep p k p' Hs) as [_ U]. destruct (step_office p k p' O2 Hi' He Hst Hm Hs) as [O2' _].
  split; [|by apply U|done|].
  - exists l. rewrite E. split_and!; [done..|]. intros Hc'.
    destruct (step_charge p k p' Hi' Hst Hs Hc') as [[Hc0 ->]|[-> [t Ht0]]]; [by apply Hc|].
    by destruct (Hne t).
  - intros t Hpc. destruct (step_won p k p' O2 He Hm Hs) as [(_&_&K)|(t0&_&Hn&[(_&v&b&K)|(K&K')])].
    + by apply O3, K.
    + congruence.
    + assert (t = t0) as -> by congruence. apply Hfresh; [done|]. rewrite K. by left.
Qed.

(** [Leader] is assigned: the node's log becomes the history of its term. *)
Lemma office_taken Hi B p t p' :
  log_ok Hi B p -> history_ok Hi B -> leader_inv p -> evolves p LMain p' -> 0 <= term p < max_uint ->
  step p LMain = Some p' -> pc p = Elected t ->
  exists Hi', extends Hi Hi' /\ history_ok Hi' B /\ log_ok Hi' B p' /\
    (forall T h, Hi' !! T = Some h -> Hi !! T = Some h \/ T ∈ won p') /\ log_change Hi p LMain p' Hi'.
Proof.
  intros Hlog HH Hli He Hm Hs Hpc. pose proof Hlog as [(l&Hr&Ht&Hz&Hc) O1 O2 O3].
  destruct (step_upkeep p LMain p' Hs) as [U1 U2].
  destruct (step_office p LMain p' O2 Hli He I (fun _ => Hm) Hs) as [O2' _].
  simpl in Hs. unfold main_step in Hs. rewrite Hpc in Hs. injection Hs as <-.
  pose proof Hli as [_ Hpi]. unfold pc_inv in Hpi. rewrite Hpc in Hpi. destruct Hpi as [Et Hin].
  specialize (O3 t Hpc). pose proof (extends_office Hi t l O3) as Hext.
  exists (<[t := l]> Hi). split; [done|]. split; [|split; [|split]].
  - apply (history_insert Hi B); try done; [by eapply tracked_extends|by eapply repr_numbered|].
    apply (of_won _ O2 t Hin).
  - split; [|by apply U2|done|done]. exists l. rewrite U1 by (unfold writes; by rewrite Hpc).
    split_and!; [done|by eapply tracked_extends|done|]. intros _.
    pose proof (becomeLeader_role (node p)) as (_&E&_)%role_proj. unfold term. cbn [node goto].
    by rewrite E, Et, lookup_insert_eq.
  - intros T h [[<- _]|[_ Hh]]%lookup_insert_Some; [by right|by left].
  - apply lc_office; try done. apply U1. unfold writes. by rewrite Hpc.
Qed.

(** The leader appends an entry of its own. *)
Lemma entry_added Hi B p k p' :
  log_ok Hi B p -> history_ok Hi B -> leader_inv p -> evolves p k p' -> steady p k -> fits k ->
  0 <= term p < max_uint -> step p k = Some p' ->
  (forall t, t ∉ won p -> t ∈ won p' -> Hi !! t = None) ->
  (k = LMain /\ pc p = LeaderNoOp) \/ k = LRequest -> B < max_uint - 1 ->
  exists Hi', extends Hi Hi' /\ history_ok Hi' (B + 1) /\ log_ok Hi' (B + 1) p' /\
    (forall T h, Hi' !! T = Some h -> Hi !! T = Some h \/ T ∈ won p') /\ log_change Hi p k p' Hi'.
Proof.
  intros Hlog HH Hli He Hst Hft Hm Hs Hfresh Hk HB. pose proof Hlog as [(l&Hr&Ht&Hz&Hc) O1 O2 O3].
  destruct (own_entry p k l p' Hk Hr) as [E|(Hch&Et&Hpc&data&Hdr&Hr')]; [lia|lia|done| |].
  { exists Hi. assert (forall t, k = LMain -> pc p = Elected t -> False) as Hne.
    { intros t -> Hx. destruct Hk as [[_ Hk]|Hk]; congruence. }
    split_and!; [apply extends_refl|by apply (history_ok_le Hi B); [lia|]| |by left|by apply lc_kept].
    apply (log_ok_same Hi (B + 1) p k p'); try done.
    apply (log_ok_le Hi B); [lia|done]. }
  specialize (Hc Hch). set (e := mkLog _ _ _) in Hr'. pose proof (extends_append Hi _ l [e] Hc) as Hext.
  destruct (step_upkeep p k p' Hs) as [_ U]. destruct (step_office p k p' O2 Hli He Hst (fun _ => Hm) Hs) as [O2' Hw].
  pose proof (of_charge _ O2 Hch) as Hwon.
  assert (tracked (<[term p := l ++ [e]]> Hi) (l ++ [e])) as Htr by (by apply tracked_append).
  assert (zlen (l ++ [e]) <= B + 1) as Hle by (rewrite zlen_app, zlen_cons, zlen_nil; lia).
  exists (<[term p := l ++ [e]]> Hi). split; [done|]. split; [|split; [|split]].
  - apply (history_insert Hi B); try done; [lia|by eapply repr_numbered|].
    destruct (of_won _ O2 _ Hwon). lia.
  - split; [|by apply U|done|intros t; congruence]. exists (l ++ [e]). split_and!; try done.
    intros _. by rewrite Et, lookup_insert_eq.
  - intros T h [[<- _]|[_ Hh]]%lookup_insert_Some; [right; by apply Hw|by left].
  - by apply lc_own.
Qed.

(** One step of a node, and the history after it. *)
Lemma log_step Hi B p k p' :
  log_ok Hi B p -> history_ok Hi B -> leader_inv p -> evolves p k p' -> steady p k -> fits k ->
  (from_outside k = false -> 0 <= term p < max_uint) -> step p k = Some p' ->
  (forall t, t ∉ won p -> t ∈ won p' -> Hi !! t = None) ->
  (forall req, k = LCommand (CAppendEntries req) -> request_ok Hi req) -> 0 <= B -> 2 * B < max_uint - 1 ->
  exists Hi', extends Hi Hi' /\ history_ok Hi' (B + 1) /\ log_ok Hi' (B + 1) p' /\
    (forall T h, Hi' !! T = Some h -> Hi !! T = Some h \/ T ∈ won p') /\ log_change Hi p k p' Hi'.
Proof.
  intros Hlog HH Hli He Hst Hft Hm Hs Hfresh Hreq HB0 HB.
  assert (k = LMain -> 0 <= term p < max_uint) as Hm' by (intros ->; by apply Hm).
  assert (history_ok Hi (B + 1)) as HH' by (apply (history_ok_le Hi B); [lia|done]).
  assert (log_ok Hi (B + 1) p) as Hlog' by (apply (log_ok_le Hi B); [lia|done]).
  assert (((k = LMain /\ pc p = LeaderNoOp) \/ k = LRequest) \/ (exists t, k = LMain /\ pc p = Elected t) \/
    (exists req, k = LCommand (CAppendEntries req)) \/
    (writes p k = false /\ forall t, k = LMain -> pc p = Elected t -> False))
    as [Hk|[(t&->&Hpc)|[(req&->)|[Hk Hne]]]].
  { unfold writes. destruct k as [|[req|req|]| | | | | | | | | | | | | |]; try (by right; right; right); eauto.
    destruct (pc p); eauto; right; right; right; by split. }
  - apply (entry_added Hi B p k p'); try done; [|lia]. apply Hm. by destruct Hk as [[-> _]| ->].
  - destruct (office_taken Hi (B + 1) p t p') as (Hi'&?); try done; [by apply Hm'|by exists Hi'].
  - specialize (Hreq req eq_refl). pose proof Hlog as [(l&Hr&Ht&Hz&Hc) O1 O2 O3].
    exists Hi. split_and!; [apply extends_refl|done| |by left|by eapply lc_request].
    destruct (delivered_log p req p' Hi B l) as [E|(Hnc&l'&Hr'&Ht'&Hz')]; try done; [lia| |].
    + by apply (log_ok_same Hi (B + 1) p (LCommand (CAppendEntries req)) p').
    + destruct (step_upkeep p _ p' Hs) as [_ U].
      destruct (step_office p _ p' O2 Hli He Hst Hm' Hs) as [O2' _].
      split; [|by apply U|done|].
      * exists l'. split_and!; [done..|lia|done].
      * intros t Hpc. exfalso. apply command_node in Hs as (r'&resp&b&_&_&_&Hpc').
        destruct Hpc' as [[_ E]|[(t0&v&Hp&[(_&_&E)|(_&E)])|(Hp&[(_&E)|(_&E)])]]; congruence.
  - destruct (step_upkeep p k p' Hs) as [U _]. specialize (U Hk).
    exists Hi. split_and!; [apply extends_refl|done| |by left|by apply lc_kept].
    by apply (log_ok_same Hi (B + 1) p k p').
Qed.

End node.

(** * The cluster *)

Section cluster.
  Context {L Sb F R : Type} `{LogStoreSpec L} `{StableStoreSpec Sb} `{FSM F R}.
  Context (P : list PeerConfig).
  Context (ids_distinct : NoDup (PeerID <$> P)).
  Context (addrs_distinct : NoDup (Address <$> P)).
  Implicit Types p : proc L Sb F R.
  Implicit Types n : network L Sb F R.

Record logs_ok n (Hi : history) (B : Z) : Prop := mk_logs_ok {
  lk_history : history_ok Hi B;
  lk_won : forall T h, Hi !! T = Some h -> exists a, winner (views n) T a;
  lk_procs : forall a p, procs n !! a = Some p -> log_ok Hi B p;
  lk_requests : forall v, v ∈ appends n -> request_ok Hi (ac_req v) /\
    forall resp, ac_resp v = Some resp -> aer_ConflictIndex resp <= max_uint
}.

(** A run is orderly when it is [calm], and no newer term reaches a node between the
    start of [runLeader] and its no-op entry. *)
Definition orderly n (l : nlabel) : Prop :=
  calm n l /\
  match l with
  | NAppendResponse i k => forall v resp p, appends n !! i = Some v -> ac_resp v = Some resp ->
      procs n !! ac_from v = Some p -> steady p (answer_label k resp)
  | _ => True
  end.

Fixpoint orderly_run n (ls : list nlabel) : Prop :=
  match ls with
  | [] => True
  | l :: ls' => orderly n l /\ match nstep n l with Some n' => orderly_run n' ls' | None => True end
  end.

(** Where the calls in the network come from when the node [p] at [a] makes the step [k]. *)
Inductive origin n (a : text) p (k : label) (v : append_call) : Prop :=
| og_old : v ∈ appends n -> origin n a p k v
| og_new : v ∈ new_appends a p k -> origin n a p k v
| og_answered v0 r' resp b : v0 ∈ appends n -> ac_resp v0 = None ->
    k = LCommand (CAppendEntries (ac_req v0)) -> a = ac_to v0 ->
    handleAppendEntries (node p) (ac_req v0) = Ret (r', resp, b) ->
    v = mkAppendCall (ac_from v0) (ac_to v0) (ac_req v0) (Some resp) -> origin n a p k v.

(** Where the labels from outside come from. *)
Inductive prompted n (l : nlabel) (a : text) p : label -> Prop :=
| pr_local k : from_outside k = false -> l = NStep a k -> prompted n l a p k
| pr_vote resp : prompted n l a p (LVote resp)
| pr_request c : c ∈ calls n -> a = vc_to c -> prompted n l a p (LCommand (CRequestVote (vc_req c)))
| pr_append v : v ∈ appends n -> a = ac_to v -> ac_from v <> a ->
    prompted n l a p (LCommand (CAppendEntries (ac_req v)))
| pr_answer i k v resp : l = NAppendResponse i k -> appends n !! i = Some v -> ac_resp v = Some resp ->
    a = ac_from v -> waits p k v = true -> prompted n l a p (answer_label k resp).

Lemma prompted_append n l a p req : prompted n l a p (LCommand (CAppendEntries req)) ->
  exists v, v ∈ appends n /\ req = ac_req v /\ a = ac_to v /\ ac_from v <> a.
Proof.
  intros Hp. remember (LCommand (CAppendEntries req)) as k eqn:Hk.
  destruct Hp as [k Ho _|resp|req'|v Hv Ha Hne|i k v resp]; try done.
  - by subst k.
  - injection Hk as <-. by exists v.
  - by destruct k.
Qed.

(** The votes that the node [p] at [a] gives in the step [k]. *)
Definition cast (a : text) p (k : label) : list ballot :=
  match k with
  | LCommand (CRequestVote req) =>
      if vote_ok (node p) req then [(a, rv_Term req, rv_CandidateID req)] else []
  | _ => own_ballot a p k
  end.

(** The requests for votes that are under way. *)
Definition requests n : list RequestVoteRequest := vc_req <$> calls n.

(** A step of the network is a step of one node, or of none. *)
Record moves_node n (l : nlabel) n' (a : text) p (k : label) p' : Prop := mk_moves_node {
  mn_before : procs n !! a = Some p;
  mn_step : step p k = Some p';
  mn_after : procs n' = <[a := p']> (procs n);
  mn_origin : forall v, v ∈ appends n' -> origin n a p k v;
  mn_prompt : prompted n l a p k;
  mn_ballots : ballots n' = ballots n ++ cast a p k;
  mn_calls : forall req, req ∈ requests n' -> req ∈ requests n \/ req ∈ vc_req <$> new_calls a p k
}.

(** A node crashes and is started again. *)
Record restarts_node n (l : nlabel) n' (a : text) p s p' : Prop := mk_restarts_node {
  rn_label : exists ws, l = NRestart a ws /\ restart p ws = Some p';
  rn_before : procs n !! a = Some p;
  rn_restarted : restarted p s p';
  rn_after : procs n' = <[a := p']> (procs n);
  rn_appends : appends n' = appends n;
  rn_ballots : ballots n' = ballots n;
  rn_calls : calls n' = calls n
}.

Inductive nmove n (l : nlabel) n' : Prop :=
| nm_none : procs n' = procs n -> (forall v, v ∈ appends n' -> v ∈ appends n) ->
    ballots n' = ballots n -> (forall req, req ∈ requests n' -> req ∈ requests n) -> nmove n l n'
| nm_proc a p k p' : moves_node n l n' a p k p' -> nmove n l n'
| nm_restart a p s p' : restarts_node n l n' a p s p' -> nmove n l n'.

Lemma requests_delete (cs : list vote_call) i req : req ∈ vc_req <$> delete i cs -> req ∈ vc_req <$> cs.
Proof.
  intros (c&->&Hc)%list_elem_of_fmap. apply list_elem_of_fmap_2. by apply list_elem_of_delete_inv in Hc.
Qed.

Lemma cast_local a p k : from_outside k = false -> cast a p k = own_ballot a p k.
Proof. by destruct k as [|[]| | | | | | | | | | | | | |]. Qed.

Lemma restart_moves n a ws n' : restart_at n a ws = Some n' ->
  exists p s p', restarts_node n (NRestart a ws) n' a p s p'.
Proof.
  unfold restart_at. intros (p&Ha&Hs)%bind_Some. apply bind_Some in Hs as (p'&Hp&[= <-]).
  destruct (restart_spec p ws p' Hp) as (s&_&Hr). exists p, s, p'. split; try done. by exists ws.
Qed.

Lemma nstep_moves n l n' : nstep n l = Some n' -> nmove n l n'.
Proof.
  intros Hs. destruct l as [a k|i|i|i|i|i k|i|a ws]; simpl in Hs.
  - unfold local_step in Hs. apply bind_Some in Hs as (p&Ha&Hs). destruct (from_outside k) eqn:Ho; [done|].
    apply bind_Some in Hs as (p'&Hst&[= <-]). apply (nm_proc n _ _ a p k p'). split; try done.
    + intros v [Hv|Hv]%elem_of_app; [by apply og_old|by apply og_new].
    + by apply pr_local.
    + by rewrite cast_local.
    + intros req. unfold requests. cbn. rewrite fmap_app. apply elem_of_app.
  - unfold vote_request in Hs. apply bind_Some in Hs as (v&Hi&Hs). destruct (vc_resp v); [done|].
    apply bind_Some in Hs as (p&Ha&Hs). apply bind_Some in Hs as (p'&Hst&Hs).
    destruct (handleRPC (node p) (CRequestVote (vc_req v))) as [[[r' []] b]| | |] eqn:Hh; try done.
    injection Hs as <-. apply (nm_proc n _ _ (vc_to v) p (LCommand (CRequestVote (vc_req v))) p').
    split; try done; cbn.
    + intros w Hw. by apply og_old.
    + apply pr_request; [by eapply list_elem_of_lookup_2|done].
    + by destruct (handleRPC_vote_role _ _ _ _ _ Hh) as [[= ->] _].
    + intros req Hreq. left. unfold requests in *. cbn in Hreq. rewrite list_fmap_insert in Hreq.
      by rewrite list_insert_id in Hreq by (by rewrite list_lookup_fmap, Hi).
  - unfold vote_response in Hs. apply bind_Some in Hs as (v&Hi&Hs). apply bind_Some in Hs as (resp&_&Hs).
    apply bind_Some in Hs as (p&Ha&Hs). destruct (pc p) as [| | |t k []| | | | |]; try done.
    destruct (t =? rv_Term (vc_req v)); [|done]. apply bind_Some in Hs as (p'&Hst&[= <-]).
    apply (nm_proc n _ _ (vc_from v) p (LVote resp) p'). split; try done; cbn.
    + intros w Hw. by apply og_old.
    + apply pr_vote.
    + by rewrite app_nil_r.
    + intros req Hreq. left. by eapply requests_delete.
  - injection Hs as <-. apply nm_none; try done. intros req. apply requests_delete.
  - unfold append_request in Hs. apply bind_Some in Hs as (v&Hi&Hs). destruct (ac_resp v) eqn:Hn; [done|].
    destruct (bool_decide_reflect (ac_from v = ac_to v)); [done|].
    apply bind_Some in Hs as (p&Ha&Hs). apply bind_Some in Hs as (p'&Hst&Hs).
    destruct (handleRPC (node p) (CAppendEntries (ac_req v))) as [[[r' [resp| |]] b]| | |] eqn:Hh; try done.
    injection Hs as <-. pose proof (list_elem_of_lookup_2 _ _ _ Hi) as Hin.
    apply (nm_proc n _ _ (ac_to v) p (LCommand (CAppendEntries (ac_req v))) p'). split; try done; cbn.
    + simpl in Hh. apply bind_ret in Hh as ([[r1 resp1] b1]&Hh&Hx). injection Hx as _ -> _.
      intros w [j Hj]%list_elem_of_lookup. apply list_lookup_insert_Some in Hj as [(_&<-&_)|[_ Hj]].
      * by eapply og_answered.
      * apply og_old. by eapply list_elem_of_lookup_2.
    + by apply pr_append.
    + by rewrite app_nil_r.
    + auto.
  - unfold append_response in Hs. apply bind_Some in Hs as (v&Hi&Hs).
    apply bind_Some in Hs as (resp&Hresp&Hs). apply bind_Some in Hs as (p&Ha&Hs).
    destruct (waits p k v) eqn:Hw; [|done]. apply bind_Some in Hs as (p'&Hst&[= <-]).
    apply (nm_proc n _ _ (ac_from v) p (answer_label k resp) p'). split; try done; cbn.
    + intros w Hw'. apply og_old. by apply list_elem_of_delete_inv in Hw'.
    + by eapply pr_answer.
    + destruct k; by rewrite app_nil_r.
    + auto.
  - injection Hs as <-. apply nm_none; try done. intros w Hw. by apply list_elem_of_delete_inv in Hw.
  - destruct (restart_moves n a ws n' Hs) as (p&s&p'&Hrn). by apply (nm_restart n _ _ a p s p').
Qed.

(** The new process is in the term of the old one or a later one, and nothing else has
    changed. *)
Lemma restarted_net n l n' a p s p' : calm n l -> restarts_node n l n' a p s p' ->
  term p <= term p' /\ id_of p' = id_of p /\ grows n n'.
Proof.
  intros Hcalm [(ws&->&Hw) Ha Hr Ep _ Eb _]. specialize (Hcalm p p' Ha Hw).
  split; [by apply recovers_term|]. split; [by eapply restarted_id|]. by eapply restarted_grows.
Qed.

(** One node moves; two servers are not in charge of the same term. *)
Lemma logs_moved n n' a p p' Hi Hi' B B' :
  net_ok P n' -> logs_ok n Hi B -> procs n !! a = Some p -> procs n' = <[a := p']> (procs n) ->
  won p ⊆ won p' -> extends Hi Hi' -> B <= B' -> history_ok Hi' B' -> log_ok Hi' B' p' ->
  (forall T h, Hi' !! T = Some h -> Hi !! T = Some h \/ T ∈ won p') ->
  (forall v, v ∈ appends n' -> request_ok Hi (ac_req v) /\
     forall resp, ac_resp v = Some resp -> aer_ConflictIndex resp <= max_uint) ->
  logs_ok n' Hi' B'.
Proof.
  intros Hn [K1 K2 K3 K4] Ha Ep Hw He HB HH Hp Hnew Hreq.
  assert (Ha' : procs n' !! a = Some p') by (by rewrite Ep, lookup_insert_eq).
  assert (Hkept : forall b q T h, procs n !! b = Some q -> b <> a -> T ∈ won q ->
    Hi' !! T = Some h -> Hi !! T = Some h).
  { intros b q T h Hq Hne Hin Hh. destruct (Hnew T h Hh) as [?|Hp']; [done|]. exfalso. apply Hne.
    apply (winner_unique P ids_distinct (views n') (ballots n') T); [apply Hn|..]; apply winner_views.
    - exists q. by rewrite Ep, lookup_insert_ne.
    - eauto. }
  split; [done| | |].
  - intros T h Hh. destruct (Hnew T h Hh) as [Hold|Hp']; [|exists a; apply winner_views; eauto].
    destruct (K2 T h Hold) as [b (q&Hq&Hin)%winner_views]. exists b. apply winner_views.
    rewrite Ep. destruct (decide (b = a)) as [->|Hne].
    + rewrite lookup_insert_eq. exists p'. split; [done|]. apply Hw. congruence.
    + rewrite lookup_insert_ne by done. eauto.
  - intros b q Hq. destruct (decide (b = a)) as [->|Hne]; [congruence|].
    assert (Hq' := Hq). rewrite Ep, lookup_insert_ne in Hq' by done.
    destruct (K3 b q Hq') as [(l&Hr&Ht&Hz&Hc) O1 O2 O3]. split; [|done|done|].
    + exists l. split_and!; [done|by eapply tracked_extends|lia|]. intros Hch.
      pose proof (of_charge _ O2 Hch) as Hin. specialize (Hc Hch). destruct (He _ _ Hc) as [x Hx].
      rewrite Hx. rewrite (Hkept b q _ _ Hq' Hne Hin Hx) in Hc. exact Hc.
    + intros t Hpc. destruct (Hi' !! t) as [h|] eqn:Hh; [|done].
      pose proof (nk_proc P _ Hn b q Hq) as Hok. pose proof (li_pc _ (pk_leader P _ Hok)) as Hpi.
      unfold pc_inv in Hpi. rewrite Hpc in Hpi. destruct Hpi as [_ Hin].
      rewrite <-(O3 t Hpc). symmetry. by apply (Hkept b q).
  - intros v Hin. destruct (Hreq v Hin) as [Hv Hr]. split; [by apply (request_ok_extends Hi)|done].
Qed.

(** What an orderly move of a node is, and the history after it. *)
Record node_move Hi p (k : label) p' Hi' : Prop := mk_node_move {
  mv_evolves : evolves p k p';
  mv_steady : steady p k;
  mv_polite : polite p k;
  mv_fits : fits k;
  mv_range : from_outside k = false -> 0 <= term p < max_uint;
  mv_extends : extends Hi Hi';
  mv_change : log_change Hi p k p' Hi'
}.

Lemma logs_move n l n' Hi B a p k p' :
  net_ok P n -> net_ok P n' -> logs_ok n Hi B -> orderly n l -> moves_node n l n' a p k p' ->
  0 <= B -> 2 * B < max_uint - 1 ->
  exists Hi', logs_ok n' Hi' (B + 1) /\ node_move Hi p k p' Hi'.
Proof.
  intros Hn Hn' Hk [Hcalm Hst] [Ha Hs' Ep Ea Hpr _ _] HB0 HB.
  pose proof (nk_proc P _ Hn a p Ha) as Hok. pose proof (lk_procs _ _ _ Hk a p Ha) as Hlog.
  assert (steady p k /\ polite p k /\ fits k /\ (from_outside k = false -> 0 <= term p < max_uint))
    as (Hsd&Hpol&Hft&Hm).
  { destruct Hpr as [k Hout ->|resp|req|v Hv _|i k v resp -> Hi' Hr -> _].
    - split_and!; [by destruct k..|]. intros _. split; [apply Hok|by apply Hcalm].
    - done.
    - done.
    - done.
    - pose proof (lk_requests _ _ _ Hk v (list_elem_of_lookup_2 _ _ _ Hi')) as [_ Hf].
      split_and!; [by eapply Hst|by eapply Hcalm|destruct k; by apply Hf|by destruct k]. }
  assert (evolves p k p') as He.
  { destruct (background k) eqn:Hb; [by apply background_evolves|].
    destruct (from_outside k) eqn:Ho; [|apply step_evolves; [apply Hok|by apply Hm|done]].
    destruct k; try done; simpl in Hs'; [apply command_evolves; [apply Hok|done]|by apply vote_step_evolves]. }
  destruct (step_office p k p' (lo_office _ _ _ Hlog) (pk_leader P _ Hok) He Hsd) as [_ Hw];
    [intros ->; by apply Hm|done|].
  destruct (log_step Hi B p k p') as (Hi'&Hext&HH&Hp'&Hnew&Hlc); try done; [apply Hk|apply Hok| | |].
  - intros t Hn0 Hn1. destruct (Hi !! t) as [h|] eqn:Hh; [|done]. exfalso.
    destruct (lk_won _ _ _ Hk t h Hh) as [b (q&Hq&Hin)%winner_views].
    assert (b = a) as ->; [|congruence].
    apply (winner_unique P ids_distinct (views n') (ballots n') t); [apply Hn'|..]; apply winner_views.
    + rewrite Ep. destruct (decide (b = a)) as [->|Hne].
      * rewrite lookup_insert_eq. eauto.
      * rewrite lookup_insert_ne by done. eauto.
    + rewrite Ep, lookup_insert_eq. eauto.
  - intros req ->. destruct (prompted_append n l a p req Hpr) as (v&Hv&->&_). by apply (lk_requests _ _ _ Hk).
  - exists Hi'. split; [|by split]. apply (logs_moved n n' a p p' Hi Hi' B (B + 1)); try done; [lia|].
    intros v Hv. destruct (Ea v Hv) as [Hin|Hin|v0 r' resp b Hin _ _ _ Hh ->].
    + by apply (lk_requests _ _ _ Hk).
    + destruct Hlog as [(lg&Hr&_&Hz&Hc) O1 _ _].
      destruct (new_appends_ok p k a Hi lg v) as [Hv1 Hv2]; try done; [lia|]. split; [done|].
      intros resp. by rewrite Hv2.
    + destruct (lk_requests _ _ _ Hk v0 Hin) as [Hv1 _]. split; [done|]. cbn. intros x [= <-].
      eapply answer_fits; [|exact Hh]. by apply (request_fits Hi B); [apply Hk|lia|].
Qed.

Lemma logs_still n n' Hi B B' : B <= B' -> logs_ok n Hi B -> procs n' = procs n ->
  (forall v, v ∈ appends n' -> v ∈ appends n) -> logs_ok n' Hi B'.
Proof.
  intros HB [K1 K2 K3 K4] Ep Ea. split; [by apply (history_ok_le Hi B)| | |].
  - intros T h Hh. destruct (K2 T h Hh) as [b Hb]. exists b. unfold views. by rewrite Ep.
  - intros b q Hq. rewrite Ep in Hq. apply (log_ok_le Hi B); [lia|]. by eapply K3.
  - intros v Hv. by apply K4, Ea.
Qed.

Lemma logs_restarted n l n' Hi B a p s p' :
  logs_ok n Hi B -> calm n l -> restarts_node n l n' a p s p' -> logs_ok n' Hi B.
Proof.
  intros [K1 K2 K3 K4] Hcalm Hrn. destruct (restarted_net n l n' a p s p' Hcalm Hrn) as (Et&_&Hg).
  destruct Hrn as [_ Ha Hr Ep Ea _ _]. split; [done| | |].
  - intros T h Hh. destruct (K2 T h Hh) as [b Hb]. exists b. by eapply winner_grows.
  - intros b q Hb. rewrite Ep in Hb. apply lookup_insert_Some in Hb as [[<- <-]|[_ Hb]]; [|by eapply K3].
    by apply (restarted_log Hi B p s p' Hr Et), K3 with a.
  - rewrite Ea. exact K4.
Qed.

Lemma logs_ok_le n Hi B B' : B <= B' -> logs_ok n Hi B -> logs_ok n Hi B'.
Proof.
  intros HB [K1 K2 K3 K4]. split; [by apply (history_ok_le Hi B)|done| |done].
  intros b q Hq. apply (log_ok_le Hi B); [done|]. by eapply K3.
Qed.

Lemma logs_step n l n' Hi B :
  net_ok P n -> logs_ok n Hi B -> orderly n l -> nstep n l = Some n' -> 0 <= B -> 2 * B < max_uint - 1 ->
  exists Hi', logs_ok n' Hi' (B + 1).
Proof.
  intros Hn Hk Ho Hs HB0 HB. assert (net_ok P n') as Hn' by (eapply nstep_ok; [done..|apply Ho|done]).
  destruct (nstep_moves n l n' Hs) as [Ep Ea _ _|a p k p' Hmv|a p s p' Hrn].
  - exists Hi. by apply (logs_still n n' Hi B (B + 1)); [lia|..].
  - destruct (logs_move n l n' Hi B a p k p') as (Hi'&Hk'&_); try done. by exists Hi'.
  - exists Hi. apply (logs_ok_le n' Hi B); [lia|]. eapply logs_restarted; [done|apply Ho|done].
Qed.

Lemma logs_run ls : forall n n' Hi B,
  net_ok P n -> logs_ok n Hi B -> orderly_run n ls -> nsteps n ls = Some n' -> 0 <= B ->
  B + zlen ls < 2 ^ 62 -> exists Hi', logs_ok n' Hi' (B + zlen ls).
Proof.
  induction ls as [|l ls IH]; intros n n' Hi B Hn Hk Ho Hs HB0 HB; cbn in Ho, Hs.
  { injection Hs as <-. exists Hi. by rewrite zlen_nil, Z.add_0_r. }
  destruct Ho as [Ho Hor]. destruct (nstep n l) as [n1|] eqn:E; [|done]. rewrite zlen_cons in *. zlen_facts.
  destruct (logs_step n l n1 Hi B) as [Hi1 Hk1]; try done; [unfold max_uint; lia|].
  destruct (IH n1 n' Hi1 (B + 1)) as [Hi' Hk']; try done; [eapply nstep_ok; [..|exact E]; try done; apply Ho|lia|lia|].
  exists Hi'. by replace (B + (1 + zlen ls)) with (B + 1 + zlen ls) by lia.
Qed.

End cluster.

(** Servers that start for the first time: an empty log, no replicators. *)
Definition fresh_servers {L Sb F R} `{LogStoreSpec L} (nodes : gmap text (RaftNode L Sb F R)) : Prop :=
  forall a r, nodes !! a = Some r -> repr (logStore r) [] /\ peers r = ∅.

Lemma boot_logs {L Sb F R} `{LogStoreSpec L} `{StableStoreSpec Sb} `{FSM F R}
    (P : list PeerConfig) (nodes : gmap text (RaftNode L Sb F R)) :
  cluster P nodes -> fresh_servers nodes -> logs_ok (boot nodes) ∅ 0.
Proof.
  intros [_ _ Hb] Hf. split.
  - split; intros T h Hh; by rewrite lookup_empty in Hh.
  - intros T h Hh. by rewrite lookup_empty in Hh.
  - intros a p Ha. cbn in Ha. rewrite lookup_fmap in Ha. destruct (nodes !! a) as [r|] eqn:E; [|done].
    injection Ha as <-. destruct (Hf a r E) as [Hr Hp]. pose proof (bt_state _ _ _ (Hb a r E)) as Hs.
    split; [|split|by apply office_start|done].
    + exists []. split_and!; [exact Hr|apply tracked_nil|done|].
      intros [Hc|[Hc|Hc]]; cbn in Hc; congruence.
    + unfold nexts_ok. cbn. rewrite Hp. apply map_Forall_empty.
    + constructor.
  - by intros v ?%elem_of_nil.
Qed.

Lemma orderly_calm {L Sb F R} `{LogStore L} `{StableStore Sb} `{FSM F R} ls : forall n : network L Sb F R,
  orderly_run n ls -> calm_run n ls.
Proof.
  induction ls as [|l ls IH]; intros n; [done|]. cbn. intros [[Hc _] Ho]. split; [done|].
  destruct (nstep n l); [by apply IH|done].
Qed.

Lemma cluster_logs_ok {L Sb F R} `{LogStoreSpec L} `{StableStoreSpec Sb} `{FSM F R}
    (P : list PeerConfig) (nodes : gmap text (RaftNode L Sb F R)) ls n :
  cluster P nodes -> fresh_servers nodes -> zlen ls < 2 ^ 62 -> orderly_run (boot nodes) ls ->
  nsteps (boot nodes) ls = Some n -> exists Hi, logs_ok n Hi (zlen ls).
Proof.
  intros Hc Hf Hz Ho Hs. pose proof Hc as [C1 C2 C3].
  destruct (logs_run P C1 C2 ls (boot nodes) n ∅ 0) as [Hi HHi]; try done.
  - by apply boot_ok.
  - by eapply boot_logs.
  - by exists Hi.
Qed.

Lemma GetLog_log {L} `{LogStoreSpec L} (s : L) l i x :
  repr s l -> zlen l < max_uint -> 1 <= i <= max_uint -> GetLog s i = Got x -> l !! Z.to_nat (i - 1) = Some x.
Proof.
  intros Hr Hz Hi Hg. pose proof (GetLog_cases s l i Hr Hi) as Hc.
  destruct (l !! Z.to_nat (i - 1)) as [e|]; [congruence|]. destruct Hc as (?&?&?). congruence.
Qed.

(** C12: the log matching property. In every run of a cluster whose servers start with
    empty logs, however goroutines interleave, whatever the transport loses, delays or
    reorders and whenever servers crash and are started again, if two servers have an entry
    of the same term at an index, their logs are equal up to that index; whether or not
    they are leaders, and whichever writes of the logs failed. The run is orderly: terms do
    not overflow, a server that crashes finds on disk its term and vote or what it was
    writing, and no answer to an earlier request brings a newer term to a node while it
    counts votes or between the start of [runLeader] and the leader's no-op entry, and has
    less than 2^62 steps. *)
Theorem log_matching {L Sb F R} `{LogStoreSpec L} `{StableStoreSpec Sb} `{FSM F R}
    (P : list PeerConfig) (nodes : gmap text (RaftNode L Sb F R)) ls n a b p q i x y :
  cluster P nodes -> fresh_servers nodes -> zlen ls < 2 ^ 62 -> orderly_run (boot nodes) ls ->
  nsteps (boot nodes) ls = Some n -> procs n !! a = Some p -> procs n !! b = Some q ->
  1 <= i <= max_uint -> GetLog (logStore (node p)) i = Got x -> GetLog (logStore (node q)) i = Got y ->
  Term x = Term y ->
  forall j, 1 <= j <= i -> exists e,
    GetLog (logStore (node p)) j = Got e /\ GetLog (logStore (node q)) j = Got e.
Proof.
  intros Hc Hf Hz Ho Hs Hp Hq Hi Hx Hy Ht j Hj.
  destruct (cluster_logs_ok P nodes ls n Hc Hf Hz Ho Hs) as [h [_ _ K3 _]].
  destruct (K3 a p Hp) as [(l&Hl&Tl&Zl&_) _ _ _]. destruct (K3 b q Hq) as [(k&Hk&Tk&Zk&_) _ _ _].
  assert (2 ^ 62 < max_uint) as Hm by done.
  apply (GetLog_log _ l) in Hx; [|done|lia|done]. apply (GetLog_log _ k) in Hy; [|done|lia|done].
  pose proof (tracked_matching h l k Tl Tk _ x y Hx Hy Ht) as E.
  destruct (lookup_lt_is_Some_2 l (Z.to_nat (j - 1))) as [e He]; [apply lookup_lt_Some in Hx; lia|].
  exists e. split; (eapply GetLog_hit; [eassumption|lia|]); [done|].
  rewrite <-(lookup_take_lt k (Z.to_nat (i - 1) + 1)) by lia. rewrite <-E.
  by rewrite lookup_take_lt by lia.
Qed.

(** * A run in which the log is replicated

    After [demo_race], n1 leads term 1: it appends its no-op entry and a client's, and
    n3 gets both. *)
#[local] Instance unit_follower : FSM unit unit := { fsm_Apply f _ := Ret (f, None) }.

(** [orderly_run], decided. *)
Definition steadyb {L Sb F R} (p : proc L Sb F R) (resp : AppendEntriesResponse) : bool :=
  match pc p with
  | LeaderInit | LeaderNoOp => aer_Term resp <=? currentTerm (node p)
  | _ => true
  end.

Definition orderlyb {L Sb F R} `{LogStore L} `{StableStore Sb} `{FSM F R} (n : network L Sb F R) (l : nlabel) : bool :=
  calmb n l &&
  match l with
  | NAppendResponse i _ =>
      match v ← appends n !! i; resp ← ac_resp v; p ← procs n !! ac_from v; Some (steadyb p resp) with
      | Some b => b
      | None => true
      end
  | _ => true
  end.

Fixpoint orderly_runb {L Sb F R} `{LogStore L} `{StableStore Sb} `{FSM F R} (n : network L Sb F R)
    (ls : list nlabel) : bool :=
  match ls with
  | [] => true
  | l :: ls' => orderlyb n l && match nstep n l with Some n' => orderly_runb n' ls' | None => true end
  end.

Lemma orderlyb_orderly {L Sb F R} `{LogStore L} `{StableStore Sb} `{FSM F R} (n : network L Sb F R) l : orderlyb n l = true -> orderly n l.
Proof.
  intros [Hc Hq]%andb_prop. split; [by apply calmb_calm|]. destruct l as [a l|i|i|i|i|i k|i|a ws]; try done.
  intros v resp p Hv Hr Hp. rewrite Hv in Hq. cbn in Hq. rewrite Hr in Hq. cbn in Hq. rewrite Hp in Hq.
  cbn in Hq. unfold steadyb in Hq. unfold steady. destruct k; cbn; intros Hpc;
    destruct (pc p); try (by destruct Hpc); by apply Z.leb_le.
Qed.

Lemma orderly_runb_orderly {L Sb F R} `{LogStore L} `{StableStore Sb} `{FSM F R} (n : network L Sb F R) ls :
  orderly_runb n ls = true -> orderly_run n ls.
Proof.
  revert n. induction ls as [|l ls IH]; intros n Hq; [done|].
  cbn [orderly_runb] in Hq. apply andb_prop in Hq as [Hl Hq]. split; [by apply orderlyb_orderly|].
  destruct (nstep n l); [by apply IH|done].
Qed.

Lemma demo_fresh : fresh_servers demo_nodes.
Proof.
  intros a r Hr. unfold demo_nodes in Hr.
  repeat (apply lookup_insert_Some in Hr as [[_ <-]|[_ Hr]]; [split; [apply inmem_new_repr|done]|]).
  apply lookup_singleton_Some in Hr as [_ <-]. split; [apply inmem_new_repr|done].
Qed.

(** The replicator of [id] at [a] sends call [i], which is answered. *)
Definition demo_exchange (a id : string) (i : nat) : list nlabel :=
  [NStep (bytes_of a) (LSend (bytes_of id)); NAppend i; NAppendResponse i (Current (bytes_of id))].

Definition demo_replicate : list nlabel :=
  demo_race ++
  (NStep (bytes_of "h1") <$> [LMain; LMain; LMain; LMain;
     LSubmit (bytes_of "x") Enqueued; LRequest; LMain]) ++
  [NStep (bytes_of "h3") LMain] ++ demo_exchange "h1" "n3" 0 ++ [NStep (bytes_of "h3") LMain] ++
  demo_exchange "h1" "n3" 0.

Definition demo_end : network InmemLogStore InmemStableStore unit unit :=
  default (boot demo_nodes) (nsteps (boot demo_nodes) demo_replicate).

(** * What the condition on answers excludes *)

(** [appendNoOp] does not look at the state: a leader of term 3 whose first heartbeat
    is answered with term 4 becomes a follower of term 4, and then appends its no-op
    entry with that term. The calls made by n1 at h1 and n2 at h2 are answered by the
    receivers' handlers. *)
Definition main (a : string) (k : nat) : list nlabel := replicate k (NStep (bytes_of a) LMain).

Definition retry (a : string) : list nlabel := NStep (bytes_of a) <$> [LMain; LTimer; LMain; LMain].

(** n3 is asked with call [i], and its vote is counted at [a]. *)
Definition poll_n3 (a : string) (i : nat) : list nlabel :=
  main "h3" 1 ++ [NVoteRequest i] ++ main a 1 ++ [NVoteResponse i].

Definition noop_race : list nlabel :=
  (* n1 leads term 1 and appends a no-op entry; n2's candidacy for term 2 ends that *)
  main "h3" 1 ++ demo_candidate "h1" ++ poll_n3 "h1" 1 ++ main "h1" 5 ++ demo_candidate "h2" ++ retry "h2" ++
  [NVoteLost 0; NVoteLost 0; NVoteLost 0; NVoteRequest 0; NVoteLost 0; NVoteLost 0] ++
  (* n1 is elected for term 3, and starts its replicators *)
  main "h1" 1 ++ retry "h1" ++ poll_n3 "h1" 1 ++ [NVoteLost 0] ++ main "h1" 3 ++
  (* n2 is elected for term 4; its no-op entry and x are committed with n3 *)
  retry "h2" ++ retry "h2" ++ poll_n3 "h2" 3 ++ [NVoteLost 0; NVoteLost 0; NVoteLost 0] ++ main "h2" 5 ++
  (NStep (bytes_of "h2") <$> [LSubmit (bytes_of "x") Enqueued; LRequest; LMain]) ++
  main "h3" 1 ++ demo_exchange "h2" "n3" 0 ++ main "h3" 1 ++ demo_exchange "h2" "n3" 0 ++
  (* the answer of n2 reaches n1 before its no-op entry *)
  demo_exchange "h1" "n2" 0 ++ main "h1" 2 ++
  (* n1 is elected for term 5: n3 takes its log for up to date *)
  main "h1" 1 ++ retry "h1" ++ poll_n3 "h1" 1 ++ main "h1" 5 ++
  main "h3" 1 ++ demo_exchange "h1" "n3" 0 ++ main "h3" 1 ++ demo_exchange "h1" "n3" 0.

(** The entry at an index, if the server at [a] has committed it. *)
Definition committed (n : network InmemLogStore InmemStableStore unit unit) (a : string) (i : Z)
  : option LogEntry :=
  p ← procs n !! bytes_of a;
  if i <=? commitIndex (node p)
  then match GetLog (logStore (node p)) i with Got e => Some e | NotGot _ _ => None end
  else None.

(** The race of [appendNoOp] loses a committed entry. In a run in which every message
    is answered by the handlers of the code and none is lost or duplicated but some
    votes, n2 commits the command x at index 2 of term 4 with n3, while n1 appends a
    no-op entry with the same index and term, which it did not win; n1's log then counts
    as up to date, n1 is elected for term 5 with the vote of n3 and commits its own entry
    at index 2, where n3 has committed x. *)
Theorem noop_race_diverges :
  calm_run (boot demo_nodes) noop_race /\
  (fun n => (committed n "h1" 2, committed n "h2" 2, committed n "h3" 2)) <$> nsteps (boot demo_nodes) noop_race
  = Some (Some (mkLog 2 4 []), Some (mkLog 2 4 (bytes_of "x")), Some (mkLog 2 4 (bytes_of "x"))).
Proof. split; [apply calm_runb_calm; vm_compute; reflexivity|vm_compute; reflexivity]. Qed.

Definition demo_follower_proc : proc InmemLogStore InmemStableStore unit unit :=
  default (start (demo_node "n3" 0 Follower [])) (procs demo_end !! bytes_of "h3").
Definition demo_leader_proc : proc InmemLogStore InmemStableStore unit unit :=
  default (start (demo_node "n1" 0 Follower [])) (procs demo_end !! bytes_of "h1").

Lemma log_matching_witness :
  exists e, GetLog (logStore (node demo_leader_proc)) 1 = Got e /\
    GetLog (logStore (node demo_follower_proc)) 1 = Got e.
Proof.
  apply (log_matching demo_peers demo_nodes demo_replicate demo_end (bytes_of "h1") (bytes_of "h3")
    demo_leader_proc demo_follower_proc 2 (mkLog 2 1 (bytes_of "x")) (mkLog 2 1 (bytes_of "x")));
    [exact demo_cluster|exact demo_fresh|by_compute| | | | |by_compute|vm_compute; reflexivity..|by_compute].
  - apply orderly_runb_orderly. vm_compute. reflexivity.
  - apply default_eq. vm_compute. reflexivity.
  - apply default_eq. vm_compute. reflexivity.
  - apply default_eq. vm_compute. reflexivity.
Defined.
