(* ===== verification/LeaderCompleteness.v ===== *)
(** Leader completeness across a cluster ([handleRequestVote], [startElection],
    [handleAppendEntries], [becomeLeader] of [internal/raft]): an entry of a leader's own
    term that a majority has in its log is in the log of every later leader.

    Next to the history of [LogMatching] there are two more records of the past that no
    code reads: the log each candidate stood with, and how much of a leader's log each
    server has acknowledged. An entry of a leader's own term that a majority has
    acknowledged is [chosen]; one that a majority of a later term has not is [dead]. *)
From S2P Require Import Prelude Stores Future Config Node Election Replication Rpc Leader Machine.
From S2P Require Import Restart Frame Network ElectionSafety LogMatching.

(** * Acknowledged, chosen, dead *)

Notation candidates := (gmap (text * Z) (list LogEntry)).
Notation acknowledged := (gmap (text * Z) nat).

Record ghost : Type := mkGhost {
  hist : history;
  stood : candidates;     (* by the candidate's identifier and the term *)
  acks : acknowledged     (* by the server's address and the leader's term *)
}.

(** The server at [v] has had the first [i] entries of the leader of [T]. *)
Definition acked (A : acknowledged) (v : text) (T : Z) (i : nat) : Prop :=
  exists m, A !! (v, T) = Some m /\ (i <= m)%nat.

Definition bump (A : acknowledged) (v : text) (T : Z) (m : nat) : acknowledged :=
  <[(v, T) := Nat.max m (default O (A !! (v, T)))]> A.

Lemma acked_bump A v T m v' T' i :
  acked (bump A v T m) v' T' i <-> acked A v' T' i \/ (v' = v /\ T' = T /\ (i <= m)%nat).
Proof.
  unfold acked, bump. destruct (decide ((v', T') = (v, T))) as [Heq|Hne].
  - injection Heq as -> ->. rewrite lookup_insert_eq. split.
    + intros (k&[= <-]&Hk). destruct (A !! (v, T)) as [x|] eqn:E; cbn in Hk.
      * destruct (Nat.le_gt_cases i x); [left; by exists x|right; split_and!; [done..|lia]].
      * right. split_and!; [done..|lia].
    + intros [(x&->&Hx)|(_&_&Hi)]; cbn; eexists; (split; [done|lia]).
  - rewrite lookup_insert_ne by congruence. split; [by left|]. intros [?|(->&->&_)]; done.
Qed.

#[export] Instance acked_dec A v T i : Decision (acked A v T i).
Proof.
  destruct (A !! (v, T)) as [m|] eqn:E.
  - destruct (decide (i <= m)%nat); [left; by exists m|right; intros (x&Hx&Hi); congruence].
  - right. intros (x&Hx&_). congruence.
Defined.

Lemma acked_le A v T i j : (i <= j)%nat -> acked A v T j -> acked A v T i.
Proof. intros Hi (m&Hm&Hj). exists m. split; [done|lia]. Qed.

(** An entry of the leader's own term. *)
Definition point (H : history) (T : Z) (i : nat) : Prop :=
  exists h e, H !! T = Some h /\ (1 <= i)%nat /\ h !! (i - 1)%nat = Some e /\ Term e = T.

(** The log has the first [i] entries of the leader of [T]. *)
Definition pref (H : history) (l : list LogEntry) (T : Z) (i : nat) : Prop :=
  exists h, H !! T = Some h /\ (i <= length h)%nat /\ take i l = take i h.

Definition last_term (l : list LogEntry) : Z := match last l with Some e => Term e | None => 0 end.

(** A leader's log has no entry of a later term. *)
Definition terms_ok (H : history) : Prop := forall T h e, H !! T = Some h -> e ∈ h -> Term e <= T.

Lemma pref_len H l T i : pref H l T i -> (i <= length l)%nat.
Proof.
  intros (h&_&Hi&E). apply (f_equal length) in E. rewrite !length_take in E. lia.
Qed.

Lemma pref_app H l x T i : pref H l T i -> pref H (l ++ x) T i.
Proof.
  intros Hp. pose proof (pref_len _ _ _ _ Hp). destruct Hp as (h&Hh&Hi&E). exists h.
  split_and!; [done..|]. by rewrite take_app_le.
Qed.

Lemma pref_extends H H' l T i : extends H H' -> pref H l T i -> pref H' l T i.
Proof.
  intros He (h&Hh&Hi&E). destruct (He _ _ Hh) as [x Hx]. exists (h ++ x).
  rewrite length_app, take_app_le by done. split_and!; [done|lia|done].
Qed.

Lemma point_extends H H' T i : extends H H' -> point H T i -> point H' T i.
Proof.
  intros He (h&e&Hh&Hi&E&Ht). destruct (He _ _ Hh) as [x Hx]. exists (h ++ x), e.
  split_and!; [done..| |done]. by apply lookup_app_l_Some.
Qed.

Lemma point_len H T i h : point H T i -> H !! T = Some h -> (i <= length h)%nat.
Proof. intros (h'&e&Hh&Hi&He&_) Hh'. assert (h' = h) as -> by congruence. apply lookup_lt_Some in He. lia. Qed.

(** The terms in a log do not go down. *)
Lemma tracked_sorted H l i j x y :
  terms_ok H -> tracked H l -> l !! i = Some x -> l !! j = Some y -> (i <= j)%nat -> Term x <= Term y.
Proof.
  intros Ht Hl Hx Hy Hij. destruct (Hl j y Hy) as (h&Hh&E). apply (Ht _ h x Hh).
  apply list_elem_of_lookup_2 with (i := i). rewrite <-(lookup_take_lt h (j + 1)) by lia.
  rewrite <-E. by rewrite lookup_take_lt by lia.
Qed.

Lemma last_entry (l : list LogEntry) e : last l = Some e -> l !! (length l - 1)%nat = Some e.
Proof. rewrite last_lookup. by rewrite Nat.sub_1_r. Qed.

Section quorums.
  Context (P : list PeerConfig).

Definition majority (Q : list text) : Prop := NoDup Q /\ Q ⊆ addrs P /\ zlen P / 2 + 1 <= zlen Q.

Lemma majorities_share Q1 Q2 : majority Q1 -> majority Q2 -> exists v, v ∈ Q1 /\ v ∈ Q2.
Proof.
  intros (N1&S1&M1) (N2&S2&M2). assert (zlen (addrs P) = zlen P) as E by (unfold addrs, zlen; by rewrite length_fmap).
  apply (majorities_meet (addrs P)); try done; by rewrite E.
Qed.

Definition chosen (H : history) (A : acknowledged) (T : Z) (i : nat) : Prop :=
  point H T i /\ exists Q, majority Q /\ forall v, v ∈ Q -> acked A v T i.

(** A majority is in a later term without having acknowledged the entry: it will never
    be chosen. [tm] are the servers' terms. *)
Definition dead (tm : gmap text Z) (A : acknowledged) (T : Z) (i : nat) : Prop :=
  exists Q, majority Q /\ forall v, v ∈ Q -> (exists t, tm !! v = Some t /\ T < t) /\ ~ acked A v T i.

Definition safe tm H A (l : list LogEntry) (T : Z) (i : nat) : Prop := pref H l T i \/ dead tm A T i.

Lemma chosen_alive tm H A T i : chosen H A T i -> ~ dead tm A T i.
Proof.
  intros (_&Q&HQ&Hack) (Q'&HQ'&Hno). destruct (majorities_share Q Q' HQ HQ') as (v&Hv&Hv').
  by apply (Hno v Hv'), Hack.
Qed.

Lemma chosen_pref tm H A l T i : chosen H A T i -> safe tm H A l T i -> pref H l T i.
Proof. intros Hc [?|Hd]; [done|]. by destruct (chosen_alive tm H A T i). Qed.

(** From one moment to a later one: terms grow, and a server acknowledges only what is
    sent in its term or a later one. *)
Record later (tm : gmap text Z) (A : acknowledged) (tm' : gmap text Z) (A' : acknowledged) : Prop := mk_later {
  lt_terms : forall v t, tm !! v = Some t -> exists t', tm' !! v = Some t' /\ t <= t';
  lt_acks : forall v T i, acked A v T i -> acked A' v T i;
  lt_new : forall v T i, acked A' v T i -> acked A v T i \/ forall t, tm !! v = Some t -> t <= T
}.

Lemma dead_later tm A tm' A' T i : later tm A tm' A' -> dead tm A T i -> dead tm' A' T i.
Proof.
  intros [L1 L2 L3] (Q&HQ&Hd). exists Q. split; [done|]. intros v Hv.
  destruct (Hd v Hv) as [(t&Ht&Hlt) Hno]. split.
  - destruct (L1 v t Ht) as (t'&Ht'&Hle). exists t'. split; [done|lia].
  - intros Ha. destruct (L3 v T i Ha) as [Ha'|Hle]; [done|]. specialize (Hle t Ht). lia.
Qed.

Lemma safe_later tm A tm' A' H H' l T i :
  later tm A tm' A' -> extends H H' -> safe tm H A l T i -> safe tm' H' A' l T i.
Proof.
  intros Hl He [Hp|Hd]; [left; by eapply pref_extends|right; by eapply dead_later].
Qed.

Lemma chosen_later tm A tm' A' H H' T i :
  later tm A tm' A' -> extends H H' -> chosen H A T i -> chosen H' A' T i.
Proof.
  intros Hl He (Hp&Q&HQ&Ha). split; [by eapply point_extends|]. exists Q. split; [done|].
  intros v Hv. by apply (lt_acks _ _ _ _ Hl), Ha.
Qed.

Lemma safe_app tm H A l x T i : safe tm H A l T i -> safe tm H A (l ++ x) T i.
Proof. intros [Hp|Hd]; [left; by apply pref_app|by right]. Qed.

(** ** Up-to-date logs

    A candidate whose log is at least as up to date as a voter's has what the voter has
    of the chosen entries, given that the leaders of earlier terms do. *)
Lemma up_to_date_safe tm H A k l T i :
  terms_ok H -> (forall U h, H !! U = Some h -> 1 <= U /\ tracked H h) -> tracked H k -> tracked H l ->
  (forall U h, H !! U = Some h -> T < U -> safe tm H A h T i) ->
  isLogUpToDate (last_term k) (zlen k) (last_term l) (zlen l) = true ->
  point H T i -> safe tm H A l T i -> safe tm H A k T i.
Proof.
  intros Ht Hpos Hk Hl Hh Hup Hpt [Hp|Hd]; [|by right].
  pose proof (pref_len _ _ _ _ Hp) as Hil. pose proof Hp as (h&HT&Hih&Heq).
  pose proof Hpt as (h0&e&Hh0&Hi1&He&Hte). assert (h0 = h) as -> by congruence.
  assert (l !! (i - 1)%nat = Some e) as Hle.
  { rewrite <-(lookup_take_lt l i), Heq, lookup_take_lt by lia. done. }
  destruct (last l) as [y|] eqn:Hly; [|apply last_None in Hly; subst l; simpl in Hil; lia].
  assert (T <= Term y) as HTy.
  { rewrite <-Hte. apply (tracked_sorted H l (i - 1) (length l - 1)); try done; [by apply last_entry|lia]. }
  assert (last_term l = Term y) as Elt by (unfold last_term; by rewrite Hly).
  destruct (Hpos _ _ HT) as [HT1 _].
  unfold isLogUpToDate in Hup. rewrite Elt in Hup.
  destruct (last k) as [x|] eqn:Hlk.
  2: { unfold last_term in Hup. rewrite Hlk in Hup. destruct (Z.ltb_spec (Term y) 0); [lia|].
       destruct (Z.eqb_spec 0 (Term y)); [lia|]. done. }
  assert (last_term k = Term x) as Ekt by (unfold last_term; by rewrite Hlk). rewrite Ekt in Hup.
  pose proof (last_entry _ _ Hlk) as Hx. destruct (Hk _ _ Hx) as (u&Hu&Hku).
  assert (length k - 1 + 1 = length k)%nat as Elen by (apply lookup_lt_Some in Hx; lia).
  rewrite Elen, take_ge in Hku by lia.
  assert (length k <= length u)%nat as Hlen.
  { apply (f_equal length) in Hku. rewrite length_take in Hku. lia. }
  destruct (Z.eq_dec (Term x) T) as [Ex|Ex].
  - left. assert (u = h) as -> by congruence. exists h. split_and!; [done..|].
    assert (i <= length k)%nat as Hik.
    { rewrite Ex in Hup. destruct (Z.ltb_spec (Term y) T); [lia|].
      destruct (Z.leb_spec (zlen l) (zlen k)) as [Hlz|]; [unfold zlen in Hlz; lia|].
      rewrite andb_false_r in Hup. done. }
    rewrite Hku, take_take, Nat.min_l by done. done.
  - assert (T < Term x) as HTx.
    { destruct (Z.ltb_spec (Term y) (Term x)); [lia|]. destruct (Z.eqb_spec (Term x) (Term y)); [lia|done]. }
    destruct (Hh _ _ Hu HTx) as [Hpu|Hd]; [|by right]. left. exists h. split_and!; [done..|].
    destruct Hpu as (h'&Hh'&_&Eu). assert (h' = h) as -> by congruence. rewrite <-Eu.
    assert (i <= length k)%nat as Hik.
    { destruct (Nat.le_gt_cases i (length k)) as [|Hgt]; [done|]. exfalso.
      assert (u !! (i - 1)%nat = Some e) as Hue.
      { rewrite <-(lookup_take_lt u i), Eu, lookup_take_lt by lia. done. }
      assert (u !! (length k - 1)%nat = Some x) as Hux.
      { rewrite <-(lookup_take_lt u (length k)), <-Hku by lia. done. }
      destruct (Hpos _ _ Hu) as [_ Htu].
      pose proof (tracked_sorted H u (length k - 1) (i - 1) x e Ht Htu Hux Hue). lia. }
    rewrite Hku, take_take, Nat.min_l by done. done.
Qed.

End quorums.

(** * Votes and acknowledgements *)

Section node.
  Context {L Sb F R : Type} `{LogStoreSpec L} `{StableStoreSpec Sb} `{FSM F R}.
  Implicit Types p : proc L Sb F R.

(** The node stands for election in its term, or has just been elected. *)
Definition campaigns p : Prop :=
  match pc p with
  | InCandidate _ _ true | Elected _ => True
  | InCandidate _ _ false => state (node p) = Candidate
  | _ => False
  end.

Lemma refused_append (r : RaftNode L Sb F R) req r' resp b :
  handleAppendEntries r req = Ret (r', resp, b) -> state r' <> Follower -> r' = r.
Proof.
  intros Hh Hs. pose proof (handleRPC_append_role r req r' (RAppendEntries resp) b) as Hr.
  simpl in Hr. rewrite Hh in Hr. specialize (Hr eq_refl). unfold handleAppendEntries in Hh.
  destruct (ae_Term req <? currentTerm r); [by injection Hh as <- _ _|].
  apply role_proj in Hr as (E&_). congruence.
Qed.

Lemma command_campaign p cmd p' : command_step p cmd = Some p' -> campaigns p' ->
  campaigns p /\ term p' = term p /\ logStore (node p') = logStore (node p).
Proof.
  intros Hs Hc. destruct (command_kept _ _ _ Hs) as (r'&resp&b&Hh&[_ El _]&_).
  destruct (command_node _ _ _ Hs) as (r2&resp2&b2&Hh2&(Es&Et&_)%role_proj&_&Hpc).
  rewrite Hh in Hh2. injection Hh2 as <- _ _. unfold campaigns in *.
  destruct Hpc as [[_ E]|[(t&v&Ep&[(_&_&E)|(_&E)])|(_&[(_&E)|(_&E)])]]; rewrite E in Hc; try done.
  rewrite Ep. split; [done|]. rewrite El. unfold term.
  destruct (handleRPC_role _ _ _ _ _ Hh) as [[E1 E2]|Hf]; [|congruence]. split; [congruence|].
  destruct cmd as [req|req|].
  - simpl in Hh. apply bind_ret in Hh as ([[r1 resp1] b1]&Hh&Hx). injection Hx as -> _ _.
    rewrite (refused_append _ _ _ _ _ Hh); [done|congruence].
  - by destruct (handleRPC_kept (node p) (CRequestVote req) r' resp b) as [? ? ?].
  - by destruct (handleRPC_kept (node p) COther r' resp b) as [? ? ?].
Qed.

Lemma step_campaign p k p' :
  polite p k -> step p k = Some p' -> campaigns p' -> pc p <> Electing \/ k <> LMain ->
  campaigns p /\ term p' = term p /\ logStore (node p') = logStore (node p).
Proof.
  intros Hpol Hs Hc Hne. destruct (step_upkeep p k p' Hs) as [U _].
  destruct (background k) eqn:Hb.
  { destruct (background_drift p k p' Hb Hs) as (Hpc&_&Hd). rewrite U by (by destruct k).
    unfold campaigns, term in *. rewrite Hpc in Hc.
    destruct Hd as [(Es&Et&_)%role_proj|t Hn Hlt (Es&Et&_)%role_proj|(Es&Et&_)%role_proj].
    - by rewrite Es in Hc.
    - pose proof (polite_newer p k t Hpol Hn) as Hle. exfalso.
      destruct (pc p) as [|[]| |t0 v []|t0| | |[]|]; try done; try lia. congruence.
    - destruct (pc p) as [|[]| |t0 v []|t0| | |[]|]; try done. congruence. }
  destruct k as [|cmd| |resp| |id|id resp|id|k|k resp| | |data c|f|f|]; try done; simpl in Hs.
  - unfold main_step in Hs. unfold writes, campaigns, term in *.
    destruct (pc p) as [|[]| |t v []|t| | |[]|] eqn:Hpc; try done;
      try (by destruct Hne); repeat (case_match; try done);
      try (apply try_some in Hs as (r'&_&Hs)); injection Hs as <-; cbn in Hc; try done.
    revert Hc. case_bool_decide; [|done]. intros _. auto.
  - by eapply command_campaign.
  - unfold timer_step, campaigns in *. destruct (pc p) as [|[]| |t v []|t| | |[]|]; try done;
      by injection Hs as <-.
  - unfold vote_step, campaigns, term in *. destruct (pc p) as [|[]| |t v []|t| | |[]|]; try done.
    destruct (currentTerm (node p) <? rvr_Term resp).
    { by apply try_some in Hs as (r'&_&[= <-]). }
    destruct (rvr_VoteGranted resp); [destruct (_ <=? _)|]; injection Hs as <-; auto.
  - apply request_step_role in Hs as (_&E&_). unfold campaigns in Hc. by rewrite E in Hc.
Qed.

Lemma lastLogInfo_log (r : RaftNode L Sb F R) l : repr (logStore r) l -> zlen l <= max_uint ->
  lastLogInfo r = (zlen l, last_term l).
Proof.
  intros Hr Hz. unfold lastLogInfo, last_term. rewrite (LastIndex_spec _ _ Hr).
  destruct (last l) as [e|] eqn:He.
  - apply last_entry in He as He'. pose proof (lookup_lt_Some _ _ _ He') as Hlt.
    destruct (Z.eqb_spec (zlen l) 0) as [Hz0|]; [unfold zlen in Hz0; lia|].
    destruct (repr_numbered _ _ Hr _ _ He') as [Hidx _].
    rewrite (GetLog_hit _ l (zlen l) e Hr); [f_equal; unfold zlen; lia|unfold zlen; lia|].
    replace (Z.to_nat (zlen l - 1)) with (length l - 1)%nat by (unfold zlen; lia). done.
  - apply last_None in He. subst l. done.
Qed.

(** What an AppendEntries request does to the log and the commit index: nothing, or
    what is common with the log [h] of the request's leader stays, and a success makes
    the log agree with it up to the last entry sent. *)
Record append_effect p (req : AppendEntriesRequest) p' (resp : AppendEntriesResponse) (lg h : list LogEntry)
    (k m : nat) (l' : list LogEntry) : Prop := mk_append_effect {
  ap_sent : sent_from h req k m;
  ap_term : term p <= ae_Term req;
  ap_term' : term p' = ae_Term req;
  ap_log : repr (logStore (node p')) l';
  ap_idle : ~ in_charge p' /\ ~ campaigns p';
  ap_len : (length l' <= Nat.max (length lg) (length h))%nat;
  ap_from : forall e, e ∈ l' -> e ∈ lg \/ e ∈ h;
  ap_keep : forall i, (i <= length lg)%nat -> take i lg = take i h -> (i <= length l')%nat /\ take i l' = take i h;
  ap_success : aer_Success resp = true -> take (k + m) l' = take (k + m) h;
  ap_commit : commitIndex (node p') = commitIndex (node p) \/
    (aer_Success resp = true /\ commitIndex (node p) < ae_LeaderCommit req /\
     commitIndex (node p') = Z.min (zlen l') (ae_LeaderCommit req))
}.

Lemma command_commit p cmd p' r' resp b :
  command_step p cmd = Some p' -> handleRPC (node p) cmd = Ret (r', resp, b) ->
  commitIndex (node p') = commitIndex r'.
Proof.
  intros Hs Hh. destruct (command_kept _ _ _ Hs) as (r2&resp2&b2&Hh2&[E _ _]&_).
  rewrite Hh in Hh2. injection Hh2 as <- _ _. unfold commits in E. congruence.
Qed.

(** A request of an earlier term, or for a place in the log that no server has, is
    refused. *)
Lemma delivered_refused p req p' Hi B lg :
  history_ok Hi B -> repr (logStore (node p)) lg -> tracked Hi lg -> zlen lg <= B -> 2 * B < max_uint ->
  ae_Term req < term p \/ (0 < ae_PrevLogIndex req <= max_uint /\ ae_PrevLogTerm req = 0) ->
  command_step p (CAppendEntries req) = Some p' ->
  exists r' resp b, handleAppendEntries (node p) req = Ret (r', resp, b) /\
    aer_Success resp = false /\ logStore (node p') = logStore (node p) /\
    commitIndex (node p') = commitIndex (node p).
Proof.
  intros HH Hr Ht Hz HB Hcase Hs. destruct (command_kept _ _ _ Hs) as (r'&rsp&b&Hh&[_ El _]&_).
  pose proof (command_commit _ _ _ _ _ _ Hs Hh) as Ecm. simpl in Hh.
  apply bind_ret in Hh as ([[r1 resp] b1]&Hh&Hx). injection Hx as -> _ _.
  exists r', resp, b1. split; [done|]. rewrite El, Ecm. unfold term in Hcase.
  destruct (Z.lt_ge_cases (ae_Term req) (currentTerm (node p))) as [Hlt|Hge].
  - unfold handleAppendEntries in Hh. fold (term p) in Hh.
    destruct (Z.ltb_spec (ae_Term req) (term p)); [|unfold term in *; lia]. by injection Hh as <- <- _.
  - destruct Hcase as [|[Hp Hzero]]; [lia|].
    destruct (bogus_refused (node p) req r' resp b1 Hi B lg) as (?&?&?); done.
Qed.

(** [h] is the log of the request's leader. *)
Lemma delivered_effect p req p' Hi B lg h k m :
  history_ok Hi B -> repr (logStore (node p)) lg -> tracked Hi lg -> zlen lg <= B ->
  2 * B < max_uint -> term p <= ae_Term req -> Hi !! ae_Term req = Some h -> sent_from h req k m ->
  command_step p (CAppendEntries req) = Some p' ->
  exists r' resp b l', handleAppendEntries (node p) req = Ret (r', resp, b) /\
    append_effect p req p' resp lg h k m l'.
Proof.
  intros HH Hr Ht Hz HB Hge Hlog Hsent Hs. destruct (command_kept _ _ _ Hs) as (r'&rsp&b&Hh&[_ El _]&_).
  pose proof (command_commit _ _ _ _ _ _ Hs Hh) as Ecm.
  destruct (command_node _ _ _ Hs) as (r2&resp2&b2&Hh2&(Es&Etm&_)%role_proj&_&Hpc).
  rewrite Hh in Hh2. injection Hh2 as <- _ _. simpl in Hh.
  apply bind_ret in Hh as ([[r1 resp] b1]&Hh&Hx). injection Hx as -> _ _.
  exists r', resp, b1.
  pose proof (hs_bound _ _ HH _ _ Hlog) as Hhz.
  assert (matching lg h) as Hmt by (eapply tracked_matching; [done|by eapply hs_tracked]).
  destruct (handleAppendEntries_ends (node p) req lg h k m) as (r1&r3&resp3&l'&Hacc&E&Hr'&_&Hend);
    [done|by eapply hs_numbered|done|done|done|lia|].
  rewrite Hh in E. injection E as <- <- _. exists l'. split; [done|].
  pose proof (se_len _ _ _ _ Hsent) as Hlen.
  assert (state r' = Follower /\ currentTerm r' = ae_Term req) as [Ef Et'].
  { destruct (aer_Success resp); [|by destruct Hend as (_&?&?&_)]. destruct Hend as (_&_&->).
    unfold follow_commit. destruct (_ <? _); split; apply Hacc. }
  assert (~ in_charge p' /\ ~ campaigns p') as Hidle.
  { split; [intros Hc; pose proof (command_leads _ _ _ Hs Hc); congruence|].
    unfold campaigns. rewrite Es, Ef.
    destruct Hpc as [[_ ->]|[(t&v&_&[(_&_&->)|(_&->)])|(_&[(_&->)|(_&->)])]]; auto; try congruence. }
  destruct (aer_Success resp) eqn:Esucc.
  - destruct Hend as (Hag&El'&Er').
    destruct (ae_log_agree lg h k m Hmt Hag Hlen) as [Htake Hcase]. rewrite <-El' in Htake, Hcase.
    split; try done; [unfold term; congruence|by rewrite El| | | |].
    + destruct Hcase as [->|[-> _]]; [lia|]. rewrite length_take. lia.
    + intros e He. destruct Hcase as [->|[-> _]]; [by left|right]. by apply elem_of_take in He as (?&?%list_elem_of_lookup_2&_).
    + intros i Hi1 Hi2. destruct (ae_log_keeps lg h k m i Hmt Hag Hlen) as [_ Hk]. rewrite <-El' in Hk.
      destruct (Hk Hi1 Hi2). done.
    + rewrite Ecm, Er'. unfold follow_commit. cbn. rewrite (LastIndex_spec _ _ Hr'), (ac_commit _ _ _ Hacc). cbn.
      destruct (Z.ltb_spec (commitIndex (node p)) (ae_LeaderCommit req)); cbn; [right|left; apply Hacc].
      split_and!; [done..|]. destruct (Z.ltb_spec (zlen l') (ae_LeaderCommit req)); lia.
  - destruct Hend as (Ec&_&_&Hend).
    assert (exists j, l' = take j lg /\ forall c, (c <= length lg)%nat -> take c lg = take c h -> (c <= j)%nat)
      as (j&El'&Hj).
    { destruct Hend as [(j&Hcut&El'&_)|(->&_)]; [exists j|exists (length lg); by rewrite take_ge].
      split; [done|]. intros c Hc Heq. rewrite (se_entries _ _ _ _ Hsent) in Hcut. by eapply cut_keeps. }
    split; try done; [unfold term; congruence|by rewrite El| | | |congruence|left; congruence].
    + rewrite El', length_take. lia.
    + intros e He. left. rewrite El' in He. by apply elem_of_take in He as (?&?%list_elem_of_lookup_2&_).
    + intros i Hi1 Hi2. specialize (Hj i Hi1 Hi2). rewrite El', length_take, take_take, (Nat.min_l i j) by done.
      split; [lia|done].
Qed.

End node.

(** ** The invariant of votes *)

Section votes.
  Context {L Sb F R : Type} `{LogStoreSpec L} `{StableStoreSpec Sb} `{FSM F R}.
  Context (P : list PeerConfig).
  Context (ids_distinct : NoDup (PeerID <$> P)).
  Context (addrs_distinct : NoDup (Address <$> P)).
  Implicit Types p : proc L Sb F R.
  Implicit Types n : network L Sb F R.
  Implicit Types G : ghost.

Definition terms n : gmap text Z := term <$> procs n.

(** [safe] at this moment. *)
Definition safe_in n G (l : list LogEntry) (T : Z) (i : nat) : Prop :=
  safe P (terms n) (hist G) (acks G) l T i.

Record votes_safe n G : Prop := mk_votes_safe {
  vs_terms : terms_ok (hist G);
  vs_hist : forall T' h T i, hist G !! T' = Some h -> T < T' -> point (hist G) T i -> safe_in n G h T i;
  vs_keep : forall v p l T i, procs n !! v = Some p -> repr (logStore (node p)) l ->
    acked (acks G) v T i -> point (hist G) T i -> safe_in n G l T i;
  vs_vote : forall v T' c k T i, (v, T', c) ∈ ballots n -> stood G !! (c, T') = Some k -> T < T' ->
    acked (acks G) v T i -> point (hist G) T i -> safe_in n G k T i;
  vs_stood : forall v T' c, (v, T', c) ∈ ballots n -> is_Some (stood G !! (c, T'));
  vs_candidate : forall c T k, stood G !! (c, T) = Some k -> tracked (hist G) k /\
    exists a p, procs n !! a = Some p /\ id_of p = c /\ T <= term p;
  vs_campaign : forall a p l, procs n !! a = Some p -> campaigns p -> repr (logStore (node p)) l ->
    stood G !! (id_of p, term p) = Some l;
  vs_calls : forall req, req ∈ requests n -> exists k,
    stood G !! (rv_CandidateID req, rv_Term req) = Some k /\
    rv_LastLogIndex req = zlen k /\ rv_LastLogTerm req = last_term k;
  vs_acks : forall v T i, acked (acks G) v T i ->
    (exists p, procs n !! v = Some p /\ T <= term p) /\
    exists h, hist G !! T = Some h /\ (i <= length h)%nat;
  vs_log_terms : forall a p l e, procs n !! a = Some p -> repr (logStore (node p)) l -> e ∈ l -> Term e <= term p;
  vs_self : forall a p l, procs n !! a = Some p -> in_charge p -> repr (logStore (node p)) l ->
    acked (acks G) a (term p) (length l)
}.

Lemma terms_lookup n v t : terms n !! v = Some t <-> exists p, procs n !! v = Some p /\ t = term p.
Proof.
  unfold terms. rewrite lookup_fmap. destruct (procs n !! v) as [p|]; cbn.
  - split; [intros [= <-]; eauto|by intros (?&[= <-]&->)].
  - split; [done|by intros (?&?&_)].
Qed.

(** Two servers of one identifier are one. *)
Lemma same_server n a b p q :
  net_ok P n -> procs n !! a = Some p -> procs n !! b = Some q -> id_of p = id_of q -> a = b.
Proof.
  intros Hn Ha Hb Hid. apply (id_inj P ids_distinct (views n) (ballots n) a b (view_of p) (view_of q));
    [apply Hn|apply views_lookup; eauto|apply views_lookup; eauto|done].
Qed.

(** What is left to show of a step of the server at [a], whose log is then [l']. *)
Record vote_duties n (a : text) p (k : label) p' G G' (l' : list LogEntry) : Prop := mk_vote_duties {
  vd_stood : stood G' = stood G \/ (stood G' = <[(id_of p', term p') := l']> (stood G) /\ term p < term p');
  vd_acks : acks G' = acks G \/ exists m h, acks G' = bump (acks G) a (term p') m /\
    hist G' !! term p' = Some h /\ (m <= length h)%nat /\ take m l' = take m h;
  vd_keep : forall T i, acked (acks G) a T i -> point (hist G) T i -> safe_in n G l' T i;
  vd_points : forall T i, point (hist G') T i -> point (hist G) T i \/
    (T = term p' /\ (forall v, ~ acked (acks G) v T i) /\
     forall T' h', hist G' !! T' = Some h' -> T < T' -> dead P (terms n) (acks G) T i);
  vd_hist : forall T' h' T i, hist G' !! T' = Some h' -> T < T' -> point (hist G) T i -> safe_in n G h' T i;
  vd_ballots : forall v T' c, (v, T', c) ∈ cast a p k -> v = a /\ T' = term p' /\
    exists kk, stood G' !! (c, T') = Some kk /\
      forall T i, T < T' -> acked (acks G) a T i -> point (hist G) T i -> safe_in n G kk T i;
  vd_terms : terms_ok (hist G');
  vd_campaign : campaigns p' -> stood G' !! (id_of p', term p') = Some l';
  vd_calls : forall req, req ∈ vc_req <$> new_calls a p k -> exists kk,
    stood G' !! (rv_CandidateID req, rv_Term req) = Some kk /\
    rv_LastLogIndex req = zlen kk /\ rv_LastLogTerm req = last_term kk;
  vd_log_terms : forall e, e ∈ l' -> Term e <= term p';
  vd_self : in_charge p' -> acked (acks G') a (term p') (length l');
  vd_tracked : tracked (hist G') l'
}.

Lemma duties_later n n' a p k p' G G' l' :
  procs n !! a = Some p -> procs n' = <[a := p']> (procs n) -> term p <= term p' ->
  vote_duties n a p k p' G G' l' -> later (terms n) (acks G) (terms n') (acks G').
Proof.
  intros Ha Ep Ht Hd. split.
  - intros v t (q&Hq&->)%terms_lookup. destruct (decide (v = a)) as [->|Hne].
    + exists (term p'). assert (q = p) as -> by congruence. split; [|done].
      apply terms_lookup. exists p'. by rewrite Ep, lookup_insert_eq.
    + exists (term q). split; [|lia]. apply terms_lookup. exists q. by rewrite Ep, lookup_insert_ne.
  - intros v T i Hv. destruct (vd_acks _ _ _ _ _ _ _ _ Hd) as [->|(m&h&->&_)]; [done|].
    apply acked_bump. by left.
  - intros v T i Hv. destruct (vd_acks _ _ _ _ _ _ _ _ Hd) as [E|(m&h&E&_)]; rewrite E in Hv; [by left|].
    apply acked_bump in Hv as [Hv|(->&->&_)]; [by left|right].
    intros t (q&Hq&->)%terms_lookup. assert (q = p) as -> by congruence. done.
Qed.

Lemma duties_stood n a p k p' G G' l' :
  net_ok P n -> votes_safe n G -> procs n !! a = Some p -> id_of p' = id_of p ->
  vote_duties n a p k p' G G' l' ->
  forall c T kk, stood G !! (c, T) = Some kk -> stood G' !! (c, T) = Some kk.
Proof.
  intros Hn Hv Ha Hid Hd c T kk Hk. destruct (vd_stood _ _ _ _ _ _ _ _ Hd) as [->|[-> Hlt]]; [done|].
  destruct (decide ((c, T) = (id_of p', term p'))) as [Heq|Hne]; [|by rewrite lookup_insert_ne].
  injection Heq as -> ->. exfalso.
  destruct (vs_candidate _ _ Hv _ _ _ Hk) as [_ (b&q&Hq&Eq&Hle)].
  assert (b = a) as -> by (eapply same_server; [done..|congruence]).
  assert (q = p) as -> by congruence. lia.
Qed.

(** An acknowledgement after the step is old, or of the mover's own log. *)
Lemma duties_acked n a p k p' G G' l' v T i :
  vote_duties n a p k p' G G' l' -> acked (acks G') v T i ->
  acked (acks G) v T i \/ (v = a /\ T = term p' /\ pref (hist G') l' T i).
Proof.
  intros Hd Hv. destruct (vd_acks _ _ _ _ _ _ _ _ Hd) as [E|(m&h&E&Hh&Hm&Heq)]; rewrite E in Hv; [by left|].
  apply acked_bump in Hv as [Hv|(->&->&Hi)]; [by left|right]. split_and!; [done..|].
  exists h. split_and!; [done|lia|by eapply take_eq_le].
Qed.

(** The invariant after a step of one server that has done its duties. *)
Section moved.
  Context n (l : nlabel) n' (a : text) p (k : label) p' (G G' : ghost) (l' : list LogEntry).
  Context (Hn : net_ok P n) (Hn' : net_ok P n') (Hv : votes_safe n G).
  Context (Hmv : moves_node n l n' a p k p') (He : evolves p k p').
  Context (Hext : extends (hist G) (hist G')) (Hr : repr (logStore (node p')) l').
  Context (Hz : zlen l' <= max_uint) (Hd : vote_duties n a p k p' G G' l').

Lemma moved_later : later (terms n) (acks G) (terms n') (acks G').
Proof.
  pose proof Hmv as [Ha _ Ep _ _ _ _]. destruct (evolves_moves p k p' He) as [Ht _]. by eapply duties_later.
Qed.

Lemma moved_stood c T kk : stood G !! (c, T) = Some kk -> stood G' !! (c, T) = Some kk.
Proof.
  pose proof Hmv as [Ha _ _ _ _ _ _]. destruct (evolves_moves p k p' He) as [_ Hcfg].
  eapply duties_stood; [exact Hn|exact Hv|exact Ha|unfold id_of; by rewrite Hcfg|exact Hd].
Qed.

Lemma moved_safe x T i : safe_in n G x T i -> safe_in n' G' x T i.
Proof. apply safe_later; [exact moved_later|exact Hext]. Qed.

Lemma moved_log x : repr (logStore (node p')) x -> x = l'.
Proof. intros Hx. symmetry. by apply (repr_unique (logStore (node p'))). Qed.

Lemma moved_here b q : procs n' !! b = Some q -> b = a /\ q = p' \/ b <> a /\ procs n !! b = Some q.
Proof.
  pose proof Hmv as [_ _ Ep _ _ _ _]. rewrite Ep. intros Hq.
  apply lookup_insert_Some in Hq as [[<- <-]|[Hne Hq]]; [by left|by right].
Qed.

(** An acknowledged entry is an old one. *)
Lemma moved_point v T i : acked (acks G) v T i -> point (hist G') T i -> point (hist G) T i.
Proof.
  intros Hi Hp. destruct (vd_points _ _ _ _ _ _ _ _ Hd T i Hp) as [?|(_&Hno&_)]; [done|]. by destruct (Hno v).
Qed.

Lemma moved_hist T' h T i : hist G' !! T' = Some h -> T < T' -> point (hist G') T i -> safe_in n' G' h T i.
Proof.
  intros Hh HT Hp. destruct (vd_points _ _ _ _ _ _ _ _ Hd T i Hp) as [Hold|(_&_&Hdead)].
  - apply moved_safe. by eapply vd_hist.
  - right. eapply dead_later; [exact moved_later|]. by eapply Hdead.
Qed.

Lemma moved_keep v q x T i : procs n' !! v = Some q -> repr (logStore (node q)) x ->
  acked (acks G') v T i -> point (hist G') T i -> safe_in n' G' x T i.
Proof.
  intros Hq Hx Hi Hp. destruct (duties_acked _ _ _ _ _ _ _ _ _ _ _ Hd Hi) as [Hi'|(->&->&Hpre)].
  - pose proof (moved_point v T i Hi' Hp) as Hp'. apply moved_safe. destruct (moved_here _ _ Hq) as [[-> ->]|[_ Hq']].
    + rewrite (moved_log x Hx). by apply Hd.
    + by eapply vs_keep.
  - destruct (moved_here _ _ Hq) as [[_ ->]|[? _]]; [|done]. rewrite (moved_log x Hx). by left.
Qed.

Lemma moved_vote v T' c kk T i : (v, T', c) ∈ ballots n' -> stood G' !! (c, T') = Some kk -> T < T' ->
  acked (acks G') v T i -> point (hist G') T i -> safe_in n' G' kk T i.
Proof.
  pose proof Hmv as [Ha _ _ _ _ Eb _]. rewrite Eb. intros [Hb|Hb]%elem_of_app Hk HT Hi Hp.
  - destruct (vs_stood _ _ Hv _ _ _ Hb) as [k0 Hk0]. pose proof (moved_stood _ _ _ Hk0).
    assert (k0 = kk) as -> by congruence.
    destruct (duties_acked _ _ _ _ _ _ _ _ _ _ _ Hd Hi) as [Hi'|(->&->&_)].
    + apply moved_safe. eapply vs_vote; try done. by eapply moved_point.
    + exfalso. destruct (po_old _ _ _ (nk_poll _ _ Hn) _ _ _ Hb) as (_&w&Hw&Hle).
      apply views_lookup in Hw as (q&Hq&->). cbn in Hle. assert (q = p) as -> by congruence.
      destruct (evolves_moves p k p' He). lia.
  - destruct (vd_ballots _ _ _ _ _ _ _ _ Hd _ _ _ Hb) as (->&->&k0&Hk0&Hsf).
    assert (k0 = kk) as -> by congruence.
    destruct (duties_acked _ _ _ _ _ _ _ _ _ _ _ Hd Hi) as [Hi'|(_&->&_)]; [|lia].
    apply moved_safe. apply Hsf; [done|done|by eapply moved_point].
Qed.

Lemma moved_candidate c T kk : stood G' !! (c, T) = Some kk -> tracked (hist G') kk /\
  exists b q, procs n' !! b = Some q /\ id_of q = c /\ T <= term q.
Proof.
  pose proof Hmv as [Ha _ Ep _ _ _ _]. destruct (evolves_moves p k p' He) as [Ht Hcfg]. intros Hk.
  assert (procs n' !! a = Some p') as Ha' by (by rewrite Ep, lookup_insert_eq).
  assert (stood G !! (c, T) = Some kk \/ (c = id_of p' /\ T = term p' /\ kk = l')) as [Hk0|(->&->&->)].
  { destruct (vd_stood _ _ _ _ _ _ _ _ Hd) as [E|[E _]]; rewrite E in Hk; [by left|].
    apply lookup_insert_Some in Hk as [[[= <- <-] <-]|[_ Hk]]; auto. }
  - destruct (vs_candidate _ _ Hv _ _ _ Hk0) as [Htr (b&q&Hq&Eq&Hle)].
    split; [by eapply tracked_extends|]. destruct (decide (b = a)) as [->|Hne].
    + exists a, p'. assert (q = p) as -> by congruence. split_and!; [done|unfold id_of in *; congruence|lia].
    + exists b, q. rewrite Ep, lookup_insert_ne by done. done.
  - split; [apply Hd|]. by exists a, p'.
Qed.

Lemma moved_acks v T i : acked (acks G') v T i ->
  (exists q, procs n' !! v = Some q /\ T <= term q) /\ exists h, hist G' !! T = Some h /\ (i <= length h)%nat.
Proof.
  pose proof Hmv as [Ha _ Ep _ _ _ _]. destruct (evolves_moves p k p' He) as [Ht _].
  assert (procs n' !! a = Some p') as Ha' by (by rewrite Ep, lookup_insert_eq).
  intros [Hi|(->&->&(h&Hh&Hl&_))]%(duties_acked _ _ _ _ _ _ _ _ _ _ _ Hd); [|split; [by exists p'|by exists h]].
  destruct (vs_acks _ _ Hv v T i Hi) as [(q&Hq&Hle) (h&Hh&Hl)]. split.
  - destruct (decide (v = a)) as [->|Hne].
    + exists p'. assert (q = p) as -> by congruence. split; [done|lia].
    + exists q. by rewrite Ep, lookup_insert_ne.
  - destruct (Hext _ _ Hh) as [x Hx]. exists (h ++ x). split; [done|]. rewrite length_app. lia.
Qed.

Lemma votes_moved : votes_safe n' G'.
Proof.
  pose proof Hmv as [Ha _ _ _ _ Eb Ec].
  split; [apply Hd|exact moved_hist|exact moved_keep|exact moved_vote| |exact moved_candidate| | |exact moved_acks|..].
  - intros v T' c Hb. rewrite Eb in Hb. apply elem_of_app in Hb as [Hb|Hb].
    + destruct (vs_stood _ _ Hv _ _ _ Hb) as [k0 Hk0]. exists k0. by apply moved_stood.
    + destruct (vd_ballots _ _ _ _ _ _ _ _ Hd _ _ _ Hb) as (_&_&k0&Hk0&_). by exists k0.
  - intros b q x [[-> ->]|[_ Hq]]%moved_here Hc Hx; [rewrite (moved_log x Hx); by apply Hd|].
    apply moved_stood. by eapply vs_campaign.
  - intros req Hreq. destruct (Ec req Hreq) as [Hold|Hnew]; [|by apply Hd].
    destruct (vs_calls _ _ Hv req Hold) as (k0&Hk0&?). exists k0. split; [by apply moved_stood|done].
  - intros b q x e [[-> ->]|[_ Hq]]%moved_here Hx Hin; [rewrite (moved_log x Hx) in Hin; by apply Hd|].
    by eapply vs_log_terms.
  - intros b q x [[-> ->]|[_ Hq]]%moved_here Hc Hx; [rewrite (moved_log x Hx); by apply Hd|].
    apply (lt_acks _ _ _ _ moved_later). by eapply vs_self.
Qed.

End moved.

(** ** The steps that leave the logs alone *)

Lemma log_facts n G B a p lg :
  logs_ok n (hist G) B -> B < max_uint -> procs n !! a = Some p -> repr (logStore (node p)) lg ->
  tracked (hist G) lg /\ zlen lg <= B /\ (in_charge p -> hist G !! term p = Some lg).
Proof.
  intros Hk HB Ha Hr. destruct (lk_procs _ _ _ Hk a p Ha) as [(l&Hl&Ht&Hz&Hc) _ _ _].
  assert (l = lg) as -> by (apply (repr_unique (logStore (node p))); [lia|done..]). auto.
Qed.

Lemma kept_duties n l n' a p k p' G st B lg :
  net_ok P n -> logs_ok n (hist G) B -> B < max_uint -> votes_safe n G -> moves_node n l n' a p k p' ->
  node_move (hist G) p k p' (hist G) -> repr (logStore (node p)) lg ->
  (forall t, k = LMain -> pc p = Elected t -> False) ->
  st = stood G \/ (st = <[(id_of p', term p') := lg]> (stood G) /\ term p < term p') ->
  (forall v T' c, (v, T', c) ∈ cast a p k -> v = a /\ T' = term p' /\ exists kk, st !! (c, T') = Some kk /\
     forall T i, T < T' -> acked (acks G) a T i -> point (hist G) T i -> safe_in n G kk T i) ->
  (campaigns p' -> st !! (id_of p', term p') = Some lg) ->
  (forall req, req ∈ vc_req <$> new_calls a p k -> exists kk,
    st !! (rv_CandidateID req, rv_Term req) = Some kk /\
    rv_LastLogIndex req = zlen kk /\ rv_LastLogTerm req = last_term kk) ->
  vote_duties n a p k p' G (mkGhost (hist G) st (acks G)) lg.
Proof.
  intros Hn Hk HB Hv [Ha Hs _ _ _ _ _] [He Hst _ _ _ _ _] Hr Hne Hstood Hballots Hcamp Hcalls.
  destruct (log_facts n G B a p lg Hk HB Ha Hr) as (Htr&_&_). destruct (evolves_moves p k p' He) as [Ht _].
  split; cbn; try done.
  - by left.
  - intros T i Hi Hp. by eapply vs_keep.
  - by left.
  - intros T' h T i. by apply (vs_hist _ _ Hv).
  - apply (vs_terms _ _ Hv).
  - intros e Hin. pose proof (vs_log_terms _ _ Hv a p lg e Ha Hr Hin). lia.
  - intros Hc. destruct (step_charge p k p' (pk_leader P _ (nk_proc P _ Hn a p Ha)) Hst Hs Hc)
      as [[Hc0 ->]|[-> [t Hpc]]]; [by eapply vs_self|by destruct (Hne t)].
Qed.

Lemma not_electing k p : pc p <> Electing \/ k <> LMain ->
  match k with LMain => pc p <> Electing | _ => True end.
Proof. destruct k; try done. by intros [?|?]. Qed.

(** Neither an election starts, nor a vote is asked for. *)
Lemma quiet_duties n l n' a p k p' G B lg :
  net_ok P n -> logs_ok n (hist G) B -> B < max_uint -> votes_safe n G -> moves_node n l n' a p k p' ->
  node_move (hist G) p k p' (hist G) -> repr (logStore (node p)) lg ->
  (forall t, k = LMain -> pc p = Elected t -> False) ->
  pc p <> Electing \/ k <> LMain -> (forall req, k <> LCommand (CRequestVote req)) ->
  vote_duties n a p k p' G G lg.
Proof.
  intros Hn Hk HB Hv Hmv Hnm Hr Hne Hel Hreq. replace G with (mkGhost (hist G) (stood G) (acks G)) at 2 by (by destruct G).
  pose proof Hmv as [Ha Hs _ _ _ _ _]. destruct (no_election a p k (not_electing k p Hel)) as [Enc Eob].
  apply (kept_duties n l n' a p k p' G (stood G) B lg); try done.
  - by left.
  - intros v T' c Hc. assert (cast a p k = []) as E.
    { destruct k as [|[req|req|]| | | | | | | | | | | | | |]; try done. by destruct (Hreq req). }
    rewrite E in Hc. by apply elem_of_nil in Hc.
  - intros Hc. destruct (step_campaign p k p' (mv_polite _ _ _ _ _ Hnm) Hs Hc Hel) as (Hc0&Et&_).
    destruct (evolves_moves p k p' (mv_evolves _ _ _ _ _ Hnm)) as [_ Hcfg].
    unfold id_of. rewrite Hcfg, Et. by apply (vs_campaign _ _ Hv a p).
  - intros req Hin. rewrite Enc in Hin. by apply elem_of_nil in Hin.
Qed.

(** An election starts: the candidate stands with its log. *)
Lemma electing_duties n l n' a p p' G B lg :
  net_ok P n -> logs_ok n (hist G) B -> B < max_uint -> votes_safe n G -> moves_node n l n' a p LMain p' ->
  node_move (hist G) p LMain p' (hist G) -> repr (logStore (node p)) lg -> pc p = Electing ->
  vote_duties n a p LMain p' G (mkGhost (hist G) (<[(id_of p', term p') := lg]> (stood G)) (acks G)) lg.
Proof.
  intros Hn Hk HB Hv Hmv Hnm Hr Hpc. pose proof Hmv as [Ha Hs _ _ _ _ _].
  destruct (log_facts n G B a p lg Hk HB Ha Hr) as (Htr&Hz&_).
  simpl in Hs. pose proof Hs as Hs0. unfold main_step in Hs0. rewrite Hpc in Hs0.
  apply try_some in Hs0 as ([[r' req] to]&He&_).
  destruct (electing_step p p' r' req to Hpc He Hs) as (Enode&_&_).
  pose proof (startElection_role _ _ _ _ He) as ((_&Et&_&Ec)%role_proj&Ereq&Ecand&_).
  pose proof (mv_range _ _ _ _ _ Hnm eq_refl) as Hrg.
  rewrite uwrap64_small in Et by (unfold term in *; lia). fold (term p) in Et.
  assert (term p' = term p + 1) as Hterm by (unfold term at 1; by rewrite Enode).
  assert (id_of p' = id_of p) as Hid by (unfold id_of; by rewrite Enode, Ec).
  assert (rv_Term req = term p') as E1 by (rewrite Ereq, Et; done).
  assert (rv_CandidateID req = id_of p') as E2 by (by rewrite Ecand, Hid).
  assert (rv_LastLogIndex req = zlen lg /\ rv_LastLogTerm req = last_term lg) as [E3 E4].
  { unfold startElection in He. destruct (persistState_total (set_votedFor (ServerID (config (node p)))
      (set_currentTerm (currentTerm (node p) +ᵤ 1)%go (node p)))) as (r1&Er1&Hsame).
    rewrite Er1 in He. cbn [mbind outcome_bind] in He. rewrite (lastLogInfo_same _ _ Hsame) in He.
    change (lastLogInfo (set_votedFor _ (set_currentTerm _ (node p)))) with (lastLogInfo (node p)) in He.
    rewrite (lastLogInfo_log _ lg Hr) in He by lia. injection He as _ <- _. done. }
  apply (kept_duties n l n' a p LMain p' G _ B lg); try done.
  - intros t _ Hx. congruence.
  - right. split; [done|lia].
  - intros v T' c Hc. unfold cast, own_ballot in Hc. rewrite Hpc, He in Hc.
    apply list_elem_of_singleton in Hc. injection Hc as -> -> ->. rewrite E1, E2.
    split_and!; [done..|]. exists lg. rewrite lookup_insert_eq. split; [done|].
    intros T i _ Hi Hp. by eapply vs_keep.
  - intros _. apply lookup_insert_eq.
  - intros req' Hin. unfold new_calls in Hin. rewrite Hpc, He in Hin.
    apply list_elem_of_fmap in Hin as (c&->&(b&->&_)%list_elem_of_fmap). cbn.
    exists lg. rewrite E1, E2, lookup_insert_eq. done.
Qed.

(** A vote is asked for: when it is granted, the candidate's log is up to date. *)
Lemma asked_duties n l n' a p req p' G B lg :
  net_ok P n -> logs_ok n (hist G) B -> B < max_uint -> votes_safe n G ->
  moves_node n l n' a p (LCommand (CRequestVote req)) p' -> req ∈ requests n ->
  node_move (hist G) p (LCommand (CRequestVote req)) p' (hist G) -> repr (logStore (node p)) lg ->
  vote_duties n a p (LCommand (CRequestVote req)) p' G G lg.
Proof.
  intros Hn Hk HB Hv Hmv Hin Hnm Hr. replace G with (mkGhost (hist G) (stood G) (acks G)) at 2 by (by destruct G).
  pose proof Hmv as [Ha Hs _ _ _ _ _].
  destruct (log_facts n G B a p lg Hk HB Ha Hr) as (Htr&Hz&_).
  apply (kept_duties n l n' a p _ p' G (stood G) B lg); try done.
  - by left.
  - intros v T' c Hc. unfold cast in Hc. destruct (vote_ok (node p) req) eqn:Hok; [|by apply elem_of_nil in Hc].
    apply list_elem_of_singleton in Hc. injection Hc as -> -> ->. split; [done|].
    simpl in Hs. destruct (command_node _ _ _ Hs) as (r'&rsp&b&Hh&Hrole&_).
    destruct (handleRPC_vote_role _ _ _ _ _ Hh) as [_ Hrole']. rewrite Hrole', Hok in Hrole.
    apply role_proj in Hrole as (_&Et&_).
    unfold vote_ok in Hok. apply andb_prop in Hok as [Hok Hup]. apply andb_prop in Hok as [Hle _].
    apply Z.leb_le in Hle.
    assert (term p' = rv_Term req) as ->.
    { unfold term. rewrite Et. unfold at_term. cbn.
      destruct (Z.ltb_spec (currentTerm (node p)) (rv_Term req)); cbn; [done|lia]. }
    split; [done|]. destruct (vs_calls _ _ Hv req Hin) as (kk&Hkk&E3&E4). exists kk. split; [done|].
    intros T i HT Hi Hp. rewrite (lastLogInfo_log _ lg Hr), E3, E4 in Hup by lia. cbn in Hup.
    destruct (vs_candidate _ _ Hv _ _ _ Hkk) as [Hkt _]. pose proof (lk_history _ _ _ Hk) as HH.
    apply (up_to_date_safe P (terms n) (hist G) (acks G) kk lg T i); try done.
    + apply (vs_terms _ _ Hv).
    + intros U h Hh0. split; [by eapply hs_term|by eapply hs_tracked].
    + intros U h Hh0 HU. by eapply vs_hist.
    + by eapply vs_keep.
  - intros Hc. destruct (step_campaign p _ p' (mv_polite _ _ _ _ _ Hnm) Hs Hc) as (Hc0&Et&_); [by right|].
    destruct (evolves_moves p _ p' (mv_evolves _ _ _ _ _ Hnm)) as [_ Hcfg].
    unfold id_of. rewrite Hcfg, Et. by apply (vs_campaign _ _ Hv a p).
  - intros req' Hx. by apply elem_of_nil in Hx.
Qed.

(** ** The steps that write *)

(** A server that gave its vote to the winner of a later term has the entry, or the
    entry is dead. *)
Lemma voter_or_dead n G a p T' T i :
  net_ok P n -> procs n !! a = Some p -> T' ∈ won p -> T < T' ->
  (exists v, (v, T', id_of p) ∈ ballots n /\ acked (acks G) v T i) \/ dead P (terms n) (acks G) T i.
Proof.
  intros Hn Ha Hw HT. destruct (po_decided P _ _ (nk_poll P _ Hn) T' a (view_of p)) as (Q&Q1&Q2&Q3&HQ);
    [apply views_lookup; eauto|done|].
  destruct (decide (Exists (fun v => acked (acks G) v T i) Q)) as [(v&Hv&Hi)%Exists_exists|Hno].
  - left. exists v. split; [by apply HQ|done].
  - right. exists Q. split; [done|]. intros v Hv. split.
    + destruct (HQ v Hv) as (Hb&_). destruct (po_old P _ _ (nk_poll P _ Hn) _ _ _ Hb) as (_&w&Hw'&Hle).
      apply views_lookup in Hw' as (q&Hq&->). cbn in Hle. exists (term q). split; [|lia].
      apply terms_lookup. eauto.
    + intros Hi. apply Hno, Exists_exists. eauto.
Qed.

(** A term is won: the log the candidate stood with becomes the history of the term. *)
Lemma office_duties n l n' a p p' G B t lg :
  net_ok P n -> logs_ok n (hist G) B -> B < max_uint -> votes_safe n G -> moves_node n l n' a p LMain p' ->
  node_move (hist G) p LMain p' (<[t := lg]> (hist G)) -> repr (logStore (node p)) lg ->
  pc p = Elected t -> hist G !! t = None ->
  vote_duties n a p LMain p' G
    (mkGhost (<[t := lg]> (hist G)) (stood G) (bump (acks G) a t (length lg))) lg.
Proof.
  intros Hn Hk HB Hv [Ha Hs _ _ _ _ _] [He _ _ _ _ Hext _] Hr Hpc Hnone.
  destruct (log_facts n G B a p lg Hk HB Ha Hr) as (Htr&_&_).
  pose proof (li_pc _ (pk_leader P _ (nk_proc P _ Hn a p Ha))) as Hpi. unfold pc_inv in Hpi. rewrite Hpc in Hpi.
  destruct Hpi as [Et Hin]. fold (term p) in Et.
  destruct (no_election a p LMain) as [Enc Eob]; [congruence|].
  simpl in Hs. unfold main_step in Hs. rewrite Hpc in Hs. injection Hs as <-.
  assert (term (goto p (becomeLeader (node p)) AtRun) = t) as Et'.
  { pose proof (becomeLeader_role (node p)) as (_&E&_)%role_proj. unfold term in *. cbn. congruence. }
  assert (forall T i, T < t -> point (hist G) T i -> safe_in n G lg T i) as Hsafe.
  { intros T i HT Hp. destruct (voter_or_dead n G a p t T i Hn Ha Hin HT) as [(v&Hb&Hi)|Hd]; [|by right].
    apply (vs_vote _ _ Hv v t (id_of p) lg T i); try done. rewrite <-Et.
    apply (vs_campaign _ _ Hv a p); [done| |done]. unfold campaigns. by rewrite Hpc. }
  split; cbn [hist stood acks]; rewrite ?Et', ?Enc; unfold cast; rewrite ?Eob; try done.
  - by left.
  - right. exists (length lg), lg. rewrite lookup_insert_eq. done.
  - intros T i Hi Hp. by eapply vs_keep.
  - intros T i (h&e&Hh&Hi1&He1&Hte). left. destruct (decide (T = t)) as [->|Hne].
    + rewrite lookup_insert_eq in Hh. injection Hh as <-. destruct (Htr _ _ He1) as (h&Hh&_). congruence.
    + rewrite lookup_insert_ne in Hh by done. by exists h, e.
  - intros T' h T i [[<- <-]|[_ Hh]]%lookup_insert_Some HT Hp; [by apply Hsafe|by eapply vs_hist].
  - intros v T' c Hc. by apply elem_of_nil in Hc.
  - intros T h e [[<- <-]|[_ Hh]]%lookup_insert_Some Hin'; [rewrite <-Et; by eapply vs_log_terms|].
    by eapply (vs_terms _ _ Hv).
  - intros req Hx. by apply elem_of_nil in Hx.
  - intros e Hin'. rewrite <-Et. by eapply vs_log_terms.
  - intros _. apply acked_bump. right. auto.
  - by eapply tracked_extends.
Qed.

(** The leader writes an entry of its own: nobody has acknowledged it, and if a later
    term has been won, nobody will. *)
Lemma own_duties n l n' a p k p' G B lg e :
  net_ok P n -> logs_ok n (hist G) B -> B < max_uint -> votes_safe n G -> moves_node n l n' a p k p' ->
  node_move (hist G) p k p' (<[term p := lg ++ [e]]> (hist G)) ->
  (k = LMain /\ pc p = LeaderNoOp) \/ k = LRequest -> hist G !! term p = Some lg ->
  repr (logStore (node p)) lg -> repr (logStore (node p')) (lg ++ [e]) -> Term e = term p -> term p' = term p ->
  vote_duties n a p k p' G
    (mkGhost (<[term p := lg ++ [e]]> (hist G)) (stood G) (bump (acks G) a (term p) (length (lg ++ [e]))))
    (lg ++ [e]).
Proof.
  intros Hn Hk HB Hv [Ha Hs _ _ _ _ _] [He _ Hpol _ _ Hext _] Hk' Hh Hr Hr' Hte Et'.
  destruct (log_facts n G B a p lg Hk HB Ha Hr) as (Htr&Hz&_).
  assert (pc p <> Electing \/ k <> LMain) as Hel by (destruct Hk' as [[_ E]| ->]; [left; congruence|by right]).
  destruct (no_election a p k (not_electing k p Hel)) as [Enc Eob].
  assert (cast a p k = []) as Eca by (by destruct Hk' as [[-> _]| ->]).
  split; cbn [hist stood acks]; rewrite ?Et', ?Enc, ?Eca; try done.
  - by left.
  - right. exists (length (lg ++ [e])), (lg ++ [e]). rewrite lookup_insert_eq. done.
  - intros T i Hi Hp. apply safe_app. by eapply vs_keep.
  - intros T i (h&x&Hx&Hi1&Hx1&Htx). destruct (decide (T = term p)) as [->|Hne].
    2: { left. rewrite lookup_insert_ne in Hx by done. by exists h, x. }
    rewrite lookup_insert_eq in Hx. injection Hx as <-.
    destruct (Nat.le_gt_cases i (length lg)) as [Hle|Hgt].
    { left. exists lg, x. rewrite lookup_app_l in Hx1 by lia. done. }
    right. split; [done|].
    assert (forall v, ~ acked (acks G) v (term p) i) as Hno.
    { intros v Hi. destruct (vs_acks _ _ Hv v (term p) i Hi) as [_ (h&Hh'&Hl)].
      assert (h = lg) as -> by congruence. lia. }
    split; [done|]. intros T' h' Hh' HT. rewrite lookup_insert_ne in Hh' by lia.
    destruct (lk_won _ _ _ Hk T' h' Hh') as [b (q&Hq&Hin)%winner_views].
    destruct (voter_or_dead n G b q T' (term p) i Hn Hq Hin HT) as [(v&_&Hi)|Hd]; [by destruct (Hno v)|done].
  - intros T' h T i [[<- <-]|[_ Hx]]%lookup_insert_Some HT Hp; [|by eapply vs_hist].
    apply safe_app. by eapply vs_hist.
  - intros v T' c Hc. by apply elem_of_nil in Hc.
  - intros T h x [[<- <-]|[_ Hx]]%lookup_insert_Some Hin; [|by eapply (vs_terms _ _ Hv)].
    apply elem_of_app in Hin as [Hin| ->%list_elem_of_singleton]; [by eapply vs_log_terms|lia].
  - intros Hc. destruct (step_campaign p k p' Hpol Hs Hc Hel) as (_&_&El). rewrite El in Hr'.
    assert (lg = lg ++ [e]) as E by (apply (repr_unique (logStore (node p))); [lia|done..]).
    apply (f_equal length) in E. rewrite length_app in E. cbn in E. lia.
  - intros req Hx. by apply elem_of_nil in Hx.
  - intros x [Hin| ->%list_elem_of_singleton]%elem_of_app; [by eapply vs_log_terms|lia].
  - intros _. apply acked_bump. right. auto.
  - by apply tracked_append.
Qed.

Definition acks_after (A : acknowledged) (a : text) (T : Z) (resp : AppendEntriesResponse) (i : nat) : acknowledged :=
  if aer_Success resp then bump A a T i else A.

(** A request arrives: what the server has acknowledged to earlier leaders stays in its
    log, and when it succeeds it acknowledges what was sent. *)
Lemma append_duties n l n' a p req p' resp G B lg h k m l' :
  net_ok P n -> logs_ok n (hist G) B -> B < max_uint -> votes_safe n G ->
  moves_node n l n' a p (LCommand (CAppendEntries req)) p' ->
  repr (logStore (node p)) lg -> hist G !! ae_Term req = Some h -> tracked (hist G) l' ->
  append_effect p req p' resp lg h k m l' ->
  vote_duties n a p (LCommand (CAppendEntries req)) p' G
    (mkGhost (hist G) (stood G) (acks_after (acks G) a (ae_Term req) resp (k + m))) l'.
Proof.
  intros Hn Hk HB Hv [Ha Hs _ _ _ _ _] Hr Hh Htr' [Hsent Hle Et' Hr' [Hnc Hncamp] Hlen Hfrom Hkeep Hsucc _].
  split; cbn [hist stood acks]; rewrite ?Et'; try done.
  - by left.
  - unfold acks_after. destruct (aer_Success resp); [right|by left]. exists (k + m)%nat, h.
    split_and!; [done..|apply (se_len _ _ _ _ Hsent)|by apply Hsucc].
  - intros T i Hi Hp. destruct (vs_acks _ _ Hv a T i Hi) as [(q&Hq&HTq) _].
    assert (q = p) as -> by congruence.
    destruct (vs_keep _ _ Hv a p lg T i Ha Hr Hi Hp) as [Hpre|Hd]; [|by right].
    pose proof (pref_len _ _ _ _ Hpre) as Hil. destruct Hpre as (hT&HhT&HihT&Eq).
    assert (take i h = take i hT \/ dead P (terms n) (acks G) T i) as [Eh|Hd]; [|left|by right].
    { destruct (Z.eq_dec T (ae_Term req)) as [->|Hne]; [left; congruence|].
      destruct (vs_hist _ _ Hv (ae_Term req) h T i Hh) as [(h2&Hh2&_&E)|Hd]; [lia|done| |by right].
      left. congruence. }
    exists hT. split_and!; [done..|]. destruct (Hkeep i Hil) as [_ ->]; [congruence|done].
  - by left.
  - intros T' h' T i. by apply (vs_hist _ _ Hv).
  - intros v T' c Hc. by apply elem_of_nil in Hc.
  - apply (vs_terms _ _ Hv).
  - intros q Hx. by apply elem_of_nil in Hx.
  - intros e Hin. destruct (Hfrom e Hin) as [Hin'|Hin'].
    + pose proof (vs_log_terms _ _ Hv a p lg e Ha Hr Hin'). lia.
    + by eapply (vs_terms _ _ Hv).
Qed.

(** ** One step *)

(** The records of votes and acknowledgements after a step. *)
Record votes_after n G n' G' : Prop := mk_votes_after {
  va_safe : votes_safe n' G';
  va_later : later (terms n) (acks G) (terms n') (acks G');
  va_extends : extends (hist G) (hist G')
}.

Lemma votes_moved_after n l n' a p k p' G G' l' :
  net_ok P n -> net_ok P n' -> votes_safe n G -> moves_node n l n' a p k p' -> evolves p k p' ->
  extends (hist G) (hist G') -> repr (logStore (node p')) l' -> zlen l' <= max_uint ->
  vote_duties n a p k p' G G' l' -> votes_after n G n' G'.
Proof.
  intros Hn Hn' Hv Hmv He Hext Hr Hz Hd. split; [by apply (votes_moved n l n' a p k p' G G' l')| |done].
  destruct Hmv as [Ha _ Ep _ _ _ _]. eapply duties_later; [exact Ha|exact Ep| |exact Hd].
  by destruct (evolves_moves p k p' He).
Qed.

(** What a step does to the log [lg] of the server at [a]. *)
Inductive effect G (a : text) p (k : label) p' G' (lg : list LogEntry) : list LogEntry -> Prop :=
| ef_same : (forall req, k <> LCommand (CAppendEntries req)) -> effect G a p k p' G' lg lg
| ef_own e : (k = LMain /\ pc p = LeaderNoOp) \/ k = LRequest -> in_charge p -> effect G a p k p' G' lg (lg ++ [e])
| ef_refused req r' resp b : k = LCommand (CAppendEntries req) ->
    handleAppendEntries (node p) req = Ret (r', resp, b) -> aer_Success resp = false ->
    commitIndex (node p') = commitIndex (node p) -> effect G a p k p' G' lg lg
| ef_append req r' resp b h i m l' : k = LCommand (CAppendEntries req) ->
    handleAppendEntries (node p) req = Ret (r', resp, b) -> hist G !! ae_Term req = Some h ->
    append_effect p req p' resp lg h i m l' ->
    (aer_Success resp = true -> acked (acks G') a (ae_Term req) (i + m)) -> effect G a p k p' G' lg l'.

Lemma append_votes n l n' a p req p' G B lg :
  net_ok P n -> net_ok P n' -> logs_ok n (hist G) B -> logs_ok n' (hist G) (B + 1) -> 2 * B < max_uint - 1 -> 0 <= B ->
  votes_safe n G -> moves_node n l n' a p (LCommand (CAppendEntries req)) p' ->
  node_move (hist G) p (LCommand (CAppendEntries req)) p' (hist G) -> repr (logStore (node p)) lg ->
  exists G' l', hist G' = hist G /\ votes_after n G n' G' /\ repr (logStore (node p')) l' /\
    effect G a p (LCommand (CAppendEntries req)) p' G' lg l'.
Proof.
  intros Hn Hn' Hk Hk' HB HB0 Hv Hmv Hnm Hr. pose proof Hmv as [Ha Hs Ep _ Hpr _ _].
  destruct (log_facts n G B a p lg Hk ltac:(lia) Ha Hr) as (Htr&Hz&_).
  assert (procs n' !! a = Some p') as Ha' by (by rewrite Ep, lookup_insert_eq).
  destruct (prompted_append n l a p req Hpr) as (v&Hin&->&_). pose proof (lk_requests _ _ _ Hk v Hin) as [Hreq _].
  set (req := ac_req v) in *. pose proof (lk_history _ _ _ Hk) as HH. simpl in Hs.
  assert ((ae_Term req < term p \/ (0 < ae_PrevLogIndex req <= max_uint /\ ae_PrevLogTerm req = 0)) \/
    (term p <= ae_Term req /\ exists h i m, hist G !! ae_Term req = Some h /\ sent_from h req i m))
    as [Hno|(Hle&h&i&m&Hh&Hsent)].
  { destruct (Z.lt_ge_cases (ae_Term req) (term p)); [by left; left|]. destruct Hreq as [?|?]; auto. }
  - destruct (delivered_refused p req p' (hist G) B lg) as (r'&resp&b&Hhd&Hf&El&Ec); try done; [lia|].
    exists G, lg. split; [done|]. split; [|split; [by rewrite El|by eapply ef_refused]].
    apply (votes_moved_after n l n' a p (LCommand (CAppendEntries req)) p' G G lg); try done;
      [apply Hnm|apply extends_refl|by rewrite El|lia|].
    apply (quiet_duties n l n' a p (LCommand (CAppendEntries req)) p' G B lg); try done; [lia|by right].
  - destruct (delivered_effect p req p' (hist G) B lg h i m) as (r'&resp&b&l'&Hhd&Hap); try done; [lia|].
    destruct (log_facts n' G (B + 1) a p' l' Hk' ltac:(lia) Ha' (ap_log _ _ _ _ _ _ _ _ _ Hap)) as (Htr'&Hz'&_).
    exists (mkGhost (hist G) (stood G) (acks_after (acks G) a (ae_Term req) resp (i + m))), l'.
    split; [done|]. split; [|split; [apply Hap|]].
    + apply (votes_moved_after n l n' a p (LCommand (CAppendEntries req)) p' G _ l'); try done;
        [apply Hnm|apply extends_refl|apply Hap|lia|].
      apply (append_duties n l n' a p req p' resp G B lg h i m l'); try done. lia.
    + eapply ef_append; try done. cbn. intros Hx. unfold acks_after. rewrite Hx.
      apply acked_bump. right. auto.
Qed.

Lemma votes_step n l n' a p k p' G Hi' B lg :
  net_ok P n -> net_ok P n' -> logs_ok n (hist G) B -> logs_ok n' Hi' (B + 1) -> 2 * B < max_uint - 1 -> 0 <= B ->
  votes_safe n G -> moves_node n l n' a p k p' -> node_move (hist G) p k p' Hi' -> repr (logStore (node p)) lg ->
  exists G' l', hist G' = Hi' /\ votes_after n G n' G' /\ repr (logStore (node p')) l' /\
    effect G a p k p' G' lg l'.
Proof.
  intros Hn Hn' Hk Hk' HB HB0 Hv Hmv Hnm Hr. pose proof Hmv as [Ha Hs _ _ Hpr _ _].
  destruct (log_facts n G B a p lg Hk ltac:(lia) Ha Hr) as (Htr&Hz&_).
  pose proof (mv_change _ _ _ _ _ Hnm) as Hlc.
  destruct Hlc as [El Hne|t l0 -> Hpc El Hr0 Hnone|l0 data Hkk Hch Hh Hr0 Hr' Et|req ->].
  - destruct (match k with LCommand (CAppendEntries _) => true | _ => false end) eqn:Hae.
    { destruct k as [|[req|?|]| | | | | | | | | | | | | |]; try done. by eapply append_votes. }
    assert (forall req, k <> LCommand (CAppendEntries req)) as Hnae by (by intros req ->).
    assert ((k = LMain /\ pc p = Electing) \/ (pc p <> Electing \/ k <> LMain)) as [[-> Hpc]|Hel].
    { destruct (decide (pc p = Electing)) as [E|E]; [|auto]. destruct k; auto. }
    { set (G' := mkGhost (hist G) (<[(id_of p', term p') := lg]> (stood G)) (acks G)).
      exists G', lg. split; [done|]. split; [|split; [by rewrite El|by apply ef_same]].
      apply (votes_moved_after n l n' a p LMain p' G G' lg); try done; [apply Hnm|apply extends_refl|by rewrite El|lia|].
      apply (electing_duties n l n' a p p' G B lg); try done; lia. }
    exists G, lg. split; [done|]. split; [|split; [by rewrite El|by apply ef_same]].
    apply (votes_moved_after n l n' a p k p' G G lg); try done; [apply Hnm|apply extends_refl|by rewrite El|lia|].
    destruct (match k with LCommand (CRequestVote _) => true | _ => false end) eqn:Hrv.
    + destruct k as [|[?|req|]| | | | | | | | | | | | | |]; try done.
      apply (asked_duties n l n' a p req p' G B lg); try done; [lia|].
      remember (LCommand (CRequestVote req)) as k eqn:Hkq.
      destruct Hpr as [k Ho _|resp|c Hc _|v Hv0 _|i k v resp]; try done; try (by subst k); [|by destruct k].
      injection Hkq as <-. by apply list_elem_of_fmap_2.
    + apply (quiet_duties n l n' a p k p' G B lg); try done; [lia|by intros req ->].
  - assert (lg = l0) as <- by (apply (repr_unique (logStore (node p))); [lia|done..]).
    set (G' := mkGhost (<[t := lg]> (hist G)) (stood G) (bump (acks G) a t (length lg))).
    exists G', lg. split; [done|]. split; [|split; [by rewrite El|by apply ef_same]].
    apply (votes_moved_after n l n' a p LMain p' G G' lg); try done; [apply Hnm| |by rewrite El|lia|].
    + by apply extends_office.
    + apply (office_duties n l n' a p p' G B t lg); try done; lia.
  - assert (lg = l0) as <- by (apply (repr_unique (logStore (node p))); [lia|done..]).
    set (e := mkLog (zlen lg + 1) (term p) data) in *.
    set (G' := mkGhost (<[term p := lg ++ [e]]> (hist G)) (stood G)
                 (bump (acks G) a (term p) (length (lg ++ [e])))).
    exists G', (lg ++ [e]). split; [done|]. split; [|split; [done|by apply ef_own]].
    apply (votes_moved_after n l n' a p k p' G G' (lg ++ [e])); try done; [apply Hnm| | |].
    + by apply extends_append.
    + rewrite zlen_app, zlen_cons, zlen_nil. lia.
    + apply (own_duties n l n' a p k p' G B lg e); try done; lia.
  - by eapply append_votes.
Qed.

Lemma votes_still n n' G :
  votes_safe n G -> procs n' = procs n -> ballots n' = ballots n ->
  (forall req, req ∈ requests n' -> req ∈ requests n) -> votes_safe n' G.
Proof.
  intros [V1 V2 V3 V4 V5 V6 V7 V8 V9 V10 V11] Ep Eb Ec.
  assert (terms n' = terms n) as Et by (unfold terms; by rewrite Ep).
  unfold safe_in in *. split; rewrite ?Ep, ?Eb; unfold safe_in; rewrite ?Et; try done.
  intros req Hreq. by apply V8, Ec.
Qed.

(** A server that is started again has the log it had, and a term no earlier. *)
Lemma votes_restarted n l n' G a p s p' :
  votes_safe n G -> calm n l -> restarts_node n l n' a p s p' ->
  votes_safe n' G /\ later (terms n) (acks G) (terms n') (acks G).
Proof.
  intros [V1 V2 V3 V4 V5 V6 V7 V8 V9 V10 V11] Hcalm Hrn.
  destruct (restarted_net n l n' a p s p' Hcalm Hrn) as (Et&Eid&Hg).
  destruct Hrn as [_ Ha Hr Ep _ Eb Ec]. pose proof (restarted_idle p s p' Hr) as Hidle.
  assert (~ campaigns p') as Hcamp.
  { destruct (rs_goroutines _ _ _ Hr) as [Hpc _]. unfold campaigns. rewrite Hpc. tauto. }
  assert (Hold : forall b q, procs n' !! b = Some q -> (b = a /\ q = p') \/ procs n !! b = Some q).
  { intros b q Hq. rewrite Ep in Hq. apply lookup_insert_Some in Hq as [[<- <-]|[_ ?]]; auto. }
  assert (later (terms n) (acks G) (terms n') (acks G)) as Hlt.
  { split; [|done|by left]. intros v t (q&Hq&->)%terms_lookup.
    destruct (gr_procs _ _ Hg v q Hq) as (q'&Hq'&_&Hle&_). exists (term q'). split; [|done]. apply terms_lookup. eauto. }
  assert (Hsafe : forall x T i, safe_in n G x T i -> safe_in n' G x T i).
  { intros x T i. apply safe_later; [done|apply extends_refl]. }
  split; [|done]. split; rewrite ?Eb; try done.
  - intros T' h T i Hh HT Hp. by eapply Hsafe, V2.
  - intros v q x T i [[-> ->]|Hq]%Hold Hx Hi Hp; apply Hsafe; [|by eapply V3].
    rewrite (rs_log _ _ _ Hr) in Hx. by eapply V3.
  - intros v T' c k T i Hb Hk HT Hi Hp. by eapply Hsafe, V4.
  - intros c T k Hk. destruct (V6 c T k Hk) as [Htr (b&q&Hq&Eq&Hle)]. split; [done|].
    destruct (gr_procs _ _ Hg b q Hq) as (q'&Hq'&E1&E2&_). exists b, q'. split_and!; [done|congruence|lia].
  - intros b q x [[-> ->]|Hq]%Hold Hc; [done|by apply (V7 b q)].
  - unfold requests. rewrite Ec. exact V8.
  - intros v T i Hi. destruct (V9 v T i Hi) as [(q&Hq&Hle) Hh]. split; [|done].
    destruct (gr_procs _ _ Hg v q Hq) as (q'&Hq'&_&E2&_). exists q'. split; [done|lia].
  - intros b q x e [[-> ->]|Hq]%Hold Hx Hin; [|by eapply (V10 b q)].
    rewrite (rs_log _ _ _ Hr) in Hx. pose proof (V10 a p x e Ha Hx Hin). lia.
  - intros b q x [[-> ->]|Hq]%Hold Hc; [done|by apply (V11 b q)].
Qed.

Lemma later_refl tm A : later tm A tm A.
Proof. split; [intros v t Ht; exists t; split; [done|lia]|done|by left]. Qed.

Lemma boot_votes (nodes : gmap text (RaftNode L Sb F R)) :
  cluster P nodes -> fresh_servers nodes -> votes_safe (boot nodes) (mkGhost ∅ ∅ ∅).
Proof.
  intros [_ _ Hb] Hf.
  assert (Hp : forall a p, procs (boot nodes) !! a = Some p ->
    exists r, p = start r /\ repr (logStore r) [] /\ state r = Follower).
  { intros a p Ha. cbn in Ha. rewrite lookup_fmap in Ha. destruct (nodes !! a) as [r|] eqn:E; [|done].
    injection Ha as <-. exists r. split; [done|]. split; [by eapply Hf|by apply (bt_state P a), Hb]. }
  assert (Hack : forall v T i, ~ acked ∅ v T i) by (intros v T i (m&Hm&_); by rewrite lookup_empty in Hm).
  split; cbn [hist stood acks].
  - intros T h e Hh. by rewrite lookup_empty in Hh.
  - intros T' h T i Hh. by rewrite lookup_empty in Hh.
  - intros v p l T i _ _ Hi. by destruct (Hack v T i).
  - intros v T' c k T i Hx. by apply elem_of_nil in Hx.
  - intros v T' c Hx. by apply elem_of_nil in Hx.
  - intros c T k Hk. by rewrite lookup_empty in Hk.
  - intros a p l Ha. by destruct (Hp a p Ha) as (r&->&_).
  - intros req Hx. by apply elem_of_nil in Hx.
  - intros v T i Hi. by destruct (Hack v T i).
  - intros a p l e Ha Hl Hin. destruct (Hp a p Ha) as (r&->&Hr&_).
    assert ([] = l) as <- by (by apply (repr_unique (logStore r))). by apply elem_of_nil in Hin.
  - intros a p l Ha Hc. destruct (Hp a p Ha) as (r&->&_&Hs). destruct Hc as [Hc|[Hc|Hc]]; cbn in Hc; congruence.
Qed.

End votes.
