(* ===== verification/CommitSafety.v ===== *)
(** State machine safety across a cluster ([advanceCommitIndex], [replicateOnce],
    [handleAppendEntries] of [internal/raft]): what two servers have committed at an index
    is the same entry, whatever crashes.

    A commit index is justified by an entry that [LeaderCompleteness] calls chosen. A
    leader chooses one when its peers' [matchIndex] are what the peers acknowledged in its
    term; a follower takes over what the leader has committed. *)
From S2P Require Import Prelude Stores Future Config Node Election Replication Rpc Leader Machine.
From S2P Require Import Restart Frame Network ElectionSafety LogMatching LeaderCompleteness.

(** * One node *)

Section node.
  Context {L Sb F R : Type} `{LogStoreSpec L} `{StableStoreSpec Sb} `{FSM F R}.
  Implicit Types r : RaftNode L Sb F R.
  Implicit Types p : proc L Sb F R.

(** The peers' addresses and what the node believes they hold. *)
Definition places r : gmap text (text * Z) := (fun q => (ps_addr q, matchIndex q)) <$> peers r.

(** Nothing about commitment changes; a new request in flight is of the node's term. *)
Record unmoved p p' : Prop := mk_unmoved {
  um_commit : commitIndex (node p') = commitIndex (node p);
  um_places : places (node p') = places (node p);
  um_sent : forall id req, inflight p' !! id = Some req ->
    inflight p !! id = Some req \/ ae_Term req = term p
}.

Lemma unmoved_node p r k s ap w :
  commitIndex r = commitIndex (node p) -> places r = places (node p) ->
  unmoved p (mkProc r k (inflight p) s ap w).
Proof. intros E1 E2. split; [done..|]. intros id req Hin. by left. Qed.

Lemma unmoved_kept p r k s ap w : kept (node p) r -> unmoved p (mkProc r k (inflight p) s ap w).
Proof.
  intros [E _ Ep]. apply unmoved_node; [unfold commits in E; congruence|]. unfold places. by rewrite Ep.
Qed.

Lemma set_place (m : gmap text peerState) id q q' :
  m !! id = Some q -> ps_addr q' = ps_addr q -> matchIndex q' = matchIndex q ->
  (fun q => (ps_addr q, matchIndex q)) <$> <[id := q']> m = (fun q => (ps_addr q, matchIndex q)) <$> m.
Proof.
  intros Hq E1 E2. rewrite fmap_insert. apply insert_id. by rewrite lookup_fmap, Hq, E1, E2.
Qed.

(** Storing an entry of the leader wakes the replicators. *)
Lemma trigger_places r : places (triggerReplication r) = places r.
Proof.
  unfold places, triggerReplication. cbn [peers set_peers]. rewrite <-map_fmap_compose.
  by apply map_fmap_ext.
Qed.

Lemma appendNoOp_places r r' : appendNoOp r = Ret r' -> commitIndex r' = commitIndex r /\ places r' = places r.
Proof.
  unfold appendNoOp, or_log. destruct (StoreLog (logStore r) (next_entry r [])); intros Hx; try done;
    injection Hx as <-; [|done]. by rewrite trigger_places.
Qed.

Lemma handleApplyRequest_places r req r' :
  handleApplyRequest r req = Ret r' -> commitIndex r' = commitIndex r /\ places r' = places r.
Proof.
  assert (forall err q, kept r q -> commitIndex (resolve (req_future req) (Some err) None q) = commitIndex r /\
    places (resolve (req_future req) (Some err) None q) = places r) as Hres.
  { intros err q Hk. destruct (kept_trans _ _ _ Hk (resolve_kept (req_future req) (Some err) None q)) as [E _ Ep].
    unfold commits in E. split; [congruence|]. unfold places. by rewrite Ep. }
  unfold handleApplyRequest. destruct (negb _).
  { intros [= <-]. by apply Hres, kept_refl. }
  destruct (StoreLog _ _); intros Hx; try done; injection Hx as <-.
  - by rewrite trigger_places.
  - apply Hres, kept_refl.
Qed.

Lemma main_unmoved p p' : main_step p = Some p' -> pc p <> LeaderInit -> unmoved p p'.
Proof.
  intros Hs Hne. unfold main_step in Hs. destruct (pc p) as [|[]| |t v []|t| | |[]|] eqn:Hpc;
    try (destruct (shutdownCh (node p)); [|done]);
    try (injection Hs as <-; apply unmoved_kept; first [apply kept_refl|apply becomeLeader_kept|apply fail_all_kept]).
  - destruct (shutdownCh (node p)), (state (node p)); injection Hs as <-; apply unmoved_kept, kept_refl.
  - apply try_some in Hs as ([[r' req] addrs]&He%startElection_kept&Hs). cbn [fst] in Hs.
    destruct (quorum r' <=? 1); injection Hs as <-; by apply unmoved_kept.
  - done.
  - apply try_some in Hs as (r'&[E1 E2]%appendNoOp_places&[= <-]). by apply unmoved_node.
  - case_bool_decide; injection Hs as <-; apply unmoved_kept; [apply kept_refl|apply fail_all_kept].
  - done.
Qed.

Lemma command_unmoved p cmd r' resp b p' :
  command_step p cmd = Some p' -> handleRPC (node p) cmd = Ret (r', resp, b) -> kept (node p) r' -> unmoved p p'.
Proof.
  unfold command_step. intros Hs Hh Hk. destruct (pc p) as [|[]| |t v []|t| | |[]|]; try done;
    apply try_some in Hs as ([[r2 resp2] b2]&Hh2&Hs); rewrite Hh in Hh2; injection Hh2 as <- <- <-;
    cbn [fst snd] in Hs; repeat case_match; injection Hs as <-; apply unmoved_kept; try done.
  all: eapply kept_trans; [exact Hk|apply fail_all_kept].
Qed.

(** The steps that may move a commit index or what the leader knows of its peers. *)
Definition moving p (k : label) : bool :=
  match k with
  | LMain => bool_decide (pc p = LeaderInit)
  | LResponse _ resp | LStaleResponse _ resp => aer_Success resp && (aer_Term resp <=? term p)
  | LCommand (CAppendEntries _) => true
  | _ => false
  end.

Lemma response_unmoved p id resp p' :
  response_step p id resp = Some p' -> moving p (LResponse id resp) = false -> unmoved p p'.
Proof.
  unfold response_step, moving. destruct (inflight p !! id) as [req|] eqn:Hin; [|done].
  intros (r'&Hr&[= <-])%try_some Hm.
  assert (commitIndex r' = commitIndex (node p) /\ places r' = places (node p)) as [E1 E2].
  { unfold replicate_process in Hr. fold (term p) in Hr. destruct (Z.ltb_spec (term p) (aer_Term resp)).
    { apply stepDown_kept in Hr as [E _ Ep]. unfold commits in E. split; [congruence|].
      unfold places. by rewrite Ep. }
    rewrite (proj2 (Z.leb_le _ _)), andb_true_r in Hm by lia. rewrite Hm in Hr.
    destruct (peers (node p) !! id) as [q|] eqn:Hq; [|by injection Hr as <-].
    apply bind_ret in Hr as (next&_&[= <-]). split; [done|]. by apply (set_place _ id q). }
  split; [done..|]. cbn. intros id' req' [_ Hx]%lookup_delete_Some. by left.
Qed.

Lemma stale_unmoved p k resp p' :
  stale_response p k resp = Some p' -> moving p (LStaleResponse k resp) = false -> unmoved p p'.
Proof.
  unfold stale_response, moving. destruct (stale p !! k) as [[q [req|]]|]; try done. fold (term p).
  destruct (Z.ltb_spec (term p) (aer_Term resp)).
  { intros (r'&Hr%stepDown_kept&[= <-])%try_some _. by apply unmoved_kept. }
  rewrite (proj2 (Z.leb_le _ _)), andb_true_r by lia. intros Hs Hm. rewrite Hm in Hs.
  apply try_some in Hs as (next&_&[= <-]). apply unmoved_kept, kept_refl.
Qed.

Lemma step_unmoved p k p' : step p k = Some p' -> moving p k = false -> unmoved p p'.
Proof.
  intros Hs Hm. destruct k as [|cmd| |resp| |id|id resp|id|k|k resp| | |data c|f|f|]; simpl in Hs.
  - apply main_unmoved; [done|]. cbn in Hm. by apply bool_decide_eq_false in Hm.
  - destruct (command_kept _ _ _ Hs) as (r'&resp&b&Hh&_). eapply command_unmoved; [done..|].
    destruct cmd as [req|req|]; [done|by apply (handleRPC_kept (node p) (CRequestVote req) r' resp b)|].
    by apply (handleRPC_kept (node p) COther r' resp b).
  - unfold timer_step in Hs. destruct (pc p) as [|[]| |t v []|t| | |[]|]; try done;
      injection Hs as <-; by apply unmoved_kept.
  - unfold vote_step in Hs. destruct (pc p) as [|[]| |t v []|t| | |[]|]; try done.
    destruct (currentTerm (node p) <? rvr_Term resp).
    { apply try_some in Hs as (r'&Hr%stepDown_kept&[= <-]). by apply unmoved_kept. }
    destruct (rvr_VoteGranted resp); [destruct (_ <=? _)|]; injection Hs as <-;
      apply unmoved_kept, kept_refl.
  - unfold request_step in Hs. destruct (pc p) as [|[]| |t v []|t| | |[]|]; try done.
    destruct (applyCh (node p)) as [|req rest]; [done|].
    apply try_some in Hs as (r'&[E1 E2]%handleApplyRequest_places&[= <-]). by apply unmoved_node.
  - unfold send_step in Hs. destruct (peers (node p) !! id) as [q|], (inflight p !! id); try done.
    apply try_some in Hs as ([req|]&Hb&Hs); [|done]. injection Hs as <-. split; [done..|]. cbn.
    intros id' req' [[<- <-]|[_ Hx]]%lookup_insert_Some; [right|by left].
    unfold replicate_build in Hb. destruct (negb _); [done|]. by apply bind_ret in Hb as (es&_&[= <-]).
  - by eapply response_unmoved.
  - injection Hs as <-. split; [done..|]. cbn. intros id' req' [_ Hx]%lookup_delete_Some. by left.
  - unfold stale_send in Hs. destruct (stale p !! k) as [[q [es|]]|] eqn:Hk; try done.
    apply try_some in Hs as ([req|]&_&Hs); [|done]. injection Hs as <-. apply unmoved_kept, kept_refl.
  - by eapply stale_unmoved.
  - unfold apply_wake in Hs. destruct (applying p), (commitNotifyCh (node p)); try done.
    injection Hs as <-. by apply unmoved_node.
  - unfold apply_next in Hs. destruct (applying p) as [[idx c]|]; [|done]. destruct (idx <=? c).
    + apply try_some in Hs as (r'&Hr&[= <-]). destruct (apply_one_log _ _ _ Hr) as [_ Ep].
      apply unmoved_node; [|unfold places; by rewrite Ep]. unfold apply_one in Hr.
      destruct (GetLog _ _); [|by injection Hr as <-]. apply bind_ret in Hr as ([f x]&_&Hx).
      injection Hx as <-. cbn. destruct (pendingFutures (node p) !! idx) as [fu|]; [|done].
      cbn. unfold resolve. by destruct (_ !! _).
    + injection Hs as <-. by apply unmoved_node.
  - destruct (choice_ready (node p) c); [|done]. injection Hs as <-. apply unmoved_kept, Apply_kept.
  - injection Hs as <-. apply unmoved_kept, resolve_kept.
  - apply wait_step_spec in Hs as [m ->]. by apply unmoved_node.
  - injection Hs as <-. apply unmoved_kept, Shutdown_kept.
Qed.

(** A request that leaves the node in charge is one it refused. *)
Lemma append_unmoved p req p' :
  command_step p (CAppendEntries req) = Some p' -> in_charge p' -> unmoved p p'.
Proof.
  intros Hs Hc. pose proof (command_leads _ _ _ Hs Hc) as Hl.
  destruct (command_node _ _ _ Hs) as (r'&resp&b&Hh&(Es&_)%role_proj&_&_).
  eapply command_unmoved; [done..|]. simpl in Hh.
  apply bind_ret in Hh as ([[r1 resp1] b1]&Hh&Hx). injection Hx as -> _ _.
  rewrite (refused_append _ _ _ _ _ Hh); [apply kept_refl|congruence].
Qed.

(** The two steps that run [advanceCommitIndex]. *)
Record advanced p r0 p' : Prop := mk_advanced {
  av_advance : advanceCommitIndex r0 = Ret (node p');
  av_log : logStore r0 = logStore (node p);
  av_role : role r0 = role (node p);
  av_commit : commitIndex r0 = commitIndex (node p);
  av_sent : forall id req, inflight p' !! id = Some req -> inflight p !! id = Some req
}.

Lemma response_moved p id req q resp p' :
  inflight p !! id = Some req -> peers (node p) !! id = Some q -> aer_Success resp = true ->
  aer_Term resp <= term p -> response_step p id resp = Some p' ->
  exists r0, advanced p r0 p' /\
    places r0 = match last (ae_Entries req) with
                | Some e => <[id := (ps_addr q, Index e)]> (places (node p))
                | None => places (node p)
                end.
Proof.
  intros Hin Hq Hok Ht Hs. unfold response_step in Hs. rewrite Hin in Hs.
  apply try_some in Hs as (r'&Hr&[= <-]). unfold replicate_process in Hr. fold (term p) in Hr.
  destruct (Z.ltb_spec (term p) (aer_Term resp)); [lia|]. rewrite Hq, Hok in Hr.
  eexists. split; [split; [exact Hr|done..|]|].
  - cbn. by intros id' req' [_ Hx]%lookup_delete_Some.
  - unfold places. cbn [peers set_peers]. destruct (last (ae_Entries req)) as [e|]; [by rewrite fmap_insert|].
    by apply (set_place _ id q).
Qed.

Lemma stale_moved p k resp p' :
  aer_Success resp = true -> aer_Term resp <= term p -> stale_response p k resp = Some p' ->
  advanced p (node p) p'.
Proof.
  intros Hok Ht Hs. unfold stale_response in Hs. destruct (stale p !! k) as [[q [req|]]|]; try done.
  fold (term p) in Hs. destruct (Z.ltb_spec (term p) (aer_Term resp)); [lia|]. rewrite Hok in Hs.
  by apply try_some in Hs as (r'&Hr&[= <-]).
Qed.

(** The peers' match indices are indices. *)
Definition in_range (m : gmap text (text * Z)) : Prop := forall id x, m !! id = Some x -> 0 <= x.2 <= max_uint.

Lemma places_range r : in_range (places r) ->
  forall id q, peers r !! id = Some q -> 0 <= matchIndex q <= max_uint.
Proof.
  intros Hr id q Hq. apply (Hr id (ps_addr q, matchIndex q)). unfold places. by rewrite lookup_fmap, Hq.
Qed.

Lemma advance_grows r r' : advanceCommitIndex r = Ret r' -> commitIndex r <= commitIndex r'.
Proof.
  unfold advanceCommitIndex. intros (c&_&Hc)%bind_ret. destruct (Z.leb_spec c (commitIndex r)); [by injection Hc as <-|].
  destruct (GetLog (logStore r) c); [|by injection Hc as <-]. destruct (negb _); injection Hc as <-; cbn; lia.
Qed.

(** A leader without an entry of its own term does not commit. *)
Lemma advance_barren r r' lg :
  repr (logStore r) lg -> zlen lg <= max_uint -> in_range (places r) -> 0 <= commitIndex r ->
  (forall e, e ∈ lg -> Term e <> currentTerm r) -> advanceCommitIndex r = Ret r' ->
  commitIndex r' = commitIndex r.
Proof.
  intros Hr Hz Hp Hc Hno Ha.
  destruct (advanceCommitIndex_spec r lg Hr Hz (places_range r Hp) Hc) as (r1&E&Hcase).
  rewrite Ha in E. injection E as <-. destruct Hcase as [->|(c&e&_&_&_&_&He&Ht)]; [done|].
  by destruct (Hno e (list_elem_of_lookup_2 _ _ _ He)).
Qed.

Lemma matches_places r lg : repr (logStore r) lg ->
  Permutation (matches_of r) (zlen lg :: ((map_to_list (places r)).*2).*2).
Proof.
  intros Hr. unfold matches_of, places. rewrite (LastIndex_spec _ _ Hr). cbn [fst].
  rewrite map_to_list_fmap, <-!list_fmap_compose. done.
Qed.

(** The addresses of those that hold [c]. *)
Definition holding (c : Z) (l : list (text * Z)) : list text := (filter (fun x => c <= x.2) l).*1.

Lemma holding_length c (l : list (text * Z)) : length (holding c l) = holders c (l.*2).
Proof.
  unfold holding, holders. rewrite length_fmap. induction l as [|[v m] l IH]; [done|].
  cbn [fmap list_fmap]. rewrite !filter_cons. cbn [snd]. destruct (decide (c <= m)); cbn [length]; by rewrite IH.
Qed.

Lemma holding_elem c l v : v ∈ holding c l <-> exists m, (v, m) ∈ l /\ c <= m.
Proof.
  unfold holding. rewrite list_elem_of_fmap. split.
  - intros ([v' m]&->&[Hc Hin]%list_elem_of_filter). by exists m.
  - intros (m&Hin&Hc). exists (v, m). split; [done|]. by apply list_elem_of_filter.
Qed.

Lemma holding_sublist c (l : list (text * Z)) : sublist (holding c l) (l.*1).
Proof.
  unfold holding. induction l as [|[v m] l IH]; [constructor|]. rewrite filter_cons.
  case_decide; cbn [fmap list_fmap fst]; by constructor.
Qed.

End node.

(** * Leaders *)

Section leaders.
  Context {L Sb F R : Type} `{LogStoreSpec L} `{StableStoreSpec Sb} `{FSM F R}.
  Context (P : list PeerConfig).
  Context (ids_distinct : NoDup (PeerID <$> P)).
  Context (addrs_distinct : NoDup (Address <$> P)).
  Implicit Types r : RaftNode L Sb F R.
  Implicit Types p : proc L Sb F R.
  Implicit Types A : acknowledged.

(** The places are those of the other servers of the cluster. *)
Definition staffed (a : text) (m : gmap text (text * Z)) : Prop :=
  Permutation (a :: (map_to_list (fst <$> m)).*2) (addrs P).

(** What the leader at [a] of the term [T] believes is what the peers have acknowledged. *)
Record believed A (a : text) (T : Z) (m : gmap text (text * Z)) : Prop := mk_believed {
  bl_staffed : staffed a m;
  bl_match : forall id v i, m !! id = Some (v, i) -> i = 0 \/ (0 < i <= max_uint /\ acked A v T (Z.to_nat i))
}.

Lemma believed_range A a T m : believed A a T m -> in_range m.
Proof. intros [_ Hm] id [v i] Hi. destruct (Hm id v i Hi) as [->|[? _]]; cbn; [done|lia]. Qed.

(** [advanceCommitIndex] of a leader chooses what it commits. *)
Lemma advance_chosen r r' lg Hi A a :
  repr (logStore r) lg -> zlen lg <= max_uint -> Hi !! currentTerm r = Some lg ->
  believed A a (currentTerm r) (places r) -> acked A a (currentTerm r) (length lg) ->
  0 <= commitIndex r -> advanceCommitIndex r = Ret r' ->
  commitIndex r' = commitIndex r \/
  (0 < commitIndex r' <= zlen lg /\ chosen P Hi A (currentTerm r) (Z.to_nat (commitIndex r'))).
Proof.
  intros Hr Hz Hh Hb Hself Hc Ha. pose proof (believed_range _ _ _ _ Hb) as Hrg.
  destruct (advanceCommitIndex_spec r lg Hr Hz (places_range r Hrg) Hc) as (r1&E&Hcase).
  rewrite Ha in E. injection E as <-. destruct Hcase as [->|(c&e&->&Hlt&Hmaj&_&He&Ht)]; [by left|right].
  change (commitIndex (notifyCommit (set_commitIndex c r))) with c.
  pose proof (lookup_lt_Some _ _ _ He) as Hle.
  set (l := (a, zlen lg) :: (map_to_list (places r)).*2).
  assert (Permutation (l.*1) (addrs P)) as Hl1.
  { destruct Hb as [Hb _]. unfold staffed in Hb. unfold l. cbn [fmap list_fmap fst]. rewrite <-Hb.
    rewrite map_to_list_fmap, <-!list_fmap_compose. done. }
  assert (Permutation (matches_of r) (l.*2)) as Hl2 by (by apply matches_places).
  rewrite (holders_perm _ _ _ Hl2), (Permutation_length Hl2), length_fmap in Hmaj.
  rewrite <-holding_length in Hmaj.
  assert (length l = length P) as Elen.
  { rewrite <-(length_fmap fst l), (Permutation_length Hl1). unfold addrs. apply length_fmap. }
  split; [unfold zlen; lia|]. split.
  - exists lg, e. split_and!; [done|lia| |done]. by replace (Z.to_nat c - 1)%nat with (Z.to_nat (c - 1)) by lia.
  - exists (holding c l). pose proof (holding_sublist c l) as Hsub. split; [split; [|split]|].
    + eapply sublist_NoDup; [|exact Hsub]. by rewrite Hl1.
    + intros v (m&Hin&_)%holding_elem. rewrite <-Hl1. apply list_elem_of_fmap. by exists (v, m).
    + unfold zlen. rewrite <-Elen. pose proof (Nat2Z.inj_div (length l) 2) as E. lia.
    + intros v (m&Hin&Hcm)%holding_elem. unfold l in Hin. apply elem_of_cons in Hin as [[= -> ->]|Hin].
      * eapply acked_le; [|exact Hself]. lia.
      * apply list_elem_of_fmap in Hin as ([id x]&Ex&Hin). cbn in Ex. subst x. apply elem_of_map_to_list in Hin.
        destruct (bl_match _ _ _ _ Hb id v m Hin) as [->|[Hm Hk]]; [lia|].
        eapply acked_le; [|exact Hk]. lia.
Qed.

(** [initLeader] staffs the leader: an entry for each other server, nothing matched. *)
Lemma staffing_fold (id : text) next ps : forall m : gmap text peerState,
  NoDup (PeerID <$> ps) -> (forall q, q ∈ ps -> m !! PeerID q = None) ->
  Permutation (map_to_list (ps_addr <$>
      foldl (fun m (c : PeerConfig) => if bool_decide (PeerID c = id) then m
             else <[PeerID c := mkPeerState (PeerID c) (Address c) next 0 false]> m) m ps))
    (((fun q => (PeerID q, Address q)) <$> filter (fun q => PeerID q <> id) ps) ++ map_to_list (ps_addr <$> m)).
Proof.
  induction ps as [|q ps IH]; intros m Hnd Hm; cbn [foldl fmap list_fmap]; [done|].
  apply NoDup_cons in Hnd as [Hq Hnd]. rewrite filter_cons. case_bool_decide as Hid.
  - rewrite decide_False by auto. apply IH; [done|]. intros c Hc. apply Hm. by right.
  - rewrite decide_True by done. rewrite IH; [|done|].
    + rewrite fmap_insert, map_to_list_insert by (rewrite lookup_fmap, Hm; [done|by left]).
      cbn [fmap list_fmap ps_addr app]. by rewrite Permutation_middle.
    + intros c Hc. rewrite lookup_insert_ne; [apply Hm; by right|]. intros E. apply Hq.
      rewrite E. by apply list_elem_of_fmap_2.
Qed.

Lemma others_perm (id : text) (ps : list PeerConfig) q :
  NoDup (PeerID <$> ps) -> q ∈ ps -> PeerID q = id ->
  Permutation (q :: filter (fun c => PeerID c <> id) ps) ps.
Proof.
  intros Hnd Hq <-. induction ps as [|c ps IH]; [by apply elem_of_nil in Hq|].
  cbn [fmap list_fmap] in Hnd. apply NoDup_cons in Hnd as [Hc Hnd]. rewrite filter_cons.
  apply elem_of_cons in Hq as [->|Hq].
  - rewrite decide_False by auto. apply perm_skip.
    assert (forall x, x ∈ ps -> PeerID x <> PeerID c) as Hall.
    { intros x Hx E. apply Hc. rewrite <-E. by apply list_elem_of_fmap_2. }
    clear IH Hc Hnd. induction ps as [|x ps IH]; [done|]. rewrite filter_cons, decide_True by (apply Hall; by left).
    apply perm_skip, IH. intros y Hy. apply Hall. by right.
  - rewrite decide_True.
    + rewrite perm_swap. apply perm_skip. by apply IH.
    + intros E. apply Hc. rewrite E. by apply list_elem_of_fmap_2.
Qed.

Lemma init_match r id x : places (initLeader r) !! id = Some x -> x.2 = 0.
Proof. unfold places. rewrite lookup_fmap. by intros (q&[_ Hq]%initLeader_peers&->)%fmap_Some. Qed.

Lemma init_believed A r a T :
  Peers (config r) = P -> (exists q, q ∈ P /\ PeerID q = ServerID (config r) /\ Address q = a) ->
  believed A a T (places (initLeader r)).
Proof.
  intros Ep (q&Hq&Eq&<-). split.
  - unfold staffed, places, initLeader. cbn [peers set_peers]. rewrite Ep, <-map_fmap_compose.
    change (fst ∘ (fun q => (ps_addr q, matchIndex q))) with ps_addr.
    rewrite staffing_fold; [|done|done]. rewrite fmap_empty, map_to_list_empty, app_nil_r.
    rewrite <-list_fmap_compose. change (snd ∘ (fun q => (PeerID q, Address q))) with Address.
    change (Address q :: (Address <$> filter (fun c => PeerID c <> ServerID (config r)) P))
      with (Address <$> (q :: filter (fun c => PeerID c <> ServerID (config r)) P)).
    unfold addrs. apply fmap_Permutation. by apply others_perm.
  - intros id v i Hi. left. apply (init_match r id (v, i) Hi).
Qed.

End leaders.

(** * The cluster *)

Lemma sent_last h req k m e B :
  sent_from h req k m -> numbered 1 h -> zlen h <= B -> last (ae_Entries req) = Some e ->
  Index e = Z.of_nat (k + m) /\ 0 < Index e <= B.
Proof.
  intros [_ Hlen _ Hes] Hn Hz He. apply last_entry in He. rewrite Hes in He.
  assert (length (take m (drop k h)) = m) as El by (rewrite length_take, length_drop; lia).
  rewrite El in He. apply lookup_take_Some in He as [He Hm]. rewrite lookup_drop in He.
  destruct (Hn _ _ He) as [-> _]. unfold zlen in Hz. lia.
Qed.

Lemma sent_from_end h req k m k' m' :
  sent_from h req k m -> sent_from h req k' m' -> (k + m = k' + m')%nat.
Proof.
  intros [E1 L1 _ S1] [E2 L2 _ S2]. assert (k = k') as -> by lia.
  rewrite S1 in S2. apply (f_equal length) in S2. rewrite !length_take, !length_drop in S2. lia.
Qed.

Section cluster.
  Context {L Sb F R : Type} `{LogStoreSpec L} `{StableStoreSpec Sb} `{FSM F R}.
  Context (P : list PeerConfig).
  Context (ids_distinct : NoDup (PeerID <$> P)).
  Context (addrs_distinct : NoDup (Address <$> P)).
  Implicit Types p : proc L Sb F R.
  Implicit Types n : network L Sb F R.
  Implicit Types G : ghost.

(** The first [c] entries of the log are committed: they are those of a leader of a term
    up to [T], up to an entry that was chosen. *)
Definition committed_at G (T : Z) (l : list LogEntry) (c : Z) : Prop :=
  0 <= c /\ (c = 0 \/ exists T0 i, chosen P (hist G) (acks G) T0 i /\ T0 <= T /\ c <= Z.of_nat i /\
    pref (hist G) l T0 (Z.to_nat c)).

(** No entry of the node's own term, and none can be written before [initLeader]. *)
Definition barren p : Prop :=
  (forall l e, repr (logStore (node p)) l -> e ∈ l -> Term e <> term p) /\
  match pc p with LeaderNoOp | InLeader _ => False | _ => True end.

Record led G (a : text) p : Prop := mk_led {
  ld_peers : believed P (acks G) a (term p) (places (node p));
  ld_sent : forall id req, inflight p !! id = Some req -> ae_Term req = term p
}.

Definition request_commits G (req : AppendEntriesRequest) : Prop :=
  (0 < ae_PrevLogIndex req <= max_uint /\ ae_PrevLogTerm req = 0) \/
  exists h k m, hist G !! ae_Term req = Some h /\ sent_from h req k m /\
    committed_at G (ae_Term req) h (ae_LeaderCommit req) /\ ae_LeaderCommit req <= Z.of_nat (k + m).

Definition answer_acked G (v : append_call) : Prop :=
  forall resp, ac_resp v = Some resp -> aer_Success resp = true ->
    exists h k m, hist G !! ae_Term (ac_req v) = Some h /\ sent_from h (ac_req v) k m /\
      acked (acks G) (ac_to v) (ae_Term (ac_req v)) (k + m).

Record commits_ok n G : Prop := mk_commits_ok {
  co_commit : forall a p l, procs n !! a = Some p -> repr (logStore (node p)) l ->
    committed_at G (term p) l (commitIndex (node p));
  co_range : forall a p, procs n !! a = Some p -> in_range (places (node p));
  co_lead : forall a p, procs n !! a = Some p -> in_charge p -> led G a p \/ barren p;
  co_append : forall v, v ∈ appends n -> request_commits G (ac_req v) /\ answer_acked G v
}.

(** ** What lasts *)

Section lasting.
  Context (tm tm' : gmap text Z) (G G' : ghost).
  Context (Hlater : later tm (acks G) tm' (acks G')) (Hext : extends (hist G) (hist G')).

Lemma committed_later T T' l c : T <= T' -> committed_at G T l c -> committed_at G' T' l c.
Proof.
  intros Hle [Hc [->|(T0&i&Hch&HT&Hi&Hp)]]; (split; [done|]); [by left|right].
  exists T0, i. split_and!; [by eapply chosen_later|lia|done|by eapply pref_extends].
Qed.

Lemma committed_longer T l x c : committed_at G T l c -> committed_at G T (l ++ x) c.
Proof.
  intros [Hc [->|(T0&i&Hch&HT&Hi&Hp)]]; (split; [done|]); [by left|right].
  exists T0, i. split_and!; [done..|by apply pref_app].
Qed.

Lemma request_later req : request_commits G req -> request_commits G' req.
Proof.
  intros [?|(h&k&m&Hh&Hs&Hc&Hle)]; [by left|right]. destruct (Hext _ _ Hh) as [x Hx].
  exists (h ++ x), k, m. split_and!; [done|by apply sent_from_app| |done].
  eapply committed_later; [reflexivity|]. by apply committed_longer.
Qed.

Lemma answer_later v : answer_acked G v -> answer_acked G' v.
Proof.
  intros Hv resp Hr Hok. destruct (Hv resp Hr Hok) as (h&k&m&Hh&Hs&Ha). destruct (Hext _ _ Hh) as [x Hx].
  exists (h ++ x), k, m. split_and!; [done|by apply sent_from_app|]. by eapply lt_acks.
Qed.

Lemma believed_later a T m : believed P (acks G) a T m -> believed P (acks G') a T m.
Proof.
  intros [Hs Hm]. split; [done|]. intros id v i Hi. destruct (Hm id v i Hi) as [?|[? Ha]]; [by left|right].
  split; [done|]. by eapply lt_acks.
Qed.

Lemma led_later a p : led G a p -> led G' a p.
Proof. intros [Hb Hs]. split; [by apply believed_later|done]. Qed.

Lemma led_unmoved a p p' : unmoved p p' -> term p' = term p -> led G a p -> led G' a p'.
Proof.
  intros [_ Ep Es] Et [Hb Hs]. split.
  - rewrite Ep, Et. by apply believed_later.
  - intros id req Hin. rewrite Et. destruct (Es id req Hin) as [Hin'| ->]; [by eapply Hs|done].
Qed.

End lasting.

(** ** One step

    A successful answer counts only for a node that is still the leader. The code does
    not look: [replicateOnce] checks the term of the answer and not the node's state. *)
Definition timely n (l : nlabel) : Prop :=
  match l with
  | NAppendResponse i k => forall v resp p, appends n !! i = Some v -> ac_resp v = Some resp ->
      procs n !! ac_from v = Some p -> aer_Success resp = true -> aer_Term resp <= term p ->
      state (node p) = Leader
  | _ => True
  end.

Lemma answer_prompted n l a p k resp :
  prompted n l a p k -> (exists id, k = LResponse id resp) \/ (exists j, k = LStaleResponse j resp) ->
  exists i ref v, l = NAppendResponse i ref /\ appends n !! i = Some v /\ ac_resp v = Some resp /\
    a = ac_from v /\ waits p ref v = true /\ k = answer_label ref resp.
Proof.
  intros Hp Hk. destruct Hp as [k Ho _|?|?|?|i ref v resp' -> Hi Hr -> Hw].
  - by destruct Hk as [[? ->]|[? ->]].
  - by destruct Hk as [[? ?]|[? ?]].
  - by destruct Hk as [[? ?]|[? ?]].
  - by destruct Hk as [[? ?]|[? ?]].
  - assert (resp' = resp) as -> by (destruct ref, Hk as [[? Hk]|[? Hk]]; cbn in Hk; congruence).
    exists i, ref, v. done.
Qed.

Lemma moving_cases p k : moving p k = true ->
  (k = LMain /\ pc p = LeaderInit) \/ (exists req, k = LCommand (CAppendEntries req)) \/
  (exists resp, (exists id, k = LResponse id resp) \/ (exists j, k = LStaleResponse j resp)).
Proof.
  unfold moving. destruct k as [|[]| | | | | | | | | | | | | |]; try done; eauto 6.
  intros Hm%bool_decide_eq_true. by left.
Qed.

Lemma writes_own p k : writes p k = true -> (forall req, k <> LCommand (CAppendEntries req)) ->
  (k = LMain /\ pc p = LeaderNoOp) \/ k = LRequest.
Proof.
  unfold writes. intros Hw Hne. destruct k as [|[req|?|]| | | | | | | | | | | | | |]; try done; [|by destruct (Hne req)|by right].
  destruct (pc p); try done. by left.
Qed.

Section step.
  Context (n n' : network L Sb F R) (l : nlabel) (a : text) (p p' : proc L Sb F R) (k : label).
  Context (G G' : ghost) (B : Z) (lg l' : list LogEntry).
  Context (Hn : net_ok P n) (Hk : logs_ok n (hist G) B) (HB : 2 * B < max_uint - 1) (HB0 : 0 <= B).
  Context (Hv : votes_safe P n G) (Hc : commits_ok n G) (Ht : timely n l).
  Context (Hmv : moves_node n l n' a p k p') (Hnm : node_move (hist G) p k p' (hist G')).
  Context (Hr : repr (logStore (node p)) lg) (Hr' : repr (logStore (node p')) l') (Hz' : zlen l' <= max_uint).
  Context (Hva : votes_after P n G n' G') (Hef : effect G a p k p' G' lg l').

Lemma here : procs n !! a = Some p. Proof. apply Hmv. Qed.
Lemma stepped : step p k = Some p'. Proof. apply Hmv. Qed.
Lemma term_grows : term p <= term p'.
Proof. by destruct (evolves_moves p k p' (mv_evolves _ _ _ _ _ Hnm)). Qed.

Lemma log_here : tracked (hist G) lg /\ zlen lg <= B /\ (in_charge p -> hist G !! term p = Some lg).
Proof. by apply (log_facts n G B a p lg Hk ltac:(lia) here). Qed.

(** The answers that make a node commit. *)
Lemma moving_answer resp ref v i :
  l = NAppendResponse i ref -> appends n !! i = Some v -> ac_resp v = Some resp -> a = ac_from v ->
  waits p ref v = true -> k = answer_label ref resp -> moving p k = true ->
  state (node p) = Leader /\ exists r0, advanced p r0 p' /\ in_range (places r0) /\
    (led G a p -> believed P (acks G) a (term p) (places r0)).
Proof.
  intros El Hi Hresp Ea Hw Ek Hm. pose proof stepped as Hs. pose proof here as Ha.
  assert (aer_Success resp = true /\ aer_Term resp <= term p) as [Hok Hle].
  { rewrite Ek in Hm. destruct ref; apply andb_prop in Hm as [? ?%Z.leb_le]; done. }
  split. { rewrite El in Ht. apply (Ht v resp p); try done. by rewrite <-Ea. }
  pose proof (list_elem_of_lookup_2 _ _ _ Hi) as Hin. pose proof (co_range _ _ Hc a p Ha) as Hrg.
  rewrite Ek in Hs. destruct ref as [id|j]; cbn [waits answer_label] in Hw, Hs.
  2: { exists (node p). split; [by eapply stale_moved|]. split; [done|]. by intros [? _]. }
  destruct (peers (node p) !! id) as [q|] eqn:Hq; [|done].
  destruct (inflight p !! id) as [req|] eqn:Hreq; [|done].
  apply andb_prop in Hw as [Hw1%bool_decide_eq_true Hw2%bool_decide_eq_true]. subst req.
  destruct (response_moved p id _ q resp p' Hreq Hq Hok Hle Hs) as (r0&Hav&Epl). exists r0. split; [done|].
  destruct (co_append _ _ Hc v Hin) as [_ Hans]. destruct (Hans resp Hresp Hok) as (h&k0&m&Hh&Hsent&Hack).
  pose proof (lk_history _ _ _ Hk) as HH.
  assert (forall e, last (ae_Entries (ac_req v)) = Some e -> Index e = Z.of_nat (k0 + m) /\ 0 < Index e <= B) as He.
  { intros e He. apply (sent_last h (ac_req v) k0 m e B); try done; [by eapply hs_numbered|by eapply hs_bound]. }
  rewrite Epl. destruct (last (ae_Entries (ac_req v))) as [e|]; [|split; [done|by intros [? _]]].
  destruct (He e eq_refl) as [E1 E2]. split.
  - intros id' x [[<- <-]|[_ Hx]]%lookup_insert_Some; [cbn; lia|by apply (Hrg id')].
  - intros [[Hst Hmt] Hfl]. split.
    + unfold staffed in *. rewrite fmap_insert, insert_id; [done|]. unfold places. rewrite !lookup_fmap, Hq. done.
    + intros id' v' i' [[<- Ex]|[_ Hx]]%lookup_insert_Some; [right|by eapply Hmt].
      injection Ex as <- <-. split; [lia|]. rewrite Hw1, <-(Hfl id _ Hreq), E1, Nat2Z.id. done.
Qed.

Lemma ef_answer ref resp : k = answer_label ref resp -> l' = lg.
Proof.
  intros Ek. destruct Hef as [_|e [[E _]|E] _|req ? ? ? E|req ? ? ? ? ? ? ? E]; [done|..];
    rewrite Ek in E; by destruct ref.
Qed.

(** The commit index is justified, and does not go back. *)
Definition commit_ok : Prop :=
  committed_at G' (term p') l' (commitIndex (node p')) /\ commitIndex (node p) <= commitIndex (node p').

(** A leader commits what it has chosen. *)
Lemma answer_commits resp ref v i :
  l = NAppendResponse i ref -> appends n !! i = Some v -> ac_resp v = Some resp -> a = ac_from v ->
  waits p ref v = true -> k = answer_label ref resp -> moving p k = true ->
  commit_ok /\ in_range (places (node p')) /\
  (in_charge p' -> term p' = term p -> led G' a p' \/ barren p').
Proof.
  intros El Hi Hresp Ea Hw Ek Hm.
  destruct (moving_answer resp ref v i) as (Hl&r0&[Hav Elog Erole Ecm Efl]&Hrg&Hb); try done.
  pose proof here as Ha. destruct log_here as (Htr&Hz&Hhist). specialize (Hhist (or_introl Hl)).
  unfold commit_ok. rewrite (ef_answer ref resp Ek) in *. apply role_proj in Erole as (_&Et&_).
  assert (repr (logStore r0) lg) as Hr0 by (by rewrite Elog).
  pose proof (co_commit _ _ Hc a p lg Ha Hr) as Hcm. destruct Hva as [_ Hlt Hext].
  destruct (advanceCommitIndex_log _ _ Hav) as [El' Ep'].
  assert (places (node p') = places r0) as Epl by (unfold places; by rewrite Ep').
  assert (pc p' = pc p) as Epc.
  { destruct (background_drift p k p') as (?&_); [rewrite Ek; by destruct ref|exact stepped|done]. }
  pose proof (advance_grows _ _ Hav) as Hgrow. rewrite Ecm in Hgrow.
  split; [split; [|exact Hgrow]|split; [by rewrite Epl|]].
  - assert (commitIndex (node p') = commitIndex (node p) \/
      (0 < commitIndex (node p') <= zlen lg /\ chosen P (hist G) (acks G) (term p) (Z.to_nat (commitIndex (node p')))))
      as [->|[Hrg' Hch]]; [|eapply committed_later; [exact Hlt|exact Hext|exact term_grows|exact Hcm]|].
    { destruct (co_lead _ _ Hc a p Ha (or_introl Hl)) as [Hld|[Hno _]].
      - rewrite <-Ecm. unfold term. rewrite <-Et.
        apply (advance_chosen P addrs_distinct r0 (node p') lg (hist G) (acks G) a); rewrite ?Et; try done.
        + lia.
        + by apply Hb.
        + apply (vs_self _ _ _ Hv a p); [done|by left|done].
        + rewrite Ecm. apply Hcm.
      - left. rewrite <-Ecm. apply (advance_barren r0 (node p') lg); try done; [lia|rewrite Ecm; apply Hcm|].
        intros e He. rewrite Et. by apply (Hno lg). }
    split; [lia|right]. exists (term p), (Z.to_nat (commitIndex (node p'))).
    split_and!; [by eapply chosen_later|exact term_grows|lia|].
    eapply pref_extends; [exact Hext|]. exists lg. split_and!; [done|unfold zlen in *; lia|done].
  - intros Hch Et'. destruct (co_lead _ _ Hc a p Ha (or_introl Hl)) as [Hld|[Hno Hpc]].
    + left. split.
      * rewrite Epl, Et'. eapply believed_later; [exact Hlt|]. by apply Hb.
      * intros id req Hin. rewrite Et'. eapply ld_sent; [exact Hld|]. by eapply Efl.
    + right. split; [|by rewrite Epc]. intros x e Hx. rewrite Et'. apply Hno. by rewrite <-Elog, <-El'.
Qed.

Lemma commit_lasts x : term p <= term p' -> committed_at G (term p) lg x -> committed_at G' (term p') lg x.
Proof. destruct Hva as [_ Hlt Hext]. intros Hle Hx. eapply committed_later; [exact Hlt|exact Hext|exact Hle|exact Hx]. Qed.

(** A leader of the request's term has what the receiver had committed, and the receiver
    takes over what the leader had. *)
Lemma append_commits req r' resp b h i m :
  k = LCommand (CAppendEntries req) -> handleAppendEntries (node p) req = Ret (r', resp, b) ->
  hist G !! ae_Term req = Some h -> append_effect p req p' resp lg h i m l' -> request_commits G req -> commit_ok.
Proof.
  intros Ek Hh Hhist Hap Hreq. destruct Hva as [_ Hlt Hext].
  assert (committed_at G (term p') l' (commitIndex (node p')) /\ commitIndex (node p) <= commitIndex (node p'))
    as [Hat Hgrow]; [|split; [|done]; by apply (committed_later (terms n) (terms n') G G' Hlt Hext (term p'))].
  destruct Hap as [Hsent Hle Et' _ _ _ _ Hkeep Hsucc Hcommit]. rewrite Et'.
  pose proof (co_commit _ _ Hc a p lg here Hr) as Hcm.
  assert (forall T0 j, chosen P (hist G) (acks G) T0 j -> T0 <= ae_Term req -> pref (hist G) h T0 j) as Hlead.
  { intros T0 j Hch HT. pose proof Hch as [(h0&e&Hh0&Hj&He&_) _].
    destruct (Z.eq_dec T0 (ae_Term req)) as [->|Hne].
    - exists h. assert (h0 = h) as -> by congruence. apply lookup_lt_Some in He.
      split_and!; [done|lia|done].
    - eapply chosen_pref; [exact Hch|].
      eapply (vs_hist _ _ _ Hv (ae_Term req)); [exact Hhist|lia|]. by destruct Hch. }
  destruct Hcommit as [->|(Hok&Hlc&->)].
  - split; [|done]. destruct Hcm as [Hc0 [E|(T0&j&Hch&HT&Hj&Hpre)]]; (split; [done|]); [by left|right].
    pose proof (pref_len _ _ _ _ Hpre) as Hlen. exists T0, j. split_and!; [done|lia|done|].
    destruct (Hlead T0 j Hch ltac:(lia)) as (h0&Hh0&Hjl&Eh). destruct Hpre as (h1&Hh1&Hcl&Eq).
    assert (h1 = h0) as -> by congruence. exists h0. split_and!; [done..|].
    assert (take (Z.to_nat (commitIndex (node p))) h = take (Z.to_nat (commitIndex (node p))) h0) as Eh'.
    { eapply take_eq_le; [|exact Eh]. lia. }
    destruct (Hkeep _ Hlen) as [_ ->]; [congruence|done].
  - destruct Hreq as [[Hp1 Hp2]|(h2&k2&m2&Hh2&Hs2&Hcr&Hend)].
    { destruct (delivered_refused p req p' (hist G) B lg) as (r2&resp2&b2&Hh2&Hno&_); try done;
        [apply Hk|apply log_here..|lia|by right|by rewrite <-stepped, Ek|]. congruence. }
    assert (h2 = h) as -> by congruence. rewrite (sent_from_end _ _ _ _ _ _ Hs2 Hsent) in Hend.
    specialize (Hsucc Hok). pose proof (se_len _ _ _ _ Hsent) as Hlen.
    assert (i + m <= length l')%nat as Hl'.
    { apply (f_equal length) in Hsucc. rewrite !length_take in Hsucc. lia. }
    rewrite Z.min_r by (unfold zlen; lia). split; [|lia].
    destruct Hcr as [Hc0 [E|(T0&j&Hch&HT&Hj&(h0&Hh0&Hcl&Eq))]]; (split; [done|]); [by left|right].
    exists T0, j. split_and!; [done..|]. exists h0. split_and!; [done..|]. rewrite <-Eq.
    eapply take_eq_le; [|exact Hsucc]. lia.
Qed.

(** ** Leading *)

Lemma leading_pc : match pc p' with LeaderNoOp | InLeader _ => True | _ => False end ->
  match pc p with LeaderNoOp | InLeader _ => True | _ => k = LMain /\ pc p = LeaderInit end.
Proof.
  intros Hpc. pose proof stepped as Hs. destruct (background k) eqn:Hb.
  { destruct (background_drift p k p' Hb Hs) as (E&_). rewrite E in Hpc. by destruct (pc p). }
  clear Hef Hva Hnm Hmv Ht. destruct k as [|cmd| |resp| |id|id resp|id|j|j resp| | |data c|f|f|]; try done; simpl in Hs.
  - unfold main_step in Hs. destruct (pc p) as [|[]| |t v []|t| | |[]|]; try done;
      repeat (case_match; try done); try (apply try_some in Hs as (r1&_&Hs)); repeat (case_match; try done);
      injection Hs as <-; cbn in Hpc; try case_bool_decide; done.
  - apply command_node in Hs as (r1&resp&b&_&_&_&Hpc').
    destruct Hpc' as [[_ E]|[(t0&v&Hp&[(_&_&E)|(_&E)])|(Hp&[(_&E)|(_&E)])]]; rewrite E in Hpc; try done; by rewrite Hp.
  - unfold timer_step in Hs. destruct (pc p) as [|[]| |t v []|t| | |[]|]; try done; by injection Hs as <-.
  - unfold vote_step in Hs. destruct (pc p) as [|[]| |t v []|t| | |[]|]; try done.
    destruct (currentTerm (node p) <? rvr_Term resp); [by apply try_some in Hs as (r1&_&[= <-])|].
    destruct (rvr_VoteGranted resp); [destruct (_ <=? _)|]; by injection Hs as <-.
  - unfold request_step in Hs. by destruct (pc p) as [|[]| |t v []|t| | |[]|].
Qed.

(** Nothing moves. *)
Lemma unmoved_lead : unmoved p p' -> logStore (node p') = logStore (node p) \/ (k = LMain /\ pc p = LeaderNoOp) \/ k = LRequest ->
  ~ (k = LMain /\ pc p = LeaderInit) -> in_charge p -> term p' = term p -> led G' a p' \/ barren p'.
Proof.
  intros Hu Hlog Hni Hch Et. destruct Hva as [_ Hlt _].
  destruct (co_lead _ _ Hc a p here Hch) as [Hld|[Hno Hpc]].
  - left. by apply (led_unmoved (terms n) (terms n') G G' Hlt a p p').
  - right. assert (match pc p' with LeaderNoOp | InLeader _ => False | _ => True end) as Hpc'.
    { pose proof leading_pc as Hl. destruct (pc p'), (pc p); try done; destruct (Hl I); tauto. }
    split; [|done]. intros x e Hx. rewrite Et. destruct Hlog as [E|[[_ E]|E]]; [|by rewrite E in Hpc|].
    + apply Hno. by rewrite <-E.
    + pose proof stepped as Hs. rewrite E in Hs. simpl in Hs. unfold request_step in Hs.
      by destruct (pc p) as [|[]| |t v []|t| | |[]|].
Qed.

Lemma elected_lead t : k = LMain -> pc p = Elected t -> in_charge p' -> barren p'.
Proof.
  intros Ek Hpc Hch. pose proof stepped as Hs. rewrite Ek in Hs. simpl in Hs. unfold main_step in Hs.
  rewrite Hpc in Hs. injection Hs as E. pose proof (li_pc _ (pk_leader P _ (nk_proc P _ Hn a p here))) as Hpi.
  unfold pc_inv in Hpi. rewrite Hpc in Hpi. destruct Hpi as [Et _].
  pose proof (lo_elected _ _ _ (lk_procs _ _ _ Hk a p here) t Hpc) as Hnone. destruct log_here as (Htr&Hz&_).
  rewrite <-E. split; [|done]. cbn [node goto]. intros x e Hx Hin. unfold term. cbn [node goto].
  pose proof (becomeLeader_role (node p)) as (_&->&_)%role_proj. rewrite Et.
  destruct (becomeLeader_kept (node p)) as [_ El _]. rewrite El in Hx.
  assert (lg = x) as <- by (apply (repr_unique (logStore (node p))); [lia|done..]).
  apply list_elem_of_lookup in Hin as [j Hj]. destruct (Htr j e Hj) as (h&Hh&_). congruence.
Qed.

Lemma init_lead : k = LMain -> pc p = LeaderInit ->
  commitIndex (node p') = commitIndex (node p) /\ led G' a p'.
Proof.
  intros Ek Hpc. pose proof stepped as Hs. rewrite Ek in Hs. simpl in Hs. unfold main_step in Hs.
  rewrite Hpc in Hs. injection Hs as E. rewrite <-E. split; [done|].
  destruct (po_member P _ _ (nk_poll P _ Hn) a (view_of p)) as (q&Hq&Eq&Eaddr).
  { apply views_lookup. exists p. by split; [apply here|]. }
  split; [|cbn; intros id req Hx; by rewrite lookup_empty in Hx]. cbn [node].
  apply (init_believed P ids_distinct); [apply (pk_peers P _ (nk_proc P _ Hn a p here))|]. by exists q.
Qed.

(** The log, when nothing but the leader's own entry is written. *)
Lemma ef_log : (forall req, k <> LCommand (CAppendEntries req)) ->
  l' = lg \/ ((k = LMain /\ pc p = LeaderNoOp) \/ k = LRequest) /\ exists e, l' = lg ++ [e].
Proof. intros Hne. destruct Hef as [_|e Hkk _|req ? ? ? E|req ? ? ? ? ? ? ? E]; [by left|right; eauto|by destruct (Hne req)..]. Qed.

Lemma ef_request req : k = LCommand (CAppendEntries req) ->
  (l' = lg /\ commitIndex (node p') = commitIndex (node p) /\
   exists r' resp b, handleAppendEntries (node p) req = Ret (r', resp, b) /\ aer_Success resp = false) \/
  exists r' resp b h i m, handleAppendEntries (node p) req = Ret (r', resp, b) /\
    hist G !! ae_Term req = Some h /\ append_effect p req p' resp lg h i m l' /\
    (aer_Success resp = true -> acked (acks G') a (ae_Term req) (i + m)).
Proof.
  intros Ek. destruct Hef as [Hne|e [[E _]|E] _|req0 r2 resp b2 E Hh2 Hf Ecm|req0 r2 resp b2 h i m x E Hh2 Hhist Hap Hak];
    [by destruct (Hne req)|congruence..| |]; assert (req0 = req) as -> by congruence; [left; eauto 7|right].
  by exists r2, resp, b2, h, i, m.
Qed.

Lemma request_commits_here req : k = LCommand (CAppendEntries req) -> request_commits G req ->
  commit_ok /\ in_range (places (node p')) /\
  (in_charge p' -> led G' a p' \/ barren p').
Proof.
  intros Ek Hreq. pose proof stepped as Hs. rewrite Ek in Hs. simpl in Hs.
  destruct (command_kept _ _ _ Hs) as (r'&rsp&b&Hh&[_ El Ep]&_).
  pose proof Hh as Hh0. simpl in Hh0. apply bind_ret in Hh0 as ([[r1 resp1] b1]&Hh0&Hx). injection Hx as -> _ _.
  split_and!.
  - pose proof (co_commit _ _ Hc a p lg here Hr) as Hcm.
    destruct (ef_request req Ek) as [(Hsame&Ecm&_)|(r2&resp&b2&h&i&m&Hh2&Hhist&Hap&_)].
    + split; rewrite Ecm; [rewrite Hsame|done]. by apply commit_lasts; [apply term_grows|].
    + by eapply append_commits.
  - unfold places. rewrite Ep, (handleAppendEntries_peers _ _ _ _ _ Hh0). exact (co_range _ _ Hc a p here).
  - intros Hc'. pose proof (command_leads _ _ _ Hs Hc') as Hl.
    destruct (step_charge p k p' (pk_leader P _ (nk_proc P _ Hn a p here)) (mv_steady _ _ _ _ _ Hnm) stepped Hc')
      as [[Hc0 Et]|[E _]]; [|congruence].
    apply unmoved_lead; try done; [by eapply append_unmoved|left|intros [E _]; congruence].
    destruct (command_node _ _ _ Hs) as (r2&rsp2&b2&Hh2&(Es&_)%role_proj&_&_).
    rewrite Hh in Hh2. injection Hh2 as <- _ _. rewrite El, (refused_append _ _ _ _ _ Hh0); congruence.
Qed.

(** The duties of the mover. *)
Lemma mover_commits :
  (forall req, k = LCommand (CAppendEntries req) -> request_commits G req) ->
  commit_ok /\ in_range (places (node p')) /\
  (in_charge p' -> led G' a p' \/ barren p').
Proof.
  intros Hreq. pose proof here as Ha. pose proof stepped as Hs. pose proof term_grows as Hle.
  pose proof (co_commit _ _ Hc a p lg Ha Hr) as Hcm. pose proof (co_range _ _ Hc a p Ha) as Hrg.
  assert (in_charge p' -> (in_charge p /\ term p' = term p) \/ (k = LMain /\ exists t, pc p = Elected t)) as Hch.
  { apply (step_charge p k p' (pk_leader P _ (nk_proc P _ Hn a p Ha)) (mv_steady _ _ _ _ _ Hnm) Hs). }
  destruct (moving p k) eqn:Hm.
  - destruct (moving_cases p k Hm) as [[Ek Hpc]|[[req Ek]|[resp Ek]]].
    + destruct init_lead as [E Hld]; [done..|].
      split_and!; [split; rewrite E; [|done]|eapply believed_range, Hld|by left].
      destruct ef_log as [->|[[[_ Hx]|Hx] _]]; [congruence|by apply commit_lasts|congruence..].
    + by apply (request_commits_here req); [..|apply Hreq].
    + destruct (answer_prompted n l a p k resp) as (i&ref&v&El&Hi&Hresp&Ea&Hw&E); [apply Hmv|done|].
      destruct (answer_commits resp ref v i) as (H1'&H2'&H3'); [done..|]. split_and!; [done..|].
      intros Hc'. destruct (Hch Hc') as [[_ Et]|[Ek' _]]; [by apply H3'|].
      destruct Ek as [[? Ek]|[? Ek]]; congruence.
  - pose proof (step_unmoved p k p' Hs Hm) as Hu. pose proof Hu as [Ecm Epl _]. unfold commit_ok. rewrite Ecm, Epl.
    assert (forall req, k <> LCommand (CAppendEntries req)) as Hnae.
    { intros req E. rewrite E in Hm. done. }
    assert (~ (k = LMain /\ pc p = LeaderInit)) as Hni.
    { intros [E1 E2]. rewrite E1 in Hm. cbn in Hm. rewrite E2 in Hm. done. }
    split_and!; [|done..|].
    + destruct (ef_log Hnae) as [->|[_ [e ->]]]; [by apply commit_lasts|]. by apply committed_longer, commit_lasts.
    + intros Hc'. destruct (Hch Hc') as [[Hc0 Et]|[Ek [t Ht']]]; [|right; by apply (elected_lead t)].
      apply unmoved_lead; try done. destruct (writes p k) eqn:Hw; [right; by apply writes_own|left].
      by apply (step_upkeep p k p' Hs).
Qed.

(** What a leader sends carries its commit index, which lies in what it sends. *)
Lemma built_commits q v : next_ok q -> v ∈ built a p q -> ac_resp v = None /\ request_commits G (ac_req v).
Proof.
  intros Hq Hin. destruct log_here as (Htr&Hz&Hhist). pose proof (co_commit _ _ Hc a p lg here Hr) as Hcm.
  destruct (built_cases p q a lg v Hq Hr ltac:(lia) Hin) as (Hno&Hl&[Hb|(i&m&Hs&Hend&Et&Elc)]);
    (split; [done|]); [by left|right].
  exists lg, i, m. rewrite Et, Elc, Hend. split_and!; [apply Hhist; by left|done|done|].
  destruct Hcm as [_ [->|(T0&j&_&_&_&Hp)]]; [lia|]. apply pref_len in Hp. lia.
Qed.

Lemma appends_commit v : v ∈ appends n' -> request_commits G' (ac_req v) /\ answer_acked G' v.
Proof.
  destruct Hva as [_ Hlt Hext]. intros Hin.
  destruct (mn_origin _ _ _ _ _ _ _ Hmv v Hin) as [Hold|Hnew|v0 r' resp b Hold Hnone Ek Ea Hh ->].
  - destruct (co_append _ _ Hc v Hold) as [Hq Ha].
    split; [by eapply request_later|by eapply answer_later].
  - destruct (new_appends_from p k a v (lo_peers _ _ _ (lk_procs _ _ _ Hk a p here)) Hnew) as (q&Hq&Hb).
    destruct (built_commits q v Hq Hb) as [Hno Hrq].
    split; [by eapply request_later|]. intros resp Hresp. congruence.
  - cbn [ac_req]. split; [eapply request_later; [exact Hlt|exact Hext|by apply (co_append _ _ Hc v0)]|].
    intros resp' [= <-] Hok. cbn [ac_req ac_to].
    destruct (ef_request _ Ek) as [(_&_&r2&resp2&b2&Hh2&Hf)|(r2&resp2&b2&h&i&m&Hh2&Hhist&[Hsent _ _ _ _ _ _ _ _ _]&Hak)].
    + rewrite Hh in Hh2. congruence.
    + rewrite Hh in Hh2. injection Hh2 as _ <- _. destruct (Hext _ _ Hhist) as [x Hx].
      exists (h ++ x), i, m. rewrite <-Ea. split_and!; [done|by apply sent_from_app|by apply Hak].
Qed.

End step.

(** The other servers' logs and commit indices stay. *)
Lemma commits_moved n n' l a p k p' G G' B lg l' :
  net_ok P n -> logs_ok n (hist G) B -> 2 * B < max_uint - 1 -> 0 <= B -> votes_safe P n G -> commits_ok n G ->
  timely n l -> moves_node n l n' a p k p' -> node_move (hist G) p k p' (hist G') ->
  repr (logStore (node p)) lg -> repr (logStore (node p')) l' -> zlen l' <= max_uint ->
  votes_after P n G n' G' -> effect G a p k p' G' lg l' ->
  commits_ok n' G' /\ commitIndex (node p) <= commitIndex (node p').
Proof.
  intros Hn Hk HB HB0 Hv Hc Ht Hmv Hnm Hr Hr' Hz' Hva Hef. pose proof Hmv as [Ha _ Ep _ Hpr _ _].
  destruct (mover_commits n n' l a p p' k G G' B lg l') as ([M1 M4]&M2&M3); try done.
  { intros req ->. destruct (prompted_append n l a p req Hpr) as (v&Hin&->&_). by apply (co_append _ _ Hc v). }
  pose proof Hva as [_ Hlt Hext].
  assert (procs n' !! a = Some p') as Ha' by (by rewrite Ep, lookup_insert_eq).
  assert (Hother : forall b q, procs n' !! b = Some q -> b <> a -> procs n !! b = Some q).
  { intros b q Hq Hne. by rewrite Ep, lookup_insert_ne in Hq. }
  split; [|done]. split.
  - intros b q x Hq Hx. destruct (decide (b = a)) as [->|Hne].
    + assert (q = p') as -> by congruence.
      by assert (l' = x) as <- by (by apply (repr_unique (logStore (node p')))).
    + eapply committed_later; [exact Hlt|exact Hext|reflexivity|]. eapply co_commit; [exact Hc|by apply Hother|done].
  - intros b q Hq. destruct (decide (b = a)) as [->|Hne].
    + by assert (q = p') as -> by congruence.
    + eapply co_range; [exact Hc|by apply Hother].
  - intros b q Hq Hch. destruct (decide (b = a)) as [->|Hne].
    + assert (q = p') as -> by congruence. by apply M3.
    + destruct (co_lead _ _ Hc b q (Hother b q Hq Hne) Hch) as [Hld|Hb]; [left|by right]. by eapply led_later.
  - intros v Hin. by eapply appends_commit.
Qed.

(** The steps [ls] do not crash the server. *)
Definition spared (a : text) (ls : list nlabel) : Prop := forall ws, NRestart a ws ∉ ls.

Lemma spared_app a ls ls' : spared a (ls ++ ls') -> spared a ls /\ spared a ls'.
Proof. intros Hs. split; intros ws; by destruct (proj1 (not_elem_of_app _ _ _) (Hs ws)). Qed.

(** A server that is started again has committed nothing so far. *)
Lemma commits_restarted n l n' G a p s p' :
  commits_ok n G -> later (terms n) (acks G) (terms n') (acks G) -> restarts_node n l n' a p s p' -> commits_ok n' G.
Proof.
  intros [C1 C2 C3 C4] Hlt [_ Ha Hr Ep Ea _ _].
  assert (Hold : forall b q, procs n' !! b = Some q -> (b = a /\ q = p') \/ procs n !! b = Some q).
  { intros b q Hq. rewrite Ep in Hq. apply lookup_insert_Some in Hq as [[<- <-]|[_ ?]]; auto. }
  split.
  - intros b q x [[-> ->]|Hq]%Hold Hx; [|by eapply C1]. rewrite (rs_commit _ _ _ Hr). split; [done|by left].
  - intros b q [[-> ->]|Hq]%Hold; [|by eapply C2]. unfold places. rewrite (rs_peers _ _ _ Hr).
    intros id x. by rewrite fmap_empty, lookup_empty.
  - intros b q [[-> ->]|Hq]%Hold Hc; [|by eapply C3]. by destruct (restarted_idle p s p' Hr).
  - rewrite Ea. exact C4.
Qed.

(** ** Runs *)

(** A run is led when it is [orderly] and [timely]. *)
Fixpoint led_run n (ls : list nlabel) : Prop :=
  match ls with
  | [] => True
  | l :: ls' => (orderly n l /\ timely n l) /\ match nstep n l with Some n' => led_run n' ls' | None => True end
  end.

Record safe_net n G (B : Z) : Prop := mk_safe_net {
  sn_net : net_ok P n;
  sn_logs : logs_ok n (hist G) B;
  sn_votes : votes_safe P n G;
  sn_commits : commits_ok n G
}.

(** From one moment to a later one, by the steps [ls]. A commit index goes back only when
    its server crashes. *)
Record aged (ls : list nlabel) n G n' G' : Prop := mk_aged {
  ag_later : later (terms n) (acks G) (terms n') (acks G');
  ag_extends : extends (hist G) (hist G');
  ag_commit : forall a p, spared a ls -> procs n !! a = Some p ->
    exists p', procs n' !! a = Some p' /\ commitIndex (node p) <= commitIndex (node p')
}.

Lemma aged_refl n G : aged [] n G n G.
Proof. split; [apply later_refl|apply extends_refl|eauto with lia]. Qed.

(** A step that leaves the commit indices alone. *)
Lemma aged_same l n G n' : later (terms n) (acks G) (terms n') (acks G) ->
  (forall a p, spared a [l] -> procs n !! a = Some p -> procs n' !! a = Some p) -> aged [l] n G n' G.
Proof.
  intros Hlt Hp. split; [done|apply extends_refl|].
  intros a p Hn Ha. exists p. split; [by apply Hp|done].
Qed.

Lemma aged_trans ls ls' n1 G1 n2 G2 n3 G3 :
  aged ls n1 G1 n2 G2 -> aged ls' n2 G2 n3 G3 -> aged (ls ++ ls') n1 G1 n3 G3.
Proof.
  intros [[A1 A2 A3] AE AC] [[B1 B2 B3] BE BC]. split.
  - split.
    + intros v t Ht. destruct (A1 v t Ht) as (t'&Ht'&Hle). destruct (B1 v t' Ht') as (t2&Ht2&Hle2).
      exists t2. split; [done|lia].
    + intros v T i Hi. by apply B2, A2.
    + intros v T i Hi. destruct (B3 v T i Hi) as [Hi'|Hle]; [by apply A3|right]. intros t Ht.
      destruct (A1 v t Ht) as (t'&Ht'&Hle'). specialize (Hle t' Ht'). lia.
  - intros T h Hh. destruct (AE T h Hh) as [x Hx]. destruct (BE T _ Hx) as [y Hy]. exists (x ++ y).
    by rewrite app_assoc.
  - intros a p [Hn Hn']%spared_app Ha. destruct (AC a p Hn Ha) as (p2&Hp2&Hle).
    destruct (BC a p2 Hn' Hp2) as (p3&Hp3&Hle3). exists p3. split; [done|lia].
Qed.

(** How a step of the network changes the history. *)
Definition wrote n (Hi Hi' : history) : Prop :=
  Hi' = Hi \/ exists a p k p', procs n !! a = Some p /\ log_change Hi p k p' Hi'.

Lemma safe_step n l n' G B :
  safe_net n G B -> orderly n l -> timely n l -> nstep n l = Some n' -> 0 <= B -> 2 * B < max_uint - 1 ->
  exists G', safe_net n' G' (B + 1) /\ aged [l] n G n' G' /\ wrote n (hist G) (hist G').
Proof.
  intros [Hn Hk Hv Hc] Ho Ht Hs HB0 HB.
  assert (net_ok P n') as Hn' by (eapply nstep_ok; [done..|apply Ho|done]).
  destruct (nstep_moves n l n' Hs) as [Ep Ea Eb Ec|a p k p' Hmv|a p s p' Hrn].
  - exists G. split; [|split; [|by left]];
      [|apply aged_same; [unfold terms; rewrite Ep; apply later_refl|intros; by rewrite Ep]].
    split; [done| | |].
    + apply (logs_still n n' (hist G) B (B + 1)); [lia|done..].
    + by apply (votes_still P n n' G).
    + destruct Hc as [C1 C2 C3 C4]. split; rewrite ?Ep; auto.
  - destruct (logs_move P ids_distinct n l n' (hist G) B a p k p') as (Hi'&Hk'&Hnm); try done.
    destruct (lk_procs _ _ _ Hk a p (mn_before _ _ _ _ _ _ _ Hmv)) as [(lg&Hr&_&_&_) _ _ _].
    destruct (votes_step P ids_distinct n l n' a p k p' G Hi' B lg) as (G'&l'&<-&Hva&Hr'&Hef); try done.
    exists G'. pose proof Hva as [Hv' Hlt Hext].
    destruct (log_facts n' G' (B + 1) a p' l' Hk' ltac:(lia)) as (_&Hz'&_); [|done|].
    { destruct Hmv as [_ _ -> _ _ _ _]. apply lookup_insert_eq. }
    destruct (commits_moved n n' l a p k p' G G' B lg l') as [Hc' Hle]; try done; [lia|].
    split; [done|]. split; [|right; exists a, p, k, p'; split; [apply Hmv|apply Hnm]].
    split; [done..|]. intros b q _ Hb. destruct Hmv as [Ha _ -> _ _ _ _].
    destruct (decide (b = a)) as [->|Hne].
    + exists p'. rewrite lookup_insert_eq. assert (q = p) as -> by congruence. done.
    + exists q. by rewrite lookup_insert_ne.
  - destruct (votes_restarted P n l n' G a p s p' Hv) as [Hv' Hlt]; [apply Ho|done|].
    exists G. split.
    + split; [done| |done|by eapply commits_restarted].
      apply (logs_ok_le n' (hist G) B); [lia|]. eapply logs_restarted; [done|apply Ho|done].
    + split; [|by left]. apply aged_same; [done|]. destruct Hrn as [(ws&->&_) _ _ Ep _ _ _]. intros b q Hne Hb. rewrite Ep.
      rewrite lookup_insert_ne; [done|]. intros <-. apply (Hne ws). by left.
Qed.

Lemma nsteps_app ls1 ls2 : forall n, nsteps n (ls1 ++ ls2) = nsteps n ls1 ≫= fun n' => nsteps n' ls2.
Proof. induction ls1 as [|l ls IH]; intros n; cbn; [done|]. destruct (nstep n l); [apply IH|done]. Qed.

Lemma led_run_app ls1 ls2 : forall n n', nsteps n ls1 = Some n' -> led_run n (ls1 ++ ls2) ->
  led_run n ls1 /\ led_run n' ls2.
Proof.
  induction ls1 as [|l ls IH]; intros n n' Hs Hl; cbn in *; [by injection Hs as <-|].
  destruct Hl as [Ho Hl]. destruct (nstep n l) as [n1|] eqn:E; [|done].
  destruct (IH n1 n' Hs Hl) as [? ?]. done.
Qed.

Lemma safe_run ls : forall n n' G B,
  safe_net n G B -> led_run n ls -> nsteps n ls = Some n' -> 0 <= B -> B + zlen ls < 2 ^ 62 ->
  exists G', safe_net n' G' (B + zlen ls) /\ aged ls n G n' G'.
Proof.
  induction ls as [|l ls IH]; intros n n' G B Hn Hl Hs HB0 HB; cbn in Hl, Hs.
  { injection Hs as <-. exists G. rewrite zlen_nil, Z.add_0_r. split; [done|apply aged_refl]. }
  destruct Hl as [[Ho Ht] Hl]. destruct (nstep n l) as [n1|] eqn:E; [|done]. rewrite zlen_cons in *. zlen_facts.
  destruct (safe_step n l n1 G B) as (G1&Hn1&Ha1&_); try done; [unfold max_uint; lia|].
  destruct (IH n1 n' G1 (B + 1)) as (G'&Hn'&Ha'); try done; [lia..|].
  exists G'. split; [by replace (B + (1 + zlen ls)) with (B + 1 + zlen ls) by lia|by apply (aged_trans [l] ls n G n1 G1)].
Qed.

(** ** Agreement *)

(** Of two committed prefixes one is in the other's term, or the later leader has the
    earlier one. *)
Lemma committed_agree n G T T' l k c c' i :
  votes_safe P n G -> committed_at G T l c -> committed_at G T' k c' -> Z.of_nat i <= c -> Z.of_nat i <= c' ->
  take i l = take i k.
Proof.
  intros Hv [_ Hc] [_ Hc'] Hi Hi'. destruct (decide (i = O)) as [->|Hpos]; [done|].
  destruct Hc as [->|(T1&i1&Hch1&_&Hle1&(h1&Hh1&Hl1&E1))]; [lia|].
  destruct Hc' as [->|(T2&i2&Hch2&_&Hle2&(h2&Hh2&Hl2&E2))]; [lia|].
  assert (take i h1 = take i h2) as E.
  { assert (forall Ta ia ha Tb ib hb, chosen P (hist G) (acks G) Ta ia -> hist G !! Ta = Some ha ->
      hist G !! Tb = Some hb -> (i <= ia)%nat -> Ta <= Tb -> (i <= ib)%nat -> take i hb = take i ha) as Hone.
    { intros Ta ia ha Tb ib hb Hch Ha Hb Hia Hab _. destruct (Z.eq_dec Ta Tb) as [->|Hne]; [congruence|].
      assert (pref (hist G) hb Ta ia) as (h&Hh&_&Eq).
      { eapply chosen_pref; [exact Hch|]. eapply (vs_hist _ _ _ Hv Tb); [done|lia|by destruct Hch]. }
      assert (h = ha) as -> by congruence. by eapply take_eq_le. }
    destruct (Z.le_ge_cases T1 T2); [symmetry; by eapply (Hone T1 i1 h1 T2 i2 h2); try done; lia|].
    eapply (Hone T2 i2 h2 T1 i1 h1); try done; lia. }
  transitivity (take i h1); [eapply take_eq_le; [|exact E1]; lia|].
  rewrite E. symmetry. eapply take_eq_le; [|exact E2]. lia.
Qed.

(** A leader has what a server of its term, or of an earlier one, has committed. *)
Lemma committed_led n G T T' l h c :
  votes_safe P n G -> committed_at G T l c -> hist G !! T' = Some h -> T <= T' ->
  take (Z.to_nat c) h = take (Z.to_nat c) l.
Proof.
  intros Hv [_ Hc] Hh HT. destruct Hc as [->|(T1&i1&Hch1&HT1&Hle1&(h1&Hh1&Hl1&E1))]; [done|].
  rewrite E1. destruct (Z.eq_dec T1 T') as [->|Hne]; [congruence|].
  assert (pref (hist G) h T1 i1) as (h2&Hh2&_&Eq).
  { eapply chosen_pref; [exact Hch1|]. eapply (vs_hist _ _ _ Hv T'); [done|lia|by destruct Hch1]. }
  assert (h2 = h1) as -> by congruence. eapply take_eq_le; [|exact Eq]. lia.
Qed.

Lemma committed_len G T l c : committed_at G T l c -> 0 <= c <= zlen l.
Proof.
  intros [Hc [->|(T1&i1&_&_&_&Hp)]]; [split; [done|apply zlen_nonneg]|].
  apply pref_len in Hp. unfold zlen. lia.
Qed.

End cluster.

(** * Properties *)

(** Servers that start for the first time have committed and applied nothing. *)
Definition uncommitted {L Sb F R} (nodes : gmap text (RaftNode L Sb F R)) : Prop :=
  forall a r, nodes !! a = Some r -> commitIndex r = 0 /\ lastApplied r = 0.

Lemma boot_safe {L Sb F R} `{LogStoreSpec L} `{StableStoreSpec Sb} `{FSM F R}
    (P : list PeerConfig) (nodes : gmap text (RaftNode L Sb F R)) :
  cluster P nodes -> fresh_servers nodes -> uncommitted nodes ->
  safe_net P (boot nodes) (mkGhost ∅ ∅ ∅) 0.
Proof.
  intros Hc Hf Hu. pose proof Hc as [_ _ Hb].
  assert (Hp : forall a p, procs (boot nodes) !! a = Some p ->
    exists r, p = start r /\ commitIndex r = 0 /\ peers r = ∅ /\ state r = Follower).
  { intros a p Ha. cbn in Ha. rewrite lookup_fmap in Ha. destruct (nodes !! a) as [r|] eqn:E; [|done].
    injection Ha as <-. exists r. split_and!; [done|by apply (Hu a)|by eapply Hf|by apply (bt_state P a), Hb]. }
  split; [by apply boot_ok|by apply (boot_logs P)|by apply boot_votes|]. split.
  - intros a p l Ha _. destruct (Hp a p Ha) as (r&->&E&_). cbn. rewrite E. split; [done|by left].
  - intros a p Ha. destruct (Hp a p Ha) as (r&->&_&E&_). unfold places. cbn. rewrite E.
    intros id x. by rewrite fmap_empty, lookup_empty.
  - intros a p Ha [Hl|[Hl|Hl]]; destruct (Hp a p Ha) as (r&->&_&_&Hs); cbn in Hl; congruence.
  - by intros v ?%elem_of_nil.
Qed.

Lemma cluster_safe {L Sb F R} `{LogStoreSpec L} `{StableStoreSpec Sb} `{FSM F R}
    (P : list PeerConfig) (nodes : gmap text (RaftNode L Sb F R)) ls ls' n n' :
  cluster P nodes -> fresh_servers nodes -> uncommitted nodes -> zlen (ls ++ ls') < 2 ^ 62 ->
  led_run (boot nodes) (ls ++ ls') -> nsteps (boot nodes) ls = Some n -> nsteps n ls' = Some n' ->
  exists G G' B, B < 2 ^ 62 /\ safe_net P n G B /\ safe_net P n' G' B /\ aged ls' n G n' G'.
Proof.
  intros Hc Hf Hu Hz Hl Hs Hs'. destruct (led_run_app ls ls' (boot nodes) n Hs Hl) as [Hl1 Hl2].
  rewrite zlen_app in Hz. zlen_facts. pose proof (zlen_nonneg ls). pose proof (zlen_nonneg ls').
  destruct (safe_run P (cl_ids _ _ Hc) (cl_addrs _ _ Hc) ls (boot nodes) n (mkGhost ∅ ∅ ∅) 0) as (G&Hn&_);
    [by apply boot_safe|done|done|lia|lia|].
  destruct (safe_run P (cl_ids _ _ Hc) (cl_addrs _ _ Hc) ls' n n' G (0 + zlen ls)) as (G'&Hn'&Ha); [done..|lia|lia|].
  exists G, G', (0 + zlen ls + zlen ls'). split; [lia|]. split; [|done].
  destruct Hn as [N1 N2 N3 N4]. split; try done. destruct N2 as [K1 K2 K3 K4]. split; try done.
  - apply (history_ok_le _ (0 + zlen ls)); [lia|done].
  - intros a p Ha'. apply (log_ok_le _ (0 + zlen ls)); [lia|]. by eapply K3.
Qed.

(** C5: state machine safety. In every run of a cluster whose servers start with empty
    logs, what one server has committed at an index and what the same or another server has
    committed there, then or later, is one entry; however goroutines interleave, whatever
    the transport loses, delays or reorders, whichever writes of the logs fail and whenever
    servers crash and are started again. The run is orderly as for log matching, and a
    successful answer to AppendEntries reaches a replicator whose node is still the leader,
    unless it brings a newer term. *)
Theorem state_machine_safety {L Sb F R} `{LogStoreSpec L} `{StableStoreSpec Sb} `{FSM F R}
    (P : list PeerConfig) (nodes : gmap text (RaftNode L Sb F R)) ls ls' n n' a b p q i :
  cluster P nodes -> fresh_servers nodes -> uncommitted nodes -> zlen (ls ++ ls') < 2 ^ 62 ->
  led_run (boot nodes) (ls ++ ls') -> nsteps (boot nodes) ls = Some n -> nsteps n ls' = Some n' ->
  procs n !! a = Some p -> procs n' !! b = Some q ->
  1 <= i -> i <= commitIndex (node p) -> i <= commitIndex (node q) ->
  exists e, GetLog (logStore (node p)) i = Got e /\ GetLog (logStore (node q)) i = Got e.
Proof.
  intros Hc Hf Hu Hz Hl Hs Hs' Ha Hb Hi Hp Hq.
  destruct (cluster_safe P nodes ls ls' n n') as (G&G'&B&HB&[_ K1 V1 C1]&[_ K2 V2 C2]&[Hlt Hext _]); try done.
  destruct (lk_procs _ _ _ K1 a p Ha) as [(l&Hrl&_&Hzl&_) _ _ _].
  destruct (lk_procs _ _ _ K2 b q Hb) as [(k&Hrk&_&Hzk&_) _ _ _].
  pose proof (co_commit _ _ _ C1 a p l Ha Hrl) as Hcl. pose proof (co_commit _ _ _ C2 b q k Hb Hrk) as Hck.
  pose proof (committed_len _ _ _ _ _ Hcl) as Hll. assert (2 ^ 62 < max_uint) as Hm by done.
  apply (committed_later P (terms n) (terms n') G G' Hlt Hext (term p) (term p)) in Hcl; [|done].
  pose proof (committed_agree P n' G' _ _ l k _ _ (Z.to_nat i) V2 Hcl Hck ltac:(lia) ltac:(lia)) as E.
  destruct (lookup_lt_is_Some_2 l (Z.to_nat (i - 1))) as [e He]; [unfold zlen in Hll; lia|].
  exists e. split; (eapply GetLog_hit; [eassumption|lia|]); [done|].
  rewrite <-(lookup_take_lt k (Z.to_nat i)), <-E by lia. by rewrite lookup_take_lt by lia.
Qed.

(** C7: leader completeness. In every led run of a cluster whose servers start with empty
    logs and have committed nothing (the runs of state machine safety), what a server has
    committed is, then and later, in the log of every leader of its term or a later one. *)
Theorem leader_completeness {L Sb F R} `{LogStoreSpec L} `{StableStoreSpec Sb} `{FSM F R}
    (P : list PeerConfig) (nodes : gmap text (RaftNode L Sb F R)) ls ls' n n' a b p q i :
  cluster P nodes -> fresh_servers nodes -> uncommitted nodes -> zlen (ls ++ ls') < 2 ^ 62 ->
  led_run (boot nodes) (ls ++ ls') -> nsteps (boot nodes) ls = Some n -> nsteps n ls' = Some n' ->
  procs n !! a = Some p -> procs n' !! b = Some q ->
  state (node q) = Leader -> currentTerm (node p) <= currentTerm (node q) ->
  1 <= i -> i <= commitIndex (node p) ->
  exists e, GetLog (logStore (node p)) i = Got e /\ GetLog (logStore (node q)) i = Got e.
Proof.
  intros Hc Hf Hu Hz Hl Hs Hs' Ha Hb Hq Ht Hi Hp.
  destruct (cluster_safe P nodes ls ls' n n') as (G&G'&B&HB&[_ K1 V1 C1]&[_ K2 V2 C2]&[Hlt Hext _]); try done.
  destruct (lk_procs _ _ _ K1 a p Ha) as [(l&Hrl&_&Hzl&_) _ _ _].
  destruct (lk_procs _ _ _ K2 b q Hb) as [(k&Hrk&_&Hzk&Hck) _ _ _]. specialize (Hck (or_introl Hq)).
  pose proof (co_commit _ _ _ C1 a p l Ha Hrl) as Hcl. assert (2 ^ 62 < max_uint) as Hm by done.
  pose proof (committed_len _ _ _ _ _ Hcl) as Hll.
  apply (committed_later P (terms n) (terms n') G G' Hlt Hext (term p) (term p)) in Hcl; [|done].
  pose proof (committed_led P n' G' _ _ l k _ V2 Hcl Hck Ht) as E.
  destruct (lookup_lt_is_Some_2 l (Z.to_nat (i - 1))) as [e He]; [unfold zlen in Hll; lia|].
  exists e. split; (eapply GetLog_hit; [eassumption|lia|]); [done|].
  rewrite <-(lookup_take_lt k (Z.to_nat (commitIndex (node p)))), E by lia. by rewrite lookup_take_lt by lia.
Qed.

(** * A run in which the log is committed

    After [demo_replicate], n1 has committed its no-op entry and the client's; the next
    request tells n3, which has crashed in between. *)
#[local] Instance unit_replica : FSM unit unit := { fsm_Apply f _ := Ret (f, None) }.

(** [led_run], decided. *)
Definition timelyb {L Sb F R} (n : network L Sb F R) (l : nlabel) : bool :=
  match l with
  | NAppendResponse i _ =>
      match v ← appends n !! i; resp ← ac_resp v; p ← procs n !! ac_from v;
            Some (negb (aer_Success resp && (aer_Term resp <=? term p)) || bool_decide (state (node p) = Leader)) with
      | Some b => b
      | None => true
      end
  | _ => true
  end.

Fixpoint led_runb {L Sb F R} `{LogStore L} `{StableStore Sb} `{FSM F R} (n : network L Sb F R)
    (ls : list nlabel) : bool :=
  match ls with
  | [] => true
  | l :: ls' => (orderlyb n l && timelyb n l) && match nstep n l with Some n' => led_runb n' ls' | None => true end
  end.

Lemma timelyb_timely {L Sb F R} (n : network L Sb F R) l : timelyb n l = true -> timely n l.
Proof.
  intros Hq. destruct l as [a l|i|i|i|i|i k|i|a ws]; try done. intros v resp p Hv Hr Hp Hok Hle. cbn in Hq.
  rewrite Hv in Hq. cbn in Hq. rewrite Hr in Hq. cbn in Hq. rewrite Hp in Hq. cbn in Hq.
  rewrite Hok, (proj2 (Z.leb_le _ _) Hle) in Hq. cbn in Hq. by apply bool_decide_eq_true in Hq.
Qed.

Lemma led_runb_led {L Sb F R} `{LogStore L} `{StableStore Sb} `{FSM F R} (n : network L Sb F R) ls :
  led_runb n ls = true -> led_run n ls.
Proof.
  revert n. induction ls as [|l ls IH]; intros n Hq; [done|].
  cbn [led_runb] in Hq. apply andb_prop in Hq as [[Ho Ht]%andb_prop Hq].
  split; [split; [by apply orderlyb_orderly|by apply timelyb_timely]|].
  destruct (nstep n l); [by apply IH|done].
Qed.

Lemma demo_uncommitted : uncommitted demo_nodes.
Proof.
  intros a r Hr. unfold demo_nodes in Hr.
  repeat (apply lookup_insert_Some in Hr as [[_ <-]|[_ Hr]]; [done|]).
  by apply lookup_singleton_Some in Hr as [_ <-].
Qed.

Definition demo_tell : list nlabel :=
  NRestart (bytes_of "h3") [] :: main "h3" 2 ++ demo_exchange "h1" "n3" 0.

Definition demo_told : network InmemLogStore InmemStableStore unit unit :=
  default (boot demo_nodes) (nsteps demo_end demo_tell).

Lemma demo_end_run : nsteps (boot demo_nodes) demo_replicate = Some demo_end.
Proof. apply default_eq. vm_compute. reflexivity. Qed.

Definition committed_proc (n : network InmemLogStore InmemStableStore unit unit) (a : string) :
    proc InmemLogStore InmemStableStore unit unit :=
  default (start (demo_node "n1" 0 Follower [])) (procs n !! bytes_of a).

Lemma demo_led : led_run (boot demo_nodes) (demo_replicate ++ demo_tell).
Proof. apply led_runb_led. vm_compute. reflexivity. Qed.

(** What n1 has committed first, n3 commits after a crash. *)
Lemma state_machine_safety_witness :
  exists e, GetLog (logStore (node (committed_proc demo_end "h1"))) 2 = Got e /\
    GetLog (logStore (node (committed_proc demo_told "h3"))) 2 = Got e.
Proof.
  apply (state_machine_safety demo_peers demo_nodes demo_replicate demo_tell demo_end demo_told
           (bytes_of "h1") (bytes_of "h3") (committed_proc demo_end "h1") (committed_proc demo_told "h3") 2);
    [exact demo_cluster|exact demo_fresh|exact demo_uncommitted|by_compute|exact demo_led| | | | |lia|by_compute..].
  all: apply default_eq; vm_compute; reflexivity.
Defined.

(** What n3 has committed, the leader n1 has. *)
Lemma leader_completeness_witness :
  exists e, GetLog (logStore (node (committed_proc demo_told "h3"))) 2 = Got e /\
    GetLog (logStore (node (committed_proc demo_told "h1"))) 2 = Got e.
Proof.
  apply (leader_completeness demo_peers demo_nodes (demo_replicate ++ demo_tell) [] demo_told demo_told
           (bytes_of "h3") (bytes_of "h1") (committed_proc demo_told "h3") (committed_proc demo_told "h1") 2);
    [exact demo_cluster|exact demo_fresh|exact demo_uncommitted|by_compute|rewrite app_nil_r; exact demo_led|
     |reflexivity| | |by_compute|by_compute|lia|by_compute].
  - rewrite nsteps_app, demo_end_run. apply default_eq. vm_compute. reflexivity.
  - apply default_eq. vm_compute. reflexivity.
  - apply default_eq. vm_compute. reflexivity.
Defined.

(** * What [timely] excludes

    Five servers, and a success that reaches n1 when it has lost the leadership. *)
Definition five_peers : list PeerConfig :=
  (fun x => mkPeer (bytes_of (fst x)) (bytes_of (snd x))) <$>
    [("n1", "h1"); ("n2", "h2"); ("n3", "h3"); ("n4", "h4"); ("n5", "h5")].

Definition five_node (q : PeerConfig) : demo_server :=
  mkNode
    (mkConfig (PeerID q) five_peers (150 * Millisecond) (1000 * Millisecond)
      (2000 * Millisecond) (Some NewInmemLogStore) (Some (∅ : InmemStableStore)) (Some tt))
    0 [] NewInmemLogStore ∅ Follower 0 0 ∅ [] [] tt ∅ ∅ [] false false.

Definition five_nodes : gmap text demo_server :=
  list_to_map ((fun q => (Address q, five_node q)) <$> five_peers).

(** The server at [v] takes [k] steps, is asked with call [i], and its vote is counted at [a]. *)
Definition poll (a v : string) (k i : nat) : list nlabel :=
  main v k ++ [NVoteRequest i] ++ main a 1 ++ [NVoteResponse i].

Definition again (a : string) : list nlabel := NStep (bytes_of a) LTimer :: main a 3.

Definition late_answer : list nlabel :=
  (* n1 leads term 1 with n2 and n3, and appends a no-op entry and x *)
  demo_candidate "h1" ++ poll "h1" "h2" 2 0 ++ poll "h1" "h3" 2 0 ++ replicate 2 (NVoteLost 0) ++ main "h1" 5 ++
  (NStep (bytes_of "h1") <$> [LSubmit (bytes_of "x") Enqueued; LRequest]) ++
  (* n5 leads term 2 with n3 and n4, and appends a no-op entry; n1 hears of term 2 *)
  demo_candidate "h5" ++ main "h5" 1 ++ replicate 4 (NVoteLost 0) ++ again "h5" ++
  main "h1" 1 ++ [NVoteRequest 0] ++ main "h3" 1 ++ [NVoteRequest 2; NVoteResponse 2] ++ poll "h5" "h4" 2 2 ++
  replicate 2 (NVoteLost 0) ++ main "h5" 5 ++
  (* n1 is elected for term 3 with n2 and n3 *)
  main "h1" 2 ++ again "h1" ++ [NVoteRequest 3] ++ main "h2" 1 ++ [NVoteRequest 0; NVoteResponse 0] ++
  poll "h1" "h3" 1 0 ++ replicate 2 (NVoteLost 0) ++ main "h1" 3 ++
  (* before its no-op entry n2 and n3 get both entries; the answer of n3 is late *)
  (x ← [1; 2]%nat; NStep (bytes_of "h1") (LSend (bytes_of "n2")) :: main "h2" 1 ++
     [NAppend 0; NAppendResponse 0 (Current (bytes_of "n2"))]) ++
  NStep (bytes_of "h1") (LSend (bytes_of "n3")) :: main "h3" 1 ++
    [NAppend 0; NAppendResponse 0 (Current (bytes_of "n3"))] ++
  NStep (bytes_of "h1") (LSend (bytes_of "n3")) :: main "h3" 1 ++ [NAppend 0] ++ main "h1" 1 ++
  (* n5 is elected for term 4 with n3 and n4, and n1 gets its log *)
  main "h5" 2 ++ again "h5" ++ main "h3" 1 ++ [NVoteRequest 2; NVoteResponse 2] ++ poll "h5" "h4" 1 2 ++
  replicate 2 (NVoteLost 0) ++ main "h5" 5 ++ main "h1" 1 ++ demo_exchange "h5" "n1" 1 ++
  NStep (bytes_of "h5") (LSend (bytes_of "n1")) :: main "h1" 2 ++
    [NAppend 1; NAppendResponse 1 (Current (bytes_of "n1"))] ++
  (* the answer of n3 arrives *)
  [NAppendResponse 0 (Current (bytes_of "n3"))] ++
  (* n2 is elected for term 5 with n3 and n4, and commits *)
  main "h2" 1 ++ again "h2" ++ replicate 4 (NVoteLost 0) ++ again "h2" ++
  main "h3" 1 ++ [NVoteRequest 1; NVoteResponse 1] ++ poll "h2" "h4" 1 1 ++ replicate 2 (NVoteLost 0) ++ main "h2" 5 ++
  (x ← ["n3"; "n4"; "n4"]; NStep (bytes_of "h2") (LSend (bytes_of x)) ::
     main (if bool_decide (x = "n3") then "h3" else "h4") 1 ++ [NAppend 0; NAppendResponse 0 (Current (bytes_of x))]).

(** A late success makes a server commit what no majority has. [replicateOnce] does
    not look whether its node is still the leader: n1, a follower of n5 in term 4, counts
    an answer to what it sent as leader of term 3 and commits the no-op entry of n5 at
    index 2, which only n1 and n5 have; n2 is elected for term 5 and commits x there. In
    this run every message is answered by the handlers of the code, and none is lost but
    some votes. *)
Theorem late_answer_diverges :
  orderly_run (boot five_nodes) late_answer /\
  (fun n => (committed n "h1" 2, committed n "h2" 2)) <$> nsteps (boot five_nodes) late_answer
  = Some (Some (mkLog 2 4 []), Some (mkLog 2 1 (bytes_of "x"))).
Proof. split; [apply orderly_runb_orderly; vm_compute; reflexivity|vm_compute; reflexivity]. Qed.
