(* ===== verification/Entries.v ===== *)
(** What the logs of a cluster hold: every entry is a no-op of a leader, or has the data of
    a command that a client of one of the servers has submitted ([Apply],
    [handleApplyRequest] and [appendNoOp] of [internal/raft/raft.go]). What the clients see
    to, the state machines can rely on. *)
From S2P Require Import Prelude Stores Future Config Node Election Replication Rpc Leader Machine Frame.
From S2P Require Import Restart Network ElectionSafety LogMatching LeaderCompleteness CommitSafety.

(** * One node

    The channel [applyCh] holds what clients have submitted. *)
Section queue.
  Context {L Sb F R : Type} `{LogStore L} `{StableStoreSpec Sb} `{FSM F R}.
  Implicit Types r : RaftNode L Sb F R.
  Implicit Types p : proc L Sb F R.

Definition channels r := (applyCh r, shutdownCh r).
Definition same_queue r r' : Prop := channels r' = channels r.

Lemma resolve_queue id err resp r : same_queue r (resolve id err resp r).
Proof. unfold same_queue, resolve. by destruct (futures r !! id). Qed.

Lemma fail_all_queue r err : same_queue r (fail_all r err).
Proof.
  unfold fail_all, same_queue, channels. cbn [applyCh shutdownCh set_pendingFutures].
  generalize ((map_to_list (pendingFutures r)).*2). intros l. revert r.
  induction l as [|a l IH]; intros r; cbn [foldl]; [done|]. rewrite IH. apply resolve_queue.
Qed.

Lemma stable_queue r r' : same_but_stable r r' -> same_queue r r'.
Proof. unfold same_but_stable, same_queue. by intros ->. Qed.

Lemma stepDown_queue r t r' : stepDown r t = Ret r' -> same_queue r r'.
Proof.
  destruct (stepDown_total r t) as (r1&E&Hs). rewrite E. intros [= <-]. by apply stable_queue in Hs.
Qed.

Lemma startElection_queue r r' req addrs : startElection r = Ret (r', req, addrs) -> same_queue r r'.
Proof.
  unfold startElection.
  destruct (persistState_total (set_votedFor (ServerID (config r))
    (set_currentTerm (currentTerm r +ᵤ 1)%go r))) as (r1&->&Hs). cbn [mbind outcome_bind].
  destruct (lastLogInfo r1). intros Hx. injection Hx as <- _ _. by apply stable_queue in Hs.
Qed.

Lemma advance_queue r r' : advanceCommitIndex r = Ret r' -> same_queue r r'.
Proof.
  unfold advanceCommitIndex. intros (c&_&Hc)%bind_ret. destruct (c <=? commitIndex r); [by injection Hc as <-|].
  destruct (GetLog (logStore r) c); [|by injection Hc as <-]. destruct (negb _); by injection Hc as <-.
Qed.

Lemma leader_addr_queue id r : same_queue r (set_leaderAddr_of id r).
Proof. unfold set_leaderAddr_of. by destruct (find_addr _ _). Qed.

Lemma becomeLeader_queue r : same_queue r (becomeLeader r).
Proof. unfold becomeLeader, set_leaderAddr_of. by destruct (find_addr _ _). Qed.

Lemma append_queue r req r' resp b : handleAppendEntries r req = Ret (r', resp, b) -> same_queue r r'.
Proof.
  unfold handleAppendEntries. destruct (ae_Term req <? currentTerm r); [by intros [= <- _ _]|].
  intros (r1&Ha&Hh)%bind_ret.
  assert (same_queue r r1) as Hq.
  { unfold accept_leader in Ha. apply bind_ret in Ha as (r2&Hr2&[= <-]).
    assert (same_queue r r2) as Hk; [|unfold same_queue in *; by rewrite leader_addr_queue].
    destruct (currentTerm r <? ae_Term req); [by eapply stepDown_queue|].
    destruct (negb _); [by eapply stepDown_queue|]. by injection Hr2 as <-. }
  apply bind_ret in Hh as ([[ct ci]|]&_&Hh); [by injection Hh as <- _ _|].
  apply bind_ret in Hh as ([log ok]&_&Hh). destruct ok; cbn in Hh; injection Hh as <- _ _; [|done].
  unfold follow_commit. by destruct (commitIndex _ <? _).
Qed.

Lemma handleRPC_queue r cmd r' resp b : handleRPC r cmd = Ret (r', resp, b) -> same_queue r r'.
Proof.
  destruct cmd as [req|req|]; simpl.
  - intros ([[r1 resp1] b1]&Hh&Hx)%bind_ret. injection Hx as <- _ _. by eapply append_queue.
  - intros ([[r1 resp1] b1]&Hh&Hx)%bind_ret. injection Hx as <- _ _.
    destruct (handleRequestVote_spec r req) as (r2&Hr2&Hs). rewrite Hr2 in Hh.
    injection Hh as <- _ _. unfold same_queue. rewrite (stable_queue _ _ Hs). unfold at_term.
    by destruct (vote_ok r req), (currentTerm r <? rv_Term req).
  - by intros [= <- _ _].
Qed.

Lemma appendNoOp_queue r r' : appendNoOp r = Ret r' -> same_queue r r'.
Proof.
  unfold appendNoOp, or_log. by destruct (StoreLog (logStore r) (next_entry r [])); intros Hx; try done;
    injection Hx as <-.
Qed.

Lemma handleApplyRequest_queue r req r' : handleApplyRequest r req = Ret r' -> same_queue r r'.
Proof.
  unfold handleApplyRequest. destruct (negb _); [intros [= <-]; apply resolve_queue|].
  destruct (StoreLog _ _); intros Hx; try done; injection Hx as <-; [done|apply resolve_queue].
Qed.

Lemma apply_one_queue r idx r' : apply_one r idx = Ret r' -> same_queue r r'.
Proof.
  unfold apply_one. destruct (GetLog (logStore r) idx); [|intros Hx; by injection Hx as <-].
  intros ([f x]&_&Hx)%bind_ret. injection Hx as <-. cbn [fst snd].
  destruct (pendingFutures _ !! idx) as [a|]; [|done].
  exact (resolve_queue a None x (set_lastApplied idx (set_fsm f r))).
Qed.

Lemma process_queue r id es resp r' : replicate_process r id es resp = Ret r' -> same_queue r r'.
Proof.
  unfold replicate_process. destruct (_ <? _); [by apply stepDown_queue|].
  destruct (peers r !! id), (aer_Success resp); try (intros Hx; by injection Hx as <-);
    try (by intros Hx%advance_queue). by intros (next&_&[= <-])%bind_ret.
Qed.

Lemma main_queue p p' : main_step p = Some p' -> same_queue (node p) (node p').
Proof.
  intros Hs. unfold main_step in Hs. destruct (pc p) as [|[]| |t v []|t| | |[]|];
    try (destruct (shutdownCh (node p)); [|done]);
    try (injection Hs as <-; first [done|apply becomeLeader_queue|apply fail_all_queue]).
  - destruct (shutdownCh (node p)), (state (node p)); by injection Hs as <-.
  - apply try_some in Hs as ([[r' req] addrs]&He%startElection_queue&Hs). cbn [fst] in Hs.
    by destruct (quorum r' <=? 1); injection Hs as <-.
  - by apply try_some in Hs as (r'&Hr%appendNoOp_queue&[= <-]).
  - case_bool_decide; injection Hs as <-; [done|apply fail_all_queue].
  - done.
Qed.

Lemma command_queue p cmd p' : command_step p cmd = Some p' -> same_queue (node p) (node p').
Proof.
  unfold command_step. intros Hs. destruct (pc p) as [|[]| |t v []|t| | |[]|]; try done;
    apply try_some in Hs as ([[r' resp] b]&Hh%handleRPC_queue&Hs); cbn [fst snd] in Hs;
    repeat case_match; injection Hs as <-; try done; (etransitivity; [apply fail_all_queue|exact Hh]).
Qed.

(** What a step does to the two channels. *)
Inductive channel_step p (k : label) p' : Prop :=
| cs_same : same_queue (node p) (node p') -> channel_step p k p'
| cs_receive (req : applyRequest) : applyCh (node p) = req :: applyCh (node p') ->
    shutdownCh (node p') = shutdownCh (node p) -> channel_step p k p'
| cs_send (req : applyRequest) (c : submit_choice) : k = LSubmit (req_data req) c ->
    applyCh (node p') = applyCh (node p) ++ [req] -> shutdownCh (node p') = shutdownCh (node p) ->
    channel_step p k p'
| cs_close : k = LShutdown -> applyCh (node p') = applyCh (node p) -> channel_step p k p'.

Lemma Apply_channels p data c : channel_step p (LSubmit data c) (with_node p (fst (Apply (node p) data c))).
Proof.
  assert (forall f err m, channel_step p (LSubmit data c)
    (with_node p (resolve f err None (set_futures m (node p))))) as Hr.
  { intros f err m. apply cs_same. exact (resolve_queue _ _ _ (set_futures m (node p))). }
  unfold Apply. destruct (negb _); [apply Hr|]. destruct c; cbn [fst]; [|apply Hr..].
  by eapply (cs_send p _ _ (mkApplyRequest data _)).
Qed.

Lemma step_channels p k p' : step p k = Some p' -> channel_step p k p'.
Proof.
  intros Hs. destruct k as [|cmd| |resp| |id|id resp|id|k|k resp| | |data c|f|f|]; simpl in Hs.
  - by apply cs_same, main_queue.
  - by eapply cs_same, command_queue.
  - unfold timer_step in Hs. destruct (pc p) as [|[]| |t v []|t| | |[]|]; try done;
      injection Hs as <-; by apply cs_same.
  - unfold vote_step in Hs. destruct (pc p) as [|[]| |t v []|t| | |[]|]; try done.
    destruct (currentTerm (node p) <? rvr_Term resp).
    { apply try_some in Hs as (r'&Hr%stepDown_queue&[= <-]). by apply cs_same. }
    destruct (rvr_VoteGranted resp); [destruct (_ <=? _)|]; injection Hs as <-; by apply cs_same.
  - unfold request_step in Hs. destruct (pc p) as [|[]| |t v []|t| | |[]|]; try done.
    destruct (applyCh (node p)) as [|req0 rest] eqn:Ec; [done|].
    apply try_some in Hs as (r'&E%handleApplyRequest_queue&[= <-]). injection E as E1 E2.
    apply (cs_receive p _ _ req0); [by rewrite Ec; cbn; rewrite E1|done].
  - unfold send_step in Hs. destruct (peers (node p) !! id) as [q|], (inflight p !! id); try done.
    apply try_some in Hs as ([req|]&_&Hs); [|done]. injection Hs as <-. by apply cs_same.
  - unfold response_step in Hs. destruct (inflight p !! id) as [es|]; [|done].
    apply try_some in Hs as (r'&Hr%process_queue&[= <-]). by apply cs_same.
  - injection Hs as <-. by apply cs_same.
  - unfold stale_send in Hs. destruct (stale p !! k) as [[q [es|]]|]; try done.
    apply try_some in Hs as ([req|]&_&Hs); [|done]. injection Hs as <-. by apply cs_same.
  - unfold stale_response in Hs. destruct (stale p !! k) as [[q [es|]]|]; try done.
    destruct (_ <? _); [apply try_some in Hs as (r'&Hr%stepDown_queue&[= <-]); by apply cs_same|].
    destruct (aer_Success resp); [apply try_some in Hs as (r'&Hr%advance_queue&[= <-]); by apply cs_same|].
    apply try_some in Hs as (next&_&[= <-]). by apply cs_same.
  - unfold apply_wake in Hs. destruct (applying p), (commitNotifyCh (node p)); try done.
    injection Hs as <-. by apply cs_same.
  - unfold apply_next in Hs. destruct (applying p) as [[idx c]|]; [|done]. destruct (idx <=? c).
    + apply try_some in Hs as (r'&Hr%apply_one_queue&[= <-]). by apply cs_same.
    + injection Hs as <-. by apply cs_same.
  - destruct (choice_ready (node p) c); [|done]. injection Hs as <-. apply Apply_channels.
  - injection Hs as <-. apply cs_same, resolve_queue.
  - apply wait_step_spec in Hs as [m ->]. by apply cs_same.
  - injection Hs as <-. apply cs_close; [done|]. cbn. unfold Shutdown. destruct (shutdownCh (node p)); [done|].
    pose proof (fail_all_queue (set_state Follower (set_shutdownCh true (node p))) ErrShutdown) as E.
    by injection E.
Qed.

(** A step adds nothing to the queue but what a client submits. *)
Lemma step_queue p k p' : step p k = Some p' ->
  forall req, req ∈ applyCh (node p') -> req ∈ applyCh (node p) \/ exists c, k = LSubmit (req_data req) c.
Proof.
  intros [E|req0 E _|req0 c -> E _|_ E]%step_channels req Hin.
  1: injection E as E _. all: rewrite E in *; try by left.
  - left. by right.
  - apply elem_of_app in Hin as [Hin|Hin%list_elem_of_singleton]; [by left|subst req; right; by eexists].
Qed.

(** Only [Shutdown] closes the channel that it closes. *)
Lemma step_shutdown p k p' : step p k = Some p' -> k <> LShutdown ->
  shutdownCh (node p') = shutdownCh (node p).
Proof. intros [E|req _ E|req c _ _ E| -> _]%step_channels Hk; try done. by injection E. Qed.

End queue.

(** * The cluster *)

(** An entry has no data, or data of which [Q] holds. *)
Definition good (Q : text -> Prop) (e : LogEntry) : Prop := Data e = [] \/ Q (Data e).

Definition sourced (Q : text -> Prop) (Hi : history) : Prop :=
  forall T h, Hi !! T = Some h -> Forall (good Q) h.

Lemma tracked_good Q Hi l : sourced Q Hi -> tracked Hi l -> Forall (good Q) l.
Proof.
  intros Hs Ht. apply Forall_lookup. intros i e He. destruct (Ht i e He) as (h&Hh&Eq).
  apply (Forall_lookup_1 _ h i); [by eapply Hs|]. rewrite <-(lookup_take_lt h (i + 1)), <-Eq by lia.
  by rewrite lookup_take_lt by lia.
Qed.

(** The clients of every server submit only data of which [Q] holds. *)
Definition submits (Q : text -> Prop) (l : nlabel) : Prop :=
  match l with NStep _ (LSubmit data _) => Q data | _ => True end.

Section cluster.
  Context {L Sb F R : Type} `{LogStoreSpec L} `{StableStoreSpec Sb} `{FSM F R}.
  Context (P : list PeerConfig).
  Context (ids_distinct : NoDup (PeerID <$> P)).
  Context (addrs_distinct : NoDup (Address <$> P)).
  Context (Q : text -> Prop).
  Implicit Types n : network L Sb F R.

Definition queued n : Prop := forall a p req, procs n !! a = Some p -> req ∈ applyCh (node p) -> Q (req_data req).

Lemma wrote_sourced n G B Hi' :
  safe_net P n G B -> B < max_uint -> queued n -> wrote n (hist G) Hi' -> sourced Q (hist G) -> sourced Q Hi'.
Proof.
  intros Hn HB Hq [->|(a&p&k&p'&Ha&Hw)] Hs; [done|].
  destruct (lk_procs _ _ _ (sn_logs _ _ _ _ Hn) a p Ha) as [(lg&Hr&Ht&Hz&_) _ _ _].
  destruct Hw as [_ _|t l _ _ _ Hrl Ht0|l data Hk _ Hl _ _ _ Hd|req _]; try done.
  - intros T h [[_ <-]|[_ Hh]]%lookup_insert_Some; [|by eapply Hs]. apply (tracked_good Q (hist G)); [done|].
    assert (l = lg) as ->; [|done]. symmetry. eapply repr_unique; [|done..]. lia.
  - intros T h [[_ <-]|[_ Hh]]%lookup_insert_Some; [|by eapply Hs]. apply Forall_app. split; [by eapply Hs|].
    constructor; [|done]. unfold good. cbn. destruct Hk as [[-> _]| ->]; [by left|right].
    destruct Hd as (req&rest&E&->). apply (Hq a p req Ha). rewrite E. by left.
Qed.

Lemma prompted_submit n l a p data c : prompted n l a p (LSubmit data c) -> l = NStep a (LSubmit data c).
Proof.
  intros Hp. remember (LSubmit data c) as k eqn:E. destruct Hp as [k Ho El|resp|req'|v Hv Ha Hne|i k v resp]; try done.
  by destruct k.
Qed.

Lemma queued_step n l n' : nstep n l = Some n' -> submits Q l -> queued n -> queued n'.
Proof.
  intros Hs Hl Hq. destruct (nstep_moves n l n' Hs) as [Ep _ _ _|a p k p' Hmv|a p s p' [_ Ha Hr Ep _ _ _]].
  - intros b q req Hb. apply Hq with b. by rewrite <-Ep.
  - destruct Hmv as [Ha Hst Ep _ Hpr _ _]. intros b q req Hb Hin. rewrite Ep in Hb.
    apply lookup_insert_Some in Hb as [[<- <-]|[_ Hb]]; [|by eapply Hq].
    destruct (step_queue p k p' Hst req Hin) as [Hold|(c&->)]; [by eapply Hq|].
    apply prompted_submit in Hpr as ->. exact Hl.
  - intros b q req Hb Hin. rewrite Ep in Hb. apply lookup_insert_Some in Hb as [[<- <-]|[_ Hb]]; [|by eapply Hq].
    destruct (rs_clients _ _ _ Hr) as (_&E&_). rewrite E in Hin. by apply elem_of_nil in Hin.
Qed.

Lemma entries_run ls : forall n n' G B,
  safe_net P n G B -> queued n -> sourced Q (hist G) -> Forall (submits Q) ls ->
  led_run n ls -> nsteps n ls = Some n' -> 0 <= B -> B + zlen ls < 2 ^ 62 ->
  exists G', safe_net P n' G' (B + zlen ls) /\ queued n' /\ sourced Q (hist G').
Proof.
  induction ls as [|l ls IH]; intros n n' G B Hn Hq Hso Hsub Hl Hs HB0 HB; cbn in Hl, Hs.
  { injection Hs as <-. exists G. by rewrite zlen_nil, Z.add_0_r. }
  destruct Hl as [[Ho Ht] Hl]. destruct (nstep n l) as [n1|] eqn:E; [|done]. rewrite zlen_cons in *. zlen_facts.
  apply Forall_cons in Hsub as [Hsl Hsub].
  destruct (safe_step P ids_distinct addrs_distinct n l n1 G B) as (G1&Hn1&_&Hw); try done; [unfold max_uint; lia|].
  replace (B + (1 + zlen ls)) with (B + 1 + zlen ls) by lia.
  apply (IH n1 n' G1 (B + 1)); try done; [by eapply queued_step|eapply (wrote_sourced n G B); try done; unfold max_uint; lia|lia..].
Qed.

End cluster.

(** No server has a client yet. *)
Definition no_clients {L Sb F R} (nodes : gmap text (RaftNode L Sb F R)) : Prop :=
  forall a r, nodes !! a = Some r -> applyCh r = [].

Lemma boot_queued {L Sb F R} (Q : text -> Prop) (nodes : gmap text (RaftNode L Sb F R)) :
  no_clients nodes -> queued Q (boot nodes).
Proof.
  intros Hno b q req Hb Hin. cbn in Hb. rewrite lookup_fmap in Hb. destruct (nodes !! b) as [r|] eqn:E; [|done].
  injection Hb as <-. cbn in Hin. rewrite (Hno b r E) in Hin. by apply elem_of_nil in Hin.
Qed.

Lemma cluster_entries {L Sb F R} `{LogStoreSpec L} `{StableStoreSpec Sb} `{FSM F R} (Q : text -> Prop)
    (P : list PeerConfig) (nodes : gmap text (RaftNode L Sb F R)) ls n a p l :
  cluster P nodes -> fresh_servers nodes -> uncommitted nodes -> no_clients nodes ->
  Forall (submits Q) ls -> zlen ls < 2 ^ 62 -> led_run (boot nodes) ls -> nsteps (boot nodes) ls = Some n ->
  procs n !! a = Some p -> repr (logStore (node p)) l -> Forall (good Q) l /\ zlen l <= zlen ls.
Proof.
  intros Hc Hf Hu Hno Hsub Hz Hl Hs Ha Hr.
  destruct (entries_run P (cl_ids _ _ Hc) (cl_addrs _ _ Hc) Q ls (boot nodes) n (mkGhost ∅ ∅ ∅) 0)
    as (G&Hn&_&Hso); [by apply boot_safe|by apply boot_queued| |done..|].
  - intros T h Hh. cbn in Hh. by rewrite lookup_empty in Hh.
  - destruct (lk_procs _ _ _ (sn_logs _ _ _ _ Hn) a p Ha) as [(lg&Hrl&Ht&Hz'&_) _ _ _].
    assert (l = lg) as ->; [|split; [by eapply tracked_good|lia]].
    symmetry. eapply repr_unique; [|done..]. unfold max_uint in *. lia.
Qed.

(** * Properties *)

(** C8: nothing is in a log but what a client has submitted. In every run of a cluster as
    for state machine safety, whichever terms an entry has been copied through, an entry in
    the log of any server is a no-op, without data, or its data was submitted by a client
    of one of the servers, in this run. *)
Theorem entries_are_submitted {L Sb F R} `{LogStoreSpec L} `{StableStoreSpec Sb} `{FSM F R}
    (P : list PeerConfig) (nodes : gmap text (RaftNode L Sb F R)) ls n a p i e :
  cluster P nodes -> fresh_servers nodes -> uncommitted nodes -> no_clients nodes ->
  zlen ls < 2 ^ 62 -> led_run (boot nodes) ls -> nsteps (boot nodes) ls = Some n ->
  procs n !! a = Some p -> 1 <= i <= max_uint -> GetLog (logStore (node p)) i = Got e ->
  Data e = [] \/ exists b c, NStep b (LSubmit (Data e) c) ∈ ls.
Proof.
  intros Hc Hf Hu Hno Hz Hl Hs Ha Hi Hg. set (Q := fun data => exists b c, NStep b (LSubmit data c) ∈ ls).
  assert (Forall (submits Q) ls) as Hsub.
  { apply Forall_forall. intros l Hin. destruct l as [b [] | | | | | | |]; try done. cbn. by eexists _, _. }
  destruct (cluster_safe P nodes ls [] n n) as (G&_&B&HB&Hn&_); try done; [by rewrite app_nil_r..|].
  destruct (lk_procs _ _ _ (sn_logs _ _ _ _ Hn) a p Ha) as [(l&Hr&_&Hzl&_) _ _ _].
  destruct (cluster_entries Q P nodes ls n a p l) as [Hgood _]; try done.
  apply (GetLog_log _ l) in Hg; [|done|unfold max_uint; lia|done].
  exact (Forall_lookup_1 _ _ _ _ Hgood Hg).
Qed.

#[local] Existing Instance unit_replica.

Lemma demo_no_clients : no_clients demo_nodes.
Proof.
  intros a r Hr. unfold demo_nodes in Hr.
  repeat (apply lookup_insert_Some in Hr as [[_ <-]|[_ Hr]]; [done|]). by apply lookup_singleton_Some in Hr as [_ <-].
Qed.

(** The command in n3's log, after a crash. *)
Lemma entries_are_submitted_witness :
  exists e, GetLog (logStore (node (committed_proc demo_told "h3"))) 2 = Got e /\ Data e = bytes_of "x" /\
    (Data e = [] \/ exists b c, NStep b (LSubmit (Data e) c) ∈ demo_replicate ++ demo_tell).
Proof.
  assert (GetLog (logStore (node (committed_proc demo_told "h3"))) 2 = Got (mkLog 2 1 (bytes_of "x"))) as Hg
    by (vm_compute; reflexivity).
  eexists. split; [exact Hg|]. split; [reflexivity|].
  apply (entries_are_submitted demo_peers demo_nodes (demo_replicate ++ demo_tell) demo_told (bytes_of "h3")
    (committed_proc demo_told "h3") 2); [exact demo_cluster|exact demo_fresh|exact demo_uncommitted
    |exact demo_no_clients|by_compute|exact demo_led| | |by_compute|exact Hg].
  - rewrite nsteps_app, demo_end_run. apply default_eq. vm_compute. reflexivity.
  - apply default_eq. vm_compute. reflexivity.
Defined.
