(* ===== verification/Single.v ===== *)
(** A cluster of one server ([runCandidate], [runLeader] of [internal/raft/raft.go]
    and [advanceCommitIndex] of [internal/raft/replication.go]): it elects itself, and
    what it then appends is never committed. *)
From S2P Require Import Prelude Stores Future Config Node Election Replication Rpc Leader Machine Frame.

Section commits.
  Context {L Sb F R : Type} `{LogStore L} `{StableStoreSpec Sb} `{FSM F R}.
  Implicit Types r : RaftNode L Sb F R.
  Implicit Types p : proc L Sb F R.

Lemma trigger_no_peers r : peers r = ∅ -> peers (triggerReplication r) = ∅.
Proof. unfold triggerReplication. cbn. intros ->. apply fmap_empty. Qed.

Lemma appendNoOp_commits r r' :
  peers r = ∅ -> appendNoOp r = Ret r' -> commits r' = commits r /\ peers r' = ∅.
Proof.
  intros Hp. unfold appendNoOp, or_log.
  destruct (StoreLog (logStore r) (next_entry r [])); intros Hx; try done; injection Hx as <-; [|done].
  split; [done|by apply trigger_no_peers].
Qed.

Lemma handleApplyRequest_commits r req r' :
  peers r = ∅ -> handleApplyRequest r req = Ret r' -> commits r' = commits r /\ peers r' = ∅.
Proof.
  intros Hp. unfold handleApplyRequest. destruct (negb _).
  { intros [= <-]. rewrite <-Hp. by destruct (resolve_kept (req_future req) (Some ErrNotLeader) None r). }
  destruct (StoreLog _ _); intros Hx; try done; injection Hx as <-.
  - split; [done|by apply trigger_no_peers].
  - rewrite <-Hp. by destruct (resolve_kept (req_future req) (Some (ErrStoreLog e)) None r).
Qed.

(** * Alone *)

Definition alone r : Prop := exists a, Peers (config r) = [mkPeer (ServerID (config r)) a].

Lemma initLeader_alone r : alone r -> peers (initLeader r) = ∅.
Proof.
  intros [a Ha]. unfold initLeader. cbn [peers set_peers]. rewrite Ha. cbn [foldl PeerID].
  by rewrite bool_decide_true.
Qed.

(** Nobody to replicate to, nothing in flight, and what [r0] had committed. *)
Record lonely (r0 : RaftNode L Sb F R) p : Prop := mk_lonely {
  lo_alone : alone (node p);
  lo_commits : commits (node p) = commits r0;
  lo_peers : peers (node p) = ∅;
  lo_inflight : inflight p = ∅;
  lo_stale : stale p = [];
  lo_applying : applying p = None
}.

Definition no_append (l : label) : Prop :=
  match l with LCommand (CAppendEntries _) => False | _ => True end.

Lemma lonely_node r0 p r k w :
  lonely r0 p -> commits r = commits (node p) -> peers r = ∅ ->
  lonely r0 (mkProc r k (inflight p) (stale p) (applying p) w).
Proof.
  intros [Ha Hc Hp Hi Hs Hl] Er Ep. split; cbn; try done; [|congruence].
  unfold alone. by replace (config r) with (config (node p)) by (injection Er; congruence).
Qed.

Lemma lonely_goto r0 p r k w :
  lonely r0 p -> kept (node p) r ->
  lonely r0 (mkProc r k (inflight p) (stale p) (applying p) w).
Proof. intros Hl [E1 _ E2]. apply lonely_node; [done|done|]. rewrite E2. by apply Hl. Qed.

Lemma main_step_lonely r0 p p' : lonely r0 p -> main_step p = Some p' -> lonely r0 p'.
Proof.
  intros Hl Hs. unfold main_step in Hs. destruct (pc p) as [|[]| |t v []|t| | |[]|].
  - destruct (shutdownCh (node p)); [simplify_eq; by apply lonely_goto|].
    destruct (state (node p)); simplify_eq; by apply lonely_goto.
  - destruct (shutdownCh (node p)); [|done]. simplify_eq. by apply lonely_goto.
  - simplify_eq. by apply lonely_goto.
  - apply try_some in Hs as ([[r' req] addrs]&He%startElection_kept&Hs). cbn [fst] in Hs.
    destruct (quorum r' <=? 1); simplify_eq; by apply lonely_goto.
  - destruct (shutdownCh (node p)); [|done]. simplify_eq. by apply lonely_goto.
  - simplify_eq. by apply lonely_goto.
  - simplify_eq. apply lonely_goto; [done|apply becomeLeader_kept].
  - simplify_eq. destruct Hl as [Ha Hc Hp Hi Ht Hl]. split; cbn; try done.
    + by apply initLeader_alone.
    + unfold retire. by rewrite Hp, map_to_list_empty, Ht.
  - apply try_some in Hs as (r'&[E1 E2]%appendNoOp_commits&[= <-]); [|by apply Hl].
    by apply lonely_node.
  - destruct (shutdownCh (node p)); [|done]. simplify_eq.
    apply lonely_goto; [done|apply fail_all_kept].
  - case_bool_decide; simplify_eq; apply lonely_goto; try done. apply fail_all_kept.
  - done.
Qed.

Lemma command_step_lonely r0 p cmd p' :
  (forall req, cmd <> CAppendEntries req) -> lonely r0 p -> command_step p cmd = Some p' ->
  lonely r0 p'.
Proof.
  intros Hn Hl Hs. unfold command_step in Hs. destruct (pc p) as [|[]| |t v []|t| | |[]|]; try done;
    apply try_some in Hs as ([[r' resp] b]&Hh&Hs); cbn [fst snd] in Hs;
    apply (handleRPC_kept _ _ _ _ _ Hn) in Hh.
  - simplify_eq. by apply lonely_goto.
  - destruct (b && _); simplify_eq; by apply lonely_goto.
  - destruct (negb _); simplify_eq; apply lonely_goto; try done.
    eapply kept_trans; [done|apply fail_all_kept].
Qed.

Lemma step_lonely r0 p l p' :
  commitNotifyCh r0 = false -> no_append l -> lonely r0 p -> step p l = Some p' -> lonely r0 p'.
Proof.
  intros Hf Hn Hl Hs. pose proof Hl as [Ha Hc Hp Hi Ht Hlo].
  destruct l as [|cmd| |resp| |id|id resp|id|k|k resp| | |data c|f|f|]; simpl in Hs.
  - by eapply main_step_lonely.
  - eapply command_step_lonely; [|done..]. intros req ->. done.
  - unfold timer_step in Hs. destruct (pc p) as [|[]| |t v []|t| | |[]|]; try done;
      simplify_eq; by apply lonely_goto.
  - unfold vote_step in Hs. destruct (pc p) as [|[]| |t v []|t| | |[]|]; try done.
    destruct (currentTerm (node p) <? rvr_Term resp).
    { apply try_some in Hs as (r'&Hr%stepDown_kept&[= <-]). by apply lonely_goto. }
    destruct (rvr_VoteGranted resp); [destruct (_ <=? _)|]; simplify_eq; by apply lonely_goto.
  - unfold request_step in Hs. destruct (pc p) as [|[]| |t v []|t| | |[]|]; try done.
    destruct (applyCh (node p)) as [|req rest]; [done|].
    apply try_some in Hs as (r'&[E1 E2]%handleApplyRequest_commits&[= <-]); [|done].
    by apply lonely_node.
  - unfold send_step in Hs. by rewrite Hp in Hs.
  - unfold response_step in Hs. by rewrite Hi in Hs.
  - injection Hs as <-. split; cbn; try done. rewrite Hi. apply delete_empty.
  - unfold stale_send in Hs. by rewrite Ht in Hs.
  - unfold stale_response in Hs. by rewrite Ht in Hs.
  - unfold apply_wake in Hs. rewrite Hlo in Hs. injection Hc as _ _ _ Hc _.
    by rewrite Hc, Hf in Hs.
  - unfold apply_next in Hs. by rewrite Hlo in Hs.
  - destruct (choice_ready (node p) c); [|done]. simplify_eq.
    apply lonely_goto; [done|apply Apply_kept].
  - simplify_eq. apply lonely_goto; [done|apply resolve_kept].
  - apply wait_step_spec in Hs as [m ->]. by apply lonely_goto.
  - simplify_eq. apply lonely_goto; [done|apply Shutdown_kept].
Qed.

Lemma steps_lonely r0 ls : forall p p',
  commitNotifyCh r0 = false -> Forall no_append ls -> lonely r0 p -> steps p ls = Some p' ->
  lonely r0 p'.
Proof.
  induction ls as [|l ls IH]; intros p p' Hf Hn Hl Hs; simpl in Hs; [by simplify_eq|].
  inversion Hn as [|?? Hn1 Hn2]; subst. destruct (step p l) as [p1|] eqn:E; [|done].
  apply (IH p1); [done|done|by eapply step_lonely|done].
Qed.

End commits.

(** C37: a cluster of one server never commits. Only [replicateOnce] calls
    [advanceCommitIndex], and it runs once per other server, so whatever the timers,
    the clients and the goroutines do, and although the server elects itself, its
    commit index, the last index applied and the state machine stay as they were. *)
Theorem single_node_never_commits {L Sb F R} `{LogStore L} `{StableStoreSpec Sb} `{FSM F R}
    (r : RaftNode L Sb F R) ls p :
  alone r -> peers r = ∅ -> commitNotifyCh r = false -> Forall no_append ls ->
  steps (start r) ls = Some p ->
  commitIndex (node p) = commitIndex r /\ lastApplied (node p) = lastApplied r /\
  fsm (node p) = fsm r.
Proof.
  intros Ha Hp Hc Hn Hs.
  assert (lonely r p) as [_ E _ _ _ _] by (by apply (steps_lonely r ls (start r))).
  injection E. auto.
Qed.

#[local] Instance unit_fsm : FSM unit unit := { fsm_Apply f _ := Ret (f, None) }.

(** The server elects itself, and appends its no-op entry and a client's. *)
Definition demo_alone : RaftNode InmemLogStore InmemStableStore unit unit :=
  mkNode
    (mkConfig (bytes_of "n1") [mkPeer (bytes_of "n1") (bytes_of "h1")] (150 * Millisecond)
      (1000 * Millisecond) (2000 * Millisecond) (Some NewInmemLogStore)
      (Some (∅ : InmemStableStore)) (Some tt))
    0 [] NewInmemLogStore ∅ Follower 0 0 ∅ [] [] tt ∅ ∅ [] false false.

Definition demo_alone_trace : list label :=
  [LMain; LMain; LTimer; LMain; LMain; LMain; LMain; LMain; LMain; LMain;
   LSubmit (bytes_of "x") Enqueued; LRequest; LMain].

Definition demo_alone_end : proc InmemLogStore InmemStableStore unit unit :=
  default (start demo_alone) (steps (start demo_alone) demo_alone_trace).

Lemma single_node_never_commits_witness :
  (state (node demo_alone_end) = Leader /\ fst (LastIndex (logStore (node demo_alone_end))) = 2) /\
  commitIndex (node demo_alone_end) = 0 /\ lastApplied (node demo_alone_end) = 0 /\
  fsm (node demo_alone_end) = tt.
Proof.
  split; [split; vm_compute; reflexivity|].
  apply (single_node_never_commits demo_alone demo_alone_trace);
    [by eexists|reflexivity|reflexivity|repeat constructor|].
  apply default_eq. vm_compute. reflexivity.
Defined.
