(* ===== verification/Json.v ===== *)
(** Go's [encoding/json]: the values, [json.Marshal]'s text and the parser behind
    [json.Unmarshal], with [encoding/base64] for byte slices. The log entries, the
    messages between servers and the messages of the clients are sent as such texts;
    [Codec] says how each Go type maps to a value. *)
From S2P Require Import Prelude Utf8.

Local Open Scope byte_scope.
Local Open Scope Z_scope.

(** * Values

    A number is the text of its literal; a string is its decoded bytes; an object
    keeps its members in order, with duplicates. *)
Inductive json : Type :=
| JNull
| JBool (b : bool)
| JNumber (lit : text)
| JString (s : text)
| JArray (vs : list json)
| JObject (ms : list (text * json)).

Definition dquote : byte := x22.
Definition backslash : byte := x5c.

(** * Marshal

    [htmlSafeSet]: the ASCII bytes that are written as they are. *)
Definition html_safe (b : byte) : bool :=
  (32 <=? byte_val b) &&
  negb (Byte.eqb b dquote || Byte.eqb b "&" || Byte.eqb b "<" || Byte.eqb b ">" || Byte.eqb b backslash).

Definition hex_digit (d : Z) : byte := byte_of_Z (if d <? 10 then 48 + d else 87 + d).

(** The escape of an ASCII byte that is not safe. *)
Definition escape (b : byte) : text :=
  if Byte.eqb b backslash || Byte.eqb b dquote then [backslash; b]
  else if byte_val b =? 8 then [backslash; "b"]
  else if byte_val b =? 12 then [backslash; "f"]
  else if byte_val b =? 10 then [backslash; "n"]
  else if byte_val b =? 13 then [backslash; "r"]
  else if byte_val b =? 9 then [backslash; "t"]
  else [backslash; "u"; "0"; "0"; hex_digit (byte_val b / 16); hex_digit (byte_val b mod 16)].

(** [appendString] between the quotes: one rune at a time, an invalid byte as an
    escaped U+FFFD. *)
Definition quote_rune (s : text) (b : byte) : text * nat :=
  if byte_val b <? 0x80 then (if html_safe b then [b] else escape b, 1%nat)
  else
    let '(r, w) := decode_rune s in
    (if (r =? rune_error) && (w =? 1)%nat then backslash :: ["u"; "f"; "f"; "f"; "d"]
     else if (r =? 0x2028) || (r =? 0x2029)
     then backslash :: ["u"; "2"; "0"; "2"; hex_digit (r mod 16)]
     else take w s, w).

Fixpoint quote_loop (fuel : nat) (s : text) : text :=
  match fuel, s with
  | S fuel', b :: _ =>
      let '(out, w) := quote_rune s b in out ++ quote_loop fuel' (drop w s)
  | _, _ => []
  end.
Definition quote (s : text) : text := dquote :: quote_loop (length s) s ++ [dquote].

(** The values of an array, or the members of an object, separated by commas. *)
Definition commas (ts : list text) : text :=
  match ts with
  | [] => []
  | t :: ts' => t ++ concat (map (fun t => "," :: t) ts')
  end.

Fixpoint render (v : json) : text :=
  match v with
  | JNull => ["n"; "u"; "l"; "l"]
  | JBool true => ["t"; "r"; "u"; "e"]
  | JBool false => ["f"; "a"; "l"; "s"; "e"]
  | JNumber lit => lit
  | JString s => quote s
  | JArray vs => "[" :: commas (map render vs) ++ ["]"]
  | JObject ms => "{" :: commas (map (fun m => quote (fst m) ++ ":" :: render (snd m)) ms) ++ ["}"]
  end.

(** * Parse *)

Definition is_space (b : byte) : bool :=
  Byte.eqb b " " || Byte.eqb b x09 || Byte.eqb b x0a || Byte.eqb b x0d.

Fixpoint skip_ws (s : text) : text :=
  match s with
  | b :: s' => if is_space b then skip_ws s' else s
  | [] => []
  end.

Definition is_digit (b : byte) : bool := (48 <=? byte_val b) && (byte_val b <=? 57).

Fixpoint digits (s : text) : text * text :=
  match s with
  | b :: s' => if is_digit b then let '(ds, r) := digits s' in (b :: ds, r) else ([], s)
  | [] => ([], [])
  end.

(** One or more digits. *)
Definition digits1 (s : text) : option (text * text) :=
  match digits s with ([], _) => None | p => Some p end.

(** The integer part: a lone zero, or digits that do not start with one. *)
Definition int_part (s : text) : option (text * text) :=
  match s with
  | b :: s' => if Byte.eqb b "0" then Some ([b], s') else digits1 s
  | [] => None
  end.

Definition frac_part (s : text) : option (text * text) :=
  match s with
  | b :: s' =>
      if Byte.eqb b "." then '(ds, r) ← digits1 s'; Some (b :: ds, r) else Some ([], s)
  | [] => Some ([], [])
  end.

Definition sign_part (s : text) : text * text :=
  match s with
  | b :: s' => if Byte.eqb b "+" || Byte.eqb b "-" then ([b], s') else ([], s)
  | [] => ([], [])
  end.

Definition exp_part (s : text) : option (text * text) :=
  match s with
  | b :: s' =>
      if Byte.eqb b "e" || Byte.eqb b "E" then
        let '(sg, s2) := sign_part s' in
        '(ds, r) ← digits1 s2; Some (b :: sg ++ ds, r)
      else Some ([], s)
  | [] => Some ([], [])
  end.

Definition minus_part (s : text) : text * text :=
  match s with
  | b :: s' => if Byte.eqb b "-" then ([b], s') else ([], s)
  | [] => ([], [])
  end.

Definition number (s : text) : option (text * text) :=
  let '(m, s1) := minus_part s in
  '(i, s2) ← int_part s1;
  '(f, s3) ← frac_part s2;
  '(e, s4) ← exp_part s3;
  Some (m ++ i ++ f ++ e, s4).

(** ** Strings *)

Definition hex_val (b : byte) : option Z :=
  let v := byte_val b in
  if (48 <=? v) && (v <=? 57) then Some (v - 48)
  else if (97 <=? v) && (v <=? 102) then Some (v - 87)
  else if (65 <=? v) && (v <=? 70) then Some (v - 55)
  else None.

(** [getu4], after the backslash and the [u]. *)
Definition getu4 (s : text) : option (Z * text) :=
  match s with
  | a :: b :: c :: d :: r =>
      a ← hex_val a; b ← hex_val b; c ← hex_val c; d ← hex_val d;
      Some (a * 4096 + b * 256 + c * 16 + d, r)
  | _ => None
  end.

(** The second half of a surrogate pair, if there is one. *)
Definition low_surrogate (hi : Z) (s : text) : option (rune * text) :=
  match s with
  | a :: b :: s' =>
      if Byte.eqb a backslash && Byte.eqb b "u" then
        '(lo, r) ← getu4 s';
        if (0xD800 <=? hi) && (hi <? 0xDC00) && (0xDC00 <=? lo) && (lo <? 0xE000)
        then Some ((hi - 0xD800) * 1024 + (lo - 0xDC00) + 0x10000, r) else None
      else None
  | _ => None
  end.

(** The rune of an escape, after the backslash, and the rest. *)
Definition unescape (s : text) : option (rune * text) :=
  match s with
  | [] => None
  | c :: s' =>
      if Byte.eqb c dquote || Byte.eqb c backslash || Byte.eqb c "/" then Some (byte_val c, s')
      else if Byte.eqb c "b" then Some (8, s')
      else if Byte.eqb c "f" then Some (12, s')
      else if Byte.eqb c "n" then Some (10, s')
      else if Byte.eqb c "r" then Some (13, s')
      else if Byte.eqb c "t" then Some (9, s')
      else if Byte.eqb c "u" then
        '(u, r) ← getu4 s';
        if (0xD800 <=? u) && (u <? 0xE000) then
          match low_surrogate u r with Some p => Some p | None => Some (rune_error, r) end
        else Some (u, r)
      else None
  end.

(** [unquote], after the opening quote: every turn takes at least a byte. *)
Fixpoint unquote (fuel : nat) (s : text) : option (text * text) :=
  match fuel, s with
  | S fuel', b :: s' =>
      if Byte.eqb b dquote then Some ([], s')
      else if Byte.eqb b backslash then
        '(r, s2) ← unescape s';
        '(t, s3) ← unquote fuel' s2;
        Some (encode_rune r ++ t, s3)
      else if byte_val b <? 32 then None
      else
        let '(r, w) := decode_rune s in
        '(t, s3) ← unquote fuel' (drop w s);
        Some (encode_rune r ++ t, s3)
  | _, _ => None
  end.

(** ** Values *)

Fixpoint literal (w s : text) : option text :=
  match w, s with
  | [], _ => Some s
  | x :: w', y :: s' => if Byte.eqb x y then literal w' s' else None
  | _, [] => None
  end.

Section loops.
  Context (val : text -> option (json * text)).

(** After the opening bracket or a comma. *)
Fixpoint elements (fuel : nat) (s : text) : option (list json * text) :=
  match fuel with
  | O => None
  | S fuel' =>
      '(v, s1) ← val s;
      match skip_ws s1 with
      | b :: s2 =>
          if Byte.eqb b "," then '(vs, s3) ← elements fuel' s2; Some (v :: vs, s3)
          else if Byte.eqb b "]" then Some ([v], s2) else None
      | [] => None
      end
  end.

Definition key_colon (s : text) : option (text * text) :=
  match skip_ws s with
  | b :: s1 =>
      if Byte.eqb b dquote then
        '(k, s2) ← unquote (length s1) s1;
        match skip_ws s2 with
        | b :: s3 => if Byte.eqb b ":" then Some (k, s3) else None
        | [] => None
        end
      else None
  | [] => None
  end.

Fixpoint members (fuel : nat) (s : text) : option (list (text * json) * text) :=
  match fuel with
  | O => None
  | S fuel' =>
      '(k, s1) ← key_colon s;
      '(v, s2) ← val s1;
      match skip_ws s2 with
      | b :: s3 =>
          if Byte.eqb b "," then '(ms, s4) ← members fuel' s3; Some ((k, v) :: ms, s4)
          else if Byte.eqb b "}" then Some ([(k, v)], s3) else None
      | [] => None
      end
  end.

Definition array_value (s : text) : option (json * text) :=
  match skip_ws s with
  | b :: s1 =>
      if Byte.eqb b "]" then Some (JArray [], s1)
      else '(vs, s2) ← elements (length s) s; Some (JArray vs, s2)
  | [] => None
  end.

Definition object_value (s : text) : option (json * text) :=
  match skip_ws s with
  | b :: s1 =>
      if Byte.eqb b "}" then Some (JObject [], s1)
      else '(ms, s2) ← members (length s) s; Some (JObject ms, s2)
  | [] => None
  end.

End loops.

(** [depth]: how many arrays and objects may be open. *)
Fixpoint value (depth : nat) (s : text) : option (json * text) :=
  match skip_ws s with
  | [] => None
  | b :: s1 =>
      if Byte.eqb b dquote then '(t, s2) ← unquote (length s1) s1; Some (JString t, s2)
      else if Byte.eqb b "[" then
        match depth with O => None | S d => array_value (value d) s1 end
      else if Byte.eqb b "{" then
        match depth with O => None | S d => object_value (value d) s1 end
      else if Byte.eqb b "n" then r ← literal ["u"; "l"; "l"] s1; Some (JNull, r)
      else if Byte.eqb b "t" then r ← literal ["r"; "u"; "e"] s1; Some (JBool true, r)
      else if Byte.eqb b "f" then r ← literal ["a"; "l"; "s"; "e"] s1; Some (JBool false, r)
      else '(lit, r) ← number (b :: s1); Some (JNumber lit, r)
  end.

(** [maxNestingDepth] of the scanner. *)
Definition max_depth : nat := 10000.

Definition parse (s : text) : option json :=
  '(v, r) ← value max_depth s;
  match skip_ws r with [] => Some v | _ => None end.

(** * Integers

    [strconv.AppendInt]; twenty digits hold any 64-bit integer, and [log2] bounds the
    number of digits of the others. *)
Fixpoint decimal (fuel : nat) (n : Z) : text :=
  match fuel with
  | O => []
  | S fuel' => (if n <? 10 then [] else decimal fuel' (n / 10)) ++ [byte_of_Z (48 + n mod 10)]
  end.
Definition format_uint (n : Z) : text := decimal (S (Z.to_nat (Z.log2 n))) n.
Definition format_int (n : Z) : text :=
  if n <? 0 then "-" :: format_uint (- n) else format_uint n.

(** [strconv.ParseUint] and [ParseInt] in base 10 and 64 bits. *)
Definition parse_digits (s : text) : option Z :=
  if forallb is_digit s && negb (zlen s =? 0)
  then Some (foldl (fun n b => n * 10 + (byte_val b - 48)) 0 s) else None.

Definition parse_uint (s : text) : option Z :=
  n ← parse_digits s; if n <=? max_uint then Some n else None.

Definition parse_int (s : text) : option Z :=
  match sign_part s with
  | (sg, s') =>
      n ← parse_digits s';
      let n := if bool_decide (sg = ["-"]) then - n else n in
      if (- 2 ^ 63 <=? n) && (n <=? max_int) then Some n else None
  end.

(** * Base64 *)

Definition b64_char (i : Z) : byte :=
  byte_of_Z (if i <? 26 then 65 + i else if i <? 52 then 71 + i else if i <? 62 then i - 4
             else if i =? 62 then 43 else 47).

Definition b64_val (b : byte) : option Z :=
  let v := byte_val b in
  if (65 <=? v) && (v <=? 90) then Some (v - 65)
  else if (97 <=? v) && (v <=? 122) then Some (v - 71)
  else if (48 <=? v) && (v <=? 57) then Some (v + 4)
  else if v =? 43 then Some 62 else if v =? 47 then Some 63 else None.

(** [base64.StdEncoding]: [EncodeToString], and [Decode], which skips line ends and
    ignores the bits that are left over before the padding. *)
Fixpoint b64_encode (s : text) : text :=
  match s with
  | a :: b :: c :: s' =>
      let n := byte_val a * 65536 + byte_val b * 256 + byte_val c in
      b64_char (n / 262144) :: b64_char (n / 4096 mod 64) :: b64_char (n / 64 mod 64)
        :: b64_char (n mod 64) :: b64_encode s'
  | [a; b] =>
      let n := byte_val a * 65536 + byte_val b * 256 in
      [b64_char (n / 262144); b64_char (n / 4096 mod 64); b64_char (n / 64 mod 64); "="]
  | [a] =>
      let n := byte_val a * 65536 in
      [b64_char (n / 262144); b64_char (n / 4096 mod 64); "="; "="]
  | [] => []
  end.

Fixpoint b64_quads (s : text) : option text :=
  match s with
  | [] => Some []
  | a :: b :: c :: d :: s' =>
      x ← b64_val a; y ← b64_val b;
      if Byte.eqb c "=" then
        if Byte.eqb d "=" && (zlen s' =? 0) then Some [byte_of_Z ((x * 64 + y) / 16)] else None
      else
        z ← b64_val c;
        let n := (x * 64 + y) * 64 + z in
        if Byte.eqb d "=" then
          if zlen s' =? 0 then Some [byte_of_Z (n / 1024); byte_of_Z (n / 4 mod 256)] else None
        else
          w ← b64_val d;
          let n := n * 64 + w in
          t ← b64_quads s';
          Some (byte_of_Z (n / 65536) :: byte_of_Z (n / 256 mod 256) :: byte_of_Z (n mod 256) :: t)
  | _ => None
  end.

Definition b64_decode (s : text) : option text :=
  b64_quads (List.filter (fun b => negb (Byte.eqb b x0a || Byte.eqb b x0d)) s).
