(* ===== verification/JsonRound.v ===== *)
(** The round trip of [Json]: parsing what [render] writes gives the value back, with
    the invalid bytes of its strings replaced by U+FFFD. *)
From S2P Require Import Prelude Utf8 Json.

Local Open Scope byte_scope.
Local Open Scope Z_scope.

(** * Decimal numbers *)

Definition digit (n : Z) : byte := byte_of_Z (48 + n).

Lemma digit_val n : 0 <= n < 10 -> byte_val (digit n) = 48 + n.
Proof. intros Hn. unfold digit. apply byte_val_of_Z. lia. Qed.

Lemma digit_is_digit n : 0 <= n < 10 -> is_digit (digit n) = true.
Proof.
  intros Hn. unfold is_digit. rewrite digit_val by done.
  by rewrite (proj2 (Z.leb_le _ _)), (proj2 (Z.leb_le _ _)) by lia.
Qed.

Definition dec_step (n : Z) (b : byte) : Z := n * 10 + (byte_val b - 48).

(** The digits of [n], most significant first. *)
Lemma decimal_spec fuel n :
  0 <= n < 10 ^ Z.of_nat fuel -> (0 < fuel)%nat ->
  Forall (fun b => is_digit b = true) (decimal fuel n) /\
  foldl dec_step 0 (decimal fuel n) = n /\
  exists b s, decimal fuel n = b :: s /\ (n <> 0 -> b <> "0") /\ (n = 0 -> s = []).
Proof.
  revert n. induction fuel as [|fuel IH]; intros n Hn Hf; [lia|].
  cbn [decimal]. destruct (Z.ltb_spec n 10) as [Hlt|Hge].
  - rewrite Z.mod_small by lia. fold (digit n). cbn [app]. split_and!.
    + constructor; [apply digit_is_digit; lia|constructor].
    + cbn. unfold dec_step. rewrite digit_val by lia. lia.
    + exists (digit n), []. split_and!; try done. intros Hz Heq.
      apply (f_equal byte_val) in Heq. rewrite digit_val in Heq by lia.
      change (byte_val "0") with 48 in Heq. lia.
  - rewrite Nat2Z.inj_succ, Z.pow_succ_r in Hn by lia.
    destruct fuel as [|fuel]; [change (10 ^ Z.of_nat 0) with 1 in Hn; lia|].
    destruct (IH (n / 10)) as (H1&H2&b&s&H3&H4&_); [|lia|].
    { split; [apply Z.div_pos; lia|]. apply Z.div_lt_upper_bound; lia. }
    fold (digit (n mod 10)). pose proof (Z.mod_pos_bound n 10).
    split_and!.
    + apply Forall_app. split; [done|]. constructor; [apply digit_is_digit; lia|constructor].
    + rewrite foldl_app, H2. cbn. unfold dec_step. rewrite digit_val by lia.
      pose proof (Z.div_mod n 10). lia.
    + exists b, (s ++ [digit (n mod 10)]). rewrite H3. split_and!; [done| |lia].
      intros _. apply H4. pose proof (Z.div_mod n 10). lia.
Qed.

Lemma format_uint_spec n :
  0 <= n ->
  Forall (fun b => is_digit b = true) (format_uint n) /\
  foldl dec_step 0 (format_uint n) = n /\
  exists b s, format_uint n = b :: s /\ (n <> 0 -> b <> "0") /\ (n = 0 -> s = []).
Proof.
  intros Hn. unfold format_uint. apply decimal_spec; [|lia]. split; [done|].
  rewrite Nat2Z.inj_succ, Z2Nat.id by apply Z.log2_nonneg.
  destruct (Z.eq_dec n 0) as [->|Hz]; [done|].
  apply Z.lt_le_trans with (2 ^ Z.succ (Z.log2 n)); [apply Z.log2_spec; lia|].
  apply Z.pow_le_mono_l. lia.
Qed.

Lemma parse_digits_format n : 0 <= n -> parse_digits (format_uint n) = Some n.
Proof.
  intros Hn. destruct (format_uint_spec n Hn) as (H1&H2&b&s&H3&_). unfold parse_digits.
  replace (forallb is_digit (format_uint n)) with true.
  2:{ symmetry. apply forallb_forall. intros x Hx%list_elem_of_In. by eapply Forall_forall in H1. }
  change (fun n b => n * 10 + (byte_val b - 48)) with dec_step. rewrite H2.
  rewrite H3, zlen_cons. destruct (Z.eqb_spec (1 + zlen s) 0); [zl|done].
Qed.

Lemma digit_not b c : is_digit b = true -> byte_val c < 48 \/ 57 < byte_val c -> Byte.eqb b c = false.
Proof.
  intros Hb Hc. destruct (Byte.eqb b c) eqn:E; [|done]. apply Byte.byte_dec_bl in E. subst c.
  unfold is_digit in Hb. apply andb_prop in Hb as [H1%Z.leb_le H2%Z.leb_le]. lia.
Qed.

Lemma parse_uint_format n : 0 <= n <= max_uint -> parse_uint (format_uint n) = Some n.
Proof.
  intros Hn. unfold parse_uint. rewrite parse_digits_format by lia. cbn.
  by rewrite (proj2 (Z.leb_le _ _)) by lia.
Qed.

Lemma parse_int_format n : - 2 ^ 63 <= n <= max_int -> parse_int (format_int n) = Some n.
Proof.
  intros Hn. unfold parse_int, format_int. destruct (Z.ltb_spec n 0) as [Hneg|Hpos].
  - change (sign_part ("-" :: format_uint (- n))) with (["-"], format_uint (- n)).
    cbv beta iota. rewrite parse_digits_format by lia. cbn [mbind option_bind].
    rewrite bool_decide_true, Z.opp_involutive by done. cbv zeta.
    by rewrite (proj2 (Z.leb_le (- 2 ^ 63) n)), (proj2 (Z.leb_le n max_int)) by lia.
  - destruct (format_uint_spec n Hpos) as (H1&_&b&s&H3&_). unfold sign_part.
    pose proof (parse_digits_format n Hpos) as Hp. rewrite H3 in Hp, H1 |- *.
    apply Forall_cons in H1 as [Hb _].
    rewrite (digit_not b "+"), (digit_not b "-") by (done || (right; done) || (left; done)).
    cbn [orb]. rewrite Hp. cbn [mbind option_bind]. rewrite bool_decide_false by done. cbv zeta.
    by rewrite (proj2 (Z.leb_le (- 2 ^ 63) n)), (proj2 (Z.leb_le n max_int)) by lia.
Qed.

(** ** Number literals *)

(** What follows a value in a rendered text. *)
Definition stop (s : text) : Prop :=
  match s with [] => True | b :: _ => b = "," \/ b = "]" \/ b = "}" end.

(** A literal that the parser takes whole, and that starts like a number. *)
Definition good_number (lit : text) : Prop :=
  (exists b s, lit = b :: s /\ (is_digit b = true \/ b = "-")) /\
  forall rest, stop rest -> number (lit ++ rest) = Some (lit, rest).

Lemma digits_app ds rest :
  Forall (fun b => is_digit b = true) ds -> stop rest -> digits (ds ++ rest) = (ds, rest).
Proof.
  intros Hd Hr. induction Hd as [|b ds Hb Hd IH]; cbn.
  - destruct rest as [|b rest]; [done|]. cbn. cbn in Hr.
    by destruct Hr as [->|[->| ->]].
  - by rewrite Hb, IH.
Qed.

Lemma frac_stop rest : stop rest -> frac_part rest = Some ([], rest).
Proof. destruct rest as [|b rest]; [done|]. cbn. by intros [->|[->| ->]]. Qed.

Lemma exp_stop rest : stop rest -> exp_part rest = Some ([], rest).
Proof. destruct rest as [|b rest]; [done|]. cbn. by intros [->|[->| ->]]. Qed.

Lemma int_part_format n rest :
  0 <= n -> stop rest -> int_part (format_uint n ++ rest) = Some (format_uint n, rest).
Proof.
  intros Hn Hr. destruct (format_uint_spec n Hn) as (H1&_&b&s&H3&H4&H5).
  rewrite H3 in *. cbn. destruct (Byte.eqb b "0") eqn:E.
  - apply Byte.byte_dec_bl in E. destruct (Z.eq_dec n 0) as [Hz|Hz]; [|by destruct (H4 Hz)].
    by rewrite (H5 Hz).
  - unfold digits1. change (b :: s ++ rest) with ((b :: s) ++ rest). by rewrite digits_app.
Qed.

Lemma number_uint n : 0 <= n -> good_number (format_uint n).
Proof.
  intros Hn. destruct (format_uint_spec n Hn) as (H1&_&b&s&H3&_). split.
  - exists b, s. split; [done|]. rewrite H3 in H1. apply Forall_cons in H1 as [? _]. by left.
  - intros rest Hr. unfold number.
    assert (minus_part (format_uint n ++ rest) = ([], format_uint n ++ rest)) as ->.
    { rewrite H3 in *. cbn. apply Forall_cons in H1 as [Hb _].
      by rewrite (digit_not b "-") by (done || (left; done)). }
    rewrite int_part_format by done. cbn. rewrite frac_stop by done. cbn.
    rewrite exp_stop by done. cbn. by rewrite app_nil_r.
Qed.

Lemma number_int n : good_number (format_int n).
Proof.
  unfold format_int. destruct (Z.ltb_spec n 0); [|by apply number_uint].
  split; [by eexists _, _; split; [|right]|]. intros rest Hr. unfold number.
  change (minus_part (("-" :: format_uint (- n)) ++ rest)) with (["-"], format_uint (- n) ++ rest).
  cbv beta iota. rewrite int_part_format by (done || lia). cbn. rewrite frac_stop by done. cbn.
  rewrite exp_stop by done. cbn. by rewrite app_nil_r.
Qed.

(** * Strings *)

(** [strings.ToValidUTF8]: each invalid byte becomes U+FFFD. *)
Definition sanitize (s : text) : text := encode_runes (runes s).

Lemma sanitize_valid s : valid_utf8 s -> sanitize s = s.
Proof. done. Qed.

Lemma byte_of_val b z : z = byte_val b -> byte_of_Z z = b.
Proof.
  intros ->. apply byte_val_inj. rewrite byte_val_of_Z; [done|]. unfold byte_val.
  pose proof (Byte.to_N_bounded b). lia.
Qed.

Lemma cont_range lo hi b : negb (cont lo hi b) = false -> lo <= byte_val b <= hi.
Proof.
  intros Hc%negb_false_iff. apply andb_prop in Hc as [H1%Z.leb_le H2%Z.leb_le]. lia.
Qed.

(** The runes that take several bytes are valid, and encoded by those bytes. *)
Lemma decode_rune_wide s b s1 r w :
  s = b :: s1 -> 0x80 <= byte_val b -> decode_rune s = (r, w) ->
  (r = rune_error /\ w = 1%nat) \/
  (scalar r /\ 0x80 <= r /\ (1 < w)%nat /\ (w <= length s)%nat /\ take w s = encode_rune r).
Proof.
  intros -> Hb. unfold decode_rune. destruct (Z.ltb_spec (byte_val b) 0x80); [lia|].
  destruct (Z.ltb_spec (byte_val b) 0xC2); [intros [= <- <-]; auto|].
  destruct (Z.ltb_spec 0xF4 (byte_val b)); [intros [= <- <-]; auto|]. cbn [orb].
  destruct s1 as [|b1 s2]; [intros [= <- <-]; auto|].
  destruct (negb (cont (second_lo _) _ b1)) eqn:C1; [intros [= <- <-]; auto|].
  apply cont_range in C1. unfold second_lo, second_hi in C1.
  destruct (Z.ltb_spec (byte_val b) 0xE0).
  { intros [= <- <-]. right. revert C1. bool_cases; intros C1; try lia.
    unfold scalar, encode_rune. zb. cbn [orb andb].
    destruct (Z.leb_spec 0xD800 ((byte_val b - 0xC0) * 64 + (byte_val b1 - 0x80))); [lia|].
    cbn [orb andb]. split_and!; try (cbn; lia). cbn.
    rewrite (byte_of_val b), (byte_of_val b1) by (Z.div_mod_to_equations; lia). done. }
  destruct s2 as [|b2 s3]; [intros [= <- <-]; auto|].
  destruct (negb (cont 0x80 0xBF b2)) eqn:C2; [intros [= <- <-]; auto|]. apply cont_range in C2.
  destruct (Z.ltb_spec (byte_val b) 0xF0).
  { intros [= <- <-]. right. set (r := _ + (byte_val b2 - 0x80)).
    assert (0x800 <= r < 0x10000 /\ ~ (0xD800 <= r <= 0xDFFF)) as [R1 R2].
    { subst r. revert C1. bool_cases; intros C1; lia. }
    unfold scalar, encode_rune. zb.
    assert ((0xD800 <=? r) && (r <=? 0xDFFF) = false) as ->.
    { destruct (Z.leb_spec 0xD800 r), (Z.leb_spec r 0xDFFF); done || lia. }
    cbn [orb]. zb. split_and!; try (cbn; lia). cbn. subst r.
    rewrite (byte_of_val b), (byte_of_val b1), (byte_of_val b2); [done|..];
      revert C1; bool_cases; intros C1; Z.div_mod_to_equations; lia. }
  destruct s3 as [|b3 s4]; [intros [= <- <-]; auto|].
  destruct (negb (cont 0x80 0xBF b3)) eqn:C3; [intros [= <- <-]; auto|]. apply cont_range in C3.
  intros [= <- <-]. right. set (r := _ + (byte_val b3 - 0x80)).
  assert (0x10000 <= r <= 0x10FFFF) as R1.
  { subst r. revert C1. bool_cases; intros C1; lia. }
  unfold scalar, encode_rune. zb.
  assert ((0xD800 <=? r) && (r <=? 0xDFFF) = false) as ->.
  { destruct (Z.leb_spec r 0xDFFF); [lia|]. by rewrite andb_false_r. }
  cbn [orb]. zb. split_and!; try (cbn; lia). cbn. subst r.
  rewrite (byte_of_val b), (byte_of_val b1), (byte_of_val b2), (byte_of_val b3); [done|..];
    revert C1; bool_cases; intros C1; Z.div_mod_to_equations; lia.
Qed.

Lemma decode_rune_ascii b s : byte_val b < 0x80 -> decode_rune (b :: s) = (byte_val b, 1%nat).
Proof. intros Hb. unfold decode_rune. by rewrite (proj2 (Z.ltb_lt _ _)). Qed.

Lemma encode_rune_ascii b : byte_val b < 0x80 -> encode_rune (byte_val b) = [b].
Proof.
  intros Hb. assert (0 <= byte_val b) by (unfold byte_val; lia). unfold encode_rune. zb.
  destruct (Z.leb_spec 0xD800 (byte_val b)); [lia|]. cbn [orb andb]. by rewrite (byte_of_val b).
Qed.

Lemma encode_rune_wide r b :
  scalar r -> 0x80 <= r -> head (encode_rune r) = Some b -> 0x80 <= byte_val b.
Proof.
  intros [Hr Hs] Hw. unfold encode_rune.
  destruct (Z.ltb_spec r 0), (Z.ltb_spec 0x10FFFF r), (Z.leb_spec 0xD800 r), (Z.leb_spec r 0xDFFF);
    try lia; cbn [orb andb]; bool_cases; try lia; cbn; intros [= <-];
    rewrite byte_val_of_Z; Z.div_mod_to_equations; lia.
Qed.

Lemma unescape_escape b t :
  byte_val b < 0x80 -> html_safe b = false ->
  exists e, escape b = backslash :: e /\ unescape (e ++ t) = Some (byte_val b, t).
Proof.
  intros Hb Hs. destruct b; try discriminate Hb; try discriminate Hs;
    eexists; (split; [vm_compute; reflexivity|reflexivity]).
Qed.

Lemma safe_byte b : html_safe b = true ->
  Byte.eqb b dquote = false /\ Byte.eqb b backslash = false /\ 32 <= byte_val b.
Proof.
  unfold html_safe. intros [H1%Z.leb_le H2%negb_true_iff]%andb_prop.
  repeat apply orb_false_elim in H2 as [H2 ?]. auto.
Qed.

Lemma unquote_plain fuel b s :
  Byte.eqb b dquote = false -> Byte.eqb b backslash = false -> 32 <= byte_val b ->
  unquote (S fuel) (b :: s) =
    let '(r, w) := decode_rune (b :: s) in
    '(t, s3) ← unquote fuel (drop w (b :: s)); Some (encode_rune r ++ t, s3).
Proof.
  intros H1 H2 H3. cbn [unquote]. rewrite H1, H2. by rewrite (proj2 (Z.ltb_ge _ _)) by lia.
Qed.

Lemma unquote_escape fuel e s r :
  unescape e = Some (r, s) ->
  unquote (S fuel) (backslash :: e) = '(t, s3) ← unquote fuel s; Some (encode_rune r ++ t, s3).
Proof.
  intros He. cbn [unquote]. change (Byte.eqb backslash dquote) with false.
  change (Byte.eqb backslash backslash) with true. cbv iota. by rewrite He.
Qed.

Lemma quote_rune_unquote s b s1 out w r w' t fuel :
  s = b :: s1 -> quote_rune s b = (out, w) -> decode_rune s = (r, w') ->
  w = w' /\ out <> [] /\
  unquote (S fuel) (out ++ t) = '(u, s3) ← unquote fuel t; Some (encode_rune r ++ u, s3).
Proof.
  intros -> Hq Hd. unfold quote_rune in Hq. destruct (Z.ltb_spec (byte_val b) 0x80) as [Hb|Hb].
  - rewrite decode_rune_ascii in Hd by done. injection Hd as <- <-. injection Hq as <- <-.
    destruct (html_safe b) eqn:Hs.
    + destruct (safe_byte b Hs) as (H1&H2&H3). split_and!; [done|done|]. cbn [app].
      rewrite unquote_plain, decode_rune_ascii by done. done.
    + destruct (unescape_escape b t Hb Hs) as (e&->&He). split_and!; [done|done|]. cbn [app].
      by apply (unquote_escape fuel _ t).
  - rewrite Hd in Hq. destruct (decode_rune_wide (b :: s1) b s1 r w' eq_refl Hb Hd)
      as [[-> ->]|(Hr&Hr2&Hw&Hl&Ht)].
    + injection Hq as <- <-. split_and!; [done|done|]. by apply (unquote_escape fuel _ t).
    + assert ((w' =? 1)%nat = false) as E by (apply Nat.eqb_neq; lia).
      rewrite E, andb_false_r in Hq. injection Hq as <- <-. split; [done|].
      destruct (Z.eqb_spec r 0x2028) as [->|N1]; [|destruct (Z.eqb_spec r 0x2029) as [->|N2]]; cbn [orb].
      1,2: split; [done|]; by apply (unquote_escape fuel _ t).
      rewrite Ht. pose proof (encode_rune_pos r) as Hp.
      destruct (encode_rune r) as [|c cs] eqn:Ec; [zl|]. split; [done|].
      pose proof (encode_rune_wide r c Hr Hr2) as Hc. rewrite Ec in Hc. specialize (Hc eq_refl).
      cbn [app]. rewrite unquote_plain; [|destruct (Byte.eqb c _) eqn:Ec2; [apply Byte.byte_dec_bl in Ec2; subst c; done|done]..|lia].
      change (c :: cs ++ t) with ((c :: cs) ++ t). rewrite <-Ec, decode_encode by done.
      cbv beta iota. by rewrite drop_app_length, Ec.
Qed.

Lemma unquote_quote f fuel s rest :
  (length s <= f)%nat -> (length (quote_loop f s) < fuel)%nat ->
  unquote fuel (quote_loop f s ++ dquote :: rest) = Some (encode_runes (runes_loop f s), rest).
Proof.
  revert fuel s. induction f as [|f IH]; intros fuel s Hf Hfuel.
  { destruct s; [|cbn in Hf; lia]. destruct fuel; [cbn in Hfuel; lia|done]. }
  destruct s as [|b s1]; [destruct fuel; [cbn in Hfuel; lia|done]|].
  destruct fuel as [|fuel]; [lia|]. cbn [quote_loop] in *. cbn [runes_loop].
  destruct (quote_rune (b :: s1) b) as [out w] eqn:Hq. destruct (decode_rune (b :: s1)) as [r w'] eqn:Hd.
  set (t := quote_loop f (drop w (b :: s1)) ++ dquote :: rest).
  destruct (quote_rune_unquote (b :: s1) b s1 out w r w' t fuel eq_refl Hq Hd) as (<-&Hne&Hu).
  rewrite <-app_assoc. change (quote_loop f _ ++ dquote :: rest) with t. rewrite Hu. subst t.
  assert (1 <= w)%nat as Hw.
  { pose proof Hq as Hq'. unfold quote_rune in Hq'. destruct (Z.ltb_spec (byte_val b) 0x80); [by injection Hq' as _ <-|].
    destruct (decode_rune_wide (b :: s1) b s1 r w eq_refl) as [[_ ->]|(_&_&?&_)]; [done|done|lia|lia]. }
  rewrite length_app in Hfuel. assert (0 < length out)%nat by (destruct out; [done|cbn; lia]).
  rewrite IH; [|rewrite length_drop; cbn in *; lia|lia]. done.
Qed.

(** A rendered string parses to its valid form. *)
Lemma unquote_render s rest :
  unquote (length (quote_loop (length s) s ++ dquote :: rest))
    (quote_loop (length s) s ++ dquote :: rest) = Some (sanitize s, rest).
Proof. apply unquote_quote; [done|]. rewrite length_app. cbn. lia. Qed.

(** * Base64 *)

(** A character of the alphabet: its value, and that it is no padding or line end. *)
Definition b64_checks (i : Z) : bool :=
  bool_decide (b64_val (b64_char i) = Some i) && negb (Byte.eqb (b64_char i) "=") &&
  negb (Byte.eqb (b64_char i) x0a || Byte.eqb (b64_char i) x0d).

Lemma b64_char_ok i : 0 <= i < 64 ->
  b64_val (b64_char i) = Some i /\ Byte.eqb (b64_char i) "=" = false /\
  Byte.eqb (b64_char i) x0a || Byte.eqb (b64_char i) x0d = false.
Proof.
  intros Hi. assert (b64_checks i = true) as Hc.
  { assert (forallb b64_checks (seqZ 0 64) = true) as Hall by (vm_compute; reflexivity).
    eapply forallb_forall in Hall; [exact Hall|]. apply list_elem_of_In, elem_of_seqZ. lia. }
  unfold b64_checks in Hc. apply andb_prop in Hc as [Hc H3%negb_true_iff].
  apply andb_prop in Hc as [H1%bool_decide_eq_true H2%negb_true_iff]. auto.
Qed.

Lemma byte_range b : 0 <= byte_val b < 256.
Proof. unfold byte_val. pose proof (Byte.to_N_bounded b). lia. Qed.

Lemma list_ind3 {A} (Q : list A -> Prop) :
  Q [] -> (forall a, Q [a]) -> (forall a b, Q [a; b]) ->
  (forall a b c s, Q s -> Q (a :: b :: c :: s)) -> forall s, Q s.
Proof.
  intros H0 H1 H2 H3. fix rec 1. intros [|a [|b [|c s]]]; [done..|]. apply H3, rec.
Qed.

Lemma b64_quads_encode s : b64_quads (b64_encode s) = Some s.
Proof.
  induction s as [|a|a b|a b c s IH] using list_ind3; [done|..]; cbn [b64_encode];
    try set (n := _ + byte_val c); try set (n := _ + byte_val b * 256); try set (n := byte_val a * 65536);
    pose proof (byte_range a); try pose proof (byte_range b); try pose proof (byte_range c);
    destruct (b64_char_ok (n / 262144)) as (V1&_); try (subst n; Z.div_mod_to_equations; lia);
    destruct (b64_char_ok (n / 4096 mod 64)) as (V2&_); try (subst n; Z.div_mod_to_equations; lia);
    cbn [b64_quads]; rewrite V1, V2; cbn [mbind option_bind].
  - change (Byte.eqb "=" "=") with true. cbn [andb]. rewrite zlen_nil, Z.eqb_refl.
    do 2 f_equal. apply byte_of_val. subst n. Z.div_mod_to_equations; lia.
  - destruct (b64_char_ok (n / 64 mod 64)) as (V3&E3&_); [subst n; Z.div_mod_to_equations; lia|].
    rewrite E3, V3. cbn [mbind option_bind]. change (Byte.eqb "=" "=") with true.
    rewrite zlen_nil, Z.eqb_refl. do 2 f_equal; [|f_equal]; apply byte_of_val; subst n;
      Z.div_mod_to_equations; lia.
  - destruct (b64_char_ok (n / 64 mod 64)) as (V3&E3&_); [subst n; Z.div_mod_to_equations; lia|].
    destruct (b64_char_ok (n mod 64)) as (V4&E4&_); [subst n; Z.div_mod_to_equations; lia|].
    rewrite E3, V3. cbn [mbind option_bind]. rewrite E4, V4, IH. cbn [mbind option_bind].
    do 2 f_equal; [|f_equal; [|f_equal]]; apply byte_of_val; subst n;
      Z.div_mod_to_equations; lia.
Qed.

Definition no_line_end (b : byte) : bool := negb (Byte.eqb b x0a || Byte.eqb b x0d).

Lemma b64_encode_no_line_end s : forallb no_line_end (b64_encode s) = true.
Proof.
  assert (forall i, 0 <= i < 64 -> no_line_end (b64_char i) = true) as Hc.
  { intros i Hi. unfold no_line_end. by destruct (b64_char_ok i Hi) as (_&_&->). }
  induction s as [|a|a b|a b c s IH] using list_ind3; [done|..]; cbn [b64_encode forallb];
    pose proof (byte_range a); try pose proof (byte_range b); try pose proof (byte_range c);
    rewrite !Hc by (Z.div_mod_to_equations; lia); done.
Qed.

Lemma b64_round s : b64_decode (b64_encode s) = Some s.
Proof.
  unfold b64_decode. fold no_line_end.
  rewrite forallb_filter_id by apply b64_encode_no_line_end. apply b64_quads_encode.
Qed.

(** * Values *)

Fixpoint clean (v : json) : json :=
  match v with
  | JString s => JString (sanitize s)
  | JArray vs => JArray (map clean vs)
  | JObject ms => JObject (map (fun m => (sanitize (fst m), clean (snd m))) ms)
  | _ => v
  end.

(** The numbers are literals, and at most [d] arrays and objects are open at once. *)
Fixpoint renders (d : nat) (v : json) : Prop :=
  match v with
  | JNumber lit => good_number lit
  | JArray vs => match d with O => False | S d => Forall (renders d) vs end
  | JObject ms => match d with O => False | S d => Forall (fun m => renders d (snd m)) ms end
  | _ => True
  end.

(** A rendered value starts with neither a space nor a closing bracket. *)
Lemma render_head d v : renders d v ->
  exists b s, render v = b :: s /\ is_space b = false /\ Byte.eqb b "]" = false.
Proof.
  destruct v as [|[]|lit|s|vs|ms]; intros Hv; try by (eexists _, _; split_and!).
  assert (good_number lit) as [(b&s&Hl&Hb) _] by (by destruct d). exists b, s. split; [done|].
  destruct Hb as [Hb| ->]; [|done]. unfold is_space.
  rewrite !(digit_not b) by (first [done|by left|by right]). done.
Qed.

Lemma skip_ws_cons b s : is_space b = false -> skip_ws (b :: s) = b :: s.
Proof. cbn. by intros ->. Qed.

Lemma skip_ws_render d v rest : renders d v -> skip_ws (render v ++ rest) = render v ++ rest.
Proof. intros (b&s&->&Hb&_)%render_head. by apply skip_ws_cons. Qed.

Lemma commas_cons t t2 ts : commas (t :: t2 :: ts) = t ++ "," :: commas (t2 :: ts).
Proof. done. Qed.

Lemma commas_length ts : Forall (fun t => t <> []) ts -> (length ts <= length (commas ts))%nat.
Proof.
  induction 1 as [|t ts Ht _ IH]; [done|]. destruct ts as [|t2 ts]; [destruct t; cbn in *; [done|lia]|].
  rewrite commas_cons, length_app. cbn [length] in *. lia.
Qed.

Section loops.
  Context (val : text -> option (json * text)).

(** What [val] does on a rendered value. *)
Definition takes (v : json) : Prop :=
  (exists d, renders d v) /\ forall rest, stop rest -> val (render v ++ rest) = Some (clean v, rest).

Lemma elements_render fuel vs rest :
  vs <> [] -> Forall takes vs -> (length vs <= fuel)%nat ->
  elements val fuel (commas (map render vs) ++ "]" :: rest) = Some (map clean vs, rest).
Proof.
  revert fuel. induction vs as [|v vs IH]; intros fuel Hne Hv Hf; [done|].
  apply Forall_cons in Hv as [[_ Hv] Hvs]. destruct fuel as [|fuel]; [cbn in Hf; lia|].
  cbn [elements]. destruct vs as [|v2 vs].
  - cbn [map commas concat]. rewrite app_nil_r, Hv by (right; by left). done.
  - cbn [map] in *. rewrite commas_cons, <-app_assoc. cbn [app].
    rewrite Hv by (by left). cbn [mbind option_bind].
    rewrite skip_ws_cons by done. change (Byte.eqb "," ",") with true. cbv iota.
    rewrite IH by (done || (cbn in *; lia)). done.
Qed.

Lemma quote_key k s : key_colon (quote k ++ ":" :: s) = Some (sanitize k, s).
Proof.
  unfold key_colon, quote. cbn [app]. rewrite skip_ws_cons by done.
  change (Byte.eqb dquote dquote) with true. cbv iota. rewrite <-app_assoc. cbn [app].
  rewrite unquote_render. done.
Qed.

Definition render_member (m : text * json) : text := quote (fst m) ++ ":" :: render (snd m).

Lemma members_render fuel ms rest :
  ms <> [] -> Forall (fun m => takes (snd m)) ms -> (length ms <= fuel)%nat ->
  members val fuel (commas (map render_member ms) ++ "}" :: rest)
    = Some (map (fun m => (sanitize (fst m), clean (snd m))) ms, rest).
Proof.
  revert fuel. induction ms as [|m ms IH]; intros fuel Hne Hm Hf; [done|].
  apply Forall_cons in Hm as [[_ Hm] Hms]. destruct fuel as [|fuel]; [cbn in Hf; lia|].
  cbn [members]. destruct ms as [|m2 ms].
  - cbn [map commas concat]. unfold render_member at 1. rewrite app_nil_r, <-app_assoc. cbn [app].
    rewrite quote_key. cbn [mbind option_bind]. rewrite Hm by (right; by right). done.
  - cbn [map] in *. rewrite commas_cons, <-app_assoc. unfold render_member at 1.
    rewrite <-app_assoc. cbn [app]. rewrite quote_key. cbn [mbind option_bind].
    rewrite Hm by (by left). cbn [mbind option_bind].
    rewrite skip_ws_cons by done. change (Byte.eqb "," ",") with true. cbv iota.
    rewrite IH by (done || (cbn in *; lia)). done.
Qed.

Lemma array_render vs rest :
  Forall takes vs ->
  array_value val (commas (map render vs) ++ "]" :: rest) = Some (JArray (map clean vs), rest).
Proof.
  intros Hv. destruct vs as [|v vs]; [done|].
  assert (exists b s, commas (map render (v :: vs)) ++ "]" :: rest = b :: s /\ is_space b = false /\
    Byte.eqb b "]" = false) as (b&s&E&Hs&Hb).
  { apply Forall_cons in Hv as [[[d Hd] _] _]. destruct (render_head d v Hd) as (b&s&E&Hs&Hb).
    cbn [map commas]. rewrite E. cbn [app]. by eexists b, _. }
  unfold array_value. rewrite E, skip_ws_cons, Hb, <-E by done.
  rewrite elements_render; [done|done|done|]. rewrite length_app.
  pose proof (commas_length (map render (v :: vs))) as Hl. rewrite length_map in Hl.
  enough (length (v :: vs) <= length (commas (map render (v :: vs))))%nat by lia. apply Hl.
  apply Forall_map. eapply Forall_impl; [exact Hv|]. intros x [[d Hd] _].
  by destruct (render_head d x Hd) as (?&?&->&_).
Qed.

Lemma object_render ms rest :
  Forall (fun m => takes (snd m)) ms ->
  object_value val (commas (map render_member ms) ++ "}" :: rest)
    = Some (JObject (map (fun m => (sanitize (fst m), clean (snd m))) ms), rest).
Proof.
  intros Hm. destruct ms as [|m ms]; [done|].
  assert (exists s, commas (map render_member (m :: ms)) ++ "}" :: rest = dquote :: s) as (s&E).
  { by eexists. }
  unfold object_value. rewrite E, skip_ws_cons by done. change (Byte.eqb dquote "}") with false.
  cbv iota. rewrite <-E, members_render; [done|done|done|]. rewrite length_app.
  pose proof (commas_length (map render_member (m :: ms))) as Hl. rewrite length_map in Hl.
  enough (length (m :: ms) <= length (commas (map render_member (m :: ms))))%nat by lia. apply Hl.
  apply Forall_map, Forall_forall. intros x _. done.
Qed.

End loops.

Lemma value_number d lit rest :
  good_number lit -> stop rest -> value d (lit ++ rest) = Some (JNumber lit, rest).
Proof.
  intros [(b&s&->&Hb) Hn] Hr. specialize (Hn rest Hr). cbn [app] in *.
  assert (forall c, byte_val c < 48 \/ 57 < byte_val c -> c <> "-" -> Byte.eqb b c = false) as Hneq.
  { intros c Hc Hc2. destruct Hb as [Hb| ->]; [by apply digit_not|].
    destruct (Byte.eqb "-" c) eqn:E; [|done]. apply Byte.byte_dec_bl in E. by destruct Hc2. }
  destruct d; cbn [value]; (rewrite skip_ws_cons by
    (unfold is_space; rewrite !Hneq by (first [done|by left|by right]); done));
    rewrite !Hneq by (first [done|by left|by right]); by rewrite Hn.
Qed.

Lemma value_render d v rest :
  renders d v -> stop rest -> value d (render v ++ rest) = Some (clean v, rest).
Proof.
  revert v rest. induction d as [|d IH]; intros v rest Hv Hr;
    destruct v as [|[]|lit|s|vs|ms]; try done; try by apply value_number.
  1,2: cbn [render]; unfold quote; cbn [app value]; rewrite skip_ws_cons by done;
    change (Byte.eqb dquote dquote) with true; cbv iota; rewrite <-app_assoc; cbn [app];
    by rewrite unquote_render.
  - cbn [render app value]. rewrite skip_ws_cons by done.
    change (Byte.eqb "[" dquote) with false. change (Byte.eqb "[" "[") with true. cbv iota.
    rewrite <-app_assoc. cbn [app]. rewrite array_render; [done|].
    eapply Forall_impl; [exact Hv|]. intros x Hx. split; [eauto|]. intros r Hr'. by apply IH.
  - cbn [render app value]. rewrite skip_ws_cons by done.
    change (Byte.eqb "{" dquote) with false. change (Byte.eqb "{" "[") with false.
    change (Byte.eqb "{" "{") with true. cbv iota. rewrite <-app_assoc. cbn [app].
    change (map (fun m => quote (fst m) ++ ":" :: render (snd m)) ms) with (map render_member ms).
    rewrite object_render; [done|].
    eapply Forall_impl; [exact Hv|]. intros x Hx. split; [by exists d|]. intros r Hr'. by apply IH.
Qed.

(** An object ends with its brace, whatever follows. *)
Lemma value_object d ms rest :
  renders d (JObject ms) -> value d (render (JObject ms) ++ rest) = Some (clean (JObject ms), rest).
Proof.
  intros Hv. destruct d as [|d]; [done|]. cbn [render app value]. rewrite skip_ws_cons by done.
  change (Byte.eqb "{" dquote) with false. change (Byte.eqb "{" "[") with false.
  change (Byte.eqb "{" "{") with true. cbv iota. rewrite <-app_assoc. cbn [app].
  change (map (fun m => quote (fst m) ++ ":" :: render (snd m)) ms) with (map render_member ms).
  rewrite object_render; [done|].
  eapply Forall_impl; [exact Hv|]. intros x Hx. split; [by exists d|]. intros r Hr'. by apply value_render.
Qed.

Lemma parse_render v : renders max_depth v -> parse (render v) = Some (clean v).
Proof.
  intros Hv. unfold parse. rewrite <-(app_nil_r (render v)), value_render by done. done.
Qed.

(** * Parsed strings are valid *)

Lemma scalar_ascii b : byte_val b < 0x80 -> scalar (byte_val b).
Proof. intros Hb. pose proof (byte_range b). unfold scalar. lia. Qed.

Lemma decode_rune_scalar b s : scalar (fst (decode_rune (b :: s))).
Proof.
  destruct (Z.ltb_spec (byte_val b) 0x80) as [Hb|Hb].
  - rewrite decode_rune_ascii by done. by apply scalar_ascii.
  - destruct (decode_rune (b :: s)) as [r w] eqn:E.
    destruct (decode_rune_wide _ _ _ _ _ eq_refl Hb E) as [[-> _]|[Hr _]]; [|done].
    split; vm_compute; intuition discriminate.
Qed.

Lemma hex_val_range b v : hex_val b = Some v -> 0 <= v < 16.
Proof.
  unfold hex_val.
  repeat match goal with |- context [(?a <=? ?x) && (?x <=? ?c)] =>
    destruct (Z.leb_spec a x), (Z.leb_spec x c); cbn [andb] end;
    intros Hx; try discriminate; injection Hx as <-; lia.
Qed.

Lemma getu4_range s u r : getu4 s = Some (u, r) -> 0 <= u < 0x10000.
Proof.
  unfold getu4. destruct s as [|a [|b [|c [|d s]]]]; try done. intros Hs.
  apply bind_Some in Hs as (x1&H1%hex_val_range&Hs). apply bind_Some in Hs as (x2&H2%hex_val_range&Hs).
  apply bind_Some in Hs as (x3&H3%hex_val_range&Hs). apply bind_Some in Hs as (x4&H4%hex_val_range&Hs).
  injection Hs as <- _. lia.
Qed.

Lemma low_surrogate_scalar hi s r t :
  0xD800 <= hi -> low_surrogate hi s = Some (r, t) -> scalar r.
Proof.
  intros Hhi. unfold low_surrogate. destruct s as [|a [|b s]]; try done.
  destruct (_ && _); [|done]. intros Hs. apply bind_Some in Hs as ([lo u]&Hu&Hs).
  destruct (Z.leb_spec 0xD800 hi), (Z.ltb_spec hi 0xDC00), (Z.leb_spec 0xDC00 lo),
    (Z.ltb_spec lo 0xE000); cbn [andb] in Hs; try done.
  injection Hs as <- _. unfold scalar. lia.
Qed.

Lemma rune_error_scalar : scalar rune_error.
Proof. split; vm_compute; intuition discriminate. Qed.

Lemma unescape_scalar s r t : unescape s = Some (r, t) -> scalar r.
Proof.
  unfold unescape. destruct s as [|c s]; [done|].
  destruct (Byte.eqb c dquote || Byte.eqb c backslash || Byte.eqb c "/") eqn:E.
  { intros [= <- _]. apply orb_prop in E as [E|E]; [apply orb_prop in E as [E|E]|];
      apply Byte.byte_dec_bl in E; subst c; apply scalar_ascii; done. }
  destruct (Byte.eqb c "b"); [intros [= <- _]; unfold scalar; lia|].
  destruct (Byte.eqb c "f"); [intros [= <- _]; unfold scalar; lia|].
  destruct (Byte.eqb c "n"); [intros [= <- _]; unfold scalar; lia|].
  destruct (Byte.eqb c "r"); [intros [= <- _]; unfold scalar; lia|].
  destruct (Byte.eqb c "t"); [intros [= <- _]; unfold scalar; lia|].
  destruct (Byte.eqb c "u"); [|done]. intros Hs. apply bind_Some in Hs as ([u q]&Hu%getu4_range&Hs).
  destruct (Z.leb_spec 0xD800 u), (Z.ltb_spec u 0xE000); cbn [andb] in Hs;
    try (injection Hs as <- _; unfold scalar; lia).
  destruct (low_surrogate u q) as [[x y]|] eqn:El.
  - injection Hs as <- _. by apply low_surrogate_scalar in El.
  - injection Hs as <- _. apply rune_error_scalar.
Qed.

Lemma unquote_scalar fuel s t r :
  unquote fuel s = Some (t, r) -> exists rs, Forall scalar rs /\ t = encode_runes rs.
Proof.
  revert s t r. induction fuel as [|fuel IH]; intros s t r Hs; [done|].
  destruct s as [|b s]; [done|]. cbn [unquote] in Hs.
  destruct (Byte.eqb b dquote); [injection Hs as <- _; by exists []|].
  destruct (Byte.eqb b backslash).
  { apply bind_Some in Hs as ([x s2]&Hx%unescape_scalar&Hs).
    apply bind_Some in Hs as ([t2 s3]&Ht&Hs). injection Hs as <- _.
    destruct (IH _ _ _ Ht) as (rs&Hrs&->). exists (x :: rs). split; [by constructor|done]. }
  destruct (byte_val b <? 32); [done|].
  pose proof (decode_rune_scalar b s) as Hx. destruct (decode_rune (b :: s)) as [x w].
  apply bind_Some in Hs as ([t2 s3]&Ht&Hs). injection Hs as <- _.
  destruct (IH _ _ _ Ht) as (rs&Hrs&->). exists (x :: rs). split; [by constructor|done].
Qed.

Lemma unquote_valid fuel s t r : unquote fuel s = Some (t, r) -> valid_utf8 t.
Proof. intros (rs&Hrs&->)%unquote_scalar. by apply encode_valid_utf8. Qed.

(** Every string of the value is valid. *)
Inductive json_valid : json -> Prop :=
| jv_null : json_valid JNull
| jv_bool b : json_valid (JBool b)
| jv_number lit : json_valid (JNumber lit)
| jv_string s : valid_utf8 s -> json_valid (JString s)
| jv_array vs : Forall json_valid vs -> json_valid (JArray vs)
| jv_object ms : Forall (fun m => json_valid (snd m)) ms -> json_valid (JObject ms).

Section valid.
  Context (val : text -> option (json * text)).
  Context (val_valid : forall s v r, val s = Some (v, r) -> json_valid v).

Lemma elements_valid fuel s vs r : elements val fuel s = Some (vs, r) -> Forall json_valid vs.
Proof.
  revert s vs r. induction fuel as [|fuel IH]; intros s vs r Hs; [done|]. cbn [elements] in Hs.
  apply bind_Some in Hs as ([v s1]&Hv%val_valid&Hs). destruct (skip_ws s1) as [|b s2]; [done|].
  destruct (Byte.eqb b ","); [|destruct (Byte.eqb b "]"); [|done]].
  - apply bind_Some in Hs as ([ws s3]&Hw%IH&Hs). injection Hs as <- _. by constructor.
  - injection Hs as <- _. by constructor.
Qed.

Lemma members_valid fuel s ms r :
  members val fuel s = Some (ms, r) -> Forall (fun m => json_valid (snd m)) ms.
Proof.
  revert s ms r. induction fuel as [|fuel IH]; intros s ms r Hs; [done|]. cbn [members] in Hs.
  apply bind_Some in Hs as ([k s0]&_&Hs). apply bind_Some in Hs as ([v s1]&Hv%val_valid&Hs).
  destruct (skip_ws s1) as [|b s2]; [done|].
  destruct (Byte.eqb b ","); [|destruct (Byte.eqb b "}"); [|done]].
  - apply bind_Some in Hs as ([ws s3]&Hw%IH&Hs). injection Hs as <- _. by constructor.
  - injection Hs as <- _. by constructor.
Qed.

Lemma array_valid s v r : array_value val s = Some (v, r) -> json_valid v.
Proof.
  unfold array_value. destruct (skip_ws s) as [|b s1]; [done|]. destruct (Byte.eqb b "]").
  - intros [= <- _]. by constructor.
  - intros Hs. apply bind_Some in Hs as ([vs s2]&Hv%elements_valid&Hs). injection Hs as <- _.
    by constructor.
Qed.

Lemma object_valid s v r : object_value val s = Some (v, r) -> json_valid v.
Proof.
  unfold object_value. destruct (skip_ws s) as [|b s1]; [done|]. destruct (Byte.eqb b "}").
  - intros [= <- _]. by constructor.
  - intros Hs. apply bind_Some in Hs as ([vs s2]&Hv%members_valid&Hs). injection Hs as <- _.
    by constructor.
Qed.

End valid.

Lemma value_valid d s v r : value d s = Some (v, r) -> json_valid v.
Proof.
  revert s v r. induction d as [|d IH]; intros s v r; cbn [value];
    (destruct (skip_ws s) as [|b s1]; [done|]);
    (destruct (Byte.eqb b dquote); [intros Hs; apply bind_Some in Hs as ([t s2]&Ht%unquote_valid&Hs);
      injection Hs as <- _; by constructor|]);
    (destruct (Byte.eqb b "["); [try done; by apply array_valid|]);
    (destruct (Byte.eqb b "{"); [try done; by apply object_valid|]);
    (destruct (Byte.eqb b "n"); [intros Hs; apply bind_Some in Hs as (?&_&Hs); injection Hs as <- _; constructor|]);
    (destruct (Byte.eqb b "t"); [intros Hs; apply bind_Some in Hs as (?&_&Hs); injection Hs as <- _; constructor|]);
    (destruct (Byte.eqb b "f"); [intros Hs; apply bind_Some in Hs as (?&_&Hs); injection Hs as <- _; constructor|]);
    intros Hs; apply bind_Some in Hs as ([lit ?]&_&Hs); injection Hs as <- _; constructor.
Qed.

Lemma parse_valid s v : parse s = Some v -> json_valid v.
Proof.
  unfold parse. intros Hs. apply bind_Some in Hs as ([v0 r]&Hv%value_valid&Hs).
  destruct (skip_ws r); [|done]. by injection Hs as <-.
Qed.
