(* ===== verification/Stdgo.v ===== *)
(** What the server command uses of Go's standard library: [strings.Split] and
    [strings.TrimSpace], and [time.ParseDuration], with its floating-point arithmetic
    for fractions (binary64, as in the specification of IEEE 754). *)
From Stdlib Require Import Floats.SpecFloat.
From S2P Require Import Prelude Utf8 Json JsonRound.

(** * Strings *)

(** [strings.Split] at a separator of one byte. *)
Fixpoint split (sep : byte) (s : text) : list text :=
  match s with
  | [] => [[]]
  | b :: s' =>
      if Byte.eqb b sep then [] :: split sep s'
      else match split sep s' with t :: ts => (b :: t) :: ts | [] => [[b]] end
  end.

(** [strings.Join] *)
Fixpoint join (sep : byte) (ts : list text) : text :=
  match ts with
  | [] => []
  | [t] => t
  | t :: ts' => t ++ sep :: join sep ts'
  end.

(** [unicode.IsSpace]. *)
Definition is_white (r : rune) : bool :=
  ((9 <=? r) && (r <=? 13)) || (r =? 32) || (r =? 0x85) || (r =? 0xA0) || (r =? 0x1680) ||
  ((0x2000 <=? r) && (r <=? 0x200a)) || (r =? 0x2028) || (r =? 0x2029) || (r =? 0x202f) ||
  (r =? 0x205f) || (r =? 0x3000).

(** [utf8.RuneStart], and [utf8.DecodeLastRuneInString]: the last byte that starts a rune
    among the last four, from the one before the last; [n] is the place after it. *)
Definition rune_start (b : byte) : bool := negb ((0x80 <=? byte_val b) && (byte_val b <=? 0xBF)).

Fixpoint last_start (s : text) (lim n : nat) : nat :=
  match n with
  | O => O
  | S n' =>
      if (n' <? lim)%nat then n'
      else if rune_start (nth n' s x00) then n' else last_start s lim n'
  end.

Definition decode_last_rune (s : text) : rune * nat :=
  match length s with
  | O => (rune_error, O)
  | S m =>
      let v := byte_val (nth m s x00) in
      if v <? 0x80 then (v, 1%nat)
      else
        let start := last_start s (S m - 4) m in
        let '(r, w) := decode_rune (drop start s) in
        if (start + w =? S m)%nat then (r, w) else (rune_error, 1%nat)
  end.

Fixpoint trim_left (fuel : nat) (s : text) : text :=
  match fuel, s with
  | S fuel', _ :: _ =>
      let '(r, w) := decode_rune s in if is_white r then trim_left fuel' (drop w s) else s
  | _, _ => s
  end.

Fixpoint trim_right (fuel : nat) (s : text) : text :=
  match fuel, s with
  | S fuel', _ :: _ =>
      let '(r, w) := decode_last_rune s in
      if is_white r then trim_right fuel' (take (length s - w) s) else s
  | _, _ => s
  end.

Definition TrimSpace (s : text) : text :=
  let s := trim_left (length s) s in trim_right (length s) s.

(** * Durations *)

Definition float := spec_float.
Definition of_uint (n : Z) : float := binary_normalize 53 1024 n 0 false.
Definition fmul : float -> float -> float := SFmul 53 1024.
Definition fdiv : float -> float -> float := SFdiv 53 1024.

(** [uint64] of a float that is not negative: truncation. *)
Definition to_uint (f : float) : Z :=
  match f with
  | S754_finite false m e => if 0 <=? e then Zpos m * 2 ^ e else Zpos m / 2 ^ (- e)
  | _ => 0
  end.

(** [unitMap], in nanoseconds; both micro signs. *)
Definition units : list (text * Z) :=
  [(bytes_of "ns", 1); (bytes_of "us", 1000); (encode_runes [0xB5; 115], 1000);
   (encode_runes [0x3BC; 115], 1000); (bytes_of "ms", 1000000); (bytes_of "s", 1000000000);
   (bytes_of "m", 60000000000); (bytes_of "h", 3600000000000)].

Definition unit_of (u : text) : option Z :=
  snd <$> find (fun p => bool_decide (fst p = u)) units.

(** [leadingInt]: [None] on overflow. *)
Fixpoint leading_int (x : Z) (s : text) : option (Z * text) :=
  match s with
  | c :: s' =>
      if is_digit c then
        if 2 ^ 63 / 10 <? x then None
        else
          let x := x * 10 + (byte_val c - 48) in
          if 2 ^ 63 <? x then None else leading_int x s'
      else Some (x, s)
  | [] => Some (x, [])
  end.

(** [leadingFraction]: after an overflow the digits are skipped. *)
Fixpoint leading_fraction (x : Z) (scale : float) (overflow : bool) (s : text) : Z * float * text :=
  match s with
  | c :: s' =>
      if is_digit c then
        if overflow || (max_int / 10 <? x) then leading_fraction x scale true s'
        else
          let y := x * 10 + (byte_val c - 48) in
          if 2 ^ 63 <? y then leading_fraction x scale true s'
          else leading_fraction y (fmul scale (of_uint 10)) false s'
      else (x, scale, s)
  | [] => (x, scale, [])
  end.

Definition is_dot (b : byte) : bool := Byte.eqb b x2e.

(** The bytes up to a dot or a digit. *)
Fixpoint unit_part (s : text) : text * text :=
  match s with
  | c :: s' => if is_dot c || is_digit c then ([], s) else let '(u, r) := unit_part s' in (c :: u, r)
  | [] => ([], [])
  end.

(** One number with its unit, in nanoseconds: [None] is an error. *)
Definition duration_part (s : text) : option (Z * text) :=
  match s with
  | [] => None
  | c :: _ =>
      if negb (is_dot c || is_digit c) then None
      else
        '(v, s1) ← leading_int 0 s;
        let pre := negb (length s1 =? length s)%nat in
        let '(f, scale, post, s2) :=
          match s1 with
          | d :: s1' =>
              if is_dot d then
                let '(f, scale, s2) := leading_fraction 0 (of_uint 1) false s1' in
                (f, scale, negb (length s2 =? length s1')%nat, s2)
              else (0, of_uint 1, false, s1)
          | [] => (0, of_uint 1, false, s1)
          end in
        if negb (pre || post) then None
        else
          let '(u, s3) := unit_part s2 in
          if bool_decide (u = []) then None
          else
            un ← unit_of u;
            if 2 ^ 63 / un <? v then None
            else
              let v := v * un in
              if 0 <? f then
                let v := v + to_uint (fmul (of_uint f) (fdiv (of_uint un) scale)) in
                if 2 ^ 63 <? v then None else Some (v, s3)
              else Some (v, s3)
  end.

Fixpoint duration_loop (fuel : nat) (d : Z) (s : text) : option Z :=
  match s with
  | [] => Some d
  | _ :: _ =>
      match fuel with
      | O => None
      | S fuel' =>
          '(v, s') ← duration_part s;
          let d := d + v in
          if 2 ^ 63 <? d then None else duration_loop fuel' d s'
      end
  end.

(** [time.ParseDuration]. *)
Definition ParseDuration (s : text) : option Z :=
  let '(sg, s) := sign_part s in
  if bool_decide (s = ["0"%byte]) then Some 0
  else if bool_decide (s = []) then None
  else
    d ← duration_loop (length s) 0 s;
    if bool_decide (sg = ["-"%byte]) then Some (- d)
    else if max_int <? d then None else Some d.

Example parse_1500ms : ParseDuration (bytes_of "1500ms") = Some 1500000000.
Proof. vm_compute. reflexivity. Qed.
Example parse_1h30 : ParseDuration (bytes_of "-1h2.25m.5s") = Some (-3735500000000).
Proof. vm_compute. reflexivity. Qed.
Example parse_bare : ParseDuration (bytes_of "150") = None.
Proof. vm_compute. reflexivity. Qed.

(** ** Lemmas *)

Lemma join_split sep s : join sep (split sep s) = s.
Proof.
  induction s as [|b s IH]; [done|]. cbn [split]. destruct (Byte.eqb b sep) eqn:E.
  - apply Byte.byte_dec_bl in E as ->. cbn [join]. destruct (split sep s) eqn:Es; [|by rewrite <-IH].
    by destruct s as [|c s]; cbn in Es; [|destruct (Byte.eqb c sep); [|destruct (split sep s)]].
  - destruct (split sep s) as [|t ts] eqn:Es; [by rewrite <-IH|].
    rewrite <-IH. by destruct ts.
Qed.

Lemma unit_of_in u n : (u, n) ∈ units -> unit_of u = Some n.
Proof.
  unfold units. intros Hu. repeat (apply elem_of_cons in Hu as [Hu|Hu]; [injection Hu as -> ->; vm_compute; reflexivity|]).
  by apply elem_of_nil in Hu.
Qed.

Lemma dec_step_grows ds x : 0 <= x -> forallb is_digit ds = true -> x <= foldl dec_step x ds.
Proof.
  revert x. induction ds as [|c ds IH]; intros x Hx Hd; cbn [foldl]; [done|].
  cbn [forallb] in Hd. apply andb_true_iff in Hd as [Hc Hd]. unfold is_digit in Hc.
  apply andb_true_iff in Hc as [Hc _]. apply Z.leb_le in Hc.
  assert (x <= dec_step x c) as Hs by (unfold dec_step; lia).
  specialize (IH (dec_step x c) ltac:(lia) Hd). lia.
Qed.

Lemma leading_int_digits ds rest x :
  0 <= x -> forallb is_digit ds = true -> match rest with c :: _ => is_digit c = false | [] => True end ->
  foldl dec_step x ds <= 2 ^ 63 -> leading_int x (ds ++ rest) = Some (foldl dec_step x ds, rest).
Proof.
  revert x. induction ds as [|c ds IH]; intros x Hx Hd Hr Hn; cbn [foldl app leading_int] in *.
  - destruct rest as [|c rest]; [done|]. cbn. by rewrite Hr.
  - cbn [forallb] in Hd. apply andb_true_iff in Hd as [Hc Hd]. rewrite Hc.
    assert (48 <= byte_val c) by (unfold is_digit in Hc; lia).
    assert (x * 10 <= dec_step x c) as Hs by (unfold dec_step; lia).
    pose proof (dec_step_grows ds (dec_step x c) ltac:(lia) Hd) as Hg.
    fold (dec_step x c). cbv zeta.
    destruct (Z.ltb_spec (2 ^ 63 / 10) x); [Z.div_mod_to_equations; lia|].
    destruct (Z.ltb_spec (2 ^ 63) (dec_step x c)); [lia|].
    apply IH; [lia|done..].
Qed.

Lemma unit_name u un : (u, un) ∈ units ->
  u <> [] /\ Forall (fun c => is_dot c || is_digit c = false) u /\ unit_of u = Some un /\ 0 < un.
Proof.
  unfold units. intros Hu.
  repeat (apply elem_of_cons in Hu as [Hu|Hu]; [injection Hu as -> ->; split_and!;
    [vm_compute; discriminate|repeat constructor|vm_compute; reflexivity|lia]|]).
  by apply elem_of_nil in Hu.
Qed.

Lemma unit_part_all u : Forall (fun c => is_dot c || is_digit c = false) u -> unit_part u = (u, []).
Proof. induction 1 as [|c u Hc _ IH]; [done|]. cbn [unit_part]. by rewrite Hc, IH. Qed.

(** A whole number of a unit. *)
Lemma parse_duration_units n u un :
  (u, un) ∈ units -> 0 < n -> n * un <= max_int -> ParseDuration (format_uint n ++ u) = Some (n * un).
Proof.
  intros (Hne&Hu&Hun&Hpos)%unit_name Hn Hm.
  destruct (format_uint_spec n ltac:(lia)) as (Hd&Hf&b&s&E&_).
  assert (is_digit b = true) as Hb by (rewrite E in Hd; by apply Forall_cons in Hd as [? _]).
  assert (n <= n * un) by nia. unfold max_int in Hm.
  assert (leading_int 0 (format_uint n ++ u) = Some (n, u)) as Hl.
  { rewrite <-Hf at 2. apply leading_int_digits; [lia| | |rewrite Hf; lia].
    - apply forallb_forall. intros x Hx%list_elem_of_In. by eapply Forall_forall in Hd.
    - destruct Hu as [|c u Hc _]; [done|]. by apply orb_false_iff in Hc as [_ ?]. }
  assert (duration_part (format_uint n ++ u) = Some (n * un, [])) as Hp.
  { unfold duration_part. rewrite Hl, E. cbn [app]. rewrite Hb, orb_true_r. cbn [negb mbind option_bind].
    destruct u as [|c u]; [done|]. pose proof Hu as [Hc _]%Forall_cons. apply orb_false_iff in Hc as [Hc _].
    rewrite Hc. cbv beta iota. replace (length (c :: u) =? _)%nat with false.
    2:{ symmetry. apply Nat.eqb_neq. cbn [length]. rewrite length_app. cbn [length]. lia. }
    cbn [negb orb]. rewrite unit_part_all, bool_decide_false, Hun by done. cbn [mbind option_bind].
    destruct (Z.ltb_spec (2 ^ 63 / un) n) as [Hlt|]; [|done]. exfalso.
    assert (n <= 2 ^ 63 / un); [|lia]. apply Z.div_le_lower_bound; lia. }
  assert (sign_part (format_uint n ++ u) = ([], format_uint n ++ u)) as Hs.
  { rewrite E. cbn. by rewrite (digit_not b "+"%byte), (digit_not b "-"%byte) by (done || (left; done)). }
  unfold ParseDuration. rewrite Hs, E. cbn [app].
  rewrite (bool_decide_false (b :: s ++ u = [])) by done.
  rewrite bool_decide_false.
  2:{ intros [= _ ?%app_eq_nil]. tauto. }
  cbn [length duration_loop]. rewrite app_comm_cons, <-E, Hp. cbn [mbind option_bind].
  rewrite Z.add_0_l, (proj2 (Z.ltb_ge (2 ^ 63) (n * un))) by lia.
  assert (max_int <? n * un = false) as Hle by (apply Z.ltb_ge; unfold max_int; lia).
  destruct (length (s ++ u)); cbn [duration_loop mbind option_bind]; by rewrite bool_decide_false, Hle.
Qed.
