(* ===== verification/Codec.v ===== *)
(** How the Go types that are stored or sent map to JSON ([json.Marshal] and
    [json.Unmarshal] with the struct tags of [ot/changeset.go], [fsm/types.go] and
    [raft/types.go]), and the round trip of each: what one server writes, another
    reads. A decoder takes the value that the variable holds and gives the value after
    [Unmarshal], and whether there was no error: as in Go, an error in one field does
    not stop the others. [nil] and an empty slice are one value here, and render as
    [null]. *)
From Stdlib Require Import Strings.String.
From S2P Require Import Prelude Utf8 Changeset Fsm Stores Config Node Json JsonRound.

(** ASCII strings are valid. *)
Definition is_ascii (s : text) : Prop := Forall (fun b => byte_val b < 128) s.

Lemma sanitize_ascii s : is_ascii s -> sanitize s = s.
Proof.
  intros Hs. unfold sanitize, runes. induction Hs as [|b s Hb Hs IH]; [done|].
  cbn [length runes_loop]. rewrite decode_rune_ascii by done. change (drop 1 (b :: s)) with s.
  by rewrite encode_runes_cons, encode_rune_ascii, IH.
Qed.

(** * Codecs *)

Record codec (A : Type) : Type := mkCodec {
  enc : A -> json;
  dec : json -> A -> A * bool;
  zero : A
}.
Arguments mkCodec {A}.
Arguments enc {A}.
Arguments dec {A}.
Arguments zero {A}.

(** Values that [fits] render within a depth of [d], and are read back as their
    canonical form, which differs in the invalid bytes of strings only. *)
Record lawful {A} (c : codec A) (d : nat) (fits : A -> Prop) (canon : A -> A) : Prop := mk_lawful {
  law_renders a d' : fits a -> (d <= d')%nat -> renders d' (enc c a);
  law_dec a : fits a -> dec c (clean (enc c a)) (zero c) = (canon a, true)
}.

(** ** Basic types *)

Definition int_fits (n : Z) : Prop := - 2 ^ 63 <= n <= max_int.
Definition uint_fits (n : Z) : Prop := 0 <= n <= max_uint.

Definition dec_number (p : text -> option Z) (v : json) (n : Z) : Z * bool :=
  match v with
  | JNumber lit => match p lit with Some m => (m, true) | None => (n, false) end
  | JNull => (n, true)
  | _ => (n, false)
  end.

Definition int_codec : codec Z := mkCodec (fun n => JNumber (format_int n)) (dec_number parse_int) 0.
Definition uint_codec : codec Z := mkCodec (fun n => JNumber (format_uint n)) (dec_number parse_uint) 0.

Definition bool_codec : codec bool :=
  mkCodec JBool
    (fun v b => match v with JBool b' => (b', true) | JNull => (b, true) | _ => (b, false) end) false.

Definition string_codec : codec text :=
  mkCodec JString
    (fun v s => match v with JString s' => (s', true) | JNull => (s, true) | _ => (s, false) end) [].

(** [[]T]: the element at a place is decoded over the one that is there. *)
Section slices.
  Context {A : Type} (c : codec A).

Fixpoint dec_elements (vs : list json) (xs : list A) : list A * bool :=
  match vs with
  | [] => ([], true)
  | v :: vs' =>
      let '(x, ok) := dec c v (match xs with x :: _ => x | [] => zero c end) in
      let '(ys, ok') := dec_elements vs' (tail xs) in
      (x :: ys, ok && ok')
  end.

Definition slice_codec : codec (list A) :=
  mkCodec (fun xs => match xs with [] => JNull | _ => JArray (map (enc c) xs) end)
    (fun v xs =>
       match v with
       | JArray vs => dec_elements vs xs
       | JNull => ([], true)
       | _ => (xs, false)
       end) [].

End slices.

(** A [byte] in an array, and [[]byte], which is a base64 string or such an array. *)
Definition byte_codec : codec byte :=
  mkCodec (fun b => JNumber (format_uint (byte_val b)))
    (fun v b =>
       match v with
       | JNumber lit =>
           match parse_uint lit with
           | Some n => if n <? 256 then (byte_of_Z n, true) else (b, false)
           | None => (b, false)
           end
       | JNull => (b, true)
       | _ => (b, false)
       end) x00.

Definition bytes_codec : codec text :=
  mkCodec (fun s => match s with [] => JNull | _ => JString (b64_encode s) end)
    (fun v s =>
       match v with
       | JString e => match b64_decode e with Some t => (t, true) | None => (s, false) end
       | _ => dec (slice_codec byte_codec) v s
       end) [].

(** ** Structs

    A field: its name, its value ([None] when [omitempty] leaves it out) and its
    decoder. *)
Record field (A : Type) : Type := mkField {
  f_name : text;
  f_enc : A -> option json;
  f_dec : json -> A -> A * bool
}.
Arguments mkField {A}.
Arguments f_name {A}.
Arguments f_enc {A}.
Arguments f_dec {A}.

Definition plain {A B} (name : string) (c : codec B) (get : A -> B) (set : B -> A -> A) : field A :=
  mkField (bytes_of name) (fun a => Some (enc c (get a)))
    (fun v a => let '(b, ok) := dec c v (get a) in (set b a, ok)).

Definition omitempty {A} (empty : A -> bool) (f : field A) : field A :=
  mkField (f_name f) (fun a => if empty a then None else f_enc f a) (f_dec f).

(** [foldName]: keys match names up to case; the two runes outside of ASCII that fold
    to a letter are the long s and the Kelvin sign. *)
Definition fold_rune (r : rune) : rune :=
  if (97 <=? r) && (r <=? 122) then r - 32
  else if r =? 0x17F then 83 else if r =? 0x212A then 75 else r.
Definition fold_name (s : text) : list rune := map fold_rune (runes s).

Section structs.
  Context {A : Type} (fs : list (field A)) (z : A).

Definition find_field (k : text) : option (field A) :=
  match find (fun f => bool_decide (f_name f = k)) fs with
  | Some f => Some f
  | None => find (fun f => bool_decide (fold_name (f_name f) = fold_name k)) fs
  end.

Definition dec_member (s : A * bool) (m : text * json) : A * bool :=
  match find_field (fst m) with
  | Some f => let '(a, ok) := f_dec f (snd m) (fst s) in (a, snd s && ok)
  | None => s
  end.

Definition struct_codec : codec A :=
  mkCodec
    (fun a => JObject (omap (fun f => (fun v => (f_name f, v)) <$> f_enc f a) fs))
    (fun v a =>
       match v with
       | JObject ms => foldl dec_member (a, true) ms
       | JNull => (a, true)
       | _ => (a, false)
       end) z.

(** Decoding what was encoded: the fields in turn. *)
Definition dec_field (a : A) (s : A * bool) (f : field A) : A * bool :=
  match f_enc f a with
  | Some v => let '(x, ok) := f_dec f (clean v) (fst s) in (x, snd s && ok)
  | None => s
  end.

Definition well_named : Prop := NoDup (map f_name fs) /\ Forall is_ascii (map f_name fs).

Lemma find_named f : well_named -> f ∈ fs -> find_field (sanitize (f_name f)) = Some f.
Proof.
  intros [Hnd Ha] Hf. rewrite sanitize_ascii.
  2:{ eapply Forall_forall in Ha; [exact Ha|]. by apply list_elem_of_fmap_2. }
  unfold find_field. enough (find (fun g => bool_decide (f_name g = f_name f)) fs = Some f) as -> by done.
  clear Ha. induction fs as [|g gs IH]; [by apply elem_of_nil in Hf|]. cbn [map] in Hnd.
  apply NoDup_cons in Hnd as [Hg Hnd]. cbn [find]. apply elem_of_cons in Hf as [->|Hf].
  - by rewrite bool_decide_true.
  - rewrite bool_decide_false; [by apply IH|]. intros E. apply Hg. rewrite E. by apply list_elem_of_fmap_2.
Qed.

Lemma struct_dec a :
  well_named -> dec struct_codec (clean (enc struct_codec a)) z = foldl (dec_field a) (z, true) fs.
Proof.
  intros Hn. cbn [struct_codec enc dec clean].
  enough (forall gs s, Forall (fun f => find_field (sanitize (f_name f)) = Some f) gs ->
    foldl dec_member s (map (fun m => (sanitize (fst m), clean (snd m)))
      (omap (fun f => (fun v => (f_name f, v)) <$> f_enc f a) gs)) = foldl (dec_field a) s gs)
    as He by (apply He, Forall_forall; intros f; by apply find_named).
  clear Hn. intros gs s Hn. revert s.
  induction Hn as [|f gs Hf _ IH]; intros s; [done|]. cbn [omap list_omap foldl].
  unfold dec_field at 2. destruct (f_enc f a) as [v|]; cbn [fmap option_fmap option_map]; [|apply IH].
  cbn [map foldl]. unfold dec_member at 2. cbn [fst snd]. rewrite Hf. apply IH.
Qed.

Lemma struct_renders a d :
  Forall (fun f => forall v, f_enc f a = Some v -> renders d v) fs ->
  renders (S d) (enc struct_codec a).
Proof.
  intros Hf. cbn. induction Hf as [|f gs Hf _ IH]; cbn [omap list_omap]; [constructor|].
  destruct (f_enc f a) as [v|]; cbn [fmap option_fmap option_map]; [|done].
  constructor; [by apply Hf|done].
Qed.

End structs.

(** One field. *)
Lemma fold_plain {A B} (a x : A) name (c : codec B) get set b fs :
  dec c (clean (enc c (get a))) (get x) = (b, true) ->
  foldl (dec_field a) (x, true) (plain name c get set :: fs) = foldl (dec_field a) (set b x, true) fs.
Proof. intros Hb. cbn [foldl]. unfold dec_field at 2. cbn. by rewrite Hb. Qed.

(** ** [json.Marshal] and [json.Unmarshal] *)

Definition Marshal {A} (c : codec A) (a : A) : text := render (enc c a).

(** The variable afterwards, and whether there was no error. *)
Definition Unmarshal {A} (c : codec A) (data : text) (a : A) : A * bool :=
  match parse data with Some v => dec c v a | None => (a, false) end.

Lemma unmarshal_marshal {A} (c : codec A) d fits canon a :
  lawful c d fits canon -> (d <= max_depth)%nat -> fits a ->
  Unmarshal c (Marshal c a) (zero c) = (canon a, true).
Proof.
  intros [Hr Hd] Hle Ha. unfold Unmarshal, Marshal. rewrite parse_render by (by apply Hr).
  by apply Hd.
Qed.

(** * Laws of the basic codecs *)

Create Rewrite HintDb codec.

Lemma int_dec n x : int_fits n -> dec int_codec (clean (enc int_codec n)) x = (n, true).
Proof. intros Hn. cbn [int_codec enc dec clean dec_number]. by rewrite parse_int_format. Qed.
Lemma uint_dec n x : uint_fits n -> dec uint_codec (clean (enc uint_codec n)) x = (n, true).
Proof. intros Hn. cbn [uint_codec enc dec clean dec_number]. by rewrite parse_uint_format. Qed.
Lemma bool_dec b x : dec bool_codec (clean (enc bool_codec b)) x = (b, true).
Proof. done. Qed.
Lemma string_dec s x : dec string_codec (clean (enc string_codec s)) x = (sanitize s, true).
Proof. done. Qed.

Lemma int_renders n d : renders d (enc int_codec n).
Proof. destruct d; apply number_int. Qed.
Lemma uint_renders n d : uint_fits n -> renders d (enc uint_codec n).
Proof. intros [Hn _]. destruct d; by apply number_uint. Qed.
Lemma bool_renders b d : renders d (enc bool_codec b).
Proof. by destruct d. Qed.
Lemma string_renders s d : renders d (enc string_codec s).
Proof. by destruct d. Qed.
#[export] Hint Resolve int_renders uint_renders bool_renders string_renders : godb.
#[export] Hint Rewrite int_dec uint_dec using done : codec.
#[export] Hint Rewrite bool_dec string_dec : codec.

Lemma b64_encode_ascii s : is_ascii (b64_encode s).
Proof.
  assert (forall i, 0 <= i < 64 -> byte_val (b64_char i) < 128) as Hc.
  { intros i Hi. unfold b64_char. bool_cases; rewrite byte_val_of_Z; lia. }
  unfold is_ascii. induction s as [|a|a b|a b c s IH] using list_ind3; cbn [b64_encode];
    repeat constructor; try done; try apply Hc;
    pose proof (byte_range a); try pose proof (byte_range b); try pose proof (byte_range c);
    Z.div_mod_to_equations; lia.
Qed.

Lemma bytes_dec s : dec bytes_codec (clean (enc bytes_codec s)) [] = (s, true).
Proof.
  destruct s as [|b s]; [done|]. cbn [enc bytes_codec clean dec].
  by rewrite sanitize_ascii, b64_round by apply b64_encode_ascii.
Qed.
Lemma bytes_renders s d : renders d (enc bytes_codec s).
Proof. by destruct s, d. Qed.
#[export] Hint Resolve bytes_renders : godb.
#[export] Hint Rewrite bytes_dec : codec.

Lemma slice_lawful {A} (c : codec A) d fits canon :
  lawful c d fits canon -> lawful (slice_codec c) (S d) (Forall fits) (map canon).
Proof.
  intros [Hr Hd]. split.
  - intros [|x xs] d' Hf Hle; [by destruct d'|]. destruct d' as [|d']; [lia|].
    cbn [enc slice_codec renders]. apply Forall_map. eapply Forall_impl; [exact Hf|].
    intros y Hy. apply Hr; [done|lia].
  - assert (forall xs, Forall fits xs ->
      dec_elements c (map clean (map (enc c) xs)) [] = (map canon xs, true)) as He.
    { intros xs. induction 1 as [|x xs Hx _ IH]; [done|]. cbn [map dec_elements tail].
      by rewrite Hd, IH. }
    intros [|x xs] Hf; [done|]. by apply He.
Qed.

(** * Changesets *)

Definition type_name (t : OpType) : string :=
  match t with
  | OpRetain => "retain" | OpInsert => "insert" | OpDelete => "delete" | OpUnknown s => s
  end.

Definition type_of (s : text) : OpType :=
  if bool_decide (s = bytes_of "retain") then OpRetain
  else if bool_decide (s = bytes_of "insert") then OpInsert
  else if bool_decide (s = bytes_of "delete") then OpDelete
  else OpUnknown (String.string_of_list_byte s).

Definition type_codec : codec OpType :=
  mkCodec (fun t => JString (bytes_of (type_name t)))
    (fun v t =>
       match v with JString s => (type_of s, true) | JNull => (t, true) | _ => (t, false) end)
    (OpUnknown (String.string_of_list_byte [])).

Definition op_codec : codec Op := struct_codec
  [plain "op" type_codec Typ (fun t o => mkOp t (Len o) (Chars o));
   omitempty (fun o => Len o =? 0) (plain "n" int_codec Len (fun n o => mkOp (Typ o) n (Chars o)));
   omitempty (fun o => bool_decide (Chars o = []))
     (plain "chars" string_codec Chars (fun s o => mkOp (Typ o) (Len o) s))]
  (mkOp (zero type_codec) 0 []).

Definition changeset_codec : codec Changeset := struct_codec
  [plain "old_len" int_codec OldLen (fun n c => mkChangeset n (NewLen c) (Ops c));
   plain "new_len" int_codec NewLen (fun n c => mkChangeset (OldLen c) n (Ops c));
   plain "ops" (slice_codec op_codec) Ops (fun os c => mkChangeset (OldLen c) (NewLen c) os)]
  (mkChangeset 0 0 []).

Definition op_fits (o : Op) : Prop := int_fits (Len o).
Definition op_canon (o : Op) : Op :=
  mkOp (type_of (sanitize (bytes_of (type_name (Typ o))))) (Len o) (sanitize (Chars o)).

Record changeset_fits (c : Changeset) : Prop := mk_changeset_fits {
  cf_old : int_fits (OldLen c);
  cf_new : int_fits (NewLen c);
  cf_ops : Forall op_fits (Ops c)
}.
Definition changeset_canon (c : Changeset) : Changeset :=
  mkChangeset (OldLen c) (NewLen c) (map op_canon (Ops c)).

(** [named]: the names of a struct, by evaluation. *)
Ltac named := apply (bool_decide_unpack _); vm_compute; exact I.

Lemma op_lawful : lawful op_codec 1 op_fits op_canon.
Proof.
  split.
  - intros o [|d] Ho Hd; [lia|]. apply struct_renders. repeat constructor; cbn; intros v.
    + intros [= <-]. by destruct d.
    + destruct (Len o =? 0); [done|]. intros [= <-]. apply int_renders.
    + case_bool_decide; [done|]. intros [= <-]. by destruct d.
  - intros [t n s] Ho. unfold op_codec. rewrite struct_dec by named.
    cbn [foldl]. unfold dec_field, omitempty, plain.
    cbn [f_enc f_dec fst snd Typ Len Chars zero struct_codec].
    destruct (Z.eqb_spec n 0) as [->|Hn]; case_bool_decide as Hs; subst;
      cbn [enc dec type_codec clean fst snd Typ Len Chars];
      rewrite ?int_dec, ?string_dec by exact Ho; done.
Qed.

(** [fields tac]: the fields of a struct in turn, [tac] for those of a type that is not
    basic. *)
Ltac fields tac :=
  rewrite struct_dec by named;
  repeat (erewrite fold_plain;
    [|first [by apply int_dec | by apply uint_dec | apply bool_dec | apply string_dec
            | apply bytes_dec | tac]]; cbn -[foldl dec_field plain]);
  cbn [foldl].
Ltac field_renders d :=
  repeat (constructor; [intros v; cbn; intros [= <-]|]); [..|constructor];
  first [apply int_renders | by apply uint_renders | apply bytes_renders | by destruct d | idtac].

Lemma changeset_lawful : lawful changeset_codec 3 changeset_fits changeset_canon.
Proof.
  destruct (slice_lawful op_codec _ _ _ op_lawful) as [Hr Hd]. split.
  - intros c [|d] [H1 H2 H3] Hle; [lia|]. apply struct_renders. field_renders d.
    apply Hr; [done|lia].
  - intros c [H1 H2 H3]. unfold changeset_codec. fields ltac:(by apply Hd). done.
Qed.

(** * Log entries *)

Definition entry_codec : codec RaftLogEntry := struct_codec
  [plain "client_id" string_codec ClientID
     (fun x e => mkEntry x (SubmissionID e) (BaseRev e) (EChangeset e));
   plain "submission_id" int_codec SubmissionID
     (fun x e => mkEntry (ClientID e) x (BaseRev e) (EChangeset e));
   plain "base_rev" int_codec BaseRev
     (fun x e => mkEntry (ClientID e) (SubmissionID e) x (EChangeset e));
   plain "changeset" changeset_codec EChangeset
     (fun x e => mkEntry (ClientID e) (SubmissionID e) (BaseRev e) x)]
  (mkEntry [] 0 0 (zero changeset_codec)).

Record entry_fits (e : RaftLogEntry) : Prop := mk_entry_fits {
  ef_sub : int_fits (SubmissionID e);
  ef_base : int_fits (BaseRev e);
  ef_changeset : changeset_fits (EChangeset e)
}.
Definition entry_canon (e : RaftLogEntry) : RaftLogEntry :=
  mkEntry (sanitize (ClientID e)) (SubmissionID e) (BaseRev e) (changeset_canon (EChangeset e)).

(** [LogEntry] has no tags: its keys are the names of the fields. *)
Definition log_codec : codec LogEntry := struct_codec
  [plain "Index" uint_codec Index (fun x e => mkLog x (Term e) (Data e));
   plain "Term" uint_codec Term (fun x e => mkLog (Index e) x (Data e));
   plain "Data" bytes_codec Data (fun x e => mkLog (Index e) (Term e) x)]
  (mkLog 0 0 []).

Definition log_fits (e : LogEntry) : Prop := uint_fits (Index e) /\ uint_fits (Term e).

(** * Messages between servers *)

Definition ae_codec : codec AppendEntriesRequest := struct_codec
  [plain "term" uint_codec ae_Term
     (fun x q => mkAE x (ae_LeaderID q) (ae_PrevLogIndex q) (ae_PrevLogTerm q) (ae_Entries q) (ae_LeaderCommit q));
   plain "leader_id" string_codec ae_LeaderID
     (fun x q => mkAE (ae_Term q) x (ae_PrevLogIndex q) (ae_PrevLogTerm q) (ae_Entries q) (ae_LeaderCommit q));
   plain "prev_log_index" uint_codec ae_PrevLogIndex
     (fun x q => mkAE (ae_Term q) (ae_LeaderID q) x (ae_PrevLogTerm q) (ae_Entries q) (ae_LeaderCommit q));
   plain "prev_log_term" uint_codec ae_PrevLogTerm
     (fun x q => mkAE (ae_Term q) (ae_LeaderID q) (ae_PrevLogIndex q) x (ae_Entries q) (ae_LeaderCommit q));
   plain "entries" (slice_codec log_codec) ae_Entries
     (fun x q => mkAE (ae_Term q) (ae_LeaderID q) (ae_PrevLogIndex q) (ae_PrevLogTerm q) x (ae_LeaderCommit q));
   plain "leader_commit" uint_codec ae_LeaderCommit
     (fun x q => mkAE (ae_Term q) (ae_LeaderID q) (ae_PrevLogIndex q) (ae_PrevLogTerm q) (ae_Entries q) x)]
  (mkAE 0 [] 0 0 [] 0).

Record ae_fits (q : AppendEntriesRequest) : Prop := mk_ae_fits {
  af_term : uint_fits (ae_Term q);
  af_prev : uint_fits (ae_PrevLogIndex q);
  af_prev_term : uint_fits (ae_PrevLogTerm q);
  af_commit : uint_fits (ae_LeaderCommit q);
  af_entries : Forall log_fits (ae_Entries q)
}.
Definition ae_canon (q : AppendEntriesRequest) : AppendEntriesRequest :=
  mkAE (ae_Term q) (sanitize (ae_LeaderID q)) (ae_PrevLogIndex q) (ae_PrevLogTerm q) (ae_Entries q)
    (ae_LeaderCommit q).

Definition aer_codec : codec AppendEntriesResponse := struct_codec
  [plain "term" uint_codec aer_Term
     (fun x q => mkAER x (aer_Success q) (aer_ConflictTerm q) (aer_ConflictIndex q));
   plain "success" bool_codec aer_Success
     (fun x q => mkAER (aer_Term q) x (aer_ConflictTerm q) (aer_ConflictIndex q));
   plain "conflict_term" uint_codec aer_ConflictTerm
     (fun x q => mkAER (aer_Term q) (aer_Success q) x (aer_ConflictIndex q));
   plain "conflict_index" uint_codec aer_ConflictIndex
     (fun x q => mkAER (aer_Term q) (aer_Success q) (aer_ConflictTerm q) x)]
  (mkAER 0 false 0 0).

Record aer_fits (q : AppendEntriesResponse) : Prop := mk_aer_fits {
  arf_term : uint_fits (aer_Term q);
  arf_cterm : uint_fits (aer_ConflictTerm q);
  arf_cindex : uint_fits (aer_ConflictIndex q)
}.

Definition rv_codec : codec RequestVoteRequest := struct_codec
  [plain "term" uint_codec rv_Term
     (fun x q => mkRV x (rv_CandidateID q) (rv_LastLogIndex q) (rv_LastLogTerm q));
   plain "candidate_id" string_codec rv_CandidateID
     (fun x q => mkRV (rv_Term q) x (rv_LastLogIndex q) (rv_LastLogTerm q));
   plain "last_log_index" uint_codec rv_LastLogIndex
     (fun x q => mkRV (rv_Term q) (rv_CandidateID q) x (rv_LastLogTerm q));
   plain "last_log_term" uint_codec rv_LastLogTerm
     (fun x q => mkRV (rv_Term q) (rv_CandidateID q) (rv_LastLogIndex q) x)]
  (mkRV 0 [] 0 0).

Record rv_fits (q : RequestVoteRequest) : Prop := mk_rv_fits {
  rf_term : uint_fits (rv_Term q);
  rf_index : uint_fits (rv_LastLogIndex q);
  rf_lterm : uint_fits (rv_LastLogTerm q)
}.
Definition rv_canon (q : RequestVoteRequest) : RequestVoteRequest :=
  mkRV (rv_Term q) (sanitize (rv_CandidateID q)) (rv_LastLogIndex q) (rv_LastLogTerm q).

Definition rvr_codec : codec RequestVoteResponse := struct_codec
  [plain "term" uint_codec rvr_Term (fun x q => mkRVR x (rvr_VoteGranted q));
   plain "vote_granted" bool_codec rvr_VoteGranted (fun x q => mkRVR (rvr_Term q) x)]
  (mkRVR 0 false).

Definition rvr_fits (q : RequestVoteResponse) : Prop := uint_fits (rvr_Term q).

(** ** Their laws *)

Lemma entry_lawful : lawful entry_codec 4 entry_fits entry_canon.
Proof.
  destruct changeset_lawful as [Hr Hd]. split.
  - intros e [|d] [H1 H2 H3] Hle; [lia|]. apply struct_renders. field_renders d.
    apply Hr; [done|lia].
  - intros e [H1 H2 H3]. unfold entry_codec. fields ltac:(by apply Hd). done.
Qed.

Lemma log_lawful : lawful log_codec 1 log_fits id.
Proof.
  split.
  - intros e [|d] [H1 H2] Hle; [lia|]. apply struct_renders. field_renders d.
  - intros [i t s] [H1 H2]. unfold log_codec. fields fail. done.
Qed.

Lemma ae_lawful : lawful ae_codec 3 ae_fits ae_canon.
Proof.
  destruct (slice_lawful log_codec _ _ _ log_lawful) as [Hr Hd]. split.
  - intros q [|d] [H1 H2 H3 H4 H5] Hle; [lia|]. apply struct_renders. field_renders d.
    apply Hr; [done|lia].
  - intros q [H1 H2 H3 H4 H5]. unfold ae_codec. fields ltac:(by apply Hd). by rewrite map_id.
Qed.

Lemma aer_lawful : lawful aer_codec 1 aer_fits id.
Proof.
  split.
  - intros q [|d] [H1 H2 H3] Hle; [lia|]. apply struct_renders. field_renders d.
  - intros [t s ct ci] [H1 H2 H3]. unfold aer_codec. fields fail. done.
Qed.

Lemma rv_lawful : lawful rv_codec 1 rv_fits rv_canon.
Proof.
  split.
  - intros q [|d] [H1 H2 H3] Hle; [lia|]. apply struct_renders. field_renders d.
  - intros q [H1 H2 H3]. unfold rv_codec. fields fail. done.
Qed.

Lemma rvr_lawful : lawful rvr_codec 1 rvr_fits id.
Proof.
  split.
  - intros q [|d] H1 Hle; [lia|]. apply struct_renders. field_renders d.
  - intros [t v] H1. unfold rvr_codec. fields fail. done.
Qed.

(** * The codec of the log

    [MarshalEntry] and [UnmarshalEntry] of [fsm/types.go]. *)
Definition json_codec : EntryCodec := {|
  MarshalEntry e := Some (Marshal entry_codec e);
  UnmarshalEntry data :=
    let '(e, ok) := Unmarshal entry_codec data (zero entry_codec) in
    if ok then inr e else inl "json: cannot unmarshal"%string
|}.
#[local] Existing Instance json_codec.

Lemma max_depth_le d : (d <= 10)%nat -> (d <= max_depth)%nat.
Proof.
  intros Hd. etransitivity; [exact Hd|]. apply Nat.leb_le. vm_compute. reflexivity.
Qed.

(** The strings of an operation, a changeset and an entry are valid UTF-8. *)
Definition op_valid (o : Op) : Prop :=
  valid_utf8 (bytes_of (type_name (Typ o))) /\ valid_utf8 (Chars o).
Definition entry_valid (e : RaftLogEntry) : Prop :=
  valid_utf8 (ClientID e) /\ Forall op_valid (Ops (EChangeset e)).

(** The three names of types are constants: an unknown type with one of their names
    would be read back as that constant. *)
Definition op_named (o : Op) : Prop := type_of (bytes_of (type_name (Typ o))) = Typ o.

Lemma op_canon_valid o : op_named o -> op_valid o -> op_canon o = o.
Proof.
  intros Hn [H1 H2]. unfold op_canon, op_named in *.
  rewrite (sanitize_valid _ H1), (sanitize_valid _ H2), Hn. by destruct o.
Qed.

Lemma entry_canon_valid e :
  Forall op_named (Ops (EChangeset e)) -> entry_valid e -> entry_canon e = e.
Proof.
  intros Hn [H1 H2]. unfold entry_canon, changeset_canon. rewrite (sanitize_valid _ H1).
  replace (map op_canon (Ops (EChangeset e))) with (Ops (EChangeset e)); [by destruct e as [? ? ? []]|].
  induction Hn as [|x os Hx Hn IH]; [done|]. apply Forall_cons in H2 as [? ?].
  cbn [map]. by rewrite op_canon_valid, <-IH.
Qed.

(** ** What a decoder gives

    A property that the zero value has, and that every decoding keeps. *)
Definition sound {A} (c : codec A) (ok : A -> Prop) : Prop :=
  ok (zero c) /\ forall v x, json_valid v -> ok x -> ok (fst (dec c v x)).

Lemma parse_int_range s n : parse_int s = Some n -> int_fits n.
Proof.
  unfold parse_int. destruct (sign_part s) as [sg s']. intros Hs.
  apply bind_Some in Hs as (m&_&Hs). cbv zeta in Hs.
  destruct (Z.leb_spec (- 2 ^ 63) (if bool_decide (sg = ["-"%byte]) then - m else m)); [|done].
  destruct (Z.leb_spec (if bool_decide (sg = ["-"%byte]) then - m else m) max_int); [|done].
  injection Hs as <-. by split.
Qed.

Lemma int_sound : sound int_codec int_fits.
Proof.
  split; [split; vm_compute; discriminate|]. intros v x _ Hx. unfold int_codec. cbn [dec]. unfold dec_number.
  destruct v as [| |lit| | |]; try exact Hx.
  destruct (parse_int lit) as [m|] eqn:E; cbn [fst]; [by eapply parse_int_range|exact Hx].
Qed.

Lemma string_sound : sound string_codec valid_utf8.
Proof. split; [done|]. intros v x Hv Hx. by destruct Hv. Qed.

Lemma slice_sound {A} (c : codec A) ok : sound c ok -> sound (slice_codec c) (Forall ok).
Proof.
  intros [Hz Hd]. split; [constructor|]. intros v xs Hv Hx.
  destruct Hv as [| | | |vs Hvs|]; try exact Hx; [constructor|]. cbn [dec slice_codec].
  revert xs Hx. induction Hvs as [|v vs Hv Hvs IH]; intros xs Hx; [constructor|]. cbn [dec_elements].
  specialize (Hd v (match xs with x :: _ => x | [] => zero c end) Hv).
  destruct (dec c v _) as [y b]. specialize (IH (tail xs)).
  destruct (dec_elements c vs (tail xs)) as [ys b']. constructor.
  - apply Hd. destruct Hx; done.
  - apply IH. destruct Hx; [constructor|done].
Qed.

Lemma struct_sound {A} (fs : list (field A)) z ok :
  ok z -> Forall (fun f => forall v x, json_valid v -> ok x -> ok (fst (f_dec f v x))) fs ->
  sound (struct_codec fs z) ok.
Proof.
  intros Hz Hf. split; [done|]. intros v x Hv Hx.
  destruct Hv as [| | | | |ms Hms]; try exact Hx. cbn [dec struct_codec].
  change x with (fst (x, true)) in Hx. revert Hx. generalize (x, true).
  induction Hms as [|m ms Hm Hms IH]; intros s Hs; [exact Hs|]. cbn [foldl]. apply IH.
  unfold dec_member. destruct (find_field fs (fst m)) as [f|] eqn:E; [|done].
  assert (f ∈ fs) as Hin.
  { unfold find_field in E. destruct (find _ fs) as [g|] eqn:E1.
    - injection E as ->. apply find_some in E1 as [E1 _]. by apply list_elem_of_In.
    - apply find_some in E as [E _]. by apply list_elem_of_In. }
  eapply Forall_forall in Hf; [|exact Hin]. specialize (Hf (snd m) (fst s) Hm Hs).
  by destruct (f_dec f _ _).
Qed.

Lemma plain_sound {A B} name (c : codec B) (get : A -> B) set okB (okA : A -> Prop) :
  sound c okB -> (forall a, okA a -> okB (get a)) -> (forall b a, okB b -> okA a -> okA (set b a)) ->
  forall v x, json_valid v -> okA x -> okA (fst (f_dec (plain name c get set) v x)).
Proof.
  intros [_ Hd] Hg Hs v x Hv Hx. cbn. specialize (Hd v (get x) Hv (Hg x Hx)).
  destruct (dec c v (get x)) as [b o]. by apply Hs.
Qed.

Lemma type_of_name s : bytes_of (type_name (type_of s)) = s.
Proof.
  unfold type_of. repeat case_bool_decide; try by subst. cbn. unfold bytes_of.
  unfold String.list_byte_of_string, String.string_of_list_byte.
  rewrite list_ascii_of_string_of_list_ascii, map_map. rewrite <-(map_id s) at 2.
  apply map_ext. intros b. apply Ascii.byte_of_ascii_of_byte.
Qed.

Definition op_ok (o : Op) : Prop := op_fits o /\ op_valid o /\ op_named o.

Lemma type_sound :
  sound type_codec (fun t => valid_utf8 (bytes_of (type_name t)) /\ type_of (bytes_of (type_name t)) = t).
Proof.
  split; [split; vm_compute; reflexivity|]. intros v x Hv Hx.
  destruct Hv; try exact Hx. cbn [dec type_codec fst]. by rewrite type_of_name.
Qed.

Lemma op_sound : sound op_codec op_ok.
Proof.
  apply struct_sound.
  { split; [split; vm_compute; discriminate|]. split; [split; vm_compute; reflexivity|vm_compute; reflexivity]. }
  constructor; [|constructor; [|constructor; [|constructor]]].
  - apply (plain_sound _ _ _ _ _ _ type_sound).
    + by intros o (_&[? _]&?).
    + intros t o [? ?] (?&[_ ?]&_). by split.
  - apply (plain_sound "n" _ _ _ _ _ int_sound).
    + by intros o (?&_).
    + intros n o ? (_&?&?). by split.
  - apply (plain_sound "chars" _ _ _ _ _ string_sound).
    + by intros o (_&[_ ?]&_).
    + intros s o ? (?&[? _]&?). by split.
Qed.

Definition changeset_ok (c : Changeset) : Prop :=
  int_fits (OldLen c) /\ int_fits (NewLen c) /\ Forall op_ok (Ops c).

Lemma changeset_sound : sound changeset_codec changeset_ok.
Proof.
  apply struct_sound.
  { split; [|split]; [split; vm_compute; discriminate..|constructor]. }
  constructor; [|constructor; [|constructor; [|constructor]]].
  - apply (plain_sound _ _ _ _ _ _ int_sound); [by intros c (?&_)|by intros n c ? (_&?&?)].
  - apply (plain_sound _ _ _ _ _ _ int_sound); [by intros c (_&?&_)|by intros n c ? (?&_&?)].
  - apply (plain_sound _ _ _ _ _ _ (slice_sound _ _ op_sound)); [by intros c (_&_&?)|by intros n c ? (?&?&_)].
Qed.

Definition entry_ok (e : RaftLogEntry) : Prop :=
  valid_utf8 (ClientID e) /\ int_fits (SubmissionID e) /\ int_fits (BaseRev e) /\
  changeset_ok (EChangeset e).

Lemma entry_sound : sound entry_codec entry_ok.
Proof.
  apply struct_sound.
  { split; [done|]. split; [split; vm_compute; discriminate|].
    split; [split; vm_compute; discriminate|apply changeset_sound]. }
  constructor; [|constructor; [|constructor; [|constructor; [|constructor]]]].
  - apply (plain_sound _ _ _ _ _ _ string_sound); [by intros e (?&_)|by intros x e ? (_&?&?&?)].
  - apply (plain_sound _ _ _ _ _ _ int_sound); [by intros e (_&?&_)|by intros x e ? (?&_&?&?)].
  - apply (plain_sound _ _ _ _ _ _ int_sound); [by intros e (_&_&?&_)|by intros x e ? (?&?&_&?)].
  - apply (plain_sound _ _ _ _ _ _ changeset_sound); [by intros e (_&_&_&?)|by intros x e ? (?&?&?&_)].
Qed.

Lemma entry_ok_canon e : entry_ok e -> entry_fits e /\ entry_canon e = e.
Proof.
  intros (H1&H2&H3&H4&H5&H6). split.
  - split; [done|done|]. split; [done|done|]. eapply Forall_impl; [exact H6|]. by intros o (?&_).
  - apply entry_canon_valid; [|split; [done|]]; (eapply Forall_impl; [exact H6|]); by intros o (_&?&?).
Qed.

(** C29: the log is read as it was written. [UnmarshalEntry] of what [MarshalEntry]
    wrote gives the entry back, on every server and after every restart, with each byte
    of its strings that is not valid UTF-8 replaced by U+FFFD; and an entry that was
    decoded once, from whatever text, has 64-bit integers and valid strings, so that
    encoding and decoding it again leaves it as it is. *)
Theorem entry_roundtrip :
  (forall e, entry_fits e ->
     exists data, MarshalEntry e = Some data /\ UnmarshalEntry data = inr (entry_canon e)) /\
  (forall data e, UnmarshalEntry data = inr e -> entry_fits e /\ entry_canon e = e).
Proof.
  split.
  - intros e He. eexists. split; [reflexivity|]. cbn [UnmarshalEntry json_codec].
    by rewrite (unmarshal_marshal entry_codec 4 entry_fits entry_canon);
      [|apply entry_lawful|apply max_depth_le; lia|].
  - intros data e. cbn [UnmarshalEntry json_codec]. unfold Unmarshal.
    destruct (parse data) as [v|] eqn:E; [|done]. apply parse_valid in E.
    destruct entry_sound as [Hz Hd]. specialize (Hd v (zero entry_codec) E Hz).
    destruct (dec entry_codec v (zero entry_codec)) as [x []]; [|done]. intros [= <-].
    by apply entry_ok_canon.
Qed.

(** The entry that a client's second edit makes. *)
Definition demo_entry : RaftLogEntry :=
  mkEntry (bytes_of "alice") 2 1
    (mkChangeset 2 4 [retain 1; insert_op (encode_runes [0xE9; 0x1F600]); delete_op 1]).

Lemma entry_roundtrip_witness :
  bytes_of "alice" <> [] /\
  exists data, MarshalEntry demo_entry = Some data /\ UnmarshalEntry data = inr (entry_canon demo_entry).
Proof.
  split; [done|]. apply entry_roundtrip.
  repeat first [split|constructor]; vm_compute; discriminate.
Defined.
