(* ===== verification/Bolt.v ===== *)
(** The disk store of a node ([internal/store/boltstore.go]): [BoltStore], which is both
    the log store and the stable store, over the library [go.etcd.io/bbolt]. The
    library is not part of the program: its operations are the class [Bolt], and what its
    documentation promises is [BoltLaws]. With these laws the store keeps the promises of a
    stable store ([StableStoreSpec]) and those of a log, but for [DeleteRange]: its loop
    relies on more than the documentation says, which is a class of its own, [BoltCursor],
    and only with it the store keeps all promises of a log ([LogStoreSpec]). A node has it twice, as its log
    and as its stable store: the two are views of one database, and each operation
    touches only the bucket of its view. *)
From stdpp Require Import pretty.
From S2P Require Import Prelude Utf8 Stores Json JsonRound Codec.

(** * The library

    A database [D], also as a transaction sees it; a bucket is named by a text. A cursor
    is where its last call left it: [cursor_next] is given that key, which may have been
    deleted since. [inl] is an error. *)
Class Bolt (D : Type) := {
  bolt_begin : D -> option string;                   (* Begin fails: a closed database *)
  bolt_commit : D -> D -> string + D;                (* Commit of a transaction of the first *)
  bolt_close : D -> D;                               (* Close *)
  create_bucket : D -> text -> string + D;           (* CreateBucketIfNotExists *)
  bucket_get : D -> text -> text -> option text;
  bucket_put : D -> text -> text -> text -> string + D;
  cursor_first : D -> text -> option text;
  cursor_last : D -> text -> option text;
  cursor_seek : D -> text -> text -> option text;
  cursor_next : D -> text -> text -> option text;
  cursor_delete : D -> text -> text -> string + D
}.

Definition bucketLog : text := bytes_of "raft-log".
Definition bucketStable : text := bytes_of "raft-stable".

Section store.
  Context {D : Type} `{Bolt D}.

(** ** Transactions *)

Definition lift {A} (r : string + A) : outcome string A :=
  match r with inl e => Err e | inr a => Ret a end.

(** [db.View] and [db.Update]: when the function fails, nothing is written. *)
Definition View {A} (d : D) (f : D -> outcome string A) : outcome string A :=
  match bolt_begin d with Some e => Err e | None => f d end.

Definition Update (d : D) (f : D -> outcome string D) : outcome string D :=
  match bolt_begin d with
  | Some e => Err e
  | None => tx ← f d; lift (bolt_commit d tx)
  end.

(** [NewBoltStore], after [bolt.Open]. *)
Definition NewBoltStore (d : D) : outcome string D :=
  match Update d (fun tx => tx ← lift (create_bucket tx bucketLog);
                            lift (create_bucket tx bucketStable)) with
  | Err e => Err ("boltstore: init buckets: " +:+ e)
  | r => r
  end.

(** ** The log *)

(** The index under the cursor; an empty bucket gives 0. *)
Definition index_of (k : option text) : outcome string Z :=
  match k with Some k => bytesToUint64 k | None => Ret 0 end.

Definition bolt_FirstIndex (d : D) : outcome string Z :=
  View d (fun tx => index_of (cursor_first tx bucketLog)).
Definition bolt_LastIndex (d : D) : outcome string Z :=
  View d (fun tx => index_of (cursor_last tx bucketLog)).

(** The pointer is not [nil] in any case; what it points to is what the decoder left. *)
Definition bolt_GetLog (d : D) (index : Z) : got :=
  match bolt_begin d with
  | Some e => NotGot (Some (zero log_codec)) e
  | None =>
      match bucket_get d bucketLog (uint64ToBytes index) with
      | None => NotGot (Some (zero log_codec)) "raft: log entry not found"
      | Some v =>
          let '(out, ok) := Unmarshal log_codec v (zero log_codec) in
          if ok then Got out else NotGot (Some out) "json: cannot unmarshal"
      end
  end.

Fixpoint put_logs (tx : D) (logs : list LogEntry) : outcome string D :=
  match logs with
  | [] => Ret tx
  | l :: logs' =>
      match bucket_put tx bucketLog (uint64ToBytes (Index l)) (Marshal log_codec l) with
      | inl e => Err ("put log " +:+ pretty (Index l) +:+ ": " +:+ e)
      | inr tx' => put_logs tx' logs'
      end
  end.

Definition bolt_StoreLogs (d : D) (logs : list LogEntry) : outcome string D :=
  Update d (fun tx => put_logs tx logs).

(** The loop of [DeleteRange] from the key under the cursor. *)
Fixpoint delete_keys (fuel : nat) (tx : D) (k : option text) (max : Z) : outcome string D :=
  match k with
  | None => Ret tx
  | Some key =>
      n ← bytesToUint64 key;
      if max <? n then Ret tx
      else
        tx' ← lift (cursor_delete tx bucketLog key);
        match fuel with
        | O => NoFuel
        | S fuel' => delete_keys fuel' tx' (cursor_next tx' bucketLog key) max
        end
  end.

Definition bolt_DeleteRange (d : D) (min max : Z) : outcome string D :=
  Update d (fun tx =>
    delete_keys (Z.to_nat (max - min + 1)) tx (cursor_seek tx bucketLog (uint64ToBytes min)) max).

(** ** The stable store *)

Definition bolt_Set (d : D) (key val : text) : outcome string D :=
  Update d (fun tx => lift (bucket_put tx bucketStable key val)).

(** A missing key gives an empty slice. *)
Definition bolt_Get (d : D) (key : text) : outcome string text :=
  View d (fun tx => Ret (default [] (bucket_get tx bucketStable key))).

Definition bolt_SetUint64 (d : D) (key : text) (val : Z) : outcome string D :=
  bolt_Set d key (uint64ToBytes val).

Definition bolt_GetUint64 (d : D) (key : text) : outcome string Z :=
  val ← bolt_Get d key;
  if zlen val =? 0 then Ret 0
  else if negb (zlen val =? 8) then Err "invalid uint64 value in stable store"
  else bytesToUint64 val.

(** ** The two interfaces

    [FirstIndex] and [LastIndex] of the interface have no panics; a key shorter than
    eight bytes, which the store never writes, would panic. *)
Definition index_result (m : outcome string Z) : Z * option string :=
  match m with Ret i => (i, None) | Err e => (0, Some e) | _ => (0, None) end.

#[export] Instance bolt_log : LogStore D := {
  FirstIndex d := index_result (bolt_FirstIndex d);
  LastIndex d := index_result (bolt_LastIndex d);
  GetLog := bolt_GetLog;
  StoreLogs := bolt_StoreLogs;
  DeleteRange := bolt_DeleteRange
}.

#[export] Instance bolt_stable : StableStore D := {
  Set_ := bolt_Set;
  Get := bolt_Get;
  SetUint64 := bolt_SetUint64;
  GetUint64 := bolt_GetUint64
}.

End store.

(** * What the library promises

    A bucket is a finite map; keys are in byte order. *)
Definition after (m : gmap (list byte) text) (P : text -> Prop) (k : option text) : Prop :=
  match k with
  | None => forall k', is_Some (m !! k') -> ~ P k'
  | Some k => is_Some (m !! k) /\ P k /\
      forall k', is_Some (m !! k') -> P k' -> str_leb k k' = true
  end.

Class BoltLaws (D : Type) `{Bolt D} := {
  bucket : D -> text -> gmap (list byte) text;
  create_bucket_law d b :
    (exists e, create_bucket d b = inl e) \/
    (exists d', create_bucket d b = inr d' /\ forall b', bucket d' b' = bucket d b');
  bucket_get_law d b k : bucket_get d b k = bucket d b !! k;
  bucket_put_law d b k v :
    (exists e, bucket_put d b k v = inl e) \/
    (exists d', bucket_put d b k v = inr d' /\ bucket d' b = <[k := v]> (bucket d b) /\
       forall b', b' <> b -> bucket d' b' = bucket d b');
  cursor_first_law d b : after (bucket d b) (fun _ => True) (cursor_first d b);
  cursor_last_law d b :
    match cursor_last d b with
    | None => bucket d b = ∅
    | Some k => is_Some (bucket d b !! k) /\
        forall k', is_Some (bucket d b !! k') -> str_leb k' k = true
    end;
  cursor_seek_law d b k : after (bucket d b) (fun k' => str_leb k k' = true) (cursor_seek d b k);
  cursor_delete_law d b k :
    is_Some (bucket d b !! k) ->
    (exists e, cursor_delete d b k = inl e) \/
    (exists d', cursor_delete d b k = inr d' /\ bucket d' b = delete k (bucket d b) /\
       forall b', b' <> b -> bucket d' b' = bucket d b');
  bolt_commit_law d tx :
    (exists e, bolt_commit d tx = inl e) \/
    (exists d', bolt_commit d tx = inr d' /\ bolt_begin d' = None /\
       forall b, bucket d' b = bucket tx b);
  bolt_close_law d : exists e, bolt_begin (bolt_close d) = Some e
}.

(** What the loop of [DeleteRange] relies on besides: [Next] goes on after the key under the
    cursor when that key has just been deleted. The library does not promise it: the
    documentation of [Cursor] asks to reposition the cursor after a change of the data. *)
Class BoltCursor (D : Type) `{BoltLaws D} := {
  cursor_next_deleted d b k : bucket d b !! k = None ->
    after (bucket d b) (fun k' => str_leb k' k = false) (cursor_next d b k)
}.

(** * Keys *)

Abbreviation key := uint64ToBytes.

Lemma key_leb v w : 0 <= v <= max_uint -> 0 <= w <= max_uint -> str_leb (key v) (key w) = (v <=? w).
Proof.
  intros Hv Hw. unfold uint64ToBytes. rewrite str_leb_decode by (by rewrite !length_be_encode).
  rewrite !be_decode_encode by lia. unfold max_uint in *. by rewrite !Z.mod_small by lia.
Qed.

Lemma key_length v : zlen (key v) = 8.
Proof. unfold uint64ToBytes, zlen. by rewrite length_be_encode. Qed.

Lemma key_inj v w : 0 <= v <= max_uint -> 0 <= w <= max_uint -> key v = key w -> v = w.
Proof.
  intros Hv Hw E. pose proof (uint64_roundtrip v Hv) as Ev. rewrite E, uint64_roundtrip in Ev by done.
  by injection Ev.
Qed.

(** * A bucket that holds a log

    The entries of [l] below the index [k] and from [j] on, each under its index. *)
Record holds (m : gmap (list byte) text) (l : list LogEntry) (k j : Z) : Prop := mk_holds {
  ho_hit i e : l !! Z.to_nat (i - 1) = Some e -> 1 <= i -> i < k \/ j <= i ->
    m !! key i = Some (Marshal log_codec e);
  ho_keys x : is_Some (m !! x) -> exists i, x = key i /\ 1 <= i <= zlen l /\ (i < k \/ j <= i)
}.

Definition holds_all m l : Prop := holds m l 1 1.

Lemma holds_lookup m l i :
  holds_all m l -> zlen l <= max_uint -> 0 <= i <= max_uint ->
  m !! key i = if 1 <=? i then Marshal log_codec <$> l !! Z.to_nat (i - 1) else None.
Proof.
  intros [Hh Hk] Hz Hi. destruct (m !! key i) as [v|] eqn:E.
  - destruct (Hk (key i) ltac:(eauto)) as (i'&E'&Hi'&_). apply key_inj in E' as ->; [|lia..].
    destruct (Z.leb_spec 1 i'); [|lia]. destruct (l !! Z.to_nat (i' - 1)) as [e|] eqn:El.
    + rewrite (Hh i' e El) in E by lia. by injection E as <-.
    + apply lookup_ge_None_1 in El. unfold zlen in *. lia.
  - destruct (Z.leb_spec 1 i); [|done]. destruct (l !! Z.to_nat (i - 1)) as [e|] eqn:El; [|done].
    rewrite (Hh i e El) in E by lia. done.
Qed.

Lemma holds_empty m : (forall x, ~ is_Some (m !! x)) -> holds_all m [].
Proof. intros Hm. split; [intros i e He; done|]. intros x Hx. by destruct (Hm x). Qed.

Lemma holds_put m l e :
  holds_all m l -> Index e = zlen l + 1 -> zlen l < max_uint ->
  holds_all (<[key (Index e) := Marshal log_codec e]> m) (l ++ [e]).
Proof.
  intros [Hh Hk] -> Hz. zlen_facts. split.
  - intros i x Hx Hi _. apply lookup_snoc_Some in Hx as [[Hlt Hx]|[Hlt <-]].
    + rewrite lookup_insert_ne; [by apply Hh; [| |right]|].
      intros E. apply key_inj in E; unfold zlen in *; lia.
    + assert (i = zlen l + 1) as -> by (unfold zlen; lia). by rewrite lookup_insert_eq.
  - intros x Hx. rewrite zlen_app, zlen_cons, zlen_nil. apply lookup_insert_is_Some in Hx as [<-|[_ Hx]].
    + exists (zlen l + 1). split; [done|lia].
    + destruct (Hk x Hx) as (i&->&Hi&_). exists i. split; [done|lia].
Qed.

(** The smallest key from the index [j] on. *)
Lemma holds_next m l k j c :
  holds m l k j -> 1 <= k <= j -> zlen l < max_uint -> j <= zlen l + 1 ->
  after m (fun x => str_leb (key j) x = true) c ->
  c = if j <=? zlen l then Some (key j) else None.
Proof.
  intros [Hh Hk] Hkj Hz Hj Hc. destruct (Z.leb_spec j (zlen l)) as [Hle|Hgt].
  - destruct (lookup_lt_is_Some_2 l (Z.to_nat (j - 1))) as [e He]; [unfold zlen in *; lia|].
    assert (is_Some (m !! key j)) as Hin.
    { exists (Marshal log_codec e). apply Hh; [done|lia|lia]. }
    destruct c as [x|].
    + destruct Hc as (Hx&Hge&Hmin). f_equal. apply str_leb_antisym; [|done].
      apply Hmin; [done|]. by rewrite str_leb_refl.
    + exfalso. apply (Hc (key j) Hin). by rewrite str_leb_refl.
  - destruct c as [x|]; [|done]. exfalso. destruct Hc as (Hx&Hge&_).
    destruct (Hk x Hx) as (i&->&Hi&Hor). rewrite key_leb in Hge by lia. apply Z.leb_le in Hge. lia.
Qed.

Lemma holds_delete m l k j :
  holds m l k j -> 1 <= k <= j -> j <= zlen l < max_uint -> holds (delete (key j) m) l k (j + 1).
Proof.
  intros [Hh Hk] Hkj Hj. split.
  - intros i e He Hi Hor. rewrite lookup_delete_ne.
    + apply Hh; [done|done|lia].
    + intros E. apply lookup_lt_Some in He. apply key_inj in E; unfold zlen in *; lia.
  - intros x Hx. rewrite lookup_delete_is_Some in Hx. destruct Hx as [Hne Hx].
    destruct (Hk x Hx) as (i&->&Hi&Hor). exists i. split_and!; [done|lia|lia|].
    destruct Hor as [?|Hor]; [by left|]. right. assert (i <> j) by (intros ->; done). lia.
Qed.

Lemma holds_take m l k :
  holds m l k (zlen l + 1) -> 1 <= k <= zlen l -> holds_all m (take (Z.to_nat (k - 1)) l).
Proof.
  intros [Hh Hk] Hle. split.
  - intros i e He Hi _. apply lookup_take_Some in He as [He Hlt]. apply Hh; [done|done|lia].
  - intros x Hx. destruct (Hk x Hx) as (i&->&Hi&Hor). exists i. split; [done|].
    rewrite zlen_take. lia.
Qed.

Lemma holds_weaken m l k : holds_all m l -> holds m l k k.
Proof.
  intros [Hh Hk]. split.
  - intros i e He Hi _. by apply Hh; [| |right].
  - intros x Hx. destruct (Hk x Hx) as (i&->&Hi&_). exists i. split_and!; [done|lia|lia|lia].
Qed.

(** * The store keeps the promises *)

Section laws.
  Context {D : Type} `{BoltLaws D}.
  Implicit Types d : D.

Record bolt_repr d (l : list LogEntry) : Prop := mk_bolt_repr {
  br_open : bolt_begin d = None;
  br_numbered : numbered 1 l;
  br_size : zlen l <= max_uint;
  br_log : holds_all (bucket d bucketLog) l
}.

Lemma Update_spec d f :
  (exists e, Update d f = Err e) \/ Update d f = Panic \/ Update d f = NoFuel \/
  (exists tx d', f d = Ret tx /\ Update d f = Ret d' /\ bolt_begin d = None /\ bolt_begin d' = None /\
     forall b, bucket d' b = bucket tx b).
Proof.
  unfold Update. destruct (bolt_begin d) as [e|]; [eauto|].
  destruct (f d) as [tx|e| |] eqn:E; cbn [mbind outcome_bind]; [|eauto..].
  destruct (bolt_commit_law d tx) as [[e ->]|(d'&->&Hb&Hd)]; cbn [lift]; [eauto|].
  right; right; right. by exists tx, d'.
Qed.

(** An update whose function returns, with an error or a state, does too. *)
Lemma Update_ret d f (P : D -> Prop) :
  bolt_begin d = None -> (exists e, f d = Err e) \/ (exists tx, f d = Ret tx /\ P tx) ->
  (exists e, Update d f = Err e) \/
  (exists tx d', P tx /\ Update d f = Ret d' /\ bolt_begin d' = None /\
     forall b, bucket d' b = bucket tx b).
Proof.
  unfold Update. intros -> [[e ->]|(tx&->&HP)]; cbn [mbind outcome_bind]; [eauto|].
  destruct (bolt_commit_law d tx) as [[e ->]|(d'&->&Hb&Hd)]; cbn [lift]; [eauto|].
  right. by exists tx, d'.
Qed.

(** ** Reading *)

Lemma bolt_last_index d l : bolt_repr d l -> LastIndex d = (zlen l, None).
Proof.
  intros [Ho _ Hz [Hh Hk]]. cbn [LastIndex bolt_log]. unfold bolt_LastIndex, View. rewrite Ho.
  pose proof (cursor_last_law d bucketLog) as Hl. zlen_facts.
  destruct (cursor_last d bucketLog) as [x|]; cbn [index_of].
  - destruct Hl as [Hx Hmax]. destruct (Hk x Hx) as (i&->&Hi&_).
    rewrite uint64_roundtrip by lia. cbn. f_equal.
    destruct (lookup_lt_is_Some_2 l (Z.to_nat (zlen l - 1))) as [e He]; [unfold zlen in *; lia|].
    specialize (Hmax (key (zlen l)) ltac:(eexists; apply (Hh _ e He); lia)).
    rewrite key_leb in Hmax by lia. apply Z.leb_le in Hmax. lia.
  - destruct l as [|e l]; [done|]. rewrite zlen_cons in *. zlen_facts.
    assert (bucket d bucketLog !! key 1 = Some (Marshal log_codec e)) as E
      by (apply Hh; [done|lia|lia]). by rewrite Hl, lookup_empty in E.
Qed.

Lemma bolt_first_index d l : bolt_repr d l -> FirstIndex d = (if bool_decide (l = []) then 0 else 1, None).
Proof.
  intros [Ho _ Hz [Hh Hk]]. cbn [FirstIndex bolt_log]. unfold bolt_FirstIndex, View. rewrite Ho.
  pose proof (cursor_first_law d bucketLog) as Hf. zlen_facts.
  destruct l as [|e l]; [rewrite bool_decide_true by done|rewrite bool_decide_false by done].
  - destruct (cursor_first d bucketLog) as [x|]; [|done]. destruct Hf as [Hx _].
    destruct (Hk x Hx) as (i&_&Hi&_). rewrite zlen_nil in Hi. lia.
  - rewrite zlen_cons in *. zlen_facts.
    assert (is_Some (bucket d bucketLog !! key 1)) as Hin1
      by (exists (Marshal log_codec e); apply Hh; [done|lia|lia]).
    destruct (cursor_first d bucketLog) as [x|]; [|by destruct (Hf _ Hin1)]. destruct Hf as (Hx&_&Hmin).
    destruct (Hk x Hx) as (i&->&Hi&_). specialize (Hmin _ Hin1 I). rewrite key_leb in Hmin by lia.
    apply Z.leb_le in Hmin. assert (i = 1) as -> by lia. cbn [index_of]. by rewrite uint64_roundtrip by lia.
Qed.

Lemma bolt_get_log d l i :
  bolt_repr d l -> 0 <= i <= max_uint ->
  GetLog d i = match (if 1 <=? i then l !! Z.to_nat (i - 1) else None) with
               | Some e => Got e
               | None => NotGot (Some (zero log_codec)) "raft: log entry not found"
               end.
Proof.
  intros [Ho Hn Hz Hl] Hi. cbn [GetLog bolt_log]. unfold bolt_GetLog. rewrite Ho, bucket_get_law.
  rewrite (holds_lookup _ l) by done. destruct (Z.leb_spec 1 i); [|done].
  destruct (l !! Z.to_nat (i - 1)) as [e|] eqn:E; [|done]. cbn [fmap option_fmap option_map].
  destruct (Hn _ _ E) as [Hx Ht].
  rewrite (unmarshal_marshal log_codec 1 log_fits id); [done|apply log_lawful|apply max_depth_le; lia|].
  split; [|done]. apply lookup_lt_Some in E. unfold uint_fits, zlen in *. lia.
Qed.

(** ** Writing *)

Lemma put_logs_spec es : forall d l,
  holds_all (bucket d bucketLog) l -> numbered (zlen l + 1) es -> zlen l + zlen es <= max_uint ->
  (exists e, put_logs d es = Err e) \/
  (exists tx, put_logs d es = Ret tx /\
     (holds_all (bucket tx bucketLog) (l ++ es) /\ bucket tx bucketStable = bucket d bucketStable)).
Proof.
  induction es as [|e es IH]; intros d l Hl Hn Hz; cbn [put_logs].
  { right. exists d. rewrite app_nil_r. done. }
  apply numbered_cons in Hn as [[Hi _] Hn]. rewrite zlen_cons in Hz. zlen_facts.
  destruct (bucket_put_law d bucketLog (key (Index e)) (Marshal log_codec e))
    as [[err ->]|(d'&->&Hb&Hb')]; [left; by eexists|].
  destruct (IH d' (l ++ [e])) as [?|(tx&->&Hl'&Hs)].
  - rewrite Hb. apply holds_put; [done|done|lia].
  - by rewrite zlen_app, zlen_cons, zlen_nil.
  - rewrite zlen_app, zlen_cons, zlen_nil. lia.
  - by left.
  - right. exists tx. split; [done|]. rewrite <-app_assoc in Hl'. split; [done|].
    by rewrite Hs, Hb'.
Qed.

Lemma bolt_store d l es :
  bolt_repr d l -> numbered (zlen l + 1) es -> zlen l + zlen es <= max_uint ->
  (exists err, StoreLogs d es = Err err) \/
  (exists d', StoreLogs d es = Ret d' /\ bolt_repr d' (l ++ es) /\
     bucket d' bucketStable = bucket d bucketStable).
Proof.
  intros [Ho Hn Hz Hl] Hes Hsz. destruct (Update_ret d (fun tx => put_logs tx es) _ Ho
    (put_logs_spec es d l Hl Hes Hsz)) as [He|(tx&d'&[Hl' Hs]&Hu&Ho'&Hb)]; [by left|].
  right. exists d'. split; [done|]. split; [|by rewrite Hb]. split; [done| | |by rewrite Hb].
  - apply numbered_app. split; [done|]. by rewrite Z.add_comm.
  - by rewrite zlen_app.
Qed.

(** ** The stable store *)

Lemma bolt_set d k v :
  (exists e, bolt_Set d k v = Err e) \/
  (exists d', bolt_Set d k v = Ret d' /\ bolt_begin d = None /\ bolt_begin d' = None /\
     bucket d' bucketStable = <[k := v]> (bucket d bucketStable) /\
     bucket d' bucketLog = bucket d bucketLog).
Proof.
  unfold bolt_Set. destruct (bolt_begin d) as [e|] eqn:Ho; [left; exists e; unfold Update; by rewrite Ho|].
  destruct (Update_ret d (fun tx => lift (bucket_put tx bucketStable k v))
    (fun tx => bucket tx bucketStable = <[k := v]> (bucket d bucketStable) /\
               bucket tx bucketLog = bucket d bucketLog) Ho) as [?|(tx&d'&[H1' H2']&?&?&Hb)].
  - destruct (bucket_put_law d bucketStable k v) as [[e ->]|(d'&->&Hb&Hb')]; [left; by eexists|].
    right. exists d'. split; [done|]. split; [done|]. by apply Hb'.
  - by left.
  - right. exists d'. by rewrite !Hb.
Qed.

Lemma bolt_get d k :
  bolt_begin d = None -> bolt_Get d k = Ret (default [] (bucket d bucketStable !! k)).
Proof. intros Ho. unfold bolt_Get, View. by rewrite Ho, bucket_get_law. Qed.

Lemma bolt_get_same d d' k k' v :
  bolt_begin d = None -> bolt_begin d' = None ->
  bucket d' bucketStable = <[k := v]> (bucket d bucketStable) -> k' <> k ->
  bolt_Get d' k' = bolt_Get d k'.
Proof. intros Ho Ho' Hb Hne. rewrite !bolt_get, Hb by done. by rewrite lookup_insert_ne. Qed.

#[export] Program Instance bolt_stable_spec : StableStoreSpec D.
Next Obligation.
  intros d k v. cbn. destruct (bolt_set d k v) as [?|(d'&Hs&Ho&Ho'&Hb&_)]; [by left|]. right.
  exists d'. split; [done|]. split.
  - rewrite bolt_get, Hb by done. by rewrite lookup_insert_eq.
  - intros k' Hne. pose proof (bolt_get_same d d' k k' v Ho Ho' Hb Hne) as E. split; [done|].
    unfold bolt_GetUint64. by rewrite E.
Qed.
Next Obligation.
  intros d k v. cbn. unfold bolt_SetUint64.
  destruct (bolt_set d k (key v)) as [?|(d'&Hs&Ho&Ho'&Hb&_)]; [by left|]. right.
  exists d'. split; [done|]. split.
  - intros Hv. unfold bolt_GetUint64. rewrite bolt_get, Hb by done. rewrite lookup_insert_eq.
    change (default [] (Some (key v))) with (key v). cbn [mbind outcome_bind]. rewrite key_length. by apply uint64_roundtrip.
  - intros k' Hne. pose proof (bolt_get_same d d' k k' _ Ho Ho' Hb Hne) as E. split; [done|].
    unfold bolt_GetUint64. by rewrite E.
Qed.

(** ** Opening *)

Lemma NewBoltStore_keeps d :
  (exists e, NewBoltStore d = Err e) \/
  (exists d', NewBoltStore d = Ret d' /\ bolt_begin d' = None /\ forall b, bucket d' b = bucket d b).
Proof.
  unfold NewBoltStore. destruct (bolt_begin d) as [e|] eqn:Ho.
  { left. unfold Update. rewrite Ho. eauto. }
  destruct (Update_ret d (fun tx => tx ← lift (create_bucket tx bucketLog);
      lift (create_bucket tx bucketStable)) (fun tx => forall b, bucket tx b = bucket d b) Ho)
    as [[e ->]|(tx&d'&Hs&->&Ho'&Hb)]; [|by left; eexists|].
  - destruct (create_bucket_law d bucketLog) as [[e ->]|(d1&->&H1')];
      cbn [lift mbind outcome_bind]; [eauto|].
    destruct (create_bucket_law d1 bucketStable) as [[e ->]|(d2&->&H2')];
      cbn [lift]; [eauto|].
    right. exists d2. split; [done|]. intros b. by rewrite H2', H1'.
  - right. exists d'. split; [done|]. split; [done|]. intros b. by rewrite Hb, Hs.
Qed.

(** ** Closing *)

(** After [Close] every operation fails. *)
Lemma bolt_closed d : exists e, forall es i k v,
  LastIndex (bolt_close d) = (0, Some e) /\ StoreLogs (bolt_close d) es = Err e /\
  GetLog (bolt_close d) i = NotGot (Some (zero log_codec)) e /\ Set_ (bolt_close d) k v = Err e /\
  Get (bolt_close d) k = Err e.
Proof.
  destruct (bolt_close_law d) as [e He]. exists e. intros es i k v.
  cbn [LastIndex StoreLogs GetLog Set_ Get bolt_log bolt_stable].
  unfold bolt_LastIndex, bolt_StoreLogs, bolt_GetLog, bolt_Set, bolt_Get, View, Update. by rewrite He.
Qed.

(** ** Deleting, and all promises of a log *)

Section cursor.
  Context `{!BoltCursor D}.

Lemma delete_keys_spec fuel : forall d l k j c,
  holds (bucket d bucketLog) l k j -> 1 <= k <= j -> j <= zlen l + 1 -> zlen l < max_uint ->
  after (bucket d bucketLog) (fun x => str_leb (key j) x = true) c ->
  zlen l + 1 - j <= Z.of_nat fuel ->
  (exists e, delete_keys fuel d c (zlen l) = Err e) \/
  (exists tx, delete_keys fuel d c (zlen l) = Ret tx /\
     (holds (bucket tx bucketLog) l k (zlen l + 1) /\ bucket tx bucketStable = bucket d bucketStable)).
Proof.
  induction fuel as [|fuel IH]; intros d l k j c Hh Hkj Hj Hz Hc Hf;
    rewrite (holds_next _ _ _ _ _ Hh Hkj Hz Hj Hc);
    (destruct (Z.leb_spec j (zlen l)) as [Hle|Hgt];
      [|right; exists d; replace (zlen l + 1) with j by lia; done]); [lia|].
  cbn [delete_keys]. rewrite uint64_roundtrip by lia. cbn [mbind outcome_bind].
  destruct (Z.ltb_spec (zlen l) j); [lia|].
  assert (is_Some (bucket d bucketLog !! key j)) as Hin.
  { destruct (lookup_lt_is_Some_2 l (Z.to_nat (j - 1))) as [e He]; [unfold zlen in *; lia|].
    eexists. apply (ho_hit _ _ _ _ Hh _ e He); lia. }
  destruct (cursor_delete_law d bucketLog (key j) Hin) as [[e ->]|(d'&->&Hb&Hb')];
    cbn [lift mbind outcome_bind]; [left; by eexists|].
  assert (holds (bucket d' bucketLog) l k (j + 1)) as Hh'.
  { rewrite Hb. by apply holds_delete. }
  destruct (IH d' l k (j + 1) (cursor_next d' bucketLog (key j))) as [?|(tx&->&Htx&Hs)];
    [done|lia|lia|done| |lia|by left|].
  - assert (bucket d' bucketLog !! key j = None) as Hgone by (by rewrite Hb, lookup_delete_eq).
    pose proof (cursor_next_deleted d' bucketLog (key j) Hgone) as Hc'.
    assert (forall x, is_Some (bucket d' bucketLog !! x) ->
      str_leb x (key j) = negb (str_leb (key (j + 1)) x)) as Heq.
    { intros x Hx. destruct (ho_keys _ _ _ _ Hh' x Hx) as (i&->&Hi&_).
      rewrite !key_leb by lia. destruct (Z.leb_spec i j), (Z.leb_spec (j + 1) i); done || lia. }
    destruct (cursor_next d' bucketLog (key j)) as [x|]; cbn [after] in *.
    + destruct Hc' as (Hx&Hge&Hmin). split_and!; [done| |].
      * rewrite Heq in Hge by done. by apply negb_false_iff in Hge.
      * intros y Hy Hyj. apply Hmin; [done|]. by rewrite Heq, Hyj.
    + intros y Hy Hyj. apply (Hc' y Hy). by rewrite Heq, Hyj.
  - right. exists tx. split; [done|]. split; [done|]. rewrite Hs. by apply Hb'.
Qed.

Lemma bolt_delete d l k :
  bolt_repr d l -> 1 <= k <= zlen l -> zlen l < max_uint ->
  (exists err, DeleteRange d k (zlen l) = Err err) \/
  (exists d', DeleteRange d k (zlen l) = Ret d' /\ bolt_repr d' (take (Z.to_nat (k - 1)) l) /\
     bucket d' bucketStable = bucket d bucketStable).
Proof.
  intros [Ho Hn Hz Hl] Hk Hsz.
  destruct (Update_ret d (fun tx => delete_keys (Z.to_nat (zlen l - k + 1)) tx
    (cursor_seek tx bucketLog (key k)) (zlen l)) _ Ho
    (delete_keys_spec (Z.to_nat (zlen l - k + 1)) d l k k _ (holds_weaken _ _ k Hl) ltac:(lia) ltac:(lia) Hsz
      (cursor_seek_law d bucketLog (key k)) ltac:(lia)))
    as [He|(tx&d'&[Hl' Hs]&Hu&Ho'&Hb)]; [by left|].
  right. exists d'. split; [done|]. split; [|by rewrite Hb]. split; [done|by apply numbered_take| |].
  - rewrite zlen_take. lia.
  - rewrite Hb. by apply holds_take.
Qed.

#[export] Program Instance bolt_log_spec : LogStoreSpec D := { repr := bolt_repr }.
Next Obligation. intros d l Hr. apply Hr. Qed.
Next Obligation. intros d l Hr. by apply bolt_last_index. Qed.
Next Obligation.
  intros d l i e Hr Hi He. pose proof (br_size _ _ Hr). pose proof (lookup_lt_Some _ _ _ He).
  rewrite (bolt_get_log d l) by (unfold zlen in *; done || lia).
  destruct (Z.leb_spec 1 i); [|lia]. by rewrite He.
Qed.
Next Obligation.
  intros d l i Hr Hi Hout. rewrite (bolt_get_log d l) by done.
  destruct (Z.leb_spec 1 i); [|by eexists _, _].
  rewrite lookup_ge_None_2 by (unfold zlen in *; lia). by eexists _, _.
Qed.
Next Obligation.
  intros d l es Hr Hes Hz. destruct (bolt_store d l es Hr Hes Hz) as [?|(d'&?&?&_)]; [by left|].
  right. by exists d'.
Qed.
Next Obligation.
  intros d l k Hr Hk Hz. destruct (bolt_delete d l k Hr Hk Hz) as [?|(d'&?&?&_)]; [by left|].
  right. by exists d'.
Qed.

End cursor.

End laws.

(** * A library in memory

    Buckets as finite maps, whose operations do not fail until the database is closed: the
    laws can hold. *)
Record MapDB : Type := mkMapDB { db_closed : bool; db_buckets : gmap (list byte) (gmap (list byte) text) }.

#[export] Instance MapDB_empty : Empty MapDB := mkMapDB false ∅.

Definition least (ks : list text) : option text :=
  foldr (fun k o => match o with Some m => if str_leb k m then Some k else o | None => Some k end)
    None ks.
Definition greatest (ks : list text) : option text :=
  foldr (fun k o => match o with Some m => if str_leb m k then Some k else o | None => Some k end)
    None ks.

Definition db_bucket (d : MapDB) (b : text) : gmap (list byte) text := default ∅ (db_buckets d !! b).
Definition set_bucket (b : text) (m : gmap (list byte) text) (d : MapDB) : MapDB :=
  mkMapDB (db_closed d) (<[b := m]> (db_buckets d)).
Definition db_keys (d : MapDB) (b : text) : list text := (map_to_list (db_bucket d b)).*1.

#[export] Instance map_bolt : Bolt MapDB := {
  bolt_begin d := if db_closed d then Some "database not open"%string else None;
  bolt_commit _ tx := if db_closed tx then inl "database not open"%string else inr tx;
  bolt_close d := mkMapDB true (db_buckets d);
  create_bucket d b := inr (set_bucket b (db_bucket d b) d);
  bucket_get d b k := db_bucket d b !! k;
  bucket_put d b k v := inr (set_bucket b (<[k := v]> (db_bucket d b)) d);
  cursor_first d b := least (db_keys d b);
  cursor_last d b := greatest (db_keys d b);
  cursor_seek d b k := least (List.filter (str_leb k) (db_keys d b));
  cursor_next d b k := least (List.filter (fun k' => negb (str_leb k' k)) (db_keys d b));
  cursor_delete d b k := inr (set_bucket b (delete k (db_bucket d b)) d)
}.

Lemma least_spec ks :
  match least ks with
  | None => ks = []
  | Some k => k ∈ ks /\ forall k', k' ∈ ks -> str_leb k k' = true
  end.
Proof.
  induction ks as [|k ks IH]; [done|]. cbn [least foldr]. fold (least ks).
  destruct (least ks) as [m|].
  - destruct IH as [Hm Hmin]. destruct (str_leb k m) eqn:E.
    + split; [by left|]. intros k' [->|Hk']%elem_of_cons; [apply str_leb_refl|].
      by apply (str_leb_trans k m), Hmin.
    + split; [by right|]. intros k' [->|Hk']%elem_of_cons; [by apply str_leb_total|by apply Hmin].
  - subst ks. split; [by left|]. intros k' ->%list_elem_of_singleton. apply str_leb_refl.
Qed.

Lemma greatest_spec ks :
  match greatest ks with
  | None => ks = []
  | Some k => k ∈ ks /\ forall k', k' ∈ ks -> str_leb k' k = true
  end.
Proof.
  induction ks as [|k ks IH]; [done|]. cbn [greatest foldr]. fold (greatest ks).
  destruct (greatest ks) as [m|].
  - destruct IH as [Hm Hmax]. destruct (str_leb m k) eqn:E.
    + split; [by left|]. intros k' [->|Hk']%elem_of_cons; [apply str_leb_refl|].
      apply (str_leb_trans k' m); [by apply Hmax|done].
    + split; [by right|]. intros k' [->|Hk']%elem_of_cons; [by apply str_leb_total|by apply Hmax].
  - subst ks. split; [by left|]. intros k' ->%list_elem_of_singleton. apply str_leb_refl.
Qed.

Lemma db_keys_spec d b k : k ∈ db_keys d b <-> is_Some (db_bucket d b !! k).
Proof.
  unfold db_keys. rewrite list_elem_of_fmap. split.
  - intros ([k' v]&->&Hk%elem_of_map_to_list). by exists v.
  - intros [v Hv]. exists (k, v). split; [done|]. by apply elem_of_map_to_list.
Qed.

Lemma least_after d b (f : text -> bool) :
  after (db_bucket d b) (fun k => f k = true) (least (List.filter f (db_keys d b))).
Proof.
  assert (forall k, k ∈ List.filter f (db_keys d b) <-> is_Some (db_bucket d b !! k) /\ f k = true) as Hf.
  { intros k. by rewrite list_elem_of_In, filter_In, <-list_elem_of_In, db_keys_spec. }
  pose proof (least_spec (List.filter f (db_keys d b))) as Hl.
  destruct (least _) as [k|]; cbn [after].
  - destruct Hl as [[Hk Hfk]%Hf Hmin]. split_and!; [done|done|]. intros k' Hk' Hfk'. by apply Hmin, Hf.
  - intros k Hk Hfk. assert (k ∈ List.filter f (db_keys d b)) as Hin by (by apply Hf).
    rewrite Hl in Hin. by apply elem_of_nil in Hin.
Qed.

Lemma db_bucket_insert d b m b' : db_bucket (set_bucket b m d) b' = if decide (b' = b) then m else db_bucket d b'.
Proof.
  unfold db_bucket. cbn. destruct (decide (b' = b)) as [->|Hne]; [by rewrite lookup_insert_eq|].
  by rewrite lookup_insert_ne.
Qed.

#[export] Program Instance map_bolt_laws : BoltLaws MapDB := { bucket := db_bucket }.
Next Obligation.
  intros d b. right. eexists. split; [done|]. intros b'. rewrite db_bucket_insert. by case_decide; subst.
Qed.
Next Obligation. done. Qed.
Next Obligation.
  intros d b k v. right. eexists. split; [done|]. split; [|intros b' Hb]; rewrite db_bucket_insert; by case_decide.
Qed.
Next Obligation.
  intros d b. cbn. pose proof (least_spec (db_keys d b)) as Hl. destruct (least _) as [k|].
  - destruct Hl as [Hk Hmin]. split_and!; [by apply db_keys_spec|done|]. intros k' Hk' _.
    by apply Hmin, db_keys_spec.
  - intros k Hk%db_keys_spec _. rewrite Hl in Hk. by apply elem_of_nil in Hk.
Qed.
Next Obligation.
  intros d b. cbn. pose proof (greatest_spec (db_keys d b)) as Hl. destruct (greatest _) as [k|].
  - destruct Hl as [Hk Hmax]. split; [by apply db_keys_spec|]. intros k' Hk'. by apply Hmax, db_keys_spec.
  - apply map_empty. intros k. destruct (db_bucket d b !! k) eqn:E; [|done].
    assert (k ∈ db_keys d b) as Hk by (apply db_keys_spec; eauto). rewrite Hl in Hk. by apply elem_of_nil in Hk.
Qed.
Next Obligation. intros d b k. apply (least_after d b (str_leb k)). Qed.
Next Obligation.
  intros d b k _. right. eexists. split; [done|]. split; [|intros b' Hb]; rewrite db_bucket_insert; by case_decide.
Qed.
Next Obligation.
  intros d tx. cbn. destruct (db_closed tx) eqn:E; [left; by eexists|right]. exists tx. by rewrite E.
Qed.
Next Obligation. intros d. by eexists. Qed.

#[export] Program Instance map_bolt_cursor : BoltCursor MapDB.
Next Obligation.
  intros d b k _. pose proof (least_after d b (fun k' => negb (str_leb k' k))) as Hl. cbn.
  destruct (least _) as [x|]; cbn [after] in *.
  - destruct Hl as (Hx&Hn&Hmin). split_and!; [done|by apply negb_true_iff|].
    intros k' Hk' Hf. apply Hmin; [done|by apply negb_true_iff].
  - intros k' Hk' Hf. apply (Hl k' Hk'). by apply negb_true_iff.
Qed.

(** * Properties *)

(** What the operations of the interface read from a store that holds the log [l]. *)
Record reads_as {D} `{Bolt D} (d : D) (l : list LogEntry) : Prop := mk_reads_as {
  ra_first : FirstIndex d = (if bool_decide (l = []) then 0 else 1, None);
  ra_last : LastIndex d = (zlen l, None);
  ra_get i : 0 <= i <= max_uint ->
    GetLog d i = match (if 1 <=? i then l !! Z.to_nat (i - 1) else None) with
                 | Some e => Got e
                 | None => NotGot (Some (zero log_codec)) "raft: log entry not found"
                 end
}.

Lemma bolt_reads_as {D} `{BoltLaws D} (d : D) l : bolt_repr d l -> reads_as d l.
Proof.
  intros Hr. split; [by apply bolt_first_index|by apply bolt_last_index|]. intros i Hi. by apply bolt_get_log.
Qed.

(** The same buckets, opened again. *)
Lemma reopened {D} `{BoltLaws D} (d : D) l : bolt_repr d l ->
  (exists err, NewBoltStore d = Err err) \/
  (exists d', NewBoltStore d = Ret d' /\ bolt_repr d' l /\ forall k, Get d' k = Get d k).
Proof.
  intros [Ho H1' H2' H3']. destruct (NewBoltStore_keeps d) as [?|(d'&E&Ho'&Hb)]; [by left|]. right.
  exists d'. split; [done|]. split; [split; [done..|by rewrite Hb]|]. intros k. cbn [Get bolt_stable].
  by rewrite !bolt_get, Hb.
Qed.

(** A change of the stable bucket. *)
Lemma bolt_set_keeps {D} `{BoltLaws D} (d : D) l k v : bolt_repr d l ->
  (exists err, Set_ d k v = Err err) \/
  (exists d', Set_ d k v = Ret d' /\ bolt_repr d' l /\ Get d' k = Ret v /\ forall k', k' <> k -> Get d' k' = Get d k').
Proof.
  intros [Ho H1' H2' H3']. destruct (bolt_set d k v) as [?|(d'&E&_&Ho'&Hb&Hl)]; [by left|]. right.
  exists d'. split; [done|]. split; [split; [done..|by rewrite Hl]|]. cbn [Get bolt_stable]. split.
  - rewrite bolt_get, Hb by done. by rewrite lookup_insert_eq.
  - intros k' Hne. by apply (bolt_get_same d d' k k' v).
Qed.

(** C30: what [BoltStore] has written, it reads back, also after the file has been opened
    again; with no more than the documentation of bbolt promises (so not for
    [DeleteRange]). On a store that holds the log [l], [StoreLogs] of the next entries
    either fails, or the store then holds [l] and the new entries, at their indexes and at
    no others, and the term and the vote as before; [Set] and [SetUint64] either fail, or
    the value is read back, the other keys are as before, and the log is. *)
Theorem BoltStore_keeps {D} `{BoltLaws D} (d : D) l :
  bolt_repr d l ->
  reads_as d l /\
  (forall es, numbered (zlen l + 1) es -> zlen l + zlen es <= max_uint ->
     let run := d1 ← StoreLogs d es; NewBoltStore d1 in
     (exists err, run = Err err) \/
     (exists d', run = Ret d' /\ reads_as d' (l ++ es) /\ forall k, Get d' k = Get d k)) /\
  (forall k v,
     let run := d1 ← Set_ d k v; NewBoltStore d1 in
     (exists err, run = Err err) \/
     (exists d', run = Ret d' /\ reads_as d' l /\ Get d' k = Ret v /\ forall k', k' <> k -> Get d' k' = Get d k')) /\
  (forall k v, 0 <= v <= max_uint ->
     let run := d1 ← SetUint64 d k v; NewBoltStore d1 in
     (exists err, run = Err err) \/
     (exists d', run = Ret d' /\ reads_as d' l /\ GetUint64 d' k = Ret v /\ forall k', k' <> k -> Get d' k' = Get d k')).
Proof.
  intros Hr. assert (forall k v, let run := d1 ← Set_ d k v; NewBoltStore d1 in
     (exists err, run = Err err) \/
     (exists d', run = Ret d' /\ reads_as d' l /\ Get d' k = Ret v /\ forall k', k' <> k -> Get d' k' = Get d k')) as Hset.
  { intros k v. destruct (bolt_set_keeps d l k v Hr) as [[err E]|(d1&E&Hr1&Hv&Ho)]; cbv zeta; rewrite E;
      cbn [mbind outcome_bind]; [left; by eexists|].
    destruct (reopened d1 l Hr1) as [[err ->]|(d'&->&Hr'&Hg)]; [left; by eexists|right].
    exists d'. rewrite Hg. split_and!; [done|by apply bolt_reads_as|done|]. intros k' Hne. rewrite Hg. by apply Ho. }
  split_and!; [by apply bolt_reads_as| |exact Hset|].
  - intros es Hes Hz. destruct (bolt_store d l es Hr Hes Hz) as [[err E]|(d1&E&Hr1&Hs)]; cbv zeta; rewrite E;
      cbn [mbind outcome_bind]; [left; by eexists|].
    destruct (reopened d1 _ Hr1) as [[err ->]|(d'&->&Hr'&Hg)]; [left; by eexists|right].
    exists d'. split_and!; [done|by apply bolt_reads_as|]. intros k. rewrite Hg. cbn [Get bolt_stable].
    rewrite !bolt_get, Hs; [done|apply Hr|apply Hr1].
  - intros k v Hv. destruct (Hset k (key v)) as [He|(d'&E&Hr'&Hg&Ho)]; [left; exact He|right].
    exists d'. split_and!; [exact E|done| |done]. cbn [GetUint64 bolt_stable Get] in *. unfold bolt_GetUint64.
    rewrite Hg. cbn [mbind outcome_bind]. rewrite key_length. by apply uint64_roundtrip.
Qed.

(** The disk log after a conflict, when [Next] goes on after a deleted key. When a follower
    deletes its log from index [k] on and stores new entries, either a write fails with an
    error or, once the file is opened again, the store holds exactly the first [k - 1]
    entries and the new ones: the last index and every lookup are those of that log; and
    the bucket of the term and the vote has not been touched. *)
Theorem bolt_replace_suffix {D} `{BoltCursor D} (d : D) l k es :
  bolt_repr d l -> 1 <= k <= zlen l -> zlen l < max_uint -> numbered k es ->
  k - 1 + zlen es <= max_uint ->
  let log := take (Z.to_nat (k - 1)) l ++ es in
  let run := d1 ← DeleteRange d k (zlen l); d2 ← StoreLogs d1 es; NewBoltStore d2 in
  (exists err, run = Err err) \/
  (exists d', run = Ret d' /\ LastIndex d' = (zlen log, None) /\
     bucket d' bucketStable = bucket d bucketStable /\
     forall i, 0 <= i <= max_uint ->
       GetLog d' i = match (if 1 <=? i then log !! Z.to_nat (i - 1) else None) with
                     | Some e => Got e
                     | None => NotGot (Some (zero log_codec)) "raft: log entry not found"
                     end).
Proof.
  intros Hr Hk Hz Hn Hsz log run. subst run.
  destruct (bolt_delete d l k Hr Hk Hz) as [[err ->]|(d1&->&Hr1&Hs1)]; [left; by eexists|].
  cbn [mbind outcome_bind].
  assert (zlen (take (Z.to_nat (k - 1)) l) = k - 1) as Hlen by (rewrite zlen_take; lia).
  destruct (bolt_store d1 _ es Hr1) as [[err ->]|(d2&->&Hr2&Hs2)];
    [by rewrite Hlen, Z.sub_add|lia|left; by eexists|]. cbn [mbind outcome_bind].
  destruct (NewBoltStore_keeps d2) as [[err ->]|(d3&->&Ho&Hb)]; [left; by eexists|]. right.
  assert (bolt_repr d3 log) as Hr3.
  { destruct Hr2 as [_ H1' H2' H3']. split; [done|done|done|]. by rewrite Hb. }
  exists d3. split; [done|]. split; [by apply bolt_last_index|]. split; [by rewrite Hb, Hs2|].
  intros i Hi. by apply bolt_get_log.
Qed.

Definition demo_disk : MapDB :=
  ret_of ∅ (d ← NewBoltStore (∅ : MapDB); StoreLogs d demo_entries).

Lemma demo_new_repr : bolt_repr (ret_of ∅ (NewBoltStore (∅ : MapDB))) [].
Proof. split; [done|apply numbered_nil|done|]. apply holds_empty. intros x [v Hv]. by vm_compute in Hv. Qed.

Lemma demo_disk_repr : bolt_repr demo_disk demo_entries.
Proof.
  destruct (bolt_store _ [] demo_entries demo_new_repr) as [[err E]|(d'&E&Hd&_)]; [apply demo_numbered|done|done|].
  unfold demo_disk. change (NewBoltStore (∅ : MapDB)) with (Ret (E := string) (ret_of ∅ (NewBoltStore (∅ : MapDB)))).
  cbn [mbind outcome_bind]. rewrite E. exact Hd.
Qed.

(** Three entries on the disk: the next one, and a vote. *)
Lemma BoltStore_keeps_witness :
  reads_as demo_disk demo_entries /\
  (let run := d1 ← StoreLogs demo_disk [mkLog 4 2 (bytes_of "d")]; NewBoltStore d1 in
   (exists err, run = Err err) \/
   (exists d', run = Ret d' /\ reads_as d' (demo_entries ++ [mkLog 4 2 (bytes_of "d")]) /\
      forall k, Get d' k = Get demo_disk k)) /\
  (let run := d1 ← Set_ demo_disk KeyVotedFor (bytes_of "n1"); NewBoltStore d1 in
   (exists err, run = Err err) \/
   (exists d', run = Ret d' /\ reads_as d' demo_entries /\ Get d' KeyVotedFor = Ret (bytes_of "n1") /\
      forall k', k' <> KeyVotedFor -> Get d' k' = Get demo_disk k')).
Proof.
  destruct (BoltStore_keeps demo_disk demo_entries demo_disk_repr) as (Hr&Hs&Hv&_).
  split; [exact Hr|]. split; [|apply Hv]. apply Hs; [|by_compute].
  apply numbered_cons. split; [done|apply numbered_nil].
Defined.

Lemma bolt_replace_suffix_witness :
  fst (LastIndex demo_disk) = 3 /\
  let log := [mkLog 1 1 []; mkLog 2 2 (bytes_of "c")] in
  let run := d1 ← DeleteRange demo_disk 2 3; d2 ← StoreLogs d1 [mkLog 2 2 (bytes_of "c")]; NewBoltStore d2 in
  (exists err, run = Err err) \/
  (exists d', run = Ret d' /\ LastIndex d' = (zlen log, None) /\
     bucket d' bucketStable = bucket demo_disk bucketStable /\
     forall i, 0 <= i <= max_uint ->
       GetLog d' i = match (if 1 <=? i then log !! Z.to_nat (i - 1) else None) with
                     | Some e => Got e
                     | None => NotGot (Some (zero log_codec)) "raft: log entry not found"
                     end).
Proof.
  split; [vm_compute; reflexivity|].
  apply (bolt_replace_suffix demo_disk demo_entries 2 [mkLog 2 2 (bytes_of "c")] demo_disk_repr);
    [by_compute|by_compute| |by_compute].
  apply numbered_cons. split; [done|apply numbered_nil].
Defined.
