(* ===== verification/Transport.v ===== *)
(** The transports between servers: TCP with framed JSON messages
    ([internal/raft/transport.go]) and the in-memory transport of the tests
    ([internal/raft/inmem.go]). A TCP connection is the stream of bytes that arrives;
    sockets, deadlines and timeouts appear as streams that end and answers that do not
    come. *)
From stdpp Require Import pretty.
From S2P Require Import Prelude Utf8 Stores Config Node Election Replication Rpc Json JsonRound Codec.

(** * The wire format *)

Definition msgAppendEntriesReq : byte := x00.
Definition msgAppendEntriesResp : byte := x01.
Definition msgRequestVoteReq : byte := x02.
Definition msgRequestVoteResp : byte := x03.

(** 10 MB. *)
Definition max_payload : Z := 10 * 1024 * 1024.

(** [sendMessage]: the type, the length as a [uint32] (which wraps), and the body. *)
Definition frame (msgType : byte) (body : text) : text := msgType :: be_encode 4 (zlen body) ++ body.

Definition sendMessage {A} (msgType : byte) (c : codec A) (payload : A) : text :=
  frame msgType (Marshal c payload).

(** [io.ReadFull] of [n] bytes: an error when the stream ends before. *)
Definition ReadFull (n : Z) (s : text) : option (text * text) :=
  if n <=? zlen s then Some (take (Z.to_nat n) s, drop (Z.to_nat n) s) else None.

Definition read_header (s : text) : option (byte * Z * text) :=
  '(header, s1) ← ReadFull 5 s;
  match header with
  | msgType :: len => Some (msgType, be_decode len, s1)
  | [] => None
  end.

Definition readMessage {A} (c : codec A) (expected : byte) (s : text) : outcome string (A * text) :=
  match read_header s with
  | None => Err "read header"
  | Some (msgType, payloadLen, s1) =>
      if negb (Byte.eqb msgType expected) then 
        Err ("expected message type " +:+ pretty (byte_val expected) +:+ ", got " +:+ pretty (byte_val msgType))
      else if max_payload <? payloadLen then Err ("payload too large: " +:+ pretty payloadLen)
      else
        match ReadFull payloadLen s1 with
        | None => Err "read payload"
        | Some (payload, s2) =>
            let '(out, ok) := Unmarshal c payload (zero c) in
            if ok then Ret (out, s2) else Err "json"
        end
  end.

(** * Incoming connections *)

(** One turn of the loop of [handleConnection] up to the RPC: [None] when it returns,
    which closes the connection. *)
Definition next_request (s : text) : option (Command * text) :=
  '(msgType, payloadLen, s1) ← read_header s;
  if max_payload <? payloadLen then None
  else
    '(payload, s2) ← ReadFull payloadLen s1;
    if Byte.eqb msgType msgAppendEntriesReq then
      let '(req, ok) := Unmarshal ae_codec payload (zero ae_codec) in
      if ok then Some (CAppendEntries req, s2) else None
    else if Byte.eqb msgType msgRequestVoteReq then
      let '(req, ok) := Unmarshal rv_codec payload (zero rv_codec) in
      if ok then Some (CRequestVote req, s2) else None
    else None.

(** [sendMessage(conn, ..., rpcResp.Response)]: the type depends on the request, the
    body is whatever the node answered; an error comes with a [nil] response. *)
Definition response_frame (cmd : Command) (resp : RPCResponse) : text :=
  frame (match cmd with CAppendEntries _ => msgAppendEntriesResp | _ => msgRequestVoteResp end)
    (match resp with
     | RAppendEntries r => Marshal aer_codec r
     | RRequestVote r => Marshal rvr_codec r
     | RError _ => render JNull
     end).

(** What comes of an RPC that has been read. The send on [rpcCh] waits without a timeout
    for a place in the channel, and does not look at [shutdownCh]; then the answer is
    awaited for ten seconds at most. *)
Inductive delivery : Type :=
| Blocked                       (* the channel is full, and no place becomes free *)
| Unanswered                    (* queued; ten seconds pass, the transport is shut down, or the write fails *)
| Answered (resp : RPCResponse).

Inductive conn_end : Type := Returned | Hanging.

(** [handleConnection]: the RPCs put on [rpcCh], the bytes written, and whether the
    goroutine returns or waits for ever in a send. [peer] is what comes of the [n]-th RPC
    of the connection. *)
Fixpoint handleConnection (fuel : nat) (peer : nat -> Command -> delivery) (n : nat) (s : text)
  : outcome Empty_set (list Command * text * conn_end) :=
  match next_request s with
  | None => Ret ([], [], Returned)
  | Some (cmd, s') =>
      match fuel with
      | O => NoFuel
      | S fuel' =>
          match peer n cmd with
          | Blocked => Ret ([], [], Hanging)
          | Unanswered => Ret ([cmd], [], Returned)
          | Answered resp =>
              '(cmds, out, e) ← handleConnection fuel' peer (S n) s';
              Ret (cmd :: cmds, response_frame cmd resp ++ out, e)
          end
      end
  end.

(** * Outgoing RPCs

    [peer]: what comes of a connection to the other end when these bytes are written to
    it: the error of [DialTimeout] or of the write, or the bytes that come back. *)
Inductive exchange : Type :=
| DialError (err : string)
| WriteError (err : string)
| Received (s : text).

Section client.
  Context (target : text) (peer : text -> exchange).

Definition call {A B} (name : string) (reqType respType : byte) (cq : codec A) (cr : codec B) (req : A)
  : outcome string B :=
  match peer (sendMessage reqType cq req) with
  | DialError err => Err ("tcp_transport: dial " +:+ String.string_of_list_byte target +:+ ": " +:+ err)
  | WriteError err =>
      Err ("send " +:+ name +:+ " to " +:+ String.string_of_list_byte target +:+ ": " +:+ err)
  | Received s =>
      match readMessage cr respType s with
      | Ret (resp, _) => Ret resp
      | Err err => Err ("read " +:+ name +:+ " response from " +:+ String.string_of_list_byte target +:+ ": " +:+ err)
      | Panic => Panic
      | NoFuel => NoFuel
      end
  end.

Definition SendAppendEntries (req : AppendEntriesRequest) : outcome string AppendEntriesResponse :=
  call "AppendEntries" msgAppendEntriesReq msgAppendEntriesResp ae_codec aer_codec req.

Definition SendRequestVote (req : RequestVoteRequest) : outcome string RequestVoteResponse :=
  call "RequestVote" msgRequestVoteReq msgRequestVoteResp rv_codec rvr_codec req.

End client.

(** * The transport

    [rpcCh] is a channel of capacity 256; [shutdownCh] is closed once. *)
Record TCPTransport : Type := mkTCP {
  t_localAddr : text;
  t_rpcCh : list Command;
  t_shutdownCh : bool;
  t_shutdown : bool;
  t_listening : bool
}.

Definition NewTCPTransport (bindAddr : text) (listen : option string) : outcome string TCPTransport :=
  match listen with
  | Some err => Err ("tcp_transport: listen on " +:+ String.string_of_list_byte bindAddr +:+ ": " +:+ err)
  | None => Ret (mkTCP bindAddr [] false false true)
  end.

(** A turn of [acceptLoop]: it starts a [handleConnection], goes on, or returns. *)
Inductive accept_turn : Type := Spawn | Continue | Return.

Definition acceptLoop_turn (t : TCPTransport) (accepted : bool) : accept_turn :=
  if accepted then Spawn else if t_shutdownCh t then Return else Continue.

(** Closing a closed channel panics. *)
Definition tcp_Shutdown (t : TCPTransport) : outcome Empty_set TCPTransport :=
  if t_shutdown t then Ret t
  else if t_shutdownCh t then Panic
  else Ret (mkTCP (t_localAddr t) (t_rpcCh t) true true false).

(** * The in-memory transport

    The transports are shared by address: [peers] holds pointers. [rpcCh] is a channel
    of capacity 256 of RPCs, each with its response channel of capacity one. *)
Record RPC : Type := mkRPC { rpc_Command : Command; rpc_RespCh : nat }.

Record InmemTransport : Type := mkInmemTransport {
  i_localAddr : text;
  i_rpcCh : list RPC;
  i_peers : gmap (list byte) nat;
  i_shutdown : bool
}.

(** [respChs]: what a response channel holds; the channels are numbered as they are
    made. *)
Record inmem_net : Type := mkInmemNet {
  transports : gmap nat InmemTransport;
  respChs : list (option RPCResponse)
}.

Definition rpcCh_cap : nat := 256.

(** A node that no longer takes RPCs from its channel, which holds [queued] of them. *)
Definition stopped_node (queued : nat) (n : nat) (_ : Command) : delivery :=
  if (queued + n <? rpcCh_cap)%nat then Unanswered else Blocked.

Definition NewInmemTransport (addr : text) : InmemTransport := mkInmemTransport addr [] ∅ false.

(** An operation on the transport at [t]. *)
Definition on (t : nat) (f : InmemTransport -> InmemTransport) (net : inmem_net) : inmem_net :=
  mkInmemNet (alter f t (transports net)) (respChs net).

Definition set_i_peers (m : gmap (list byte) nat) (x : InmemTransport) : InmemTransport :=
  mkInmemTransport (i_localAddr x) (i_rpcCh x) m (i_shutdown x).
Definition set_i_rpcCh (q : list RPC) (x : InmemTransport) : InmemTransport :=
  mkInmemTransport (i_localAddr x) q (i_peers x) (i_shutdown x).

Definition Connect (t : nat) (addr : text) (peer : nat) : inmem_net -> inmem_net :=
  on t (fun x => set_i_peers (<[addr := peer]> (i_peers x)) x).
Definition Disconnect (t : nat) (addr : text) : inmem_net -> inmem_net :=
  on t (fun x => set_i_peers (delete addr (i_peers x)) x).
Definition DisconnectAll (t : nat) : inmem_net -> inmem_net := on t (set_i_peers ∅).
Definition inmem_Shutdown (t : nat) : inmem_net -> inmem_net :=
  on t (fun x => mkInmemTransport (i_localAddr x) (i_rpcCh x) ∅ true).

(** The first half of [SendAppendEntries] and [SendRequestVote]: the RPC is put on the
    peer's channel, unless that is full for a second. It gives the response channel. *)
Definition inmem_send (net : inmem_net) (t : nat) (target : text) (cmd : Command)
  : outcome string (inmem_net * nat) :=
  match transports net !! t with
  | None => Panic
  | Some x =>
      match i_peers x !! target with
      | None => Err "inmem_transport: peer not connected (partition?)"
      | Some b =>
          match transports net !! b with
          | None => Panic
          | Some y =>
              if (length (i_rpcCh y) <? rpcCh_cap)%nat then
                let ch := length (respChs net) in
                Ret (mkInmemNet (<[b := set_i_rpcCh (i_rpcCh y ++ [mkRPC cmd ch]) y]> (transports net))
                       (respChs net ++ [None]), ch)
              else Err ("inmem_transport: timeout sending " +:+
                     match cmd with
                     | CAppendEntries _ => "AppendEntries" | CRequestVote _ => "RequestVote" | _ => ""
                     end +:+ " to " +:+ String.string_of_list_byte target)
          end
      end
  end.

(** The node at [t] receives from [Consumer()]. *)
Definition inmem_consume (net : inmem_net) (t : nat) : option (RPC * inmem_net) :=
  x ← transports net !! t;
  match i_rpcCh x with
  | [] => None
  | rpc :: q => Some (rpc, on t (set_i_rpcCh q) net)
  end.

(** [rpc.Respond]: the send blocks when the channel holds a response. *)
Definition Respond (net : inmem_net) (rpc : RPC) (resp : RPCResponse) : option inmem_net :=
  match respChs net !! rpc_RespCh rpc with
  | Some None => Some (mkInmemNet (transports net) (<[rpc_RespCh rpc := Some resp]> (respChs net)))
  | _ => None
  end.

(** The second half of the sends, when the response comes within a second; a response
    of the other type fails the type assertion. *)
Definition inmem_receive (net : inmem_net) (ch : nat) (cmd : Command) : option (outcome string RPCResponse) :=
  match respChs net !! ch with
  | Some (Some resp) =>
      Some (match resp, cmd with
            | RError err, _ => Err err
            | RAppendEntries _, CAppendEntries _ | RRequestVote _, CRequestVote _ => Ret resp
            | _, _ => Panic
            end)
  | _ => None
  end.

(** * Framing *)

Lemma read_header_frame t body rest :
  zlen body < 2 ^ 32 -> read_header (frame t body ++ rest) = Some (t, zlen body, body ++ rest).
Proof.
  intros Hb. unfold read_header, ReadFull, frame. zlen_facts.
  assert (zlen (be_encode 4 (zlen body)) = 4) as H4.
  { generalize (zlen body) as v. intros v. unfold zlen. by rewrite length_be_encode. }
  cbn [app]. rewrite <-app_assoc.
  destruct (Z.leb_spec 5 (zlen (t :: be_encode 4 (zlen body) ++ body ++ rest))); [|zl].
  cbn [mbind option_bind]. change (Z.to_nat 5) with 5%nat. cbn [take firstn drop skipn].
  assert (length (be_encode 4 (zlen body)) = 4%nat) as Hl by apply length_be_encode.
  rewrite <-Hl, take_app_length, drop_app_length, be_decode_encode by lia.
  do 3 f_equal. apply Z.mod_small. split; [lia|exact Hb].
Qed.

Lemma ReadFull_app body rest : ReadFull (zlen body) (body ++ rest) = Some (body, rest).
Proof.
  unfold ReadFull. rewrite zlen_app. zlen_facts. destruct (Z.leb_spec (zlen body) (zlen body + zlen rest)); [|lia].
  by rewrite zlen_to_nat, take_app_length, drop_app_length.
Qed.

Lemma payload_fits (body : text) : zlen body <= max_payload -> zlen body < 2 ^ 32 /\ max_payload <? zlen body = false.
Proof. unfold max_payload. intros Hb. split; [lia|]. by apply Z.ltb_ge. Qed.

Lemma next_request_ae req rest :
  ae_fits req -> zlen (Marshal ae_codec req) <= max_payload ->
  next_request (sendMessage msgAppendEntriesReq ae_codec req ++ rest)
    = Some (CAppendEntries (ae_canon req), rest).
Proof.
  intros Hf [Hw Hm]%payload_fits. unfold next_request, sendMessage.
  rewrite read_header_frame by done. cbn [mbind option_bind]. rewrite Hm, ReadFull_app.
  cbn [mbind option_bind]. change (Byte.eqb msgAppendEntriesReq msgAppendEntriesReq) with true. cbv iota.
  by rewrite (unmarshal_marshal _ _ _ _ _ ae_lawful) by (done || (apply max_depth_le; lia)).
Qed.

Lemma next_request_rv req rest :
  rv_fits req -> zlen (Marshal rv_codec req) <= max_payload ->
  next_request (sendMessage msgRequestVoteReq rv_codec req ++ rest)
    = Some (CRequestVote (rv_canon req), rest).
Proof.
  intros Hf [Hw Hm]%payload_fits. unfold next_request, sendMessage.
  rewrite read_header_frame by done. cbn [mbind option_bind]. rewrite Hm, ReadFull_app.
  cbn [mbind option_bind]. change (Byte.eqb msgRequestVoteReq msgAppendEntriesReq) with false.
  change (Byte.eqb msgRequestVoteReq msgRequestVoteReq) with true. cbv iota.
  by rewrite (unmarshal_marshal _ _ _ _ _ rv_lawful) by (done || (apply max_depth_le; lia)).
Qed.

Lemma readMessage_frame {A} (c : codec A) d fits canon t a rest :
  lawful c d fits canon -> (d <= 10)%nat -> fits a -> zlen (Marshal c a) <= max_payload ->
  readMessage c t (frame t (Marshal c a) ++ rest) = Ret (canon a, rest).
Proof.
  intros Hc Hd Ha [Hw Hm]%payload_fits. unfold readMessage. rewrite read_header_frame by done.
  rewrite (Byte.byte_dec_lb eq_refl). cbn [negb]. rewrite Hm, ReadFull_app.
  by rewrite (unmarshal_marshal _ _ _ _ _ Hc) by (done || by apply max_depth_le).
Qed.

(** * The size of a message *)

Lemma decimal_length k fuel n :
  0 <= n < 10 ^ Z.of_nat (S k) -> (length (decimal fuel n) <= S k)%nat.
Proof.
  revert fuel n. induction k as [|k IH]; intros [|fuel] n Hn; cbn [decimal length]; try lia.
  - change (10 ^ Z.of_nat 1) with 10 in Hn. destruct (Z.ltb_spec n 10); [cbn; lia|lia].
  - rewrite length_app. cbn [length]. destruct (n <? 10); [cbn; lia|].
    rewrite Nat2Z.inj_succ, Z.pow_succ_r in Hn by lia.
    specialize (IH fuel (n / 10)). enough (length (decimal fuel (n / 10)) <= S k)%nat by lia.
    apply IH. split; [apply Z.div_pos; lia|]. apply Z.div_lt_upper_bound; lia.
Qed.

Lemma uint_length n : uint_fits n -> zlen (render (enc uint_codec n)) <= 20.
Proof.
  intros [Hn Hm]. cbn [uint_codec enc render]. unfold format_uint, zlen.
  pose proof (decimal_length 19 (S (Z.to_nat (Z.log2 n))) n) as Hd. unfold max_uint in Hm. lia.
Qed.

Lemma bool_length b : zlen (render (enc bool_codec b)) <= 20.
Proof. by destruct b. Qed.

(** The members of an object, each with its comma or bracket. *)
Definition members_length (ms : list (text * json)) : Z :=
  foldr (fun m n => zlen (quote (fst m)) + zlen (render (snd m)) + 2 + n) 0 ms.

Lemma object_length ms : zlen (render (JObject ms)) <= 2 + members_length ms.
Proof.
  cbn [render]. rewrite zlen_cons, zlen_app, zlen_cons, zlen_nil.
  change (map (fun m => quote (fst m) ++ ":"%byte :: render (snd m)) ms) with (map render_member ms).
  enough (zlen (commas (map render_member ms)) <= members_length ms) by lia.
  assert (forall ts, zlen (concat (map (fun t : text => ","%byte :: t) ts)) = foldr (fun t n => 1 + zlen t + n) 0 ts) as Hc.
  { induction ts as [|t ts IH]; [done|]. cbn [map concat foldr]. rewrite zlen_app, zlen_cons, IH. lia. }
  assert (forall m, zlen (render_member m) = zlen (quote (fst m)) + zlen (render (snd m)) + 1) as Hm.
  { intros m. unfold render_member. rewrite zlen_app, zlen_cons. lia. }
  assert (forall ms, foldr (fun t n => 1 + zlen t + n) 0 (map render_member ms) = members_length ms) as He.
  { intros l. induction l as [|m l IH]; [done|]. cbn [map foldr members_length]. rewrite IH, Hm.
    unfold members_length. lia. }
  destruct ms as [|m ms]; [done|]. cbn [map commas]. rewrite zlen_app, Hc, He, Hm.
  cbn [members_length foldr]. fold (members_length ms). lia.
Qed.

Lemma rvr_length q : rvr_fits q -> zlen (Marshal rvr_codec q) <= 200.
Proof.
  intros Hq. unfold Marshal. pose proof (uint_length (rvr_Term q) Hq). pose proof (bool_length (rvr_VoteGranted q)).
  etransitivity; [apply object_length|]. cbn [rvr_codec struct_codec omap list_omap plain f_enc f_name
    fmap option_fmap option_map members_length foldr fst snd].
  change (zlen (quote (bytes_of "term"))) with 6. change (zlen (quote (bytes_of "vote_granted"))) with 14. lia.
Qed.

Lemma aer_length q : aer_fits q -> zlen (Marshal aer_codec q) <= 200.
Proof.
  intros [H1 H2 H3]. unfold Marshal. pose proof (uint_length _ H1). pose proof (uint_length _ H2).
  pose proof (uint_length _ H3). pose proof (bool_length (aer_Success q)).
  etransitivity; [apply object_length|]. cbn [aer_codec struct_codec omap list_omap plain f_enc f_name
    fmap option_fmap option_map members_length foldr fst snd].
  change (zlen (quote (bytes_of "term"))) with 6. change (zlen (quote (bytes_of "success"))) with 9.
  change (zlen (quote (bytes_of "conflict_term"))) with 15.
  change (zlen (quote (bytes_of "conflict_index"))) with 16. lia.
Qed.

(** ** The data of the entries is in the request *)

Lemma commas_at_least (ts : list text) : foldr (fun t n => zlen t + n) 0 ts <= zlen (commas ts).
Proof.
  destruct ts as [|t ts]; [done|]. cbn [commas foldr]. rewrite zlen_app.
  enough (foldr (fun t n => zlen t + n) 0 ts <= zlen (concat (map (fun t : text => ","%byte :: t) ts))) by lia.
  induction ts as [|u ts IH]; [done|]. cbn [map concat foldr]. rewrite zlen_app, zlen_cons. lia.
Qed.

Lemma quote_ascii_length s : is_ascii s -> zlen s <= zlen (quote s).
Proof.
  intros Hs. unfold quote. rewrite zlen_cons, zlen_app.
  enough (zlen s <= zlen (quote_loop (length s) s)) by zl.
  induction Hs as [|b s Hb Hs IH]; [done|]. cbn [length quote_loop]. unfold quote_rune.
  rewrite (proj2 (Z.ltb_lt (byte_val b) 0x80)) by done. cbv beta iota. change (drop 1 (b :: s)) with s.
  rewrite zlen_app, zlen_cons. enough (1 <= zlen (if html_safe b then [b] else escape b)) by lia.
  destruct (html_safe b); [done|]. unfold escape. repeat case_match; rewrite zlen_cons; zl.
Qed.

Lemma b64_encode_length s : zlen s <= zlen (b64_encode s).
Proof.
  induction s as [|a|a b|a b c s IH] using list_ind3; [done|done|done|].
  cbn [b64_encode]. rewrite !zlen_cons. lia.
Qed.

Lemma bytes_length s : zlen s <= zlen (render (enc bytes_codec s)).
Proof.
  destruct s as [|b s]; [done|]. cbn [enc bytes_codec render].
  etransitivity; [apply b64_encode_length|]. apply quote_ascii_length, b64_encode_ascii.
Qed.

Lemma object_at_least ms : foldr (fun m n => zlen (render (snd m)) + n) 0 ms <= zlen (render (JObject ms)).
Proof.
  cbn [render]. rewrite zlen_cons, zlen_app. zlen_facts.
  change (map (fun m => quote (fst m) ++ ":"%byte :: render (snd m)) ms) with (map render_member ms).
  pose proof (commas_at_least (map render_member ms)) as Hc.
  enough (foldr (fun m n => zlen (render (snd m)) + n) 0 ms <=
    foldr (fun t n => zlen t + n) 0 (map render_member ms)) by zl.
  clear. induction ms as [|m ms IH]; [done|]. cbn [map foldr]. 
  assert (zlen (render (snd m)) <= zlen (render_member m)); [|lia]. unfold render_member.
  rewrite zlen_app, zlen_cons. pose proof (zlen_nonneg (quote (fst m))). lia.
Qed.

Definition data_size (es : list LogEntry) : Z := foldr (fun e n => zlen (Data e) + n) 0 es.

Lemma log_length e : zlen (Data e) <= zlen (render (enc log_codec e)).
Proof.
  pose proof (bytes_length (Data e)) as Hb.
  etransitivity; [|apply object_at_least]. cbn [log_codec struct_codec omap list_omap plain f_enc f_name
    fmap option_fmap option_map foldr fst snd]. zlen_facts. lia.
Qed.

Lemma entries_length es : data_size es <= zlen (render (enc (slice_codec log_codec) es)).
Proof.
  destruct es as [|e es]; [done|]. cbn [enc slice_codec render].
  generalize (e :: es). clear e es. intros es. rewrite zlen_cons, zlen_app. zlen_facts.
  pose proof (commas_at_least (map render (map (enc log_codec) es))) as Hc.
  enough (data_size es <= foldr (fun t n => zlen t + n) 0 (map render (map (enc log_codec) es))) by zl.
  clear. induction es as [|e es IH]; [done|]. cbn [map foldr data_size]. fold (data_size es).
  pose proof (log_length e). lia.
Qed.

Lemma ae_length req : data_size (ae_Entries req) <= zlen (Marshal ae_codec req).
Proof.
  pose proof (entries_length (ae_Entries req)) as He. unfold Marshal.
  etransitivity; [|apply object_at_least]. cbn [ae_codec struct_codec omap list_omap plain f_enc f_name
    fmap option_fmap option_map foldr fst snd]. zlen_facts. lia.
Qed.

(** ** A request is at most twelve times its data and a little more *)

Lemma decode_rune_width s r k : decode_rune s = (r, k) -> (k <= 4)%nat.
Proof. unfold decode_rune. repeat case_match; intros [= _ <-]; lia. Qed.

Lemma quote_length s : zlen (quote s) <= 6 * zlen s + 2.
Proof.
  unfold quote. rewrite zlen_cons, zlen_app.
  enough (forall n, zlen (quote_loop n s) <= 6 * Z.of_nat n) as Hq
    by (specialize (Hq (length s)); unfold zlen in *; cbn; lia).
  intros n. revert s. induction n as [|n IH]; intros [|b s]; cbn [quote_loop]; try zl.
  destruct (quote_rune (b :: s) b) as [out w] eqn:E. rewrite zlen_app. specialize (IH (drop w (b :: s))).
  enough (zlen out <= 6) by lia. clear IH. revert E. unfold quote_rune, escape.
  destruct (decode_rune (b :: s)) as [r k] eqn:Ed. intros E.
  repeat case_match; simplify_eq; try done.
  apply decode_rune_width in Ed. unfold zlen. rewrite length_take. lia.
Qed.

Lemma b64_encode_length_le s : zlen (b64_encode s) <= 2 * zlen s + 2.
Proof.
  induction s as [|a|a b|a b c s IH] using list_ind3; [done|done|done|].
  cbn [b64_encode]. rewrite !zlen_cons. lia.
Qed.

Lemma log_length_le e : log_fits e -> zlen (render (enc log_codec e)) <= 100 + 12 * zlen (Data e).
Proof.
  intros [Hi Ht]. pose proof (uint_length _ Hi). pose proof (uint_length _ Ht).
  assert (zlen (render (enc bytes_codec (Data e))) <= 12 * zlen (Data e) + 14) as Hb.
  { destruct (Data e) as [|b d]; [done|]. cbn [enc bytes_codec render].
    pose proof (quote_length (b64_encode (b :: d))). pose proof (b64_encode_length_le (b :: d)). lia. }
  etransitivity; [apply object_length|]. cbn [log_codec struct_codec omap list_omap plain f_enc f_name
    fmap option_fmap option_map members_length foldr fst snd].
  change (zlen (quote (bytes_of "Index"))) with 7. change (zlen (quote (bytes_of "Term"))) with 6.
  change (zlen (quote (bytes_of "Data"))) with 6. lia.
Qed.

Lemma commas_at_most (ts : list text) : zlen (commas ts) <= foldr (fun t n => zlen t + 1 + n) 0 ts.
Proof.
  destruct ts as [|t ts]; [done|]. cbn [commas foldr]. rewrite zlen_app.
  enough (zlen (concat (map (fun t : text => ","%byte :: t) ts)) <= foldr (fun t n => zlen t + 1 + n) 0 ts) by lia.
  induction ts as [|u ts IH]; [done|]. cbn [map concat foldr]. rewrite zlen_app, zlen_cons. lia.
Qed.

Lemma entries_length_le es : Forall log_fits es ->
  zlen (render (enc (slice_codec log_codec) es)) <= 4 + 101 * zlen es + 12 * data_size es.
Proof.
  destruct es as [|e es]; [done|]. cbn [enc slice_codec render].
  generalize (e :: es). clear e es. intros es Hf. rewrite zlen_cons, zlen_app, zlen_cons, zlen_nil.
  pose proof (commas_at_most (map render (map (enc log_codec) es))) as Hc.
  enough (foldr (fun t n => zlen t + 1 + n) 0 (map render (map (enc log_codec) es))
    <= 101 * zlen es + 12 * data_size es) by lia.
  clear Hc. induction Hf as [|e es He Hf IH]; [done|]. cbn [map foldr data_size]. fold (data_size es).
  rewrite zlen_cons. pose proof (log_length_le e He). lia.
Qed.

Lemma ae_length_le req : ae_fits req ->
  zlen (Marshal ae_codec req)
    <= 400 + 6 * zlen (ae_LeaderID req) + 101 * zlen (ae_Entries req) + 12 * data_size (ae_Entries req).
Proof.
  intros [H1 H2 H3 H4 H5]. unfold Marshal.
  pose proof (uint_length _ H1). pose proof (uint_length _ H2). pose proof (uint_length _ H3).
  pose proof (uint_length _ H4). pose proof (entries_length_le _ H5).
  pose proof (quote_length (ae_LeaderID req)).
  etransitivity; [apply object_length|]. cbn [ae_codec struct_codec omap list_omap plain f_enc f_name
    fmap option_fmap option_map members_length foldr fst snd string_codec enc render] in *.
  change (zlen (quote (bytes_of "term"))) with 6. change (zlen (quote (bytes_of "leader_id"))) with 11.
  change (zlen (quote (bytes_of "prev_log_index"))) with 16.
  change (zlen (quote (bytes_of "prev_log_term"))) with 15. change (zlen (quote (bytes_of "entries"))) with 9.
  change (zlen (quote (bytes_of "leader_commit"))) with 15. lia.
Qed.

(** What a leader sends fits the wire types. *)
Lemma replicate_build_fits {L Sb F R} `{LogStoreSpec L} `{StableStore Sb} (r : RaftNode L Sb F R) peer ll req :
  repr (logStore r) ll -> 1 <= nextIndex peer <= zlen ll + 1 -> zlen ll < max_uint ->
  uint_fits (currentTerm r) -> uint_fits (commitIndex r) ->
  replicate_build r peer = Ret (Some req) -> ae_fits req.
Proof.
  intros Hr Hn Hm Ht Hc. pose proof (repr_numbered _ _ Hr) as Hnum.
  assert (forall n, Forall log_fits (drop n ll)) as Hall.
  { intros n. apply Forall_forall. intros e [i He]%list_elem_of_lookup. rewrite lookup_drop in He.
    pose proof (lookup_lt_Some _ _ _ He) as Hl. destruct (Hnum _ _ He) as [Hi Hte].
    split; [|done]. rewrite Hi. unfold uint_fits, zlen in *. lia. }
  unfold replicate_build. destruct (negb _); [done|]. rewrite uwrap64_small by lia.
  rewrite (LastIndex_spec _ _ Hr). cbn [fst]. rewrite (gather_loop_spec _ _ ll); [|done|lia..].
  cbn [mbind outcome_bind]. intros [= <-]. constructor; cbn [ae_Term ae_PrevLogIndex ae_PrevLogTerm
    ae_LeaderCommit ae_Entries app]; try done.
  - unfold uint_fits. lia.
  - destruct (Z.ltb_spec 0 (nextIndex peer - 1)); [|done].
    pose proof (GetLog_cases _ ll (nextIndex peer - 1) Hr ltac:(lia)) as Hget.
    destruct (ll !! _) as [y|] eqn:E; [|destruct Hget as (?&?&->); done].
    rewrite Hget. by destruct (Hnum _ _ E).
Qed.

(** * Connections end *)

Lemma read_header_length s t n s1 : read_header s = Some (t, n, s1) -> length s = (length s1 + 5)%nat.
Proof.
  unfold read_header, ReadFull. destruct (Z.leb_spec 5 (zlen s)); [|done]. cbn [mbind option_bind].
  destruct (take _ s) as [|x len]; [done|]. intros [= _ _ <-]. rewrite length_drop.
  unfold zlen in *. lia.
Qed.

Lemma ReadFull_length n s a r : ReadFull n s = Some (a, r) -> (length r <= length s)%nat.
Proof.
  unfold ReadFull. destruct (_ <=? _); [|done]. intros [= _ <-]. rewrite length_drop. lia.
Qed.

Lemma next_request_length s cmd r : next_request s = Some (cmd, r) -> (length r + 5 <= length s)%nat.
Proof.
  unfold next_request. intros Hs. apply bind_Some in Hs as ([[t n] s1]&Hh%read_header_length&Hs).
  destruct (_ <? _); [done|]. apply bind_Some in Hs as ([payload s2]&Hr%ReadFull_length&Hs).
  destruct (Byte.eqb t _).
  - destruct (Unmarshal ae_codec _ _) as [q []]; [|done]. injection Hs as _ <-. lia.
  - destruct (Byte.eqb t _); [|done]. destruct (Unmarshal rv_codec _ _) as [q []]; [|done].
    injection Hs as _ <-. lia.
Qed.

(** The requests that a stream holds, up to the first thing that is none. *)
Fixpoint requests (fuel : nat) (s : text) : list Command :=
  match fuel, next_request s with
  | S fuel', Some (cmd, s') => cmd :: requests fuel' s'
  | _, _ => []
  end.

Definition is_answered (d : delivery) : Prop := exists resp, d = Answered resp.

(** What is written for an RPC. *)
Definition reply (peer : nat -> Command -> delivery) (n : nat) (cmd : Command) : text :=
  match peer n cmd with Answered resp => response_frame cmd resp | _ => [] end.

(** The first RPCs of the stream are queued, all but the last of them answered, and the
    answers are written in order; the goroutine hangs if all of them are answered and the
    next one finds the channel full. *)
Record served (peer : nat -> Command -> delivery) (n : nat) (rs cmds : list Command) (out : text) (e : conn_end)
    : Prop := mk_served {
  sr_prefix : cmds = take (length cmds) rs;
  sr_answered : forall i cmd, cmds !! i = Some cmd -> (S i < length cmds)%nat -> is_answered (peer (n + i)%nat cmd);
  sr_out : out = concat (imap (fun i => reply peer (n + i)) cmds);
  sr_hangs : e = Hanging <->
    (forall i cmd, cmds !! i = Some cmd -> is_answered (peer (n + i)%nat cmd)) /\
    exists cmd, rs !! length cmds = Some cmd /\ peer (n + length cmds)%nat cmd = Blocked
}.

Lemma served_cons peer n cmd rs cmds out e resp : peer n cmd = Answered resp ->
  served peer (S n) rs cmds out e -> served peer n (cmd :: rs) (cmd :: cmds) (response_frame cmd resp ++ out) e.
Proof.
  intros Hp [Hpre Hans Hout Hh]. assert (forall i, n + S i = S n + i)%nat as Hn by lia.
  assert (is_answered (peer n cmd)) as Hcmd by (by exists resp). split.
  - cbn. by rewrite <-Hpre.
  - intros [|i] c Hc Hi; [injection Hc as <-; by rewrite Nat.add_0_r|]. rewrite Hn. apply Hans; [done|cbn in Hi; lia].
  - cbn. unfold reply at 1. rewrite Nat.add_0_r, Hp, Hout. apply (f_equal (fun x => response_frame cmd resp ++ concat x)).
    apply imap_ext. intros i c _. cbn. by rewrite Hn.
  - rewrite Hh. cbn [length lookup list_lookup]. rewrite Hn. split; intros [Hall Hb]; (split; [|done]).
    + intros [|i] c Hc; [injection Hc as <-; by rewrite Nat.add_0_r|]. rewrite Hn. by apply Hall.
    + intros i c Hc. specialize (Hall (S i) c Hc). by rewrite Hn in Hall.
Qed.

Lemma handleConnection_ends peer fuel n s : (length s <= fuel)%nat ->
  exists cmds out e, handleConnection fuel peer n s = Ret (cmds, out, e) /\
    (5 * length cmds <= length s)%nat /\ served peer n (requests fuel s) cmds out e.
Proof.
  revert n s. induction fuel as [|fuel IH]; intros n s Hf; cbn [handleConnection requests];
    (destruct (next_request s) as [[cmd s']|] eqn:E;
      [|exists [], [], Returned; split_and!; [done|cbn; lia|]; split; try done; split; [done|by intros [_ (?&?&_)]]]);
    apply next_request_length in E; [lia|].
  destruct (peer n cmd) as [| |resp] eqn:Hp.
  - exists [], [], Hanging. split_and!; [done|cbn; lia|]. split; try done. split; [|done]. intros _. split; [done|].
    exists cmd. cbn. by rewrite Nat.add_0_r.
  - exists [cmd], [], Returned. split_and!; [done|cbn; lia|]. split; [done| | |].
    + intros i c Hc Hi. cbn in Hi. lia.
    + cbn. unfold reply. by rewrite Nat.add_0_r, Hp.
    + split; [done|]. intros [Hall _]. destruct (Hall 0%nat cmd eq_refl) as [resp Hr]. rewrite Nat.add_0_r in Hr. congruence.
  - destruct (IH (S n) s') as (cmds&out&e&->&Hc&Hs); [lia|]. cbn [mbind outcome_bind].
    exists (cmd :: cmds), (response_frame cmd resp ++ out), e. split_and!; [done|cbn; lia|by apply served_cons].
Qed.

(** With a node that has stopped, a connection queues one RPC and returns; when the
    channel is full, it hangs. *)
Lemma stopped_connection queued s cmd rest : next_request s = Some (cmd, rest) ->
  handleConnection (length s) (stopped_node queued) 0 s =
    if (queued <? rpcCh_cap)%nat then Ret ([cmd], [], Returned) else Ret ([], [], Hanging).
Proof.
  intros Hn. pose proof (next_request_length _ _ _ Hn). destruct (length s) as [|fuel]; [lia|].
  cbn [handleConnection]. rewrite Hn. unfold stopped_node. rewrite Nat.add_0_r. by destruct (_ <? _)%nat.
Qed.

(** ** The in-memory transport delivers to the peer it is connected to *)

Lemma inmem_send_spec net t x target b y cmd :
  transports net !! t = Some x -> i_peers x !! target = Some b -> transports net !! b = Some y ->
  (length (i_rpcCh y) < rpcCh_cap)%nat ->
  exists net', inmem_send net t target cmd = Ret (net', length (respChs net)) /\
    (forall c, c <> b -> transports net' !! c = transports net !! c) /\
    transports net' !! b = Some (set_i_rpcCh (i_rpcCh y ++ [mkRPC cmd (length (respChs net))]) y).
Proof.
  intros Ht Hp Hb Hl. unfold inmem_send. rewrite Ht, Hp, Hb. apply Nat.ltb_lt in Hl. rewrite Hl.
  eexists. split; [done|]. cbn. split; [|by rewrite lookup_insert_eq].
  intros c Hc. by rewrite lookup_insert_ne.
Qed.

Lemma inmem_partition net t x target cmd :
  transports net !! t = Some x ->
  (exists err, inmem_send (Disconnect t target net) t target cmd = Err err) /\
  (exists err, inmem_send (DisconnectAll t net) t target cmd = Err err) /\
  (exists err, inmem_send (inmem_Shutdown t net) t target cmd = Err err).
Proof.
  intros Ht. unfold inmem_send, Disconnect, DisconnectAll, inmem_Shutdown, on. cbn.
  rewrite !lookup_alter_eq, Ht. cbn. rewrite lookup_delete_eq, lookup_empty. split_and!; by eexists.
Qed.

(** * Properties *)

(** The other end of a TCP connection: [handleConnection] on the bytes sent. When it hangs
    the caller's read ends at its deadline. *)
Definition connection (peer : nat -> Command -> delivery) (s : text) : exchange :=
  match handleConnection (length s) peer 0 s with
  | Ret (_, out, _) => Received out
  | _ => WriteError "closed"%string
  end.

Lemma connection_one peer s cmd resp :
  next_request (s ++ []) = Some (cmd, []) -> peer 0%nat cmd = Answered resp ->
  connection peer s = Received (response_frame cmd resp ++ []).
Proof.
  rewrite app_nil_r. intros Hn Ha. unfold connection. pose proof (next_request_length _ _ _ Hn) as Hl.
  destruct (length s) as [|n]; [lia|]. cbn [handleConnection]. rewrite Hn, Ha.
  by destruct n.
Qed.

(** C31: remote calls over TCP. What the node at the other end answers to the request is
    what the caller gets: the request arrives as it was sent and the answer comes back
    as it was given (invalid UTF-8 in an identifier becomes U+FFFD), for requests whose
    JSON is at most ten megabytes and numbers that fit 64 bits. *)
Theorem tcp_call_delivers target (answer : nat -> Command -> delivery) :
  (forall req resp,
     rv_fits req -> zlen (Marshal rv_codec req) <= max_payload -> rvr_fits resp ->
     answer 0%nat (CRequestVote (rv_canon req)) = Answered (RRequestVote resp) ->
     SendRequestVote target (connection answer) req = Ret resp) /\
  (forall req resp,
     ae_fits req -> zlen (Marshal ae_codec req) <= max_payload -> aer_fits resp ->
     answer 0%nat (CAppendEntries (ae_canon req)) = Answered (RAppendEntries resp) ->
     SendAppendEntries target (connection answer) req = Ret resp).
Proof.
  split; intros req resp Hq Hs Hr Ha; unfold SendRequestVote, SendAppendEntries, call.
  - rewrite (connection_one _ _ _ _ (next_request_rv req [] Hq Hs) Ha). unfold response_frame.
    rewrite (readMessage_frame _ _ _ _ _ _ _ rvr_lawful); [done|lia|done|].
    pose proof (rvr_length resp Hr). unfold max_payload. lia.
  - rewrite (connection_one _ _ _ _ (next_request_ae req [] Hq Hs) Ha). unfold response_frame.
    rewrite (readMessage_frame _ _ _ _ _ _ _ aer_lawful); [done|lia|done|].
    pose proof (aer_length resp Hr). unfold max_payload. lia.
Qed.

(** The node n2, that handles what arrives. *)
Definition demo_answer (_ : nat) (cmd : Command) : delivery :=
  match handleRPC (demo_node "n2" 1 Follower []) cmd with Ret (_, resp, _) => Answered resp | _ => Unanswered end.

Lemma tcp_call_delivers_witness :
  SendRequestVote (bytes_of "h2") (connection demo_answer) (mkRV 2 (bytes_of "n1") 0 0)
    = Ret (mkRVR 2 true) /\
  SendAppendEntries (bytes_of "h2") (connection demo_answer)
    (mkAE 1 (bytes_of "n1") 0 0 [mkLog 1 1 (bytes_of "x")] 1) = Ret (mkAER 1 true 0 0).
Proof.
  split; apply tcp_call_delivers; try (repeat first [split|constructor]; vm_compute; discriminate);
    vm_compute; try reflexivity; discriminate.
Defined.

(** C32: when a connection ends. On every finite stream of bytes, whatever it holds,
    [handleConnection] puts the first of the stream's requests on the node's channel, at
    most one for every five bytes, and writes the answers to them, in order. It returns
    after them, unless a send on the channel finds it full for ever: the goroutine hangs
    exactly if every RPC before was answered and the next one is blocked. So it stops
    whenever the node takes its RPCs, whatever it answers; and it hangs on the first
    request when the node has stopped and its channel holds 256 of them. *)
Theorem handleConnection_terminates peer s :
  (exists cmds out e, handleConnection (length s) peer 0 s = Ret (cmds, out, e) /\
     5 * zlen cmds <= zlen s /\ served peer 0 (requests (length s) s) cmds out e /\
     ((forall i cmd, peer i cmd <> Blocked) -> e = Returned)) /\
  (forall queued cmd rest, next_request s = Some (cmd, rest) -> (rpcCh_cap <= queued)%nat ->
     handleConnection (length s) (stopped_node queued) 0 s = Ret ([], [], Hanging)).
Proof.
  split.
  - destruct (handleConnection_ends peer (length s) 0 s) as (cmds&out&e&E&Hl&Hs); [done|].
    exists cmds, out, e. split_and!; [done|unfold zlen; lia|done|]. intros Hnot. destruct e; [done|].
    destruct (proj1 (sr_hangs _ _ _ _ _ _ Hs) eq_refl) as [_ (cmd&_&Hb)]. by destruct (Hnot _ _ Hb).
  - intros queued cmd rest Hn Hq. rewrite (stopped_connection queued s cmd rest Hn).
    by rewrite (proj2 (Nat.ltb_ge _ _)).
Qed.

(** One RequestVote: n2 answers it and the connection ends; a node that has stopped leaves
    it hanging. *)
Definition demo_stream : text := sendMessage msgRequestVoteReq rv_codec (mkRV 2 (bytes_of "n1") 0 0).

Lemma handleConnection_terminates_witness :
  (exists cmds out, handleConnection (length demo_stream) demo_answer 0 demo_stream = Ret (cmds, out, Returned) /\
     5 * zlen cmds <= zlen demo_stream /\
     served demo_answer 0 (requests (length demo_stream) demo_stream) cmds out Returned) /\
  handleConnection (length demo_stream) (stopped_node 256) 0 demo_stream = Ret ([], [], Hanging).
Proof.
  split.
  - destruct (handleConnection_terminates demo_answer demo_stream) as [(cmds&out&e&E&Hl&Hs&He) _].
    assert (e = Returned) as -> by (apply He; intros i cmd; unfold demo_answer; by destruct (handleRPC _ _) as [[[? ?] ?]| | |]).
    exists cmds, out. split; [exact E|]. split; [exact Hl|exact Hs].
  - apply (handleConnection_terminates demo_answer demo_stream) with (cmd := CRequestVote (mkRV 2 (bytes_of "n1") 0 0)) (rest := []);
      [vm_compute; reflexivity|apply Nat.le_refl].
Defined.

(** C36: a follower that is too far behind stays behind. A leader puts all the entries
    that a follower lacks into one request; when their data is more than ten megabytes
    (and up to a hundred, where the request's length still fits its four bytes), the
    follower's [handleConnection] closes the connection without handling the request, and
    the call fails: the follower gets none of the entries, nor does a later attempt. *)
Theorem large_backlog_never_sent {L Sb F R} `{LogStoreSpec L} `{StableStore Sb}
    (r : RaftNode L Sb F R) peer ll target answer :
  let lacks := drop (Z.to_nat (nextIndex peer - 1)) ll in
  repr (logStore r) ll -> state r = Leader -> 1 <= nextIndex peer <= zlen ll + 1 ->
  uint_fits (currentTerm r) -> uint_fits (commitIndex r) -> zlen (ServerID (config r)) <= 1000 ->
  zlen ll <= 1000000 -> max_payload < data_size lacks <= 10 * max_payload ->
  exists req, replicate_build r peer = Ret (Some req) /\ ae_Entries req = lacks /\
    next_request (sendMessage msgAppendEntriesReq ae_codec req) = None /\
    exists err, SendAppendEntries target (connection answer) req = Err err.
Proof.
  intros lacks Hr Hs Hn Ht Hc Hid Hz Hd. assert (zlen ll < max_uint) as Hz' by (unfold max_uint; lia).
  destruct (replicate_build_sent r peer ll Hr Hs Hn Hz') as (req&Hb&_&Hl&_&[_ _ _ He]).
  rewrite take_ge in He by (rewrite length_drop; lia). fold lacks in He.
  exists req. split; [done|]. split; [done|].
  pose proof (ae_length_le req (replicate_build_fits _ _ _ _ Hr Hn Hz' Ht Hc Hb)) as Hle.
  pose proof (ae_length req) as Hge. rewrite He, Hl in *.
  assert (zlen lacks <= zlen ll) by (unfold lacks, zlen; rewrite length_drop; lia).
  assert (next_request (sendMessage msgAppendEntriesReq ae_codec req) = None) as Hnone.
  { unfold next_request, sendMessage. rewrite <-(app_nil_r (frame _ _)), read_header_frame
      by (unfold max_payload in *; lia).
    cbn [mbind option_bind]. by rewrite (proj2 (Z.ltb_lt _ _)) by lia. }
  split; [done|]. unfold SendAppendEntries, call, connection.
  destruct (length _); cbn [handleConnection]; rewrite Hnone; by eexists.
Qed.

(** A leader whose first entry is eleven megabytes. *)
Definition demo_bytes (n : nat) : list LogEntry := [mkLog 1 1 (repeat x00 n)].
Definition demo_leader (n : nat) : demo_server := demo_node "n1" 1 Leader (demo_bytes n).

Lemma large_backlog_never_sent_witness :
  exists n req, replicate_build (demo_leader n) (mkPeerState (bytes_of "n2") (bytes_of "h2") 1 0 false) = Ret (Some req) /\ ae_Entries req = demo_bytes n /\
    next_request (sendMessage msgAppendEntriesReq ae_codec req) = None /\
    exists err, SendAppendEntries (bytes_of "h2") (connection demo_answer) req = Err err.
Proof.
  assert (exists n, Z.of_nat n = 11 * 1024 * 1024) as [n Hn].
  { exists (Z.to_nat (11 * 1024 * 1024)). rewrite Z2Nat.id; [reflexivity|discriminate]. }
  exists n. apply (large_backlog_never_sent (demo_leader n) (mkPeerState (bytes_of "n2") (bytes_of "h2") 1 0 false) (demo_bytes n)).
  - apply (inmem_stores_repr (demo_bytes n) _ []); [apply inmem_new_repr|].
    apply numbered_cons. split; [done|apply numbered_nil].
  - reflexivity.
  - split; vm_compute; discriminate.
  - split; vm_compute; discriminate.
  - split; vm_compute; discriminate.
  - vm_compute. discriminate.
  - vm_compute. discriminate.
  - change (max_payload < zlen (repeat x00 n) + 0 <= 10 * max_payload).
    unfold zlen. rewrite repeat_length, Hn. split; vm_compute; [reflexivity|discriminate].
Defined.
