(* ===== verification/Document.v ===== *)
(** The document as the state machine of a Raft node: [DocumentStateMachine]
    ([internal/fsm/fsm.go]) implements the [FSM] interface of [internal/raft/types.go].
    The theorems put the two layers together: what the apply loop of a node does to
    its document. *)
From S2P Require Import Prelude Stores Future Config Node Election Replication Leader.
From S2P Require Import Changeset Apply Cursor Compose Follow Fsm.

(** * The code

    The document of a server, and the results that goroutines have been started for
    to pass them to [onCommit]. *)
Record document : Type := mkDoc {
  doc_fsm : DocumentStateMachine;
  doc_spawned : list ApplyResult
}.

#[export] Instance document_FSM `{EC : EntryCodec} : FSM document ApplyResult := {
  fsm_Apply d data :=
    a ← Fsm.Apply (doc_fsm d) data;
    Ret (mkDoc (machine a) (doc_spawned d ++ callbacks a), response a)
}.

(** * Feeding a document *)

(** What the log hands to the machine: the data of the entries that have any. *)
Definition has_data (e : LogEntry) : bool := 0 <? zlen (Data e).
Definition payloads (es : list LogEntry) : list text := map Data (List.filter has_data es).

Section feeding.
  Context `{EC : EntryCodec}.
  Implicit Types d : document.

(** The answers to the entries: none to those without data. *)
Fixpoint answers (es : list LogEntry) (rs : list (option ApplyResult)) : list (option ApplyResult) :=
  match es with
  | [] => []
  | e :: es' =>
      if has_data e then
        match rs with [] => [] | r :: rs' => r :: answers es' rs' end
      else None :: answers es' rs
  end.

(** Every result that was not [nil] is passed to one goroutine. *)
Lemma Apply_callbacks fsm data a :
  Fsm.Apply fsm data = Ret a -> callbacks a = option_list (response a).
Proof.
  intros Ha. destruct (Apply_ret _ _ _ Ha) as [(?&_&->)|(e&_&He)]; [done|].
  by destruct (apply_entry_case _ _ _ He).
Qed.

Lemma feed_document es : forall d fsm' rs,
  run (doc_fsm d) (payloads es) = Ret (fsm', rs) ->
  feed d es = Ret (mkDoc fsm' (doc_spawned d ++ omap id rs), answers es rs).
Proof.
  induction es as [|e es IH]; intros d fsm' rs Hr; cbn [feed answers].
  { cbn in Hr. injection Hr as <- <-. cbn. rewrite app_nil_r. by destruct d. }
  unfold payloads in Hr. cbn [List.filter] in Hr. fold (has_data e). destruct (has_data e).
  - cbn [map] in Hr. apply run_cons in Hr as (a&rs'&Ha&Hr&->). cbn [fsm_Apply document_FSM].
    rewrite Ha. cbn [mbind outcome_bind fst snd].
    rewrite (IH (mkDoc (machine a) (doc_spawned d ++ callbacks a)) fsm' rs' Hr).
    cbn [mbind outcome_bind fst snd doc_spawned]. rewrite (Apply_callbacks _ _ _ Ha).
    rewrite <-app_assoc. cbn [omap list_omap id]. by destruct (response a).
  - cbn [mbind outcome_bind fst snd]. rewrite (IH d fsm' rs Hr). done.
Qed.

End feeding.

Section agreeing.
  Context `{EC : EntryCodec}.
  Implicit Types d : document.

Lemma feed_document_inv es : forall d d' xs,
  feed d es = Ret (d', xs) -> exists rs, run (doc_fsm d) (payloads es) = Ret (doc_fsm d', rs).
Proof.
  induction es as [|e es IH]; intros d d' xs Hf; cbn [feed] in Hf.
  { injection Hf as <- _. by exists []. }
  apply bind_ret in Hf as ([d1 x]&H1&Hf). apply bind_ret in Hf as ([d2 ys]&H2&Hf).
  cbn [fst snd] in *. injection Hf as <- _. destruct (IH _ _ _ H2) as [rs Hr].
  unfold payloads in *. cbn [List.filter]. fold (has_data e) in H1. destruct (has_data e).
  - cbn [fsm_Apply document_FSM] in H1. apply bind_ret in H1 as (a&Ha&H1).
    injection H1 as <- _. cbn [map run]. exists (response a :: rs). rewrite Ha.
    cbn [mbind outcome_bind]. cbn [doc_fsm] in Hr. by rewrite Hr.
  - injection H1 as <- _. by exists rs.
Qed.

Lemma payloads_app es ks : payloads (es ++ ks) = payloads es ++ payloads ks.
Proof. unfold payloads. by rewrite List.filter_app, map_app. Qed.

Lemma payloads_zlen es : zlen (payloads es) <= zlen es.
Proof.
  unfold payloads, zlen. rewrite length_map.
  pose proof (List.filter_length_le has_data es). lia.
Qed.

(** A run only appends to the revision log. *)
Lemma run_appends log fsm fsm' rs :
  run fsm log = Ret (fsm', rs) -> exists k, revisionLog fsm' = revisionLog fsm ++ k.
Proof.
  apply (run_ind (fun f => exists k, revisionLog f = revisionLog fsm ++ k)).
  2: { exists []. by rewrite app_nil_r. }
  intros f data a [k Hk] Ha.
  destruct (Apply_ret _ _ _ Ha) as [(?&_&->)|(e&_&He)]; [eauto|].
  destruct (apply_entry_case _ _ _ He); [eauto..|]. simpl. rewrite Hk, <-app_assoc. eauto.
Qed.

(** A server that starts from the document [init]. *)
Record fresh_server {L Sb} `{LogStoreSpec L} `{StableStore Sb} (init : text)
    (r : RaftNode L Sb document ApplyResult) (l : list LogEntry) : Prop := mk_fresh_server {
  fs_log : repr (logStore r) l;
  fs_applied : lastApplied r = 0;
  fs_doc : fsm r = mkDoc (NewDocumentStateMachine init) [];
  fs_commit : 0 <= commitIndex r <= zlen l;
  fs_size : zlen l <= max_int;
  fs_pending : pending_inj r
}.

(** What it has committed. *)
Definition committed_log {L Sb} (r : RaftNode L Sb document ApplyResult) (l : list LogEntry)
  : list text := payloads (take (Z.to_nat (commitIndex r)) l).

Lemma fresh_applies {L Sb} `{LogStoreSpec L} `{StableStore Sb} init
    (r : RaftNode L Sb document ApplyResult) l :
  fresh_server init r l -> Forall admitted_data (committed_log r l) ->
  2 * (zlen init + total_inserted (committed_log r l)) <= max_int ->
  exists r' f rs, applyCommitted r = Ret r' /\ lastApplied r' = commitIndex r /\
    run (NewDocumentStateMachine init) (committed_log r l) = Ret (f, rs) /\
    fsm r' = mkDoc f (omap id rs) /\
    machine_ok init (zlen init + total_inserted (committed_log r l)) f.
Proof.
  intros [Hl Ha Hd Hc Hs Hi] Hadm Hm.
  destruct (run_total init (zlen init) (NewDocumentStateMachine init) (committed_log r l))
    as (f&rs&Hr&_&Hok); [apply machine_ok_new|done|done| |].
  { unfold committed_log. pose proof (payloads_zlen (take (Z.to_nat (commitIndex r)) l)).
    cbn [revisionLog NewDocumentStateMachine]. zl. }
  assert (Hfeed : feed (fsm r) (unapplied_entries r l)
    = Ret (mkDoc f (omap id rs), answers (take (Z.to_nat (commitIndex r)) l) rs)).
  { unfold unapplied_entries. rewrite Ha, Hd. cbn [Z.to_nat drop].
    by rewrite (feed_document _ _ f rs). }
  destruct (applyCommitted_spec r l _ _ Hl ltac:(lia) ltac:(lia)
    ltac:(unfold max_int, max_uint in *; lia) Hi Hfeed) as (r'&Hr'&[B1 B2 _ _ _ _]&Hz).
  exists r', f, rs. split_and!; try done. lia.
Qed.

(** The submissions that a server has committed are the first ones of a server that
    has committed more. *)
Lemma committed_prefix {L Sb} (r1 r2 : RaftNode L Sb document ApplyResult) l1 l2 :
  commitIndex r1 <= commitIndex r2 ->
  take (Z.to_nat (commitIndex r1)) l1 = take (Z.to_nat (commitIndex r1)) l2 ->
  exists k, committed_log r2 l2 = committed_log r1 l1 ++ k /\
    (commitIndex r1 = commitIndex r2 -> k = []).
Proof.
  intros Hc Heq. unfold committed_log. set (c1 := Z.to_nat (commitIndex r1)) in *.
  set (c2 := Z.to_nat (commitIndex r2)). exists (payloads (drop c1 (take c2 l2))). split.
  - rewrite Heq, <-payloads_app. f_equal. rewrite <-(take_drop c1 (take c2 l2)) at 1.
    f_equal. rewrite take_take. f_equal. lia.
  - intros Ec. rewrite drop_ge; [done|]. rewrite length_take. unfold c1, c2. rewrite Ec. lia.
Qed.

Lemma total_inserted_app l k : total_inserted (l ++ k) = total_inserted l + total_inserted k.
Proof. unfold total_inserted. induction l as [|d l IH]; cbn [app foldr]; [done|]. rewrite IH. lia. Qed.

End agreeing.

(** * Examples

    Two servers with the same log: a no-op, and the submissions of [demo_log]. *)
Definition demo_doc_log : list LogEntry :=
  [mkLog 1 1 []; mkLog 2 1 [Byte.x00]; mkLog 3 1 [Byte.x01]; mkLog 4 1 [Byte.x00]].

Definition demo_doc_node (commit : Z) : RaftNode InmemLogStore InmemStableStore document ApplyResult :=
  mkNode (mkConfig (bytes_of "n1") demo_peers 1 1 2 None None None) 1 []
    (foldl inmem_store NewInmemLogStore demo_doc_log) ∅ Follower commit 0 ∅ [] []
    (mkDoc (NewDocumentStateMachine []) []) ∅ ∅ [] false false.

Lemma demo_doc_fresh commit : 0 <= commit <= 4 ->
  fresh_server [] (demo_doc_node commit) demo_doc_log.
Proof.
  intros Hc. constructor; try done.
  apply (inmem_stores_repr demo_doc_log _ []); [apply inmem_new_repr|].
  repeat (apply numbered_cons; split; [done|]). apply numbered_nil.
Qed.

(** * Properties *)

(** From the log to the document. A server that starts from the document [init]
    and whose committed entries are no-ops and validated submissions applies them all
    without a panic, however many there are. Its document is then what the state
    machine computes from the submissions in log order; every result has been handed
    to a goroutine for [onCommit], in that order; and its text is the replay of its
    revision log. *)
Theorem document_of_log {L Sb} `{EC : EntryCodec} `{LogStoreSpec L} `{StableStore Sb} init
    (r : RaftNode L Sb document ApplyResult) l :
  fresh_server init r l -> Forall admitted_data (committed_log r l) ->
  2 * (zlen init + total_inserted (committed_log r l)) <= max_int ->
  exists r' f rs, applyCommitted r = Ret r' /\ lastApplied r' = commitIndex r /\
    run (NewDocumentStateMachine init) (committed_log r l) = Ret (f, rs) /\
    fsm r' = mkDoc f (omap id rs) /\
    replay init (changesets (revisionLog f)) = Ret (HeadText f) /\
    Forall (fun c => Validate c = Ret tt) (changesets (revisionLog f)).
Proof.
  intros Hf Hadm Hm.
  destruct (fresh_applies init r l Hf Hadm Hm) as (r'&f&rs&Hr'&Hla&Hr&Hd&Hok).
  exists r', f, rs. split_and!; try done; [apply Hok|].
  eapply Forall_impl; [apply Hok|]. simpl. intros c [Hw _]. by apply Validate_wf.
Qed.

Lemma document_of_log_witness :
  let r := demo_doc_node 4 in
  exists r' f rs, applyCommitted (H1 := document_FSM (EC := demo_codec)) r = Ret r' /\
    lastApplied r' = 4 /\
    run (EC := demo_codec) (NewDocumentStateMachine []) demo_log = Ret (f, rs) /\
    fsm r' = mkDoc f (omap id rs) /\
    replay [] (changesets (revisionLog f)) = Ret (HeadText f) /\
    Forall (fun c => Validate c = Ret tt) (changesets (revisionLog f)).
Proof.
  exact (document_of_log (EC := demo_codec) [] (demo_doc_node 4) demo_doc_log
    (demo_doc_fresh 4 ltac:(by_compute)) ltac:(repeat constructor; by_compute)
    ltac:(by_compute)).
Defined.

(** The documents of two servers agree. Two servers that start from the same
    document and whose logs agree on the entries that the first has committed, a
    prefix of what the second has, apply them without a panic; then the first one's
    revision log is a prefix of the second's, and applying the remaining changesets of
    the second to the first one's text gives the second one's text. With the same
    commit index the two documents are the same. *)
Theorem documents_agree {L Sb} `{EC : EntryCodec} `{LogStoreSpec L} `{StableStore Sb} init
    (r1 r2 : RaftNode L Sb document ApplyResult) l1 l2 :
  fresh_server init r1 l1 -> fresh_server init r2 l2 ->
  commitIndex r1 <= commitIndex r2 ->
  take (Z.to_nat (commitIndex r1)) l1 = take (Z.to_nat (commitIndex r1)) l2 ->
  Forall admitted_data (committed_log r2 l2) ->
  2 * (zlen init + total_inserted (committed_log r2 l2)) <= max_int ->
  exists r1' r2' more, applyCommitted r1 = Ret r1' /\ applyCommitted r2 = Ret r2' /\
    revisionLog (doc_fsm (fsm r2')) = revisionLog (doc_fsm (fsm r1')) ++ more /\
    replay (HeadText (doc_fsm (fsm r1'))) (changesets more) = Ret (HeadText (doc_fsm (fsm r2'))) /\
    (commitIndex r1 = commitIndex r2 -> fsm r1' = fsm r2').
Proof.
  intros F1 F2 Hc Heq Hadm Hm. destruct (committed_prefix r1 r2 l1 l2 Hc Heq) as (k&Ek&Hk).
  destruct (fresh_applies init r2 l2 F2 Hadm Hm) as (r2'&f2&rs2&E2&_&R2&D2&O2).
  rewrite Ek in Hadm, Hm, R2. apply Forall_app in Hadm as [Hadm _].
  rewrite total_inserted_app in Hm. pose proof (total_inserted_nonneg k).
  destruct (fresh_applies init r1 l1 F1 Hadm ltac:(lia)) as (r1'&f1&rs1&E1&_&R1&D1&O1).
  rewrite run_app, R1 in R2. cbn [mbind outcome_bind fst snd] in R2. apply bind_ret in R2 as ([f2' rs']&R2&Hx). cbn [fst snd] in Hx.
  simpl in Hx. injection Hx as -> <-. destruct (run_appends _ _ _ _ R2) as [more Hmore].
  exists r1', r2', more. rewrite D1, D2. cbn [doc_fsm]. split_and!; try done.
  - pose proof (replay_split init (revisionLog f2) (length (revisionLog f1)) (HeadText f1)
      (HeadText f2)) as Hs.
    rewrite Hmore in Hs at 3. rewrite drop_app_length in Hs. apply Hs.
    + apply O2.
    + rewrite Hmore. unfold changesets. rewrite map_app, take_app_le by (by rewrite length_map).
      rewrite take_ge by (by rewrite length_map). apply O1.
  - intros Ec. rewrite (Hk Ec) in R2. cbn in R2. injection R2 as <- <-. by rewrite app_nil_r.
Qed.

Lemma documents_agree_witness :
  exists r1' r2' more,
    applyCommitted (H1 := document_FSM (EC := demo_codec)) (demo_doc_node 2) = Ret r1' /\
    applyCommitted (H1 := document_FSM (EC := demo_codec)) (demo_doc_node 4) = Ret r2' /\
    revisionLog (doc_fsm (fsm r2')) = revisionLog (doc_fsm (fsm r1')) ++ more /\
    replay (HeadText (doc_fsm (fsm r1'))) (changesets more) = Ret (HeadText (doc_fsm (fsm r2'))) /\
    (2 = 4 -> fsm r1' = fsm r2').
Proof.
  exact (documents_agree (EC := demo_codec) [] (demo_doc_node 2) (demo_doc_node 4)
    demo_doc_log demo_doc_log (demo_doc_fresh 2 ltac:(by_compute))
    (demo_doc_fresh 4 ltac:(by_compute)) ltac:(by_compute) eq_refl
    ltac:(repeat constructor; by_compute) ltac:(by_compute)).
Defined.
