(* ===== verification/Applied.v ===== *)
(** The replicated state machine across a cluster ([applyLoop] and [applyCommitted] of
    [internal/raft/raft.go], on every server of a run): the state machines of two servers
    that have applied equally many entries are equal.

    The loop reads the commit index once and then applies entry by entry while other
    goroutines append to the log and truncate it; what it applies is committed, so
    [CommitSafety] keeps it. A server that crashes applies everything again. *)
From S2P Require Import Prelude Stores Future Config Node Election Replication Rpc Leader Machine.
From S2P Require Import Restart Frame Network ElectionSafety LogMatching LeaderCompleteness CommitSafety Entries.
From S2P Require Import Changeset Apply Fsm Document.

(** * One node *)

Section node.
  Context {L Sb F R : Type} `{LogStoreSpec L} `{StableStoreSpec Sb} `{FSM F R}.
  Implicit Types r : RaftNode L Sb F R.
  Implicit Types p : proc L Sb F R.

(** What the apply loop works on, and the configuration. *)
Definition loop_state r : Z * F * Config L Sb F := (lastApplied r, fsm r, config r).

Lemma kept_machine r r' : kept r r' -> loop_state r' = loop_state r.
Proof. intros [E _ _]. unfold commits in E. unfold loop_state. congruence. Qed.

Lemma advance_machine r r' : advanceCommitIndex r = Ret r' -> loop_state r' = loop_state r.
Proof.
  unfold advanceCommitIndex. intros (c&_&Hc)%bind_ret. destruct (c <=? commitIndex r); [by injection Hc as <-|].
  destruct (GetLog (logStore r) c); [|by injection Hc as <-]. destruct (negb _); by injection Hc as <-.
Qed.

Lemma append_machine r req r' resp b : handleAppendEntries r req = Ret (r', resp, b) -> loop_state r' = loop_state r.
Proof.
  unfold handleAppendEntries. destruct (ae_Term req <? currentTerm r); [by intros [= <- _ _]|].
  intros (r1&Ha&Hh)%bind_ret.
  assert (loop_state r1 = loop_state r) as <-.
  { unfold accept_leader in Ha. apply bind_ret in Ha as (r2&Hr2&[= <-]).
    assert (kept r r2) as Hk.
    { destruct (currentTerm r <? ae_Term req); [by eapply stepDown_kept|].
      destruct (negb _); [by eapply stepDown_kept|]. injection Hr2 as <-. apply kept_refl. }
    rewrite <-(kept_machine _ _ Hk). unfold set_leaderAddr_of. by destruct (find_addr _ _). }
  apply bind_ret in Hh as ([[ct ci]|]&_&Hh); [by injection Hh as <- _ _|].
  apply bind_ret in Hh as ([log ok]&_&Hh). destruct ok; cbn in Hh; injection Hh as <- _ _; [|done].
  unfold follow_commit. by destruct (commitIndex _ <? _).
Qed.

Lemma appendNoOp_machine r r' : appendNoOp r = Ret r' -> loop_state r' = loop_state r.
Proof.
  unfold appendNoOp, or_log. by destruct (StoreLog (logStore r) (next_entry r [])); intros Hx; try done;
    injection Hx as <-.
Qed.

Lemma handleApplyRequest_machine r req r' : handleApplyRequest r req = Ret r' -> loop_state r' = loop_state r.
Proof.
  unfold handleApplyRequest. destruct (negb _).
  { intros [= <-]. apply kept_machine, resolve_kept. }
  destruct (StoreLog _ _); intros Hx; try done; injection Hx as <-; [done|].
  apply kept_machine, resolve_kept.
Qed.

(** The other goroutines leave the apply loop alone. *)
Definition undisturbed p p' : Prop := loop_state (node p') = loop_state (node p) /\ applying p' = applying p.

Lemma undisturbed_kept p r k f s w : kept (node p) r -> undisturbed p (mkProc r k f s (applying p) w).
Proof. intros Hk. split; [by apply kept_machine|done]. Qed.

Lemma main_undisturbed p p' : main_step p = Some p' -> undisturbed p p'.
Proof.
  intros Hs. unfold main_step in Hs. destruct (pc p) as [|[]| |t v []|t| | |[]|];
    try (destruct (shutdownCh (node p)); [|done]);
    try (injection Hs as <-; apply undisturbed_kept; first [apply kept_refl|apply becomeLeader_kept|apply fail_all_kept]).
  - destruct (shutdownCh (node p)), (state (node p)); injection Hs as <-; apply undisturbed_kept, kept_refl.
  - apply try_some in Hs as ([[r' req] addrs]&He%startElection_kept&Hs). cbn [fst] in Hs.
    destruct (quorum r' <=? 1); injection Hs as <-; by apply undisturbed_kept.
  - by injection Hs as <-.
  - apply try_some in Hs as (r'&E%appendNoOp_machine&[= <-]). by split.
  - case_bool_decide; injection Hs as <-; apply undisturbed_kept; [apply kept_refl|apply fail_all_kept].
  - done.
Qed.

Lemma command_undisturbed p cmd p' : command_step p cmd = Some p' -> undisturbed p p'.
Proof.
  intros Hs. destruct (command_kept _ _ _ Hs) as (r'&resp&b&Hh&Hk&_). split.
  - rewrite (kept_machine _ _ Hk). destruct cmd as [req|req|].
    + simpl in Hh. apply bind_ret in Hh as ([[r1 resp1] b1]&Hh&Hx). injection Hx as -> _ _.
      by eapply append_machine.
    + apply kept_machine. by apply (handleRPC_kept (node p) (CRequestVote req) r' resp b).
    + apply kept_machine. by apply (handleRPC_kept (node p) COther r' resp b).
  - unfold command_step in Hs. destruct (pc p) as [|[]| |t v []|t| | |[]|]; try done;
      apply try_some in Hs as ([[r2 resp2] b2]&_&Hs); repeat case_match; by injection Hs as <-.
Qed.

Lemma answer_undisturbed p k p' :
  step p k = Some p' -> (exists id resp, k = LResponse id resp) \/ (exists j resp, k = LStaleResponse j resp) ->
  undisturbed p p'.
Proof.
  intros Hs [(id&resp&->)|(j&resp&->)]; simpl in Hs.
  - unfold response_step in Hs. destruct (inflight p !! id) as [req|]; [|done].
    apply try_some in Hs as (r'&Hr&[= <-]). split; [|done]. unfold replicate_process in Hr.
    destruct (_ <? _); [by eapply kept_machine, stepDown_kept|].
    destruct (peers (node p) !! id), (aer_Success resp); try (by injection Hr as <-);
      try (by apply advance_machine in Hr). by apply bind_ret in Hr as (next&_&[= <-]).
  - unfold stale_response in Hs. destruct (stale p !! j) as [[q [req|]]|]; try done.
    destruct (_ <? _); [apply try_some in Hs as (r'&Hr%stepDown_kept&[= <-]); by apply undisturbed_kept|].
    destruct (aer_Success resp); [apply try_some in Hs as (r'&Hr%advance_machine&[= <-]); by split|].
    by apply try_some in Hs as (next&_&[= <-]).
Qed.

Lemma step_undisturbed p k p' : step p k = Some p' -> k <> LApplyWake -> k <> LApplyNext -> undisturbed p p'.
Proof.
  intros Hs Hw Ha. destruct k as [|cmd| |resp| |id|id resp|id|k|k resp| | |data c|f|f|]; try done; simpl in Hs.
  - by apply main_undisturbed.
  - by eapply command_undisturbed.
  - unfold timer_step in Hs. destruct (pc p) as [|[]| |t v []|t| | |[]|]; try done; by injection Hs as <-.
  - unfold vote_step in Hs. destruct (pc p) as [|[]| |t v []|t| | |[]|]; try done.
    destruct (currentTerm (node p) <? rvr_Term resp).
    { apply try_some in Hs as (r'&Hr%stepDown_kept&[= <-]). by apply undisturbed_kept. }
    destruct (rvr_VoteGranted resp); [destruct (_ <=? _)|]; by injection Hs as <-.
  - unfold request_step in Hs. destruct (pc p) as [|[]| |t v []|t| | |[]|]; try done.
    destruct (applyCh (node p)) as [|req rest]; [done|].
    by apply try_some in Hs as (r'&E%handleApplyRequest_machine&[= <-]).
  - unfold send_step in Hs. destruct (peers (node p) !! id) as [q|], (inflight p !! id); try done.
    apply try_some in Hs as ([req|]&_&Hs); [|done]. by injection Hs as <-.
  - apply (answer_undisturbed p (LResponse id resp) p'); eauto.
  - by injection Hs as <-.
  - unfold stale_send in Hs. destruct (stale p !! k) as [[q [es|]]|]; try done.
    apply try_some in Hs as ([req|]&_&Hs); [|done]. by injection Hs as <-.
  - apply (answer_undisturbed p (LStaleResponse k resp) p'); eauto.
  - destruct (choice_ready (node p) c); [|done]. injection Hs as <-. apply undisturbed_kept, Apply_kept.
  - injection Hs as <-. apply undisturbed_kept, resolve_kept.
  - by apply wait_step_spec in Hs as [m ->].
  - injection Hs as <-. apply undisturbed_kept, Shutdown_kept.
Qed.

(** ** What has been applied *)

(** The state machine is [f0] fed with the first [lastApplied] entries of the log, and
    the loop goes on after them, up to the commit index. *)
Record applies (f0 : F) p (l : list LogEntry) : Prop := mk_applies {
  as_last : 0 <= lastApplied (node p) <= commitIndex (node p);
  as_fsm : exists xs, feed f0 (take (Z.to_nat (lastApplied (node p))) l) = Ret (fsm (node p), xs);
  as_loop : forall idx c, applying p = Some (idx, c) ->
    idx = lastApplied (node p) + 1 /\ c <= commitIndex (node p)
}.

Lemma step_applies f0 p k p' l l' :
  repr (logStore (node p)) l -> zlen l < max_uint - 1 -> commitIndex (node p) <= zlen l ->
  commitIndex (node p) <= commitIndex (node p') ->
  take (Z.to_nat (commitIndex (node p))) l' = take (Z.to_nat (commitIndex (node p))) l ->
  step p k = Some p' -> applies f0 p l ->
  applies f0 p' l' /\ lastApplied (node p) <= lastApplied (node p') /\ config (node p') = config (node p).
Proof.
  intros Hr Hz Hcl Hcc El Hs [[Ha0 Ha] (xs&Hx) Hl].
  assert (forall m, 0 <= m <= commitIndex (node p) -> take (Z.to_nat m) l' = take (Z.to_nat m) l) as Eq.
  { intros m Hm. eapply take_eq_le; [|exact El]. lia. }
  assert (k = LApplyWake \/ k = LApplyNext \/ (k <> LApplyWake /\ k <> LApplyNext)) as [Hk|[Hk|[Hw Hn]]]
    by (destruct k; auto).
  - subst k. simpl in Hs. unfold apply_wake in Hs. destruct (applying p) eqn:Eap; [done|].
    destruct (commitNotifyCh (node p)); [|done]. injection Hs as <-. split; [|done]. split; cbn in *; [lia| |].
    + exists xs. by rewrite Eq.
    + intros idx c [= <- <-]. rewrite uwrap64_small by (zlen_facts; lia). done.
  - subst k. simpl in Hs. unfold apply_next in Hs. destruct (applying p) as [[idx c]|] eqn:Eap; [|done].
    destruct (Hl idx c eq_refl) as [-> Hc]. destruct (Z.leb_spec (lastApplied (node p) + 1) c) as [Hle|Hgt].
    2: { injection Hs as <-. split; [|done]. split; cbn in *; [lia|exists xs; by rewrite Eq|done]. }
    apply try_some in Hs as (r'&Hr'&[= <-]). zlen_facts.
    destruct (lookup_lt_is_Some_2 l (Z.to_nat (lastApplied (node p)))) as [e He]; [unfold zlen in *; lia|].
    pose proof (GetLog_hit _ l (lastApplied (node p) + 1) e Hr ltac:(lia)) as Hg.
    rewrite Z.add_simpl_r in Hg. specialize (Hg He). pose proof Hr' as Hr2. unfold apply_one in Hr2. rewrite Hg in Hr2.
    apply bind_ret in Hr2 as ([f' x]&Hf&_). destruct (apply_one_spec (node p) _ e f' x Hg Hf) as (r2&Hr2&Hap).
    rewrite Hr' in Hr2. injection Hr2 as <-.
    assert (lastApplied r' = lastApplied (node p) + 1 /\ fsm r' = f' /\ commitIndex r' = commitIndex (node p) /\
      config r' = config (node p)) as (E1&E2&E3&E4).
    { destruct Hap as [A1 A2 A3 _ _ _]. unfold unapplied in A3. split_and!; [done..|congruence|congruence]. }
    split; [|cbn; split; [lia|done]]. split; cbn; rewrite ?E1, ?E2, ?E3; [lia| |].
    + exists (xs ++ [x]). rewrite Eq by lia.
      replace (Z.to_nat (lastApplied (node p) + 1)) with (S (Z.to_nat (lastApplied (node p)))) by lia.
      rewrite (take_S_r _ _ _ He), feed_app, Hx. cbn [mbind outcome_bind fst feed]. rewrite Hf. done.
    + intros i2 c2 [= <- <-]. rewrite uwrap64_small by lia. split; [lia|done].
  - destruct (step_undisturbed p k p' Hs Hw Hn) as [Em Eap]. unfold loop_state in Em. injection Em as E1 E2 E3.
    split; [|split; [lia|done]]. split; rewrite ?Eap, ?E1, ?E2; [lia|exists xs; by rewrite Eq|].
    intros idx c Hi. destruct (Hl idx c Hi). split; [done|lia].
Qed.

End node.

(** * The cluster *)

Section cluster.
  Context {L Sb F R : Type} `{LogStoreSpec L} `{StableStoreSpec Sb} `{FSM F R}.
  Context (P : list PeerConfig).
  Context (ids_distinct : NoDup (PeerID <$> P)).
  Context (addrs_distinct : NoDup (Address <$> P)).
  Implicit Types n : network L Sb F R.

(** [f0 a] is the state machine that the server at [a] starts with. *)
Definition applied_net (f0 : text -> F) n : Prop :=
  forall a p, procs n !! a = Some p -> CFSM (config (node p)) = Some (f0 a) /\
    forall l, repr (logStore (node p)) l -> applies (f0 a) p l.

Lemma committed_here n G B a p l :
  safe_net P n G B -> procs n !! a = Some p -> repr (logStore (node p)) l ->
  committed_at P G (term p) l (commitIndex (node p)).
Proof. intros [_ _ _ Hc] Ha Hr. by apply (co_commit P n G Hc a p l). Qed.

Lemma prefix_kept ls n n' G G' B B' a p p' l l' :
  safe_net P n G B -> safe_net P n' G' B' -> aged ls n G n' G' -> spared a ls ->
  procs n !! a = Some p -> procs n' !! a = Some p' -> repr (logStore (node p)) l -> repr (logStore (node p')) l' ->
  commitIndex (node p) <= commitIndex (node p') /\
  take (Z.to_nat (commitIndex (node p))) l' = take (Z.to_nat (commitIndex (node p))) l.
Proof.
  intros Hn Hn' [Hlt Hext Hcm] Hno Ha Ha' Hr Hr'.
  destruct (Hcm a p Hno Ha) as (p2&Hp2&Hle). assert (p2 = p') as -> by congruence. split; [done|].
  pose proof (committed_here n G B a p l Hn Ha Hr) as Hc1.
  pose proof (committed_here n' G' B' a p' l' Hn' Ha' Hr') as Hc2.
  apply (committed_later P (terms n) (terms n') G G' Hlt Hext (term p) (term p)) in Hc1; [|done].
  pose proof (committed_len P _ _ _ _ Hc1).
  apply (committed_agree P n' G' (term p') (term p) l' l (commitIndex (node p')) (commitIndex (node p)));
    [apply Hn'|done|done|lia|lia].
Qed.

(** No server has applied less, unless it has crashed. *)
Definition no_less (ls : list nlabel) n n' : Prop := forall a p, spared a ls -> procs n !! a = Some p ->
  exists p', procs n' !! a = Some p' /\ lastApplied (node p) <= lastApplied (node p').

Lemma no_less_trans ls ls' n1 n2 n3 : no_less ls n1 n2 -> no_less ls' n2 n3 -> no_less (ls ++ ls') n1 n3.
Proof.
  intros H12 H23 a p [Hn Hn']%spared_app Ha. destruct (H12 a p Hn Ha) as (p2&Hp2&Hle2).
  destruct (H23 a p2 Hn' Hp2) as (p3&Hp3&Hle3). exists p3. split; [done|lia].
Qed.

(** A new process starts with the machine of its configuration, and has applied nothing. *)
Lemma applied_restarted f0 n n' l a p s p' :
  restarts_node n l n' a p s p' -> applied_net f0 n -> applied_net f0 n' /\ no_less [l] n n'.
Proof.
  intros [(ws&->&_) Ha Hr Ep _ _ _] Hap. split.
  - intros b q Hb. rewrite Ep in Hb. apply lookup_insert_Some in Hb as [[<- <-]|[_ Hb]]; [|by apply Hap].
    destruct (Hap a p Ha) as [Hm _]. destruct Hr as [X1 _ _ _ _ _ X8 X9 X10 _ (_&_&_&X12) _].
    split; [by rewrite X1|]. intros x _. split; rewrite ?X8, ?X9, ?X12; [done| |done].
    exists []. rewrite Hm in X10. injection X10 as <-. reflexivity.
  - intros b q Hne Hb. exists q. split; [|done]. rewrite Ep, lookup_insert_ne; [done|].
    intros <-. apply (Hne ws). by left.
Qed.

Lemma applied_moved f0 n n' l a p k p' G G' B :
  safe_net P n G B -> safe_net P n' G' (B + 1) -> aged [l] n G n' G' -> spared a [l] ->
  moves_node n l n' a p k p' -> B + 1 < max_uint - 1 ->
  applied_net f0 n -> applied_net f0 n' /\ no_less [l] n n'.
Proof.
  intros Hn Hn' Hag Hno [Ha Hst Ep _ _ _ _] HB Hap.
  destruct (lk_procs _ _ _ (sn_logs _ _ _ _ Hn) a p Ha) as [(lg&Hr&_&Hz&_) _ _ _].
  assert (procs n' !! a = Some p') as Ha' by (by rewrite Ep, lookup_insert_eq).
  destruct (Hap a p Ha) as [Hm Hlogs].
  assert (forall x, repr (logStore (node p')) x -> applies (f0 a) p' x /\
    lastApplied (node p) <= lastApplied (node p') /\ config (node p') = config (node p)) as Hmover.
  { intros x Hx. destruct (prefix_kept [l] n n' G G' B (B + 1) a p p' lg x) as [Hle Eq]; try done.
    pose proof (committed_len P _ _ _ _ (committed_here n G B a p lg Hn Ha Hr)).
    apply (step_applies (f0 a) p k p' lg x); try done; [lia..|]. by apply Hlogs. }
  destruct (lk_procs _ _ _ (sn_logs _ _ _ _ Hn') a p' Ha') as [(x&Hx&_) _ _ _].
  destruct (Hmover x Hx) as (_&Hle&Ec). split.
  - intros b q Hb. rewrite Ep in Hb. apply lookup_insert_Some in Hb as [[<- <-]|[_ Hb]]; [|by apply Hap].
    split; [by rewrite Ec|]. intros y Hy. by apply Hmover.
  - intros b q _ Hb. destruct (decide (b = a)) as [->|Hne]; [|exists q; by rewrite Ep, lookup_insert_ne].
    assert (q = p) as -> by congruence. by exists p'.
Qed.

Lemma applied_step f0 n n' l G G' B :
  safe_net P n G B -> safe_net P n' G' (B + 1) -> aged [l] n G n' G' -> nstep n l = Some n' -> B + 1 < max_uint - 1 ->
  applied_net f0 n -> applied_net f0 n' /\ no_less [l] n n'.
Proof.
  intros Hn Hn' Hag Hs HB Hap.
  assert ((forall b ws, l <> NRestart b ws) \/ exists b ws, l = NRestart b ws) as [Hno|(b&ws&->)]
    by (destruct l; eauto; by left).
  2: { destruct (restart_moves n b ws n' Hs) as (p&s&p'&Hrn). by eapply applied_restarted. }
  destruct (nstep_moves n l n' Hs) as [Ep _ _ _|a p k p' Hmv|a p s p' Hrn].
  - split; [intros b q Hb; apply Hap; by rewrite <-Ep|]. intros b q _ Hb. exists q. by rewrite Ep.
  - apply (applied_moved f0 n n' l a p k p' G G' B); try done.
    intros ws Hin%list_elem_of_singleton. by destruct (Hno a ws).
  - by eapply applied_restarted.
Qed.

Lemma applied_run f0 ls : forall n n' G B,
  safe_net P n G B -> applied_net f0 n -> led_run n ls -> nsteps n ls = Some n' -> 0 <= B -> B + zlen ls < 2 ^ 62 ->
  exists G', safe_net P n' G' (B + zlen ls) /\ aged ls n G n' G' /\ applied_net f0 n' /\ no_less ls n n'.
Proof.
  induction ls as [|l ls IH]; intros n n' G B Hn Hap Hl Hs HB0 HB; cbn in Hl, Hs.
  { injection Hs as <-. exists G. rewrite zlen_nil, Z.add_0_r. split_and!; [done|apply aged_refl|done|].
    intros a p _ Ha. by exists p. }
  destruct Hl as [[Ho Ht] Hl]. destruct (nstep n l) as [n1|] eqn:E; [|done]. rewrite zlen_cons in *. zlen_facts.
  destruct (safe_step P ids_distinct addrs_distinct n l n1 G B) as (G1&Hn1&Ha1&_); try done; [unfold max_uint; lia|].
  assert (applied_net f0 n1 /\ no_less [l] n n1) as [Hap1 Hnl1]
    by (apply (applied_step f0 n n1 l G G1 B); try done; unfold max_uint; lia).
  destruct (IH n1 n' G1 (B + 1)) as (G'&Hn'&Ha'&Hap'&Hnl'); try done; [lia..|].
  exists G'. split_and!; [by replace (B + (1 + zlen ls)) with (B + 1 + zlen ls) by lia| |done|].
  - by apply (aged_trans [l] ls n G n1 G1).
  - by apply (no_less_trans [l] ls n n1).
Qed.

End cluster.

(** No server joins. *)
Lemma nsteps_members {L Sb F R} `{LogStoreSpec L} `{StableStoreSpec Sb} `{FSM F R} ls : forall (n n' : network L Sb F R) a,
  nsteps n ls = Some n' -> is_Some (procs n' !! a) -> is_Some (procs n !! a).
Proof.
  induction ls as [|l ls IH]; intros n n' a Hs Ha; cbn in Hs; [by injection Hs as <-|].
  destruct (nstep n l) as [n1|] eqn:E; [|done]. apply (IH n1 n' a Hs) in Ha.
  destruct (nstep_moves n l n1 E) as [Ep _ _ _|b p k p' [Hb _ Ep _ _ _ _]|b p s p' [_ Hb _ Ep _ _ _]];
    rewrite Ep in Ha; [done|..].
  all: destruct (decide (a = b)) as [->|Hne]; [by exists p|by rewrite lookup_insert_ne in Ha].
Qed.

Lemma boot_members {L Sb F R} (nodes : gmap text (RaftNode L Sb F R)) a :
  is_Some (procs (boot nodes) !! a) -> is_Some (nodes !! a).
Proof. intros [p Hp]. cbn in Hp. rewrite lookup_fmap in Hp. destruct (nodes !! a); [eauto|done]. Qed.

(** The state machine of each server at the start. *)
Definition initial {L Sb F R} (f : F) (nodes : gmap text (RaftNode L Sb F R)) (a : text) : F :=
  match nodes !! a with Some r => fsm r | None => f end.

(** Each server's machine is the one in its configuration, as [NewRaftNode] leaves it. *)
Definition given_machines {L Sb F R} (nodes : gmap text (RaftNode L Sb F R)) : Prop :=
  forall a r, nodes !! a = Some r -> CFSM (config r) = Some (fsm r).

Lemma boot_applied {L Sb F R} `{LogStoreSpec L} `{StableStoreSpec Sb} `{FSM F R}
    (f : F) (nodes : gmap text (RaftNode L Sb F R)) :
  uncommitted nodes -> given_machines nodes -> applied_net (initial f nodes) (boot nodes).
Proof.
  intros Hu Hg a p Ha. cbn in Ha. rewrite lookup_fmap in Ha. destruct (nodes !! a) as [r|] eqn:E; [|done].
  injection Ha as <-. unfold initial. rewrite E. split; [by apply (Hg a)|]. intros l Hr.
  destruct (Hu a r E) as [Ec El]. split; cbn; rewrite ?Ec, ?El; [done| |done]. by exists [].
Qed.

(** Where two moments of a run stand. *)
Lemma cluster_applied {L Sb F R} `{LogStoreSpec L} `{StableStoreSpec Sb} `{FSM F R}
    (f : F) (P : list PeerConfig) (nodes : gmap text (RaftNode L Sb F R)) ls ls' n n' :
  cluster P nodes -> fresh_servers nodes -> uncommitted nodes -> given_machines nodes ->
  zlen (ls ++ ls') < 2 ^ 62 ->
  led_run (boot nodes) (ls ++ ls') -> nsteps (boot nodes) ls = Some n -> nsteps n ls' = Some n' ->
  exists G G' B B', B < 2 ^ 62 /\ B' < 2 ^ 62 /\ safe_net P n G B /\ safe_net P n' G' B' /\ aged ls' n G n' G' /\
    applied_net (initial f nodes) n /\ applied_net (initial f nodes) n' /\ no_less ls' n n'.
Proof.
  intros Hc Hf Hu Hg Hz Hl Hs Hs'. destruct (led_run_app ls ls' (boot nodes) n Hs Hl) as [Hl1 Hl2].
  rewrite zlen_app in Hz. pose proof (zlen_nonneg ls). pose proof (zlen_nonneg ls').
  destruct (applied_run P (cl_ids _ _ Hc) (cl_addrs _ _ Hc) (initial f nodes) ls (boot nodes) n (mkGhost ∅ ∅ ∅) 0)
    as (G&Hn&_&Hap&_); [by apply boot_safe|by apply boot_applied|done|done|lia|lia|].
  destruct (applied_run P (cl_ids _ _ Hc) (cl_addrs _ _ Hc) (initial f nodes) ls' n n' G (0 + zlen ls))
    as (G'&Hn'&Ha&Hap'&Hnl); [done..|lia|lia|].
  exists G, G', (0 + zlen ls), (0 + zlen ls + zlen ls'). split_and!; try done; lia.
Qed.

(** Two moments of a run of a cluster. *)
Section moments.
  Context {L Sb F R : Type} `{LogStoreSpec L} `{StableStoreSpec Sb} `{FSM F R}.
  Context (P : list PeerConfig) (nodes : gmap text (RaftNode L Sb F R)) (ls ls' : list nlabel).
  Context (n n' : network L Sb F R) (a b : text) (r1 r2 : RaftNode L Sb F R) (p q : proc L Sb F R).
  Context (Hcl : cluster P nodes) (Hf : fresh_servers nodes) (Hu : uncommitted nodes) (Hg : given_machines nodes).
  Context (Hz : zlen (ls ++ ls') < 2 ^ 62) (Hl : led_run (boot nodes) (ls ++ ls')).
  Context (Hs : nsteps (boot nodes) ls = Some n) (Hs' : nsteps n ls' = Some n').
  Context (Hr1 : nodes !! a = Some r1) (Hr2 : nodes !! b = Some r2) (Hsame : fsm r1 = fsm r2).
  Context (Ha : procs n !! a = Some p) (Hb : procs n' !! b = Some q).

(** The entries that a server has applied: those of its log up to [lastApplied]. *)
Definition applied_entries (r : RaftNode L Sb F R) (es : list LogEntry) : Prop :=
  zlen es = lastApplied r /\ forall i e, es !! i = Some e -> GetLog (logStore r) (Z.of_nat i + 1) = Got e.

Lemma taken_entries r l : repr (logStore r) l -> 0 <= lastApplied r <= zlen l -> zlen l < max_uint ->
  applied_entries r (take (Z.to_nat (lastApplied r)) l).
Proof.
  intros Hr Hle Hm. split; [rewrite zlen_take; lia|]. intros i e [He Hi]%lookup_take_Some.
  apply (GetLog_hit _ l _ e Hr); [unfold zlen in *; lia|]. by replace (Z.to_nat (Z.of_nat i + 1 - 1)) with i by lia.
Qed.

(** What the two servers have applied is one sequence of entries, which their logs hold. *)
Lemma applied_once : exists l k xs ys,
  feed (fsm r1) l = Ret (fsm (node p), xs) /\ feed (fsm r1) k = Ret (fsm (node q), ys) /\
  applied_entries (node p) l /\ applied_entries (node q) k /\
  forall i, (i <= length l)%nat -> (i <= length k)%nat -> take i l = take i k.
Proof.
  destruct (cluster_applied (fsm r1) P nodes ls ls' n n') as (G&G'&B&B'&HB&HB'&Hn&Hn'&[Hlt Hext _]&Hap&Hap'&_);
    try done.
  destruct (lk_procs _ _ _ (sn_logs _ _ _ _ Hn) a p Ha) as [(l&Hrl&_&Hzl&_) _ _ _].
  destruct (lk_procs _ _ _ (sn_logs _ _ _ _ Hn') b q Hb) as [(k&Hrk&_&Hzk&_) _ _ _].
  destruct (proj2 (Hap a p Ha) l Hrl) as [[A1 A2] (xs&Hx) _].
  destruct (proj2 (Hap' b q Hb) k Hrk) as [[B1 B2] (ys&Hy) _].
  unfold initial in Hx, Hy. rewrite Hr1 in Hx. rewrite Hr2, <-Hsame in Hy.
  pose proof (committed_here P n G B a p l Hn Ha Hrl) as Hc1.
  pose proof (committed_here P n' G' B' b q k Hn' Hb Hrk) as Hc2.
  pose proof (committed_len P _ _ _ _ Hc1) as L1. pose proof (committed_len P _ _ _ _ Hc2) as L2.
  apply (committed_later P (terms n) (terms n') G G' Hlt Hext (term p) (term p)) in Hc1; [|done].
  eexists _, _, xs, ys. split; [exact Hx|]. split; [exact Hy|].
  assert (2 ^ 62 < max_uint) as Hm by done.
  split; [apply taken_entries; (done || lia)|]. split; [apply taken_entries; (done || lia)|].
  intros i Hi1 Hi2. rewrite length_take in Hi1, Hi2. rewrite !take_take, !Nat.min_l by lia.
  apply (committed_agree P n' G' (term p) (term q) l k (commitIndex (node p)) (commitIndex (node q)));
    [apply Hn'|done|done|lia|lia].
Qed.

(** Applying [es] leads from the machine [f] to [g]. *)
Definition leads_to (f : F) (es : list LogEntry) (g : F) : Prop := exists xs, feed f es = Ret (g, xs).

Lemma feed_rest f l k g g' xs ys :
  feed f l = Ret (g, xs) -> feed f k = Ret (g', ys) -> (length l <= length k)%nat -> take (length l) k = l ->
  leads_to g (drop (length l) k) g'.
Proof.
  intros Hx Hy Hle Ht. rewrite <-(take_drop (length l) k), Ht, feed_app, Hx in Hy. cbn [mbind outcome_bind fst] in Hy.
  apply bind_ret in Hy as ([h zs]&Hd&E). injection E as <- _. by exists zs.
Qed.

(** The machine that has applied fewer comes to the other's state by the entries it is
    behind. *)
Lemma rest_agrees l k xs ys f g : feed (fsm r1) l = Ret (f, xs) -> feed (fsm r1) k = Ret (g, ys) ->
  (forall i, (i <= length l)%nat -> (i <= length k)%nat -> take i l = take i k) -> (length l <= length k)%nat ->
  exists more, k = l ++ more /\ leads_to f more g.
Proof.
  intros Hx Hy Eq Hle. assert (take (length l) k = l) as Ht by (rewrite <-Eq by lia; by rewrite take_ge).
  exists (drop (length l) k). split; [by rewrite <-Ht at 1; rewrite take_drop|]. by eapply feed_rest.
Qed.

Lemma machines_agree : exists es fs,
  applied_entries (node p) es /\ leads_to (fsm r1) es (fsm (node p)) /\
  applied_entries (node q) fs /\ leads_to (fsm r1) fs (fsm (node q)) /\
  (lastApplied (node p) <= lastApplied (node q) ->
     exists more, fs = es ++ more /\ leads_to (fsm (node p)) more (fsm (node q))) /\
  (lastApplied (node q) <= lastApplied (node p) ->
     exists more, es = fs ++ more /\ leads_to (fsm (node q)) more (fsm (node p))) /\
  (lastApplied (node p) = lastApplied (node q) -> fsm (node p) = fsm (node q)).
Proof.
  destruct applied_once as (l&k&xs&ys&Hx&Hy&El&Ek&Eq). exists l, k.
  pose proof (proj1 El) as Zl. pose proof (proj1 Ek) as Zk. unfold zlen in Zl, Zk.
  split_and!; [done|by exists xs|done|by exists ys|..].
  - intros Hle. eapply rest_agrees; [exact Hx|exact Hy|exact Eq|lia].
  - intros Hle. eapply rest_agrees; [exact Hy|exact Hx|intros; symmetry; auto|lia].
  - intros E. specialize (Eq (length l) ltac:(lia) ltac:(lia)). rewrite !take_ge in Eq by lia. congruence.
Qed.

End moments.

(** ** Documents *)

(** A command that every state machine can apply, and that inserts at most [K] bytes. *)
Definition fits_in `{EC : EntryCodec} (K : Z) (data : text) : Prop :=
  admitted_data data /\ inserted_data data <= K.

Lemma total_inserted_le `{EC : EntryCodec} K es : 0 <= K -> Forall (good (fits_in K)) es ->
  Forall admitted_data (payloads es) /\ total_inserted (payloads es) <= K * zlen es.
Proof.
  intros HK. induction 1 as [|e es He _ [IH1 IH2]]; [split; [by apply Forall_nil|change (0 <= K * 0); lia]|].
  unfold payloads in *. cbn [List.filter]. fold (has_data e). rewrite zlen_cons.
  assert (has_data e = true -> fits_in K (Data e)) as Hf.
  { intros Hh. destruct He as [He|He]; [|done]. unfold has_data in Hh. rewrite He in Hh. done. }
  destruct (has_data e); [|split; [done|lia]]. destruct (Hf eq_refl) as [H1 H2]. cbn [map].
  split; [by constructor|]. unfold total_inserted in *. cbn [foldr]. lia.
Qed.

(** A document can apply such commands as long as what they insert fits. *)
Lemma feed_returns `{EC : EntryCodec} (init : text) (K : Z) es : 0 <= K -> Forall (good (fits_in K)) es -> zlen es <= max_int ->
  2 * (zlen init + K * zlen es) <= max_int ->
  exists d xs, feed (mkDoc (NewDocumentStateMachine init) []) es = Ret (d, xs).
Proof.
  intros HK Hes Hz Hm. destruct (total_inserted_le K es HK Hes) as [Had Hti].
  pose proof (payloads_zlen es). pose proof (total_inserted_nonneg (payloads es)).
  destruct (run_total init (zlen init) (NewDocumentStateMachine init) (payloads es)) as (f&rs&Hr&_);
    [apply machine_ok_new|done|lia|cbn; zl|].
  eexists _, _. exact (feed_document es (mkDoc (NewDocumentStateMachine init) []) f rs Hr).
Qed.

(** The server starts with the document [init], now and after a crash. *)
Definition starts_with {L Sb} (init : text) (r : RaftNode L Sb document ApplyResult) : Prop :=
  fsm r = mkDoc (NewDocumentStateMachine init) [] /\ CFSM (config r) = Some (fsm r).

(** For documents: the revision log of the one is a prefix of the other's, and applying the
    remaining changesets to the first one's text gives the second one's. *)
Lemma cluster_documents {L Sb} `{EC : EntryCodec} `{LogStoreSpec L} `{StableStoreSpec Sb} (init : text)
    (P : list PeerConfig) (nodes : gmap text (RaftNode L Sb document ApplyResult)) ls ls' n n' a b p q :
  cluster P nodes -> fresh_servers nodes -> uncommitted nodes -> map_Forall (fun _ => starts_with init) nodes ->
  zlen (ls ++ ls') < 2 ^ 62 -> led_run (boot nodes) (ls ++ ls') ->
  nsteps (boot nodes) ls = Some n -> nsteps n ls' = Some n' -> procs n !! a = Some p -> procs n' !! b = Some q ->
  lastApplied (node p) <= lastApplied (node q) ->
  exists more, revisionLog (doc_fsm (fsm (node q))) = revisionLog (doc_fsm (fsm (node p))) ++ more /\
    replay init (changesets (revisionLog (doc_fsm (fsm (node p))))) = Ret (HeadText (doc_fsm (fsm (node p)))) /\
    replay (HeadText (doc_fsm (fsm (node p)))) (changesets more) = Ret (HeadText (doc_fsm (fsm (node q)))) /\
    (lastApplied (node p) = lastApplied (node q) -> fsm (node p) = fsm (node q)).
Proof.
  intros Hc Hf Hu Hd Hz Hl Hs Hs' Ha Hb Hle.
  destruct (boot_members nodes a) as [r1 Hr1]; [by eapply nsteps_members|].
  destruct (boot_members nodes b) as [r2 Hr2]; [eapply nsteps_members; [exact Hs|by eapply nsteps_members]|].
  destruct (Hd a r1 Hr1) as [Hd1 _], (Hd b r2 Hr2) as [Hd2 _]. assert (fsm r1 = fsm r2) as Hsame by congruence.
  assert (given_machines nodes) as Hg by (intros c r Hr; by apply (Hd c r)).
  destruct (applied_once P nodes ls ls' n n' a b r1 r2 p q) as (l&k&xs&ys&Hx&Hy&_&_&_); try done.
  destruct (machines_agree P nodes ls ls' n n' a b r1 r2 p q) as (?&?&_&_&_&_&Hcatch&_&Heq); try done.
  destruct (Hcatch Hle) as (es&_&zs&He). rewrite Hd1 in Hx, Hy. destruct (feed_document_inv _ _ _ _ Hx) as [rs1 R1].
  destruct (feed_document_inv _ _ _ _ Hy) as [rs2 R2]. destruct (feed_document_inv _ _ _ _ He) as [rs3 R3].
  apply fsm_inv_run in R1. apply fsm_inv_run in R2.
  destruct (run_appends _ _ _ _ R3) as [more Hmore]. exists more.
  split; [done|]. split; [apply R1|]. split; [|done].
  pose proof (replay_split init (revisionLog (doc_fsm (fsm (node q)))) (length (revisionLog (doc_fsm (fsm (node p)))))
    (HeadText (doc_fsm (fsm (node p)))) _ (inv_text _ _ R2)) as Hsplit. rewrite Hmore in Hsplit at 2. rewrite drop_app_length in Hsplit. apply Hsplit.
  unfold changesets. rewrite Hmore, map_app, take_app_le by (by rewrite length_map).
  rewrite take_ge by (by rewrite length_map). apply R1.
Qed.

(** * Properties *)

(** C6: replicated state machines. In every led run of a cluster that starts fresh (the runs
    of state machine safety), with the apply loops of the servers interleaved with all the
    other goroutines and with crashes, after which a server applies everything again, take
    two servers that started with the same state machine, at one moment or at two. Each
    one's state is its first one fed with the entries of its log from the first to
    [lastApplied]. The entries that the one has applied and those that the other has
    applied are the same as far as both have got: if they have applied equally many their
    state machines are equal, and otherwise the one that has applied fewer comes to the
    other's state by applying the entries of the other's log that it is behind. *)
Theorem state_machines_agree {L Sb F R} `{LogStoreSpec L} `{StableStoreSpec Sb} `{FSM F R}
    (P : list PeerConfig) (nodes : gmap text (RaftNode L Sb F R)) ls ls' n n' a b r1 r2 p q :
  cluster P nodes -> fresh_servers nodes -> uncommitted nodes -> given_machines nodes ->
  zlen (ls ++ ls') < 2 ^ 62 ->
  led_run (boot nodes) (ls ++ ls') -> nsteps (boot nodes) ls = Some n -> nsteps n ls' = Some n' ->
  nodes !! a = Some r1 -> nodes !! b = Some r2 -> fsm r1 = fsm r2 ->
  procs n !! a = Some p -> procs n' !! b = Some q ->
  exists es fs,
    applied_entries (node p) es /\ leads_to (fsm r1) es (fsm (node p)) /\
    applied_entries (node q) fs /\ leads_to (fsm r1) fs (fsm (node q)) /\
    (lastApplied (node p) <= lastApplied (node q) ->
       exists more, fs = es ++ more /\ leads_to (fsm (node p)) more (fsm (node q))) /\
    (lastApplied (node q) <= lastApplied (node p) ->
       exists more, es = fs ++ more /\ leads_to (fsm (node q)) more (fsm (node p))) /\
    (lastApplied (node p) = lastApplied (node q) -> fsm (node p) = fsm (node q)).
Proof. intros. by eapply (machines_agree P nodes ls ls' n n' a b r1 r2 p q). Qed.

(** C13: the indices of a server. In every such run, at every server what has been applied
    has been committed, what has been committed is in the log, and the log has fewer than
    2^62 entries; and what a server has committed and applied does not go back, unless it
    crashes. *)
Theorem indices_in_order {L Sb F R} `{LogStoreSpec L} `{StableStoreSpec Sb} `{FSM F R}
    (P : list PeerConfig) (nodes : gmap text (RaftNode L Sb F R)) ls ls' n n' a p p' :
  cluster P nodes -> fresh_servers nodes -> uncommitted nodes -> given_machines nodes ->
  zlen (ls ++ ls') < 2 ^ 62 ->
  led_run (boot nodes) (ls ++ ls') -> nsteps (boot nodes) ls = Some n -> nsteps n ls' = Some n' ->
  procs n !! a = Some p -> procs n' !! a = Some p' ->
  0 <= lastApplied (node p') <= commitIndex (node p') /\
  (exists last, LastIndex (logStore (node p')) = (last, None) /\ commitIndex (node p') <= last < 2 ^ 62) /\
  (spared a ls' ->
   commitIndex (node p) <= commitIndex (node p') /\ lastApplied (node p) <= lastApplied (node p')).
Proof.
  intros Hc Hf Hu Hg Hz Hl Hs Hs' Ha Ha'.
  destruct (cluster_applied (fsm (node p)) P nodes ls ls' n n') as (G&G'&B&B'&HB&HB'&Hn&Hn'&[_ _ Hcm]&_&Hap&Hnl); try done.
  destruct (lk_procs _ _ _ (sn_logs _ _ _ _ Hn') a p' Ha') as [(l&Hrl&_&Hzl&_) _ _ _].
  pose proof (committed_len P _ _ _ _ (committed_here P n' G' B' a p' l Hn' Ha' Hrl)).
  split; [by apply (proj2 (Hap a p' Ha') l)|]. split; [exists (zlen l); split; [by apply LastIndex_spec|lia]|]. intros Hno.
  destruct (Hcm a p Hno Ha) as (p1&Hp1&Hle1). destruct (Hnl a p Hno Ha) as (p2&Hp2&Hle2).
  assert (p1 = p') as -> by congruence. by assert (p2 = p') as -> by congruence.
Qed.

(** * A run in which two servers edit a document

    n1 leads the cluster of [demo_peers], appends its no-op entry and the submissions of
    Alice and Bob, commits them with n3 and has applied two of the three entries; then n3
    learns what is committed and applies it, crashes, and applies it again. *)
#[local] Instance demo_machine_FSM : FSM document ApplyResult := document_FSM (EC := demo_codec).

Definition doc_node (id : string) : RaftNode InmemLogStore InmemStableStore document ApplyResult :=
  let d := mkDoc (NewDocumentStateMachine []) [] in
  mkNode
    (mkConfig (bytes_of id) demo_peers (150 * Millisecond) (1000 * Millisecond)
      (2000 * Millisecond) (Some NewInmemLogStore) (Some (∅ : InmemStableStore)) (Some d))
    0 [] NewInmemLogStore ∅ Follower 0 0 ∅ [] [] d ∅ ∅ [] false false.

Definition doc_nodes : gmap text (RaftNode InmemLogStore InmemStableStore document ApplyResult) :=
  {[ bytes_of "h1" := doc_node "n1"; bytes_of "h2" := doc_node "n2"; bytes_of "h3" := doc_node "n3" ]}.

Definition doc_edit : list nlabel :=
  demo_race ++
  (NStep (bytes_of "h1") <$> [LMain; LMain; LMain; LMain;
     LSubmit [Byte.x00] Enqueued; LRequest; LMain; LSubmit [Byte.x01] Enqueued; LRequest; LMain]) ++
  main "h3" 1 ++ demo_exchange "h1" "n3" 0 ++ main "h3" 1 ++ demo_exchange "h1" "n3" 0 ++
  (NStep (bytes_of "h1") <$> [LApplyWake; LApplyNext; LApplyNext]).

Definition doc_follow : list nlabel :=
  main "h3" 1 ++ demo_exchange "h1" "n3" 0 ++
  (NStep (bytes_of "h3") <$> [LApplyWake; LApplyNext; LApplyNext; LApplyNext]) ++
  [NRestart (bytes_of "h3") [WTerm 1]].

Definition doc_again : list nlabel :=
  main "h3" 2 ++ demo_exchange "h1" "n3" 0 ++
  (NStep (bytes_of "h3") <$> [LApplyWake; LApplyNext; LApplyNext; LApplyNext]).

Definition doc_edited : network InmemLogStore InmemStableStore document ApplyResult :=
  default (boot doc_nodes) (nsteps (boot doc_nodes) doc_edit).
Definition doc_followed : network InmemLogStore InmemStableStore document ApplyResult :=
  default (boot doc_nodes) (nsteps doc_edited doc_follow).
Definition doc_recovered : network InmemLogStore InmemStableStore document ApplyResult :=
  default (boot doc_nodes) (nsteps doc_edited (doc_follow ++ doc_again)).
Definition doc_proc (n : network InmemLogStore InmemStableStore document ApplyResult) (a : string) :=
  default (start (doc_node "n1")) (procs n !! bytes_of a).

Example doc_texts :
  ((fun p => (lastApplied (node p), HeadText (doc_fsm (fsm (node p))))) <$>
     [doc_proc doc_edited "h1"; doc_proc doc_followed "h3"; doc_proc doc_recovered "h3"])
  = [(2, bytes_of "hi"); (0, []); (3, bytes_of "hiyo")].
Proof. vm_compute. reflexivity. Qed.

Lemma doc_cluster : cluster demo_peers doc_nodes.
Proof.
  split; [apply (bool_decide_unpack _); vm_compute; exact I..|].
  assert (forall id a, bytes_of id <> [] -> mkPeer (bytes_of id) (bytes_of a) ∈ demo_peers ->
    booted demo_peers (bytes_of a) (doc_node id)) as Hb.
  { intros id a Hid Hin. split; try done. by exists (mkPeer (bytes_of id) (bytes_of a)). }
  intros a r Hr. unfold doc_nodes in Hr.
  repeat (apply lookup_insert_Some in Hr as [[<- <-]|[_ Hr]]; [apply Hb; [done|unfold demo_peers; set_solver]|]).
  apply lookup_singleton_Some in Hr as [<- <-]. apply Hb; [done|unfold demo_peers; set_solver].
Qed.

Lemma doc_start a r : doc_nodes !! a = Some r -> exists id, r = doc_node id.
Proof.
  unfold doc_nodes. intros Hr. repeat (apply lookup_insert_Some in Hr as [[_ <-]|[_ Hr]]; [by eexists|]).
  apply lookup_singleton_Some in Hr as [_ <-]. by eexists.
Qed.

Lemma doc_fresh : fresh_servers doc_nodes.
Proof. intros a r [id ->]%doc_start. split; [apply inmem_new_repr|done]. Qed.

Lemma doc_uncommitted : uncommitted doc_nodes.
Proof. by intros a r [id ->]%doc_start. Qed.

Lemma doc_given : given_machines doc_nodes.
Proof. by intros a r [id ->]%doc_start. Qed.

Lemma doc_led : led_run (boot doc_nodes) (doc_edit ++ doc_follow ++ doc_again).
Proof. apply led_runb_led. vm_compute. reflexivity. Qed.

(** n1, which has applied two entries, gets to the state of n3 by the third; n3 has crashed
    and applied all three again. *)
Lemma state_machines_agree_witness :
  let p := doc_proc doc_edited "h1" in let q := doc_proc doc_recovered "h3" in
  exists es fs,
    applied_entries (node p) es /\ leads_to (fsm (doc_node "n1")) es (fsm (node p)) /\
    applied_entries (node q) fs /\ leads_to (fsm (doc_node "n1")) fs (fsm (node q)) /\
    (lastApplied (node p) <= lastApplied (node q) ->
       exists more, fs = es ++ more /\ leads_to (fsm (node p)) more (fsm (node q))) /\
    (lastApplied (node q) <= lastApplied (node p) ->
       exists more, es = fs ++ more /\ leads_to (fsm (node q)) more (fsm (node p))) /\
    (lastApplied (node p) = lastApplied (node q) -> fsm (node p) = fsm (node q)).
Proof.
  apply (state_machines_agree demo_peers doc_nodes doc_edit (doc_follow ++ doc_again) doc_edited doc_recovered
    (bytes_of "h1") (bytes_of "h3") (doc_node "n1") (doc_node "n3")
    (doc_proc doc_edited "h1") (doc_proc doc_recovered "h3"));
    [exact doc_cluster|exact doc_fresh|exact doc_uncommitted|exact doc_given|by_compute|exact doc_led| | |
     reflexivity|reflexivity|reflexivity|..].
  all: apply default_eq; vm_compute; reflexivity.
Defined.

(** n1 in the same run. *)
Lemma indices_in_order_witness :
  0 <= lastApplied (node (doc_proc doc_recovered "h1")) <= commitIndex (node (doc_proc doc_recovered "h1")) /\
  (exists last, LastIndex (logStore (node (doc_proc doc_recovered "h1"))) = (last, None) /\
     commitIndex (node (doc_proc doc_recovered "h1")) <= last < 2 ^ 62) /\
  (spared (bytes_of "h1") (doc_follow ++ doc_again) ->
   commitIndex (node (doc_proc doc_edited "h1")) <= commitIndex (node (doc_proc doc_recovered "h1")) /\
   lastApplied (node (doc_proc doc_edited "h1")) <= lastApplied (node (doc_proc doc_recovered "h1"))).
Proof.
  apply (indices_in_order demo_peers doc_nodes doc_edit (doc_follow ++ doc_again) doc_edited doc_recovered (bytes_of "h1"));
    [exact doc_cluster|exact doc_fresh|exact doc_uncommitted|exact doc_given|by_compute|exact doc_led|..].
  all: apply default_eq; vm_compute; reflexivity.
Defined.
