(* ===== verification/Progress.v ===== *)
(** A cluster can make progress ([internal/raft]): while a majority of the servers is up
    and their messages arrive, one of them can be elected, and a command that a client
    submits to it is committed, applied and answered. The run is built step by step: the
    timers that fire until the candidate's term is the newest ([outrun]), the votes
    ([gather]), the no-op entry ([takes_office]), the requests in [applyCh] ([serves]), the
    rounds of [replicateOnce] to each server ([catches_up], [spreads]) with the commit index
    ([leads_on]), and the apply loop ([drains], [replies]). *)
From S2P Require Import Prelude Stores Future Config Node Election Replication Rpc Sync Leader Machine Frame.
From S2P Require Import Restart Network ElectionSafety LogMatching LeaderCompleteness CommitSafety Entries.
From S2P Require Import Fsm Document Applied.

Lemma elem_of_delete {A} (l : list A) i x y : l !! i = Some x -> y ∈ l -> y <> x -> y ∈ delete i l.
Proof.
  intros Hi Hy Hne. rewrite delete_take_drop. rewrite <-(take_drop_middle l i x Hi) in Hy. set_solver.
Qed.

(** * Runs of the network *)

Section goes.
  Context {L Sb F R : Type} `{LogStoreSpec L} `{StableStoreSpec Sb} `{FSM F R}.
  Implicit Types n : network L Sb F R.
  Implicit Types p : proc L Sb F R.

(** A led run from one state of the network to another. *)
Definition runs n (ls : list nlabel) n' : Prop := nsteps n ls = Some n' /\ led_run n ls.

Lemma runs_nil n : runs n [] n.
Proof. by split. Qed.

Lemma runs_app n ls n1 ls' n2 : runs n ls n1 -> runs n1 ls' n2 -> runs n (ls ++ ls') n2.
Proof.
  revert n. induction ls as [|l ls IH]; intros n [Hs Hl] [Hs' Hl']; cbn in *; [by injection Hs as ->|].
  destruct Hl as [Ho Hl]. destruct (nstep n l) as [n0|] eqn:E; [|done].
  destruct (IH n0) as [? ?]; [by split|by split|]. split; cbn; by rewrite E.
Qed.

Lemma runs_one n l n' : nstep n l = Some n' -> orderly n l -> timely n l -> runs n [l] n'.
Proof. intros Hs Ho Ht. split; cbn; by rewrite Hs. Qed.

(** A step of one server by itself. *)
Record stepped n (a : text) p (k : label) p' n' : Prop := mk_stepped {
  sp_procs : procs n' = <[a := p']> (procs n);
  sp_calls : calls n' = calls n ++ new_calls a p k;
  sp_appends : appends n' = appends n ++ new_appends a p k
}.

Lemma runs_local n a p k p' : procs n !! a = Some p -> from_outside k = false -> step p k = Some p' ->
  term p < max_uint -> exists n', runs n [NStep a k] n' /\ stepped n a p k p' n'.
Proof.
  intros Ha Hk Hs Ht. eexists. split; [apply runs_one|].
  - cbn. unfold local_step. rewrite Ha. cbn [mbind option_bind]. rewrite Hk, Hs. reflexivity.
  - split; [|done]. intros q Hq. assert (q = p) as -> by congruence. done.
  - done.
  - by split.
Qed.

(** ** Runs without the apply loops *)

Definition aside (l : nlabel) : bool :=
  match l with NStep _ (LApplyWake | LApplyNext) | NRestart _ _ => false | _ => true end.

Definition goes n (ls : list nlabel) n' : Prop := runs n ls n' /\ forallb aside ls = true.

Lemma goes_nil n : goes n [] n.
Proof. split; [apply runs_nil|done]. Qed.

Lemma goes_app n ls n1 ls' n2 : goes n ls n1 -> goes n1 ls' n2 -> goes n (ls ++ ls') n2.
Proof. intros [Hr Ha] [Hr' Ha']. split; [by eapply runs_app|]. by rewrite forallb_app, Ha, Ha'. Qed.

Lemma goes_one n l n' : nstep n l = Some n' -> orderly n l -> timely n l -> aside l = true -> goes n [l] n'.
Proof. intros Hs Ho Ht Ha. split; [by apply runs_one|]. cbn. by rewrite Ha. Qed.

Lemma aside_prompted n l a p k : prompted n l a p k -> aside l = true -> k <> LApplyWake /\ k <> LApplyNext.
Proof. destruct 1 as [k _ ->| | | |i k]; [by destruct k|done..|by destruct k]. Qed.

(** They leave the state machines alone. *)
Lemma goes_undisturbed ls : forall n n' a p, goes n ls n' -> procs n !! a = Some p ->
  exists p', procs n' !! a = Some p' /\ undisturbed p p'.
Proof.
  induction ls as [|l ls IH]; intros n n' a p [[Hs Hl] Ha] Hp; cbn in *; [injection Hs as <-; by exists p|].
  destruct Hl as [_ Hl]. apply andb_prop in Ha as [Hal Ha]. destruct (nstep n l) as [n1|] eqn:E; [|done].
  assert (exists p1, procs n1 !! a = Some p1 /\ undisturbed p p1) as (p1&Hp1&[E1 E2]).
  { destruct (nstep_moves n l n1 E) as [Ep _ _ _|b q k q' [Hb Hq Ep _ Hpr _ _]|b q s q' [(ws&->&_) _ _ _ _ _ _]].
    - exists p. by rewrite Ep.
    - destruct (decide (a = b)) as [->|Hne]; [|exists p; by rewrite Ep, lookup_insert_ne].
      assert (q = p) as -> by congruence. exists q'. rewrite Ep, lookup_insert_eq. split; [done|].
      destruct (aside_prompted n l b p k Hpr Hal). by apply (step_undisturbed p k q').
    - done. }
  destruct (IH n1 n' a p1) as (p2&Hp2&[E3 E4]); [by repeat split|done|]. exists p2. split; [done|].
  split; congruence.
Qed.

Lemma goes_local n a p k p' : procs n !! a = Some p -> from_outside k = false -> step p k = Some p' ->
  term p < max_uint -> aside (NStep a k) = true -> exists n', goes n [NStep a k] n' /\ stepped n a p k p' n'.
Proof.
  intros Ha Hk Hs Ht Hal. destruct (runs_local n a p k p' Ha Hk Hs Ht) as (n'&Hr&Hst). exists n'.
  split; [|done]. split; [done|]. cbn [forallb]. by rewrite Hal.
Qed.

(** A step that sends nothing. *)
Lemma goes_quiet n a p k p' : procs n !! a = Some p -> from_outside k = false -> step p k = Some p' ->
  term p < max_uint -> match k with LMain => pc p <> Electing | LSend _ | LStaleSend _ | LApplyWake | LApplyNext => False | _ => True end ->
  exists n', goes n [NStep a k] n' /\ procs n' = <[a := p']> (procs n) /\ calls n' = calls n /\
    appends n' = appends n.
Proof.
  intros Ha Hk Hs Ht Hq. destruct (goes_local n a p k p' Ha Hk Hs Ht) as (n'&Hg&[E1 E2 E3]); [by destruct k|]. exists n'.
  split; [done|]. split; [done|]. split.
  - rewrite E2. destruct (no_election a p k) as [-> _]; [by destruct k|]. by rewrite app_nil_r.
  - rewrite E3. by destruct k; rewrite ?app_nil_r.
Qed.

(** Steps of the main goroutine that send nothing. *)
Inductive turns : proc L Sb F R -> list nlabel -> text -> proc L Sb F R -> Prop :=
| turns_nil p a : turns p [] a p
| turns_cons p p1 p' ls a : step p LMain = Some p1 -> pc p <> Electing -> term p < max_uint ->
    turns p1 ls a p' -> turns p (NStep a LMain :: ls) a p'.

Lemma goes_turns p ls a p' : turns p ls a p' -> forall n, procs n !! a = Some p ->
  exists n', goes n ls n' /\ procs n' = <[a := p']> (procs n) /\ calls n' = calls n /\ appends n' = appends n.
Proof.
  induction 1 as [p a|p p1 p' ls a Hs Hpc Ht _ IH]; intros n Ha.
  - exists n. split; [apply goes_nil|]. by rewrite insert_id.
  - destruct (goes_quiet n a p LMain p1 Ha eq_refl Hs Ht Hpc) as (n1&Hg1&Ep1&Ec1&Ea1).
    destruct (IH n1) as (n2&Hg2&Ep2&Ec2&Ea2); [by rewrite Ep1, lookup_insert_eq|]. exists n2.
    split; [exact (goes_app n [NStep a LMain] n1 ls n2 Hg1 Hg2)|].
    split; [by rewrite Ep2, Ep1, insert_insert_eq|]. by rewrite Ec2, Ea2.
Qed.

End goes.

(** * One server *)

Section node.
  Context {L Sb F R : Type} `{LogStoreSpec L} `{StableStoreSpec Sb} `{FSM F R}.
  Context (P : list PeerConfig) (cl : list applyRequest).
  Implicit Types r : RaftNode L Sb F R.
  Implicit Types p q : proc L Sb F R.

(** A follower that waits in its select, with the log [l], in a term up to [t]. *)
Record standby (t : Z) (l : list LogEntry) q : Prop := mk_standby {
  sb_pc : pc q = InFollower true;
  sb_state : state (node q) = Follower;
  sb_log : repr (logStore (node q)) l;
  sb_term : 0 <= term q <= t
}.

(** What an election and what follows need of a server, with the requests that wait. *)
Record able (l : list LogEntry) p : Prop := mk_able {
  ab_log : repr (logStore (node p)) l;
  ab_peers : Peers (config (node p)) = P;
  ab_open : shutdownCh (node p) = false;
  ab_queue : applyCh (node p) = cl;
  ab_commit : 0 <= commitIndex (node p) <= zlen l
}.

(** A candidate that has [v] votes and waits for more. *)
Record asking (t v : Z) (l : list LogEntry) p : Prop := mk_asking {
  as_pc : pc p = InCandidate t v true;
  as_state : state (node p) = Candidate;
  as_term : term p = t;
  as_able : able l p
}.

Lemma standby_le t t' l q : t <= t' -> standby t l q -> standby t' l q.
Proof. intros Hle [S1 S2 S3 S4]. split; [done..|lia]. Qed.

(** [startElection], with what it asks for. *)
Lemma startElection_asks r l : repr (logStore r) l -> zlen l <= max_uint -> 0 <= currentTerm r < max_uint ->
  exists r', startElection r = Ret (r', mkRV (currentTerm r + 1) (ServerID (config r)) (zlen l) (last_term l),
      Address <$> filter (fun c => PeerID c <> ServerID (config r)) (Peers (config r))) /\
    state r' = state r /\ currentTerm r' = currentTerm r + 1 /\ config r' = config r /\
    logStore r' = logStore r /\ shutdownCh r' = shutdownCh r /\ applyCh r' = applyCh r /\ commitIndex r' = commitIndex r.
Proof.
  intros Hr Hz Ht. unfold startElection.
  destruct (persistState_total (set_votedFor (ServerID (config r)) (set_currentTerm (currentTerm r +ᵤ 1)%go r)))
    as (r'&->&Hs). cbn [mbind outcome_bind]. unfold same_but_stable in Hs.
  rewrite uwrap64_small in Hs by lia.
  assert (logStore r' = logStore r) as El by (by rewrite Hs).
  rewrite (lastLogInfo_log r' l) by (rewrite ?El; done). exists r'.
  assert (currentTerm r' = currentTerm r + 1 /\ config r' = config r) as [Et Ec] by (by rewrite Hs).
  rewrite Et, Ec. split; [done|]. by rewrite Hs.
Qed.

(** From the top of [run] as a candidate to the select of [runCandidate]. *)
Lemma stands l p : pc p = AtRun -> state (node p) = Candidate -> able l p -> zlen l <= max_uint ->
  0 <= term p < max_uint -> 2 <= zlen P -> exists r,
    startElection (node p) = Ret (r, mkRV (term p + 1) (id_of p) (zlen l) (last_term l),
      Address <$> filter (fun c => PeerID c <> id_of p) P) /\
    step p LMain = Some (goto p (node p) Electing) /\
    step (goto p (node p) Electing) LMain = Some (goto p r (InCandidate (term p + 1) 1 false)) /\
    step (goto p r (InCandidate (term p + 1) 1 false)) LMain = Some (goto p r (InCandidate (term p + 1) 1 true)) /\
    asking (term p + 1) 1 l (goto p r (InCandidate (term p + 1) 1 true)) /\ config r = config (node p).
Proof.
  intros Hpc Hst [Hl Hp Ho Hq Hc] Hz Ht HP.
  destruct (startElection_asks (node p) l Hl Hz Ht) as (r&He&Es&Et&Ec&El&Eo&Eq&Ei). rewrite Hp in He. exists r.
  split; [exact He|]. cbn [step]. unfold main_step. rewrite Hpc, Ho, Hst. split; [done|]. cbn [pc node goto].
  rewrite He. cbn [try]. split.
  - unfold quorum. cbn [fst]. rewrite Ec, Hp. pose proof (Z.div_le_lower_bound (zlen P) 2 1).
    destruct (Z.leb_spec (zlen P / 2 + 1) 1); [lia|]. unfold term in *. by rewrite Et.
  - rewrite Es, Hst, bool_decide_true by done. split; [done|]. split; [|done].
    split; cbn; [done|congruence|unfold term; cbn; lia|]. split; cbn; by rewrite ?El, ?Ec, ?Eo, ?Eq, ?Ei.
Qed.

(** The timer fires. *)
Lemma timer_stands l p : able l p -> (pc p = InFollower true \/ exists t v, asking t v l p) ->
  exists p', step p LTimer = Some p' /\ pc p' = AtRun /\ state (node p') = Candidate /\ able l p' /\
    term p' = term p /\ id_of p' = id_of p.
Proof.
  intros [Hl Hp Ho Hq Hc] [Hpc|(t&v&[Hpc Hst _ _])]; cbn [step]; unfold timer_step; rewrite Hpc;
    (eexists; split; [reflexivity|]); by split_and!.
Qed.

(** A voter that is asked for a newer term, by a candidate whose log is no older. *)
Lemma votes_for t l q req : standby t l q -> zlen l <= max_uint -> t < rv_Term req ->
  isLogUpToDate (rv_LastLogTerm req) (rv_LastLogIndex req) (last_term l) (zlen l) = true ->
  exists q1 q2, handleRPC (node q) (CRequestVote req) = Ret (node q1, RRequestVote (mkRVR (rv_Term req) true), true) /\
    step q (LCommand (CRequestVote req)) = Some q1 /\ step q1 LMain = Some q2 /\ pc q1 <> Electing /\
    term q1 = rv_Term req /\ standby (rv_Term req) l q2.
Proof.
  intros [Hpc Hst Hl Ht] Hz Hlt Hup. destruct (handleRequestVote_spec (node q) req) as (r&Hh&Hs).
  assert (vote_ok (node q) req = true) as Hok.
  { unfold vote_ok. rewrite (lastLogInfo_log (node q) l) by done. cbn [fst snd]. unfold term in *.
    rewrite (proj2 (Z.leb_le _ _)), (proj2 (Z.ltb_lt _ _)) by lia. by rewrite Hup. }
  rewrite Hok in Hh, Hs. replace (Z.max (currentTerm (node q)) (rv_Term req)) with (rv_Term req) in Hh by (unfold term in *; lia).
  assert (state r = Follower /\ currentTerm r = rv_Term req /\ logStore r = logStore (node q)) as (Es&Et&El).
  { unfold same_but_stable in Hs. rewrite Hs. unfold at_term, term in *. by rewrite (proj2 (Z.ltb_lt _ _)) by lia. }
  assert (handleRPC (node q) (CRequestVote req) = Ret (r, RRequestVote (mkRVR (rv_Term req) true), true)) as HR
    by (cbn [handleRPC]; by rewrite Hh).
  exists (goto q r (InFollower false)), (goto q r (InFollower true)). split; [exact HR|]. cbn [step].
  unfold command_step. rewrite Hpc, HR. cbn [try fst]. split; [done|]. split.
  { unfold main_step. cbn [pc goto node]. by rewrite bool_decide_true. }
  split; [done|]. split; [done|]. split; cbn; rewrite ?El; try done. unfold term in *. cbn. lia.
Qed.

(** A vote is counted. *)
Lemma counts_vote t v l p : asking t v l p ->
  step p (LVote (mkRVR t true)) =
    Some (if quorum (node p) <=? v + 1 then win p (node p) t else goto p (node p) (InCandidate t (v + 1) false)).
Proof.
  intros [Hpc Hst Ht _]. cbn [step]. unfold vote_step. rewrite Hpc. cbn [rvr_Term rvr_VoteGranted]. unfold term in Ht.
  rewrite Ht, Z.ltb_irrefl. by destruct (_ <=? _).
Qed.

End node.

(** * An election *)

Section election.
  Context {L Sb F R : Type} `{LogStoreSpec L} `{StableStoreSpec Sb} `{FSM F R}.
  Context (P : list PeerConfig) (cl : list applyRequest).
  Implicit Types p q : proc L Sb F R.
  Implicit Types n : network L Sb F R.

Definition ask (a : text) (p : proc L Sb F R) (t : Z) (l : list LogEntry) (b : text) : vote_call :=
  mkVoteCall a b (mkRV t (id_of p) (zlen l) (last_term l)) None.

Definition others (id : text) : list text := Address <$> filter (fun c => PeerID c <> id) P.

(** One attempt: the timer fires and the votes are asked for. *)
Lemma campaign n a p l : procs n !! a = Some p -> able P cl l p -> (pc p = InFollower true \/ exists t v, asking P cl t v l p) ->
  zlen l <= max_uint -> 0 <= term p -> term p + 1 < max_uint -> 2 <= zlen P ->
  exists ls n' p', goes n ls n' /\ procs n' = <[a := p']> (procs n) /\ asking P cl (term p + 1) 1 l p' /\
    id_of p' = id_of p /\ (forall b, b ∈ others (id_of p) -> ask a p' (term p + 1) l b ∈ calls n').
Proof.
  intros Ha Hab Hpc Hz Hpos Ht HP.
  destruct (timer_stands P cl l p Hab Hpc) as (p1&Hs1&Hpc1&Hst1&Hab1&Et1&Ei1).
  destruct (stands P cl l p1 Hpc1 Hst1 Hab1 Hz) as (r&He&Hs2&Hs3&Hs4&Has&Ec); [rewrite Et1; lia|done|].
  rewrite Et1, Ei1 in *.
  destruct (goes_quiet n a p LTimer p1) as (n1&Hg1&Ep1&_); [done|done|done|lia|done|].
  assert (procs n1 !! a = Some p1) as Ha1 by (by rewrite Ep1, lookup_insert_eq).
  destruct (goes_quiet n1 a p1 LMain _ Ha1 eq_refl Hs2) as (n2&Hg2&Ep2&_); [lia|by rewrite Hpc1|].
  assert (procs n2 !! a = Some (goto p1 (node p1) Electing)) as Ha2 by (by rewrite Ep2, lookup_insert_eq).
  destruct (goes_local n2 a _ LMain _ Ha2 eq_refl Hs3) as (n3&Hg3&[Ep3 Ec3 _]); [unfold term in *; cbn; lia|done|].
  set (p3 := goto p1 r (InCandidate (term p + 1) 1 false)) in *.
  assert (procs n3 !! a = Some p3) as Ha3 by (by rewrite Ep3, lookup_insert_eq).
  assert (term p3 = term p + 1) as Et3 by (by destruct Has as [_ _ Et _]).
  destruct (goes_quiet n3 a p3 LMain _ Ha3 eq_refl Hs4) as (n4&Hg4&Ep4&Ec4&_); [lia|done|].
  exists ([NStep a LTimer] ++ [NStep a LMain] ++ [NStep a LMain] ++ [NStep a LMain]), n4, (goto p1 r (InCandidate (term p + 1) 1 true)).
  split; [by eapply goes_app, goes_app, goes_app|]. split; [by rewrite Ep4, Ep3, Ep2, Ep1, !insert_insert_eq|].
  split; [done|].
  assert (id_of (goto p1 r (InCandidate (term p + 1) 1 true)) = id_of p) as Ei4 by (unfold id_of in *; cbn; by rewrite Ec).
  split; [done|]. intros b Hb. rewrite Ec4, Ec3. apply elem_of_app. right. unfold new_calls. cbn [pc goto node].
  rewrite He. apply list_elem_of_fmap. exists b. split; [unfold ask; by rewrite Ei4|done].
Qed.

(** As many attempts as it takes to pass a term. *)
Lemma outrun k : forall n a p l, procs n !! a = Some p -> able P cl l p ->
  (pc p = InFollower true \/ exists t v, asking P cl t v l p) ->
  zlen l <= max_uint -> 0 <= term p -> term p + 1 + Z.of_nat k < max_uint -> 2 <= zlen P ->
  exists ls n' p', goes n ls n' /\ procs n' = <[a := p']> (procs n) /\ asking P cl (term p + 1 + Z.of_nat k) 1 l p' /\
    id_of p' = id_of p /\ (forall b, b ∈ others (id_of p) -> ask a p' (term p + 1 + Z.of_nat k) l b ∈ calls n').
Proof.
  induction k as [|k IH]; intros n a p l Ha Hab Hpc Hz Hpos Ht HP.
  - rewrite Z.add_0_r in *. by apply campaign.
  - destruct (campaign n a p l) as (ls&n1&p1&Hg&Ep&Has&Ei&_); try done; [lia|].
    pose proof Has as [_ _ Et Hab1].
    destruct (IH n1 a p1 l) as (ls'&n2&p2&Hg2&Ep2&Has2&Ei2&Hc2); try done; [by rewrite Ep, lookup_insert_eq|right; by eauto|lia..|].
    exists (ls ++ ls'), n2, p2. rewrite Et, Ei in *.
    replace (term p + 1 + 1 + Z.of_nat k) with (term p + 1 + Z.of_nat (S k)) in * by lia.
    split; [by eapply goes_app|]. split; [by rewrite Ep2, Ep, insert_insert_eq|]. by rewrite Ei2.
Qed.

(** ** The votes *)

(** A server that can be asked for a vote in the term [t]. *)
Definition voter (t : Z) (l k : list LogEntry) q : Prop :=
  standby (t - 1) k q /\ zlen k <= max_uint /\ isLogUpToDate (last_term l) (zlen l) (last_term k) (zlen k) = true.

Lemma deliver_request n a p b q t l k :
  procs n !! b = Some q -> voter t l k q -> ask a p t l b ∈ calls n ->
  exists i n' q1 q2, goes n [NVoteRequest i] n' /\ procs n' = <[b := q1]> (procs n) /\
    step q1 LMain = Some q2 /\ pc q1 <> Electing /\ term q1 = t /\ standby t k q2 /\
    mkVoteCall a b (vc_req (ask a p t l b)) (Some (mkRVR t true)) ∈ calls n' /\
    (forall c, c ∈ calls n -> c <> ask a p t l b -> c ∈ calls n').
Proof.
  intros Hb (Hsb&Hz&Hup) [i Hi]%list_elem_of_lookup.
  destruct (votes_for (t - 1) k q (vc_req (ask a p t l b)) Hsb Hz) as (q1&q2&HR&Hs1&Hs2&Hpc&Ht&Hsb2); [cbn; lia|exact Hup|].
  cbn [ask vc_req rv_Term] in Ht, Hsb2. exists i. eexists _, q1, q2. split; [apply goes_one|].
  - cbn [nstep]. unfold vote_request. rewrite Hi. cbn [mbind option_bind ask vc_resp vc_to vc_req]. rewrite Hb.
    cbn [mbind option_bind]. unfold ask in Hs1, HR. cbn [vc_req] in Hs1, HR. rewrite Hs1. cbn [mbind option_bind]. rewrite HR. reflexivity.
  - by split.
  - done.
  - done.
  - cbn [procs calls]. split_and!; try done.
    + apply list_elem_of_lookup. exists i. rewrite list_lookup_insert_eq; [done|]. by apply lookup_lt_Some in Hi.
    + intros c [j Hj]%list_elem_of_lookup Hne. apply list_elem_of_lookup. exists j.
      rewrite list_lookup_insert_ne; [done|]. intros ->. congruence.
Qed.

Lemma deliver_vote n a p b t v l req : procs n !! a = Some p -> asking P cl t v l p -> rv_Term req = t ->
  mkVoteCall a b req (Some (mkRVR t true)) ∈ calls n ->
  exists i n', goes n [NVoteResponse i] n' /\
    procs n' = <[a := if quorum (node p) <=? v + 1 then win p (node p) t
                      else goto p (node p) (InCandidate t (v + 1) false)]> (procs n) /\
    (forall c, c ∈ calls n -> c <> mkVoteCall a b req (Some (mkRVR t true)) -> c ∈ calls n').
Proof.
  intros Ha Has Hreq [i Hi]%list_elem_of_lookup. pose proof Has as [Hpc _ _ _].
  exists i. eexists. split; [apply goes_one|].
  - cbn [nstep]. unfold vote_response. rewrite Hi. cbn [mbind option_bind vc_resp vc_from vc_req vc_to]. rewrite Ha.
    cbn [mbind option_bind]. rewrite Hpc, Hreq, Z.eqb_refl, (counts_vote P cl t v l p Has). reflexivity.
  - by split.
  - done.
  - done.
  - cbn [procs calls]. split; [done|]. intros c Hc Hne. by apply (elem_of_delete _ i _ _ Hi).
Qed.

(** A voter of [Q] is asked, answers, and is counted. *)
Lemma gets_vote n a p b q t v l k : a <> b -> t < max_uint -> procs n !! a = Some p -> asking P cl t v l p ->
  procs n !! b = Some q -> voter t l k q -> ask a p t l b ∈ calls n ->
  exists ls n' q', goes n ls n' /\ standby t k q' /\
    procs n' = <[a := if quorum (node p) <=? v + 1 then win p (node p) t
                      else goto p (node p) (InCandidate t (v + 1) true)]> (<[b := q']> (procs n)) /\
    (forall c, c <> b -> ask a p t l c ∈ calls n -> ask a p t l c ∈ calls n').
Proof.
  intros Hab Ht Ha Has Hb Hv Hc. pose proof Has as [_ Hst Et _].
  destruct (deliver_request n a p b q t l k Hb Hv Hc) as (i&n1&q1&q2&Hg1&Ep1&Hs2&Hpc&Eq1&Hsb&Hin&Hk1).
  assert (procs n1 !! b = Some q1) as Hb1 by (by rewrite Ep1, lookup_insert_eq).
  destruct (goes_quiet n1 b q1 LMain q2 Hb1 eq_refl Hs2) as (n2&Hg2&Ep2&Ec2&_); [lia|done|].
  assert (procs n2 !! a = Some p) as Ha2 by (by rewrite Ep2, Ep1, !lookup_insert_ne).
  destruct (deliver_vote n2 a p b t v l (vc_req (ask a p t l b)) Ha2 Has eq_refl) as (j&n3&Hg3&Ep3&Hk3); [rewrite Ec2; exact Hin|].
  assert (forall c, c <> b -> ask a p t l c ∈ calls n -> ask a p t l c ∈ calls n3) as Hkeep.
  { intros c Hne Hcn. apply Hk3; [|done]. rewrite Ec2. apply Hk1; [done|]. unfold ask. congruence. }
  pose proof (goes_app _ _ _ _ _ Hg1 (goes_app _ _ _ _ _ Hg2 Hg3)) as Hg. rewrite Ep2, Ep1, insert_insert_eq in Ep3.
  destruct (quorum (node p) <=? v + 1).
  { exists ([NVoteRequest i] ++ [NStep b LMain] ++ [NVoteResponse j]), n3, q2. by split_and!. }
  set (p1 := goto p (node p) (InCandidate t (v + 1) false)) in *.
  destruct (goes_quiet n3 a p1 LMain (goto p (node p) (InCandidate t (v + 1) true))) as (n4&Hg4&Ep4&Ec4&_).
  - by rewrite Ep3, lookup_insert_eq.
  - done.
  - cbn [step]. unfold main_step. cbn [pc goto p1 node]. by rewrite Hst, bool_decide_true.
  - unfold term in *. cbn. lia.
  - done.
  - eexists _, n4, q2. split; [by eapply goes_app|]. split; [done|].
    split; [by rewrite Ep4, Ep3, insert_insert_eq|]. by rewrite Ec4.
Qed.

(** The votes of [Q] are enough. *)
Lemma gather (a : text) t l (lg : text -> list LogEntry) Q : forall n p v,
  NoDup Q -> a ∉ Q -> t < max_uint -> procs n !! a = Some p -> asking P cl t v l p ->
  v < quorum (node p) <= v + zlen Q -> (forall b, b ∈ Q -> ask a p t l b ∈ calls n) ->
  (forall b, b ∈ Q -> exists q, procs n !! b = Some q /\ voter t l (lg b) q) ->
  exists ls n' p', goes n ls n' /\ procs n' !! a = Some p' /\ pc p' = Elected t /\ node p' = node p /\
    (forall b, b ∈ Q -> exists q, procs n' !! b = Some q /\ standby t (lg b) q) /\
    (forall b, b ∉ a :: Q -> procs n' !! b = procs n !! b).
Proof.
  induction Q as [|b Q IH]; intros n p v Hnd Hna Ht Ha Has Hq Hcalls Hvoters; [zl|].
  apply NoDup_cons in Hnd as [Hb Hnd]. apply not_elem_of_cons in Hna as [Hab Hna].
  destruct (Hvoters b) as (q&Hbq&Hv); [by left|].
  destruct (gets_vote n a p b q t v l (lg b) Hab Ht Ha Has Hbq Hv) as (ls&n1&q'&Hg&Hsb&Ep&Hkeep); [apply Hcalls; by left|].
  assert (forall c, c ∈ Q -> procs n1 !! c = procs n !! c) as Hsame.
  { intros c Hc. rewrite Ep, !lookup_insert_ne; [done|by intros ->|by intros ->]. }
  destruct (Z.leb_spec (quorum (node p)) (v + 1)) as [Hwin|Hmore].
  - exists ls, n1, (win p (node p) t). split; [done|]. split; [by rewrite Ep, lookup_insert_eq|]. split; [done|].
    split; [done|]. split.
    + intros c [->|Hc]%elem_of_cons; [exists q'; split; [by rewrite Ep, lookup_insert_ne, lookup_insert_eq|done]|].
      destruct (Hvoters c) as (qc&Hqc&(Hsc&_)); [by right|]. exists qc. rewrite Hsame by done. split; [done|].
      eapply standby_le; [|exact Hsc]. lia.
    + intros c Hc. rewrite Ep, !lookup_insert_ne; [done|set_solver..].
  - destruct (IH n1 (goto p (node p) (InCandidate t (v + 1) true)) (v + 1)) as (ls'&n2&p2&Hg2&Ha2&Hpc2&En2&Hv2&Ho2); try done.
    + by rewrite Ep, lookup_insert_eq.
    + destruct Has as [_ Hst Et [A1 A2 A3 A4 A5]]. split; [done..|by split].
    + cbn. zl.
    + intros c Hc. apply (Hkeep c); [by intros ->|]. apply Hcalls. by right.
    + intros c Hc. rewrite Hsame by done. apply Hvoters. by right.
    + exists (ls ++ ls'), n2, p2. split; [by eapply goes_app|]. split_and!; try done.
      * intros c [->|Hc]%elem_of_cons; [|by apply Hv2]. exists q'. split; [|done].
        rewrite Ho2 by set_solver. by rewrite Ep, lookup_insert_ne, lookup_insert_eq.
      * intros c Hc. rewrite Ho2 by set_solver. rewrite Ep, !lookup_insert_ne; [done|set_solver..].
Qed.

End election.

(** * Taking office *)

Section office.
  Context {L Sb F R : Type} `{LogStoreSpec L} `{!LogStoreReliable L} `{StableStoreSpec Sb} `{FSM F R}.
  Context (P : list PeerConfig).
  Context (ids_distinct : NoDup (PeerID <$> P)) (several : 2 <= zlen P).
  Implicit Types p q : proc L Sb F R.
  Implicit Types n : network L Sb F R.

(** The leader alone is no majority. *)
Lemma few : ~ zlen P / 2 < 1 + zlen (@nil text).
Proof. pose proof several. pose proof (Z.div_le_lower_bound (zlen P) 2 1). rewrite zlen_nil. lia. Qed.

(** What the leader keeps for a peer while it replicates the log [l]: those in [D] have
    answered that they have it all. *)
Definition place_ok (l : list LogEntry) (D : list text) (x : peerState) : Prop :=
  1 <= nextIndex x /\ 0 <= matchIndex x <= zlen l /\
  if decide (ps_addr x ∈ D) then matchIndex x = zlen l else nextIndex x <= zlen l.

(** The leader at [a] of the term [t], whose log [l] ends with an entry of its own. *)
Record leading (a : text) (t : Z) (l : list LogEntry) (D : list text) p : Prop := mk_leading {
  lg_pc : pc p = InLeader true;
  lg_state : state (node p) = Leader;
  lg_term : term p = t;
  lg_log : repr (logStore (node p)) l;
  lg_last : exists e, last l = Some e /\ Term e = t;
  lg_staffed : staffed P a (places (node p));
  lg_peers : forall id x, peers (node p) !! id = Some x -> place_ok l D x;
  lg_commit : 0 <= commitIndex (node p) <= zlen l;
  lg_majority : zlen P / 2 < 1 + zlen D -> commitIndex (node p) = zlen l;
  lg_token : commitIndex (node p) = zlen l -> commitNotifyCh (node p) = true;
  lg_idle : inflight p = ∅
}.

(** The requests that wait for their answer. *)
Definition papers (r : RaftNode L Sb F R) := (pendingFutures r, futures r).

(** The entry that comes after the log [l] in the term [t]. *)
Definition following (l : list LogEntry) (t : Z) (data : text) : LogEntry := mkLog (zlen l + 1) t data.

(** A leader has stored an entry of its own. *)
Record stored (r : RaftNode L Sb F R) l data (r' : RaftNode L Sb F R) : Prop := mk_stored {
  so_log : repr (logStore r') (l ++ [following l (currentTerm r) data]);
  so_state : state r' = state r;
  so_term : currentTerm r' = currentTerm r;
  so_commit : commitIndex r' = commitIndex r;
  so_places : places r' = places r;
  so_peers : forall id x, peers r' !! id = Some x -> exists y, peers r !! id = Some y /\
    ps_addr x = ps_addr y /\ nextIndex x = nextIndex y /\ matchIndex x = matchIndex y
}.

Lemma stores (r : RaftNode L Sb F R) l data : repr (logStore r) l -> zlen l < max_uint - 1 ->
  0 <= currentTerm r <= max_uint -> exists s, StoreLog (logStore r) (next_entry r data) = Ret s /\
    forall m, stored r l data (triggerReplication (set_pendingFutures m (set_logStore s r))).
Proof.
  intros Hr Hz Ht.
  assert (exists s, StoreLog (logStore r) (next_entry r data) = Ret s) as [s Hs].
  { assert (is_ret (StoreLog (logStore r) (next_entry r data)) = true) as Hok.
    { apply (StoreLogs_reliable _ l); [done|]. unfold next_entry. rewrite (LastIndex_spec _ _ Hr). cbn [fst].
      zlen_facts. rewrite uwrap64_small by lia. apply numbered_cons. split; [done|apply numbered_nil]. }
    destruct (StoreLog _ _) as [s| | |]; [by exists s|done..]. }
  exists s. split; [done|]. intros m. split; cbn; try done.
  - by eapply store_own.
  - unfold places. cbn. by rewrite <-map_fmap_compose.
  - intros id x. rewrite lookup_fmap. intros (y&->&->)%fmap_Some. by exists y.
Qed.

Lemma appendNoOp_stores (r : RaftNode L Sb F R) l : repr (logStore r) l -> zlen l < max_uint - 1 ->
  0 <= currentTerm r <= max_uint -> exists r', appendNoOp r = Ret r' /\ stored r l [] r'.
Proof.
  intros Hr Hz Ht. destruct (stores r l [] Hr Hz Ht) as (s&Hs&Hst). unfold appendNoOp. rewrite Hs. cbn [or_log].
  eexists. split; [reflexivity|]. exact (Hst (pendingFutures r)).
Qed.

Lemma takes_office cl (a : text) t l p : pc p = Elected t -> term p = t -> 0 <= t < max_uint -> able P cl l p ->
  zlen l < max_uint - 1 ->
  (exists c, c ∈ P /\ PeerID c = ServerID (config (node p)) /\ Address c = a) ->
  exists ls p', turns p ls a p' /\ leading a t (l ++ [following l t []]) [] p' /\ applyCh (node p') = cl.
Proof.
  intros Hpc Ht Hrange [Hl Hp Ho Hq Hc] Hz Hself. pose proof (becomeLeader_role (node p)) as (Es&Et&_&Ec)%role_proj.
  pose proof (becomeLeader_kept (node p)) as [Ek El _]. pose proof (becomeLeader_queue (node p)) as Eq.
  injection Eq as Eq Eo. injection Ek as _ Eci _ _ _. set (r1 := becomeLeader (node p)) in *.
  assert (term p = currentTerm r1) as Et1 by (unfold term; congruence).
  destruct (appendNoOp_stores (initLeader r1) l) as (r2&Hn&[Hl2 Es2 Et2 Ec2 Epl Hpeers]);
    [cbn; by rewrite El|lia|cbn; lia|]. pose proof (appendNoOp_queue _ _ Hn) as Eq2. injection Eq2 as Eq2 _. cbn [initLeader set_peers currentTerm state commitIndex applyCh] in Es2, Et2, Ec2, Eq2, Hl2.
  set (p1 := goto p r1 AtRun). set (p2 := goto p1 r1 LeaderInit).
  set (p3 := mkProc (initLeader r1) LeaderNoOp ∅ (retire p2) (applying p2) (won p2)).
  exists [NStep a LMain; NStep a LMain; NStep a LMain; NStep a LMain; NStep a LMain], (goto p3 r2 (InLeader true)).
  split.
  { apply (turns_cons _ p1); [cbn [step]; unfold main_step; by rewrite Hpc|by rewrite Hpc|lia|].
    apply (turns_cons _ p2); [cbn [step]; unfold main_step; cbn; by rewrite Eo, Ho, Es|done|unfold term; cbn; lia|].
    apply (turns_cons _ p3); [done|done|unfold term; cbn; lia|].
    apply (turns_cons _ (goto p3 r2 (InLeader false))); [cbn [step]; unfold main_step; cbn [pc node p3]; by rewrite Hn|done|unfold term; cbn; lia|].
    apply (turns_cons _ (goto p3 r2 (InLeader true))); [|done|unfold term; cbn; lia|constructor].
    cbn [step]. unfold main_step. cbn [pc node goto]. by rewrite bool_decide_true by congruence. }
  split; [|cbn; congruence]. rewrite <-Et1, Ht in Hl2. split; cbn [goto pc node p3 inflight]; try done.
  - congruence.
  - unfold term. cbn. congruence.
  - exists (following l t []). by rewrite last_snoc.
  - rewrite Epl. by apply (init_believed P ids_distinct (∅ : acknowledged) r1 a t); rewrite ?Ec.
  - intros id x (y&[En Em]%initLeader_peers&_&Ex&Ey)%Hpeers. unfold place_ok.
    rewrite decide_False by (by intros ?%elem_of_nil). rewrite Ex, Ey, En, Em, El, (LastIndex_spec _ _ Hl). cbn [fst].
    zlen_facts. rewrite uwrap64_small by lia. zl.
  - rewrite Ec2, Eci. zl.
  - by intros ?%few.
  - rewrite Ec2, Eci. zl.
Qed.

(** ** Clients *)

(** The log gets longer. *)
Lemma leading_stores a t l p data r : leading a t l [] p -> zlen l < max_uint - 1 -> stored (node p) l data r ->
  leading a t (l ++ [following l t data]) [] (goto p r (InLeader true)).
Proof.
  intros [Hpc Hst Ht Hl Hlast Hsf Hps Hc Hmaj _ Hidle] Hz [Sl Ss St Sc Sp Speers]. unfold term in Ht. rewrite Ht in *.
  split; cbn [goto pc node inflight]; try done; [congruence|by exists (following l t data); rewrite last_snoc|by rewrite Sp| | | |].
  - intros id x (y&Hy&E1&E2&E3)%Speers. destruct (Hps id y Hy) as (?&?&Hd). unfold place_ok.
    rewrite decide_False in Hd by (by intros ?%elem_of_nil). rewrite decide_False, E2, E3 by (by intros ?%elem_of_nil). zl.
  - rewrite Sc. zl.
  - by intros ?%few.
  - rewrite Sc. zl.
Qed.

(** The leader takes a request from its channel. *)
Lemma serves n a t l p req rest : procs n !! a = Some p -> leading a t l [] p -> applyCh (node p) = req :: rest ->
  zlen l < max_uint - 1 -> 0 <= t < max_uint -> exists ls n' p', goes n ls n' /\ procs n' = <[a := p']> (procs n) /\
    leading a t (l ++ [following l t (req_data req)]) [] p' /\ applyCh (node p') = rest /\
    papers (node p') = (<[zlen l + 1 := req_future req]> (pendingFutures (node p)), futures (node p)).
Proof.
  intros Ha Hlead Hq Hz Hrange. pose proof Hlead as [Hpc Hst Ht Hl _ _ _ _ _ _ _].
  destruct (stores (set_applyCh rest (node p)) l (req_data req) Hl Hz) as (s&Hs&Hstored); [change (0 <= term p <= max_uint); lia|].
  set (ix := Index (next_entry (set_applyCh rest (node p)) (req_data req))).
  assert (ix = zlen l + 1) as Eix.
  { unfold ix, next_entry. cbn [Index logStore set_applyCh]. rewrite (LastIndex_spec _ _ Hl). cbn [fst]. zlen_facts.
    by rewrite uwrap64_small by lia. }
  specialize (Hstored (<[ix := req_future req]> (pendingFutures (node p)))). set (r := triggerReplication _) in Hstored.
  assert (step p LRequest = Some (goto p r (InLeader false))) as Hs1.
  { cbn [step]. unfold request_step. rewrite Hpc, Hq. unfold handleApplyRequest. cbn [state set_applyCh].
    rewrite bool_decide_true by done. cbn [negb]. by rewrite Hs. }
  assert (step (goto p r (InLeader false)) LMain = Some (goto p r (InLeader true))) as Hs2
    by (cbn [step]; unfold main_step; cbn [pc goto node]; by rewrite bool_decide_true).
  destruct (goes_quiet n a p LRequest _ Ha eq_refl Hs1) as (n1&Hg1&Ep1&_); [lia|done|].
  destruct (goes_quiet n1 a _ LMain _ ltac:(by rewrite Ep1, lookup_insert_eq) eq_refl Hs2) as (n2&Hg2&Ep2&_);
    [change (term p < max_uint); lia|done|].
  eexists _, n2, _. split; [by eapply goes_app|]. split; [by rewrite Ep2, Ep1, insert_insert_eq|].
  split; [|split; [done|by rewrite <-Eix]]. apply leading_stores; try done.
  destruct Hstored as [S1 S2 S3 S4 S5 S6]. by split.
Qed.

(** It takes all of them. *)
Lemma serves_all a t reqs : forall n l p, procs n !! a = Some p -> leading a t l [] p -> applyCh (node p) = reqs ->
  zlen l + zlen reqs < max_uint - 1 -> 0 <= t < max_uint -> exists ls n' p' s, goes n ls n' /\
    procs n' = <[a := p']> (procs n) /\ leading a t (l ++ s) [] p' /\ applyCh (node p') = [] /\
    Data <$> s = req_data <$> reqs /\ Forall (fun e => Term e = t) s.
Proof.
  induction reqs as [|req reqs IH]; intros n l p Ha Hlead Hq Hz Ht.
  { exists [], n, p, []. split; [apply goes_nil|]. rewrite insert_id, app_nil_r by done. by split_and!. }
  rewrite zlen_cons in Hz. pose proof (zlen_nonneg reqs).
  destruct (serves n a t l p req reqs Ha Hlead Hq) as (ls1&n1&p1&Hg1&Ep1&Hlead1&Hq1&_); [lia|done|].
  destruct (IH n1 (l ++ [following l t (req_data req)]) p1) as (ls&n3&p3&s&Hg3&Ep3&Hlead3&Hq3&Es&Hs); try done;
    [by rewrite Ep1, lookup_insert_eq|zl|].
  eexists _, n3, p3, (following l t (req_data req) :: s). split; [by eapply goes_app|].
  split; [by rewrite Ep3, Ep1, insert_insert_eq|]. rewrite <-app_assoc in Hlead3. split; [exact Hlead3|].
  split; [done|]. split; [cbn; by rewrite Es|]. by constructor.
Qed.

(** A client calls [Apply]. *)
Lemma calls_Apply a t l p n data : procs n !! a = Some p -> leading a t l [] p -> (length (applyCh (node p)) < applyCh_cap)%nat ->
  0 <= t < max_uint -> exists n' p', goes n [NStep a (LSubmit data Enqueued)] n' /\ procs n' = <[a := p']> (procs n) /\
    leading a t l [] p' /\ applyCh (node p') = applyCh (node p) ++ [mkApplyRequest data (snd (Leader.Apply (node p) data Enqueued))] /\
    futures (node p') !! snd (Leader.Apply (node p) data Enqueued) = Some newApplyFuture.
Proof.
  intros Ha Hlead Hq Ht. pose proof Hlead as [Hpc Hst Etp Hl Hlast Hsf Hps Hc Hmaj Htok Hidle].
  assert (exists p', step p (LSubmit data Enqueued) = Some p' /\ leading a t l [] p' /\
    applyCh (node p') = applyCh (node p) ++ [mkApplyRequest data (snd (Leader.Apply (node p) data Enqueued))] /\
    futures (node p') !! snd (Leader.Apply (node p) data Enqueued) = Some newApplyFuture) as (p'&Hs&Hl'&Hq'&Hf').
  { eexists. cbn [step choice_ready]. rewrite (proj2 (Nat.ltb_lt _ _)) by done. split; [reflexivity|].
    unfold Leader.Apply. cbn [state set_futures]. rewrite bool_decide_true by done. cbn. split; [by split|]. split; [done|].
    apply lookup_insert_eq. }
  destruct (goes_quiet n a p (LSubmit data Enqueued) p' Ha eq_refl Hs) as (n'&Hg&Ep&_); [lia|done|]. by exists n', p'.
Qed.

End office.

(** * Replication *)

(** A log that was tracked before the term [t], against a leader's that has entries of [t]
    after it. *)
Lemma newer_matching Hi l k s t : tracked Hi l -> tracked Hi k -> (forall e, e ∈ k -> Term e < t) ->
  Forall (fun e => Term e = t) s -> matching k (l ++ s) /\ terms_apart k (l ++ s).
Proof.
  intros Hl Hk Ht Hs.
  assert (forall i x y, x ∈ k -> (l ++ s) !! i = Some y -> Term y = Term x -> l !! i = Some y) as Hold.
  { intros i x y Hx [Hy|[_ Hy]]%lookup_app_Some E; [done|].
    pose proof (Forall_lookup_1 _ _ _ _ Hs Hy). specialize (Ht x Hx). cbn in *. lia. }
  split.
  - intros i x y Hx Hy E. assert (l !! i = Some y) as Hy' by (eapply Hold; [by eapply list_elem_of_lookup_2|done..]).
    rewrite take_app_le by (apply lookup_lt_Some in Hy'; lia).
    by apply (tracked_matching Hi k l Hk Hl i x y).
  - intros j i x y z Hx Hy Hne Hji Hz E. assert (l !! i = Some z) as Hz' by (eapply Hold; [by eapply list_elem_of_lookup_2|done..]).
    pose proof (lookup_lt_Some _ _ _ Hz') as Hlt. rewrite lookup_app_l in Hy by lia.
    destruct (Hk j x Hx) as (h&Hh&Etk). destruct (Hl i z Hz') as (h'&Hh'&Etl).
    rewrite E, Hh in Hh'. injection Hh' as <-. apply Hne.
    assert (h !! j = Some x) as H1' by (rewrite <-(lookup_take_lt h (j + 1)), <-Etk, lookup_take_lt by lia; done).
    assert (h !! j = Some y) as H2' by (rewrite <-(lookup_take_lt h (i + 1)), <-Etl, lookup_take_lt by lia; done).
    congruence.
Qed.

Section pair.
  Context {L Sb F R : Type} `{LogStoreSpec L} `{!LogStoreReliable L} `{StableStoreSpec Sb} `{FSM F R}.
  Context (P : list PeerConfig).
  Context (addrs_distinct : NoDup (Address <$> P)).
  Implicit Types r : RaftNode L Sb F R.
  Implicit Types p q : proc L Sb F R.
  Implicit Types n : network L Sb F R.

(** Two peers have two addresses. *)
Lemma staffed_inj a r id id' x x' : staffed P a (places r) -> peers r !! id = Some x -> peers r !! id' = Some x' ->
  ps_addr x = ps_addr x' -> id = id'.
Proof.
  intros Hs Hx Hx' E. pose proof addrs_distinct as Hnd. unfold staffed, addrs in Hs. rewrite <-Hs in Hnd.
  apply NoDup_cons in Hnd as [_ Hnd].
  assert (forall i y, peers r !! i = Some y -> (i, ps_addr y) ∈ map_to_list (fst <$> places r)) as Hin.
  { intros i y Hy. apply elem_of_map_to_list. unfold places. by rewrite !lookup_fmap, Hy. }
  apply Hin in Hx, Hx'. apply list_elem_of_lookup in Hx as [i Hi], Hx' as [j Hj].
  assert (i = j) as <-; [|congruence].
  eapply NoDup_lookup; [exact Hnd|by rewrite list_lookup_fmap, Hi|by rewrite list_lookup_fmap, Hj, E].
Qed.

Lemma staffed_peer a r b : staffed P a (places r) -> b ∈ addrs P -> b <> a -> exists id x,
  peers r !! id = Some x /\ ps_addr x = b.
Proof.
  intros Hs Hb Hne. unfold staffed in Hs. rewrite <-Hs in Hb. apply elem_of_cons in Hb as [?|Hb]; [done|].
  apply list_elem_of_fmap in Hb as ([id v]&->&Hin). apply elem_of_map_to_list in Hin. unfold places in Hin.
  rewrite !lookup_fmap in Hin. destruct (peers r !! id) as [x|] eqn:Hx; [|done]. injection Hin as <-. by exists id, x.
Qed.

(** A replicator's update of its peer. *)
Lemma staffed_update a r id x x' : staffed P a (places r) -> peers r !! id = Some x -> ps_addr x' = ps_addr x ->
  staffed P a (places (set_peers (<[id := x']> (peers r)) r)).
Proof.
  intros Hs Hx E. unfold staffed, places in *. cbn [peers set_peers]. rewrite <-!map_fmap_compose in *.
  change (fst ∘ (fun c => (ps_addr c, matchIndex c))) with ps_addr in *.
  rewrite fmap_insert, insert_id; [done|]. by rewrite lookup_fmap, Hx, E.
Qed.

(** The leader and those in [D] hold the whole log. *)
Lemma holders_enough a r l D : repr (logStore r) l -> staffed P a (places r) -> NoDup (a :: D) -> D ⊆ addrs P ->
  (forall id x, peers r !! id = Some x -> ps_addr x ∈ D -> matchIndex x = zlen l) ->
  zlen P / 2 < 1 + zlen D -> (length (matches_of r) / 2 < holders (zlen l) (matches_of r))%nat.
Proof.
  intros Hl Hs Hnd Hsub HD Hmaj. rewrite (holders_perm _ _ _ (matches_places r l Hl)), (Permutation_length (matches_places r l Hl)).
  set (ls := (a, zlen l) :: (map_to_list (places r)).*2).
  change (zlen l :: ((map_to_list (places r)).*2).*2) with (ls.*2). rewrite <-holding_length, length_fmap.
  assert (Permutation (ls.*1) (addrs P)) as Hl1.
  { unfold staffed in Hs. unfold ls. cbn [fmap list_fmap fst]. rewrite <-Hs.
    rewrite map_to_list_fmap, <-!list_fmap_compose. done. }
  assert (length ls = length P) as -> by (rewrite <-(length_fmap fst ls), (Permutation_length Hl1); unfold addrs; apply length_fmap).
  assert (a :: D ⊆ holding (zlen l) ls) as Hin.
  { intros b [->|Hb]%elem_of_cons; apply holding_elem; [exists (zlen l); split; [by left|lia]|].
    apply NoDup_cons in Hnd as [Ha _]. destruct (staffed_peer a r b Hs) as (id&x&Hx&Ex); [by apply Hsub|by intros ->|].
    exists (matchIndex x). split; [right|rewrite (HD id x Hx); [lia|by rewrite Ex]].
    apply list_elem_of_fmap. exists (id, (b, matchIndex x)). split; [done|]. apply elem_of_map_to_list.
    unfold places. by rewrite lookup_fmap, Hx, <-Ex. }
  apply (NoDup_submseteq _ _ Hnd), submseteq_length in Hin. cbn [length] in Hin. unfold zlen in Hmaj.
  pose proof (Nat2Z.inj_div (length P) 2). lia.
Qed.

(** The follower's side of a round. *)
Lemma follows t k q req ll i : standby t k q -> sent_from ll req i (length ll - i) -> ae_Term req = t ->
  numbered 1 ll -> matching k ll -> zlen k + zlen ll < max_uint ->
  exists q1 q2 resp k', handleRPC (node q) (CAppendEntries req) = Ret (node q1, RAppendEntries resp, true) /\
    step q (LCommand (CAppendEntries req)) = Some q1 /\ step q1 LMain = Some q2 /\ pc q1 <> Electing /\
    term q1 = t /\ standby t k' q2 /\ aer_Term resp = t /\
    if aer_Success resp then take (length ll) k' = ll
    else k' = k /\ 1 <= aer_ConflictIndex resp <= Z.of_nat i /\
      (aer_ConflictTerm resp = 0 \/ exists x y, k !! (i - 1)%nat = Some x /\ ll !! (i - 1)%nat = Some y /\
         Term x <> Term y /\ aer_ConflictTerm resp = Term x).
Proof.
  intros [Hpc Hst Hl Ht] Hsent Et Hn Hm Hz. pose proof Hsent as [_ Hlen _ Hes].
  destruct (handleAppendEntries_ends (node q) req k ll i (length ll - i) Hl Hn Hsent Hm)
    as (r1&r'&resp&k'&_&Hh&Hl'&Hrt&Hend); [unfold term in *; lia|done|].
  assert (handleRPC (node q) (CAppendEntries req) = Ret (r', RAppendEntries resp, true)) as HR
    by (cbn [handleRPC]; by rewrite Hh).
  pose proof (handleRPC_append_role (node q) req r' _ _ HR) as Hrole.
  destruct (Z.ltb_spec (ae_Term req) (currentTerm (node q))); [unfold term in *; lia|].
  apply role_proj in Hrole as (Es&Etr&_).
  exists (goto q r' (InFollower false)), (goto q r' (InFollower true)), resp, k'. split; [exact HR|].
  split; [cbn [step]; unfold command_step; by rewrite Hpc, HR|].
  split; [cbn [step]; unfold main_step; cbn [pc goto node]; by rewrite bool_decide_true|].
  split; [done|]. split; [unfold term; cbn; congruence|].
  split; [split; cbn; try done; unfold term; cbn; lia|]. split; [congruence|].
  destruct (aer_Success resp).
  - destruct Hend as (Hag&->&_). destruct (ae_log_agree k ll i (length ll - i) Hm Hag Hlen) as [E _].
    replace (i + (length ll - i))%nat with (length ll) in E by lia. by rewrite (take_ge ll) in E.
  - destruct Hend as (_&_&_&[(j&_&_&Hag&Hap)|(->&_&Hci&Hct)]); [|done].
    by destruct (sent_stored _ _ _ _ _ _ _ Hl Hn Hsent Hag Hz Hap).
Qed.

Lemma process_papers r id es resp r' : replicate_process r id es resp = Ret r' -> papers r' = papers r.
Proof.
  unfold replicate_process. destruct (_ <? _).
  { intros Hs. destruct (stepDown_total r (aer_Term resp)) as (r1&E&Hr1). rewrite Hs in E. injection E as <-.
    unfold same_but_stable in Hr1. unfold papers. by rewrite Hr1. }
  assert (forall r0, advanceCommitIndex r0 = Ret r' -> papers r' = papers r0) as Hadv.
  { intros r0. unfold advanceCommitIndex. intros (c&_&Hc)%bind_ret. destruct (c <=? _); [by injection Hc as <-|].
    destruct (GetLog (logStore r0) c); [|by injection Hc as <-]. destruct (negb _); by injection Hc as <-. }
  destruct (peers r !! id), (aer_Success resp); try (intros Hx; by injection Hx as <-);
    try (by intros Hx%Hadv). by intros (next&_&[= <-])%bind_ret.
Qed.

(** The leader's, when the follower has taken the log. *)
Lemma leads_on a t ll D p id x req i resp : NoDup (a :: ps_addr x :: D) -> ps_addr x :: D ⊆ addrs P ->
  leading P a t ll D p -> peers (node p) !! id = Some x -> nextIndex x = Z.of_nat i + 1 -> zlen ll < max_uint ->
  sent_from ll req i (length ll - i) -> aer_Success resp = true -> aer_Term resp = t ->
  exists r, replicate_process (node p) id (ae_Entries req) resp = Ret r /\ leading P a t ll (ps_addr x :: D) (goto p r (pc p)).
Proof.
  intros Hnd Hsub [Hpc Hst Ht Hl (e&Hlast&He) Hsf Hps Hc Hmaj Htok Hidle] Hx Hnext Hz Hsent Hok Hrt.
  assert (ps_addr x ∉ D) as HxD by (by apply NoDup_cons in Hnd as [_ [? _]%NoDup_cons]).
  destruct (Hps id x Hx) as (Hn1&Hm1&HD). rewrite decide_False in HD by done.
  set (y := set_next (zlen ll + 1) (set_match (zlen ll) x)). set (r0 := set_peers (<[id := y]> (peers (node p))) (node p)).
  assert (replicate_process (node p) id (ae_Entries req) resp = advanceCommitIndex r0) as ->.
  { unfold replicate_process. rewrite (proj2 (Z.ltb_ge _ _)) by (unfold term in *; lia). rewrite Hx, Hok.
    assert (exists z, last (ae_Entries req) = Some z) as [z Hlz].
    { rewrite (se_entries _ _ _ _ Hsent), take_ge by (by rewrite length_drop).
      destruct (last (drop i ll)) eqn:Ed; [by eexists|]. apply last_None, (f_equal length) in Ed.
      rewrite length_drop in Ed. unfold zlen in *. cbn in Ed. lia. }
    rewrite Hlz, (last_sent ll req i (length ll - i) z (repr_numbered _ _ Hl) Hsent) by (unfold zlen in *; lia||done).
    by rewrite uwrap64_small by lia. }
  assert (forall id' x', peers r0 !! id' = Some x' -> place_ok ll (ps_addr x :: D) x') as Hps0.
  { intros id' x' Hx'. unfold r0 in Hx'. cbn [peers set_peers] in Hx'. apply lookup_insert_Some in Hx' as [[<- <-]|[Hne Hx']].
    - unfold place_ok. rewrite decide_True by (left; done). unfold y. cbn. lia.
    - destruct (Hps id' x' Hx') as (?&?&HD'). split; [done|]. split; [done|]. revert HD'.
      assert (ps_addr x' <> ps_addr x) as Hxx by (intros E; apply Hne; by apply (staffed_inj a (node p) id id' x x')).
      destruct (decide (ps_addr x' ∈ D)); [by rewrite decide_True by (by right)|].
      by rewrite decide_False by (by intros [?|?]%elem_of_cons). }
  assert (staffed P a (places r0)) as Hsf0 by (by eapply staffed_update).
  assert (exists r, advanceCommitIndex r0 = Ret r /\ 0 <= commitIndex r <= zlen ll /\
    (zlen P / 2 < 1 + zlen (ps_addr x :: D) -> commitIndex r = zlen ll) /\
    (r = r0 \/ exists c, r = notifyCommit (set_commitIndex c r0))) as (r&Hr&Hcr&Hmr&Hcase).
  { destruct (advanceCommitIndex_spec r0 ll Hl) as (r&Hr&Hcase); [lia| |cbn; lia|].
    { intros id' x' (?&?&?)%Hps0. lia. }
    exists r. split; [done|]. split; [|split].
    - destruct Hcase as [->|(c&z&->&Hlt&_&_&Hcz%lookup_lt_Some&_)]; cbn in *; [done|]. unfold zlen. lia.
    - intros Hq. destruct (advanceCommitIndex_moves r0 ll e Hl) as (r'&Hr'&Ec&_); try done; [lia|exact (eq_trans He (eq_sym Ht))| | |cbn; lia|congruence].
      + intros id' x' (?&?&?)%Hps0. lia.
      + apply (holders_enough a r0 ll (ps_addr x :: D)); try done.
        intros id' x' (_&_&E)%Hps0 Hin. by rewrite decide_True in E.
    - destruct Hcase as [->|(c&z&->&_)]; [by left|right; by exists c]. }
  exists r. split; [done|]. destruct Hcase as [->|(c&->)]; (split; [done..|by exists e|done|done|done|done|done|done]).
Qed.

(** The leader's, when the follower has refused. *)
Lemma leads_back a t k ll D p id x req i resp : ps_addr x ∉ D -> terms_apart k ll ->
  leading P a t ll D p -> peers (node p) !! id = Some x -> nextIndex x = Z.of_nat i + 1 -> zlen ll < max_uint ->
  aer_Success resp = false -> aer_Term resp = t -> 1 <= aer_ConflictIndex resp <= Z.of_nat i ->
  (aer_ConflictTerm resp = 0 \/ exists y z, k !! (i - 1)%nat = Some y /\ ll !! (i - 1)%nat = Some z /\
     Term y <> Term z /\ aer_ConflictTerm resp = Term y) ->
  exists r next, replicate_process (node p) id (ae_Entries req) resp = Ret r /\ leading P a t ll D (goto p r (pc p)) /\
    peers r !! id = Some (set_next next x) /\ next < nextIndex x.
Proof.
  intros HD Hap [Hpc Hst Ht Hl Hlast Hsf Hps Hc Hmaj Htok Hidle] Hx Hnext Hz Hok Hrt Hci Hct.
  unfold replicate_process. rewrite (proj2 (Z.ltb_ge _ _)) by (unfold term in *; lia). rewrite Hx, Hok.
  destruct (back_up_spec (logStore (node p)) ll resp i Hl Hz Hci) as (next&->&Hn).
  { intros Hpos j e Hj He. destruct Hct as [Hct|(y&z&Hy&Hz'&Hyz&->)]; [lia|]. apply (Hap (i - 1)%nat j y z e); try done. lia. }
  cbn [mbind outcome_bind]. eexists _, next. split; [reflexivity|].
  split; [|split; [apply lookup_insert_eq|lia]]. split; try done.
  - by eapply staffed_update.
  - cbn. intros id' x' [[<- <-]|[Hne Hx']]%lookup_insert_Some; [|by apply (Hps id')].
    destruct (Hps id x Hx) as (?&?&Hm). rewrite decide_False in Hm by done. unfold place_ok. cbn.
    rewrite decide_False by done. lia.
Qed.

(** ** Rounds *)

Lemma request_arrives n a b q q1 req resp i : a <> b -> appends n !! i = Some (mkAppendCall a b req None) ->
  procs n !! b = Some q -> handleRPC (node q) (CAppendEntries req) = Ret (node q1, RAppendEntries resp, true) ->
  step q (LCommand (CAppendEntries req)) = Some q1 ->
  exists n', goes n [NAppend i] n' /\ procs n' = <[b := q1]> (procs n) /\
    appends n' = <[i := mkAppendCall a b req (Some resp)]> (appends n).
Proof.
  intros Hab Hi Hb HR Hs. eexists. split; [apply goes_one; [|by split|done|done]|].
  - cbn [nstep]. unfold append_request. rewrite Hi. cbn [mbind option_bind ac_resp ac_from ac_to ac_req].
    rewrite bool_decide_false, Hb by done. cbn [mbind option_bind]. rewrite Hs. cbn [mbind option_bind]. rewrite HR. reflexivity.
  - by split.
Qed.

Lemma answer_arrives n a b p id x req resp i r : appends n !! i = Some (mkAppendCall a b req (Some resp)) ->
  procs n !! a = Some p -> pc p = InLeader true -> state (node p) = Leader -> peers (node p) !! id = Some x ->
  ps_addr x = b -> inflight p !! id = Some req -> replicate_process (node p) id (ae_Entries req) resp = Ret r ->
  exists n', goes n [NAppendResponse i (Current id)] n' /\
    procs n' = <[a := set_inflight p r (delete id (inflight p))]> (procs n).
Proof.
  intros Hi Ha Hpc Hst Hx Ex Hin Hr. eexists. split; [apply goes_one|].
  - cbn [nstep]. unfold append_response. rewrite Hi. cbn [mbind option_bind ac_resp ac_from ac_to ac_req]. rewrite Ha.
    cbn [mbind option_bind waits answer_label ac_to ac_req]. rewrite Hx, Hin, !bool_decide_true by done. cbn [andb step].
    unfold response_step. rewrite Hin, Hr. reflexivity.
  - split; [|]; intros v' resp' p'; rewrite Hi; intros [= <-]; cbn; rewrite Ha; intros _ [= <-]; cbn; rewrite Hpc; intros; by destruct_or?.
  - intros v' resp' p'. rewrite Hi. intros [= <-]. cbn. rewrite Ha. by intros _ [= <-].
  - done.
  - done.
Qed.

(** What [a] and [b] do in a round. *)
Lemma round n a b t k ll D p q id x : a <> b -> NoDup (a :: b :: D) -> b :: D ⊆ addrs P -> 0 <= t < max_uint ->
  procs n !! a = Some p -> procs n !! b = Some q -> leading P a t ll D p -> standby t k q ->
  matching k ll -> terms_apart k ll -> zlen k + zlen ll < max_uint ->
  peers (node p) !! id = Some x -> ps_addr x = b ->
  exists ls n' p' q' k', goes n ls n' /\ procs n' = <[a := p']> (<[b := q']> (procs n)) /\ standby t k' q' /\
    papers (node p') = papers (node p) /\
    ((leading P a t ll (b :: D) p' /\ take (length ll) k' = ll) \/
     (leading P a t ll D p' /\ k' = k /\ exists x', peers (node p') !! id = Some x' /\ ps_addr x' = b /\ nextIndex x' < nextIndex x)).
Proof.
  intros Hab Hnd Hsub Ht Ha Hb Hlead Hsb Hm Hap Hz Hx Ex. zlen_facts.
  pose proof Hlead as [Hpc Hst Etp Hl _ _ Hps _ _ _ Hidle].
  assert (b ∉ D) as HbD by (by apply NoDup_cons in Hnd as [_ [? _]%NoDup_cons]).
  pose proof (Hps id x Hx) as (Hn1&_&HD). rewrite Ex, decide_False in HD by done.
  set (i := Z.to_nat (nextIndex x - 1)).
  destruct (replicate_build_sent (node p) x ll Hl Hst) as (req&Hbuild&Eqt&_&_&Hsent); [lia..|]. fold i in Hsent.
  destruct (follows t k q req ll i Hsb Hsent) as (q1&q2&resp&k'&HR&Hs1&Hs2&Hpc1&Et1&Hsb2&Ert&Hend);
    [unfold term in *; congruence|by eapply repr_numbered|done|done|].
  assert (step p (LSend id) = Some (set_inflight p (node p) {[id := req]})) as Hsend.
  { cbn [step]. unfold send_step. rewrite Hx, Hidle, lookup_empty, Hbuild. done. }
  destruct (goes_local n a p (LSend id) _ Ha eq_refl Hsend) as (n1&Hg1&[Ep1 _ Ea1]); [lia|done|].
  set (p1 := set_inflight p (node p) {[id := req]}) in *. unfold new_appends in Ea1. rewrite Hx in Ea1.
  unfold built in Ea1. rewrite Hbuild, Ex in Ea1.
  destruct (request_arrives n1 a b q q1 req resp (length (appends n)) Hab) as (n2&Hg2&Ep2&Ea2); try done.
  { rewrite Ea1. by apply list_lookup_middle. }
  { by rewrite Ep1, lookup_insert_ne. }
  assert (procs n2 !! b = Some q1) as Hb2 by (by rewrite Ep2, lookup_insert_eq).
  destruct (goes_quiet n2 b q1 LMain q2 Hb2 eq_refl Hs2) as (n3&Hg3&Ep3&_&Ea3); [lia|done|].
  assert (exists r, replicate_process (node p) id (ae_Entries req) resp = Ret r /\
    ((leading P a t ll (b :: D) (goto p r (pc p)) /\ take (length ll) k' = ll) \/
     (leading P a t ll D (goto p r (pc p)) /\ k' = k /\
      exists x', peers r !! id = Some x' /\ ps_addr x' = b /\ nextIndex x' < nextIndex x))) as (r&Hr&Hcase).
  { destruct (aer_Success resp) eqn:Ers.
    - destruct (leads_on a t ll D p id x req i resp) as (r&Hr&Hlead'); rewrite ?Ex; try done; [lia..|].
      exists r. split; [done|]. left. by rewrite <-Ex at 1.
    - destruct Hend as (->&Hci&Hct).
      destruct (leads_back a t k ll D p id x req i resp) as (r&next&Hr&Hlead'&Hx'&Hlt); rewrite ?Ex; try done; [lia..|].
      exists r. split; [done|]. right. split; [done|]. split; [done|]. exists (set_next next x). by split_and!. }
  destruct (answer_arrives n3 a b p1 id x req resp (length (appends n)) r) as (n4&Hg4&Ep4); try done.
  { rewrite Ea3, Ea2. apply list_lookup_insert_eq. rewrite Ea1, length_app. cbn. lia. }
  { by rewrite Ep3, Ep2, !lookup_insert_ne, Ep1, lookup_insert_eq. }
  { apply lookup_singleton_eq. }
  assert (set_inflight p1 r (delete id (inflight p1)) = goto p r (pc p)) as Ep'.
  { unfold set_inflight, goto. cbn. by rewrite delete_singleton_eq, Hidle. }
  rewrite Ep' in Ep4. eexists _, n4, (goto p r (pc p)), q2, k'.
  split; [eapply goes_app; [exact Hg1|]; eapply goes_app; [exact Hg2|]; by eapply goes_app|].
  split; [|split; [done|split; [exact (process_papers _ _ _ _ _ Hr)|done]]].
  rewrite Ep4, Ep3, Ep2, Ep1, !insert_insert_eq. rewrite (insert_insert_ne _ b a) by done. by rewrite !insert_insert_eq.
Qed.

(** Rounds end: a refusal lowers [nextIndex]. *)
Lemma catches_up fuel : forall n a b t k ll D p q id x, nextIndex x <= Z.of_nat fuel ->
  a <> b -> NoDup (a :: b :: D) -> b :: D ⊆ addrs P -> 0 <= t < max_uint ->
  procs n !! a = Some p -> procs n !! b = Some q -> leading P a t ll D p -> standby t k q ->
  matching k ll -> terms_apart k ll -> zlen k + zlen ll < max_uint ->
  peers (node p) !! id = Some x -> ps_addr x = b ->
  exists ls n' p' q' k', goes n ls n' /\ procs n' = <[a := p']> (<[b := q']> (procs n)) /\
    leading P a t ll (b :: D) p' /\ standby t k' q' /\ take (length ll) k' = ll /\ papers (node p') = papers (node p).
Proof.
  induction fuel as [|fuel IH]; intros n a b t k ll D p q id x Hf Hab Hnd Hsub Ht Ha Hb Hlead Hsb Hm Hap Hz Hx Ex.
  { pose proof (lg_peers _ _ _ _ _ _ Hlead id x Hx) as [? _]. lia. }
  destruct (round n a b t k ll D p q id x) as (ls&n1&p1&q1&k1&Hg&Ep&Hsb1&Epa&[[Hlead1 Hk]|(Hlead1&->&x1&Hx1&Ex1&Hlt)]); try done.
  - by exists ls, n1, p1, q1, k1.
  - destruct (IH n1 a b t k ll D p1 q1 id x1) as (ls2&n2&p2&q2&k2&Hg2&Ep2&Hlead2&Hsb2&Hk2&Epa2); try done; [lia|..].
    + by rewrite Ep, lookup_insert_eq.
    + by rewrite Ep, lookup_insert_ne, lookup_insert_eq.
    + exists (ls ++ ls2), n2, p2, q2, k2. split; [by eapply goes_app|].
      split; [|split; [done|split; [done|split; [done|congruence]]]].
      rewrite Ep2, Ep, (insert_insert_ne _ b a), !insert_insert_eq by done. done.
Qed.

(** Every server of [Q] gets the log. *)
Lemma spreads a t ll (lg : text -> list LogEntry) Q : forall n D p, NoDup (a :: Q ++ D) -> Q ++ D ⊆ addrs P ->
  0 <= t < max_uint -> procs n !! a = Some p -> leading P a t ll D p ->
  (forall b, b ∈ Q -> exists q, procs n !! b = Some q /\ standby t (lg b) q /\ matching (lg b) ll /\
     terms_apart (lg b) ll /\ zlen (lg b) + zlen ll < max_uint) ->
  exists ls n' p', goes n ls n' /\ procs n' !! a = Some p' /\ leading P a t ll (rev_append Q D) p' /\
    papers (node p') = papers (node p) /\ (forall b, b ∈ Q -> exists q k, procs n' !! b = Some q /\ standby t k q /\ take (length ll) k = ll) /\
    (forall b, b ∉ a :: Q -> procs n' !! b = procs n !! b).
Proof.
  induction Q as [|b Q IH]; intros n D p Hnd Hsub Ht Ha Hlead Hvs.
  { exists [], n, p. split; [apply goes_nil|]. split_and!; try done. by intros b ?%elem_of_nil. }
  assert (Permutation (b :: Q ++ D) (Q ++ b :: D)) as Hperm by apply Permutation_middle.
  cbn [app] in Hnd, Hsub. assert (NoDup (a :: Q ++ b :: D)) as Hnd' by (by rewrite <-Hperm).
  apply NoDup_cons in Hnd as [Hna [Hnb HndQ]%NoDup_cons].
  apply not_elem_of_cons in Hna as [Hab Hna]. rewrite not_elem_of_app in Hna, Hnb.
  destruct (Hvs b) as (q&Hb&Hsb&Hm&Hap&Hz); [by left|].
  destruct (staffed_peer a (node p) b (lg_staffed _ _ _ _ _ _ Hlead)) as (id&x&Hx&Ex); [apply Hsub; by left|done|].
  destruct (catches_up (Z.to_nat (nextIndex x)) n a b t (lg b) ll D p q id x) as (ls&n1&p1&q1&k1&Hg&Ep&Hlead1&Hsb1&Hk1&Epa1); try done.
  { lia. }
  { apply NoDup_cons. split; [set_solver|]. apply NoDup_cons. split; [tauto|]. by apply NoDup_app in HndQ as (_&_&?). }
  { set_solver. }
  destruct (IH n1 (b :: D) p1) as (ls2&n2&p2&Hg2&Ha2&Hlead2&Epa2&Hvs2&Ho2); try done.
  { by rewrite <-Hperm. }
  { by rewrite Ep, lookup_insert_eq. }
  { intros c Hc. destruct (Hvs c) as (qc&Hqc&?); [by right|]. exists qc. split; [|done].
    rewrite Ep, !lookup_insert_ne; [done|set_solver..]. }
  exists (ls ++ ls2), n2, p2. split; [by eapply goes_app|]. split; [done|]. split; [done|].
  split; [congruence|]. split.
  - intros c [->|Hc]%elem_of_cons; [|by apply Hvs2]. exists q1, k1. split; [|done].
    rewrite Ho2 by set_solver. by rewrite Ep, lookup_insert_ne, lookup_insert_eq.
  - intros c Hc. rewrite Ho2 by set_solver. rewrite Ep, !lookup_insert_ne; [done|set_solver..].
Qed.

End pair.

(** * The answer *)

Section answer.
  Context {L Sb F R : Type} `{LogStoreSpec L} `{StableStoreSpec Sb} `{FSM F R}.
  Context (f0 : F) (ll : list LogEntry) (feeds : forall i, exists y, feed f0 (take i ll) = Ret y).
  Implicit Types r : RaftNode L Sb F R.
  Implicit Types p : proc L Sb F R.
  Implicit Types n : network L Sb F R.

(** A future that has no answer yet, or the answer of the apply loop, and is not read. *)
Definition answered (u : ApplyFuture R) : Prop := respondOnce u = true /\ readOnce u = false /\ errCh u = Some None.
Definition owing (u : ApplyFuture R) : Prop := u = newApplyFuture \/ answered u.

Definition holding_future (Q : ApplyFuture R -> Prop) (f : nat) r : Prop := exists u, futures r !! f = Some u /\ Q u.

Lemma respond_answers u x : owing u -> answered (respond u None x).
Proof. intros [->|(E1&E2&E3)]; [done|]. unfold respond. by rewrite E1. Qed.

Lemma applied_owing r idx f' x r' (Q : ApplyFuture R -> Prop) f : applied_one r idx f' x r' ->
  (Q = owing \/ Q = answered) -> holding_future Q f r -> holding_future Q f r'.
Proof.
  intros Ha HQ (u&Hu&Hq). assert (owing u) as Ho by (destruct HQ as [-> | ->]; [done|by right]).
  destruct (decide (pendingFutures r !! idx = Some f)) as [Hp|Hp].
  - exists (respond u None x). split; [by apply (a1_resolved _ _ _ _ _ Ha)|].
    destruct HQ as [-> | ->]; [right|]; by apply respond_answers.
  - exists u. split; [|done]. rewrite (a1_others _ _ _ _ _ Ha f); [done|]. intros b Hb ->. by destruct Hp.
Qed.

(** The state machine has been fed with the log. *)
Definition fed r : Prop := exists xs, feed f0 (take (Z.to_nat (lastApplied r)) ll) = Ret (fsm r, xs).

(** One entry. *)
Lemma applies_next p idx c : applying p = Some (idx, c) -> idx <= c -> c <= zlen ll -> idx = lastApplied (node p) + 1 ->
  1 <= idx -> zlen ll < max_uint -> repr (logStore (node p)) ll -> fed (node p) ->
  exists f' x r, step p LApplyNext = Some (set_applying p r (Some (idx + 1, c))) /\
    applied_one (node p) idx f' x r /\ fed r.
Proof.
  intros Hap Hle Hc Hi Hpos Hz Hr [xs Hfed].
  destruct (lookup_lt_is_Some_2 ll (Z.to_nat (lastApplied (node p)))) as [e He]; [unfold zlen in *; lia|].
  assert (GetLog (logStore (node p)) idx = Got e) as Hg.
  { apply (GetLog_hit _ ll); [done..|]. by replace (idx - 1) with (lastApplied (node p)) by lia. }
  destruct (feeds (S (Z.to_nat (lastApplied (node p))))) as [y Hy]. pose proof Hy as Hy'.
  rewrite (take_S_r _ _ _ He), feed_app, Hfed in Hy. cbn [mbind outcome_bind fst feed] in Hy.
  apply bind_ret in Hy as ([d1 zs]&Hd&Hy1). apply bind_ret in Hd as ([f' x]&Hf&Hd1).
  destruct (apply_one_spec (node p) idx e f' x Hg Hf) as (r&Hr'&Ha). exists f', x, r. split; [|split; [done|]].
  - cbn [step]. unfold apply_next. rewrite Hap, (proj2 (Z.leb_le _ _)) by done. rewrite Hr'. cbn [try].
    by rewrite uwrap64_small by lia.
  - unfold fed. rewrite (a1_last _ _ _ _ _ Ha), (a1_fsm _ _ _ _ _ Ha), Hi.
    replace (Z.to_nat (lastApplied (node p) + 1)) with (S (Z.to_nat (lastApplied (node p)))) by lia.
    cbn in Hd1. injection Hd1 as <- _. cbn in Hy1. injection Hy1 as <-. by eexists.
Qed.

(** The loop applies up to the commit index that it has read. *)
Lemma drains m : forall n a p idx c, procs n !! a = Some p -> applying p = Some (idx, c) ->
  idx = lastApplied (node p) + 1 -> 1 <= idx -> c - lastApplied (node p) <= Z.of_nat m -> c <= zlen ll -> zlen ll < max_uint ->
  repr (logStore (node p)) ll -> term p < max_uint -> fed (node p) ->
  exists ls n' p', runs n ls n' /\ procs n' = <[a := p']> (procs n) /\ applying p' = None /\ fed (node p') /\
    unapplied (node p') = unapplied (node p) /\ lastApplied (node p') = Z.max (lastApplied (node p)) c /\
    (forall f Q, Q = owing \/ Q = answered -> holding_future Q f (node p) -> holding_future Q f (node p')) /\
    forall i f, holding_future owing f (node p) -> pendingFutures (node p) !! i = Some f ->
      if decide (lastApplied (node p) < i <= c) then holding_future answered f (node p')
      else pendingFutures (node p') !! i = Some f.
Proof.
  induction m as [|m IH]; intros n a p idx c Ha Hap Hi Hpos Hm Hc Hz Hr Ht Hfed.
  all: destruct (Z.leb_spec idx c) as [Hle|Hgt]; [|].
  1: lia.
  1,3: destruct (runs_local n a p LApplyNext (set_applying p (node p) None) Ha eq_refl) as (n'&Hr'&[Ep _ _]);
    [cbn [step]; unfold apply_next; rewrite Hap, (proj2 (Z.leb_gt _ _)) by lia; done|done|];
    exists [NStep a LApplyNext], n', (set_applying p (node p) None); split_and!; try done; [cbn; lia|];
    intros i f _ Hp; rewrite decide_False by lia; exact Hp.
  destruct (applies_next p idx c Hap Hle Hc Hi Hpos Hz Hr Hfed) as (f'&x&r&Hs&Ha1&Hfed1).
  pose proof Ha1 as [_ El Eu Ep1 Hres Hoth]. pose proof Eu as Eu'. unfold unapplied in Eu'. injection Eu' as _ Et _ Es _ _ _ _ _ _ _ _ _.
  set (p1 := set_applying p r (Some (idx + 1, c))) in *.
  destruct (runs_local n a p LApplyNext p1 Ha eq_refl Hs Ht) as (n1&Hr1&[Epr _ _]).
  destruct (IH n1 a p1 (idx + 1) c) as (ls&n2&p2&Hr2&Epr2&Hap2&Hfed2&Eu2&El2&Hkeep&Hans); try done;
    [by rewrite Epr, lookup_insert_eq|cbn; lia|lia|cbn; lia|cbn; by rewrite Es|unfold term in *; cbn; congruence|].
  cbn [p1 node set_applying] in *. rewrite El in *.
  assert (forall g Q, Q = owing \/ Q = answered -> holding_future Q g (node p) -> holding_future Q g r) as Hone
    by (intros g Q; by eapply applied_owing).
  eexists _, n2, p2. split; [by eapply runs_app|]. split; [by rewrite Epr2, Epr, insert_insert_eq|].
  split; [done|]. split; [done|]. split; [congruence|]. split; [lia|]. split; [by eauto|].
  intros i f Hf Hp. destruct (decide (i = idx)) as [->|Hne].
  - rewrite decide_True by lia. apply Hkeep; [by right|]. destruct Hf as (u&Hu&Ho). exists (respond u None x).
    split; [by apply Hres|by apply respond_answers].
  - specialize (Hans i f ltac:(apply Hone; [by left|done])). rewrite Ep1, lookup_delete_ne in Hans by done.
    specialize (Hans Hp). destruct (decide (lastApplied (node p) < i <= c)), (decide (idx < i <= c)); try done; lia.
Qed.

(** The leader has committed the entry of the future [f], its last, and not applied it. *)
Record owes (f : nat) p : Prop := mk_owes {
  ow_log : repr (logStore (node p)) ll;
  ow_commit : commitIndex (node p) = zlen ll;
  ow_token : commitNotifyCh (node p) = true;
  ow_last : 0 <= lastApplied (node p) < zlen ll;
  ow_pending : pendingFutures (node p) !! zlen ll = Some f;
  ow_future : holding_future owing f (node p);
  ow_term : term p < max_uint;
  ow_fed : fed (node p)
}.

(** What the apply loop leaves alone. *)
Definition unmoved_by_loop p p' : Prop := state (node p') = state (node p) /\ logStore (node p') = logStore (node p) /\
  commitIndex (node p') = commitIndex (node p).

Lemma unapplied_unmoved p p' : unapplied (node p') = unapplied (node p) -> unmoved_by_loop p p'.
Proof. intros E. unfold unapplied in E. by injection E as _ _ _ E1 _ E2 E3 _ _ _ _ _ _. Qed.

(** The loop takes the token, applies the entry, and the client reads its answer. *)
Lemma replies n a f p : procs n !! a = Some p -> zlen ll < max_uint -> owes f p -> applying p = None ->
  exists ls n' p', runs n ls n' /\ procs n' = <[a := p']> (procs n) /\ unmoved_by_loop p p' /\
    lastApplied (node p') = zlen ll /\ snd <$> wait_step p' f = Some None.
Proof.
  intros Ha Hz [Hr Hc Htok Hl Hp Hf Ht Hfed] Hap.
  set (p1 := set_applying p (set_commitNotifyCh false (node p)) (Some (lastApplied (node p) + 1, zlen ll))).
  assert (step p LApplyWake = Some p1) as Hs.
  { cbn [step]. unfold apply_wake. rewrite Hap, Htok, Hc. by rewrite uwrap64_small by lia. }
  destruct (runs_local n a p LApplyWake p1 Ha eq_refl Hs Ht) as (n1&Hr1&[Ep1 _ _]).
  destruct (drains (Z.to_nat (zlen ll - lastApplied (node p))) n1 a p1 (lastApplied (node p) + 1) (zlen ll))
    as (ls&n2&p2&Hr2&Ep2&_&_&Eu2&El2&_&Hans); try done; [by rewrite Ep1, lookup_insert_eq|lia|cbn; lia|].
  specialize (Hans (zlen ll) f Hf Hp). cbn [p1 node set_applying set_commitNotifyCh lastApplied] in *.
  rewrite decide_True in Hans by lia. destruct Hans as (u&Hu&_&Hrd&He).
  exists ([NStep a LApplyWake] ++ ls), n2, p2. split; [by eapply runs_app|]. split; [by rewrite Ep2, Ep1, insert_insert_eq|].
  split; [exact (unapplied_unmoved p1 p2 Eu2)|]. split; [lia|].
  unfold wait_step. rewrite Hu. cbn [mbind option_bind]. unfold Error. by rewrite Hrd, He.
Qed.

(** First it ends what it was doing. *)
Lemma replies_later n a f p : procs n !! a = Some p -> zlen ll < max_uint -> owes f p ->
  (forall idx c, applying p = Some (idx, c) -> idx = lastApplied (node p) + 1 /\ c < zlen ll) ->
  exists ls n' p', runs n ls n' /\ procs n' = <[a := p']> (procs n) /\ unmoved_by_loop p p' /\
    lastApplied (node p') = zlen ll /\ snd <$> wait_step p' f = Some None.
Proof.
  intros Ha Hz Ho Hap. destruct (applying p) as [[idx c]|] eqn:E; [|by apply (replies n a f p)].
  destruct (Hap idx c eq_refl) as [-> Hc]. pose proof Ho as [Hr Hci Htok Hl Hp Hf Ht Hfed].
  destruct (drains (Z.to_nat (zlen ll)) n a p _ c Ha E) as (ls&n1&p1&Hr1&Ep1&Hap1&Hfed1&Eu1&El1&Hkeep&Hans); try done; [lia..|].
  specialize (Hans (zlen ll) f Hf Hp). rewrite decide_False in Hans by lia.
  assert (procs n1 !! a = Some p1) as Ha1 by (by rewrite Ep1, lookup_insert_eq).
  pose proof (unapplied_unmoved p p1 Eu1) as (S1&S2&S3).
  destruct (replies n1 a f p1 Ha1 Hz) as (ls2&n2&p2&Hr2&Ep2&(T1&T2&T3)&El2&Hw); [|done|].
  { unfold unapplied in Eu1. injection Eu1 as _ E2 _ _ _ _ _ _ _ _ _ E3 _.
    split; [by rewrite S2|lia|congruence|lia|done|apply Hkeep; [by left|done]|unfold term in *; lia|done]. }
  exists (ls ++ ls2), n2, p2. split; [by eapply runs_app|]. split; [by rewrite Ep2, Ep1, insert_insert_eq|].
  split; [split; [congruence|split; congruence]|]. by split.
Qed.

End answer.

(** * A majority *)

Lemma isLogUpToDate_spec ct ci vt vi : isLogUpToDate ct ci vt vi = true <-> vt < ct \/ (ct = vt /\ vi <= ci).
Proof.
  unfold isLogUpToDate. destruct (Z.ltb_spec vt ct), (Z.eqb_spec ct vt), (Z.leb_spec vi ci); cbn; split; intros; try done; lia.
Qed.

(** Of finitely many logs one is no older than the others. *)
Lemma newest (lg : text -> list LogEntry) M : M <> [] -> exists a, a ∈ M /\ forall b, b ∈ M ->
  isLogUpToDate (last_term (lg a)) (zlen (lg a)) (last_term (lg b)) (zlen (lg b)) = true.
Proof.
  induction M as [|c M IH]; [done|]. intros _. destruct M as [|d M].
  { exists c. split; [by left|]. intros b ->%list_elem_of_singleton. apply isLogUpToDate_spec. lia. }
  destruct IH as (a&Ha&Hmax); [done|].
  destruct (isLogUpToDate (last_term (lg a)) (zlen (lg a)) (last_term (lg c)) (zlen (lg c))) eqn:E.
  - exists a. split; [by right|]. intros b [->|Hb]%elem_of_cons; [done|by apply Hmax].
  - exists c. split; [by left|].
    assert (~ (last_term (lg c) < last_term (lg a) \/ (last_term (lg a) = last_term (lg c) /\ zlen (lg c) <= zlen (lg a))))
      as Hno by (rewrite <-isLogUpToDate_spec; by rewrite E).
    intros b [->|Hb]%elem_of_cons; apply isLogUpToDate_spec; [lia|].
    specialize (Hmax b Hb). rewrite isLogUpToDate_spec in Hmax. lia.
Qed.

(** A witness for each element of a list. *)
Lemma choose_each {A B} `{EqDecision A} (y0 : B) (Q : A -> B -> Prop) (l : list A) :
  (forall x, x ∈ l -> exists y, Q x y) -> exists f, forall x, x ∈ l -> Q x (f x).
Proof.
  induction l as [|a l IH]; intros Hl; [by exists (fun _ => y0); intros x ?%elem_of_nil|].
  destruct (Hl a) as [y Hy]; [by left|]. destruct IH as [f Hf]; [intros x Hx; apply Hl; by right|].
  exists (fun x => if decide (x = a) then y else f x). intros x Hx. case_decide as Hd; [by subst|].
  apply elem_of_cons in Hx as [?|Hx]; [done|by apply Hf].
Qed.

Section majority.
  Context {L Sb F R : Type} `{LogStoreSpec L} `{!LogStoreReliable L} `{StableStoreSpec Sb} `{FSM F R}.
  Context (P : list PeerConfig).
  Context (ids_distinct : NoDup (PeerID <$> P)) (addrs_distinct : NoDup (Address <$> P)) (several : 2 <= zlen P).
  Implicit Types p q : proc L Sb F R.
  Implicit Types n : network L Sb F R.

(** A server that is up: a follower that waits in its select. *)
Record standing p : Prop := mk_standing {
  sg_pc : pc p = InFollower true;
  sg_state : state (node p) = Follower;
  sg_open : shutdownCh (node p) = false;
  sg_term : term p < max_uint - 1;
  sg_queue : (length (applyCh (node p)) <= applyCh_cap)%nat
}.

(** It has the log [l], made of pieces of the history [Hi] and of at most [B] entries. *)
Record holds (Hi : history) (B T : Z) (l : list LogEntry) p : Prop := mk_holds {
  ho_standing : standing p;
  ho_log : repr (logStore (node p)) l;
  ho_tracked : tracked Hi l;
  ho_size : zlen l <= B;
  ho_terms : forall e, e ∈ l -> Term e <= T;
  ho_term : 0 <= term p <= T
}.

(** The candidate of a majority is elected. *)
Lemma elects Hi B n a p (lg : text -> list LogEntry) T Q : majority P (a :: Q) -> T < max_uint - 1 -> B < 2 ^ 62 ->
  procs n !! a = Some p -> holds Hi B T (lg a) p -> Peers (config (node p)) = P -> 0 <= commitIndex (node p) <= zlen (lg a) ->
  (exists c, c ∈ P /\ PeerID c = id_of p /\ Address c = a) ->
  (forall b, b ∈ Q -> exists q, procs n !! b = Some q /\ holds Hi B T (lg b) q /\
     isLogUpToDate (last_term (lg a)) (zlen (lg a)) (last_term (lg b)) (zlen (lg b)) = true) ->
  exists ls n' p', goes n ls n' /\ procs n' !! a = Some p' /\ pc p' = Elected (T + 1) /\ term p' = T + 1 /\
    able P (applyCh (node p)) (lg a) p' /\ id_of p' = id_of p /\
    (forall b, b ∈ Q -> exists q, procs n' !! b = Some q /\ standby (T + 1) (lg b) q) /\
    (forall b, b ∉ a :: Q -> procs n' !! b = procs n !! b).
Proof.
  intros (Hnd&Hsub&Hmaj) HT HB Ha [[Hpc Hst Ho Hm Hq] Hl Htr Hz Hterms Ht] Hp Hc (c&Hc1&Hc2&Hc3) Hvs.
  assert (2 ^ 62 < max_uint) as Hbig by done.
  destruct (outrun P (applyCh (node p)) (Z.to_nat (T - term p)) n a p (lg a)) as (ls&n1&p1&Hg1&Ep1&Has&Ei&Hcalls);
    [done|by split|by left|lia..|].
  replace (term p + 1 + Z.of_nat (Z.to_nat (T - term p))) with (T + 1) in * by lia.
  apply NoDup_cons in Hnd as [HaQ Hnd].
  assert (Peers (config (node p1)) = P) as HP1 by (by destruct Has as [_ _ _ [_ ? _ _ _]]).
  destruct (gather P (applyCh (node p)) a (T + 1) (lg a) lg Q n1 p1 1) as (ls2&n2&p2&Hg2&Ha2&Hpc2&En2&Hv2&Ho2); try done.
  - lia.
  - by rewrite Ep1, lookup_insert_eq.
  - unfold quorum. rewrite HP1. rewrite zlen_cons in Hmaj. pose proof (Z.div_le_lower_bound (zlen P) 2 1). lia.
  - intros b Hb. apply Hcalls. assert (b ∈ addrs P) as (d&->&Hd)%list_elem_of_fmap by (apply Hsub; by right).
    apply list_elem_of_fmap. exists d. split; [done|]. apply list_elem_of_filter. split; [|done]. intros E.
    assert (d = c) as ->; [|by rewrite Hc3 in Hb].
    apply list_elem_of_lookup in Hc1 as [i Hi1], Hd as [j Hj].
    assert (i = j) as <-; [|congruence].
    eapply NoDup_lookup; [exact ids_distinct|by rewrite list_lookup_fmap, Hi1|by rewrite list_lookup_fmap, Hj; cbn; congruence].
  - intros b Hb. destruct (Hvs b Hb) as (q&Hbq&[Sq Lq _ Zq _ Tq]&Hup). exists q.
    rewrite Ep1, lookup_insert_ne by (by intros ->). split; [done|]. split; [|split; [lia|done]].
    destruct Sq as [? ? _ _ _]. split; try done. lia.
  - destruct Has as [_ _ Et1 [A1 A2 A3 A4 A5]]. exists (ls ++ ls2), n2, p2. split; [by eapply goes_app|].
    split; [done|]. split; [done|]. split; [unfold term; by rewrite En2|]. split; [by split; rewrite En2|].
    split; [unfold id_of; by rewrite En2|]. split; [done|]. intros b Hb. rewrite Ho2, Ep1 by done.
    apply lookup_insert_ne. set_solver.
Qed.

(** The new leader appends its no-op entry and serves the requests that waited. *)
Lemma accepts cl n a p l t : 0 <= t < max_uint -> procs n !! a = Some p -> pc p = Elected t -> term p = t ->
  able P cl l p -> (length cl <= applyCh_cap)%nat -> zlen l < 2 ^ 62 ->
  (exists c, c ∈ P /\ PeerID c = id_of p /\ Address c = a) ->
  exists ls n' p' s, goes n ls n' /\ procs n' = <[a := p']> (procs n) /\ leading P a t (l ++ s) [] p' /\
    applyCh (node p') = [] /\ Forall (fun e => Term e = t) s /\ Data <$> s = [] :: (req_data <$> cl).
Proof.
  intros Ht Ha Hpc Et Hab Hcl Hz Hself. assert (2 ^ 62 + 2 ^ 63 < max_uint - 1) as Hbig by done.
  assert (zlen cl <= 256) as Hcz by (unfold zlen, applyCh_cap in *; lia).
  destruct (takes_office P ids_distinct several cl a t l p) as (ls1&p1&Htu&Hl1&Hq1); try done; [lia|].
  destruct (goes_turns _ _ _ _ Htu n Ha) as (n1&Hg1&Ep1&_).
  destruct (serves_all P several a t cl n1 _ p1 ltac:(by rewrite Ep1, lookup_insert_eq) Hl1 Hq1)
    as (ls2&n2&p2&s&Hg2&Ep2&Hl2&Hq2&Ed&Hs); [zl|done|].
  rewrite <-app_assoc in Hl2. eexists _, n2, p2, ([following l t []] ++ s). split; [by eapply goes_app|].
  split; [by rewrite Ep2, Ep1, insert_insert_eq|]. split; [done|]. split; [done|].
  split; [by apply Forall_app; split; [repeat constructor|]|]. cbn. by rewrite Ed.
Qed.

(** It commits what a client sends it, on the servers of [Q]. *)
Lemma commits n a p l s t (lg : text -> list LogEntry) Hi data Q : majority P (a :: Q) -> 0 <= t < max_uint ->
  procs n !! a = Some p -> leading P a t (l ++ s) [] p -> applyCh (node p) = [] ->
  Forall (fun e => Term e = t) s -> zlen s <= 257 -> zlen l < 2 ^ 62 -> tracked Hi l ->
  (forall b, b ∈ Q -> exists q, procs n !! b = Some q /\ standby t (lg b) q /\ tracked Hi (lg b) /\
     zlen (lg b) < 2 ^ 62 /\ forall e, e ∈ lg b -> Term e < t) ->
  let f := snd (Leader.Apply (node p) data Enqueued) in
  let ll := (l ++ s) ++ [following (l ++ s) t data] in
  exists ls n' p', goes n (NStep a (LSubmit data Enqueued) :: ls) n' /\ procs n' !! a = Some p' /\
    leading P a t ll (rev_append Q []) p' /\ commitIndex (node p') = zlen ll /\
    pendingFutures (node p') !! zlen ll = Some f /\ futures (node p') !! f = Some newApplyFuture /\
    (forall b, b ∈ Q -> exists q k, procs n' !! b = Some q /\ repr (logStore (node q)) k /\ take (length ll) k = ll) /\
    (forall b, b ∉ a :: Q -> procs n' !! b = procs n !! b).
Proof.
  intros (Hnd&Hsub&Hmaj) Ht Ha Hlead Hq Hs Hsz Hz Htr Hvs f ll. assert (2 ^ 62 + 2 ^ 63 < max_uint - 1) as Hbig by done.
  assert (2 ^ 62 + 258 < 2 ^ 63) as Hbig' by done. assert (zlen ll < 2 ^ 63) as Hll by (unfold ll; zl).
  destruct (calls_Apply P a t _ p n data Ha Hlead) as (n1&p1&Hg1&Ep1&Hl1&Hq1&Hf1); [rewrite Hq; cbn; unfold applyCh_cap; lia|done|].
  rewrite Hq in Hq1. cbn [app] in Hq1.
  destruct (serves P several n1 a t (l ++ s) p1 _ [] ltac:(by rewrite Ep1, lookup_insert_eq) Hl1 Hq1)
    as (ls2&n2&p2&Hg2&Ep2&Hl2&_&Epa2); [zl|done|]. cbn [req_data req_future] in Hl2, Epa2. fold f in Epa2, Hf1. fold ll in Hl2.
  assert (procs n2 = <[a := p2]> (procs n)) as Ep by (by rewrite Ep2, Ep1, insert_insert_eq).
  apply NoDup_cons in Hnd as [HaQ Hnd].
  destruct (spreads P addrs_distinct a t ll lg Q n2 [] p2) as (ls3&n3&p3&Hg3&Ha3&Hl3&Epa3&Hv3&Ho3); try done.
  { rewrite app_nil_r. by constructor. }
  { rewrite app_nil_r. intros b Hb. apply Hsub. by right. }
  { by rewrite Ep, lookup_insert_eq. }
  { intros b Hb. destruct (Hvs b Hb) as (q&Hbq&Hsb&Htrb&Hzb&Htb). exists q.
    rewrite Ep, lookup_insert_ne by (by intros ->). split; [done|]. split; [done|].
    destruct (newer_matching Hi l (lg b) (s ++ [following (l ++ s) t data]) t) as [Hm Hap]; try done.
    { apply Forall_app. split; [done|by repeat constructor]. }
    rewrite app_assoc in Hm, Hap. split; [done|]. split; [done|]. lia. }
  assert (zlen ll = zlen (l ++ s) + 1) as Ell by (unfold ll; zl).
  rewrite Epa2 in Epa3. injection Epa3 as Epe Efu.
  exists (ls2 ++ ls3), n3, p3. split; [by eapply (goes_app n [_] n1), goes_app|]. split; [done|]. split; [done|].
  split_and!; [|by rewrite Epe, Ell, lookup_insert_eq|by rewrite Efu| |].
  - apply (lg_majority _ _ _ _ _ _ Hl3). rewrite rev_append_rev, app_nil_r. unfold zlen in *. rewrite length_rev.
    cbn [length] in Hmaj. lia.
  - intros b Hb. destruct (Hv3 b Hb) as (q&k&Hbq&[_ _ Hk _]&E). by exists q, k.
  - intros b Hb. rewrite Ho3, Ep by done. apply lookup_insert_ne. set_solver.
Qed.

(** What a server of a run holds. *)
Lemma safe_holds n G B a p : safe_net P n G B -> B < 2 ^ 62 -> procs n !! a = Some p -> standing p ->
  exists l, holds (hist G) B (term p) l p /\ 0 <= commitIndex (node p) <= zlen l /\ Peers (config (node p)) = P /\
    exists c, c ∈ P /\ PeerID c = id_of p /\ Address c = a.
Proof.
  intros [Hn Hk Hv Hc] HB Ha Hs. destruct (lk_procs _ _ _ Hk a p Ha) as [(l&Hl&Htr&Hz&_) _ _ _].
  destruct (nk_proc _ _ Hn a p Ha) as [Hp _ Ht _ _]. exists l. split; [split; try done|].
  - intros e He. by apply (vs_log_terms _ _ _ Hv a p l e).
  - split; [exact (committed_len P G _ _ _ (co_commit _ _ _ Hc a p l Ha Hl))|]. split; [done|].
    apply (po_member P _ _ (nk_poll P _ Hn) a (view_of p)). apply views_lookup. by exists p.
Qed.

(** The largest of the terms. *)
Lemma top_term n (M : list text) : (forall a, a ∈ M -> exists p, procs n !! a = Some p /\ standing p) -> exists T, T < max_uint - 1 /\
  forall a p, a ∈ M -> procs n !! a = Some p -> term p <= T.
Proof.
  induction M as [|b M IH]; intros HM; [exists 0; split; [done|]; by intros a p ?%elem_of_nil|].
  destruct IH as (T&HT&Hmax); [intros a Ha; apply HM; by right|].
  destruct (HM b) as (q&Hb&[_ _ _ Hq _]); [by left|]. exists (Z.max T (term q)). split; [lia|].
  intros a p [->|Ha]%elem_of_cons Hp; [assert (p = q) as -> by congruence; lia|]. specialize (Hmax a p Ha Hp). lia.
Qed.

(** One of them is elected. *)
Lemma majority_elects n G B (M : list text) : safe_net P n G B -> B < 2 ^ 62 -> majority P M ->
  (forall a, a ∈ M -> exists p, procs n !! a = Some p /\ standing p) ->
  exists a Q lg T p ls n' p', Permutation M (a :: Q) /\ majority P (a :: Q) /\ 0 <= T + 1 < max_uint /\
    procs n !! a = Some p /\ holds (hist G) B T (lg a) p /\ 0 <= commitIndex (node p) <= zlen (lg a) /\
    goes n ls n' /\ procs n' !! a = Some p' /\ pc p' = Elected (T + 1) /\ term p' = T + 1 /\
    able P (applyCh (node p)) (lg a) p' /\ (exists c, c ∈ P /\ PeerID c = id_of p' /\ Address c = a) /\
    (forall b, b ∈ Q -> exists q, procs n' !! b = Some q /\ standby (T + 1) (lg b) q /\ tracked (hist G) (lg b) /\
       zlen (lg b) < 2 ^ 62 /\ forall e, e ∈ lg b -> Term e < T + 1) /\
    (forall b, b ∉ a :: Q -> procs n' !! b = procs n !! b).
Proof.
  intros Hs HB HM Hup. destruct (top_term n M Hup) as (T&HT&Htop).
  destruct (choose_each ([] : list LogEntry) (fun b l => exists q, procs n !! b = Some q /\ holds (hist G) B T l q) M)
    as [lg Hlg].
  { intros b Hb. destruct (Hup b Hb) as (q&Hq&Hst).
    destruct (safe_holds n G B b q Hs HB Hq Hst) as (l&[? ? ? ? Hle ?]&_). exists l, q. split; [done|].
    specialize (Htop b q Hb Hq). split; try done; [|lia]. intros e He. specialize (Hle e He). lia. }
  destruct (newest lg M) as (a&Ha&Hnew).
  { intros ->. destruct HM as (_&_&Hm). rewrite zlen_nil in Hm. pose proof (Z.div_pos (zlen P) 2). lia. }
  apply elem_of_Permutation in Ha as [Q HQ].
  assert (forall b, b ∈ M <-> b ∈ a :: Q) as Hmem by (intros b; by rewrite HQ).
  assert (majority P (a :: Q)) as HMQ.
  { destruct HM as (Hnd&Hsub&Hm). split; [by rewrite <-HQ|]. split; [intros b Hb; apply Hsub; by apply Hmem|].
    unfold zlen in *. by rewrite <-(Permutation_length HQ). }
  destruct (Hlg a) as (p&Hp&Hh); [apply Hmem; by left|].
  destruct (safe_holds n G B a p Hs HB Hp (ho_standing _ _ _ _ _ Hh)) as (l0&[_ Hl0 _ Hz0 _ _]&Hc0&HP0&Hself).
  assert (2 ^ 62 < max_uint) as Hbig by done.
  assert (l0 = lg a) as -> by (apply (repr_unique (logStore (node p))); [lia|done|by destruct Hh]).
  destruct (elects (hist G) B n a p lg T Q) as (ls1&n1&p1&Hg1&Ha1&Hpc1&Et1&Hab1&Ei1&Hv1&Ho1); try done.
  { intros b Hb. assert (b ∈ M) as HbM by (apply Hmem; by right).
    destruct (Hlg b HbM) as (q&Hq&Hhq). exists q. split; [done|]. split; [done|]. by apply Hnew. }
  exists a, Q, lg, T, p, ls1, n1, p1. rewrite Ei1. split_and!; try done; [destruct Hh; lia|lia|lia|lia|].
  intros b Hb. destruct (Hv1 b Hb) as (q&Hq&Hsb). exists q. split; [done|]. split; [done|].
  destruct (Hlg b) as (q0&_&[_ _ ? ? Hle _]); [apply Hmem; by right|]. split; [done|]. split; [lia|].
  intros x Hx. specialize (Hle x Hx). lia.
Qed.

(** A log that the state machine can be fed with. *)
Lemma log_good K Hi l s data e t : sourced K Hi -> tracked Hi l -> K data ->
  (exists reqs, Data <$> s = [] :: (req_data <$> reqs) /\ forall req, req ∈ reqs -> K (req_data req)) ->
  e = following (l ++ s) t data -> Forall (good K) ((l ++ s) ++ [e]).
Proof.
  intros Hso Htr Hd (reqs&Es&Hreqs) ->. rewrite !Forall_app. split; [split; [by eapply tracked_good|]|by apply Forall_singleton; right].
  assert (Forall (fun d => d = [] \/ K d) (Data <$> s)) as Hall; [|by apply Forall_fmap in Hall].
  rewrite Es. constructor; [by left|]. apply Forall_fmap, Forall_forall. intros req Hin. right. by apply Hreqs.
Qed.

(** The apply loop of the leader, which has not run since it stood with the log [l], answers
    the last entry. *)
Lemma answers_last ls n n' a p p' l x t D f f0 : goes n ls n' -> procs n !! a = Some p -> procs n' !! a = Some p' ->
  applies f0 p l -> commitIndex (node p) <= zlen l -> x <> [] -> zlen (l ++ x) < max_uint -> t < max_uint ->
  leading P a t (l ++ x) D p' -> commitIndex (node p') = zlen (l ++ x) ->
  pendingFutures (node p') !! zlen (l ++ x) = Some f -> futures (node p') !! f = Some newApplyFuture ->
  (forall i, exists y, feed f0 (take i (l ++ x)) = Ret y) ->
  exists ls2 n2 p2, runs n' ls2 n2 /\ procs n2 = <[a := p2]> (procs n') /\ unmoved_by_loop p' p2 /\
    lastApplied (node p2) = zlen (l ++ x) /\ snd <$> wait_step p2 f = Some None.
Proof.
  intros Hg Ha Ha' [Hlast [xs Hfed] Hloop] Hc Hx Hz Ht Hlead Hci Hp Hf Hfeeds.
  destruct (goes_undisturbed _ n n' a p Hg Ha) as (y&Hy&[Eloop Eap]).
  assert (y = p') as -> by congruence. unfold loop_state in Eloop. injection Eloop as Elast Efsm _.
  assert (zlen l < zlen (l ++ x)) as Hlt by (destruct x; [done|zl]).
  apply (replies_later f0 (l ++ x) Hfeeds n' a f p' Ha' Hz).
  - destruct Hlead as [_ _ Et Hlog _ _ _ _ _ Htok _]. split; try done; [by apply Htok|lia|by exists newApplyFuture; split; [|left]|lia|].
    exists xs. rewrite Elast, Efsm, take_app_le; [done|]. unfold zlen in *. lia.
  - intros idx c Hi. rewrite Eap in Hi. destruct (Hloop idx c Hi). lia.
Qed.

(** What a client submits to it is committed, applied and answered. *)
Lemma majority_answers n G B f0 (K : text -> Prop) (M : list text) data : safe_net P n G B -> B < 2 ^ 62 ->
  applied_net f0 n -> queued K n -> sourced K (hist G) -> K data ->
  (forall a es, is_Some (procs n !! a) -> Forall (good K) es -> zlen es <= B + 258 -> exists y, feed (f0 a) es = Ret y) ->
  majority P M -> (forall a, a ∈ M -> exists p, procs n !! a = Some p /\ standing p) ->
  exists a ls1 n1 p1 ls2 n2 p2 l e, a ∈ M /\ runs n ls1 n1 /\ procs n1 !! a = Some p1 /\ state (node p1) = Leader /\
    runs n1 (NStep a (LSubmit data Enqueued) :: ls2) n2 /\ procs n2 !! a = Some p2 /\ state (node p2) = Leader /\
    snd <$> wait_step p2 (snd (Leader.Apply (node p1) data Enqueued)) = Some None /\
    repr (logStore (node p2)) (l ++ [e]) /\ zlen (l ++ [e]) < 2 ^ 63 /\ Data e = data /\
    commitIndex (node p2) = zlen (l ++ [e]) /\ lastApplied (node p2) = zlen (l ++ [e]) /\
    (forall b, b ∈ M -> exists q k, procs n2 !! b = Some q /\ repr (logStore (node q)) k /\
       take (length (l ++ [e])) k = l ++ [e]) /\
    (forall b, b ∉ M -> procs n2 !! b = procs n !! b).
Proof.
  intros Hs HB Happ Hqd Hso Hdata Hfeeds HM Hup.
  assert (2 ^ 63 < max_uint) as Hbig by done. assert (2 ^ 62 + 258 < 2 ^ 63) as Hbig' by done.
  destruct (majority_elects n G B M Hs HB HM Hup)
    as (a&Q&lg&T&p&ls1&n1&p1&HQ&HMQ&HT&Ha&[Hst Hl Htr Hz _ _]&Hc&Hg1&Ha1&Hpc1&Et1&Hab1&Hself1&Hv1&Ho1).
  assert (forall b, b ∈ M <-> b ∈ a :: Q) as Hmem by (intros b; by rewrite HQ).
  destruct (accepts (applyCh (node p)) n1 a p1 (lg a) (T + 1)) as (ls2&n2&p2&s&Hg2&Ep2&Hl2&Hq2&Hs2&Ed2); try done;
    [by destruct Hst|lia|].
  assert (zlen s <= 257) as Hsz.
  { pose proof (f_equal length Ed2) as E. cbn [length] in E. rewrite !length_fmap in E. destruct Hst. unfold zlen, applyCh_cap in *. lia. }
  destruct (commits n2 a p2 (lg a) s (T + 1) lg (hist G) data Q) as (ls3&n3&p3&Hg3&Ha3&Hl3&Hci3&Hp3&Hf3&Hv3&Ho3); try done.
  { by rewrite Ep2, lookup_insert_eq. }
  { lia. }
  { intros b Hb. rewrite Ep2, lookup_insert_ne; [by apply Hv1|]. intros <-.
    destruct HMQ as (Hnd&_). by apply NoDup_cons in Hnd as [? _]. }
  set (ll := (lg a ++ s) ++ [following (lg a ++ s) (T + 1) data]) in *.
  assert (zlen (lg a) < zlen ll <= B + 258) as Hll by (unfold ll; zl).
  assert (Forall (good K) ll) as Hgood.
  { eapply (log_good K (hist G) (lg a) s data); [done..| |reflexivity]. exists (applyCh (node p)). split; [done|].
    intros req Hreq. by apply (Hqd a p). }
  set (x := s ++ [following (lg a ++ s) (T + 1) data]). assert (ll = lg a ++ x) as Ell by (unfold ll, x; by rewrite app_assoc).
  rewrite Ell in Hl3, Hci3, Hp3, Hgood, Hll.
  destruct (answers_last _ n n3 a p p3 (lg a) x (T + 1) (rev_append Q []) (snd (Leader.Apply (node p2) data Enqueued)) (f0 a)
    (goes_app _ _ _ _ _ Hg1 (goes_app _ _ _ _ _ Hg2 Hg3)) Ha Ha3 (proj2 (Happ a p Ha) (lg a) Hl))
    as (ls4&n4&p4&Hr4&Ep4&(E1&E2&E3)&El4&Hw4); try done; [lia|by destruct s|lia|lia| |].
  { intros i. apply Hfeeds; [by exists p|by apply Forall_take|]. rewrite zlen_take. lia. }
  rewrite <-Ell in Hl3, Hci3, Hll, El4.
  exists a, (ls1 ++ ls2), n2, p2, (ls3 ++ ls4), n4, p4, (lg a ++ s), (following (lg a ++ s) (T + 1) data). fold ll.
  split; [apply Hmem; by left|]. split; [by apply (goes_app n ls1 n1 ls2 n2)|].
  split; [by rewrite Ep2, lookup_insert_eq|]. split; [by destruct Hl2|].
  split; [exact (runs_app n2 (_ :: ls3) n3 ls4 n4 (proj1 Hg3) Hr4)|]. split; [by rewrite Ep4, lookup_insert_eq|].
  split; [rewrite E1; by destruct Hl3|]. split; [done|]. split; [rewrite E2; by destruct Hl3|]. split; [lia|]. split; [done|].
  split; [congruence|]. split; [done|]. split.
  - intros b [->|Hb]%Hmem%elem_of_cons.
    + exists p4, ll. rewrite Ep4, lookup_insert_eq, take_ge, E2 by done. split; [done|]. split; [by destruct Hl3|done].
    + destruct HMQ as (Hnd&_). apply NoDup_cons in Hnd as [HaQ _].
      rewrite Ep4, lookup_insert_ne by (by intros ->). by apply Hv3.
  - intros b Hb. rewrite Hmem in Hb. rewrite Ep4, lookup_insert_ne by set_solver. rewrite Ho3 by done.
    rewrite Ep2, lookup_insert_ne by set_solver. by apply Ho1.
Qed.

End majority.

(** * Properties *)


(** ** Without the leader

    In the run of [Applied], n3 has just crashed; it is started again and waits, and so is
    n2, which has nothing in its log. n1 still leads term 1, with three committed entries.
    Alice submits her next changeset. *)
#[local] Existing Instance demo_machine_FSM.

Definition doc_wait : list nlabel :=
  doc_edit ++ doc_follow ++ main "h3" 2 ++ NRestart (bytes_of "h2") [] :: main "h2" 2.

Definition doc_waiting : network InmemLogStore InmemStableStore document ApplyResult :=
  default (boot doc_nodes) (nsteps (boot doc_nodes) doc_wait).

Definition standingb (p : proc InmemLogStore InmemStableStore document ApplyResult) : bool :=
  bool_decide (pc p = InFollower true) && bool_decide (state (node p) = Follower) && negb (shutdownCh (node p)) &&
  (term p <? max_uint - 1) && (length (applyCh (node p)) <=? applyCh_cap)%nat.

Lemma standingb_standing p : standingb p = true -> standing p.
Proof.
  unfold standingb. intros [[[[H1%bool_decide_eq_true H2%bool_decide_eq_true]%andb_prop H3%negb_true_iff]%andb_prop
    H4%Z.ltb_lt]%andb_prop H5%Nat.leb_le]%andb_prop. by split.
Qed.

Definition demo_majority : list text := [bytes_of "h2"; bytes_of "h3"].

Lemma doc_no_clients : no_clients doc_nodes.
Proof. by intros a r [id ->]%doc_start. Qed.

Lemma doc_submits : Forall (submits (fits_in (EC := demo_codec) 2)) doc_wait.
Proof. repeat constructor; vm_compute; try done; by repeat constructor. Qed.

Lemma doc_feeds a r es : doc_nodes !! a = Some r -> Forall (good (fits_in (EC := demo_codec) 2)) es ->
  zlen es <= zlen doc_wait + 258 -> exists y, feed (fsm r) es = Ret y.
Proof.
  intros [id ->]%doc_start Hes Hz. assert (zlen doc_wait + 258 < 2 ^ 60) as Hw by by_compute.
  assert (2 ^ 63 - 1 = max_int) as Hm by done.
  destruct (feed_returns (EC := demo_codec) [] 2 es) as (d&xs&Hy); [done|done|lia| |by exists (d, xs)].
  rewrite zlen_nil. lia.
Qed.

Lemma doc_majority_up a : a ∈ demo_majority -> exists p, procs doc_waiting !! a = Some p /\ standing p.
Proof.
  intros Ha. assert (match procs doc_waiting !! a with Some p => standingb p | None => false end = true) as Hs.
  { revert a Ha. apply Forall_forall. repeat constructor; vm_compute; reflexivity. }
  destruct (procs doc_waiting !! a) as [p|] eqn:E; [|done]. exists p. split; [done|]. by apply standingb_standing.
Qed.

