(* ===== verification/Server.v ===== *)
(** The WebSocket server of a node ([internal/server/websocket.go]): connections,
    their [readPump], the registered clients and their bounded send channels, the
    [onCommit] callbacks, over the node of [Machine] and the document of [Document].
    The goroutines are the steps of a transition system; each step is one critical
    section of [n.mu], of the state machine's lock or of the node's. *)
From stdpp Require Import pretty.
From S2P Require Import Prelude Stores Future Config Node Election Replication Leader Machine.
From S2P Require Import Changeset Apply Cursor Compose Follow Fsm Codec Document.

(** * Messages *)

Definition MsgConnect : text := bytes_of "CONNECT".
Definition MsgSubmit : text := bytes_of "SUBMIT".
Definition MsgConnectAck : text := bytes_of "CONNECT_ACK".
Definition MsgAck : text := bytes_of "ACK".
Definition MsgBroadcast : text := bytes_of "BROADCAST".
Definition MsgRedirect : text := bytes_of "REDIRECT".
Definition MsgError : text := bytes_of "ERROR".

Record Envelope : Type := mkEnvelope { Type_ : text; Payload : text }.

Record ConnectMsg : Type := mkConnectMsg { cm_ClientID : text; cm_LastKnownRev : Z }.

Record SubmitMsg : Type := mkSubmitMsg {
  sm_ClientID : text; sm_SubmissionID : Z; sm_BaseRev : Z; sm_Changeset : Changeset
}.

(** The payloads the server sends. *)
Inductive payload : Type :=
| ConnectAckMsg (ack_HeadText : text) (ack_HeadRev : Z) (ack_CatchUp : list RevisionRecord)
| AckMsg (ack_NewRev : Z)
| BroadcastMsg (bc_Changeset : Changeset) (bc_NewRev : Z)
| RedirectMsg (rd_LeaderAddr : text)
| ErrorMsg (em_Code : Z) (em_Message : text).

(** The [msgType] each payload is sent with. *)
Definition msg_type (m : payload) : text :=
  match m with
  | ConnectAckMsg _ _ _ => MsgConnectAck
  | AckMsg _ => MsgAck
  | BroadcastMsg _ _ => MsgBroadcast
  | RedirectMsg _ => MsgRedirect
  | ErrorMsg _ _ => MsgError
  end.

(** [json.Marshal] and [json.Unmarshal] of the messages; [None] is an error. *)
Class WireCodec := {
  UnmarshalEnvelope : text -> option Envelope;
  UnmarshalConnect : text -> option ConnectMsg;
  UnmarshalSubmit : text -> option SubmitMsg;
  MarshalPayload : payload -> option text;
  MarshalEnvelope : Envelope -> option text
}.

(** [%d]. *)
Definition itoa (n : Z) : string := pretty n.

(** [err.Error()] of the errors that [Validate] returns (the others are those of
    [ApplyChangeset]) and of those a future returns. *)
Definition validate_text (e : ot_error) : string :=
  match e with
  | ErrRetainLen n => "retain len must be positive, got " +:+ itoa n
  | ErrInsertEmpty => "insert chars must not be empty"
  | ErrDeleteLen n => "delete len must be positive, got " +:+ itoa n
  | ErrUnknownOp t => "unknown op type: " +:+ type_name t
  | ErrConsumed n oldLen => "ops consume " +:+ itoa n +:+ " chars but OldLen=" +:+ itoa oldLen
  | ErrProduced n newLen => "ops produce " +:+ itoa n +:+ " chars but NewLen=" +:+ itoa newLen
  | _ => ""
  end.

Definition apply_text (e : apply_error) : string :=
  match e with
  | ErrNotLeader => "raft: not the leader"
  | ErrShutdown => "raft: server is shutting down"
  | ErrTimeout => "raft: apply timeout"
  | ErrLeaderLost => "raft: leadership lost before commit"
  | ErrStoreLog err => "store log: " +:+ err
  end.

(** * Clients *)

(** [sendCh] is a buffered channel; [writing] says whether [writePump] still runs. *)
Record wsClient : Type := mkClient {
  c_id : text;
  c_conn : nat;
  sendCh : list text;
  closed : bool;
  writing : bool
}.

Definition sendCh_cap : nat := 256.

Definition set_sendCh (q : list text) (c : wsClient) : wsClient :=
  mkClient (c_id c) (c_conn c) q (closed c) (writing c).

(** The clients are shared by address. *)
Abbreviation client_heap := (gmap nat wsClient).

Section messages.
  Context `{WC : WireCodec}.

(** What [send] puts on the channel. *)
Definition encode (m : payload) : option text :=
  data ← MarshalPayload m; MarshalEnvelope (mkEnvelope (msg_type m) data).

(** [send]: a send on a closed channel panics, also in a [select] with a [default]. *)
Definition send (h : client_heap) (a : nat) (m : payload) : outcome Empty_set client_heap :=
  match h !! a with
  | None => Ret h
  | Some c =>
      match encode m with
      | None => Ret h
      | Some b =>
          if closed c then Panic
          else if (length (sendCh c) <? sendCh_cap)%nat
          then Ret (<[a := set_sendCh (sendCh c ++ [b]) c]> h)
          else Ret h
      end
  end.

(** The sends of [onCommit], in order. *)
Definition onCommit_sends (clients : gmap text nat) (result : ApplyResult) : list (nat * payload) :=
  match clients !! RClientID result with
  | Some origin => [(origin, AckMsg (NewRev result))]
  | None => []
  end ++
  (if IsDuplicate result then []
   else (fun q => (snd q, BroadcastMsg (CPrime result) (NewRev result))) <$>
     List.filter (fun q => negb (bool_decide (fst q = RClientID result))) (map_to_list clients)).

Fixpoint send_all (h : client_heap) (ms : list (nat * payload)) : outcome Empty_set client_heap :=
  match ms with
  | [] => Ret h
  | (a, m) :: ms' => h' ← send h a m; send_all h' ms'
  end.

Definition onCommit (h : client_heap) (clients : gmap text nat) (result : ApplyResult)
  : outcome Empty_set client_heap := send_all h (onCommit_sends clients result).

End messages.

(** * The server *)

(** Where a connection's [readPump] is: in [ReadMessage], in the stages of
    [handleConnect] (registering; [IsLeader]; [LeaderAddr]; [RevisionsSince];
    [HeadText]; [HeadRev] and sending), in those of [handleSubmit] ([IsLeader],
    validating and encoding; redirecting; [Apply]; [future.Error]), or in the deferred
    function ([removeClient]; [close] and [conn.Close]). *)
Inductive pump : Type :=
| Reading
| Registering (msg : ConnectMsg)
| Checking (a : nat) (rev : Z)
| Redirecting (a : nat) (rev : Z)
| CatchingUp (a : nat) (rev : Z)
| TakingText (a : nat) (catchUp : list RevisionRecord)
| TakingRev (a : nat) (catchUp : list RevisionRecord) (head : text)
| Submitting (a : nat) (msg : SubmitMsg)
| Refusing (a : nat)
| Proposing (a : nat) (data : text)
| Waiting (a : nat) (f : nat)
| Removing
| Closing
| Gone.

#[export] Instance submit_eq_dec : EqDecision SubmitMsg.
Proof. solve_decision. Defined.
#[export] Instance connect_eq_dec : EqDecision ConnectMsg.
Proof. solve_decision. Defined.
#[export] Instance pump_eq_dec : EqDecision pump.
Proof. solve_decision. Defined.

(** A connection: the variable [client] of its [readPump], and what has been written
    to the socket. *)
Record connection : Type := mkConn {
  client : option nat;
  at_ : pump;
  written : list text
}.

Inductive slabel : Type :=
| SRaft (l : label)                       (* a step of the node *)
| SAccept (k : nat)                       (* ServeHTTP: a new connection *)
| SRecv (k : nat) (raw : text)            (* ReadMessage returns a message *)
| SHangup (k : nat)                       (* ReadMessage returns an error *)
| SPump (k : nat)                         (* readPump goes on *)
| SPropose (k : nat) (c : submit_choice)  (* it calls Apply *)
| SCommit (n : nat)                       (* a spawned onCommit takes the read lock *)
| SPost (n : nat)                         (* it sends its next message, or unlocks *)
| SWrite (a : nat)                        (* a writePump writes a message *)
| SWriteFail (a : nat) (ping : bool)      (* the write of a message or a ping fails *).

Section server.
  Context {L Sb : Type} `{LogStore L} `{StableStore Sb} `{EC : EntryCodec} `{WC : WireCodec}.

(** [Node], with its part of the heap and its goroutines. [posting]: the messages that
    the running [onCommit] calls, which hold the read lock of [mu], still have to
    send; [taken]: those of the calls spawned ([doc_spawned] of the document) that have
    had the lock. *)
Record server : Type := mkServer {
  raft : proc L Sb document ApplyResult;
  heap : client_heap;
  clients : gmap text nat;
  conns : gmap nat connection;
  posting : list (list (nat * payload));
  taken : gset nat
}.

Definition NewNode (p : proc L Sb document ApplyResult) : server := mkServer p ∅ ∅ ∅ [] ∅.

Definition set_raft (p : proc L Sb document ApplyResult) (s : server) : server :=
  mkServer p (heap s) (clients s) (conns s) (posting s) (taken s).
Definition set_heap (h : client_heap) (s : server) : server :=
  mkServer (raft s) h (clients s) (conns s) (posting s) (taken s).
Definition set_clients (m : gmap text nat) (s : server) : server :=
  mkServer (raft s) (heap s) m (conns s) (posting s) (taken s).
Definition set_conn (k : nat) (c : connection) (s : server) : server :=
  mkServer (raft s) (heap s) (clients s) (<[k := c]> (conns s)) (posting s) (taken s).
Definition set_posting (l : list (list (nat * payload))) (s : server) : server :=
  mkServer (raft s) (heap s) (clients s) (conns s) l (taken s).
Definition set_taken (t : gset nat) (s : server) : server :=
  mkServer (raft s) (heap s) (clients s) (conns s) (posting s) t.

Definition raft_node (s : server) : RaftNode L Sb document ApplyResult := node (raft s).
Definition sm (s : server) : DocumentStateMachine := doc_fsm (fsm (raft_node s)).

(** The connection goes on at another place. *)
Definition at_place (c : connection) (x : pump) : connection := mkConn (client c) x (written c).

(** [handleConnect] returns: the client is in [readPump]'s variable. *)
Definition connected (c : connection) (a : nat) : connection := mkConn (Some a) Reading (written c).

(** A message: what [readPump] does with it before any lock. *)
Definition recv (c : connection) (raw : text) : pump :=
  match UnmarshalEnvelope raw with
  | None => Reading
  | Some env =>
      if bool_decide (Type_ env = MsgConnect) then
        match UnmarshalConnect (Payload env) with
        | Some msg => Registering msg
        | None => Reading
        end
      else if bool_decide (Type_ env = MsgSubmit) then
        match client c, UnmarshalSubmit (Payload env) with
        | Some a, Some msg => Submitting a msg
        | _, _ => Reading
        end
      else Reading
  end.

Definition send_at (s : server) (k : nat) (c : connection) (a : nat) (m : payload)
  : outcome Empty_set (option server) :=
  h ← send (heap s) a m; Ret (Some (set_conn k c (set_heap h s))).

(** [handleConnect], from one lock to the next. *)
Definition connect_step (s : server) (k : nat) (c : connection) : outcome Empty_set (option server) :=
  match at_ c with
  | Registering msg =>
      match posting s with
      | _ :: _ => Ret None
      | [] =>
          let a := fresh (dom (heap s)) in
          Ret (Some (set_conn k (at_place c (Checking a (cm_LastKnownRev msg)))
            (set_clients (<[cm_ClientID msg := a]> (clients s))
              (set_heap (<[a := mkClient (cm_ClientID msg) k [] false true]> (heap s)) s))))
      end
  | Checking a rev =>
      Ret (Some (set_conn k
        (at_place c (if IsLeader (raft_node s) then CatchingUp a rev else Redirecting a rev)) s))
  | Redirecting a rev =>
      if bool_decide (LeaderAddr (raft_node s) = [])
      then Ret (Some (set_conn k (at_place c (CatchingUp a rev)) s))
      else send_at s k (connected c a) a (RedirectMsg (LeaderAddr (raft_node s)))
  | CatchingUp a rev =>
      catchUp ← RevisionsSince (sm s) rev;
      Ret (Some (set_conn k (at_place c (TakingText a catchUp)) s))
  | TakingText a catchUp =>
      Ret (Some (set_conn k (at_place c (TakingRev a catchUp (HeadText (sm s)))) s))
  | TakingRev a catchUp head =>
      send_at s k (connected c a) a (ConnectAckMsg head (HeadRev (sm s)) catchUp)
  | _ => Ret None
  end.

(** [handleSubmit]. *)
Definition submit_step (s : server) (k : nat) (c : connection) : outcome Empty_set (option server) :=
  match at_ c with
  | Submitting a msg =>
      if negb (IsLeader (raft_node s)) then Ret (Some (set_conn k (at_place c (Refusing a)) s))
      else
        match Validate (sm_Changeset msg) with
        | Ret _ =>
            let entry := mkEntry (sm_ClientID msg) (sm_SubmissionID msg) (sm_BaseRev msg)
                           (sm_Changeset msg) in
            match MarshalEntry entry with
            | Some data => Ret (Some (set_conn k (at_place c (Proposing a data)) s))
            | None =>
                send_at s k (at_place c Reading) a (ErrorMsg 500 (bytes_of "failed to marshal entry"))
            end
        | Err err =>
            send_at s k (at_place c Reading) a
              (ErrorMsg 400 (bytes_of ("invalid changeset: " +:+ validate_text err)))
        | Panic => Panic
        | NoFuel => NoFuel
        end
  | Refusing a =>
      send_at s k (at_place c Reading) a (RedirectMsg (LeaderAddr (raft_node s)))
  | Waiting a f =>
      match wait_step (raft s) f with
      | None => Ret None
      | Some (p, err) =>
          let s := set_raft p s in
          match err with
          | None => Ret (Some (set_conn k (at_place c Reading) s))
          | Some e =>
              send_at s k (at_place c Reading) a
                (ErrorMsg 500 (bytes_of ("raft apply failed: " +:+ apply_text e)))
          end
      end
  | _ => Ret None
  end.

Definition propose_step (s : server) (k : nat) (c : connection) (ch : submit_choice)
  : outcome Empty_set (option server) :=
  match at_ c with
  | Proposing a data =>
      if choice_ready (raft_node s) ch then
        let '(r, f) := Leader.Apply (raft_node s) data ch in
        Ret (Some (set_conn k (at_place c (Waiting a f)) (set_raft (with_node (raft s) r) s)))
      else Ret None
  | _ => Ret None
  end.

(** [removeClient]. *)
Definition removeClient (s : server) (clientID : text) : server :=
  set_clients (delete clientID (clients s)) s.

(** The deferred function of [readPump]. *)
Definition close_step (s : server) (k : nat) (c : connection) : outcome Empty_set (option server) :=
  match at_ c, client c with
  | Removing, None => Ret (Some (set_conn k (at_place c Gone) s))
  | Removing, Some a =>
      match posting s, heap s !! a with
      | [], Some cl =>
          Ret (Some (set_conn k (at_place c Closing) (removeClient s (c_id cl))))
      | _, _ => Ret None
      end
  | Closing, Some a =>
      match heap s !! a with
      | None => Ret None
      | Some cl =>
          if closed cl then Panic
          else Ret (Some (set_conn k (at_place c Gone)
            (set_heap (<[a := mkClient (c_id cl) (c_conn cl) (sendCh cl) true (writing cl)]> (heap s)) s)))
      end
  | _, _ => Ret None
  end.

Definition pump_step (s : server) (k : nat) (c : connection) : outcome Empty_set (option server) :=
  match at_ c with
  | Submitting _ _ | Refusing _ | Waiting _ _ => submit_step s k c
  | Removing | Closing => close_step s k c
  | _ => connect_step s k c
  end.

(** A spawned call of [onCommit] takes the read lock. *)
Definition commit_step (s : server) (n : nat) : outcome Empty_set (option server) :=
  match doc_spawned (fsm (raft_node s)) !! n with
  | None => Ret None
  | Some res =>
      if bool_decide (n ∈ taken s) then Ret None
      else Ret (Some (set_posting (posting s ++ [onCommit_sends (clients s) res])
        (set_taken ({[n]} ∪ taken s) s)))
  end.

Definition post_step (s : server) (n : nat) : outcome Empty_set (option server) :=
  match posting s !! n with
  | None => Ret None
  | Some [] => Ret (Some (set_posting (delete n (posting s)) s))
  | Some ((a, m) :: rest) =>
      h ← send (heap s) a m;
      Ret (Some (set_posting (<[n := rest]> (posting s)) (set_heap h s)))
  end.

(** [writePump]: it drains the channel, also after it is closed; a write to a closed
    connection fails. *)
Definition write_step (s : server) (a : nat) : outcome Empty_set (option server) :=
  match heap s !! a with
  | Some cl =>
      if negb (writing cl) then Ret None
      else
        match sendCh cl, conns s !! c_conn cl with
        | m :: rest, Some c =>
            if bool_decide (at_ c = Gone) then Ret None
            else Ret (Some (set_conn (c_conn cl) (mkConn (client c) (at_ c) (written c ++ [m]))
              (set_heap (<[a := set_sendCh rest cl]> (heap s)) s)))
        | [], _ =>
            if closed cl
            then Ret (Some (set_heap
              (<[a := mkClient (c_id cl) (c_conn cl) [] true false]> (heap s)) s))
            else Ret None
        | _, None => Ret None
        end
  | None => Ret None
  end.

(** A write fails, and the pump returns; a message has left the channel by then. *)
Definition write_fail (s : server) (a : nat) (ping : bool) : outcome Empty_set (option server) :=
  match heap s !! a with
  | Some cl =>
      if writing cl
      then Ret (Some (set_heap
        (<[a := mkClient (c_id cl) (c_conn cl) (if ping then sendCh cl else tail (sendCh cl)) (closed cl) false]> (heap s)) s))
      else Ret None
  | None => Ret None
  end.

Definition sstep (s : server) (l : slabel) : outcome Empty_set (option server) :=
  match l with
  | SRaft (LSubmit _ _ | LWait _) => Ret None
  | SRaft l' => Ret ((fun p => set_raft p s) <$> step (raft s) l')
  | SAccept k =>
      match conns s !! k with
      | None => Ret (Some (set_conn k (mkConn None Reading []) s))
      | Some _ => Ret None
      end
  | SRecv k raw =>
      match conns s !! k with
      | Some c => if bool_decide (at_ c = Reading)
                  then Ret (Some (set_conn k (at_place c (recv c raw)) s)) else Ret None
      | None => Ret None
      end
  | SHangup k =>
      match conns s !! k with
      | Some c => if bool_decide (at_ c = Reading)
                  then Ret (Some (set_conn k (at_place c Removing) s)) else Ret None
      | None => Ret None
      end
  | SPump k => match conns s !! k with Some c => pump_step s k c | None => Ret None end
  | SPropose k ch => match conns s !! k with Some c => propose_step s k c ch | None => Ret None end
  | SCommit n => commit_step s n
  | SPost n => post_step s n
  | SWrite a => write_step s a
  | SWriteFail a ping => write_fail s a ping
  end.

Fixpoint ssteps (s : server) (ls : list slabel) : outcome Empty_set (option server) :=
  match ls with
  | [] => Ret (Some s)
  | l :: ls' =>
      o ← sstep s l;
      match o with Some s' => ssteps s' ls' | None => Ret None end
  end.

Definition ConnectedClients (s : server) : nat := size (clients s).

End server.
