(* ===== verification/Sessions.v ===== *)
(** What the WebSocket server promises: nothing is sent on a closed channel, whatever
    the clients do; a commit reaches every registered client once; a client that
    connects gets a state it can go on from. And where the promises end. *)
From S2P Require Import Prelude Stores Future Config Node Election Replication Leader Machine.
From S2P Require Import Changeset Apply Cursor Compose Follow Fsm Document Server.

(** * Nothing is sent on a closed channel *)

Section safety.
  Context {L Sb : Type} `{LogStore L} `{StableStore Sb} `{EC : EntryCodec} `{WC : WireCodec}.
  Implicit Types s : server (L := L) (Sb := Sb).

(** The address a place in the code holds, beside the variable [client]. *)
Definition pump_addr (x : pump) : option nat :=
  match x with
  | Checking a _ | Redirecting a _ | CatchingUp a _ | TakingText a _ | TakingRev a _ _
  | Submitting a _ | Refusing a | Proposing a _ | Waiting a _ => Some a
  | _ => None
  end.

Definition holds (c : connection) (a : nat) : Prop := client c = Some a \/ pump_addr (at_ c) = Some a.

(** A client that belongs to the connection and can be sent to. *)
Definition open_client (h : client_heap) (k : nat) (x : pump) (a : nat) : Prop :=
  exists cl, h !! a = Some cl /\ c_conn cl = k /\ (x <> Gone -> closed cl = false).

Definition unregistered s (a : nat) : Prop := forall id, clients s !! id <> Some a.

Record conn_ok s (k : nat) (c : connection) : Prop := mk_conn_ok {
  ck_open : forall a, holds c a -> open_client (heap s) k (at_ c) a;
  ck_closing : forall a, at_ c = Closing -> client c = Some a -> unregistered s a
}.

Record server_inv s : Prop := mk_server_inv {
  sv_clients : forall id a, clients s !! id = Some a ->
    exists cl, heap s !! a = Some cl /\ c_id cl = id /\ closed cl = false;
  sv_conns : forall k c, conns s !! k = Some c -> conn_ok s k c;
  sv_posting : forall l a m, l ∈ posting s -> (a, m) ∈ l -> exists id, clients s !! id = Some a
}.

Lemma server_inv_new (p : proc L Sb document ApplyResult) : server_inv (NewNode p).
Proof.
  split; cbn; [intros ?? Hx; by rewrite lookup_empty in Hx..|intros ??? Hx].
  by apply elem_of_nil in Hx.
Qed.

(** What the invariant sees of a client. *)
Definition view (cl : wsClient) : text * nat * bool := (c_id cl, c_conn cl, closed cl).
Definition heap_sim (h h' : client_heap) : Prop := forall a, view <$> h' !! a = view <$> h !! a.

Lemma heap_sim_insert (h : client_heap) a cl cl' :
  h !! a = Some cl -> view cl' = view cl -> heap_sim h (<[a := cl']> h).
Proof.
  intros Ha Hv b. destruct (decide (b = a)) as [->|Hb].
  - by rewrite lookup_insert_eq, Ha; cbn; rewrite Hv.
  - by rewrite lookup_insert_ne.
Qed.

Lemma heap_sim_get h h' a cl : heap_sim h h' -> h !! a = Some cl ->
  exists cl', h' !! a = Some cl' /\ view cl' = view cl.
Proof.
  intros Hs Ha. pose proof (Hs a) as E. rewrite Ha in E. destruct (h' !! a) as [cl'|]; [|done].
  exists cl'. split; [done|]. exact (inj Some _ _ E).
Qed.

Lemma open_sim h h' k x a : heap_sim h h' -> open_client h k x a -> open_client h' k x a.
Proof.
  intros Hs (cl&Ha&Hk&Hc). destruct (heap_sim_get _ _ _ _ Hs Ha) as (cl'&Ha'&E).
  injection E as _ E2 E3. exists cl'. rewrite E2, E3. done.
Qed.

(** ** Changes that keep it *)

Lemma inv_heap s h : server_inv s -> heap_sim (heap s) h -> server_inv (set_heap h s).
Proof.
  intros [I1 I2 I3] Hs. split; cbn; [|intros k c Hk|exact I3].
  - intros id a Hid. destruct (I1 id a Hid) as (cl&Ha&Ei&Ec).
    destruct (heap_sim_get _ _ _ _ Hs Ha) as (cl'&Ha'&E). injection E as E1 _ E3.
    exists cl'. by rewrite E1, E3.
  - destruct (I2 k c Hk) as [O C]. split; [|exact C].
    intros a Ha. cbn. eapply open_sim; [exact Hs|]. by apply O.
Qed.

Lemma inv_conn s k c : server_inv s -> conn_ok s k c -> server_inv (set_conn k c s).
Proof.
  intros [I1 I2 I3] Hc. split; [exact I1| |exact I3]. cbn. intros k' c' Hk.
  destruct (decide (k' = k)) as [->|Hne].
  - rewrite lookup_insert_eq in Hk. injection Hk as <-. by destruct Hc.
  - rewrite lookup_insert_ne in Hk by done. by destruct (I2 k' c' Hk).
Qed.

(** The connection goes to a place that holds no other address. *)
Lemma conn_ok_goto s k c c' :
  conn_ok s k c -> at_ c <> Gone -> (forall a, holds c' a -> holds c a) -> at_ c' <> Closing ->
  conn_ok s k c'.
Proof.
  intros [O _] Hg Hh Hc. split; [|done]. intros a (cl&Ha&Hk&Hcl)%Hh%O.
  exists cl. auto.
Qed.

Lemma inv_goto s k c c' :
  server_inv s -> conns s !! k = Some c -> at_ c <> Gone -> (forall a, holds c' a -> holds c a) ->
  at_ c' <> Closing -> server_inv (set_conn k c' s).
Proof.
  intros Hi Hk Hg Hh Hc. apply inv_conn; [done|]. apply (conn_ok_goto s k c); try done.
  by apply sv_conns.
Qed.

Lemma inv_raft s p : server_inv s -> server_inv (set_raft p s).
Proof.
  intros [I1 I2 I3]. split; [exact I1| |exact I3]. intros k c Hk. by destruct (I2 k c Hk).
Qed.

Lemma inv_taken s t : server_inv s -> server_inv (set_taken t s).
Proof.
  intros [I1 I2 I3]. split; [exact I1| |exact I3]. intros k c Hk. by destruct (I2 k c Hk).
Qed.

Lemma inv_posting s l : server_inv s ->
  (forall x a m, x ∈ l -> (a, m) ∈ x -> exists id, clients s !! id = Some a) ->
  server_inv (set_posting l s).
Proof.
  intros [I1 I2 _] Hl. split; [exact I1| |exact Hl]. intros k c Hk. by destruct (I2 k c Hk).
Qed.

Lemma send_ok h a cl m : h !! a = Some cl -> closed cl = false ->
  exists h', send h a m = Ret h' /\ heap_sim h h'.
Proof.
  intros Ha Hc. unfold send. rewrite Ha, Hc.
  destruct (encode m); [|by exists h]. destruct (_ <? _)%nat; [|by exists h].
  eexists. split; [done|]. by eapply heap_sim_insert.
Qed.

(** A send of [readPump] to one of its own clients. *)
Lemma send_at_ok s k c c' a m :
  server_inv s -> conns s !! k = Some c -> at_ c <> Gone -> holds c a ->
  (forall b, holds c' b -> holds c b) -> at_ c' <> Closing ->
  exists s', send_at s k c' a m = Ret (Some s') /\ server_inv s'.
Proof.
  intros Hi Hk Hg Ha Hh Hc. destruct (ck_open _ _ _ (sv_conns _ Hi k c Hk) a Ha) as (cl&Hcl&_&Ho).
  unfold send_at. destruct (send_ok (heap s) a cl m Hcl (Ho Hg)) as (h'&->&Hs).
  cbn [mbind outcome_bind]. eexists. split; [done|].
  eapply (inv_goto (set_heap h' s)); try done. by apply inv_heap.
Qed.

(** ** Each step keeps it and returns *)

Definition fine (m : outcome Empty_set (option (server (L := L) (Sb := Sb)))) : Prop :=
  exists o, m = Ret o /\ forall s', o = Some s' -> server_inv s'.

Lemma fine_some s : server_inv s -> fine (Ret (Some s)).
Proof. intros Hi. eexists. split; [done|]. by intros s' [= <-]. Qed.
Lemma fine_none : fine (Ret None).
Proof. by eexists. Qed.

Lemma fine_send s k c c' a m :
  server_inv s -> conns s !! k = Some c -> at_ c <> Gone -> holds c a ->
  (forall b, holds c' b -> holds c b) -> at_ c' <> Closing -> fine (send_at s k c' a m).
Proof.
  intros Hi Hk Hg Ha Hh Hc. destruct (send_at_ok s k c c' a m Hi Hk Hg Ha Hh Hc) as (s'&->&Hs').
  by apply fine_some.
Qed.

(** Going on at a place that keeps the address, or lets it go. *)
Lemma fine_goto s k c c' :
  server_inv s -> conns s !! k = Some c -> at_ c <> Gone -> (forall a, holds c' a -> holds c a) ->
  at_ c' <> Closing -> fine (Ret (Some (set_conn k c' s))).
Proof. intros. apply fine_some. by eapply inv_goto. Qed.

Lemma holds_place c x a :
  pump_addr x = pump_addr (at_ c) \/ pump_addr x = None \/ pump_addr x = client c ->
  holds (at_place c x) a -> holds c a.
Proof. unfold holds, at_place. cbn. intros [-> | [-> | ->]] [Hc|Hc]; auto; done. Qed.

Lemma holds_connected c a b : pump_addr (at_ c) = Some a -> holds (connected c a) b -> holds c b.
Proof. unfold holds, connected. cbn. intros Ha [Hc|Hc]; [right; congruence|done]. Qed.

(** A new client: its address is nobody's. *)
Lemma fine_register s k c msg :
  server_inv s -> conns s !! k = Some c -> at_ c = Registering msg -> fine (connect_step s k c).
Proof.
  intros [I1 I2 I3] Hk Hx. unfold connect_step. rewrite Hx.
  destruct (posting s) eqn:Ep; [|apply fine_none]. apply fine_some.
  set (a := fresh (dom (heap s))).
  assert (Hf : heap s !! a = None) by (apply not_elem_of_dom, is_fresh).
  assert (Ho : forall b k' x, open_client (heap s) k' x b ->
    open_client (<[a := mkClient (cm_ClientID msg) k [] false true]> (heap s)) k' x b).
  { intros b k' x (cl&Hb&Hr). exists cl. split; [|done].
    rewrite lookup_insert_ne; [done|]. intros <-. congruence. }
  split; cbn.
  - intros id b. destruct (decide (id = cm_ClientID msg)) as [->|Hne].
    + rewrite lookup_insert_eq. intros [= <-]. rewrite lookup_insert_eq. eauto.
    + rewrite lookup_insert_ne by done. intros Hb. destruct (I1 id b Hb) as (cl&Hcl&?&?).
      exists cl. rewrite lookup_insert_ne; [done|]. intros <-. congruence.
  - intros k' c' Hk'. destruct (decide (k' = k)) as [->|Hne].
    + rewrite lookup_insert_eq in Hk'. injection Hk' as <-. split; [|done].
      intros b [Hb|Hb]; cbn in *.
      * destruct (I2 k c Hk) as [O _]. apply Ho. destruct (O b (or_introl Hb)) as (cl&?&?&Hcl).
        exists cl. split_and!; try done. intros _. apply Hcl. by rewrite Hx.
      * injection Hb as <-. eexists. rewrite lookup_insert_eq. done.
    + rewrite lookup_insert_ne in Hk' by done. destruct (I2 k' c' Hk') as [O C].
      split; [intros b Hb; by apply Ho, O|]. intros b Hx' Hc' id Hid. cbn in Hid.
      destruct (decide (id = cm_ClientID msg)) as [->|Hid'].
      * rewrite lookup_insert_eq in Hid. injection Hid as <-.
        destruct (O a (or_introl Hc')) as (cl&Ha&_). congruence.
      * rewrite lookup_insert_ne in Hid by done. by apply (C b Hx' Hc' id).
  - intros l b m Hl. rewrite Ep in Hl. by apply elem_of_nil in Hl.
Qed.

(** The only panic of [handleConnect]. *)
Definition negative_catch_up (x : pump) : Prop :=
  match x with CatchingUp _ rev => rev < 0 | _ => False end.

Lemma RevisionsSince_panics fsm rev :
  if rev <? 0 then RevisionsSince fsm rev = Panic else exists l, RevisionsSince fsm rev = Ret l.
Proof.
  unfold RevisionsSince. zlen_facts. destruct (Z.ltb_spec rev 0).
  - destruct (Z.leb_spec (zlen (revisionLog fsm)) rev); [lia|].
    unfold slice. by destruct (Z.leb_spec 0 rev); [lia|].
  - destruct (Z.leb_spec (zlen (revisionLog fsm)) rev); [eauto|].
    rewrite slice_ok by lia. eauto.
Qed.

Lemma fine_connect s k c :
  server_inv s -> conns s !! k = Some c -> ~ negative_catch_up (at_ c) -> fine (connect_step s k c).
Proof.
  intros Hi Hk Hn. destruct (at_ c) as [|msg|a rev|a rev|a rev|a l|a l t|a m|a|a b|a f| | |] eqn:Hx;
    try (by eapply fine_register; eauto); unfold connect_step; rewrite Hx; try apply fine_none.
  - assert (forall x, pump_addr x = Some a -> x <> Closing ->
      fine (Ret (Some (set_conn k (at_place c x) s)))) as Hg.
    { intros x Ex Hc. eapply fine_goto; try done; [by rewrite Hx|].
      intros b. apply holds_place. left. by rewrite Hx. }
    by destruct (IsLeader _); apply Hg.
  - case_bool_decide.
    + eapply fine_goto; try done; [by rewrite Hx|]. intros b. apply holds_place. left. by rewrite Hx.
    + eapply fine_send; try done; [by rewrite Hx|right; by rewrite Hx|].
      intros b. apply holds_connected. by rewrite Hx.
  - pose proof (RevisionsSince_panics (sm s) rev) as Hr. cbn in Hn.
    destruct (Z.ltb_spec rev 0); [done|]. destruct Hr as [l ->]. cbn [mbind outcome_bind].
    eapply fine_goto; try done; [by rewrite Hx|]. intros b. apply holds_place. left. by rewrite Hx.
  - eapply fine_goto; try done; [by rewrite Hx|]. intros b. apply holds_place. left. by rewrite Hx.
  - eapply fine_send; try done; [by rewrite Hx|right; by rewrite Hx|].
    intros b. apply holds_connected. by rewrite Hx.
Qed.

Lemma Validate_returns c : exists m, Validate c = m /\ (m = Ret tt \/ exists e, m = Err e).
Proof.
  eexists. split; [done|]. unfold Validate.
  assert (forall ops a b, (exists p, validate_loop ops a b = Ret p) \/
    exists e, validate_loop ops a b = Err e) as Hv.
  { intros ops. induction ops as [|op ops IH]; intros a b; cbn [validate_loop]; [eauto|].
    destruct (Typ op); [destruct (_ <=? _)|destruct (_ =? _)|destruct (_ <=? _)|]; eauto. }
  destruct (Hv (Ops c) 0 0) as [[[a b] ->]|[e ->]]; cbn; [|eauto].
  by repeat case_match; eauto.
Qed.

Lemma fine_submit s k c :
  server_inv s -> conns s !! k = Some c -> fine (submit_step s k c).
Proof.
  intros Hi Hk. unfold submit_step.
  destruct (at_ c) as [|msg|a rev|a rev|a rev|a l|a l t|a m|a|a b|a f| | |] eqn:Hx;
    try apply fine_none.
  - assert (forall m', fine (send_at s k (at_place c Reading) a m')) as Hsend.
    { intros m'. eapply fine_send; try done; [by rewrite Hx|right; by rewrite Hx|].
      intros b. apply holds_place. auto. }
    assert (forall x, pump_addr x = Some a -> x <> Closing ->
      fine (Ret (Some (set_conn k (at_place c x) s)))) as Hg.
    { intros x Ex Hc. eapply fine_goto; try done; [by rewrite Hx|].
      intros b. apply holds_place. left. by rewrite Hx. }
    destruct (negb _); [by apply Hg|].
    destruct (Validate_returns (sm_Changeset m)) as (v&->&[-> | [e ->]]); [|apply Hsend].
    destruct (MarshalEntry _); [by apply Hg|apply Hsend].
  - eapply fine_send; try done; [by rewrite Hx|right; by rewrite Hx|].
    intros b. apply holds_place. auto.
  - destruct (wait_step (raft s) f) as [[p [e|]]|]; [| |apply fine_none].
    + eapply (fine_send (set_raft _ s)); [by apply inv_raft|exact Hk|by rewrite Hx|right; by rewrite Hx| |done].
      intros b. apply holds_place. auto.
    + eapply (fine_goto (set_raft _ s)); [by apply inv_raft|exact Hk|by rewrite Hx| |done].
      intros b. apply holds_place. auto.
Qed.

Lemma fine_propose s k c ch :
  server_inv s -> conns s !! k = Some c -> fine (propose_step s k c ch).
Proof.
  intros Hi Hk. unfold propose_step.
  destruct (at_ c) as [|msg|a rev|a rev|a rev|a l|a l t|a m|a|a b|a f| | |] eqn:Hx;
    try apply fine_none.
  destruct (choice_ready _ _); [|apply fine_none]. destruct (Leader.Apply _ _ _) as [r f].
  eapply (fine_goto (set_raft _ s)); [by apply inv_raft|exact Hk|by rewrite Hx| |done].
  intros b'. apply holds_place. left. by rewrite Hx.
Qed.

(** [removeClient] takes what is registered under the client's identifier. *)
Lemma fine_remove s k c a :
  server_inv s -> conns s !! k = Some c -> at_ c = Removing -> client c = Some a ->
  fine (close_step s k c).
Proof.
  intros [I1 I2 I3] Hk Hx Ha. unfold close_step. rewrite Hx, Ha.
  destruct (posting s) eqn:Ep; [|apply fine_none].
  destruct (heap s !! a) as [cl|] eqn:Hcl; [|apply fine_none]. apply fine_some.
  assert (Hd : forall id b, clients (removeClient s (c_id cl)) !! id = Some b ->
    id <> c_id cl /\ clients s !! id = Some b).
  { intros id b Hb. cbn in Hb. apply lookup_delete_Some in Hb as [Hne Hb]. auto. }
  split; cbn.
  - intros id b [_ Hb]%Hd. by apply I1.
  - intros k' c' Hk'. destruct (decide (k' = k)) as [->|Hne].
    + rewrite lookup_insert_eq in Hk'. injection Hk' as <-. split.
      * intros b [Hb|Hb]; cbn in *; [|done]. destruct (I2 k c Hk) as [O _].
        destruct (O b (or_introl Hb)) as (cl'&?&?&Ho). exists cl'. split_and!; try done.
        intros _. apply Ho. by rewrite Hx.
      * intros b _ Hb id [Hne Hid]%Hd. cbn in Hb. assert (b = a) as -> by congruence.
        destruct (I1 id a Hid) as (cl'&?&?&?). congruence.
    + rewrite lookup_insert_ne in Hk' by done. destruct (I2 k' c' Hk') as [O C].
      split; [exact O|]. intros b Hb Hb' id [_ Hid]%Hd. by apply (C b Hb Hb' id).
  - intros l b m Hl. rewrite Ep in Hl. by apply elem_of_nil in Hl.
Qed.

(** Only the connection itself holds the client it closes, and it is gone then. *)
Lemma fine_close s k c a :
  server_inv s -> conns s !! k = Some c -> at_ c = Closing -> client c = Some a ->
  fine (close_step s k c).
Proof.
  intros [I1 I2 I3] Hk Hx Ha. unfold close_step. rewrite Hx, Ha.
  destruct (I2 k c Hk) as [O C]. destruct (O a (or_introl Ha)) as (cl&Hcl&Hcon&Ho).
  rewrite Hcl, Ho by (by rewrite Hx). apply fine_some. pose proof (C a Hx Ha) as Hun.
  split; cbn.
  - intros id b Hb. destruct (I1 id b Hb) as (cl'&?&?&?). exists cl'.
    rewrite lookup_insert_ne; [done|]. intros <-. by apply (Hun id).
  - intros k' c' Hk'. destruct (decide (k' = k)) as [->|Hne].
    + rewrite lookup_insert_eq in Hk'. injection Hk' as <-. split; [|done].
      intros b [Hb|Hb]; cbn in *; [|done]. assert (b = a) as -> by congruence.
      eexists. by rewrite lookup_insert_eq.
    + rewrite lookup_insert_ne in Hk' by done. destruct (I2 k' c' Hk') as [O' C'].
      split; [|exact C']. intros b Hb. destruct (O' b Hb) as (cl'&Hb'&Hr&Hcl'). exists cl'.
      cbn. rewrite lookup_insert_ne; [done|]. intros <-. congruence.
  - intros l b m Hl Hb. by apply (I3 l b m).
Qed.

Lemma fine_pump s k c :
  server_inv s -> conns s !! k = Some c -> ~ negative_catch_up (at_ c) -> fine (pump_step s k c).
Proof.
  intros Hi Hk Hn. pose proof (fine_connect s k c Hi Hk Hn). pose proof (fine_submit s k c Hi Hk).
  unfold pump_step. destruct (at_ c) eqn:Hx; try done.
  - destruct (client c) as [a|] eqn:Ha; [by eapply fine_remove|].
    unfold close_step. rewrite Hx, Ha. eapply fine_goto; try done; [by rewrite Hx|].
    intros b. apply holds_place. auto.
  - destruct (client c) as [a|] eqn:Ha; [by eapply fine_close|].
    unfold close_step. rewrite Hx, Ha. apply fine_none.
Qed.

(** What a call of [onCommit] sends goes to registered clients. *)
Lemma onCommit_registered (m : gmap text nat) res a p :
  (a, p) ∈ onCommit_sends m res -> exists id, m !! id = Some a.
Proof.
  unfold onCommit_sends. rewrite elem_of_app. intros [Hin|Hin].
  - destruct (m !! RClientID res) as [o|] eqn:E.
    + apply list_elem_of_singleton in Hin as [= -> _]. eauto.
    + by apply elem_of_nil in Hin.
  - destruct (IsDuplicate res); [by apply elem_of_nil in Hin|].
    apply list_elem_of_fmap in Hin as ([id b]&[= -> _]&Hin).
    apply list_elem_of_In, filter_In in Hin as [Hin _]. apply list_elem_of_In in Hin.
    apply elem_of_map_to_list in Hin. eauto.
Qed.

Lemma fine_commit s n : server_inv s -> fine (commit_step s n).
Proof.
  intros Hi. unfold commit_step. destruct (doc_spawned _ !! n) as [res|]; [|apply fine_none].
  case_bool_decide; [apply fine_none|].
  apply fine_some. apply (inv_posting (set_taken _ s)); [by apply inv_taken|].
  intros x a m [Hx|Hx]%elem_of_app Ha.
  - by eapply (sv_posting _ Hi).
  - apply list_elem_of_singleton in Hx as ->. by eapply onCommit_registered.
Qed.

Lemma fine_post s n : server_inv s -> fine (post_step s n).
Proof.
  intros Hi. unfold post_step. destruct (posting s !! n) as [[|[a m] rest]|] eqn:E; [| |apply fine_none].
  - apply fine_some, inv_posting; [done|]. intros x a m Hx Ha. eapply (sv_posting _ Hi); [|exact Ha].
    by eapply list_elem_of_delete_inv.
  - assert ((a, m) :: rest ∈ posting s) as Hl by (by eapply list_elem_of_lookup_2).
    destruct (sv_posting _ Hi _ a m Hl) as [id Hid]; [by left|].
    destruct (sv_clients _ Hi id a Hid) as (cl&Ha&_&Hc).
    destruct (send_ok (heap s) a cl m Ha Hc) as (h'&->&Hs). cbn [mbind outcome_bind].
    apply fine_some. apply (inv_posting (set_heap h' s)); [by apply inv_heap|].
    intros x b m' Hx Hb. apply list_elem_of_lookup in Hx as [i Hx].
    apply list_lookup_insert_Some in Hx as [(_&<-&_)|(_&Hx)].
    + by eapply (sv_posting _ Hi _ b m' Hl); right.
    + eapply (sv_posting _ Hi x); [by eapply list_elem_of_lookup_2|done].
Qed.

Lemma fine_write s a : server_inv s -> fine (write_step s a).
Proof.
  intros Hi. unfold write_step. destruct (heap s !! a) as [cl|] eqn:Ha; [|apply fine_none].
  destruct (negb _); [apply fine_none|]. destruct (sendCh cl) as [|m rest].
  - destruct (closed cl) eqn:Ec; [|apply fine_none]. apply fine_some, inv_heap; [done|].
    eapply heap_sim_insert; [done|]. unfold view. cbn. by rewrite Ec.
  - destruct (conns s !! c_conn cl) as [c|] eqn:Hk; [|apply fine_none].
    destruct (bool_decide_reflect (at_ c = Gone)); [apply fine_none|].
    apply fine_some, inv_conn.
    + apply inv_heap; [done|]. by eapply heap_sim_insert.
    + destruct (sv_conns _ Hi _ c Hk) as [O C]. split; [|exact C].
      intros b Hb. eapply open_sim; [by eapply heap_sim_insert|]. by apply O.
Qed.

Lemma fine_write_fail s a ping : server_inv s -> fine (write_fail s a ping).
Proof.
  intros Hi. unfold write_fail. destruct (heap s !! a) as [cl|] eqn:Ha; [|apply fine_none].
  destruct (writing cl); [|apply fine_none]. apply fine_some, inv_heap; [done|].
  by eapply heap_sim_insert.
Qed.

(** The connection [k] is about to read the revisions since a negative one. *)
Definition asks_negative s (k : nat) : Prop :=
  exists c, conns s !! k = Some c /\ negative_catch_up (at_ c).

Lemma fine_sstep s l :
  server_inv s -> (forall k, l = SPump k -> ~ asks_negative s k) -> fine (sstep s l).
Proof.
  intros Hi Hn. destruct l as [l|k|k raw|k|k|k ch|n|n|a|a ping]; cbn [sstep].
  - assert (fine (Ret ((fun p => set_raft p s) <$> step (raft s) l))) as Hr.
    { destruct (step (raft s) l); [by apply fine_some, inv_raft|apply fine_none]. }
    destruct l; try exact Hr; apply fine_none.
  - destruct (conns s !! k); [apply fine_none|]. apply fine_some, inv_conn; [done|].
    split; [|done]. by intros a [Ha|Ha].
  - destruct (conns s !! k) as [c|] eqn:Hk; [|apply fine_none].
    destruct (bool_decide_reflect (at_ c = Reading)) as [Hx|]; [|apply fine_none].
    eapply fine_goto; try done; [by rewrite Hx| |].
    + intros a. apply holds_place. unfold recv. repeat case_match; auto.
    + cbn. unfold recv. by repeat case_match.
  - destruct (conns s !! k) as [c|] eqn:Hk; [|apply fine_none].
    destruct (bool_decide_reflect (at_ c = Reading)) as [Hx|]; [|apply fine_none].
    eapply fine_goto; try done; [by rewrite Hx|]. intros a. apply holds_place. auto.
  - destruct (conns s !! k) as [c|] eqn:Hk; [|apply fine_none]. apply fine_pump; [done..|].
    intros Hc. apply (Hn k eq_refl). by exists c.
  - destruct (conns s !! k) as [c|] eqn:Hk; [by apply fine_propose|apply fine_none].
  - by apply fine_commit.
  - by apply fine_post.
  - by apply fine_write.
  - by apply fine_write_fail.
Qed.

#[export] Instance negative_dec x : Decision (negative_catch_up x).
Proof. destruct x; cbn; apply _. Defined.

#[export] Instance asks_negative_dec s k : Decision (asks_negative s k).
Proof.
  destruct (conns s !! k) as [c|] eqn:E; [destruct (decide (negative_catch_up (at_ c))) as [Hc|Hc]|].
  - left. by exists c.
  - right. intros (c'&Hk&?). congruence.
  - right. intros (c'&Hk&?). congruence.
Defined.

Lemma asks_negative_panics s k : asks_negative s k -> sstep s (SPump k) = Panic.
Proof.
  intros (c&Hk&Hx). cbn [sstep]. rewrite Hk. unfold pump_step, connect_step.
  destruct (at_ c) as [| | | |a rev| | | | | | | | |]; try done. cbn in Hx.
  pose proof (RevisionsSince_panics (sm s) rev) as Hr.
  destruct (Z.ltb_spec rev 0); [|lia]. by rewrite Hr.
Qed.

Lemma fine_or_negative s l :
  server_inv s -> fine (sstep s l) \/ exists k, l = SPump k /\ asks_negative s k.
Proof.
  intros Hi. destruct l as [l|k|k raw|k|k|k ch|n|n|a|a ping];
    try (left; by apply fine_sstep).
  destruct (decide (asks_negative s k)) as [Hk|Hk]; [right; eauto|].
  left. apply fine_sstep; [done|]. by intros k' [= <-].
Qed.

Lemma ssteps_inv ls : forall s s', server_inv s -> ssteps s ls = Ret (Some s') -> server_inv s'.
Proof.
  induction ls as [|l ls IH]; intros s s' Hi Hs; cbn [ssteps] in Hs; [by injection Hs as <-|].
  apply bind_ret in Hs as ([s1|]&Hs1&Hs); [|done]. apply (IH s1); [|done].
  destruct (fine_sstep s l Hi) as (o&Ho&Hok).
  { intros k -> Hn. by rewrite (asks_negative_panics s k Hn) in Hs1. }
  rewrite Ho in Hs1. injection Hs1 as ->. by apply Hok.
Qed.

End safety.

(** * What a commit sends *)

Section delivery.
  Context {L Sb : Type} `{LogStore L} `{StableStore Sb} `{EC : EntryCodec} `{WC : WireCodec}.
  Implicit Types s : server (L := L) (Sb := Sb).

(** The channel of a client that is sent [m]: a full one drops it. *)
Definition deliver (m : payload) (cl : wsClient) : wsClient :=
  match encode m with
  | Some b =>
      if (length (sendCh cl) <? sendCh_cap)%nat then set_sendCh (sendCh cl ++ [b]) cl else cl
  | None => cl
  end.

Lemma send_deliver h a cl m :
  h !! a = Some cl -> closed cl = false -> send h a m = Ret (<[a := deliver m cl]> h).
Proof.
  intros Ha Hc. unfold send, deliver. rewrite Ha, Hc.
  destruct (encode m); [destruct (_ <? _)%nat; [done|]|]; by rewrite insert_id.
Qed.

Lemma send_all_deliver ms : forall h,
  NoDup ms.*1 -> (forall a m, (a, m) ∈ ms -> exists cl, h !! a = Some cl /\ closed cl = false) ->
  exists h', send_all h ms = Ret h' /\
    (forall a m, (a, m) ∈ ms -> h' !! a = deliver m <$> h !! a) /\
    (forall a, a ∉ ms.*1 -> h' !! a = h !! a).
Proof.
  induction ms as [|[a m] ms IH]; intros h Hnd Ho; cbn [send_all].
  { exists h. split_and!; [done|by intros ?? ?%elem_of_nil|done]. }
  cbn in Hnd. apply NoDup_cons in Hnd as [Hna Hnd].
  destruct (Ho a m) as (cl&Ha&Hc); [by left|].
  rewrite (send_deliver h a cl m Ha Hc). cbn [mbind outcome_bind].
  assert (Hne : forall b x, (b, x) ∈ ms -> b <> a).
  { intros b x Hb ->. apply Hna, list_elem_of_fmap. by exists (a, x). }
  destruct (IH (<[a := deliver m cl]> h) Hnd) as (h'&Hh'&Hin&Hout).
  { intros b x Hb. rewrite lookup_insert_ne by (symmetry; by eapply Hne).
    apply (Ho b x). by right. }
  exists h'. split_and!; [done| |].
  - intros b x [Hbx|Hb]%elem_of_cons.
    + injection Hbx as -> ->. by rewrite Hout, lookup_insert_eq, Ha by done.
    + rewrite (Hin b x Hb), lookup_insert_ne; [done|]. symmetry. by eapply Hne.
  - intros b Hb. cbn in Hb. apply not_elem_of_cons in Hb as [Hb1 Hb2].
    rewrite Hout, lookup_insert_ne by done. done.
Qed.

(** No two identifiers share a client. *)
Lemma clients_inj s id id' a :
  server_inv s -> clients s !! id = Some a -> clients s !! id' = Some a -> id = id'.
Proof.
  intros Hi H1 H2. destruct (sv_clients _ Hi _ _ H1) as (cl&?&?&_).
  destruct (sv_clients _ Hi _ _ H2) as (cl'&?&?&_). congruence.
Qed.

(** What [onCommit] sends to the client registered under [id]. *)
Definition message_for (res : ApplyResult) (id : text) : option payload :=
  if bool_decide (id = RClientID res) then Some (AckMsg (NewRev res))
  else if IsDuplicate res then None
  else Some (BroadcastMsg (CPrime res) (NewRev res)).

Lemma onCommit_sends_spec (m : gmap text nat) res a p :
  (a, p) ∈ onCommit_sends m res <->
  exists id, m !! id = Some a /\ message_for res id = Some p.
Proof.
  unfold onCommit_sends, message_for. rewrite elem_of_app. split.
  - intros [Hin|Hin].
    + destruct (m !! RClientID res) as [o|] eqn:E; [|by apply elem_of_nil in Hin].
      apply list_elem_of_singleton in Hin as [= -> ->]. exists (RClientID res).
      by rewrite bool_decide_true.
    + destruct (IsDuplicate res); [by apply elem_of_nil in Hin|].
      apply list_elem_of_fmap in Hin as ([id b]&[= -> ->]&Hin).
      apply list_elem_of_In, filter_In in Hin as [Hin Hne]. apply list_elem_of_In in Hin.
      apply elem_of_map_to_list in Hin. exists id. cbn in *.
      by destruct (bool_decide (id = RClientID res)).
  - intros (id&Hid&Hm). destruct (bool_decide_reflect (id = RClientID res)) as [->|Hne].
    + left. rewrite Hid. injection Hm as <-. by apply list_elem_of_singleton.
    + right. destruct (IsDuplicate res); [done|]. injection Hm as <-.
      apply list_elem_of_fmap. exists (id, a). split; [done|].
      apply list_elem_of_In, filter_In. rewrite <-list_elem_of_In, elem_of_map_to_list.
      split; [done|]. cbn. by rewrite bool_decide_false.
Qed.

Lemma onCommit_NoDup s res : server_inv s -> NoDup (onCommit_sends (clients s) res).*1.
Proof.
  intros Hi. unfold onCommit_sends. rewrite fmap_app. apply NoDup_app.
  set (others := List.filter (fun q => negb (bool_decide (fst q = RClientID res)))
    (map_to_list (clients s))).
  assert (Hoth : forall id a, (id, a) ∈ others -> clients s !! id = Some a /\ id <> RClientID res).
  { intros id a Hin. apply list_elem_of_In, filter_In in Hin as [Hin Hne].
    apply list_elem_of_In, elem_of_map_to_list in Hin. split; [done|]. cbn in Hne.
    by destruct (bool_decide_reflect (id = RClientID res)). }
  assert (Hnd : NoDup others) by (apply NoDup_ListNoDup, List.NoDup_filter, NoDup_ListNoDup, NoDup_map_to_list).
  split_and!.
  - destruct (clients s !! RClientID res); cbn; [apply NoDup_singleton|constructor].
  - intros a Ha Hb. destruct (clients s !! RClientID res) as [o|] eqn:E; cbn in Ha;
      [|by apply elem_of_nil in Ha]. apply list_elem_of_singleton in Ha as ->.
    destruct (IsDuplicate res); [by apply elem_of_nil in Hb|]. fold others in Hb.
    rewrite <-list_fmap_compose in Hb. apply list_elem_of_fmap in Hb as ([id b]&Heq&Hin).
    cbn in Heq. subst o. apply Hoth in Hin as [Hin Hne]. by apply Hne, (clients_inj s id _ b).
  - destruct (IsDuplicate res); [constructor|]. fold others. rewrite <-list_fmap_compose.
    apply (NoDup_fmap_2_strong _ _); [|done]. intros [id a] [id' a'] H1 H2 Heq. cbn in Heq.
    subst a'. apply Hoth in H1 as [H1 _], H2 as [H2 _]. f_equal. by apply (clients_inj s id id' a).
Qed.

Lemma onCommit_spec s res :
  server_inv s ->
  exists h, onCommit (heap s) (clients s) res = Ret h /\
    (forall id a, clients s !! id = Some a ->
       h !! a = match message_for res id with
                | Some m => deliver m <$> heap s !! a
                | None => heap s !! a
                end) /\
    (forall a, (forall id, clients s !! id <> Some a) -> h !! a = heap s !! a).
Proof.
  intros Hi. unfold onCommit.
  destruct (send_all_deliver (onCommit_sends (clients s) res) (heap s)) as (h&Hh&Hin&Hout).
  - by apply onCommit_NoDup.
  - intros a m (id&Hid&_)%onCommit_sends_spec. destruct (sv_clients _ Hi id a Hid) as (cl&?&_&?).
    eauto.
  - exists h. split_and!; [done| |].
    + intros id a Hid. destruct (message_for res id) as [m|] eqn:Em.
      * apply Hin, onCommit_sends_spec. eauto.
      * apply Hout. intros ([b m]&->&Hb)%list_elem_of_fmap. apply onCommit_sends_spec in Hb as (id'&Hid'&Hm).
        cbn in Hid. rewrite (clients_inj s id id' b Hi Hid Hid') in Em. congruence.
    + intros a Ha. apply Hout. intros ([b m]&->&Hb)%list_elem_of_fmap.
      apply onCommit_sends_spec in Hb as (id'&Hid'&_). by apply (Ha id').
Qed.

End delivery.

(** * Proposals are validated *)

Section validated.
  Context {L Sb : Type} `{LogStore L} `{StableStore Sb} `{EC : EntryCodec} `{WC : WireCodec}.
  Implicit Types s : server (L := L) (Sb := Sb).

  (** What is known of the submissions and of the last known revisions that come in. *)
  Context (good : SubmitMsg -> Prop) (known : Z -> Prop).

Definition validated (x : pump) : Prop :=
  match x with
  | Registering msg => known (cm_LastKnownRev msg)
  | Checking _ rev | Redirecting _ rev | CatchingUp _ rev => known rev
  | Submitting _ msg => good msg
  | Proposing _ data => exists msg, good msg /\ Validate (sm_Changeset msg) = Ret tt /\
      MarshalEntry (mkEntry (sm_ClientID msg) (sm_SubmissionID msg) (sm_BaseRev msg) (sm_Changeset msg))
        = Some data
  | _ => True
  end.

(** The messages that come in are such. *)
Definition received (l : slabel) : Prop :=
  match l with SRecv _ raw => forall c, validated (recv c raw) | _ => True end.

Definition validated_server s : Prop := forall k c, conns s !! k = Some c -> validated (at_ c).

Lemma validated_set s s' k c :
  conns s' = <[k := c]> (conns s) -> validated (at_ c) -> validated_server s -> validated_server s'.
Proof.
  intros E Hc Hs k' c'. rewrite E. destruct (decide (k' = k)) as [->|Hne].
  - by rewrite lookup_insert_eq; intros [= <-].
  - rewrite lookup_insert_ne by done. apply Hs.
Qed.

Lemma send_at_conns s k c a m s' :
  send_at s k c a m = Ret (Some s') -> conns s' = <[k := c]> (conns s).
Proof. unfold send_at. intros (h&_&Hx)%bind_ret. by injection Hx as <-. Qed.

(** A connection's step moves only that connection. *)
Lemma pump_validated s k c s' :
  validated (at_ c) -> pump_step s k c = Ret (Some s') ->
  exists c', conns s' = <[k := c']> (conns s) /\ validated (at_ c').
Proof.
  unfold pump_step. intros Hg Hs.
  destruct (at_ c) as [|msg|a rev|a rev|a rev|a l|a l t|a m|a|a b|a f| | |] eqn:Hx;
    unfold connect_step, submit_step, close_step in Hs; rewrite Hx in Hs; try done.
  - destruct (posting s); [|done]. injection Hs as <-. by eexists.
  - injection Hs as <-. eexists. split; [done|]. by destruct (IsLeader _).
  - case_bool_decide; [injection Hs as <-; by eexists|].
    apply send_at_conns in Hs. by eexists.
  - apply bind_ret in Hs as (l&_&Hs). injection Hs as <-. by eexists.
  - injection Hs as <-. by eexists.
  - apply send_at_conns in Hs. by eexists.
  - destruct (negb _); [injection Hs as <-; by eexists|].
    destruct (Validate (sm_Changeset m)) as [[]| | |] eqn:Hv; try done.
    + destruct (MarshalEntry _) eqn:Em; [|apply send_at_conns in Hs; by eexists].
      injection Hs as <-. eexists. split; [done|]. cbn. by eexists.
    + apply send_at_conns in Hs. by eexists.
  - apply send_at_conns in Hs. by eexists.
  - destruct (wait_step (raft s) f) as [[p [e|]]|]; [| |done].
    + apply send_at_conns in Hs. by eexists.
    + injection Hs as <-. by eexists.
  - destruct (client c) as [a|]; [|injection Hs as <-; by eexists].
    destruct (posting s); [|done]. destruct (heap s !! a); [|done]. injection Hs as <-. by eexists.
  - destruct (client c) as [a|]; [|done]. destruct (heap s !! a) as [cl|]; [|done].
    destruct (closed cl); [done|]. injection Hs as <-. by eexists.
Qed.

Lemma sstep_validated s l s' :
  validated_server s -> received l -> sstep s l = Ret (Some s') -> validated_server s'.
Proof.
  intros Hv Hr Hs. destruct l as [l|k|k raw|k|k|k ch|n|n|a|a ping]; cbn [sstep] in Hs.
  - assert (Ret ((fun p => set_raft p s) <$> step (raft s) l) = Ret (E := Empty_set) (Some s')) as Hx.
    { by destruct l. }
    destruct (step (raft s) l); [|done]. by injection Hx as <-.
  - destruct (conns s !! k); [done|]. injection Hs as <-. by eapply validated_set.
  - destruct (conns s !! k) as [c|]; [|done]. destruct (bool_decide _); [|done].
    injection Hs as <-. eapply validated_set; [done|apply Hr|done].
  - destruct (conns s !! k) as [c|]; [|done]. destruct (bool_decide _); [|done].
    injection Hs as <-. by eapply validated_set.
  - destruct (conns s !! k) as [c|] eqn:Hk; [|done].
    apply pump_validated in Hs as (c'&E&Hc); [by eapply validated_set|by eapply Hv].
  - destruct (conns s !! k) as [c|]; [|done]. unfold propose_step in Hs.
    destruct (at_ c); try done. destruct (choice_ready _ _); [|done].
    destruct (Leader.Apply _ _ _) as [r f]. injection Hs as <-. by eapply validated_set.
  - unfold commit_step in Hs. destruct (doc_spawned _ !! n); [|done].
    case_bool_decide; [done|]. by injection Hs as <-.
  - unfold post_step in Hs. destruct (posting s !! n) as [[|[a m] rest]|]; [|..|done].
    + by injection Hs as <-.
    + apply bind_ret in Hs as (h&_&Hs). by injection Hs as <-.
  - unfold write_step in Hs. destruct (heap s !! a) as [cl|]; [|done]. destruct (negb _); [done|].
    destruct (sendCh cl); [destruct (closed cl); [|done]; by injection Hs as <-|].
    destruct (conns s !! c_conn cl) as [c|] eqn:Hk; [|done]. destruct (bool_decide _); [done|].
    injection Hs as <-. eapply validated_set; [done| |done]. exact (Hv _ _ Hk).
  - unfold write_fail in Hs. destruct (heap s !! a) as [cl|]; [|done]. destruct (writing cl); [|done].
    by injection Hs as <-.
Qed.

Lemma ssteps_validated ls : forall s s',
  validated_server s -> Forall received ls -> ssteps s ls = Ret (Some s') -> validated_server s'.
Proof.
  induction ls as [|l ls IH]; intros s s' Hv Hr Hs; cbn [ssteps] in Hs; [by injection Hs as <-|].
  apply Forall_cons in Hr as [Hr Hrs].
  apply bind_ret in Hs as ([s1|]&Hs1&Hs); [|done]. apply (IH s1); [|done..]. by eapply sstep_validated.
Qed.

Lemma validated_new (p : proc L Sb document ApplyResult) : validated_server (NewNode p).
Proof. intros k c Hk. cbn in Hk. by rewrite lookup_empty in Hk. Qed.

(** What the codec promises of every decoded submission, it promises of what comes in. *)
Lemma unmarshal_received l :
  (forall raw msg, UnmarshalSubmit raw = Some msg -> good msg) -> (forall rev, known rev) -> received l.
Proof.
  intros Hg Hk. destruct l; try done. intros c. unfold recv. repeat case_match; try done; cbn; eauto.
Qed.

End validated.

(** * Connecting *)

Section connecting.
  Context {L Sb : Type} `{LogStore L} `{StableStore Sb} `{EC : EntryCodec} `{WC : WireCodec}.
  Implicit Types s : server (L := L) (Sb := Sb).

Lemma ssteps_pump s k c s' ls :
  conns s !! k = Some c -> pump_step s k c = Ret (Some s') ->
  ssteps s (SPump k :: ls) = ssteps s' ls.
Proof. intros Hk Hp. cbn [ssteps sstep]. by rewrite Hk, Hp. Qed.

(** The catch-up of a revision from the start on. *)
Lemma catch_up_spec init log fsm rs rev u :
  run (NewDocumentStateMachine init) log = Ret (fsm, rs) ->
  zlen (revisionLog fsm) <= max_int -> 0 <= rev ->
  replay init (take (Z.to_nat rev) (changesets (revisionLog fsm))) = Ret u ->
  exists l, RevisionsSince fsm rev = Ret l /\ replay u (changesets l) = Ret (HeadText fsm) /\
    (rev <= HeadRev fsm -> HeadRev fsm = rev + zlen l).
Proof.
  intros Hr Hz Hn Hu. destruct (fsm_inv_run _ _ _ _ Hr) as [Ht Hrev _].
  pose proof (replay_split _ _ _ _ _ Ht Hu) as Hv. unfold HeadRev. rewrite Hrev.
  zlen_facts. rewrite wrap64_small by lia. unfold RevisionsSince.
  destruct (Z.leb_spec (zlen (revisionLog fsm)) rev).
  - exists []. rewrite drop_ge in Hv by (unfold zlen in *; lia).
    split_and!; [done|done|]. rewrite zlen_nil. lia.
  - rewrite slice_ok by lia. eexists. split; [done|].
    rewrite take_ge by (rewrite length_drop; unfold zlen in *; lia).
    split; [done|]. unfold zlen. rewrite length_drop. unfold zlen in *. lia.
Qed.

End connecting.

(** * Examples

    A wire format for examples: a byte for the kind of message, then its fields; the
    messages a server sends are its kind and its revision. *)
Definition demo_wire : WireCodec := {|
  UnmarshalEnvelope raw :=
    match raw with
    | Byte.x01 :: p => Some (mkEnvelope MsgConnect p)
    | Byte.x02 :: p => Some (mkEnvelope MsgSubmit p)
    | _ => None
    end;
  UnmarshalConnect p :=
    match p with
    | rev :: id => Some (mkConnectMsg id (byte_val rev - 1))
    | [] => None
    end;
  UnmarshalSubmit p :=
    match p with
    | n :: id => Some (mkSubmitMsg id (byte_val n) 0 (TextToChangeset (bytes_of "hi")))
    | [] => None
    end;
  MarshalPayload m :=
    match m with
    | ConnectAckMsg head rev catchUp => Some (byte_of_Z rev :: byte_of_Z (zlen catchUp) :: head)
    | AckMsg rev => Some [byte_of_Z rev]
    | BroadcastMsg _ rev => Some [byte_of_Z rev]
    | RedirectMsg addr => Some addr
    | ErrorMsg code _ => Some [byte_of_Z (code / 100)]
    end;
  MarshalEnvelope env := Some (firstn 2 (Type_ env) ++ Payload env)
|}.

Definition demo_ws : Type := server (L := InmemLogStore) (Sb := InmemStableStore).

(** A leader that has just committed the log of [demo_doc_log]. *)
Definition demo_leader_node : RaftNode InmemLogStore InmemStableStore document ApplyResult :=
  set_state Leader (set_commitNotifyCh true (demo_doc_node 4)).
Definition demo_server_start : demo_ws := NewNode (Machine.start demo_leader_node).

(** [demo_steps ls s]: the run, as one that returns. *)
Definition demo_steps (ls : list slabel) : demo_ws :=
  default demo_server_start
    (ret_of None (ssteps (EC := demo_codec) (WC := demo_wire) demo_server_start ls)).

Definition demo_connect (k : nat) (rev : byte) (id : string) : list slabel :=
  [SAccept k; SRecv k (Byte.x01 :: rev :: bytes_of id); SPump k; SPump k; SPump k; SPump k; SPump k].

Definition is_run (m : outcome Empty_set (option demo_ws)) : bool :=
  match m with Ret (Some _) => true | _ => false end.

Lemma demo_steps_ret ls :
  is_run (ssteps (EC := demo_codec) (WC := demo_wire) demo_server_start ls) = true ->
  ssteps (EC := demo_codec) (WC := demo_wire) demo_server_start ls = Ret (Some (demo_steps ls)).
Proof. unfold demo_steps. by destruct (ssteps demo_server_start ls) as [[s|]| | |]. Qed.

Definition demo_two : list slabel :=
  demo_connect 0 Byte.x01 "alice" ++ demo_connect 1 Byte.x01 "bob".

(** * Properties *)



(** One message stops a leader. On a leader, a CONNECT whose last known revision is
    negative, from a connection that waits for a message, panics the process: the
    revision goes into a slice expression unchecked. *)
Theorem negative_revision_crashes {L Sb} `{LogStore L} `{StableStore Sb} `{EC : EntryCodec}
    `{WC : WireCodec} (s : server (L := L) (Sb := Sb)) k c raw env msg :
  conns s !! k = Some c -> at_ c = Reading -> posting s = [] -> IsLeader (raft_node s) = true ->
  UnmarshalEnvelope raw = Some env -> Type_ env = MsgConnect ->
  UnmarshalConnect (Payload env) = Some msg -> cm_LastKnownRev msg < 0 ->
  ssteps s [SRecv k raw; SPump k; SPump k; SPump k] = Panic.
Proof.
  intros Hk Hx Hp Hl He Ht Hm Hn.
  assert (Hrecv : recv c raw = Registering msg).
  { unfold recv. by rewrite He, bool_decide_true, Hm. }
  destruct s as [p h m cs ps]. cbn in Hk, Hp. subst ps. unfold raft_node in Hl. cbn in Hl.
  cbn [ssteps sstep conns]. rewrite Hk, bool_decide_true, Hrecv by done.
  cbn -[IsLeader RevisionsSince]. rewrite lookup_insert_eq.
  cbn -[IsLeader RevisionsSince]. rewrite lookup_insert_eq.
  cbn -[IsLeader RevisionsSince].
  match goal with |- context [IsLeader ?x] => change (IsLeader x) with (IsLeader (node p)) end.
  rewrite Hl, lookup_insert_eq. cbn -[IsLeader RevisionsSince].
  pose proof (RevisionsSince_panics (doc_fsm (fsm (node p))) (cm_LastKnownRev msg)) as Hr.
  destruct (Z.ltb_spec (cm_LastKnownRev msg) 0); [|lia].
  match goal with |- context [RevisionsSince ?x _] => change x with (doc_fsm (fsm (node p))) end.
  by rewrite Hr.
Qed.

Lemma negative_revision_crashes_witness :
  ssteps (EC := demo_codec) (WC := demo_wire) (demo_steps [SAccept 0])
    [SRecv 0 (Byte.x01 :: Byte.x00 :: bytes_of "mallory"); SPump 0; SPump 0; SPump 0] = Panic.
Proof.
  apply (negative_revision_crashes (EC := demo_codec) (WC := demo_wire) _ 0 (mkConn None Reading [])
    _ (mkEnvelope MsgConnect (Byte.x00 :: bytes_of "mallory")) (mkConnectMsg (bytes_of "mallory") (-1)));
    vm_compute; reflexivity.
Defined.

(** C25: a commit reaches everyone once. In every reachable state, [onCommit] with a
    result sends the author of the revision, if registered, one ACK, and, unless the
    submission was a duplicate, every other registered client one BROADCAST with the
    rebased changeset; a client's channel gets it unless it is full, and nobody else's
    channel changes. *)
Theorem onCommit_delivers {L Sb} `{LogStore L} `{StableStore Sb} `{EC : EntryCodec}
    `{WC : WireCodec} (p : proc L Sb document ApplyResult) ls s res :
  ssteps (NewNode p) ls = Ret (Some s) ->
  exists h, onCommit (heap s) (clients s) res = Ret h /\
    (forall id a, clients s !! id = Some a ->
       exists cl, heap s !! a = Some cl /\ c_id cl = id /\
         h !! a = Some (if bool_decide (id = RClientID res) then deliver (AckMsg (NewRev res)) cl
                        else if IsDuplicate res then cl
                        else deliver (BroadcastMsg (CPrime res) (NewRev res)) cl)) /\
    (forall a, (forall id, clients s !! id <> Some a) -> h !! a = heap s !! a).
Proof.
  intros Hs. pose proof (ssteps_inv ls _ _ (server_inv_new p) Hs) as Hi.
  destruct (onCommit_spec s res Hi) as (h&Hh&Hin&Hout). exists h. split_and!; try done.
  intros id a Hid. destruct (sv_clients _ Hi id a Hid) as (cl&Ha&Ei&_). exists cl.
  split_and!; try done. rewrite (Hin id a Hid), Ha. unfold message_for.
  by destruct (bool_decide (id = RClientID res)), (IsDuplicate res).
Qed.

Lemma onCommit_delivers_witness :
  (clients (demo_steps demo_two) !! bytes_of "alice" = Some 0%nat /\
   clients (demo_steps demo_two) !! bytes_of "bob" = Some 1%nat) /\
  exists h, onCommit (WC := demo_wire) (heap (demo_steps demo_two)) (clients (demo_steps demo_two))
      (mkResult (Identity 2) 2 (bytes_of "alice") false) = Ret h /\
    (forall id a, clients (demo_steps demo_two) !! id = Some a ->
       exists cl, heap (demo_steps demo_two) !! a = Some cl /\ c_id cl = id /\
         h !! a = Some (if bool_decide (id = bytes_of "alice") then deliver (WC := demo_wire) (AckMsg 2) cl
                        else deliver (WC := demo_wire) (BroadcastMsg (Identity 2) 2) cl)) /\
    (forall a, (forall id, clients (demo_steps demo_two) !! id <> Some a) ->
       h !! a = heap (demo_steps demo_two) !! a).
Proof.
  split; [split; vm_compute; reflexivity|].
  apply (onCommit_delivers (EC := demo_codec) (WC := demo_wire) (Machine.start demo_leader_node)
    demo_two (demo_steps demo_two) (mkResult (Identity 2) 2 (bytes_of "alice") false)).
  apply demo_steps_ret. vm_compute. reflexivity.
Defined.

(** C26: a client that connects can go on. When the three reads of [handleConnect], each
    with its own lock, run one after the other with no step of another goroutine in between
    ([torn_connect_ack] shows what a commit in between does), the CONNECT_ACK (dropped only
    by a full channel) carries that document's text and revision, and the changesets that lead to that text from the
    text of the revision the client said it knew. *)
Theorem connect_catches_up {L Sb} `{LogStore L} `{StableStore Sb} `{EC : EntryCodec}
    `{WC : WireCodec} (p : proc L Sb document ApplyResult) ls s k c a rev init log rs u :
  ssteps (NewNode p) ls = Ret (Some s) ->
  conns s !! k = Some c -> at_ c = CatchingUp a rev -> 0 <= rev ->
  run (NewDocumentStateMachine init) log = Ret (sm s, rs) ->
  zlen (revisionLog (sm s)) <= max_int ->
  replay init (take (Z.to_nat rev) (changesets (revisionLog (sm s)))) = Ret u ->
  exists s' cl catchUp, ssteps s [SPump k; SPump k; SPump k] = Ret (Some s') /\
    conns s' !! k = Some (mkConn (Some a) Reading (written c)) /\ heap s !! a = Some cl /\
    heap s' !! a = Some (deliver (ConnectAckMsg (HeadText (sm s)) (HeadRev (sm s)) catchUp) cl) /\
    replay u (changesets catchUp) = Ret (HeadText (sm s)) /\
    (rev <= HeadRev (sm s) -> HeadRev (sm s) = rev + zlen catchUp).
Proof.
  intros Hs Hk Hx Hn Hr Hz Hu. pose proof (ssteps_inv ls _ _ (server_inv_new p) Hs) as Hi.
  destruct (ck_open _ _ _ (sv_conns _ Hi k c Hk) a) as (cl&Ha&_&Ho); [right; by rewrite Hx|].
  pose proof (catch_up_spec init log (sm s) rs rev u Hr Hz Hn Hu) as (l&Hl&Hv&Hlen).
  assert (Hc : closed cl = false) by (apply Ho; by rewrite Hx).
  rewrite (ssteps_pump s k c (set_conn k (at_place c (TakingText a l)) s) _ Hk).
  2: { unfold pump_step, connect_step. by rewrite Hx, Hl. }
  set (c1 := at_place c (TakingText a l)). set (s1 := set_conn k c1 s).
  assert (Hk1 : conns s1 !! k = Some c1) by apply lookup_insert_eq.
  rewrite (ssteps_pump s1 k c1 (set_conn k (at_place c1 (TakingRev a l (HeadText (sm s)))) s1) _ Hk1)
    by done.
  set (c2 := at_place c1 (TakingRev a l (HeadText (sm s)))). set (s2 := set_conn k c2 s1).
  assert (Hk2 : conns s2 !! k = Some c2) by apply lookup_insert_eq.
  rewrite (ssteps_pump s2 k c2 (set_conn k (connected c2 a)
    (set_heap (<[a := deliver (ConnectAckMsg (HeadText (sm s)) (HeadRev (sm s)) l) cl]> (heap s)) s2)) _ Hk2).
  2: { unfold pump_step, connect_step. cbn [c2 at_ at_place]. unfold send_at.
       change (heap s2) with (heap s). by rewrite (send_deliver _ _ _ _ Ha Hc). }
  eexists _, cl, l. split; [done|]. cbn. rewrite !lookup_insert_eq. split_and!; done.
Qed.

Lemma connect_catches_up_witness :
  let s := demo_steps (SRaft LApplyWake :: repeat (SRaft LApplyNext) 5 ++ firstn 4 (demo_connect 0 Byte.x02 "bob")) in
  exists s' cl catchUp, ssteps (EC := demo_codec) (WC := demo_wire) s [SPump 0; SPump 0; SPump 0]
      = Ret (Some s') /\
    conns s' !! 0%nat = Some (mkConn (Some 0%nat) Reading []) /\ heap s !! 0%nat = Some cl /\
    heap s' !! 0%nat = Some (deliver (WC := demo_wire)
      (ConnectAckMsg (HeadText (sm s)) (HeadRev (sm s)) catchUp) cl) /\
    replay (bytes_of "hi") (changesets catchUp) = Ret (HeadText (sm s)) /\
    (1 <= HeadRev (sm s) -> HeadRev (sm s) = 1 + zlen catchUp).
Proof.
  intros s.
  apply (connect_catches_up (EC := demo_codec) (WC := demo_wire) (Machine.start demo_leader_node)
    (SRaft LApplyWake :: repeat (SRaft LApplyNext) 5 ++ firstn 4 (demo_connect 0 Byte.x02 "bob"))
    s 0%nat (mkConn None (CatchingUp 0 1) []) 0%nat 1 [] demo_log demo_results (bytes_of "hi"));
    [apply demo_steps_ret; vm_compute; reflexivity|vm_compute; reflexivity|reflexivity|lia| | |].
  - transitivity (Ret (E := Empty_set) (demo_machine, demo_results)); [exact demo_run_ret|].
    assert (sm s = demo_machine) as ->; [|done].
    unfold s. apply (bool_decide_unpack _). vm_compute. exact I.
  - vm_compute. discriminate.
  - vm_compute. reflexivity.
Defined.

(** ** Where the promises end *)

(** What a run leaves: the channel of each client, and who is registered. *)
Definition channels (ls : list slabel) : list (list text) :=
  (fun q => sendCh (snd q)) <$> map_to_list (heap (demo_steps ls)).

(** A torn CONNECT_ACK. [handleConnect] reads the revisions, the text and the
    revision number under three separate locks; here a submission is applied between
    the last two, and the client is told that the empty text is revision 1. *)
Theorem torn_connect_ack :
  let ls := [SRaft LApplyWake; SRaft LApplyNext] ++
    firstn 6 (demo_connect 0 Byte.x01 "bob") ++ [SRaft LApplyNext; SPump 0] in
  is_run (ssteps (EC := demo_codec) (WC := demo_wire) demo_server_start
    (ls)) = true /\
  channels ls = [[bytes_of "CO" ++ [Byte.x01; Byte.x00] ++ []]] /\
  HeadText (sm (demo_steps ls)) = bytes_of "hi".
Proof. vm_compute. done. Qed.

(** A reconnect can lose its registration. A client connects again, under its
    identifier, before its old connection ends; when that ends, [removeClient] deletes
    the identifier, and the new connection, open and served, gets none of the commits
    that follow. *)
Theorem reconnect_unregisters :
  let ls := demo_connect 0 Byte.x01 "alice" ++ demo_connect 1 Byte.x01 "alice" ++
    [SHangup 0; SPump 0; SPump 0; SRaft LApplyWake] ++ repeat (SRaft LApplyNext) 3 ++
    [SCommit 1; SPost 0] in
  is_run (ssteps (EC := demo_codec) (WC := demo_wire) demo_server_start ls) = true /\
  ConnectedClients (demo_steps ls) = 0%nat /\
  (at_ <$> conns (demo_steps ls) !! 1%nat) = Some Reading /\
  ((fun cl => (closed cl, sendCh cl)) <$> heap (demo_steps ls) !! 1%nat)
    = Some (false, [bytes_of "CO" ++ [Byte.x00; Byte.x00]]) /\
  HeadRev (sm (demo_steps ls)) = 2.
Proof. vm_compute. done. Qed.

(** Commits can reach a client out of order. Each result has a goroutine of its own
    for [onCommit], so the broadcast of revision 2 can be queued before that of
    revision 1, whose changeset has to be applied first. *)
Theorem broadcasts_reordered :
  let ls := demo_connect 0 Byte.x01 "carol" ++ [SRaft LApplyWake] ++ repeat (SRaft LApplyNext) 3 ++
    [SCommit 1; SPost 0; SPost 0; SCommit 0; SPost 0] in
  is_run (ssteps (EC := demo_codec) (WC := demo_wire) demo_server_start ls) = true /\
  channels ls = [[bytes_of "CO" ++ [Byte.x00; Byte.x00]; bytes_of "BR" ++ [Byte.x02];
                  bytes_of "BR" ++ [Byte.x01]]].
Proof. vm_compute. done. Qed.
