(* ===== verification/Promises.v ===== *)
(** What the clients of a server have been told ([internal/server/websocket.go]): every
    message that is on its way to a client, or has been written to its socket, is backed by
    the document of the server. An ACK stands for a result of the client's own, a BROADCAST
    for a result of another client's, and a CONNECT_ACK carries a piece of the revision
    log. The document only grows, so what was told stays true. *)
From S2P Require Import Prelude Stores Future Config Node Election Replication Leader Machine Frame.
From S2P Require Import Restart Network ElectionSafety LogMatching LeaderCompleteness CommitSafety Applied.
From S2P Require Import Changeset Apply Cursor Compose Follow Fsm Document Server Sessions.

(** * Documents that grow *)

Section grown.
  Context `{EC : EntryCodec}.
  Implicit Types d : document.

(** The second document has applied some more entries. *)
Definition doc_grows d d' : Prop := exists es, leads_to d es d'.

Lemma doc_grows_refl d : doc_grows d d.
Proof. by exists [], []. Qed.

Lemma doc_grows_trans d1 d2 d3 : doc_grows d1 d2 -> doc_grows d2 d3 -> doc_grows d1 d3.
Proof.
  intros (es&xs&H1) (ks&ys&H2). exists (es ++ ks), (xs ++ ys).
  rewrite feed_app, H1. cbn [mbind outcome_bind fst snd]. by rewrite H2.
Qed.

Lemma doc_grows_parts d d' : doc_grows d d' -> exists rs more,
  doc_spawned d' = doc_spawned d ++ rs /\ revisionLog (doc_fsm d') = revisionLog (doc_fsm d) ++ more.
Proof.
  intros (es&xs&Hf). destruct (feed_document_inv _ _ _ _ Hf) as [rs Hr].
  pose proof (feed_document es d _ _ Hr) as Hf'. rewrite Hf in Hf'. injection Hf' as Hd _.
  destruct (run_appends _ _ _ _ Hr) as [more Hm]. exists (omap id rs), more. split; [|done]. by rewrite Hd.
Qed.

(** ** What backs a message

    The revisions of a CONNECT_ACK are consecutive ones of the revision log. *)
Definition part_of d (l : list RevisionRecord) : Prop :=
  exists i, l = take (length l) (drop i (revisionLog (doc_fsm d))).

(** The message to the client with the identifier [id]. *)
Definition backed d (id : text) (m : payload) : Prop :=
  match m with
  | AckMsg rev => exists res, res ∈ doc_spawned d /\ RClientID res = id /\ NewRev res = rev
  | BroadcastMsg c rev => exists res, res ∈ doc_spawned d /\ IsDuplicate res = false /\
      RClientID res <> id /\ CPrime res = c /\ NewRev res = rev
  | ConnectAckMsg _ _ l => part_of d l
  | RedirectMsg _ | ErrorMsg _ _ => True
  end.

Lemma part_of_grows d d' l : doc_grows d d' -> part_of d l -> part_of d' l.
Proof.
  intros (rs&more&_&E)%doc_grows_parts [i Hi]. destruct (decide (i <= length (revisionLog (doc_fsm d)))%nat) as [Hle|Hgt].
  - exists i. rewrite E, drop_app_le by done. rewrite Hi at 1. rewrite take_app_le; [done|].
    apply (f_equal length) in Hi. rewrite length_take in Hi. lia.
  - exists O. rewrite drop_ge, take_nil in Hi by lia. by rewrite Hi.
Qed.

Lemma backed_grows d d' id m : doc_grows d d' -> backed d id m -> backed d' id m.
Proof.
  intros Hg. destruct m as [h r l|rev|c rev|addr|code x]; cbn; try done; [by apply part_of_grows|..];
    destruct (doc_grows_parts d d' Hg) as (rs&more&E&_); intros (res&Hin&Hres);
    exists res; (split; [rewrite E; apply elem_of_app; by left|done]).
Qed.

Lemma RevisionsSince_part d rev l : RevisionsSince (doc_fsm d) rev = Ret l -> part_of d l.
Proof.
  unfold RevisionsSince, slice. destruct (zlen _ <=? rev).
  - intros [= <-]. exists O. done.
  - destruct (_ && _); [|done]. intros [= <-]. exists (Z.to_nat rev).
    rewrite length_take, length_drop.
    rewrite (take_ge (drop _ _)) by (rewrite length_drop; unfold zlen; lia).
    rewrite take_ge; [done|]. rewrite length_drop. unfold zlen. lia.
Qed.

Lemma message_backed d res id m : res ∈ doc_spawned d -> message_for res id = Some m -> backed d id m.
Proof.
  intros Hin. unfold message_for. destruct (bool_decide_reflect (id = RClientID res)) as [->|Hne].
  - intros [= <-]. by exists res.
  - destruct (IsDuplicate res) eqn:Hd; [done|]. intros [= <-]. exists res. by split_and!.
Qed.

End grown.

(** ** Where a result comes from *)

Section results.
  Context `{EC : EntryCodec}.
  Context (init : text).

(** The document that a server starts with. *)
Definition first_doc : document := mkDoc (NewDocumentStateMachine init) [].

(** A result that was passed on is that of one of the entries applied. *)
Lemma spawned_entry es : forall d xs res, feed first_doc es = Ret (d, xs) -> res ∈ doc_spawned d ->
  exists i x before a more, es !! i = Some x /\ leads_to first_doc (take i es) before /\
    Fsm.Apply (doc_fsm before) (Data x) = Ret a /\ response a = Some res /\
    revisionLog (doc_fsm d) = revisionLog (machine a) ++ more.
Proof.
  induction es as [|x es IH] using rev_ind; intros d xs res Hf Hin.
  { injection Hf as <- _. by apply elem_of_nil in Hin. }
  rewrite feed_app in Hf. apply bind_ret in Hf as ([d1 ys]&Hd1&Hf). apply bind_ret in Hf as ([d2 zs]&Hd2&Hf).
  cbn [fst snd] in *. injection Hf as <- _.
  assert (res ∈ doc_spawned d1 -> exists i y before a more, (es ++ [x]) !! i = Some y /\
    leads_to first_doc (take i (es ++ [x])) before /\ Fsm.Apply (doc_fsm before) (Data y) = Ret a /\
    response a = Some res /\ revisionLog (doc_fsm d2) = revisionLog (machine a) ++ more) as Hold.
  { intros Hr. destruct (IH d1 ys res Hd1 Hr) as (i&y&before&a&more&Hy&Hb&Ha&Hres&Hm).
    destruct (doc_grows_parts d1 d2) as (_&more'&_&Hm'); [by exists [x], zs|]. exists i, y, before, a, (more ++ more').
    pose proof (lookup_lt_Some _ _ _ Hy). rewrite lookup_app_l, take_app_le by lia.
    split_and!; [done..|]. by rewrite Hm', Hm, app_assoc. }
  cbn [feed] in Hd2. apply bind_ret in Hd2 as ([d3 w]&Hd3&Hd2). injection Hd2 as <- _. cbn [fst] in *.
  destruct (0 <? zlen (Data x)); [|injection Hd3 as <- _; by apply Hold]. cbn [fsm_Apply document_FSM] in Hd3.
  apply bind_ret in Hd3 as (a&Ha&E). injection E as <- _. cbn [doc_spawned doc_fsm] in *.
  apply elem_of_app in Hin as [Hin|Hin]; [by apply Hold|]. rewrite (Apply_callbacks _ _ _ Ha) in Hin.
  exists (length es), x, d1, a, []. rewrite list_lookup_middle, take_app_length, app_nil_r by done.
  split_and!; [done|by exists ys|done| |done]. destruct (response a) as [r|]; cbn in Hin; [|by apply elem_of_nil in Hin].
  apply list_elem_of_singleton in Hin. by subst.
Qed.

(** The machine has recorded the result, or the submission had been seen. *)
Lemma entry_result fsm data a res : Fsm.Apply fsm data = Ret a -> response a = Some res ->
  exists e, UnmarshalEntry data = inr e /\ ClientID e = RClientID res /\ IsDuplicate res = is_seen fsm e /\
    if is_seen fsm e then NewRev res = headRev fsm /\ machine a = fsm
    else NewRev res = (headRev fsm +ᵢ 1)%go /\
      revisionLog (machine a) = revisionLog fsm ++ [mkRevision (headRev fsm) (CPrime res) (ClientID e)].
Proof.
  intros Ha Hr. destruct (Apply_ret _ _ _ Ha) as [(?&_&->)|(e&Hu&He)]; [done|]. exists e. split; [done|].
  destruct (apply_entry_case _ _ _ He) as [|Hs|C t Hs _ _]; [done|..]; rewrite Hs; cbn in Hr; by injection Hr as <-.
Qed.

(** A client whose submissions have been seen is the source of a revision. *)
Lemma seen_source log fsm rs c l : run (NewDocumentStateMachine init) log = Ret (fsm, rs) ->
  clientLastSubmission fsm !! c = Some l -> exists i rec, revisionLog fsm !! i = Some rec /\ Source rec = c.
Proof.
  intros Hr. revert c l. pattern fsm. revert Hr. apply run_ind; [|intros c l; cbn; by rewrite lookup_empty].
  intros f data a Hf Ha c l. destruct (Apply_ret _ _ _ Ha) as [(?&_&->)|(e&_&He)]; [apply Hf|].
  destruct (apply_entry_case _ _ _ He) as [|Hs|C t _ _ _]; [apply Hf..|]. cbn.
  destruct (decide (ClientID e = c)) as [<-|Hne].
  - intros _. exists (length (revisionLog f)), (mkRevision (headRev f) C (ClientID e)).
    by rewrite list_lookup_middle.
  - rewrite lookup_insert_ne by done. intros Hl. destruct (Hf c l Hl) as (i&rec&Hi&Hc). exists i, rec.
    split; [by apply lookup_app_l_Some|done].
Qed.

Lemma records_le log fsm rs : run (NewDocumentStateMachine init) log = Ret (fsm, rs) ->
  zlen (revisionLog fsm) <= zlen log.
Proof.
  intros Hr. rewrite (run_records init _ _ _ _ (fsm_inv_new init) Hr). cbn.
  pose proof (omap_committed_length rs). pose proof (run_length _ _ _ _ Hr).
  unfold zlen. rewrite length_map. lia.
Qed.

(** What a document that has not been fed too much holds: its head is the length of its
    log, whose records are numbered. *)
Lemma leads_inv es d : leads_to first_doc es d -> zlen es <= max_int ->
  (exists rs, run (NewDocumentStateMachine init) (payloads es) = Ret (doc_fsm d, rs)) /\
  HeadRev (doc_fsm d) = zlen (revisionLog (doc_fsm d)) /\ zlen (revisionLog (doc_fsm d)) <= max_int /\
  forall i rec, revisionLog (doc_fsm d) !! i = Some rec -> RevNumber rec = Z.of_nat i.
Proof.
  intros [xs Hf] Hz. destruct (feed_document_inv _ _ _ _ Hf) as [rs Hr]. cbn [doc_fsm first_doc] in Hr.
  split; [by exists rs|]. destruct (fsm_inv_run _ _ _ _ Hr) as [_ Hrev Hnum].
  pose proof (records_le _ _ _ Hr) as Hle. pose proof (payloads_zlen es).
  assert (zlen (revisionLog (doc_fsm d)) <= max_int) as Hm by lia. clear Hle.
  assert (forall n, 0 <= n <= max_int -> wrap64 n = n) as Hw by (intros n Hn; apply wrap64_small; unfold max_int in *; lia).
  split_and!; [|done|].
  - unfold HeadRev. rewrite Hrev. apply Hw. zlen_facts. lia.
  - intros i rec Hi. rewrite (Hnum i rec Hi). apply Hw. apply lookup_lt_Some in Hi. unfold zlen in *. lia.
Qed.

End results.

(** * What has been told *)

Section told.
  Context {L Sb : Type} `{LogStoreSpec L} `{StableStoreSpec Sb} `{EC : EntryCodec} `{WC : WireCodec}.
  Implicit Types p : proc L Sb document ApplyResult.
  Implicit Types s : server (L := L) (Sb := Sb).
  Implicit Types d : document.

Lemma step_grows p k p' : step p k = Some p' -> doc_grows (fsm (node p)) (fsm (node p')).
Proof.
  intros Hs. assert (k = LApplyWake \/ k = LApplyNext \/ (k <> LApplyWake /\ k <> LApplyNext)) as [->|[->|[Hw Hn]]]
    by (destruct k; auto).
  - simpl in Hs. unfold apply_wake in Hs. destruct (applying p), (commitNotifyCh (node p)); try done.
    injection Hs as <-. apply doc_grows_refl.
  - simpl in Hs. unfold apply_next in Hs. destruct (applying p) as [[idx c]|]; [|done].
    destruct (idx <=? c); [|injection Hs as <-; apply doc_grows_refl].
    apply try_some in Hs as (r'&Hr&[= <-]). cbn. pose proof Hr as Hr'. unfold apply_one in Hr.
    destruct (GetLog (logStore (node p)) idx) as [e|err] eqn:Hg; [|injection Hr as <-; apply doc_grows_refl].
    apply bind_ret in Hr as ([f x]&Hf&_). destruct (apply_one_spec (node p) idx e f x Hg Hf) as (r2&Hr2&Ha).
    rewrite Hr' in Hr2. injection Hr2 as <-. rewrite (a1_fsm _ _ _ _ _ Ha).
    exists [e], [x]. cbn [feed]. by rewrite Hf.
  - destruct (step_undisturbed p k p' Hs Hw Hn) as [E _]. unfold loop_state in E. injection E as _ -> _.
    apply doc_grows_refl.
Qed.

Definition told d (id : text) (b : text) : Prop := exists m, encode m = Some b /\ backed d id m.

Lemma told_grows d d' id b : doc_grows d d' -> told d id b -> told d' id b.
Proof. intros Hg (m&He&Hb). exists m. split; [done|by eapply backed_grows]. Qed.

(** The revisions that [handleConnect] is about to send. *)
Definition catching d (x : pump) : Prop :=
  match x with TakingText _ l | TakingRev _ l _ => part_of d l | _ => True end.

Definition doc_of s : document := fsm (raft_node s).

Record heard s : Prop := mk_heard {
  hd_channel : forall a cl b, heap s !! a = Some cl -> b ∈ sendCh cl -> told (doc_of s) (c_id cl) b;
  hd_posting : forall x a m, x ∈ posting s -> (a, m) ∈ x ->
    exists cl, heap s !! a = Some cl /\ backed (doc_of s) (c_id cl) m;
  hd_catching : forall k c, conns s !! k = Some c -> catching (doc_of s) (at_ c);
  hd_written : forall k c b, conns s !! k = Some c -> b ∈ written c ->
    exists a cl, heap s !! a = Some cl /\ c_conn cl = k /\ told (doc_of s) (c_id cl) b
}.

Lemma heard_new p : heard (NewNode p).
Proof.
  split; cbn; [intros a cl b Hx|by intros ??? ?%elem_of_nil|intros k c Hx|intros k c b Hx];
    by rewrite lookup_empty in Hx.
Qed.

(** The node goes on. *)
Lemma heard_raft s p : doc_grows (doc_of s) (fsm (node p)) -> heard s -> heard (set_raft p s).
Proof.
  intros Hg [H1' H2' H3' H4']. split; cbn.
  - intros a cl b Ha Hb. eapply told_grows; [exact Hg|]. by eapply H1'.
  - intros x a m Hx Ha. destruct (H2' x a m Hx Ha) as (cl&Hcl&Hb). exists cl. split; [done|by eapply backed_grows].
  - intros k c Hk. specialize (H3' k c Hk). unfold catching in *. destruct (at_ c); try done; by eapply part_of_grows.
  - intros k c b Hk Hb. destruct (H4' k c b Hk Hb) as (a&cl&?&?&?). exists a, cl.
    split_and!; [done..|by eapply told_grows].
Qed.

(** A connection goes on at another place. *)
Lemma heard_conn s k c c' : heard s -> conns s !! k = Some c -> written c' = written c ->
  catching (doc_of s) (at_ c') -> heard (set_conn k c' s).
Proof.
  intros [H1' H2' H3' H4'] Hk Hw Hc. split; cbn; [done|done|..]; intros k2 c2.
  - intros [[<- <-]|[_ Hk2]]%lookup_insert_Some; [done|by eapply H3'].
  - intros b [[<- <-]|[_ Hk2]]%lookup_insert_Some; [|by eapply H4']. rewrite Hw. by apply H4'.
Qed.

(** Clients come, and their channels change. *)
Definition heap_grows s (h : client_heap) : Prop :=
  (forall a cl, heap s !! a = Some cl -> exists cl', h !! a = Some cl' /\ c_id cl' = c_id cl /\ c_conn cl' = c_conn cl) /\
  forall a cl b, h !! a = Some cl -> b ∈ sendCh cl -> told (doc_of s) (c_id cl) b.

Lemma heard_heap s h : heard s -> heap_grows s h -> heard (set_heap h s).
Proof.
  intros [H1' H2' H3' H4'] [Hh Hc]. split; cbn; [done| |done|].
  - intros x a m Hx Ha. destruct (H2' x a m Hx Ha) as (cl&Hcl&Hb).
    destruct (Hh a cl Hcl) as (cl'&?&E&_). exists cl'. rewrite E. done.
  - intros k c b Hk Hb. destruct (H4' k c b Hk Hb) as (a&cl&Hcl&Hcn&Ht).
    destruct (Hh a cl Hcl) as (cl'&?&E&E2). exists a, cl'. rewrite E, E2. done.
Qed.

Lemma heap_grows_insert s a cl cl' : heard s -> heap s !! a = Some cl ->
  c_id cl' = c_id cl -> c_conn cl' = c_conn cl ->
  (forall b, b ∈ sendCh cl' -> b ∈ sendCh cl \/ told (doc_of s) (c_id cl) b) ->
  heap_grows s (<[a := cl']> (heap s)).
Proof.
  intros Hs Ha Ei Ec Hm. split.
  - intros a2 cl2 Ha2. destruct (decide (a2 = a)) as [->|Hne].
    + exists cl'. rewrite lookup_insert_eq. assert (cl2 = cl) as -> by congruence. done.
    + exists cl2. by rewrite lookup_insert_ne.
  - intros a2 cl2 b [[<- <-]|[_ Ha2]]%lookup_insert_Some Hb; [|by eapply (hd_channel s Hs)].
    rewrite Ei. destruct (Hm b Hb); [|done]. by eapply (hd_channel s Hs).
Qed.

Lemma send_heard s a cl m h : heard s -> heap s !! a = Some cl -> backed (doc_of s) (c_id cl) m ->
  send (heap s) a m = Ret h -> heap_grows s h.
Proof.
  intros Hs Ha Hb. assert (heap_grows s (heap s)) as Hsame.
  { split; [eauto|]. apply (hd_channel s Hs). }
  unfold send. rewrite Ha. destruct (encode m) as [b|] eqn:He; [|by intros [= <-]].
  destruct (closed cl); [done|]. destruct (_ <? _)%nat; [|by intros [= <-]].
  intros [= <-]. apply (heap_grows_insert s a cl); try done. cbn.
  intros b' [Hb'|Hb'%list_elem_of_singleton]%elem_of_app; [by left|right]. subst b'. by exists m.
Qed.

Lemma send_at_heard s k c c' a m s' :
  heard s -> conns s !! k = Some c -> written c' = written c -> catching (doc_of s) (at_ c') ->
  (forall id, backed (doc_of s) id m) -> send_at s k c' a m = Ret (Some s') -> heard s'.
Proof.
  intros Hs Hk Hw Hc Hm. unfold send_at. intros (h&Hh&Hx)%bind_ret. injection Hx as <-.
  assert (heap_grows s h) as Hg.
  { destruct (heap s !! a) as [cl|] eqn:Ha; [by eapply send_heard|].
    unfold send in Hh. rewrite Ha in Hh. injection Hh as <-. split; [eauto|]. apply (hd_channel s Hs). }
  apply (heard_conn (set_heap h s) k c); [by apply heard_heap|done..].
Qed.

(** ** Each step of the server *)

Lemma heard_fields s s' : heap s' = heap s -> posting s' = posting s -> conns s' = conns s -> raft s' = raft s ->
  heard s -> heard s'.
Proof.
  intros E1 E2 E3 E4 [H1' H2' H3' H4'].
  assert (doc_of s' = doc_of s) as E5 by (unfold doc_of, raft_node; by rewrite E4).
  split; rewrite ?E1, ?E2, ?E3, ?E5; done.
Qed.

Lemma connect_heard s k c s' :
  heard s -> conns s !! k = Some c -> connect_step s k c = Ret (Some s') -> heard s'.
Proof.
  intros Hs Hk Hst. unfold connect_step in Hst.
  destruct (at_ c) as [|msg|a rev|a rev|a rev|a l|a l t|a m|a|a b|a f| | |] eqn:Hx; try done.
  - destruct (posting s) as [|] eqn:Hp; [|done]. injection Hst as <-. set (a := fresh (dom (heap s))).
    assert (heap s !! a = None) as Hfresh by (apply not_elem_of_dom, is_fresh).
    apply (heard_conn _ k c); [|done..].
    apply (heard_fields (set_heap (<[a := mkClient (cm_ClientID msg) k [] false true]> (heap s)) s)); [done..|].
    apply heard_heap; [done|]. split.
    + intros b cl Hb. exists cl. rewrite lookup_insert_ne by (intros <-; congruence). done.
    + intros b cl x [[<- <-]|[_ Hb]]%lookup_insert_Some Hin; [by apply elem_of_nil in Hin|].
      by eapply (hd_channel s Hs).
  - injection Hst as <-. apply (heard_conn s k c); [done..|]. by destruct (IsLeader _).
  - case_bool_decide; [injection Hst as <-; by apply (heard_conn s k c)|].
    by refine (send_at_heard s k c _ _ _ s' Hs Hk _ _ _ Hst).
  - apply bind_ret in Hst as (l&Hl&Hx'). injection Hx' as <-. apply (heard_conn s k c); [done..|].
    cbn. by eapply RevisionsSince_part.
  - injection Hst as <-. apply (heard_conn s k c); [done..|]. cbn.
    pose proof (hd_catching s Hs k c Hk) as Hc. by rewrite Hx in Hc.
  - refine (send_at_heard s k c _ _ _ s' Hs Hk _ _ _ Hst); [done..|]. intros id. cbn.
    pose proof (hd_catching s Hs k c Hk) as Hc. by rewrite Hx in Hc.
Qed.

Lemma wait_step_doc p f p' err : wait_step p f = Some (p', err) -> fsm (node p') = fsm (node p).
Proof.
  intros Hw. assert (fst <$> wait_step p f = Some p') as [m ->]%wait_step_spec by (by rewrite Hw). done.
Qed.

Lemma submit_heard s k c s' :
  heard s -> conns s !! k = Some c -> submit_step s k c = Ret (Some s') -> heard s'.
Proof.
  intros Hs Hk Hst. unfold submit_step in Hst.
  destruct (at_ c) as [|msg|a rev|a rev|a rev|a l|a l t|a m|a|a b|a f| | |] eqn:Hx; try done.
  - destruct (negb _); [injection Hst as <-; by apply (heard_conn s k c)|].
    destruct (Validate (sm_Changeset m)); try done.
    + destruct (MarshalEntry _); [injection Hst as <-; by apply (heard_conn s k c)|].
      by refine (send_at_heard s k c _ _ _ s' Hs Hk _ _ _ Hst).
    + by refine (send_at_heard s k c _ _ _ s' Hs Hk _ _ _ Hst).
  - by refine (send_at_heard s k c _ _ _ s' Hs Hk _ _ _ Hst).
  - destruct (wait_step (raft s) f) as [[p [e|]]|] eqn:Hw; [| |done]; apply wait_step_doc in Hw;
      assert (heard (set_raft p s)) as Hs'
        by (apply heard_raft; [rewrite Hw; apply doc_grows_refl|done]).
    + by refine (send_at_heard (set_raft p s) k c _ _ _ s' Hs' Hk _ _ _ Hst).
    + injection Hst as <-. by apply (heard_conn (set_raft p s) k c).
Qed.

Lemma close_heard s k c s' :
  heard s -> conns s !! k = Some c -> close_step s k c = Ret (Some s') -> heard s'.
Proof.
  intros Hs Hk Hst. unfold close_step in Hst. destruct (at_ c) eqn:Hx, (client c) as [o|]; try done.
  - destruct (posting s); [|done]. destruct (heap s !! o) as [cl|]; [|done]. injection Hst as <-.
    apply (heard_conn _ k c); [|done..]. by apply (heard_fields s).
  - injection Hst as <-. by apply (heard_conn s k c).
  - destruct (heap s !! o) as [cl|] eqn:Ha; [|done]. destruct (closed cl); [done|]. injection Hst as <-.
    apply (heard_conn _ k c); [|done..]. apply heard_heap; [done|].
    apply (heap_grows_insert s o cl); try done. intros b Hb. by left.
Qed.

Lemma pump_heard s k c s' :
  heard s -> conns s !! k = Some c -> pump_step s k c = Ret (Some s') -> heard s'.
Proof.
  intros Hs Hk. unfold pump_step.
  destruct (at_ c); first [by apply submit_heard|by apply close_heard|by apply connect_heard].
Qed.

Lemma commit_heard s n s' : server_inv s -> heard s -> commit_step s n = Ret (Some s') -> heard s'.
Proof.
  intros Hi Hs. unfold commit_step. fold (doc_of s). destruct (doc_spawned (doc_of s) !! n) as [res|] eqn:Hn; [|done].
  case_bool_decide; [done|]. intros [= <-]. pose proof Hs as [H1' H2' H3' H4']. split; cbn; [done| |done|done].
  intros x a m [Hx|Hx%list_elem_of_singleton]%elem_of_app Ha; [by eapply H2'|]. subst x.
  apply onCommit_sends_spec in Ha as (id&Hid&Hm). destruct (sv_clients s Hi id a Hid) as (cl&Hcl&<-&_).
  exists cl. split; [done|]. eapply message_backed; [|exact Hm]. by eapply list_elem_of_lookup_2.
Qed.

Lemma post_heard s n s' : heard s -> post_step s n = Ret (Some s') -> heard s'.
Proof.
  intros Hs. unfold post_step. destruct (posting s !! n) as [[|[a m] rest]|] eqn:Hn; [| |done].
  - intros [= <-]. pose proof Hs as [H1' H2' H3' H4']. split; cbn; [done| |done|done].
    intros x a m Hx. apply H2'. by eapply list_elem_of_delete_inv.
  - intros (h&Hh&Hx)%bind_ret. injection Hx as <-.
    assert ((a, m) :: rest ∈ posting s) as Hin by (by eapply list_elem_of_lookup_2).
    destruct (hd_posting s Hs _ a m Hin) as (cl&Hcl&Hb); [by left|].
    pose proof (heard_heap s h Hs (send_heard s a cl m h Hs Hcl Hb Hh)) as Hs'.
    pose proof Hs' as [H1' H2' H3' H4']. split; cbn; [done| |done|done].
    intros x b m' [i Hx]%list_elem_of_lookup Hb'. apply list_lookup_insert_Some in Hx as [(_&<-&_)|(_&Hx)].
    + apply (H2' ((a, m) :: rest)); [done|by right].
    + apply (H2' x); [by eapply list_elem_of_lookup_2|done].
Qed.

Lemma write_heard s a s' : heard s -> write_step s a = Ret (Some s') -> heard s'.
Proof.
  intros Hs. unfold write_step. destruct (heap s !! a) as [cl|] eqn:Ha; [|done]. destruct (negb _); [done|].
  destruct (sendCh cl) as [|m rest] eqn:Hc.
  - destruct (closed cl); [|done]. intros [= <-]. apply heard_heap; [done|].
    apply (heap_grows_insert s a cl); try done. by intros b ?%elem_of_nil.
  - destruct (conns s !! c_conn cl) as [c|] eqn:Hk; [|done]. case_bool_decide; [done|]. intros [= <-].
    assert (heard (set_heap (<[a := set_sendCh rest cl]> (heap s)) s)) as [H1' H2' H3' H4'].
    { apply heard_heap; [done|]. apply (heap_grows_insert s a cl); try done. cbn. intros b Hb. left.
      rewrite Hc. by right. }
    split; cbn; [done|done|..]; intros k2 c2.
    + intros [[<- <-]|[_ Hk2]]%lookup_insert_Some; [|by eapply H3']. by apply (H3' (c_conn cl) c).
    + intros b [[<- <-]|[_ Hk2]]%lookup_insert_Some Hb; [|by eapply H4'].
      cbn in Hb. apply elem_of_app in Hb as [Hb|Hb%list_elem_of_singleton]; [by apply (H4' (c_conn cl) c)|]. subst b.
      exists a, (set_sendCh rest cl). rewrite lookup_insert_eq. split_and!; [done..|].
      apply (hd_channel s Hs a cl); [done|]. rewrite Hc. by left.
Qed.

Lemma write_fail_heard s a ping s' : heard s -> write_fail s a ping = Ret (Some s') -> heard s'.
Proof.
  intros Hs. unfold write_fail. destruct (heap s !! a) as [cl|] eqn:Ha; [|done]. destruct (writing cl); [|done].
  intros [= <-]. apply heard_heap; [done|]. apply (heap_grows_insert s a cl); try done. cbn.
  intros b Hb. left. destruct ping; [done|]. destruct (sendCh cl); [done|by right].
Qed.

Lemma propose_heard s k c ch s' : heard s -> conns s !! k = Some c -> propose_step s k c ch = Ret (Some s') -> heard s'.
Proof.
  intros Hs Hk. unfold propose_step. destruct (at_ c); try done. destruct (choice_ready _ _); [|done].
  destruct (Leader.Apply (raft_node s) data ch) as [r f] eqn:Hr. intros [= <-].
  apply (heard_conn (set_raft (with_node (raft s) r) s) k c); [|done..]. apply heard_raft; [|done].
  assert (fsm r = doc_of s) as E; [|cbn; rewrite E; apply doc_grows_refl].
  pose proof (kept_machine _ _ (Apply_kept (raft_node s) data ch)) as E. rewrite Hr in E. by injection E.
Qed.

Lemma sstep_heard s l s' : server_inv s -> heard s -> sstep s l = Ret (Some s') -> heard s'.
Proof.
  intros Hi Hs Hst. destruct l as [l|k|k raw|k|k|k ch|n|n|a|a ping]; cbn [sstep] in Hst.
  - assert (Ret ((fun p => set_raft p s) <$> step (raft s) l) = Ret (E := Empty_set) (Some s')) as Hr by (by destruct l).
    destruct (step (raft s) l) as [p|] eqn:Hp; [|done]. injection Hr as <-. apply heard_raft; [|done].
    by eapply step_grows.
  - destruct (conns s !! k) eqn:Hk; [done|]. injection Hst as <-. pose proof Hs as [H1' H2' H3' H4'].
    split; cbn; [done|done|..]; intros k2 c2.
    + intros [[<- <-]|[_ Hk2]]%lookup_insert_Some; [done|by eapply H3'].
    + intros b [[<- <-]|[_ Hk2]]%lookup_insert_Some; [by intros ?%elem_of_nil|by eapply H4'].
  - destruct (conns s !! k) as [c|] eqn:Hk; [|done]. case_bool_decide; [|done]. injection Hst as <-.
    apply (heard_conn s k c); [done..|]. cbn. unfold recv. by repeat case_match.
  - destruct (conns s !! k) as [c|] eqn:Hk; [|done]. case_bool_decide; [|done]. injection Hst as <-.
    by apply (heard_conn s k c).
  - destruct (conns s !! k) as [c|] eqn:Hk; [|done]. by eapply pump_heard.
  - destruct (conns s !! k) as [c|] eqn:Hk; [|done]. by eapply propose_heard.
  - by eapply commit_heard.
  - by eapply post_heard.
  - by eapply write_heard.
  - by eapply write_fail_heard.
Qed.

End told.
