(* ===== verification/Wire.v ===== *)
(** The messages of the WebSocket clients as JSON ([internal/server/websocket.go], the
    structs with their tags): the codec that the server of [Server] runs with. The
    payload of an envelope is a [json.RawMessage], the bytes of a value as they are in
    the message; its type selects what it is decoded as. *)
From S2P Require Import Prelude Utf8 Changeset Apply Cursor Fsm Stores Node Leader Machine.
From S2P Require Import Json JsonRound Codec Document Server Sessions.

Local Open Scope byte_scope.
Local Open Scope Z_scope.

(** * Envelopes *)

(** The members of an object, each with its value and the bytes of its value. *)
Section raw.
  Context (val : text -> option (json * text)).

Fixpoint raw_members (fuel : nat) (s : text) : option (list (text * (json * text)) * text) :=
  match fuel with
  | O => None
  | S fuel' =>
      '(k, s1) ← key_colon s;
      '(v, s2) ← val s1;
      let start := skip_ws s1 in
      let raw := take (length start - length s2) start in
      match skip_ws s2 with
      | b :: s3 =>
          if Byte.eqb b "," then '(ms, s4) ← raw_members fuel' s3; Some ((k, (v, raw)) :: ms, s4)
          else if Byte.eqb b "}" then Some ([(k, (v, raw))], s3) else None
      | [] => None
      end
  end.

End raw.

Definition raw_object (s : text) : list (text * (json * text)) :=
  match skip_ws s with
  | _ :: s1 =>
      match raw_members (value (Nat.pred max_depth)) (length s1) s1 with
      | Some (ms, _) => ms
      | None => []
      end
  | [] => []
  end.

Definition env_fields : list (field Envelope) :=
  [plain "type" string_codec Type_ (fun t e => mkEnvelope t (Payload e));
   plain "payload" string_codec Payload (fun p e => mkEnvelope (Type_ e) p)].

(** A member of an envelope: the payload takes the bytes, whatever the value is. *)
Definition env_member (s : Envelope * bool) (m : text * (json * text)) : Envelope * bool :=
  match find_field env_fields (fst m) with
  | Some f =>
      if bool_decide (f_name f = bytes_of "payload") then (mkEnvelope (Type_ (fst s)) (snd (snd m)), snd s)
      else let '(e, ok) := f_dec f (fst (snd m)) (fst s) in (e, snd s && ok)
  | None => s
  end.

Definition parse_envelope (raw : text) : option Envelope :=
  match parse raw with
  | Some (JObject _) =>
      let '(e, ok) := foldl env_member (mkEnvelope [] [], true) (raw_object raw) in
      if ok then Some e else None
  | Some JNull => Some (mkEnvelope [] [])
  | _ => None
  end.

(** [json.Marshal] of an envelope: [send] gives it the bytes that [json.Marshal] has
    just written, which are copied as they are. *)
Definition render_envelope (env : Envelope) : text :=
  "{" :: commas [quote (bytes_of "type") ++ ":" :: quote (Type_ env);
                 quote (bytes_of "payload") ++ ":" :: Payload env] ++ ["}"].

(** * Payloads *)

Definition connect_codec : codec ConnectMsg := struct_codec
  [plain "client_id" string_codec cm_ClientID (fun x m => mkConnectMsg x (cm_LastKnownRev m));
   plain "last_known_rev" int_codec cm_LastKnownRev (fun x m => mkConnectMsg (cm_ClientID m) x)]
  (mkConnectMsg [] 0).

Definition submit_codec : codec SubmitMsg := struct_codec
  [plain "client_id" string_codec sm_ClientID
     (fun x m => mkSubmitMsg x (sm_SubmissionID m) (sm_BaseRev m) (sm_Changeset m));
   plain "submission_id" int_codec sm_SubmissionID
     (fun x m => mkSubmitMsg (sm_ClientID m) x (sm_BaseRev m) (sm_Changeset m));
   plain "base_rev" int_codec sm_BaseRev
     (fun x m => mkSubmitMsg (sm_ClientID m) (sm_SubmissionID m) x (sm_Changeset m));
   plain "changeset" changeset_codec sm_Changeset
     (fun x m => mkSubmitMsg (sm_ClientID m) (sm_SubmissionID m) (sm_BaseRev m) x)]
  (mkSubmitMsg [] 0 0 (zero changeset_codec)).

Definition record_codec : codec RevisionRecord := struct_codec
  [plain "rev_number" int_codec RevNumber (fun x r => mkRevision x (RChangeset r) (Source r));
   plain "changeset" changeset_codec RChangeset (fun x r => mkRevision (RevNumber r) x (Source r));
   plain "source" string_codec Source (fun x r => mkRevision (RevNumber r) (RChangeset r) x)]
  (mkRevision 0 (zero changeset_codec) []).

(** The messages of the server, with their tags. *)
Definition payload_json (m : payload) : json :=
  JObject
    match m with
    | ConnectAckMsg headText headRev catchUp =>
        [(bytes_of "head_text", JString headText); (bytes_of "head_rev", enc int_codec headRev);
         (bytes_of "catch_up", enc (slice_codec record_codec) catchUp)]
    | AckMsg newRev => [(bytes_of "new_rev", enc int_codec newRev)]
    | BroadcastMsg c newRev =>
        [(bytes_of "changeset", enc changeset_codec c); (bytes_of "new_rev", enc int_codec newRev)]
    | RedirectMsg addr => [(bytes_of "leader_addr", JString addr)]
    | ErrorMsg code message =>
        [(bytes_of "code", enc int_codec code); (bytes_of "message", JString message)]
    end.

(** [json.Unmarshal] into a new variable. *)
Definition decode {A} (c : codec A) (data : text) : option A :=
  let '(a, ok) := Unmarshal c data (zero c) in if ok then Some a else None.

Definition json_wire : WireCodec := {|
  UnmarshalEnvelope := parse_envelope;
  UnmarshalConnect := decode connect_codec;
  UnmarshalSubmit := decode submit_codec;
  MarshalPayload m := Some (render (payload_json m));
  MarshalEnvelope env := Some (render_envelope env)
|}.
#[local] Existing Instances json_codec json_wire.

(** * Envelopes are read as they were written *)

Lemma raw_members_members val fuel s :
  members val fuel s = (fun p => (map (fun m => (fst m, fst (snd m))) (fst p), snd p)) <$> raw_members val fuel s.
Proof.
  revert s. induction fuel as [|fuel IH]; intros s; [done|]. cbn [members raw_members].
  destruct (key_colon s) as [[k s1]|]; [|done]. cbn [mbind option_bind].
  destruct (val s1) as [[v s2]|]; [|done]. cbn [mbind option_bind].
  destruct (skip_ws s2) as [|b s3]; [done|]. destruct (Byte.eqb b ","); [|by destruct (Byte.eqb b "}")].
  rewrite IH. by destruct (raw_members val fuel s3) as [[ms s4]|].
Qed.

Lemma raw_members_render d fuel ms rest :
  ms <> [] -> Forall (fun m => renders d (snd m)) ms -> (length ms <= fuel)%nat ->
  raw_members (value d) fuel (commas (map render_member ms) ++ "}" :: rest)
    = Some (map (fun m => (sanitize (fst m), (clean (snd m), render (snd m)))) ms, rest).
Proof.
  revert fuel. induction ms as [|m ms IH]; intros fuel Hne Hm Hf; [done|].
  apply Forall_cons in Hm as [Hm Hms]. destruct fuel as [|fuel]; [cbn in Hf; lia|].
  cbn [raw_members].
  assert (forall t, take (length (render (snd m) ++ t) - length t) (render (snd m) ++ t) = render (snd m)) as Htake.
  { intros t. rewrite length_app, take_app_le by lia. apply take_ge. lia. }
  destruct ms as [|m2 ms].
  - cbn [map commas concat]. unfold render_member at 1. rewrite app_nil_r, <-app_assoc. cbn [app].
    rewrite quote_key. cbn [mbind option_bind]. rewrite value_render by (done || (right; by right)).
    cbn [mbind option_bind]. by rewrite (skip_ws_render _ _ _ Hm), Htake.
  - cbn [map] in *. rewrite commas_cons, <-app_assoc. unfold render_member at 1.
    rewrite <-app_assoc. cbn [app]. rewrite quote_key. cbn [mbind option_bind].
    rewrite value_render by (done || by left). cbn [mbind option_bind].
    rewrite (skip_ws_render _ _ _ Hm), Htake.
    rewrite skip_ws_cons by done. change (Byte.eqb "," ",") with true. cbv iota.
    rewrite IH by (done || (cbn in *; lia)). done.
Qed.

Lemma render_envelope_json t v :
  render_envelope (mkEnvelope t (render v))
    = render (JObject [(bytes_of "type", JString t); (bytes_of "payload", v)]).
Proof. done. Qed.

Lemma max_depth_succ : max_depth = S (Nat.pred max_depth).
Proof. vm_compute. reflexivity. Qed.

Lemma object_renders d ms : Forall (fun m => renders d (snd m)) ms -> renders (S d) (JObject ms).
Proof. done. Qed.

Lemma scalar_renders d v : match v with JArray _ | JObject _ | JNumber _ => False | _ => True end -> renders d v.
Proof. by destruct d, v. Qed.

Lemma parse_envelope_render t v : renders (Nat.pred max_depth) v ->
  parse_envelope (render_envelope (mkEnvelope t (render v))) = Some (mkEnvelope (sanitize t) (render v)).
Proof.
  intros Hv. unfold parse_envelope. rewrite render_envelope_json.
  set (ms := [(bytes_of "type", JString t); (bytes_of "payload", v)]).
  assert (Forall (fun m => renders (Nat.pred max_depth) (snd m)) ms) as Hms.
  { constructor; [by apply scalar_renders|]. constructor; [exact Hv|constructor]. }
  rewrite parse_render by (rewrite max_depth_succ; by apply object_renders).
  assert (raw_object (render (JObject ms))
    = map (fun m => (sanitize (fst m), (clean (snd m), render (snd m)))) ms) as ->.
  { unfold raw_object. cbn [render]. rewrite skip_ws_cons by done.
    change (map (fun m => quote (fst m) ++ ":" :: render (snd m)) ms) with (map render_member ms).
    rewrite (raw_members_render _ _ ms []) by (done || (rewrite length_app; cbn; lia)). done. }
  unfold ms. cbn [map foldl fst snd clean].
  change (sanitize (bytes_of "type")) with (bytes_of "type").
  change (sanitize (bytes_of "payload")) with (bytes_of "payload"). done.
Qed.

(** * The laws of the payloads *)

Definition connect_fits (m : ConnectMsg) : Prop := int_fits (cm_LastKnownRev m).
Definition connect_canon (m : ConnectMsg) : ConnectMsg :=
  mkConnectMsg (sanitize (cm_ClientID m)) (cm_LastKnownRev m).

Lemma connect_lawful : lawful connect_codec 1 connect_fits connect_canon.
Proof.
  split.
  - intros m [|d] H1 Hle; [lia|]. apply struct_renders. field_renders d.
  - intros m H1. unfold connect_codec. fields fail. done.
Qed.

(** The entry that [handleSubmit] makes of a submission. *)
Definition entry_of (m : SubmitMsg) : RaftLogEntry :=
  mkEntry (sm_ClientID m) (sm_SubmissionID m) (sm_BaseRev m) (sm_Changeset m).

Definition submit_fits (m : SubmitMsg) : Prop := entry_fits (entry_of m).
Definition submit_canon (m : SubmitMsg) : SubmitMsg :=
  mkSubmitMsg (sanitize (sm_ClientID m)) (sm_SubmissionID m) (sm_BaseRev m)
    (changeset_canon (sm_Changeset m)).

Lemma submit_lawful : lawful submit_codec 4 submit_fits submit_canon.
Proof.
  destruct changeset_lawful as [Hr Hd]. split.
  - intros m [|d] [H1 H2 H3] Hle; [lia|]. apply struct_renders. field_renders d.
    apply Hr; [done|lia].
  - intros m [H1 H2 H3]. unfold submit_codec. cbn in H1, H2, H3. fields ltac:(by apply Hd). done.
Qed.

Definition submit_ok (m : SubmitMsg) : Prop := entry_ok (entry_of m).

Lemma submit_sound : sound submit_codec submit_ok.
Proof.
  apply struct_sound.
  { split; [done|]. split; [split; vm_compute; discriminate|].
    split; [split; vm_compute; discriminate|apply changeset_sound]. }
  constructor; [|constructor; [|constructor; [|constructor; [|constructor]]]].
  - apply (plain_sound _ _ _ _ _ _ string_sound); [by intros m (?&_)|by intros x m ? (_&?&?&?)].
  - apply (plain_sound _ _ _ _ _ _ int_sound); [by intros m (_&?&_)|by intros x m ? (?&_&?&?)].
  - apply (plain_sound _ _ _ _ _ _ int_sound); [by intros m (_&_&?&_)|by intros x m ? (?&?&_&?)].
  - apply (plain_sound _ _ _ _ _ _ changeset_sound); [by intros m (_&_&_&?)|by intros x m ? (?&?&?&_)].
Qed.

Lemma decode_submit_ok data m : UnmarshalSubmit data = Some m -> submit_ok m.
Proof.
  cbn [UnmarshalSubmit json_wire]. unfold decode, Unmarshal.
  destruct (parse data) as [v|] eqn:E; [|done]. apply parse_valid in E.
  destruct submit_sound as [Hz Hd]. specialize (Hd v (zero submit_codec) E Hz).
  destruct (dec submit_codec v (zero submit_codec)) as [x []]; [|done]. by intros [= <-].
Qed.

Lemma decode_marshal {A} (c : codec A) d fits canon a :
  lawful c d fits canon -> (d <= 10)%nat -> fits a -> decode c (Marshal c a) = Some (canon a).
Proof.
  intros Hc Hd Ha. unfold decode. by rewrite (unmarshal_marshal _ _ _ _ _ Hc) by (done || by apply max_depth_le).
Qed.

(** ** What the server sends is JSON *)

Lemma op_renders o d : (1 <= d)%nat -> renders d (enc op_codec o).
Proof.
  destruct d as [|d]; intros Hd; [lia|]. apply struct_renders. repeat constructor; cbn; intros v.
  - intros [= <-]. by apply scalar_renders.
  - destruct (Len o =? 0); [done|]. intros [= <-]. apply int_renders.
  - case_bool_decide; [done|]. intros [= <-]. by apply scalar_renders.
Qed.

Lemma slice_renders {A} (c : codec A) xs d :
  (1 <= d)%nat -> (forall x, renders (Nat.pred d) (enc c x)) -> renders d (enc (slice_codec c) xs).
Proof.
  destruct d as [|d]; intros Hd Hx; [lia|].
  destruct xs as [|x xs]; [done|]. cbn [enc slice_codec renders].
  apply Forall_map, Forall_forall. intros y _. apply Hx.
Qed.

Lemma changeset_renders c d : (3 <= d)%nat -> renders d (enc changeset_codec c).
Proof.
  destruct d as [|d]; intros Hd; [lia|]. apply struct_renders. field_renders d.
  apply (slice_renders op_codec (Ops c) d); [lia|]. intros o. apply op_renders. lia.
Qed.

Lemma record_renders r d : (4 <= d)%nat -> renders d (enc record_codec r).
Proof.
  destruct d as [|d]; intros Hd; [lia|]. apply struct_renders. field_renders d.
  apply (changeset_renders (RChangeset r) d). lia.
Qed.

Lemma payload_renders m d : (6 <= d)%nat -> renders d (payload_json m).
Proof.
  destruct d as [|d]; intros Hd; [lia|]. apply object_renders. destruct m; repeat constructor; cbn [snd];
    first [by apply scalar_renders|apply int_renders|apply changeset_renders; lia
          |apply slice_renders; [lia|]; intros r; apply record_renders; lia].
Qed.

Lemma depth_le d : (d <= 10)%nat -> (d <= Nat.pred max_depth)%nat.
Proof. intros Hd. etransitivity; [exact Hd|]. apply Nat.leb_le. vm_compute. reflexivity. Qed.

Lemma depth_renders m : renders (Nat.pred max_depth) (payload_json m) /\ renders max_depth (payload_json m).
Proof. split; apply payload_renders; [apply depth_le|apply max_depth_le]; lia. Qed.

(** What is proposed is read back as what was checked. *)
Lemma proposed_entry m data : submit_ok m -> MarshalEntry (entry_of m) = Some data ->
  UnmarshalEntry data = inr (entry_of m).
Proof.
  intros Hg [= <-]. destruct (entry_ok_canon _ Hg) as [Hf Hcan]. cbn [UnmarshalEntry json_codec].
  by rewrite (unmarshal_marshal _ _ _ _ _ entry_lawful), Hcan by (done || (apply max_depth_le; lia)).
Qed.

(** * Properties *)

(** C34: every message arrives. What [send] puts on a client's channel is an envelope of
    the message's type around the JSON of the message; and a CONNECT or SUBMIT envelope
    with 64-bit integers is handled by [readPump] as the message it was made of (with
    U+FFFD for invalid bytes in its strings), a SUBMIT only after a CONNECT. *)
Theorem messages_arrive :
  (forall m, exists b, encode m = Some b /\
     parse_envelope b = Some (mkEnvelope (msg_type m) (render (payload_json m))) /\
     parse (render (payload_json m)) = Some (clean (payload_json m))) /\
  (forall c m, connect_fits m ->
     recv c (render_envelope (mkEnvelope MsgConnect (Marshal connect_codec m))) = Registering (connect_canon m)) /\
  (forall c m, submit_fits m ->
     recv c (render_envelope (mkEnvelope MsgSubmit (Marshal submit_codec m)))
       = match client c with Some a => Submitting a (submit_canon m) | None => Reading end).
Proof.
  split; [|split].
  - intros m. eexists. split; [reflexivity|]. destruct (depth_renders m) as [H1 H2].
    rewrite (parse_envelope_render _ _ H1), (parse_render _ H2). by destruct m.
  - intros c m Hm. unfold recv. cbn [UnmarshalEnvelope json_wire]. unfold Marshal.
    rewrite (parse_envelope_render _ _ (law_renders _ _ _ _ connect_lawful m _ Hm (depth_le 1 ltac:(lia)))).
    cbn [Type_ Payload UnmarshalConnect json_wire]. rewrite (bool_decide_true _ eq_refl).
    fold (Marshal connect_codec m).
    by rewrite (decode_marshal _ _ _ _ m connect_lawful) by (done || lia).
  - intros c m Hm. unfold recv. cbn [UnmarshalEnvelope json_wire]. unfold Marshal.
    rewrite (parse_envelope_render _ _ (law_renders _ _ _ _ submit_lawful m _ Hm (depth_le 4 ltac:(lia)))).
    cbn [Type_ Payload UnmarshalSubmit json_wire].
    change (sanitize MsgSubmit) with MsgSubmit.
    rewrite (bool_decide_false (MsgSubmit = MsgConnect)), (bool_decide_true (MsgSubmit = MsgSubmit)) by done.
    fold (Marshal submit_codec m).
    rewrite (decode_marshal _ _ _ _ m submit_lawful) by (done || lia). by destruct (client c).
Qed.

(** The entry of alice's first edit, as she submits it. *)
Definition demo_message : SubmitMsg :=
  mkSubmitMsg (bytes_of "alice") 1 0 (TextToChangeset (encode_runes [0x48; 0xE9])).

Lemma messages_arrive_witness :
  recv (mkConn (Some 0%nat) Reading []) (render_envelope (mkEnvelope MsgSubmit (Marshal submit_codec demo_message)))
    = Submitting 0 (submit_canon demo_message).
Proof.
  apply (proj2 (proj2 messages_arrive) (mkConn (Some 0%nat) Reading []) demo_message).
  repeat first [split|constructor]; vm_compute; discriminate.
Defined.


(** Alice connects to the leader and submits. *)
Definition demo_session : list slabel :=
  [SAccept 0; SRecv 0 (render_envelope (mkEnvelope MsgConnect (Marshal connect_codec (mkConnectMsg (bytes_of "alice") 0))));
   SPump 0; SPump 0; SPump 0; SPump 0; SPump 0;
   SRecv 0 (render_envelope (mkEnvelope MsgSubmit (Marshal submit_codec demo_message))); SPump 0].

Definition demo_proposed : demo_ws :=
  default demo_server_start (ret_of None (ssteps demo_server_start demo_session)).

