(* ===== verification/Closing.v ===== *)
(** A node after [Shutdown] ([internal/raft/raft.go]): its goroutines go on until they see
    the closed channel. No proposal waits in the log any more; and the node can still
    become a leader, by an election that it was about to win, but its main goroutine then
    ends and never works as a leader again. *)
From S2P Require Import Prelude Stores Future Config Node Election Replication Rpc Leader Machine Frame Entries.

Section closing.
  Context {L Sb F R : Type} `{LogStore L} `{StableStoreSpec Sb} `{FSM F R}.
  Implicit Types r : RaftNode L Sb F R.
  Implicit Types p : proc L Sb F R.

(** ** Proposals that wait

    Only [handleApplyRequest] of a leader adds one. *)
Definition idle r r' : Prop := pendingFutures r = ∅ -> pendingFutures r' = ∅.

Lemma idle_same r r' : pendingFutures r' = pendingFutures r -> idle r r'.
Proof. by intros E ?; rewrite E. Qed.

Lemma idle_refl r : idle r r.
Proof. by apply idle_same. Qed.
#[local] Hint Resolve idle_refl : core.

Lemma idle_trans r1 r2 r3 : idle r1 r2 -> idle r2 r3 -> idle r1 r3.
Proof. unfold idle. auto. Qed.

Lemma resolve_pending id err resp r : pendingFutures (resolve id err resp r) = pendingFutures r.
Proof. unfold resolve. by destruct (futures r !! id). Qed.

Lemma stable_idle r r' : same_but_stable r r' -> idle r r'.
Proof. unfold same_but_stable. intros ->. by apply idle_same. Qed.

Lemma stepDown_idle r t r' : stepDown r t = Ret r' -> idle r r'.
Proof.
  destruct (stepDown_total r t) as (r1&E&Hs). rewrite E. intros [= <-]. by apply stable_idle in Hs.
Qed.

Lemma startElection_idle r r' req addrs : startElection r = Ret (r', req, addrs) -> idle r r'.
Proof.
  unfold startElection.
  destruct (persistState_total (set_votedFor (ServerID (config r))
    (set_currentTerm (currentTerm r +ᵤ 1)%go r))) as (r1&->&Hs). cbn [mbind outcome_bind].
  destruct (lastLogInfo r1). intros Hx. injection Hx as <- _ _. exact (stable_idle _ _ Hs).
Qed.

Lemma advance_idle r r' : advanceCommitIndex r = Ret r' -> idle r r'.
Proof.
  unfold advanceCommitIndex. intros (c&_&Hc)%bind_ret. destruct (c <=? commitIndex r); [injection Hc as <-; by apply idle_same|].
  destruct (GetLog (logStore r) c); [|injection Hc as <-; by apply idle_same]. destruct (negb _); injection Hc as <-; by apply idle_same.
Qed.

Lemma leader_addr_idle id r : idle r (set_leaderAddr_of id r).
Proof. unfold set_leaderAddr_of. destruct (find_addr _ _); by apply idle_same. Qed.

Lemma becomeLeader_idle r : idle r (becomeLeader r).
Proof. exact (leader_addr_idle (ServerID (config r)) (set_leaderID (ServerID (config r)) (set_state Leader r))). Qed.

Lemma append_idle r req r' resp b : handleAppendEntries r req = Ret (r', resp, b) -> idle r r'.
Proof.
  unfold handleAppendEntries. destruct (ae_Term req <? currentTerm r); [intros [= <- _ _]; by apply idle_same|].
  intros (r1&Ha&Hh)%bind_ret. apply (idle_trans _ r1).
  - unfold accept_leader in Ha. apply bind_ret in Ha as (r2&Hr2&[= <-]). apply (idle_trans _ r2).
    + destruct (currentTerm r <? ae_Term req); [by eapply stepDown_idle|].
      destruct (negb _); [by eapply stepDown_idle|]. injection Hr2 as <-. by apply idle_same.
    + exact (leader_addr_idle (ae_LeaderID req) (set_leaderID (ae_LeaderID req) (set_state Follower r2))).
  - apply bind_ret in Hh as ([[ct ci]|]&_&Hh); [injection Hh as <- _ _; by apply idle_same|].
    apply bind_ret in Hh as ([log ok]&_&Hh). destruct ok; cbn in Hh; injection Hh as <- _ _; [|by apply idle_same].
    unfold follow_commit. destruct (commitIndex _ <? _); by apply idle_same.
Qed.

Lemma handleRPC_idle r cmd r' resp b : handleRPC r cmd = Ret (r', resp, b) -> idle r r'.
Proof.
  destruct cmd as [req|req|]; simpl.
  - intros ([[r1 resp1] b1]&Hh&Hx)%bind_ret. injection Hx as <- _ _. by eapply append_idle.
  - intros ([[r1 resp1] b1]&Hh&Hx)%bind_ret. injection Hx as <- _ _.
    destruct (handleRequestVote_spec r req) as (r2&Hr2&Hs). rewrite Hr2 in Hh.
    injection Hh as <- _ _. eapply idle_trans; [|by apply stable_idle]. unfold at_term.
    destruct (vote_ok r req), (currentTerm r <? rv_Term req); by apply idle_same.
  - intros [= <- _ _]. by apply idle_same.
Qed.

Lemma appendNoOp_idle r r' : appendNoOp r = Ret r' -> idle r r'.
Proof.
  unfold appendNoOp, or_log. destruct (StoreLog (logStore r) (next_entry r [])); intros Hx; try done;
    injection Hx as <-; by apply idle_same.
Qed.

(** A node that does not lead refuses the proposal. *)
Lemma handleApplyRequest_idle r req r' : state r <> Leader -> handleApplyRequest r req = Ret r' -> idle r r'.
Proof.
  intros Hs. unfold handleApplyRequest. rewrite bool_decide_false by done. intros [= <-].
  apply idle_same, resolve_pending.
Qed.

Lemma apply_one_idle r idx r' : apply_one r idx = Ret r' -> idle r r'.
Proof.
  unfold apply_one. destruct (GetLog (logStore r) idx); [|by intros [= <-]].
  intros ([f x]&_&Hx)%bind_ret Hp. injection Hx as <-. cbn [fst snd].
  change (pendingFutures (set_lastApplied idx (set_fsm f r))) with (pendingFutures r).
  by rewrite Hp, lookup_empty.
Qed.

Lemma process_idle r id es resp r' : replicate_process r id es resp = Ret r' -> idle r r'.
Proof.
  unfold replicate_process. destruct (_ <? _); [by apply stepDown_idle|].
  destruct (peers r !! id), (aer_Success resp); try (intros [= <-]; by apply idle_same);
    try (by intros Hx%advance_idle); try (intros Hx%advance_idle; exact Hx).
  intros (next&_&[= <-])%bind_ret. by apply idle_same.
Qed.

Lemma Apply_idle r data c : idle r (fst (Leader.Apply r data c)).
Proof.
  unfold Leader.Apply. destruct (negb _); [apply idle_same; cbn [fst]; by rewrite resolve_pending|].
  destruct c; [by apply idle_same|apply idle_same; cbn [fst]; by rewrite resolve_pending..].
Qed.

(** ** After the shutdown *)

(** The main goroutine is at the top of its loop, where it sees the closed channel, or has
    ended. *)
Definition leaving p : Prop := pc p = AtRun \/ pc p = Stopped.

Record quiet p : Prop := mk_quiet {
  qu_shut : shutdownCh (node p) = true;
  qu_pending : pendingFutures (node p) = ∅;
  qu_leads : state (node p) = Leader -> leaving p
}.

Lemma quiet_main p p' : quiet p -> main_step p = Some p' ->
  pendingFutures (node p') = ∅ /\ (state (node p') = Leader -> leaving p').
Proof.
  intros [Hsh Hp Hl] Hs. unfold main_step, leaving in *. rewrite Hsh in Hs.
  destruct (pc p) as [|[]| |t v []|t| | |[]|]; try (injection Hs as <-; cbn; split; [done|tauto]).
  - injection Hs as <-. cbn. split; [done|]. intros E. destruct (Hl E); discriminate.
  - apply try_some in Hs as ([[r' req] addrs]&He&Hs). cbn [fst] in Hs.
    pose proof (startElection_idle _ _ _ _ He Hp) as Hp'.
    apply startElection_role in He as [(Es&_)%role_proj _].
    assert (state (node p) <> Leader) as Hn by (intros E; destruct (Hl E); discriminate).
    destruct (quorum r' <=? 1); injection Hs as <-; cbn; (split; [done|congruence]).
  - injection Hs as <-. cbn. split; [done|]. intros E. destruct (Hl E); discriminate.
  - injection Hs as <-. cbn. split; [by apply becomeLeader_idle|by left].
  - injection Hs as <-. cbn. split; [done|]. intros E. destruct (Hl E); discriminate.
  - apply try_some in Hs as (r'&Hr&[= <-]). cbn. split; [by eapply appendNoOp_idle|].
    apply appendNoOp_role in Hr as (Es&_)%role_proj. rewrite Es. intros E. destruct (Hl E); discriminate.
  - case_bool_decide as E; [destruct (Hl E); discriminate|]. injection Hs as <-. cbn. split; [done|by left].
  - done.
Qed.

Lemma quiet_command p cmd p' : quiet p -> command_step p cmd = Some p' ->
  pendingFutures (node p') = ∅ /\ (state (node p') = Leader -> leaving p').
Proof.
  intros [Hsh Hp Hl] Hs. unfold command_step, leaving in *.
  assert (forall r' resp b, state (node p) <> Leader -> handleRPC (node p) cmd = Ret (r', resp, b) ->
    state r' <> Leader /\ pendingFutures r' = ∅) as Hh.
  { intros r' resp b Hn Hr. pose proof (handleRPC_idle _ _ _ _ _ Hr Hp). split; [|done].
    apply handleRPC_role in Hr as [[Es _]|Es]; congruence. }
  destruct (pc p) as [|[]| |t v []|t| | |[]|]; try done;
    (assert (state (node p) <> Leader) as Hn by (intros E; destruct (Hl E); discriminate));
    apply try_some in Hs as ([[r' resp] b]&Hr&Hs); destruct (Hh _ _ _ Hn Hr) as [Hn' Hp']; cbn [fst snd] in Hs;
    repeat case_match; injection Hs as <-; cbn; try done; (split; [done|by left]).
Qed.

Lemma quiet_step p k p' : quiet p -> step p k = Some p' -> quiet p'.
Proof.
  intros Hq Hs. pose proof Hq as [Hsh Hp Hl].
  assert (shutdownCh (node p') = true) as Hsh'.
  { destruct (step_channels p k p' Hs) as [E|req _ E|req c _ _ E| -> _]; [by injection E; congruence|congruence..|].
    simpl in Hs. injection Hs as <-. cbn. unfold Shutdown. by rewrite Hsh. }
  assert (pendingFutures (node p') = ∅ /\ (state (node p') = Leader -> leaving p')) as [? ?]; [|by split].
  destruct (background k) eqn:Hb.
  - destruct (background_drift p k p' Hb Hs) as (Hpc&_&Hd).
    assert (state (node p') = Leader -> leaving p') as Hl'.
    { unfold leaving. rewrite Hpc. destruct Hd as [(Es&_)%role_proj|t _ _ (Es&_)%role_proj|(Es&_)%role_proj];
        rewrite Es; done. }
    split; [|done]. clear Hl' Hd Hl Hq.
    destruct k as [|cmd| |resp| |id|id resp|id|k|k resp| | |data c|f|f|]; try done; simpl in Hs.
    + unfold send_step in Hs. destruct (peers (node p) !! id), (inflight p !! id); try done.
      apply try_some in Hs as ([req|]&_&Hs); [|done]. by injection Hs as <-.
    + unfold response_step in Hs. destruct (inflight p !! id) as [es|]; [|done].
      apply try_some in Hs as (r'&Hr&[= <-]). by eapply process_idle.
    + by injection Hs as <-.
    + unfold stale_send in Hs. destruct (stale p !! k) as [[q [es|]]|]; try done.
      apply try_some in Hs as ([req|]&_&Hs); [|done]. by injection Hs as <-.
    + unfold stale_response in Hs. destruct (stale p !! k) as [[q [es|]]|]; try done.
      destruct (_ <? _); [apply try_some in Hs as (r'&Hr&[= <-]); by eapply stepDown_idle|].
      destruct (aer_Success resp); [apply try_some in Hs as (r'&Hr&[= <-]); by eapply advance_idle|].
      by apply try_some in Hs as (next&_&[= <-]).
    + unfold apply_wake in Hs. destruct (applying p), (commitNotifyCh (node p)); try done. by injection Hs as <-.
    + unfold apply_next in Hs. destruct (applying p) as [[idx c]|]; [|done]. destruct (idx <=? c); [|by injection Hs as <-].
      apply try_some in Hs as (r'&Hr&[= <-]). by eapply apply_one_idle.
    + destruct (choice_ready (node p) c); [|done]. injection Hs as <-. by apply Apply_idle.
    + injection Hs as <-. cbn. by rewrite resolve_pending.
    + by apply wait_step_spec in Hs as [m ->].
    + injection Hs as <-. cbn. unfold Shutdown. by rewrite Hsh.
  - destruct k; try done; simpl in Hs; [by eapply quiet_main|by eapply quiet_command|..]; unfold leaving in *.
    + unfold timer_step in Hs. destruct (pc p) as [|[]| |t v []|t| | |[]|]; try done; injection Hs as <-; cbn;
        (split; [done|by left]).
    + unfold vote_step in Hs. destruct (pc p) as [|[]| |t v []|t| | |[]|] eqn:Hpc; try done.
      assert (state (node p) <> Leader) as Hn by (intros E; destruct (Hl E); discriminate).
      destruct (currentTerm (node p) <? rvr_Term resp).
      { apply try_some in Hs as (r'&Hr&[= <-]). cbn. split; [by eapply stepDown_idle|by left]. }
      destruct (rvr_VoteGranted resp); [destruct (_ <=? _)|]; by injection Hs as <-.
    + unfold request_step in Hs. destruct (pc p) as [|[]| |t v []|t| | |[]|] eqn:Hpc; try done.
      assert (state (node p) <> Leader) as Hn by (intros E; destruct (Hl E); discriminate).
      destruct (applyCh (node p)) as [|req rest]; [done|]. apply try_some in Hs as (r'&Hr&[= <-]). cbn.
      pose proof (handleApplyRequest_role _ _ _ Hr) as (Es&_)%role_proj.
      split; [eapply handleApplyRequest_idle; [|exact Hr|exact Hp]; exact Hn|]. rewrite Es. done.
Qed.

Lemma quiet_steps ls : forall p p', quiet p -> steps p ls = Some p' -> quiet p'.
Proof.
  induction ls as [|l ls IH]; intros p p' Hq Hs; cbn in Hs; [by injection Hs as <-|].
  destruct (step p l) as [q|] eqn:E; [|done]. eapply IH; [|exact Hs]. by eapply quiet_step.
Qed.

(** [Shutdown] itself. *)
Lemma shutdown_quiet p : shutdownCh (node p) = false -> quiet (with_node p (Shutdown (node p))).
Proof.
  intros Hs. unfold Shutdown. rewrite Hs. set (r := set_state Follower (set_shutdownCh true (node p))).
  pose proof (fail_all_queue r ErrShutdown) as E. injection E as _ E.
  pose proof (fail_all_role r ErrShutdown) as (Es&_)%role_proj. split; [exact E|done|].
  intros Hl. change (state (fail_all r ErrShutdown) = Leader) in Hl. by rewrite Es in Hl.
Qed.

(** The main goroutine of a node that is shut down takes no more part: where it leads, it
    can only end. *)
Lemma quiet_leader_ends p : quiet p -> state (node p) = Leader -> pc p <> Stopped ->
  main_step p = Some (goto p (node p) Stopped).
Proof.
  intros [Hsh _ Hl] Hs Hn. destruct (Hl Hs) as [E|E]; [|done]. unfold main_step. by rewrite E, Hsh.
Qed.

End closing.
