(* ===== verification/Setup.v ===== *)
(** Starting a server: the configuration that [cmd/server/main.go] makes of its flags
    and its configuration file, [SetupRaft] ([internal/server/cluster.go]), which builds
    the store, the transport and the Raft node, and the proposal of the initial text. *)
From S2P Require Import Prelude Utf8 Changeset Apply Cursor Fsm Stores Future Config Node Election.
From S2P Require Import Replication Leader Machine Network ElectionSafety Json JsonRound Codec Bolt.
From S2P Require Import Transport Document Stdgo LogMatching LeaderCompleteness CommitSafety Entries Applied.

(** * [internal/server/cluster.go] *)

Record RaftConfig : Type := mkRaftConfig {
  NodeID : text;
  BindAddr : text;
  DataDir : text;
  CPeers : list text;
  Bootstrap : bool;
  InitialText : text;
  CElectionTimeoutMin : Z;
  CElectionTimeoutMax : Z;
  CHeartbeatInterval : Z
}.

(** The address of a server is its identifier. *)
Definition peers_of (ps : list text) : list PeerConfig := map (fun p => mkPeer p p) ps.

Definition or_default (d v : Z) : Z := if v =? 0 then d else v.

(** What the server holds of the operating system. *)
Record resources : Type := mkResources { store_open : bool; listening : bool }.

(** [%q] of a text without special characters. *)
Definition quoted (s : text) : string := String.string_of_list_byte (dquote :: s ++ [dquote]).

(** The configuration that [SetupRaft] makes; it gives the one store as both. *)
Definition raft_config {L Sb} (cfg : RaftConfig) (logs : L) (stable : Sb) (sm : DocumentStateMachine)
  : Config L Sb document :=
  let d := DefaultConfig (L := L) (S := Sb) (F := document) in
  mkConfig (BindAddr cfg) (peers_of (CPeers cfg))
    (or_default (HeartbeatInterval d) (CHeartbeatInterval cfg))
    (or_default (ElectionTimeoutMin d) (CElectionTimeoutMin cfg))
    (or_default (ElectionTimeoutMax d) (CElectionTimeoutMax cfg))
    (Some logs) (Some stable) (Some (mkDoc sm [])).

Section setup.
  Context {D : Type} `{Bolt D} `{EC : EntryCodec}.

(** [RaftNode]: the live parts of a server. *)
Record live : Type := mkLive {
  lv_Raft : RaftNode D D document ApplyResult;
  lv_Transport : TCPTransport;
  lv_LogStore : D;
  lv_FSM : DocumentStateMachine
}.

(** The answers of the system: [os.MkdirAll], [bolt.Open] and [net.Listen]. *)
Record system : Type := mkSystem {
  os_mkdir : option string;
  os_open : string + D;
  os_listen : option string
}.

(** [NewBoltStore] of the path: a failure to open, or to make the buckets. *)
Definition open_store (sys : system) : outcome string D :=
  match os_open sys with
  | inl e => Err ("boltstore: open: " +:+ e)
  | inr d => NewBoltStore d
  end.

Definition SetupRaft (sys : system) (cfg : RaftConfig) (sm : DocumentStateMachine)
  : resources * outcome string live :=
  match os_mkdir sys with
  | Some e => (mkResources false false, Err ("setup_raft: mkdir " +:+ quoted (DataDir cfg) +:+ ": " +:+ e))
  | None =>
      match open_store sys with
      | Ret boltStore =>
          match NewTCPTransport (BindAddr cfg) (os_listen sys) with
          | Ret transport =>
              match NewRaftNode (raft_config cfg boltStore boltStore sm) with
              | Ret r => (mkResources true true, Ret (mkLive r transport boltStore sm))
              | Err e =>
                  match tcp_Shutdown transport with
                  | Ret transport => (mkResources false (t_listening transport), Err ("setup_raft: new raft: " +:+ e))
                  | _ => (mkResources false true, Panic)
                  end
              | Panic => (mkResources true true, Panic)
              | NoFuel => (mkResources true true, NoFuel)
              end
          | Err e => (mkResources false false, Err ("setup_raft: transport: " +:+ e))
          | Panic => (mkResources true false, Panic)
          | NoFuel => (mkResources true false, NoFuel)
          end
      | Err e => (mkResources false false, Err ("setup_raft: bolt store: " +:+ e))
      | Panic => (mkResources true false, Panic)
      | NoFuel => (mkResources true false, NoFuel)
      end
  end.

(** [LogStore.Close]: the node's two stores are this one. *)
Definition close_stores (r : RaftNode D D document ApplyResult) : RaftNode D D document ApplyResult :=
  set_stableStore (bolt_close (stableStore r)) (set_logStore (bolt_close (logStore r)) r).

(** [Shutdown], with what stays open, when no other goroutine runs in between
    ([Command.process] has its three calls as steps of their own). *)
Definition live_Shutdown (n : live) : outcome Empty_set (live * resources) :=
  let r := Shutdown (lv_Raft n) in
  t ← tcp_Shutdown (lv_Transport n);
  Ret (mkLive (close_stores r) t (bolt_close (lv_LogStore n)) (lv_FSM n), mkResources false (t_listening t)).

Definition live_IsLeader (n : live) : bool := IsLeader (lv_Raft n).
Definition live_LeaderAddr (n : live) : text := LeaderAddr (lv_Raft n).

End setup.
Arguments live : clear implicits.
Arguments system : clear implicits.

(** * [cmd/server/main.go] *)

(** The JSON configuration file. *)
Record FileConfig : Type := mkFileConfig {
  fc_NodeID : text;
  fc_GRPCAddr : text;
  fc_WSAddr : text;
  fc_DataDir : text;
  fc_Peers : list text;
  fc_Bootstrap : bool;
  fc_ElectionMin : text;
  fc_ElectionMax : text;
  fc_Heartbeat : text
}.

Definition file_codec : codec FileConfig := struct_codec
  [plain "node_id" string_codec fc_NodeID (fun x c => mkFileConfig x (fc_GRPCAddr c) (fc_WSAddr c)
     (fc_DataDir c) (fc_Peers c) (fc_Bootstrap c) (fc_ElectionMin c) (fc_ElectionMax c) (fc_Heartbeat c));
   plain "grpc_addr" string_codec fc_GRPCAddr (fun x c => mkFileConfig (fc_NodeID c) x (fc_WSAddr c)
     (fc_DataDir c) (fc_Peers c) (fc_Bootstrap c) (fc_ElectionMin c) (fc_ElectionMax c) (fc_Heartbeat c));
   plain "ws_addr" string_codec fc_WSAddr (fun x c => mkFileConfig (fc_NodeID c) (fc_GRPCAddr c) x
     (fc_DataDir c) (fc_Peers c) (fc_Bootstrap c) (fc_ElectionMin c) (fc_ElectionMax c) (fc_Heartbeat c));
   plain "data_dir" string_codec fc_DataDir (fun x c => mkFileConfig (fc_NodeID c) (fc_GRPCAddr c) (fc_WSAddr c)
     x (fc_Peers c) (fc_Bootstrap c) (fc_ElectionMin c) (fc_ElectionMax c) (fc_Heartbeat c));
   plain "peers" (slice_codec string_codec) fc_Peers (fun x c => mkFileConfig (fc_NodeID c) (fc_GRPCAddr c) (fc_WSAddr c)
     (fc_DataDir c) x (fc_Bootstrap c) (fc_ElectionMin c) (fc_ElectionMax c) (fc_Heartbeat c));
   plain "bootstrap" bool_codec fc_Bootstrap (fun x c => mkFileConfig (fc_NodeID c) (fc_GRPCAddr c) (fc_WSAddr c)
     (fc_DataDir c) (fc_Peers c) x (fc_ElectionMin c) (fc_ElectionMax c) (fc_Heartbeat c));
   plain "election_min" string_codec fc_ElectionMin (fun x c => mkFileConfig (fc_NodeID c) (fc_GRPCAddr c) (fc_WSAddr c)
     (fc_DataDir c) (fc_Peers c) (fc_Bootstrap c) x (fc_ElectionMax c) (fc_Heartbeat c));
   plain "election_max" string_codec fc_ElectionMax (fun x c => mkFileConfig (fc_NodeID c) (fc_GRPCAddr c) (fc_WSAddr c)
     (fc_DataDir c) (fc_Peers c) (fc_Bootstrap c) (fc_ElectionMin c) x (fc_Heartbeat c));
   plain "heartbeat" string_codec fc_Heartbeat (fun x c => mkFileConfig (fc_NodeID c) (fc_GRPCAddr c) (fc_WSAddr c)
     (fc_DataDir c) (fc_Peers c) (fc_Bootstrap c) (fc_ElectionMin c) (fc_ElectionMax c) x)]
  (mkFileConfig [] [] [] [] [] false [] [] []).

(** The values of the flags. *)
Record Flags : Type := mkFlags {
  configPath : text;
  nodeID : text;
  grpcAddr : text;
  wsAddr : text;
  dataDir : text;
  peersFlag : text;
  bootstrap : bool;
  initText : text;
  electionMin : Z;
  electionMax : Z;
  heartbeat : Z
}.

Definition default_flags : Flags :=
  mkFlags [] (bytes_of "node-1") (bytes_of "localhost:12000") (bytes_of "localhost:8080")
    (bytes_of "./data/node-1") (bytes_of "localhost:12000") false [] 0 0 0.

(** [json.NewDecoder(file).Decode]: the first value; what follows is not read. *)
Definition Decode {A} (c : codec A) (data : text) : option A :=
  match value max_depth data with
  | Some (v, _) => let '(a, ok) := dec c v (zero c) in if ok then Some a else None
  | None => None
  end.

Definition override (new old : text) : text := if bool_decide (new = []) then old else new.

(** A duration that does not parse is ignored. *)
Definition override_duration (new : text) (old : Z) : Z :=
  if bool_decide (new = []) then old else default old (ParseDuration new).

Definition merge_config (cfg : FileConfig) (fl : Flags) : Flags :=
  mkFlags (configPath fl) (override (fc_NodeID cfg) (nodeID fl)) (override (fc_GRPCAddr cfg) (grpcAddr fl))
    (override (fc_WSAddr cfg) (wsAddr fl)) (override (fc_DataDir cfg) (dataDir fl)) (peersFlag fl)
    (if fc_Bootstrap cfg then true else bootstrap fl) (initText fl)
    (override_duration (fc_ElectionMin cfg) (electionMin fl))
    (override_duration (fc_ElectionMax cfg) (electionMax fl))
    (override_duration (fc_Heartbeat cfg) (heartbeat fl)).

(** [read]: [os.Open] and the content of the file. [log.Fatalf] is an error. *)
Definition load_config (read : text -> string + text) (fl : Flags) : outcome string (Flags * list text) :=
  if bool_decide (configPath fl = []) then Ret (fl, [])
  else
    match read (configPath fl) with
    | inl e => Err ("failed to open config file: " +:+ e)
    | inr data =>
        match Decode file_codec data with
        | Some cfg => Ret (merge_config cfg fl, fc_Peers cfg)
        | None => Err "failed to decode config file"
        end
    end.

Definition parse_peers (fl : Flags) (peers : list text) : list text :=
  if zlen peers =? 0 then map TrimSpace (split x2c (peersFlag fl)) else peers.

Definition main_config (read : text -> string + text) (fl : Flags) : outcome string (Flags * RaftConfig) :=
  p ← load_config read fl;
  let '(fl, peers) := p in
  let peers := parse_peers fl peers in
  Ret (fl, mkRaftConfig (nodeID fl) (grpcAddr fl) (dataDir fl) peers (bootstrap fl) []
             (electionMin fl) (electionMax fl) (heartbeat fl)).

(** The goroutine that proposes the initial text: it is not there, it sleeps until the
    node is the leader, or it calls [Apply], once. ([Command.initial_step] has the look at
    the state and the call as two steps.) *)
Definition bootstrap_entry (initText : text) : RaftLogEntry :=
  mkEntry (bytes_of "system-bootstrap") 1 0 (MakeInsert 0 0 initText).

Inductive bootstrapping (N : Type) : Type := NotAsked | Sleeping | Proposed (r : N) (future : nat) | Unencodable.
Arguments NotAsked {N}.
Arguments Sleeping {N}.
Arguments Proposed {N}.
Arguments Unencodable {N}.

Definition propose_initial {L Sb F R} `{LogStore L} `{StableStore Sb} `{FSM F R} `{EC : EntryCodec}
    (fl : Flags) (r : RaftNode L Sb F R) (c : submit_choice) : bootstrapping (RaftNode L Sb F R) :=
  if negb (bootstrap fl && negb (bool_decide (initText fl = []))) then NotAsked
  else if negb (IsLeader r) then Sleeping
  else
    match MarshalEntry (bootstrap_entry (initText fl)) with
    | Some data => let '(r, f) := Leader.Apply r data c in Proposed r f
    | None => Unencodable
    end.

(** * Starting *)

Lemma peers_of_ids ps : PeerID <$> peers_of ps = ps.
Proof. unfold peers_of. induction ps as [|p ps IH]; [done|]. cbn. by f_equal. Qed.
Lemma peers_of_addresses ps : Address <$> peers_of ps = ps.
Proof. unfold peers_of. induction ps as [|p ps IH]; [done|]. cbn. by f_equal. Qed.

(** ** Over any stores

    [SetupRaft] gives the node [BoltStore]; what follows holds for all stores that keep the
    promises of the two interfaces. *)
Section made.
  Context {L Sb : Type} `{LogStore L} `{StableStore Sb} `{EC : EntryCodec}.
  Implicit Types (cfg : RaftConfig) (sm : DocumentStateMachine) (logs : L) (stable : Sb).

(** The node that [NewRaftNode] makes of the configuration of [SetupRaft]; its term is a
    [uint64]. *)
Definition made cfg sm logs stable (r : RaftNode L Sb document ApplyResult) : Prop :=
  NewRaftNode (raft_config cfg logs stable sm) = Ret r /\ uint_fits (currentTerm r).

Record started cfg sm logs stable (r : RaftNode L Sb document ApplyResult) : Prop := mk_started {
  sd_config : config r = raft_config cfg logs stable sm;
  sd_self : BindAddr cfg <> [] /\ BindAddr cfg ∈ CPeers cfg;
  sd_state : state r = Follower /\ commitIndex r = 0 /\ lastApplied r = 0;
  sd_stores : logStore r = logs /\ stableStore r = stable;
  sd_saved : GetUint64 stable KeyCurrentTerm = Ret (currentTerm r) /\ Get stable KeyVotedFor = Ret (votedFor r);
  sd_fsm : fsm r = mkDoc sm [];
  sd_peers : peers r = ∅;
  sd_queue : applyCh r = [];
  sd_pending : pendingFutures r = ∅;
  sd_open : shutdownCh r = false
}.

Lemma NewRaftNode_started cfg sm logs stable r :
  NewRaftNode (raft_config cfg logs stable sm) = Ret r ->
  started cfg sm logs stable r /\ config_ok (raft_config cfg logs stable sm).
Proof.
  unfold NewRaftNode. intros ([]&Hv%validate_ok&Hr)%bind_ret. cbn in Hr. unfold restoreState in Hr.
  apply bind_ret in Hr as (t&Ht&Hr). apply bind_ret in Hr as (v&Hvf&Hr). injection Hr as <-.
  split; [|done]. split; try done. split; [apply Hv|].
  destruct (co_self _ Hv) as (q&Hq&E). cbn in Hq, E. unfold peers_of in Hq.
  apply list_elem_of_In, in_map_iff in Hq as (p&<-&Hp). cbn in E. rewrite <-E. by apply list_elem_of_In.
Qed.

(** Servers that are set up from one list of peers. *)
Definition set_up (ps : list text) (nodes : gmap text (RaftNode L Sb document ApplyResult)) : Prop :=
  forall a r, nodes !! a = Some r ->
    exists cfg sm logs stable, made cfg sm logs stable r /\ BindAddr cfg = a /\ CPeers cfg = ps.

Lemma set_up_cluster ps nodes : NoDup ps -> set_up ps nodes -> cluster (peers_of ps) nodes.
Proof.
  intros Hps Hn. split; [by rewrite peers_of_ids|by rewrite peers_of_addresses|].
  intros a r Ha. destruct (Hn a r Ha) as (cfg&sm&logs&stable&[Hm Ht]&<-&<-).
  destruct (NewRaftNode_started _ _ _ _ _ Hm) as [[Hc [Hne Hin] [Hst _] _ _ _ _] _]. split; [done| | | |].
  - by rewrite Hc.
  - by rewrite Hc.
  - exists (mkPeer (BindAddr cfg) (BindAddr cfg)). rewrite Hc. split; [|done].
    apply list_elem_of_In, in_map_iff. exists (BindAddr cfg). split; [done|]. by apply list_elem_of_In.
  - by destruct Ht.
Qed.

End made.

(** Servers that are set up for the first time: one list of peers, the document [init],
    and nothing in the log. *)
Definition set_up_first {L Sb} `{LogStoreSpec L} `{StableStore Sb} `{EC : EntryCodec} (ps : list text) (init : text)
    (nodes : gmap text (RaftNode L Sb document ApplyResult)) : Prop :=
  forall a r, nodes !! a = Some r ->
    exists cfg logs stable, made cfg (NewDocumentStateMachine init) logs stable r /\
      BindAddr cfg = a /\ CPeers cfg = ps /\ repr logs [].

Lemma set_up_first_start {L Sb} `{LogStoreSpec L} `{StableStore Sb} `{EC : EntryCodec} (ps : list text) (init : text)
    (nodes : gmap text (RaftNode L Sb document ApplyResult)) : NoDup ps -> set_up_first ps init nodes ->
  cluster (peers_of ps) nodes /\ fresh_servers nodes /\ uncommitted nodes /\ no_clients nodes /\
  map_Forall (fun _ => starts_with init) nodes.
Proof.
  intros Hps Hn. split.
  { apply set_up_cluster; [done|]. intros a r Ha. destruct (Hn a r Ha) as (cfg&logs&stable&?&?&?&_).
    by exists cfg, (NewDocumentStateMachine init), logs, stable. }
  assert (forall a r, nodes !! a = Some r -> repr (logStore r) [] /\ peers r = ∅ /\
    (commitIndex r = 0 /\ lastApplied r = 0) /\ applyCh r = [] /\ starts_with init r) as Hall.
  { intros a r Ha. destruct (Hn a r Ha) as (cfg&logs&stable&[Hm _]&_&_&Hr).
    destruct (NewRaftNode_started _ _ _ _ _ Hm) as [[Hc _ [_ ?] [El _] _ Hf Hp Hq] _].
    unfold starts_with. by rewrite El, Hc, Hf. }
  split_and!; intros a r Ha; by destruct (Hall a r Ha) as (?&?&?&?&?).
Qed.

(** ** [SetupRaft] *)

Section starting.
  Context {D : Type} `{BoltLaws D} `{EC : EntryCodec}.
  Implicit Types (sys : system D) (cfg : RaftConfig) (sm : DocumentStateMachine).

Lemma stored_term_range (d : D) k n : GetUint64 d k = Ret n -> uint_fits n.
Proof.
  cbn. unfold bolt_GetUint64. intros (v&_&Hv)%bind_ret.
  destruct (Z.eqb_spec (zlen v) 0); [injection Hv as <-; split; [done|vm_compute; discriminate]|].
  destruct (Z.eqb_spec (zlen v) 8) as [E8|]; cbn [negb] in Hv; [|done].
  unfold bytesToUint64 in Hv. destruct (Z.ltb_spec (zlen v) 8); [lia|]. injection Hv as <-.
  pose proof (be_decode_range (take 8 v)) as Hr.
  assert (zlen (take 8 v) = 8) as Hz by (unfold zlen in *; rewrite length_take; lia).
  rewrite Hz in Hr. change (256 ^ 8) with (max_uint + 1) in Hr. unfold uint_fits. lia.
Qed.

Lemma setup_made sys cfg sm res n :
  SetupRaft sys cfg sm = (res, Ret n) ->
  made cfg sm (lv_LogStore n) (lv_LogStore n) (lv_Raft n) /\ res = mkResources true true /\ lv_FSM n = sm.
Proof.
  unfold SetupRaft. destruct (os_mkdir sys); [done|]. destruct (open_store sys) as [d| | |]; try done.
  destruct (NewTCPTransport _ _) as [t| | |]; try done.
  destruct (NewRaftNode _) as [r| | |] eqn:E; try done.
  - intros [= <- <-]. cbn. split; [|done]. split; [done|].
    pose proof (NewRaftNode_started _ _ _ _ _ E) as [Hs _]. eapply stored_term_range, (sd_saved _ _ _ _ _ Hs).
  - by destruct (tcp_Shutdown t).
Qed.

Lemma setup_started sys cfg sm res n :
  SetupRaft sys cfg sm = (res, Ret n) ->
  started cfg sm (lv_LogStore n) (lv_LogStore n) (lv_Raft n) /\
  config_ok (raft_config cfg (lv_LogStore n) (lv_LogStore n) sm) /\
  res = mkResources true true /\ lv_FSM n = sm.
Proof. intros ([Hm _]&Hr&Hf)%setup_made. by destruct (NewRaftNode_started _ _ _ _ _ Hm). Qed.

Lemma setup_store sys cfg sm res n : SetupRaft sys cfg sm = (res, Ret n) -> open_store sys = Ret (lv_LogStore n).
Proof.
  unfold SetupRaft. destruct (os_mkdir sys); [done|]. destruct (open_store sys) as [d| | |]; try done.
  destruct (NewTCPTransport _ _) as [t| | |]; try done. destruct (NewRaftNode _) as [r| | |]; try done.
  - by intros [= _ <-].
  - by destruct (tcp_Shutdown t).
Qed.

(** The servers that [SetupRaft] has set up, on stores that hold nothing yet and keep the
    promises of a log. *)
Lemma setup_first (ps : list text) (init : text) `{!LogStoreSpec D} (nodes : gmap text (RaftNode D D document ApplyResult)) :
  (forall a r, nodes !! a = Some r -> exists sys cfg res n,
     SetupRaft sys cfg (NewDocumentStateMachine init) = (res, Ret n) /\ lv_Raft n = r /\
     BindAddr cfg = a /\ CPeers cfg = ps /\ repr (lv_LogStore n) []) ->
  set_up_first ps init nodes.
Proof.
  intros Hn a r Ha. destruct (Hn a r Ha) as (sys&cfg&res&n&(Hm&_)%setup_made&<-&Hb&Hp&Hr).
  by exists cfg, (lv_LogStore n), (lv_LogStore n).
Qed.

End starting.

Section outcomes.
  Context {D : Type} `{BoltLaws D} `{EC : EntryCodec}.
  Implicit Types (sys : system D) (cfg : RaftConfig) (sm : DocumentStateMachine).

(** Reading the stable store fails or returns. *)
Definition returns {A} (m : outcome string A) : Prop := (exists e, m = Err e) \/ (exists a, m = Ret a).

Lemma Get_returns (d : D) k : returns (Get d k).
Proof. cbn. unfold bolt_Get, View. destruct (bolt_begin d); [left|right]; by eexists. Qed.

Lemma GetUint64_returns (d : D) k : returns (GetUint64 d k).
Proof.
  cbn. unfold bolt_GetUint64. destruct (Get_returns d k) as [[e E]|[v E]]; cbn in E; rewrite E;
    cbn [mbind outcome_bind]; [left; by eexists|].
  destruct (zlen v =? 0); [right; by eexists|].
  destruct (Z.eqb_spec (zlen v) 8) as [E8|]; [|left; by eexists]. cbn [negb]. unfold bytesToUint64.
  rewrite E8. right. by eexists.
Qed.

Lemma NewRaftNode_returns cfg (d : D) sm :
  returns (NewRaftNode (R := ApplyResult) (raft_config cfg d d sm)).
Proof.
  unfold NewRaftNode.
  assert (returns (validate (raft_config cfg d d sm))) as [[e ->]|[u ->]].
  { unfold validate. repeat case_match; first [left; by eexists|right; by eexists]. }
  { left. by eexists. }
  cbn [mbind outcome_bind]. cbn [raft_config CLogStore CStableStore CFSM]. unfold restoreState.
  cbn [stableStore]. destruct (GetUint64_returns d KeyCurrentTerm) as [[e ->]|[t ->]]; [left; by eexists|].
  cbn [mbind outcome_bind].
  destruct (Get_returns d KeyVotedFor) as [[e ->]|[v ->]]; [left|right]; by eexists.
Qed.

Lemma open_store_returns sys : returns (open_store sys).
Proof.
  unfold open_store. destruct (os_open sys) as [e|d]; [left; by eexists|].
  destruct (NewBoltStore_keeps d) as [[e ->]|(d'&->&_)]; [left|right]; by eexists.
Qed.

Lemma setup_cases sys cfg sm :
  (exists e, SetupRaft sys cfg sm = (mkResources false false, Err e)) \/
  (exists n, SetupRaft sys cfg sm = (mkResources true true, Ret n) /\
     lv_Transport n = mkTCP (BindAddr cfg) [] false false true).
Proof.
  unfold SetupRaft. destruct (os_mkdir sys); [left; by eexists|].
  destruct (open_store_returns sys) as [[e ->]|[d ->]]; [left; by eexists|].
  unfold NewTCPTransport. destruct (os_listen sys); [left; by eexists|].
  destruct (NewRaftNode_returns cfg d sm) as [[e ->]|[r ->]]; [left|right]; by eexists.
Qed.

End outcomes.

(** ** The configuration *)

Definition clean_file (fc : FileConfig) : Prop :=
  Forall valid_utf8 ([fc_NodeID fc; fc_GRPCAddr fc; fc_WSAddr fc; fc_DataDir fc; fc_ElectionMin fc;
    fc_ElectionMax fc; fc_Heartbeat fc] ++ fc_Peers fc).

Lemma string_lawful : lawful string_codec 0 (fun _ => True) sanitize.
Proof. split; [intros s d _ _; apply string_renders|intros s _; apply string_dec]. Qed.

Lemma sanitize_all ss : Forall valid_utf8 ss -> map sanitize ss = ss.
Proof. induction 1 as [|s ss Hs _ IH]; [done|]. cbn. by rewrite (sanitize_valid _ Hs), IH. Qed.

Lemma file_lawful : lawful file_codec 2 clean_file id.
Proof.
  destruct (slice_lawful string_codec _ _ _ string_lawful) as [Hr Hd]. split.
  - intros c [|d] _ Hle; [lia|]. apply struct_renders. field_renders d.
    apply Hr; [by apply Forall_true|lia].
  - intros c Hc. unfold clean_file in Hc. apply Forall_app in Hc as [Hc Hp].
    repeat (apply Forall_cons in Hc as [? Hc]). unfold file_codec.
    fields ltac:(by apply Hd, Forall_true). rewrite !sanitize_valid, sanitize_all by done. by destruct c.
Qed.

Lemma decode_file fc rest : clean_file fc -> Decode file_codec (Marshal file_codec fc ++ rest) = Some fc.
Proof.
  intros Hc. destruct file_lawful as [Hf Hd]. unfold Decode, Marshal.
  specialize (Hf fc max_depth Hc (max_depth_le 2 ltac:(lia))). specialize (Hd fc Hc).
  assert (exists ms, enc file_codec fc = JObject ms) as [ms E] by (eexists; reflexivity).
  rewrite E in *. rewrite (value_object max_depth _ _ Hf).
  by rewrite Hd.
Qed.

(** ** The peers of the flag *)

Lemma split_join sep ts :
  ts <> [] -> Forall (fun t => sep ∉ t) ts -> split sep (join sep ts) = ts.
Proof.
  assert (forall t s, sep ∉ t -> split sep (t ++ sep :: s) = t :: split sep s) as Hs.
  { induction t as [|b t IH]; intros s Ht; cbn [app split].
    - by rewrite (Byte.byte_dec_lb eq_refl).
    - apply not_elem_of_cons in Ht as [Hb Ht]. destruct (Byte.eqb b sep) eqn:E.
      + apply Byte.byte_dec_bl in E. by destruct Hb.
      + by rewrite IH. }
  assert (forall t, sep ∉ t -> split sep t = [t]) as Hone.
  { induction t as [|b t IH]; intros Ht; [done|]. cbn [split]. apply not_elem_of_cons in Ht as [Hb Ht].
    destruct (Byte.eqb b sep) eqn:E; [apply Byte.byte_dec_bl in E; by destruct Hb|]. by rewrite IH. }
  induction ts as [|t ts IH]; intros Hne Hf; [done|]. apply Forall_cons in Hf as [Ht Hf].
  destruct ts as [|t2 ts]; [by apply Hone|]. cbn [join]. rewrite Hs by done. f_equal. by apply IH.
Qed.

(** A text between bytes that are neither spaces nor outside of ASCII. *)
Definition plain_byte (b : byte) : Prop := 32 < byte_val b < 128.
Definition tight (s : text) : Prop :=
  exists b m c, (s = b :: m ++ [c] \/ s = [b] /\ b = c) /\ plain_byte b /\ plain_byte c.

Lemma plain_not_white b : plain_byte b -> is_white (byte_val b) = false.
Proof. unfold plain_byte, is_white. intros Hb. repeat rewrite orb_false_iff. repeat split; lia. Qed.

Lemma trim_space s : tight s -> TrimSpace (x20 :: s) = s.
Proof.
  intros (b&m&c&Hs&Hb&Hc).
  assert (exists t, s = b :: t) as [t Et] by (destruct Hs as [->|[-> _]]; by eexists).
  assert (exists t, s = t ++ [c]) as [u Eu].
  { destruct Hs as [->|[-> ->]]; [by exists (b :: m)|by exists []]. }
  assert (trim_left (length (x20 :: s)) (x20 :: s) = s) as Hl.
  { cbn [length trim_left]. rewrite decode_rune_ascii by (vm_compute; reflexivity).
    change (is_white (byte_val x20)) with true. cbv iota. change (drop 1 (x20 :: s)) with s.
    destruct s as [|b' s']; [done|]. injection Et as -> ->. cbn [length trim_left].
    rewrite decode_rune_ascii by (unfold plain_byte in Hb; lia). by rewrite plain_not_white. }
  unfold TrimSpace. rewrite Hl. destruct (length s) as [|n] eqn:El; [by rewrite Et in El|].
  cbn [trim_right]. destruct s as [|b' s'] eqn:Es; [done|]. rewrite <-Es in *.
  unfold decode_last_rune. rewrite El.
  assert (nth n s x00 = c) as ->.
  { rewrite Eu in El |- *. rewrite length_app in El. cbn in El. rewrite app_nth2 by lia.
    by replace (n - length u)%nat with 0%nat by lia. }
  rewrite (proj2 (Z.ltb_lt (byte_val c) 0x80)) by (unfold plain_byte in Hc; lia). cbv beta iota zeta.
  by rewrite plain_not_white.
Qed.

Lemma trim_spaces ps : Forall tight ps -> map TrimSpace (map (cons x20) ps) = ps.
Proof. induction 1 as [|q qs Hq _ IH]; [done|]. cbn [map]. by rewrite trim_space, IH. Qed.

Lemma Shutdown_follower {L Sb F R} `{LogStore L} `{StableStore Sb} (r : RaftNode L Sb F R) :
  state r = Follower -> IsLeader (Shutdown r) = false.
Proof.
  intros Hs. unfold IsLeader, State, Shutdown. apply bool_decide_eq_false.
  destruct (shutdownCh r); [by rewrite Hs|].
  pose proof (fail_all_role (set_state Follower (set_shutdownCh true r)) ErrShutdown) as (Es&_)%role_proj.
  by rewrite Es.
Qed.

(** ** The initial text *)

Lemma bootstrap_changeset s : zlen s <= max_int ->
  MakeInsert 0 0 s = mkChangeset 0 (zlen s) [insert_op s].
Proof.
  intros Hl. pose proof (zlen_nonneg s). unfold MakeInsert. cbn.
  by rewrite wrap64_small by (unfold max_int in *; lia).
Qed.

Lemma bootstrap_inserted s : zlen s <= max_int -> inserted (bootstrap_entry s) = zlen s.
Proof.
  intros Hl. unfold inserted. cbn [EChangeset bootstrap_entry]. rewrite bootstrap_changeset by lia.
  cbn. change (Z.of_nat (length s)) with (zlen s). lia.
Qed.

Lemma bootstrap_applied s : s <> [] -> 2 * zlen s <= max_int ->
  apply_entry (NewDocumentStateMachine []) (bootstrap_entry s)
    = Ret (commit (NewDocumentStateMachine []) (bootstrap_entry s) (MakeInsert 0 0 s) s).
Proof.
  intros Hne Hm. pose proof (zlen_nonneg s).
  assert (wf (MakeInsert 0 0 s)) as Hwf by (apply MakeInsert_wf; [lia|exact Hne|lia]).
  pose proof (bootstrap_inserted s) as Hins. specialize (Hins ltac:(lia)).
  destruct (apply_entry_accepts [] 0 (NewDocumentStateMachine []) (bootstrap_entry s) [])
    as (C&_&HC&_&Ha).
  - apply (machine_ok_new []).
  - exact Hwf.
  - cbn. lia.
  - rewrite Hins. lia.
  - vm_compute. reflexivity.
  - intros (?&Hs&_). cbn in Hs. by rewrite lookup_empty in Hs.
  - reflexivity.
  - reflexivity.
  - cbn in HC. injection HC as <-. rewrite Ha. f_equal.
    enough (exec (Ops (MakeInsert 0 0 s)) [] = s) as E by (cbn [EChangeset bootstrap_entry headText
      NewDocumentStateMachine]; by rewrite E).
    rewrite (MakeInsert_exec 0 0 s []); [apply app_nil_r|lia|vm_compute; discriminate|reflexivity].
Qed.

Lemma bootstrap_valid s : valid_utf8 s -> zlen s <= max_int ->
  entry_fits (bootstrap_entry s) /\ entry_canon (bootstrap_entry s) = bootstrap_entry s.
Proof.
  intros Hs Hl. pose proof (zlen_nonneg s).
  assert (EChangeset (bootstrap_entry s) = mkChangeset 0 (zlen s) [insert_op s]) as Hc.
  { cbn. unfold MakeInsert. cbn. by rewrite wrap64_small by (unfold max_int in *; lia). }
  split.
  - split; [split; vm_compute; discriminate..|]. rewrite Hc. split; cbn.
    + split; vm_compute; discriminate.
    + unfold int_fits. lia.
    + constructor; [|constructor]. split; vm_compute; discriminate.
  - apply entry_canon_valid; rewrite ?Hc.
    + constructor; [vm_compute; reflexivity|constructor].
    + split; [vm_compute; reflexivity|]. rewrite Hc. constructor; [|constructor].
      split; [vm_compute; reflexivity|done].
Qed.

(** * Properties *)

(** Starting a server. [SetupRaft] never panics. It fails with nothing left open; or
    the server is up, on the address that is one of its peers, as a follower with the
    term and vote that its store holds, an unapplied log and the given document; a
    shutdown then closes all of it. *)
Theorem SetupRaft_spec {D} `{BoltLaws D} `{EC : EntryCodec} (sys : system D) cfg sm :
  (exists e, SetupRaft sys cfg sm = (mkResources false false, Err e)) \/
  (exists n, SetupRaft sys cfg sm = (mkResources true true, Ret n) /\
     started cfg sm (lv_LogStore n) (lv_LogStore n) (lv_Raft n) /\
     config_ok (raft_config cfg (lv_LogStore n) (lv_LogStore n) sm) /\
     exists n', live_Shutdown n = Ret (n', mkResources false false) /\ live_IsLeader n' = false).
Proof.
  destruct (setup_cases sys cfg sm) as [He|(n&Hs&Ht)]; [by left|]. right. exists n. split; [done|].
  apply setup_started in Hs as (Hst&Hok&_&_). split; [done|]. split; [done|].
  unfold live_Shutdown. rewrite Ht. eexists. split; [reflexivity|].
  apply Shutdown_follower. by destruct (sd_state _ _ _ _ _ Hst).
Qed.

(** The servers that the program starts elect at most one leader a term. Servers that are
    set up from one list of distinct addresses, over stores that keep their promises and
    whatever these hold, never have two leaders of one term: in every interleaving of their goroutines, of the
    transport and of crashes, provided that no term reaches 2^64 - 1, a server that crashes
    finds on disk its term and vote or what it was writing, and no answer to a request of
    an earlier leadership brings a newer term to a node that counts votes. *)
Theorem servers_elect_safely {L Sb} `{LogStoreSpec L} `{StableStoreSpec Sb} `{EC : EntryCodec} (ps : list text)
    (nodes : gmap text (RaftNode L Sb document ApplyResult)) ls n a b p q :
  NoDup ps -> set_up ps nodes -> calm_run (boot nodes) ls -> nsteps (boot nodes) ls = Some n ->
  procs n !! a = Some p -> procs n !! b = Some q ->
  IsLeader (node p) = true -> IsLeader (node q) = true ->
  CurrentTerm (node p) = CurrentTerm (node q) -> a = b.
Proof.
  intros Hps Hn Hc Hr Ha Hb Hp%bool_decide_eq_true Hq%bool_decide_eq_true Ht.
  apply (leaders_unique (peers_of ps) n a b p q); try done; [by rewrite peers_of_ids|].
  apply (cluster_run_ok (peers_of ps) nodes ls); [by apply set_up_cluster|done|done].
Qed.

(** C2: the servers that the program starts agree on the document. Take servers that are set
    up for the first time: nodes that [NewRaftNode] makes of the configuration of
    [SetupRaft], from one list of distinct addresses and with one initial text, over any
    stores that keep the promises of the interfaces LogStore and StableStore and hold no
    entry yet ([setup_first]: [SetupRaft] itself gives such nodes when BoltStore keeps
    them). In every interleaving of their goroutines, of the transport and of crashes that
    is led, the revision log of a server that has applied no more entries than another,
    then or later, is a prefix of the other's; each text is what its revision log makes of
    the initial text; applying the remaining changesets to the first one's text gives the
    second one's; and equally many entries give one document. *)
Theorem servers_agree {L Sb} `{LogStoreSpec L} `{StableStoreSpec Sb} `{EC : EntryCodec} (ps : list text) (init : text)
    (nodes : gmap text (RaftNode L Sb document ApplyResult)) ls ls' n n' a b p q :
  NoDup ps -> set_up_first ps init nodes -> zlen (ls ++ ls') < 2 ^ 62 -> led_run (boot nodes) (ls ++ ls') ->
  nsteps (boot nodes) ls = Some n -> nsteps n ls' = Some n' ->
  procs n !! a = Some p -> procs n' !! b = Some q -> lastApplied (node p) <= lastApplied (node q) ->
  exists more, revisionLog (doc_fsm (fsm (node q))) = revisionLog (doc_fsm (fsm (node p))) ++ more /\
    replay init (changesets (revisionLog (doc_fsm (fsm (node p))))) = Ret (HeadText (doc_fsm (fsm (node p)))) /\
    replay (HeadText (doc_fsm (fsm (node p)))) (changesets more) = Ret (HeadText (doc_fsm (fsm (node q)))) /\
    (lastApplied (node p) = lastApplied (node q) -> fsm (node p) = fsm (node q)).
Proof.
  intros Hps Hn Hz Hl Hs Hs' Ha Hb Hle. destruct (set_up_first_start ps init nodes Hps Hn) as (Hc&Hf&Hu&_&Hd).
  by apply (cluster_documents init (peers_of ps) nodes ls ls' n n' a b p q).
Qed.

#[local] Existing Instance json_codec.

(** Three servers that are started for the first time. *)
Definition demo_addresses : list text := [bytes_of "h1"; bytes_of "h2"; bytes_of "h3"].
Definition demo_system : system MapDB := mkSystem None (inr ∅) None.
Definition demo_raft (a : text) : RaftConfig := mkRaftConfig (bytes_of "node") a (bytes_of "data") demo_addresses false [] 0 0 0.
Definition demo_sm : DocumentStateMachine := NewDocumentStateMachine [].

Definition demo_live (a : text) : RaftNode MapDB MapDB document ApplyResult :=
  match SetupRaft demo_system (demo_raft a) demo_sm with
  | (_, Ret n) => lv_Raft n
  | _ => mkNode (raft_config (demo_raft a) ∅ ∅ demo_sm) 0 [] ∅ ∅ Follower 0 0 ∅ [] [] (mkDoc demo_sm []) ∅ ∅ [] false false
  end.

Definition demo_servers : gmap text (RaftNode MapDB MapDB document ApplyResult) :=
  {[ bytes_of "h1" := demo_live (bytes_of "h1"); bytes_of "h2" := demo_live (bytes_of "h2");
     bytes_of "h3" := demo_live (bytes_of "h3") ]}.

Lemma demo_set_up_one a : a ∈ demo_addresses ->
  exists sys cfg res n, SetupRaft sys cfg demo_sm = (res, Ret n) /\ lv_Raft n = demo_live a /\
    BindAddr cfg = a /\ CPeers cfg = demo_addresses /\ repr (lv_LogStore n) [].
Proof.
  intros Ha. exists demo_system, (demo_raft a), (mkResources true true).
  assert (exists n, SetupRaft demo_system (demo_raft a) demo_sm = (mkResources true true, Ret n)) as [n Hn].
  { assert (store_open (fst (SetupRaft demo_system (demo_raft a) demo_sm)) = true) as Hup.
    { unfold demo_addresses in Ha. repeat (apply elem_of_cons in Ha as [->|Ha]; [vm_compute; reflexivity|]).
      by apply elem_of_nil in Ha. }
    destruct (setup_cases demo_system (demo_raft a) demo_sm) as [[e E]|(n&E&_)]; [by rewrite E in Hup|].
    by exists n. }
  exists n. split_and!; try done; [unfold demo_live; by rewrite Hn|].
  assert (lv_LogStore n = ret_of ∅ (NewBoltStore (∅ : MapDB))) as ->; [|exact demo_new_repr].
  apply setup_store in Hn. unfold open_store in Hn. cbn [os_open demo_system] in Hn. by rewrite Hn.
Qed.

Lemma demo_set_up_first : set_up_first demo_addresses [] demo_servers.
Proof.
  apply setup_first. intros a r Hr. unfold demo_servers in Hr.
  repeat (apply lookup_insert_Some in Hr as [[<- <-]|[_ Hr]];
    [apply demo_set_up_one; unfold demo_addresses; set_solver|]).
  apply lookup_singleton_Some in Hr as [<- <-]. apply demo_set_up_one. unfold demo_addresses. set_solver.
Qed.

Lemma demo_set_up : set_up demo_addresses demo_servers.
Proof.
  intros a r Hr. destruct (demo_set_up_first a r Hr) as (cfg&logs&stable&?&?&?&_).
  by exists cfg, demo_sm, logs, stable.
Qed.

Definition demo_running : network MapDB MapDB document ApplyResult :=
  default (boot demo_servers) (nsteps (boot demo_servers) demo_race).

Definition demo_first : proc MapDB MapDB document ApplyResult :=
  default (start (demo_live (bytes_of "h1"))) (procs demo_running !! bytes_of "h1").

Lemma servers_elect_safely_witness :
  (IsLeader (node demo_first) = true /\ CurrentTerm (node demo_first) = 1) /\
  forall b q, procs demo_running !! b = Some q -> IsLeader (node q) = true ->
    CurrentTerm (node q) = 1 -> b = bytes_of "h1".
Proof.
  assert (IsLeader (node demo_first) = true) as Hl by (vm_compute; reflexivity).
  assert (CurrentTerm (node demo_first) = 1) as Ht by (vm_compute; reflexivity).
  split; [by split|]. intros b q Hb Hq E.
  apply (servers_elect_safely demo_addresses demo_servers demo_race demo_running b (bytes_of "h1") q demo_first);
    [|exact demo_set_up| | |exact Hb| |exact Hq|exact Hl|congruence].
  - apply (bool_decide_unpack _). vm_compute. exact I.
  - apply calm_runb_calm. vm_compute. reflexivity.
  - apply default_eq. vm_compute. reflexivity.
  - apply default_eq. vm_compute. reflexivity.
Defined.

(** Alice's submission at h1, the leader: it is committed with h3 and applied at both; h3
    crashes before, with both entries in its store. *)
Definition alice_data : text := default [] (MarshalEntry alice_1).

Definition first_edit : list nlabel :=
  demo_race ++
  (NStep (bytes_of "h1") <$> [LMain; LMain; LMain; LMain; LSubmit alice_data Enqueued; LRequest; LMain]) ++
  main "h3" 1 ++ demo_exchange "h1" "h3" 0 ++ main "h3" 1 ++ demo_exchange "h1" "h3" 0 ++
  (NStep (bytes_of "h1") <$> [LApplyWake; LApplyNext]).

Definition first_follow : list nlabel :=
  NRestart (bytes_of "h3") [] :: main "h3" 2 ++ demo_exchange "h1" "h3" 0 ++
  (NStep (bytes_of "h3") <$> [LApplyWake; LApplyNext; LApplyNext]).

Definition edited : network MapDB MapDB document ApplyResult :=
  default (boot demo_servers) (nsteps (boot demo_servers) first_edit).
Definition followed : network MapDB MapDB document ApplyResult :=
  default (boot demo_servers) (nsteps edited first_follow).
Definition server_at (n : network MapDB MapDB document ApplyResult) (a : string) : proc MapDB MapDB document ApplyResult :=
  default (start (demo_live (bytes_of "h1"))) (procs n !! bytes_of a).

Example followed_texts :
  ((fun p => (lastApplied (node p), HeadText (doc_fsm (fsm (node p))))) <$>
     [server_at edited "h1"; server_at followed "h3"]) = [(1, []); (2, bytes_of "hi")].
Proof. vm_compute. reflexivity. Qed.

Lemma servers_agree_witness :
  exists more, revisionLog (doc_fsm (fsm (node (server_at followed "h3"))))
      = revisionLog (doc_fsm (fsm (node (server_at edited "h1")))) ++ more /\
    replay [] (changesets (revisionLog (doc_fsm (fsm (node (server_at edited "h1"))))))
      = Ret (HeadText (doc_fsm (fsm (node (server_at edited "h1"))))) /\
    replay (HeadText (doc_fsm (fsm (node (server_at edited "h1"))))) (changesets more)
      = Ret (HeadText (doc_fsm (fsm (node (server_at followed "h3"))))) /\
    (lastApplied (node (server_at edited "h1")) = lastApplied (node (server_at followed "h3")) ->
     fsm (node (server_at edited "h1")) = fsm (node (server_at followed "h3"))).
Proof.
  apply (servers_agree demo_addresses [] demo_servers first_edit first_follow edited followed
    (bytes_of "h1") (bytes_of "h3"));
    [|exact demo_set_up_first|by_compute| | | | | |by_compute].
  - apply (bool_decide_unpack _). vm_compute. exact I.
  - apply led_runb_led. vm_compute. reflexivity.
  - apply default_eq. vm_compute. reflexivity.
  - apply default_eq. vm_compute. reflexivity.
  - apply default_eq. vm_compute. reflexivity.
  - apply default_eq. vm_compute. reflexivity.
Defined.

(** The configuration that a server runs with. What the JSON file says wins over the
    flags, whatever the file holds after it; without a file the peers are those of the
    comma-separated flag, with the spaces around them removed. *)
Theorem main_config_correct (fl : Flags) :
  (forall read fc rest n1 n2 n3,
     configPath fl <> [] -> read (configPath fl) = inr (Marshal file_codec fc ++ rest) ->
     clean_file fc -> fc_NodeID fc <> [] -> fc_GRPCAddr fc <> [] -> fc_DataDir fc <> [] -> fc_Peers fc <> [] ->
     fc_ElectionMin fc = format_uint n1 ++ bytes_of "ms" -> 0 < n1 -> n1 * Millisecond <= max_int ->
     fc_ElectionMax fc = format_uint n2 ++ bytes_of "ms" -> 0 < n2 -> n2 * Millisecond <= max_int ->
     fc_Heartbeat fc = format_uint n3 ++ bytes_of "ms" -> 0 < n3 -> n3 * Millisecond <= max_int ->
     exists fl', main_config read fl = Ret (fl',
       mkRaftConfig (fc_NodeID fc) (fc_GRPCAddr fc) (fc_DataDir fc) (fc_Peers fc)
         (fc_Bootstrap fc || bootstrap fl) [] (n1 * Millisecond) (n2 * Millisecond) (n3 * Millisecond))) /\
  (forall read ps,
     configPath fl = [] -> ps <> [] -> Forall (fun p => tight p /\ x2c ∉ p) ps ->
     peersFlag fl = join x2c (map (cons x20) ps) ->
     main_config read fl = Ret (fl, mkRaftConfig (nodeID fl) (grpcAddr fl) (dataDir fl) ps (bootstrap fl) []
       (electionMin fl) (electionMax fl) (heartbeat fl))).
Proof.
  assert ((bytes_of "ms", Millisecond) ∈ units) as Hms by (unfold units; set_solver).
  split.
  - intros read fc rest n1 n2 n3 Hp Hread Hc H1 H2 H3 H4 D1 P1 M1 D2 P2 M2 D3 P3 M3.
    exists (merge_config fc fl). unfold main_config, load_config.
    rewrite bool_decide_false, Hread, decode_file by done. cbn [mbind outcome_bind].
    unfold parse_peers. destruct (Z.eqb_spec (zlen (fc_Peers fc)) 0) as [Hz%zlen_zero|_]; [done|].
    unfold merge_config, override, override_duration. cbn [nodeID grpcAddr dataDir bootstrap electionMin electionMax heartbeat].
    assert (forall n, format_uint n ++ bytes_of "ms" <> []) as Hne by (intros n [_ ?]%app_eq_nil; done).
    rewrite D1, D2, D3, !(parse_duration_units _ _ _ Hms) by done.
    rewrite (bool_decide_false _ H1), (bool_decide_false _ H2), (bool_decide_false _ H3),
      !(bool_decide_false _ (Hne _)). by destruct (fc_Bootstrap fc).
  - intros read ps Hp Hne Hps Hf. unfold main_config, load_config. rewrite Hp, bool_decide_true by done.
    cbn [mbind outcome_bind]. unfold parse_peers. cbn [zlen length].
    change (zlen (@nil text) =? 0) with true. cbv iota. rewrite Hf, split_join.
    + rewrite trim_spaces; [done|]. eapply Forall_impl; [exact Hps|]. by intros q [? _].
    + by destruct ps.
    + apply Forall_map. eapply Forall_impl; [exact Hps|]. intros q [_ Hq].
      apply not_elem_of_cons. by split.
Qed.

Definition demo_file : FileConfig :=
  mkFileConfig (bytes_of "node-2") (bytes_of "10.0.0.2:12000") [] (bytes_of "data") demo_addresses false
    (bytes_of "1000ms") (bytes_of "2000ms") (bytes_of "150ms").

Definition demo_flags (path : string) (peers : text) : Flags :=
  mkFlags (bytes_of path) (bytes_of "node-1") (bytes_of "h1") (bytes_of "localhost:8080") (bytes_of "data")
    peers false [] 0 0 0.

Lemma main_config_correct_witness :
  (exists fl', main_config (fun _ => inr (Marshal file_codec demo_file ++ [x0a])) (demo_flags "config.json" []) =
    Ret (fl', mkRaftConfig (bytes_of "node-2") (bytes_of "10.0.0.2:12000") (bytes_of "data") demo_addresses
      false [] (1000 * Millisecond) (2000 * Millisecond) (150 * Millisecond))) /\
  main_config (fun _ => inl "no file"%string) (demo_flags "" (bytes_of " h1, h2, h3")) =
    Ret (demo_flags "" (bytes_of " h1, h2, h3"),
      mkRaftConfig (bytes_of "node-1") (bytes_of "h1") (bytes_of "data") demo_addresses false [] 0 0 0).
Proof.
  split.
  - destruct (proj1 (main_config_correct (demo_flags "config.json" []))
      (fun _ => inr (Marshal file_codec demo_file ++ [x0a])) demo_file [x0a] 1000 2000 150) as [fl' E];
      [vm_compute; discriminate|reflexivity|apply (bool_decide_unpack _); vm_compute; exact I
      |vm_compute; discriminate..|vm_compute; reflexivity|lia|vm_compute; discriminate
      |vm_compute; reflexivity|lia|vm_compute; discriminate|vm_compute; reflexivity|lia
      |vm_compute; discriminate|].
    exists fl'. exact E.
  - apply (proj2 (main_config_correct (demo_flags "" (bytes_of " h1, h2, h3")))
      (fun _ => inl "no file"%string) demo_addresses); try (vm_compute; discriminate); try (vm_compute; reflexivity).
    repeat (constructor; [split; [|by apply (bool_decide_unpack _); vm_compute]|]); [..|constructor].
    all: eexists _, [], _; (split; [left; reflexivity|split; split; vm_compute; reflexivity]).
Defined.

(** The initial text. A leader that was started with [-bootstrap] and a text proposes
    one entry; it sets an empty document to the text, as revision 1, and when the server
    is restarted with the same flags and proposes the entry again, at any later time, it
    is a duplicate and changes nothing. *)
Theorem initial_text {L Sb F R} `{LogStore L} `{StableStore Sb} `{FSM F R} (fl : Flags) (r : RaftNode L Sb F R) :
  bootstrap fl = true -> initText fl <> [] -> valid_utf8 (initText fl) -> 2 * zlen (initText fl) <= max_int ->
  IsLeader r = true ->
  exists data r' f a, propose_initial fl r Enqueued = Proposed r' f /\
    applyCh r' = applyCh r ++ [mkApplyRequest data f] /\
    Fsm.Apply (NewDocumentStateMachine []) data = Ret a /\
    HeadText (machine a) = initText fl /\ HeadRev (machine a) = 1 /\
    forall log fsm' rs, run (machine a) log = Ret (fsm', rs) ->
      exists dup, IsDuplicate dup = true /\ Fsm.Apply fsm' data = Ret (mkApplied fsm' (Some dup) [dup]).
Proof.
  intros Hb Hne Hv Hm Hl. pose proof (zlen_nonneg (initText fl)).
  destruct (bootstrap_valid _ Hv ltac:(lia)) as [Hf Hcan]. set (s := initText fl) in *.
  set (e := bootstrap_entry s) in *.
  assert (UnmarshalEntry (Marshal entry_codec e) = inr e) as Hu.
  { cbn [UnmarshalEntry json_codec].
    by rewrite (unmarshal_marshal _ _ _ _ _ entry_lawful), Hcan by (done || (apply max_depth_le; lia)). }
  pose proof (bootstrap_applied s Hne Hm) as Ha. fold e in Ha.
  assert (Fsm.Apply (NewDocumentStateMachine []) (Marshal entry_codec e)
    = Ret (commit (NewDocumentStateMachine []) e (MakeInsert 0 0 s) s)) as HA.
  { unfold Fsm.Apply. rewrite Hu. exact Ha. }
  assert (propose_initial fl r Enqueued = let '(r', f) := Leader.Apply r (Marshal entry_codec e) Enqueued in
    Proposed r' f) as Hp.
  { unfold propose_initial. rewrite Hb, Hl. fold s. rewrite bool_decide_false by exact Hne. reflexivity. }
  unfold Leader.Apply in Hp. unfold IsLeader, State in Hl. cbv zeta in Hp. cbn [state set_futures] in Hp.
  rewrite Hl in Hp. cbn [negb] in Hp.
  eexists _, _, _, _. split; [exact Hp|]. split; [reflexivity|]. split; [exact HA|].
  split; [reflexivity|]. split; [reflexivity|]. intros log fsm' rs Hr.
  assert (seen_upto fsm' (ClientID e) (SubmissionID e)) as Hs%is_seen_spec.
  { eapply seen_upto_run; [|exact Hr]. exists 1. split; [apply lookup_insert_eq|reflexivity]. }
  eexists. split; [|unfold Fsm.Apply; rewrite Hu; unfold apply_entry; rewrite Hs; reflexivity].
  reflexivity.
Qed.

Definition demo_boot_flags : Flags :=
  mkFlags [] (bytes_of "node-1") (bytes_of "h1") (bytes_of "localhost:8080") (bytes_of "data")
    (bytes_of "h1") true (encode_runes [0x48; 0xE9]) 0 0 0.

Lemma initial_text_witness :
  exists data r' f a, propose_initial demo_boot_flags (set_state Leader (demo_live (bytes_of "h1"))) Enqueued
      = Proposed r' f /\
    applyCh r' = applyCh (set_state Leader (demo_live (bytes_of "h1"))) ++ [mkApplyRequest data f] /\
    Fsm.Apply (NewDocumentStateMachine []) data = Ret a /\
    HeadText (machine a) = encode_runes [0x48; 0xE9] /\ HeadRev (machine a) = 1 /\
    forall log fsm' rs, run (machine a) log = Ret (fsm', rs) ->
      exists dup, IsDuplicate dup = true /\ Fsm.Apply fsm' data = Ret (mkApplied fsm' (Some dup) [dup]).
Proof.
  apply (initial_text demo_boot_flags (set_state Leader (demo_live (bytes_of "h1")))).
  - reflexivity.
  - vm_compute. discriminate.
  - vm_compute. reflexivity.
  - vm_compute. discriminate.
  - reflexivity.
Defined.
