(* ===== verification/Editor.v ===== *)
(** The whole editor: a cluster of servers, each a Raft node ([Machine]) with its document
    ([Document]) and its WebSocket server ([Server]), the messages between the nodes
    ([Network]), and clients that come, send and go. It is what [cmd/server/main.go] starts
    on every machine, together with what lies between the machines. A run of the editor is a
    run of the network underneath, in which the clients' proposals are its submissions. *)
From S2P Require Import Prelude Utf8 Changeset Apply Cursor Fsm Stores Future Config Node Election.
From S2P Require Import Replication Rpc Leader Machine Frame Restart Network ElectionSafety.
From S2P Require Import LogMatching LeaderCompleteness CommitSafety Entries Applied Json JsonRound Codec Bolt Transport.
From S2P Require Import Document Server Sessions Promises Wire Stdgo Setup.

(** * The editor *)

Inductive elabel : Type :=
| EClient (a : text) (l : slabel)   (* a step of the WebSocket server at [a] *)
| ENet (l : nlabel)                 (* a step of the nodes and the network *)
| EBootstrap (a : text) (initText : text) (c : submit_choice).
                                    (* the goroutine of [main] proposes the initial text *)

Section editor.
  Context {L Sb : Type} `{LogStore L} `{StableStore Sb} `{EC : EntryCodec} `{WC : WireCodec}.

(** The servers at their addresses, with what is under way between them ([network]). *)
Record editor : Type := mkEditor {
  sites : gmap text (server (L := L) (Sb := Sb));
  e_calls : list vote_call;
  e_appends : list append_call;
  e_ballots : list ballot;
  e_counted : list (text * Z * text)
}.

Definition net_of (e : editor) : network L Sb document ApplyResult :=
  mkNet (raft <$> sites e) (e_calls e) (e_appends e) (e_ballots e) (e_counted e).

(** The nodes and the network have gone on to [n]. *)
Definition with_net (n : network L Sb document ApplyResult) (e : editor) : editor :=
  mkEditor (map_imap (fun a s => (fun p => set_raft p s) <$> procs n !! a) (sites e))
    (calls n) (appends n) (ballots n) (counted n).

Definition set_site (a : text) (s : server (L := L) (Sb := Sb)) (e : editor) : editor :=
  mkEditor (<[a := s]> (sites e)) (e_calls e) (e_appends e) (e_ballots e) (e_counted e).

(** The connections of a process end with it. *)
Definition disconnect (l : nlabel) (e : editor) : editor :=
  match l with
  | NRestart a _ =>
      match sites e !! a with Some s => set_site a (NewNode (raft s)) e | None => e end
  | _ => e
  end.

(** The steps that a client stands behind. *)
Definition by_client (l : nlabel) : bool :=
  match l with NStep _ (LSubmit _ _ | LWait _) => true | _ => false end.

Definition client_step (e : editor) (a : text) (l : slabel) : option editor :=
  s ← sites e !! a;
  match l with
  | SRaft _ => None
  | _ => match sstep s l with Ret (Some s') => Some (set_site a s' e) | _ => None end
  end.

Definition net_step (e : editor) (l : nlabel) : option editor :=
  if by_client l then None
  else n ← nstep (net_of e) l; Some (with_net n (disconnect l e)).

(** The node led when the goroutine last looked; it may have lost its leadership since. *)
Definition bootstrap_step (e : editor) (a initText : text) (c : submit_choice) : option editor :=
  data ← MarshalEntry (bootstrap_entry initText);
  n ← nstep (net_of e) (NStep a (LSubmit data c));
  Some (with_net n e).

Definition estep (e : editor) (l : elabel) : option editor :=
  match l with
  | EClient a l => client_step e a l
  | ENet l => net_step e l
  | EBootstrap a initText c => bootstrap_step e a initText c
  end.

Fixpoint esteps (e : editor) (ls : list elabel) : option editor :=
  match ls with
  | [] => Some e
  | l :: ls' => match estep e l with Some e' => esteps e' ls' | None => None end
  end.

Definition open_editor (nodes : gmap text (RaftNode L Sb document ApplyResult)) : editor :=
  mkEditor ((fun r => NewNode (start r)) <$> nodes) [] [] [] [].

(** ** The network underneath

    What a step of the editor is to the network: a proposal of a client, a future that it
    waits for, a step of the network, or nothing. *)
Definition client_label (s : server (L := L) (Sb := Sb)) (l : slabel) : list label :=
  match l with
  | SPropose k c =>
      match at_ <$> conns s !! k with Some (Proposing _ data) => [LSubmit data c] | _ => [] end
  | SPump k => match at_ <$> conns s !! k with Some (Waiting _ f) => [LWait f] | _ => [] end
  | _ => []
  end.

Definition net_labels (e : editor) (l : elabel) : list nlabel :=
  match l with
  | EClient a l => match sites e !! a with Some s => NStep a <$> client_label s l | None => [] end
  | ENet l => [l]
  | EBootstrap a initText c =>
      match MarshalEntry (bootstrap_entry initText) with Some data => [NStep a (LSubmit data c)] | None => [] end
  end.

Fixpoint net_run (e : editor) (ls : list elabel) : list nlabel :=
  match ls with
  | [] => []
  | l :: ls' => net_labels e l ++ match estep e l with Some e' => net_run e' ls' | None => [] end
  end.

End editor.
Arguments editor : clear implicits.

(** * A run of the editor is a run of the network *)

Section runs.
  Context {L Sb : Type} `{LogStoreSpec L} `{StableStoreSpec Sb} `{EC : EntryCodec} `{WC : WireCodec}.
  Implicit Types e : editor L Sb.
  Implicit Types s : server (L := L) (Sb := Sb).
  Implicit Types n : network L Sb document ApplyResult.

Lemma net_of_site e a s : sites e !! a = Some s -> procs (net_of e) !! a = Some (raft s).
Proof. intros Ha. cbn. by rewrite lookup_fmap, Ha. Qed.

Lemma net_of_sites e a p : procs (net_of e) !! a = Some p -> exists s, sites e !! a = Some s /\ p = raft s.
Proof. cbn. rewrite lookup_fmap. destruct (sites e !! a) as [s|]; [|done]. intros [= <-]. by exists s. Qed.

(** The same servers, before and after. *)
Definition same_members n n' : Prop := forall a, is_Some (procs n' !! a) <-> is_Some (procs n !! a).

Lemma nstep_members n l n' : nstep n l = Some n' -> same_members n n'.
Proof.
  intros Hs a. destruct (nstep_moves n l n' Hs) as [Ep _ _ _|b p k p' [Hb _ Ep _ _ _ _]|b p s p' [_ Hb _ Ep _ _ _]];
    rewrite Ep; [done|..].
  all: destruct (decide (a = b)) as [->|Hne]; [rewrite lookup_insert_eq, Hb; split; by eexists
    |by rewrite lookup_insert_ne].
Qed.

Lemma net_of_with n e : same_members (net_of e) n -> net_of (with_net n e) = n.
Proof.
  intros Hd. unfold net_of, with_net. cbn. destruct n as [ps cs aps bs ct]. cbn in *. f_equal.
  apply map_eq. intros a. rewrite lookup_fmap, map_lookup_imap. specialize (Hd a). cbn in Hd.
  rewrite lookup_fmap in Hd. destruct (sites e !! a) as [s|]; cbn.
  - by destruct (ps !! a).
  - destruct (ps !! a); [|done]. by destruct (proj1 Hd (mk_is_Some _ _ eq_refl)).
Qed.

Lemma net_of_disconnect l e : net_of (disconnect l e) = net_of e.
Proof.
  unfold disconnect. destruct l; try done. destruct (sites e !! a) as [s|] eqn:Ha; [|done].
  unfold net_of, set_site. cbn. f_equal. rewrite fmap_insert. cbn. apply insert_id. by rewrite lookup_fmap, Ha.
Qed.

(** A server's step: its node does what the label says, or nothing. *)
Lemma sstep_raft s l s' : (forall k, l <> SRaft k) -> sstep s l = Ret (Some s') ->
  raft s' = raft s /\ client_label s l = [] \/
  exists k, client_label s l = [k] /\ step (raft s) k = Some (raft s') /\
    ((exists data c, k = LSubmit data c) \/ exists f, k = LWait f).
Proof.
  intros Hl Hs. assert (forall s1 k c a m, send_at s1 k c a m = Ret (Some s') -> raft s' = raft s1) as Hsend.
  { intros s1 k c a m. unfold send_at. intros (h&_&Hx)%bind_ret. by injection Hx as <-. }
  destruct l as [l|k|k raw|k|k|k ch|n|n|a|a ping]; cbn [sstep] in Hs; cbn [client_label].
  - by destruct (Hl l).
  - left. destruct (conns s !! k); [done|]. by injection Hs as <-.
  - left. destruct (conns s !! k); [|done]. destruct (bool_decide _); [|done]. by injection Hs as <-.
  - left. destruct (conns s !! k); [|done]. destruct (bool_decide _); [|done]. by injection Hs as <-.
  - destruct (conns s !! k) as [c|]; [|done]. cbn [fmap option_fmap option_map]. unfold pump_step in Hs.
    destruct (at_ c) as [|msg|a rev|a rev|a rev|a l|a l t|a m|a|a b|a f| | |] eqn:Hx;
      unfold connect_step, submit_step, close_step in Hs; rewrite Hx in Hs; try done.
    + left. destruct (posting s); [|done]. by injection Hs as <-.
    + left. by injection Hs as <-.
    + left. case_bool_decide; [by injection Hs as <-|]. by eapply Hsend in Hs as ->.
    + left. apply bind_ret in Hs as (l&_&Hs). by injection Hs as <-.
    + left. by injection Hs as <-.
    + left. by eapply Hsend in Hs as ->.
    + left. destruct (negb _); [by injection Hs as <-|]. destruct (Validate _); try done.
      * destruct (MarshalEntry _); [by injection Hs as <-|]. by eapply Hsend in Hs as ->.
      * by eapply Hsend in Hs as ->.
    + left. by eapply Hsend in Hs as ->.
    + right. destruct (wait_step (raft s) f) as [[p err]|] eqn:Hw; [|done].
      exists (LWait f). split; [done|]. split; [|right; by exists f]. cbn [step]. rewrite Hw. cbn. f_equal.
      destruct err; [by eapply Hsend in Hs as ->|by injection Hs as <-].
    + left. destruct (client c) as [a|]; [|by injection Hs as <-].
      destruct (posting s); [|done]. destruct (heap s !! a); [|done]. by injection Hs as <-.
    + left. destruct (client c) as [a|]; [|done]. destruct (heap s !! a) as [cl|]; [|done].
      destruct (closed cl); [done|]. by injection Hs as <-.
  - right. destruct (conns s !! k) as [c|]; [|done]. unfold propose_step in Hs. cbn [fmap option_fmap option_map].
    destruct (at_ c) as [|msg|a rev|a rev|a rev|a l|a l t|a m|a|a data|a f| | |]; try done.
    destruct (choice_ready (raft_node s) ch) eqn:Hch; [|done].
    destruct (Leader.Apply (raft_node s) data ch) as [r f] eqn:Hr. injection Hs as <-.
    exists (LSubmit data ch). split; [done|]. split; [|left; by exists data, ch].
    cbn [step]. unfold raft_node in *. rewrite Hch, Hr. done.
  - left. unfold commit_step in Hs. destruct (_ !! n); [|done]. case_bool_decide; [done|]. by injection Hs as <-.
  - left. unfold post_step in Hs. destruct (posting s !! n) as [[|[a m] rest]|]; [|..|done].
    + by injection Hs as <-.
    + apply bind_ret in Hs as (h&_&Hs). by injection Hs as <-.
  - left. unfold write_step in Hs. destruct (heap s !! a) as [cl|]; [|done]. destruct (negb _); [done|].
    destruct (sendCh cl); [destruct (closed cl); [|done]; by injection Hs as <-|].
    destruct (conns s !! c_conn cl) as [c|]; [|done]. destruct (bool_decide _); [done|]. by injection Hs as <-.
  - left. unfold write_fail in Hs. destruct (heap s !! a) as [cl|]; [|done]. destruct (writing cl); [|done].
    by injection Hs as <-.
Qed.

Lemma client_step_net e a l e' : client_step e a l = Some e' -> exists s s',
  sites e !! a = Some s /\ (forall k, l <> SRaft k) /\ sstep s l = Ret (Some s') /\ e' = set_site a s' e.
Proof.
  unfold client_step. intros (s&Ha&Hs)%bind_Some. exists s.
  destruct l; try done; match type of Hs with context [sstep s ?l] => destruct (sstep s l) as [[s'|]| | |] eqn:E end;
    try done; injection Hs as <-; exists s'; by split_and!.
Qed.

Lemma net_of_set_site a s e : net_of (set_site a s e) =
  mkNet (<[a := raft s]> (procs (net_of e))) (e_calls e) (e_appends e) (e_ballots e) (e_counted e).
Proof. unfold net_of, set_site. cbn. by rewrite fmap_insert. Qed.

(** A step of the editor is what its labels say to the network. *)
Lemma estep_net e l e' : estep e l = Some e' -> nsteps (net_of e) (net_labels e l) = Some (net_of e').
Proof.
  destruct l as [a l|l|a t c]; cbn [estep net_labels]; intros Hs.
  - apply client_step_net in Hs as (s&s'&Ha&Hl&Hst&->). rewrite Ha, net_of_set_site.
    pose proof (net_of_site e a s Ha) as Hp.
    destruct (sstep_raft s l s' Hl Hst) as [[-> ->]|(k&->&Hk&Hcase)]; cbn [fmap list_fmap nsteps].
    + f_equal. rewrite insert_id by done. done.
    + cbn [nstep]. unfold local_step. rewrite Hp. cbn [mbind option_bind].
      assert (from_outside k = false /\ new_calls a (raft s) k = [] /\ new_appends a (raft s) k = [] /\
        own_ballot a (raft s) k = []) as (->&->&->&->) by (by destruct Hcase as [(?&?&->)|(?&->)]).
      rewrite Hk. cbn [mbind option_bind]. by rewrite !app_nil_r.
  - unfold net_step in Hs. destruct (by_client l); [done|]. apply bind_Some in Hs as (n&Hn&[= <-]).
    cbn [nsteps]. rewrite Hn. f_equal. symmetry. apply net_of_with. rewrite net_of_disconnect. by eapply nstep_members.
  - unfold bootstrap_step in Hs.
    destruct (MarshalEntry (bootstrap_entry t)) as [data|]; [|done].
    cbn [mbind option_bind] in Hs. apply bind_Some in Hs as (n&Hn&[= <-]).
    cbn [nsteps]. rewrite Hn. f_equal. symmetry. apply net_of_with. by eapply nstep_members.
Qed.

Lemma esteps_net ls : forall e e', esteps e ls = Some e' -> nsteps (net_of e) (net_run e ls) = Some (net_of e').
Proof.
  induction ls as [|l ls IH]; intros e e' Hs; cbn in Hs; [by injection Hs as <-|].
  destruct (estep e l) as [e1|] eqn:E; [|done]. cbn [net_run]. rewrite E, nsteps_app, (estep_net e l e1 E).
  by apply IH.
Qed.

Lemma net_run_app ls ls' : forall e e', esteps e ls = Some e' -> net_run e (ls ++ ls') = net_run e ls ++ net_run e' ls'.
Proof.
  induction ls as [|l ls IH]; intros e e' Hs; cbn in *; [by injection Hs as <-|].
  destruct (estep e l) as [e1|] eqn:E; [|done]. by rewrite (IH e1 e' Hs), app_assoc.
Qed.

Lemma open_net (nodes : gmap text (RaftNode L Sb document ApplyResult)) : net_of (open_editor nodes) = boot nodes.
Proof. unfold net_of, open_editor, boot. cbn. f_equal. rewrite <-map_fmap_compose. done. Qed.

(** ** The servers of a run

    [good] and [known] are what is known of the submissions and the last known revisions
    that clients send. *)
Context (good : SubmitMsg -> Prop) (known : Z -> Prop).

Record site_ok s : Prop := mk_site_ok {
  so_inv : server_inv s;
  so_heard : heard s;
  so_valid : validated_server good known s
}.

Definition sites_ok e : Prop := forall a s, sites e !! a = Some s -> site_ok s.

Definition arrives (l : elabel) : Prop :=
  match l with EClient _ l => received good known l | _ => True end.

Lemma site_new p : site_ok (NewNode p).
Proof. split; [apply server_inv_new|apply heard_new|apply validated_new]. Qed.

Lemma site_raft s p : doc_grows (doc_of s) (fsm (node p)) -> site_ok s -> site_ok (set_raft p s).
Proof. intros Hg [H1' H2' H3']. split; [by apply inv_raft|by apply heard_raft|done]. Qed.

Lemma site_step s l s' : received good known l -> sstep s l = Ret (Some s') -> site_ok s -> site_ok s'.
Proof.
  intros Hr Hs [H1' H2' H3']. split; [|by eapply sstep_heard|by eapply sstep_validated].
  apply (ssteps_inv [l] s s' H1'). cbn [ssteps]. by rewrite Hs.
Qed.

Lemma disconnect_sites l e a s : sites (disconnect l e) !! a = Some s -> exists s0, sites e !! a = Some s0 /\
  (s = s0 \/ s = NewNode (raft s0)) /\ (forall ws, l = NRestart a ws -> s = NewNode (raft s0)).
Proof.
  unfold disconnect. assert (sites e !! a = Some s -> (forall ws, l <> NRestart a ws) -> exists s0, sites e !! a = Some s0 /\
    (s = s0 \/ s = NewNode (raft s0)) /\ (forall ws, l = NRestart a ws -> s = NewNode (raft s0))) as Hsame.
  { intros Ha Hl. exists s. split_and!; [done|by left|]. intros ws ->. by destruct (Hl ws). }
  destruct l as [b k|i|i|i|i|i k|i|b ws]; try (intros Ha; by apply Hsame).
  destruct (sites e !! b) as [s0|] eqn:Hb.
  - cbn. intros [[<- <-]|[Hne Ha]]%lookup_insert_Some; [exists s0; by split_and!; [|right|]|].
    apply Hsame; [done|]. by intros ws' [= ->].
  - intros Ha. apply Hsame; [done|]. intros ws' [= -> _]. congruence.
Qed.

Lemma net_sites e l n : nstep (net_of e) l = Some n -> sites_ok e -> sites_ok (with_net n (disconnect l e)).
Proof.
  intros Hn He a s' Hs'. cbn in Hs'. rewrite map_lookup_imap in Hs'.
  apply bind_Some in Hs' as (s&Hd&Hs'). destruct (procs n !! a) as [p|] eqn:Hp; [|done].
  injection Hs' as <-. destruct (disconnect_sites l e a s Hd) as (s0&Ha&Hcase&Hre).
  pose proof (net_of_site e a s0 Ha) as Hp0.
  assert (site_ok s /\ raft s = raft s0) as [Hs Er].
  { destruct Hcase as [-> | ->]; [split; [by eapply He|done]|]. split; [apply site_new|done]. }
  assert (forall k, step (raft s0) k = Some p -> site_ok (set_raft p s)) as Hstep.
  { intros k Hk. apply site_raft; [|done]. unfold doc_of, raft_node. rewrite Er. by eapply step_grows. }
  assert (p = raft s0 -> site_ok (set_raft p s)) as Hsame.
  { intros ->. rewrite <-Er. apply site_raft; [apply doc_grows_refl|done]. }
  destruct (nstep_moves _ l n Hn) as [Ep _ _ _|b q k q' [Hb Hst Ep _ _ _ _]|b q st q' [(ws&->&_) Hb _ Ep _ _ _]];
    rewrite Ep in Hp.
  - apply Hsame. congruence.
  - apply lookup_insert_Some in Hp as [[-> ->]|[_ Hp]]; [|apply Hsame; congruence].
    apply (Hstep k). congruence.
  - apply lookup_insert_Some in Hp as [[-> ->]|[_ Hp]]; [|apply Hsame; congruence].
    rewrite (Hre ws eq_refl). exact (site_new p).
Qed.

Lemma estep_sites e l e' : estep e l = Some e' -> arrives l -> sites_ok e -> sites_ok e'.
Proof.
  destruct l as [a l|l|a t c]; cbn [estep arrives]; intros Hs Hr He.
  - apply client_step_net in Hs as (s&s'&Ha&_&Hst&->). cbn.
    intros b s2 Hb. cbn in Hb. apply lookup_insert_Some in Hb as [[<- <-]|[_ Hb]]; [|by eapply He].
    eapply site_step; [exact Hr|exact Hst|by eapply He].
  - unfold net_step in Hs. destruct (by_client l); [done|]. apply bind_Some in Hs as (n&Hn&[= <-]).
    by apply net_sites.
  - unfold bootstrap_step in Hs.
    destruct (MarshalEntry (bootstrap_entry t)) as [data|]; [|done].
    cbn [mbind option_bind] in Hs. apply bind_Some in Hs as (n&Hn&[= <-]). by apply (net_sites e _ n) in Hn.
Qed.

Lemma esteps_sites ls : forall e e', esteps e ls = Some e' -> Forall arrives ls -> sites_ok e -> sites_ok e'.
Proof.
  induction ls as [|l ls IH]; intros e e' Hs Hr He; cbn in Hs; [by injection Hs as <-|].
  apply Forall_cons in Hr as [Hr Hrs]. destruct (estep e l) as [e1|] eqn:E; [|done].
  apply (IH e1 e'); [done|done|by eapply estep_sites].
Qed.

Lemma open_sites (nodes : gmap text (RaftNode L Sb document ApplyResult)) : sites_ok (open_editor nodes).
Proof.
  intros a s. cbn. rewrite lookup_fmap. destruct (nodes !! a); [|done]. intros [= <-]. apply site_new.
Qed.

End runs.

(** * What a client has been told, everybody comes to know *)

(** The revision log has the changeset at [n], with this source. *)
Definition recorded (fsm : DocumentStateMachine) (n : Z) (c : Changeset) (source : text) : Prop :=
  0 <= n /\ revisionLog fsm !! Z.to_nat n = Some (mkRevision n c source).

(** An ACK with the revision [rev] for the client [id]: it answers to one of the entries
    [es] that the server has applied, a submission of the client. Either the submission was
    new then, and revision [rev - 1] of the log is the client's; or it had been seen before
    ([IsDuplicate]), [rev] is the head revision of that moment, and an earlier revision of
    the log is the client's. *)
Definition acked `{EC : EntryCodec} (init : text) (es : list LogEntry) (fsm : DocumentStateMachine) (id : text) (rev : Z)
  : Prop :=
  exists i x e before, es !! i = Some x /\ UnmarshalEntry (Data x) = inr e /\ ClientID e = id /\
    leads_to (first_doc init) (take i es) before /\
    if is_seen (doc_fsm before) e
    then rev = HeadRev (doc_fsm before) /\ exists n c, n < rev /\ recorded fsm n c id
    else rev = HeadRev (doc_fsm before) + 1 /\ exists c, recorded fsm (rev - 1) c id.

(** The document of a server that has applied the entries [es] bears the message out. A
    BROADCAST is of a revision of another client; the catch-up of a CONNECT_ACK is a piece
    of the revision log. *)
Definition borne_out `{EC : EntryCodec} (init : text) (es : list LogEntry) (fsm : DocumentStateMachine) (id : text)
    (m : payload) : Prop :=
  match m with
  | AckMsg rev => acked init es fsm id rev
  | BroadcastMsg c rev => exists source, source <> id /\ recorded fsm (rev - 1) c source
  | ConnectAckMsg _ _ l => exists i, l = take (length l) (drop i (revisionLog fsm))
  | RedirectMsg _ | ErrorMsg _ _ => True
  end.

Section backing.
  Context `{EC : EntryCodec} (init : text) (es : list LogEntry) (d : document) (xs : list (option ApplyResult)).
  Context (Hfeed : feed (first_doc init) es = Ret (d, xs)) (Hsize : zlen es < max_int).

Lemma leads_take i before : leads_to (first_doc init) (take i es) before -> zlen (take i es) <= max_int.
Proof. intros _. rewrite zlen_take. unfold zlen in *. lia. Qed.

(** A result that has been passed on stands for a submission among the entries. *)
Lemma spawned_acked res : res ∈ doc_spawned d ->
  acked init es (doc_fsm d) (RClientID res) (NewRev res) /\
  (IsDuplicate res = false -> recorded (doc_fsm d) (NewRev res - 1) (CPrime res) (RClientID res)).
Proof.
  intros Hin. destruct (spawned_entry init es d xs res Hfeed Hin) as (i&x&before&a&more&Hx&Hb&Ha&Hres&Hm).
  destruct (entry_result _ _ _ _ Ha Hres) as (e&Hu&Hc&Hdup&Hcase).
  destruct (leads_inv init _ before Hb (leads_take i before Hb)) as ([rs Hr]&Hh&Hle&Hnum).
  unfold acked. unfold HeadRev in Hh.
  destruct (is_seen (doc_fsm before) e) eqn:Hseen; rewrite Hdup; destruct Hcase as [Hrev Hmach].
  - split; [|done]. exists i, x, e, before. rewrite Hseen. split_and!; try done.
    apply is_seen_spec in Hseen as (l&Hl&_). rewrite Hc in Hl.
    destruct (seen_source init _ _ _ _ l Hr Hl) as (n&[num c src]&Hn&Hs). cbn in Hs. subst src.
    pose proof (Hnum n _ Hn) as En. cbn in En. subst num. pose proof (lookup_lt_Some _ _ _ Hn) as Hlt.
    exists (Z.of_nat n), c. rewrite Hrev, Hh. split; [unfold zlen; lia|]. split; [lia|].
    rewrite Nat2Z.id, Hm, Hmach. by apply lookup_app_l_Some.
  - assert (zlen (revisionLog (doc_fsm before)) < max_int) as Hlt.
    { pose proof (records_le _ _ _ _ Hr) as Hrl. pose proof (payloads_zlen (take i es)) as Hp.
      rewrite zlen_take in Hp. unfold zlen in *. cbn in Hrl. lia. }
    assert (NewRev res = zlen (revisionLog (doc_fsm before)) + 1) as En.
    { rewrite Hrev, Hh. apply wrap64_small. zlen_facts. unfold max_int in *. lia. }
    assert (recorded (doc_fsm d) (NewRev res - 1) (CPrime res) (RClientID res)) as Hrec.
    { rewrite En, Z.add_simpl_r. zlen_facts. split; [lia|]. rewrite Hm, Hmach, zlen_to_nat, <-app_assoc.
      cbn [app]. rewrite list_lookup_middle by done. by rewrite Hh, Hc. }
    split; [|done]. exists i, x, e, before. rewrite Hseen. unfold HeadRev. rewrite Hh. split_and!; try done. by exists (CPrime res).
Qed.

Lemma backed_borne_out id m : backed d id m -> borne_out init es (doc_fsm d) id m.
Proof.
  destruct m as [h r l|rev|c rev|addr|code x]; cbn; try done.
  - intros (res&Hin&<-&<-). by apply spawned_acked.
  - intros (res&Hin&Hdup&Hne&<-&<-). exists (RClientID res). split; [done|]. by apply (spawned_acked res Hin).
Qed.

End backing.

(** Two moments of a run of the editor. *)
Section moments.
  Context {L Sb : Type} `{LogStoreSpec L} `{StableStoreSpec Sb} `{EC : EntryCodec} `{WC : WireCodec}.
  Context (P : list PeerConfig) (nodes : gmap text (RaftNode L Sb document ApplyResult)) (init : text).
  Context (Hc : cluster P nodes) (Hf : fresh_servers nodes) (Hu : uncommitted nodes).
  Context (Hd : map_Forall (fun _ => starts_with init) nodes).
  Context (ls ls' : list elabel) (e e' : editor L Sb).
  Context (Hz : zlen (net_run (open_editor nodes) (ls ++ ls')) < 2 ^ 62).
  Context (Hl : led_run (boot nodes) (net_run (open_editor nodes) (ls ++ ls'))).
  Context (Hs : esteps (open_editor nodes) ls = Some e) (Hs' : esteps e ls' = Some e').

Lemma doc_later a b s q : sites e !! a = Some s -> sites e' !! b = Some q ->
  lastApplied (raft_node s) <= lastApplied (raft_node q) ->
  doc_grows (doc_of s) (doc_of q) /\
  exists es xs, feed (first_doc init) es = Ret (doc_of q, xs) /\ applied_entries (raft_node q) es /\ zlen es < max_int.
Proof.
  intros Ha Hb Hle. pose proof (net_run_app ls ls' _ _ Hs) as En. rewrite En in Hz, Hl.
  pose proof (esteps_net ls _ _ Hs) as Hn. pose proof (esteps_net ls' _ _ Hs') as Hn'.
  rewrite open_net in Hn. pose proof (net_of_site e a s Ha) as Hp. pose proof (net_of_site e' b q Hb) as Hq.
  destruct (boot_members nodes a) as [r1 Hr1]; [eapply Applied.nsteps_members; [exact Hn|by eexists]|].
  destruct (boot_members nodes b) as [r2 Hr2];
    [eapply Applied.nsteps_members; [exact Hn|eapply Applied.nsteps_members; [exact Hn'|by eexists]]|].
  destruct (Hd a r1 Hr1) as [Hd1 _], (Hd b r2 Hr2) as [Hd2 _]. assert (fsm r1 = fsm r2) as Hsame by congruence.
  assert (given_machines nodes) as Hg by (intros c r Hr; by apply (Hd c r)).
  destruct (machines_agree P nodes (net_run (open_editor nodes) ls) (net_run e ls') (net_of e) (net_of e') a b r1 r2 (raft s) (raft q))
    as (es&fs&_&_&Hes&[ys Hy]&Hcatch&_); try done.
  destruct (Hcatch Hle) as (more&_&Hmore). split; [by exists more|]. rewrite Hd1 in Hy. exists fs, ys.
  split_and!; [done..|]. destruct Hes as [Elen _]. rewrite Elen.
  destruct (cluster_applied (fsm r1) P nodes (net_run (open_editor nodes) ls) (net_run e ls') (net_of e) (net_of e'))
    as (_&G'&_&B'&_&HB'&_&Hn2&_&_&Happ&_); try done.
  destruct (lk_procs _ _ _ (sn_logs _ _ _ _ Hn2) b (raft q) Hq) as [(k&Hrk&_&Hzk&_) _ _ _].
  destruct (proj2 (Happ b (raft q) Hq) k Hrk) as [[_ A2] _ _].
  pose proof (committed_len P _ _ _ _ (committed_here P _ G' B' b (raft q) k Hn2 Hq Hrk)).
  unfold raft_node, max_int in *. lia.
Qed.

Lemma written_borne_out a b s q k c m : sites e !! a = Some s -> conns s !! k = Some c -> m ∈ written c ->
  sites e' !! b = Some q -> lastApplied (raft_node s) <= lastApplied (raft_node q) ->
  exists id msg es, encode msg = Some m /\ (exists x cl, heap s !! x = Some cl /\ c_conn cl = k /\ c_id cl = id) /\
    applied_entries (raft_node q) es /\ borne_out init es (sm q) id msg.
Proof.
  intros Ha Hk Hm Hb Hle. destruct (doc_later a b s q Ha Hb Hle) as (Hg&es&xs&Hfeed&Hes&Hlen).
  assert (sites_ok (fun _ => True) (fun _ => True) e) as He.
  { apply (esteps_sites _ _ ls _ _ Hs); [|apply open_sites]. apply Forall_true.
    intros [?? | |]; try done. by apply unmarshal_received. }
  destruct (hd_written s (so_heard _ _ _ (He a s Ha)) k c m Hk Hm) as (x&cl&Hx&Hcn&msg&Henc&Hbk).
  exists (c_id cl), msg, es. split_and!; [done|by exists x, cl|done|].
  eapply (backed_borne_out init es (doc_of q) xs); [exact Hfeed|exact Hlen|]. by eapply backed_grows.
Qed.

End moments.

(** * Nothing crashes the servers *)

Section applying.
  Context {L Sb : Type} `{LogStoreSpec L} `{StableStoreSpec Sb} `{EC : EntryCodec}.
  Context (P : list PeerConfig) (nodes : gmap text (RaftNode L Sb document ApplyResult)) (init : text) (K : Z).
  Context (Hc : cluster P nodes) (Hf : fresh_servers nodes) (Hu : uncommitted nodes) (Hno : no_clients nodes).
  Context (Hd : map_Forall (fun _ => starts_with init) nodes).

Lemma next_applies ls n a p idx c :
  0 <= K -> Forall (submits (fits_in K)) ls -> zlen ls < 2 ^ 62 -> 2 * (zlen init + K * zlen ls) <= max_int ->
  led_run (boot nodes) ls -> nsteps (boot nodes) ls = Some n -> procs n !! a = Some p ->
  applying p = Some (idx, c) -> idx <= c -> exists r', apply_one (node p) idx = Ret r'.
Proof.
  intros HK Hsub Hz Hm Hl Hs Ha Hap Hidx.
  destruct (boot_members nodes a) as [r Hr]; [eapply Applied.nsteps_members; [exact Hs|by eexists]|].
  assert (given_machines nodes) as Hg by (intros b q Hq; by apply (Hd b q)).
  destruct (cluster_applied (fsm r) P nodes ls [] n n) as (G&_&B&_&HB&_&Hn&_&_&Happ&_); try done;
    [by rewrite app_nil_r..|].
  destruct (lk_procs _ _ _ (sn_logs _ _ _ _ Hn) a p Ha) as [(l&Hrl&_&Hzl&_) _ _ _].
  destruct (cluster_entries (fits_in K) P nodes ls n a p l) as [Hgood Hlen]; try done.
  destruct (proj2 (Happ a p Ha) l Hrl) as [[A1 A2] (xs&Hx) A3]. destruct (A3 idx c Hap) as [-> Hcc].
  pose proof (committed_len P _ _ _ _ (committed_here P n G B a p l Hn Ha Hrl)) as Hci.
  destruct (lookup_lt_is_Some_2 l (Z.to_nat (lastApplied (node p)))) as [x Hxl]; [unfold zlen in *; lia|].
  pose proof (take_S_r _ _ _ Hxl) as Hsucc. destruct (Hd a r Hr) as [Hr0 _].
  unfold initial in Hx. rewrite Hr, Hr0 in Hx.
  destruct (feed_returns init K (take (S (Z.to_nat (lastApplied (node p)))) l)) as (d&ys&Hy).
  - done.
  - by apply Forall_take.
  - rewrite zlen_take. unfold max_int. lia.
  - rewrite zlen_take. nia.
  - rewrite Hsucc, feed_app, Hx in Hy. cbn [mbind outcome_bind fst feed] in Hy.
    apply bind_ret in Hy as ([d1 zs]&Hy&_). apply bind_ret in Hy as ([d2 z]&Hy&_).
    destruct (apply_one_spec (node p) (lastApplied (node p) + 1) x d2 z) as (r'&Hr'&_); [|exact Hy|by exists r'].
    eapply GetLog_hit; [exact Hrl|lia|]. by rewrite Z.add_simpl_r.
Qed.

End applying.

(** ** What the clients propose *)

Section proposing.
  Context {L Sb : Type} `{LogStoreSpec L} `{StableStoreSpec Sb} `{EC : EntryCodec} `{WC : WireCodec}.
  Context (good_msg : SubmitMsg -> Prop) (known : Z -> Prop) (K : Z).
  Context (good_fits : forall m data, good_msg m -> Validate (sm_Changeset m) = Ret tt ->
    MarshalEntry (mkEntry (sm_ClientID m) (sm_SubmissionID m) (sm_BaseRev m) (sm_Changeset m)) = Some data ->
    fits_in K data).
  Implicit Types e : editor L Sb.

(** The initial text is no worse than a client's. *)
Definition bootstraps (l : elabel) : Prop :=
  match l with
  | EBootstrap _ t _ => forall data, MarshalEntry (bootstrap_entry t) = Some data -> fits_in K data
  | _ => True
  end.

Lemma net_labels_submit e l e' : estep e l = Some e' -> sites_ok good_msg known e -> bootstraps l ->
  Forall (submits (fits_in K)) (net_labels e l).
Proof.
  intros Hs He Hb. destruct l as [a l|l|a t c]; cbn [net_labels].
  - destruct (sites e !! a) as [s|] eqn:Ha; [|constructor]. apply Forall_fmap.
    pose proof (so_valid _ _ _ (He a s Ha)) as Hv. destruct l as [k|k|k raw|k|k|k c|n|n|x|x ping]; try constructor.
    + cbn [client_label]. destruct (at_ <$> conns s !! k) as [[]|]; by repeat constructor.
    + cbn [client_label]. destruct (conns s !! k) as [c0|] eqn:Hk; [|constructor]. cbn.
      destruct (at_ c0) as [|msg|b rev|b rev|b rev|b l|b l t|b m|b|b data|b f| | |] eqn:Hx; try by constructor.
      constructor; [|constructor]. pose proof (Hv k c0 Hk) as Hp. rewrite Hx in Hp. destruct Hp as (m&Hm&Hval&Hmar). by eapply good_fits.
  - cbn [estep] in Hs. unfold net_step in Hs. destruct (by_client l) eqn:Hc; [done|]. constructor; [|constructor].
    by destruct l as [b []| | | | | | |].
  - cbn in Hb. destruct (MarshalEntry (bootstrap_entry t)) as [data|]; [|constructor].
    constructor; [|constructor]. by apply Hb.
Qed.

Lemma net_run_submits ls : forall e e', esteps e ls = Some e' -> Forall (arrives good_msg known) ls ->
  Forall bootstraps ls -> sites_ok good_msg known e -> Forall (submits (fits_in K)) (net_run e ls).
Proof.
  induction ls as [|l ls IH]; intros e e' Hs Hr Hb He; cbn in Hs; [constructor|].
  apply Forall_cons in Hr as [Hr Hrs]. apply Forall_cons in Hb as [Hb Hbs].
  destruct (estep e l) as [e1|] eqn:E; [|done]. cbn [net_run]. rewrite E. apply Forall_app.
  split; [by eapply net_labels_submit|]. eapply IH; [done..|]. by eapply estep_sites.
Qed.

End proposing.

(** * Properties *)

(** A message of a client that keeps to the protocol: no negative revisions, lengths that
    fit, and at most [K] bytes inserted. *)
Definition civil_place (K : Z) (x : pump) : Prop :=
  match x with
  | Registering msg => 0 <= cm_LastKnownRev msg
  | Submitting _ msg => 0 <= sm_BaseRev msg /\ src_len (Ops (sm_Changeset msg)) <= max_int /\
      dst_len (Ops (sm_Changeset msg)) <= max_int /\ ins_len (Ops (sm_Changeset msg)) <= K
  | _ => True
  end.

Definition civil `{WC : WireCodec} (K : Z) (l : elabel) : Prop :=
  match l with
  | EClient _ (SRecv _ raw) => forall c, civil_place K (recv c raw)
  | EBootstrap _ t _ => valid_utf8 t /\ t <> [] /\ zlen t <= K
  | _ => True
  end.

(** What a message is to a connection depends on its client only. *)
Lemma civil_recv `{WC : WireCodec} K raw :
  civil_place K (recv (mkConn (Some 0%nat) Reading []) raw) -> forall c, civil_place K (recv c raw).
Proof.
  unfold recv. intros Hc c. destruct (UnmarshalEnvelope raw) as [env|]; [|done].
  destruct (bool_decide (Type_ env = MsgConnect)); [exact Hc|]. destruct (bool_decide (Type_ env = MsgSubmit)); [|done].
  cbn [client] in *. destruct (client c); [|done]. by destruct (UnmarshalSubmit (Payload env)).
Qed.

#[local] Instance civil_place_dec K x : Decision (civil_place K x).
Proof. destruct x; cbn; apply _. Defined.

(** [civil], decided for a run without the initial text. *)
Definition civilb `{WC : WireCodec} (K : Z) (l : elabel) : bool :=
  match l with
  | EClient _ (SRecv _ raw) => bool_decide (civil_place K (recv (mkConn (Some 0%nat) Reading []) raw))
  | EBootstrap _ _ _ => false
  | _ => true
  end.

Lemma civilb_civil `{WC : WireCodec} K ls : forallb (civilb K) ls = true -> Forall (civil K) ls.
Proof.
  intros Hls%Is_true_true_2%forallb_True. eapply Forall_impl; [exact Hls|]. intros l Hl.
  destruct l as [a l| |]; try done. destruct l as [| |k raw| | | | | | |]; try exact I.
  exact (civil_recv K raw (bool_decide_unpack _ Hl)).
Qed.

#[local] Existing Instances json_codec json_wire.

Definition civil_msg (K : Z) (m : SubmitMsg) : Prop := submit_ok m /\ civil_place K (Submitting 0 m).

Lemma civil_fits K m data : civil_msg K m -> Validate (sm_Changeset m) = Ret tt ->
  MarshalEntry (mkEntry (sm_ClientID m) (sm_SubmissionID m) (sm_BaseRev m) (sm_Changeset m)) = Some data ->
  fits_in K data.
Proof.
  intros [Hg (Hb&Ho&Hn&Hi)] Hv Hm. pose proof (proposed_entry m data Hg Hm) as Hu.
  unfold fits_in, admitted_data, inserted_data. rewrite Hu. split; [|exact Hi].
  split; [|exact Hb]. by apply Validate_iff.
Qed.

Lemma civil_arrives K l : civil K l -> arrives (civil_msg K) (fun rev => 0 <= rev) l.
Proof.
  destruct l as [a l| |]; try done. destruct l as [| |k raw| | | | | | |]; try done. cbn. intros Hc c. specialize (Hc c).
  revert Hc. unfold recv. destruct (UnmarshalEnvelope raw) as [env|]; [|done].
  destruct (bool_decide _); [by destruct (UnmarshalConnect (Payload env))|].
  destruct (bool_decide _); [|done]. destruct (client c) as [a0|]; [|done].
  destruct (UnmarshalSubmit (Payload env)) as [m|] eqn:Hm; [|done].
  intros Hc. split; [by eapply decode_submit_ok|exact Hc].
Qed.

Lemma civil_bootstraps K l : K <= max_int -> civil K l -> bootstraps K l.
Proof.
  intros HK. destruct l as [a l|l|a t c]; try done. intros (Hv&Hne&Hz) data [= <-].
  destruct (bootstrap_valid t Hv) as [Hf Hcan]; [lia|].
  assert (UnmarshalEntry (Marshal entry_codec (bootstrap_entry t)) = inr (bootstrap_entry t)) as Hu.
  { cbn [UnmarshalEntry json_codec].
    by rewrite (unmarshal_marshal _ _ _ _ _ entry_lawful), Hcan by (done || (apply max_depth_le; lia)). }
  unfold fits_in, admitted_data, inserted_data. rewrite Hu, bootstrap_inserted by lia. split; [|done].
  split; [|done]. pose proof (zlen_nonneg t). apply MakeInsert_wf; [lia|done|lia].
Qed.


(** C4: what a client is told comes true on every server. Of servers set up in this way,
    whatever their clients send, in every led run, take a message that has been written to a
    client's socket, and a server, at that moment or later, that has applied at least as
    much as the client's server had. The message is the encoding of one of these. An ACK for
    a submission of the client that is among the entries this server has applied: if the
    submission was new, the ACK's revision follows the head revision before it, and the
    revision log of this server has a changeset of the client there; if it had been seen,
    the ACK's revision is the head revision of that moment, and an earlier revision of the
    log is the client's. A BROADCAST of the changeset that the log has, from another client,
    at the revision it names. A CONNECT_ACK with consecutive revisions of the log. Or a
    redirection or an error. That holds for the same server or another one, and after any
    crashes. *)
Theorem acknowledged_edits_last {L Sb} `{LogStoreSpec L} `{StableStoreSpec Sb} (ps : list text) (init : text)
    (nodes : gmap text (RaftNode L Sb document ApplyResult)) ls ls' e e' a b s q k c m :
  NoDup ps -> set_up_first ps init nodes ->
  let run := net_run (open_editor nodes) (ls ++ ls') in
  led_run (boot nodes) run -> zlen run < 2 ^ 62 ->
  esteps (open_editor nodes) ls = Some e -> esteps e ls' = Some e' ->
  sites e !! a = Some s -> conns s !! k = Some c -> m ∈ written c ->
  sites e' !! b = Some q -> lastApplied (raft_node s) <= lastApplied (raft_node q) ->
  exists id msg es, encode msg = Some m /\
    (exists x cl, heap s !! x = Some cl /\ c_conn cl = k /\ c_id cl = id) /\
    applied_entries (raft_node q) es /\ borne_out init es (sm q) id msg.
Proof.
  intros Hps Hn run Hl Hz Hs Hs' Ha Hk Hm Hb Hle.
  destruct (set_up_first_start ps init nodes Hps Hn) as (Hc&Hf&Hu&Hno&Hd).
  by apply (written_borne_out (peers_of ps) nodes init Hc Hf Hu Hd ls ls' e e' Hz Hl Hs Hs' a b s q k c m).
Qed.

(** The editor is a Raft cluster with clients: every run of the editor is a run of the
    network of its nodes, in which the proposals of the clients and of [main], and the
    futures they wait for, are the only additions. *)
Theorem editor_refines_network {L Sb} `{LogStoreSpec L} `{StableStoreSpec Sb}
    (nodes : gmap text (RaftNode L Sb document ApplyResult)) ls e :
  esteps (open_editor nodes) ls = Some e ->
  nsteps (boot nodes) (net_run (open_editor nodes) ls) = Some (net_of e).
Proof. intros Hs. rewrite <-open_net. by apply esteps_net. Qed.

(** * A run with a client

    h1 leads and serves Alice, who connects and submits the text of [demo_message]; h3 has
    stored the entry, h1 commits and applies it, and tells Alice, when h3 crashes; h3 then
    learns from h1 what is committed and applies it. *)
Definition alice : list elabel :=
  EClient (bytes_of "h1") <$> demo_session ++ [SPropose 0 Enqueued].

Definition served : list elabel :=
  (ENet <$> demo_race ++ (NStep (bytes_of "h1") <$> [LMain; LMain; LMain; LMain])) ++ alice ++
  (ENet <$> (NStep (bytes_of "h1") <$> [LRequest; LMain]) ++
     main "h3" 1 ++ demo_exchange "h1" "h3" 0 ++ main "h3" 1 ++ demo_exchange "h1" "h3" 0 ++
     (NStep (bytes_of "h1") <$> [LApplyWake; LApplyNext; LApplyNext])) ++
  (EClient (bytes_of "h1") <$> [SPump 0; SCommit 0; SPost 0; SPost 0; SWrite 0; SWrite 0]).

Definition caught_up : list elabel :=
  ENet <$> NRestart (bytes_of "h3") [] :: main "h3" 2 ++ demo_exchange "h1" "h3" 0 ++
    (NStep (bytes_of "h3") <$> [LApplyWake; LApplyNext; LApplyNext]).

Definition demo_editor : editor MapDB MapDB := open_editor demo_servers.
Definition after (ls : list elabel) : editor MapDB MapDB := default demo_editor (esteps demo_editor ls).
Definition site_at (e : editor MapDB MapDB) (a : string) : server (L := MapDB) (Sb := MapDB) :=
  default (NewNode (start (demo_live (bytes_of "h1")))) (sites e !! bytes_of a).

(** Alice's socket: the CONNECT_ACK and the ACK. *)
Definition alice_conn : connection := default (mkConn None Reading []) (conns (site_at (after served) "h1") !! 0%nat).

Example served_messages :
  (written alice_conn = omap encode [ConnectAckMsg [] 0 []; AckMsg 1]) /\
  HeadText (sm (site_at (after (served ++ caught_up)) "h3")) = encode_runes [0x48; 0xE9].
Proof. split; vm_compute; reflexivity. Qed.

Lemma served_runs ls : is_some (esteps demo_editor ls) = true -> esteps demo_editor ls = Some (after ls).
Proof. apply default_eq. Qed.

Lemma caught_up_runs : esteps (after served) caught_up = Some (default demo_editor (esteps (after served) caught_up)).
Proof. apply default_eq. vm_compute. reflexivity. Qed.

Lemma editor_led ls : led_runb (boot demo_servers) (net_run demo_editor ls) = true ->
  led_run (boot demo_servers) (net_run (open_editor demo_servers) ls).
Proof. apply led_runb_led. Qed.

Lemma demo_NoDup : NoDup demo_addresses.
Proof. apply (bool_decide_unpack _). vm_compute. exact I. Qed.


(** What Alice was told at h1, h3 knows after its crash. *)
Lemma acknowledged_edits_last_witness :
  let q := site_at (default demo_editor (esteps (after served) caught_up)) "h3" in
  exists id msg es, encode msg = Some (default [] (encode (AckMsg 1))) /\
    (exists x cl, heap (site_at (after served) "h1") !! x = Some cl /\ c_conn cl = 0%nat /\ c_id cl = id) /\
    applied_entries (raft_node q) es /\ borne_out [] es (sm q) id msg.
Proof.
  apply (acknowledged_edits_last demo_addresses [] demo_servers served caught_up (after served)
    (default demo_editor (esteps (after served) caught_up)) (bytes_of "h1") (bytes_of "h3") _ _ 0 alice_conn);
    [exact demo_NoDup|exact demo_set_up_first| |by_compute| |exact caught_up_runs| | | | |by_compute].
  - apply editor_led. vm_compute. reflexivity.
  - apply served_runs. vm_compute. reflexivity.
  - apply default_eq. vm_compute. reflexivity.
  - apply default_eq. vm_compute. reflexivity.
  - apply (bool_decide_unpack _). vm_compute. exact I.
  - apply default_eq. vm_compute. reflexivity.
Defined.
