(* ===== verification/Command.v ===== *)
(** The server command ([cmd/server/main.go]): the page that it serves under [/health],
    and the life of its process, from the flags to the exit status. *)
From S2P Require Import Prelude Utf8 Changeset Apply Cursor Fsm Stores Future Config Node Election.
From S2P Require Import Replication Rpc Leader Machine Frame Json JsonRound Codec Bolt Transport.
From S2P Require Import Document Server Wire Stdgo Network ElectionSafety Entries Closing Setup Editor.

Local Open Scope byte_scope.
Local Open Scope Z_scope.

(** * The health page

    [fmt]'s [%q] is [strconv.Quote]. [wide] says which runes past U+00FF are printable,
    by the tables of [strconv]; nothing depends on it. *)
Section health.
  Context (wide : rune -> bool).

Definition is_print (r : rune) : bool :=
  if r <=? 0xFF
  then ((0x20 <=? r) && (r <? 0x7F)) || ((0xA1 <=? r) && negb (r =? 0xAD))
  else wide r.

(** The last [n] hexadecimal digits. *)
Fixpoint hex_digits (n : nat) (v : Z) : text :=
  match n with O => [] | S n' => hex_digits n' (v / 16) ++ [hex_digit (v mod 16)] end.

(** The letter of an escape. *)
Definition control_escape (r : rune) : option byte :=
  if r =? 7 then Some "a" else if r =? 8 then Some "b" else if r =? 12 then Some "f"
  else if r =? 10 then Some "n" else if r =? 13 then Some "r" else if r =? 9 then Some "t"
  else if r =? 11 then Some "v" else None.

(** [appendEscapedRune]. *)
Definition escaped_rune (r : rune) : text :=
  if (r =? byte_val dquote) || (r =? byte_val backslash) then [backslash; byte_of_Z r]
  else if is_print r then encode_rune r
  else match control_escape r with
  | Some c => [backslash; c]
  | None =>
      if (r <? 0x20) || (r =? 0x7F) then backslash :: "x" :: hex_digits 2 r
      else if r <? 0x10000 then backslash :: "u" :: hex_digits 4 r
      else backslash :: "U" :: hex_digits 8 r
  end.

(** One turn of [appendQuotedWith]: an invalid byte is written in hexadecimal. *)
Definition quote_piece (s : text) (b : byte) : text * nat :=
  let '(r, w) := decode_rune s in
  (if (r =? rune_error) && (w =? 1)%nat then backslash :: "x" :: hex_digits 2 (byte_val b)
   else escaped_rune r, w).

Fixpoint quote_pieces (fuel : nat) (s : text) : text :=
  match fuel, s with
  | S fuel', b :: _ =>
      let '(out, w) := quote_piece s b in out ++ quote_pieces fuel' (drop w s)
  | _, _ => []
  end.
Definition Quote (s : text) : text := dquote :: quote_pieces (length s) s ++ [dquote].

(** The handler of [/health]. *)
Definition health (node_id : text) (leader : bool) (headRev : Z) : text :=
  let key k := dquote :: k ++ [dquote; ":"] in
  "{" :: key (bytes_of "node_id") ++ Quote node_id ++
  "," :: key (bytes_of "raft_state") ++ Quote (if leader then bytes_of "leader" else bytes_of "follower") ++
  "," :: key (bytes_of "head_rev") ++ format_int headRev ++ ["}"].

(** ** Reading it as JSON

    The runes whose escape, if they have one, is also one of JSON. *)
Definition speaks (r : rune) : bool :=
  is_print r || (r =? 8) || (r =? 9) || (r =? 10) || (r =? 12) || (r =? 13) || ((0x7F <? r) && (r <? 0x10000)).

Fixpoint legible (fuel : nat) (s : text) : bool :=
  match fuel, s with
  | S fuel', _ :: _ =>
      let '(r, w) := decode_rune s in
      negb ((r =? rune_error) && (w =? 1)%nat) && speaks r && legible fuel' (drop w s)
  | _, _ => true
  end.

Lemma hex_val_digit d : 0 <= d < 16 -> hex_val (hex_digit d) = Some d.
Proof.
  intros Hd. enough (Forall (fun d => hex_val (hex_digit d) = Some d) (seqZ 0 16)) as Hall.
  { rewrite Forall_forall in Hall. apply Hall, elem_of_seqZ. lia. }
  apply (bool_decide_unpack _). vm_compute. exact I.
Qed.

Lemma getu4_digits r t : 0 <= r < 0x10000 -> getu4 (hex_digits 4 r ++ t) = Some (r, t).
Proof.
  intros Hr. cbn [hex_digits app getu4].
  rewrite !hex_val_digit by (Z.div_mod_to_equations; lia). cbn [mbind option_bind].
  do 2 f_equal. Z.div_mod_to_equations; lia.
Qed.

Lemma ascii_piece b t fuel : byte_val b < 0x80 ->
  escaped_rune (byte_val b) <> [] /\
  unquote (S fuel) (escaped_rune (byte_val b) ++ t) =
    if speaks (byte_val b) then '(u, s3) ← unquote fuel t; Some (b :: u, s3) else None.
Proof. intros Hb. destruct b; try discriminate Hb; (split; [discriminate|reflexivity]). Qed.

(** A rune past ASCII. *)
Lemma wide_piece r t fuel : scalar r -> 0x80 <= r ->
  escaped_rune r <> [] /\
  unquote (S fuel) (escaped_rune r ++ t) =
    if speaks r then '(u, s3) ← unquote fuel t; Some (encode_rune r ++ u, s3) else None.
Proof.
  intros Hr Hw. unfold escaped_rune, speaks, control_escape.
  change (byte_val dquote) with 0x22. change (byte_val backslash) with 0x5c.
  rewrite !(proj2 (Z.eqb_neq _ _)), (proj2 (Z.ltb_ge r 0x20)), (proj2 (Z.ltb_lt 0x7F r)) by lia. cbn [orb andb].
  rewrite !orb_false_r. destruct (is_print r); [|destruct (Z.ltb_spec r 0x10000)]; cbn [orb].
  - pose proof (encode_rune_pos r). destruct (encode_rune r) as [|c cs] eqn:Ec; [zl|]. split; [done|].
    pose proof (encode_rune_wide r c Hr Hw) as Hc. rewrite Ec in Hc. specialize (Hc eq_refl).
    cbn [app]. rewrite unquote_plain; [|destruct (Byte.eqb c _) eqn:E; [apply Byte.byte_dec_bl in E; subst c; by destruct Hc|done]..|lia].
    change (c :: cs ++ t) with ((c :: cs) ++ t). rewrite <-Ec, decode_encode by done. cbv beta iota. by rewrite drop_app_length, Ec.
  - split; [done|]. cbn [app]. apply unquote_escape.
    assert (unescape ("u" :: hex_digits 4 r ++ t) =
      '(u, s) ← getu4 (hex_digits 4 r ++ t);
      if (0xD800 <=? u) && (u <? 0xE000) then
        match low_surrogate u s with Some p => Some p | None => Some (rune_error, s) end else Some (u, s)) as ->
      by reflexivity.
    rewrite getu4_digits by lia. cbn [mbind option_bind].
    destruct Hr as [_ Hs]. destruct (Z.leb_spec 0xD800 r), (Z.ltb_spec r 0xE000); (done || lia).
  - by split.
Qed.

Lemma piece_unquote b s1 out w r w' t fuel :
  quote_piece (b :: s1) b = (out, w) -> decode_rune (b :: s1) = (r, w') ->
  w = w' /\ (1 <= w)%nat /\ out <> [] /\
  unquote (S fuel) (out ++ t) =
    if negb ((r =? rune_error) && (w =? 1)%nat) && speaks r
    then '(u, s3) ← unquote fuel t; Some (take w (b :: s1) ++ u, s3) else None.
Proof.
  unfold quote_piece. intros Hq Hd. rewrite Hd in Hq. injection Hq as <- <-. split; [done|].
  destruct (Z.ltb_spec (byte_val b) 0x80) as [Hb|Hb].
  - rewrite decode_rune_ascii in Hd by done. injection Hd as <- <-. pose proof (byte_range b).
    rewrite (proj2 (Z.eqb_neq _ _)) by (unfold rune_error; lia). split; [done|]. by apply ascii_piece.
  - destruct (decode_rune_wide (b :: s1) b s1 r w' eq_refl Hb Hd) as [[-> ->]|(Hr&Hr2&Hw&Hl&Ht)].
    + split; [done|]. by split.
    + rewrite (proj2 (Nat.eqb_neq w' 1)), andb_false_r by lia. cbn [negb andb]. rewrite Ht.
      split; [lia|]. by apply wide_piece.
Qed.

(** What [Quote] writes is a string of JSON exactly if it is legible. *)
Lemma unquote_pieces f fuel s rest :
  (length s <= f)%nat -> (length (quote_pieces f s) < fuel)%nat ->
  unquote fuel (quote_pieces f s ++ dquote :: rest) = if legible f s then Some (s, rest) else None.
Proof.
  revert fuel s. induction f as [|f IH]; intros fuel s Hf Hfuel.
  { destruct s; [|cbn in Hf; lia]. destruct fuel; [cbn in Hfuel; lia|done]. }
  destruct s as [|b s1]; [destruct fuel; [cbn in Hfuel; lia|done]|].
  destruct fuel as [|fuel]; [lia|]. cbn [quote_pieces legible] in *.
  destruct (quote_piece (b :: s1) b) as [out w] eqn:Hq. destruct (decode_rune (b :: s1)) as [r w'] eqn:Hd.
  set (t := quote_pieces f (drop w (b :: s1)) ++ dquote :: rest).
  destruct (piece_unquote b s1 out w r w' t fuel Hq Hd) as (<-&Hw&Hne&Hu).
  rewrite <-app_assoc. change (quote_pieces f _ ++ dquote :: rest) with t. rewrite Hu. subst t.
  destruct (_ && speaks r); [|done]. rewrite length_app in Hfuel.
  assert (0 < length out)%nat by (destruct out; [done|cbn; lia]).
  rewrite IH; [|rewrite length_drop; cbn in *; lia|lia]. cbn [andb].
  destruct (legible f _); [|done]. cbn [mbind option_bind]. by rewrite take_drop.
Qed.

Lemma value_Quote d s rest :
  value d (Quote s ++ rest) = if legible (length s) s then Some (JString s, rest) else None.
Proof.
  unfold Quote. cbn [app]. rewrite <-app_assoc. cbn [app].
  assert (forall q, value d (dquote :: q) = '(t, s2) ← unquote (length q) q; Some (JString t, s2)) as ->
    by (intros q; by destruct d).
  rewrite unquote_pieces by (done || (rewrite length_app; cbn; lia)). by destruct (legible _ _).
Qed.

(** The texts that [legible] accepts. *)
Definition speaking (s : text) : Prop := valid_utf8 s /\ Forall (fun r => speaks r = true) (runes s).

#[export] Instance speaking_dec s : Decision (speaking s).
Proof. unfold speaking. apply _. Defined.

Lemma decode_piece b s1 r w : decode_rune (b :: s1) = (r, w) ->
  (r = rune_error /\ w = 1%nat) \/
  ((r =? rune_error) && (w =? 1)%nat = false /\ (1 <= w)%nat /\ encode_rune r = take w (b :: s1)).
Proof.
  intros Hd. destruct (Z.ltb_spec (byte_val b) 0x80) as [Hb|Hb].
  - rewrite decode_rune_ascii in Hd by done. injection Hd as <- <-. right. split; [|by rewrite encode_rune_ascii].
    rewrite (proj2 (Z.eqb_neq _ _)); [done|]. unfold rune_error. lia.
  - destruct (decode_rune_wide _ _ _ _ _ eq_refl Hb Hd) as [?|(_&_&Hw&_&Ht)]; [by left|right].
    split; [|split; [lia|done]]. by rewrite (proj2 (Nat.eqb_neq w 1)), andb_false_r by lia.
Qed.

Lemma runes_grow f s : (length s <= f)%nat -> (length s <= length (encode_runes (runes_loop f s)))%nat.
Proof.
  revert s. induction f as [|f IH]; intros [|b s1] Hf; cbn [runes_loop]; try (cbn in *; lia).
  destruct (decode_rune (b :: s1)) as [r w] eqn:Hd. rewrite encode_runes_cons, length_app.
  destruct (decode_piece _ _ _ _ Hd) as [[-> ->]|(_&Hw&->)].
  - specialize (IH s1). change (length (encode_rune rune_error)) with 3%nat.
    change (drop 1 (b :: s1)) with s1. cbn [length] in *. lia.
  - specialize (IH (drop w (b :: s1))). rewrite length_take. rewrite length_drop in IH. cbn in *. lia.
Qed.

Lemma legible_speaking f s : (length s <= f)%nat ->
  legible f s = true <-> encode_runes (runes_loop f s) = s /\ Forall (fun r => speaks r = true) (runes_loop f s).
Proof.
  revert s. induction f as [|f IH]; intros [|b s1] Hf; cbn [runes_loop legible]; try (cbn in Hf; lia); try (by split).
  destruct (decode_rune (b :: s1)) as [r w] eqn:Hd. rewrite encode_runes_cons, Forall_cons.
  destruct (decode_piece _ _ _ _ Hd) as [[-> ->]|(E&Hw&Ht)].
  - split; [done|]. intros [He%(f_equal length) _]. rewrite length_app in He.
    change (length (encode_rune rune_error)) with 3%nat in He.
    pose proof (runes_grow f s1) as Hg. change (drop 1 (b :: s1)) with s1 in He. cbn [length] in *. lia.
  - rewrite E, Ht. cbn [negb andb]. rewrite andb_true_iff, IH by (rewrite length_drop; cbn in *; lia).
    assert (forall x, take w (b :: s1) ++ x = b :: s1 <-> x = drop w (b :: s1)) as ->.
    { intros x. rewrite <-(take_drop w (b :: s1)) at 2. split; [by intros ?%app_inv_head|by intros ->]. }
    tauto.
Qed.

Lemma legible_spec s : legible (length s) s = bool_decide (speaking s).
Proof.
  pose proof (legible_speaking (length s) s ltac:(done)) as Hs. fold (runes s) in Hs.
  case_bool_decide as Hb; [by apply Hs|]. by apply not_true_is_false; rewrite Hs.
Qed.

End health.

(** ** Objects, one member at a time *)

Section members.
  Context (val : text -> option (json * text)).

Lemma members_more fuel k s v s2 : val s = Some (v, "," :: s2) ->
  members val (S fuel) (quote k ++ ":" :: s) = '(ms, s4) ← members val fuel s2; Some ((sanitize k, v) :: ms, s4).
Proof. intros Hv. cbn [members]. rewrite quote_key. cbn [mbind option_bind]. by rewrite Hv. Qed.

Lemma members_last fuel k s v s2 : val s = Some (v, "}" :: s2) ->
  members val (S fuel) (quote k ++ ":" :: s) = Some ([(sanitize k, v)], s2).
Proof. intros Hv. cbn [members]. rewrite quote_key. cbn [mbind option_bind]. by rewrite Hv. Qed.

Lemma members_stuck fuel k s : val s = None -> members val fuel (quote k ++ ":" :: s) = None.
Proof. intros Hv. destruct fuel; [done|]. cbn [members]. rewrite quote_key. cbn [mbind option_bind]. by rewrite Hv. Qed.

End members.

Definition health_json (node_id : text) (leader : bool) (headRev : Z) : json :=
  JObject [(bytes_of "node_id", JString node_id);
    (bytes_of "raft_state", JString (if leader then bytes_of "leader" else bytes_of "follower"));
    (bytes_of "head_rev", JNumber (format_int headRev))].

(** The health page is JSON, of these three fields, exactly for the node identifiers that
    are valid UTF-8 of runes whose escapes [%q] shares with JSON. *)
Theorem health_page wide node_id leader headRev :
  parse (health wide node_id leader headRev) =
    if bool_decide (speaking wide node_id) then Some (health_json node_id leader headRev) else None.
Proof.
  rewrite <-(legible_spec wide node_id). unfold health. cbv zeta.
  set (state := if leader then _ else _).
  assert (legible wide (length state) state = true) as Hst by (subst state; by destruct leader).
  set (rest := format_int headRev ++ ["}"]).
  change ((dquote :: bytes_of "head_rev" ++ [dquote; ":"]) ++ rest) with (quote (bytes_of "head_rev") ++ ":" :: rest).
  set (tail2 := "," :: quote (bytes_of "head_rev") ++ ":" :: rest).
  set (tail1 := "," :: quote (bytes_of "raft_state") ++ ":" :: Quote wide state ++ tail2).
  change (parse ("{" :: quote (bytes_of "node_id") ++ ":" :: Quote wide node_id ++ tail1) =
    if legible wide (length node_id) node_id then Some (health_json node_id leader headRev) else None).
  unfold parse. destruct max_depth as [|d] eqn:Ed; [done|]. clear Ed. cbn [value]. rewrite skip_ws_cons by done.
  change (Byte.eqb "{" dquote) with false. change (Byte.eqb "{" "[") with false.
  change (Byte.eqb "{" "{") with true. cbv iota. unfold object_value.
  set (s1 := quote _ ++ _). assert (exists x, s1 = dquote :: x) as [x Ex] by (by eexists).
  rewrite Ex, skip_ws_cons by done. change (Byte.eqb dquote "}") with false. cbv iota. rewrite <-Ex.
  assert (exists n, length s1 = S (S (S n))) as [n ->].
  { subst s1 tail1 tail2. rewrite length_app. eexists (_ + _)%nat. reflexivity. }
  subst s1. pose proof (value_Quote wide d node_id tail1) as Hid.
  destruct (legible wide (length node_id) node_id); [|by rewrite members_stuck].
  rewrite (members_more _ _ _ _ _ _ Hid).
  pose proof (value_Quote wide d state tail2) as Hs. rewrite Hst in Hs.
  rewrite (members_more _ _ _ _ _ _ Hs).
  rewrite (members_last _ _ _ _ (JNumber (format_int headRev)) []); [done|].
  apply value_number; [apply number_int|]. by right; right.
Qed.

(** * The process

    [main] serves until a signal arrives, then shuts the HTTP server down and returns,
    which runs the deferred [rn.Shutdown]: it shuts the node down, then the transport, then
    closes the store, and the process ends. Until then all the other goroutines go on, after
    the shutdown of the node too. [os.Exit] and [log.Fatalf] end the process without the
    deferred call. *)

(** Where [main] is. *)
Inductive phase : Type :=
| Serving             (* it waits for a signal *)
| Draining            (* httpSrv.Shutdown *)
| StoppingNode        (* rn.Shutdown: n.Raft.Shutdown is next *)
| StoppingTransport   (* n.Transport.Shutdown is next *)
| StoppingStore       (* n.LogStore.Close is next *)
| Returning           (* the deferred calls are done *)
| Exited (status : Z).

#[export] Instance phase_eq_dec : EqDecision phase.
Proof. solve_decision. Defined.

(** The goroutine for the initial text: it is not there, or at an end; it looks whether the
    node leads, again and again; it has seen that it does. *)
Inductive initial : Type := NoInitial | Looking | Ready.

Inductive plabel : Type :=
| PServer (l : slabel)          (* the goroutines of the node and the WebSocket server *)
| PInitial (c : submit_choice)  (* the goroutine for the initial text goes on *)
| PListenFails                  (* ListenAndServe returns an error, not ErrServerClosed *)
| PSignal                       (* SIGINT or SIGTERM is received *)
| PMain.                        (* main goes on after the signal: the HTTP server is shut down, or
                                   ten seconds are over; then a call of rn.Shutdown; then its end *)

Section process.
  Context {D : Type} `{Bolt D} `{EC : EntryCodec} `{WC : WireCodec}.

Record process : Type := mkProcess {
  p_flags : Flags;
  p_site : server (L := D) (Sb := D);
  p_transport : TCPTransport;
  p_initial : initial;
  p_phase : phase;
  p_open : resources
}.

Definition set_site_of (s : server) (p : process) : process :=
  mkProcess (p_flags p) s (p_transport p) (p_initial p) (p_phase p) (p_open p).
Definition set_phase (ph : phase) (p : process) : process :=
  mkProcess (p_flags p) (p_site p) (p_transport p) (p_initial p) ph (p_open p).

(** An error ends the process with status 1. *)
Definition main (read : text -> string + text) (sys : system D) (fl : Flags) : resources * outcome string process :=
  match main_config read fl with
  | Ret (fl, raftCfg) =>
      let sm := NewDocumentStateMachine [] in
      match SetupRaft sys raftCfg sm with
      | (res, Ret rn) =>
          (res, Ret (mkProcess fl (NewNode (start (lv_Raft rn))) (lv_Transport rn)
                       (if bootstrap fl && negb (bool_decide (initText fl = [])) then Looking else NoInitial)
                       Serving res))
      | (res, Err e) => (res, Err ("failed to start raft: " ++ e)%string)
      | (res, Panic) => (res, Panic)
      | (res, NoFuel) => (res, NoFuel)
      end
  | Err e => (mkResources false false, Err e)
  | Panic => (mkResources false false, Panic)
  | NoFuel => (mkResources false false, NoFuel)
  end.

Definition set_initial (i : initial) (s : server) (p : process) : process :=
  mkProcess (p_flags p) s (p_transport p) i (p_phase p) (p_open p).

(** The goroutine for the initial text: a look at the state, then the proposal, whose
    result it drops. *)
Definition initial_step (p : process) (c : submit_choice) : option process :=
  let s := p_site p in
  match p_initial p with
  | NoInitial => None
  | Looking => Some (set_initial (if IsLeader (raft_node s) then Ready else Looking) s p)
  | Ready =>
      match MarshalEntry (bootstrap_entry (initText (p_flags p))) with
      | Some data =>
          if choice_ready (raft_node s) c then
            Some (set_initial NoInitial (set_raft (with_node (raft s) (fst (Leader.Apply (raft_node s) data c))) s) p)
          else None
      | None => Some (set_initial NoInitial s p)
      end
  end.

(** [main] after the signal, one call a step. *)
Definition on_node (f : RaftNode D D document ApplyResult -> RaftNode D D document ApplyResult) (s : server) : server :=
  set_raft (with_node (raft s) (f (raft_node s))) s.

Definition return_step (p : process) : outcome Empty_set (option process) :=
  let s := p_site p in
  match p_phase p with
  | Serving | Exited _ => Ret None
  | Draining => Ret (Some (set_phase StoppingNode p))
  | StoppingNode => Ret (Some (set_phase StoppingTransport (set_site_of (on_node Shutdown s) p)))
  | StoppingTransport =>
      t ← tcp_Shutdown (p_transport p);
      Ret (Some (mkProcess (p_flags p) s t (p_initial p) StoppingStore
                   (mkResources (store_open (p_open p)) (t_listening t))))
  | StoppingStore =>
      Ret (Some (mkProcess (p_flags p) (on_node close_stores s) (p_transport p) (p_initial p) Returning
                   (mkResources false (listening (p_open p)))))
  | Returning => Ret (Some (set_phase (Exited 0) p))
  end.

Definition is_shutdown (l : slabel) : bool := match l with SRaft LShutdown => true | _ => false end.

Definition site_step (p : process) (l : slabel) : outcome Empty_set (option process) :=
  if is_shutdown l then Ret None
  else
    o ← sstep (p_site p) l;
    Ret (match o with Some s => Some (set_site_of s p) | None => None end).

Definition process_step (p : process) (l : plabel) : outcome Empty_set (option process) :=
  match p_phase p with
  | Exited _ => Ret None
  | ph =>
      match l with
      | PServer l => site_step p l
      | PInitial c => Ret (initial_step p c)
      | PListenFails => Ret (Some (set_phase (Exited 1) p))
      | PSignal => Ret (match ph with Serving => Some (set_phase Draining p) | _ => None end)
      | PMain => return_step p
      end
  end.

Fixpoint process_steps (p : process) (ls : list plabel) : outcome Empty_set (option process) :=
  match ls with
  | [] => Ret (Some p)
  | l :: ls' =>
      o ← process_step p l;
      match o with Some p' => process_steps p' ls' | None => Ret None end
  end.

(** What [/health] answers. *)
Definition health_answer (wide : rune -> bool) (p : process) : text :=
  health wide (nodeID (p_flags p)) (IsLeader (raft_node (p_site p))) (HeadRev (sm (p_site p))).

End process.
Arguments process D : clear implicits.

(** ** The life of a process *)

Section life.
  Context {D : Type} `{BoltLaws D} `{EC : EntryCodec} `{WC : WireCodec}.
  Implicit Types p : process D.
  Implicit Types s : server (L := D) (Sb := D).

(** The node has not been shut down, or it has. *)
Definition node_up p : Prop := shutdownCh (raft_node (p_site p)) = false.
Definition node_down p : Prop := quiet (raft (p_site p)).

Lemma sstep_node s l s' : sstep s l = Ret (Some s') -> is_shutdown l = false ->
  raft s' = raft s \/ exists k, step (raft s) k = Some (raft s') /\ k <> LShutdown.
Proof.
  intros Hs Hl.
  assert ((exists k, l = SRaft k) \/ forall k, l <> SRaft k) as [[k ->]|Hn]
    by (destruct l; [left; by eexists|by right..]).
  - right. exists k. split; [|by intros ->].
    assert (forall A (x y : A), (Ret x : outcome Empty_set A) = Ret y -> x = y) as Hi by congruence.
    assert (Some s' = (fun q => set_raft q s) <$> step (raft s) k) as E
      by (destruct k; try discriminate Hs; exact (Hi _ _ _ (eq_sym Hs))).
    symmetry in E. apply fmap_Some in E as (q&Hq&->). exact Hq.
  - destruct (sstep_raft s l s' Hn Hs) as [[E _]|(k&_&Hk&Hc)]; [by left|right]. exists k. split; [done|].
    intros ->. by destruct Hc as [(?&?&?)|[? ?]].
Qed.

Lemma Apply_step (q : proc D D document ApplyResult) data c :
  choice_ready (node q) c = true -> step q (LSubmit data c) = Some (with_node q (fst (Leader.Apply (node q) data c))).
Proof. intros Hc. cbn [step]. by rewrite Hc. Qed.

(** The other goroutines leave [main], the transport and the store as they are, and the
    node up or down. *)
Lemma others_step p l p' : process_step p l = Ret (Some p') ->
  match l with PServer _ | PInitial _ => True | _ => False end ->
  p_phase p' = p_phase p /\ p_transport p' = p_transport p /\ p_open p' = p_open p /\
  (raft (p_site p') = raft (p_site p) \/
   exists k, step (raft (p_site p)) k = Some (raft (p_site p')) /\ k <> LShutdown).
Proof.
  intros Hs Hl. unfold process_step in Hs. destruct l as [l|c| | |]; try done.
  - assert (site_step p l = Ret (Some p')) as Hp by (destruct (p_phase p); done). clear Hs. unfold site_step in Hp.
    destruct (is_shutdown l) eqn:El; [done|]. apply bind_ret in Hp as ([s'|]&Hs&[= <-]).
    split_and!; [done..|]. cbn. by eapply sstep_node.
  - assert (initial_step p c = Some p') as Hp by (by destruct (p_phase p); injection Hs). clear Hs.
    unfold initial_step in Hp. destruct (p_initial p); [done|injection Hp as <-; split_and!; by try left|].
    destruct (MarshalEntry _) as [data|]; [|injection Hp as <-; split_and!; by try left].
    destruct (choice_ready _ c) eqn:Hc; [|done]. injection Hp as <-. split_and!; [done..|]. right.
    exists (LSubmit data c). split; [|done]. rewrite Apply_step by exact Hc. done.
Qed.

Lemma others_up p l p' : process_step p l = Ret (Some p') ->
  match l with PServer _ | PInitial _ => True | _ => False end ->
  (node_up p -> node_up p') /\ (node_down p -> node_down p').
Proof.
  intros Hs Hl. destruct (others_step p l p' Hs Hl) as (_&_&_&Hr). unfold node_up, node_down, raft_node.
  destruct Hr as [->|(k&Hk&Hn)]; [done|]. split; [by rewrite (step_shutdown _ _ _ Hk Hn)|].
  intros Hq. by eapply quiet_step.
Qed.

(** ** Where a process is after the labels [ls] *)

Definition opened (addr : text) : TCPTransport := mkTCP addr [] false false true.
Definition shut (addr : text) : TCPTransport := mkTCP addr [] true true false.

(** The state of the node, the transport and what is open, phase by phase. *)
Definition standing_in (addr : text) p : Prop :=
  match p_phase p with
  | Serving | Draining | StoppingNode =>
      node_up p /\ p_transport p = opened addr /\ p_open p = mkResources true true
  | StoppingTransport => node_down p /\ p_transport p = opened addr /\ p_open p = mkResources true true
  | StoppingStore => node_down p /\ p_transport p = shut addr /\ p_open p = mkResources true false
  | Returning | Exited 0 => node_down p /\ p_transport p = shut addr /\ p_open p = mkResources false false
  | Exited _ => True
  end.

Record lived (addr : text) (ls : list plabel) p : Prop := mk_lived {
  lv_standing : standing_in addr p;
  lv_signal : match p_phase p with Serving => True | Exited 1 => PListenFails ∈ ls | _ => PSignal ∈ ls end;
  lv_status : forall n, p_phase p = Exited n -> n = 0 \/ n = 1
}.

Lemma lived_others addr ls p l p' : lived addr ls p -> process_step p l = Ret (Some p') ->
  match l with PServer _ | PInitial _ => True | _ => False end -> lived addr (ls ++ [l]) p'.
Proof.
  intros [Hst Hsig Hn] Hs Hl. destruct (others_step p l p' Hs Hl) as (Ep&Et&Eo&_).
  destruct (others_up p l p' Hs Hl) as [Hup Hdown]. split; unfold standing_in in *; rewrite Ep, ?Et, ?Eo.
  - destruct (p_phase p) as [| | | | | |[| |]]; (done || (destruct Hst as (?&?&?); split_and!; auto)).
  - destruct (p_phase p) as [| | | | | |[|[]|]]; (done || (apply elem_of_app; by left)).
  - done.
Qed.

Lemma lived_main addr ls p p' : lived addr ls p -> return_step p = Ret (Some p') -> lived addr (ls ++ [PMain]) p'.
Proof.
  intros [Hst Hsig Hn] Hs. unfold return_step in Hs. unfold standing_in in Hst.
  assert (PSignal ∈ ls -> PSignal ∈ ls ++ [PMain]) as Hin by (intros ?; apply elem_of_app; by left).
  destruct (p_phase p); try done.
  - injection Hs as <-. split; cbn; [exact Hst|auto|done].
  - injection Hs as <-. destruct Hst as (Hup&Ht&Ho). split; cbn; [|auto|done].
    split_and!; [|done..]. unfold node_down. cbn. by apply shutdown_quiet.
  - destruct Hst as (Hd&Ht&Ho). rewrite Ht in Hs. cbn in Hs. injection Hs as <-. split; cbn; [|auto|done].
    split_and!; [exact Hd|done|]. by rewrite Ho.
  - injection Hs as <-. destruct Hst as (Hd&Ht&Ho). split; cbn; [|auto|done].
    split_and!; [|done|by rewrite Ho]. unfold node_down in *. cbn. by destruct Hd.
  - injection Hs as <-. split; cbn; [exact Hst|auto|]. intros n [= <-]. by left.
Qed.

Lemma process_lived addr ls p l p' : lived addr ls p -> process_step p l = Ret (Some p') -> lived addr (ls ++ [l]) p'.
Proof.
  intros Hl Hs. destruct l as [l|c| | |]; try by eapply lived_others.
  - unfold process_step in Hs. assert (p' = set_phase (Exited 1) p) as -> by (destruct (p_phase p); by injection Hs).
    split; cbn; [done|set_solver|]. intros n [= <-]. by right.
  - unfold process_step in Hs. destruct Hl as [Hst _ _]. unfold standing_in in Hst.
    destruct (p_phase p); try done. injection Hs as <-. split; cbn; [exact Hst|set_solver|done].
  - assert (return_step p = Ret (Some p')) as Hr by (unfold process_step in Hs; by destruct (p_phase p)).
    by eapply lived_main.
Qed.

Lemma process_steps_lived addr ls : forall ls0 p p', lived addr ls0 p -> process_steps p ls = Ret (Some p') ->
  lived addr (ls0 ++ ls) p'.
Proof.
  induction ls as [|l ls IH]; intros ls0 p p' Hl Hs; cbn [process_steps] in Hs.
  - injection Hs as <-. by rewrite app_nil_r.
  - apply bind_ret in Hs as ([q|]&Hq&Hs); [|done]. apply (process_lived addr ls0 p l q) in Hq; [|done].
    apply (IH _ _ _ Hq) in Hs. by rewrite <-app_assoc in Hs.
Qed.

(** [main] can go on by itself from the signal to the end. *)
Lemma main_goes_on addr ls p : lived addr ls p -> p_phase p <> Serving -> (forall n, p_phase p <> Exited n) ->
  exists p', process_step p PMain = Ret (Some p') /\
    match p_phase p with
    | Draining => p_phase p' = StoppingNode | StoppingNode => p_phase p' = StoppingTransport
    | StoppingTransport => p_phase p' = StoppingStore | StoppingStore => p_phase p' = Returning
    | _ => p_phase p' = Exited 0
    end.
Proof.
  intros [Hst _ _] Hser Hex. unfold process_step, return_step, standing_in in *.
  destruct (p_phase p) as [| | | | | |n]; [done|..|by destruct (Hex n)]; try (by eexists).
  destruct Hst as (_&Ht&_). rewrite Ht. by eexists.
Qed.

(** The calls that [main] has still to make. *)
Definition calls_left (ph : phase) : nat :=
  match ph with
  | Serving => 6 | Draining => 5 | StoppingNode => 4 | StoppingTransport => 3 | StoppingStore => 2 | Returning => 1
  | Exited _ => 0
  end.

Lemma main_ends_within addr m : forall ls p, lived addr ls p -> p_phase p <> Serving ->
  (forall n, p_phase p <> Exited n) -> (calls_left (p_phase p) <= m)%nat ->
  exists ks p', Forall (eq PMain) ks /\ process_steps p ks = Ret (Some p') /\ p_phase p' = Exited 0.
Proof.
  induction m as [|m IH]; intros ls p Hl Hs Hx Hm; [destruct (p_phase p); cbn in Hm; try lia; by edestruct Hx|].
  destruct (main_goes_on addr ls p Hl Hs Hx) as (q&Hq&Hph).
  pose proof (process_lived addr ls p PMain q Hl Hq) as Hlq.
  assert (p_phase q = Exited 0 \/ (p_phase q <> Serving /\ (forall n, p_phase q <> Exited n) /\
    (calls_left (p_phase q) <= m)%nat)) as [He|(Hs'&Hx'&Hm')].
  { destruct (p_phase p) as [| | | | | |n]; [done| | | | | |by destruct (Hx n)]; try (by left);
      right; rewrite Hph; (split_and!; [done|done|cbn in *; lia]). }
  - exists [PMain], q. split_and!; [by constructor| |done]. cbn [process_steps]. by rewrite Hq.
  - destruct (IH _ q Hlq Hs' Hx' Hm') as (ks&p'&Hks&Hps&He). exists (PMain :: ks), p'.
    split_and!; [by constructor| |done]. cbn [process_steps]. by rewrite Hq.
Qed.

Lemma main_ends addr ls p : lived addr ls p -> p_phase p <> Serving -> (forall n, p_phase p <> Exited n) ->
  exists ks p', Forall (eq PMain) ks /\ process_steps p ks = Ret (Some p') /\ p_phase p' = Exited 0.
Proof. intros. by eapply main_ends_within. Qed.

End life.

Lemma main_config_cases read fl : (exists e, main_config read fl = Err e) \/
  (exists fl' cfg, main_config read fl = Ret (fl', cfg) /\ BindAddr cfg = grpcAddr fl').
Proof.
  unfold main_config, load_config. case_bool_decide; [right; by eexists _, _|].
  destruct (read _) as [e|data]; [left; by eexists|].
  destruct (Decode file_codec data); [right; by eexists _, _|left; by eexists].
Qed.

(** * Properties *)

(** C33: the life of a server process, whatever its flags, its configuration file and the
    answers of the system. It ends with status 1, with nothing left open, or it serves: as
    a follower with an empty document and the term and vote of its store, with its store
    and its listener open. From then on, in every interleaving of its goroutines with
    [main] and its shutdown, one call at a time: it ends with status 1 only when the HTTP
    server has failed, and with status 0 only after a signal; until [main] gets to the calls
    of the deferred [rn.Shutdown] the node runs and everything is open; these calls shut the
    node down, close the listener and close the store, in this order; from the first one on
    no proposal of a client is pending, and if the node comes to lead (an election that it
    was about to win) its main goroutine ends at once; and once a signal has been received,
    [main] can always go on to the end, by itself. *)
Theorem process_life {D} `{BoltLaws D} `{EC : EntryCodec} `{WC : WireCodec} read (sys : system D) fl :
  (exists e, main read sys fl = (mkResources false false, Err e)) \/
  (exists fl' cfg d r p0, main_config read fl = Ret (fl', cfg) /\
     main read sys fl = (mkResources true true, Ret p0) /\
     started cfg (NewDocumentStateMachine []) d d r /\ p_site p0 = NewNode (start r) /\
     forall ls p, process_steps p0 ls = Ret (Some p) ->
       lived (grpcAddr fl') ls p /\
       (p_phase p <> Serving -> (forall n, p_phase p <> Exited n) ->
        exists ks p', Forall (eq PMain) ks /\ process_steps p ks = Ret (Some p') /\ p_phase p' = Exited 0)).
Proof.
  unfold main. destruct (main_config_cases read fl) as [[e ->]|(fl'&cfg&Hc&Hb)]; [left; by eexists|]. rewrite Hc.
  destruct (setup_cases sys cfg (NewDocumentStateMachine [])) as [[e ->]|(n&Hs&Ht)]; [left; by eexists|].
  right. rewrite Hs. pose proof (setup_started _ _ _ _ _ Hs) as (Hst&_).
  do 5 eexists. do 2 (split; [reflexivity|]). split; [exact Hst|]. split; [done|]. intros ls p Hp.
  assert (lived (grpcAddr fl') ls p) as Hl.
  { eapply (process_steps_lived _ ls [] _ p); [|exact Hp]. split; cbn; [|done|done].
    split_and!; [apply (sd_open _ _ _ _ _ Hst)|by rewrite Ht, Hb|done]. }
  split; [done|]. by eapply main_ends.
Qed.

(** ** A process

    A server of its own that proposes the initial text when it leads, and stops on a
    signal. *)
#[local] Existing Instances json_codec json_wire.

Definition the_process (o : resources * outcome string (process MapDB)) : process MapDB :=
  match snd o with
  | Ret p => p
  | _ => mkProcess demo_boot_flags (NewNode (start (demo_live (bytes_of "h1")))) (mkTCP [] [] false false false)
           NoInitial (Exited 2) (mkResources false false)
  end.

Definition demo_process : process MapDB :=
  the_process (main (fun _ => inl "no file"%string) demo_system demo_boot_flags).

Definition demo_life : list plabel :=
  [PInitial Enqueued] ++ (PServer ∘ SRaft <$> [LMain; LMain; LTimer; LMain; LMain; LMain; LMain; LMain; LMain; LMain]) ++
  [PInitial Enqueued; PInitial Enqueued; PServer (SRaft LRequest); PSignal; PServer (SRaft LMain); PMain; PMain; PServer (SRaft LMain); PMain; PMain; PMain].

Definition demo_end : process MapDB :=
  match process_steps demo_process demo_life with Ret (Some p) => p | _ => demo_process end.

Example demo_ends :
  (p_phase demo_end, p_open demo_end, p_initial demo_end) = (Exited 0, mkResources false false, NoInitial).
Proof. vm_compute. reflexivity. Qed.

(** The comment on [Shutdown] promises a follower afterwards. A candidate of one server that
    has counted its votes when [Shutdown] runs becomes leader after it, and the process
    ends so. *)
Definition late_life : list plabel :=
  (PServer ∘ SRaft <$> [LMain; LMain; LTimer; LMain; LMain]) ++
  [PSignal; PMain; PMain; PServer (SRaft LMain); PMain; PMain; PMain].

Example late_leader :
  (fun o => match o with
            | Ret (Some p) => Some (p_phase p, IsLeader (raft_node (p_site p)))
            | _ => None
            end) (process_steps demo_process late_life) = Some (Exited 0, true).
Proof. vm_compute. reflexivity. Qed.

Example demo_health wide :
  parse (health_answer wide demo_process) = Some (health_json (bytes_of "node-1") false 0) /\
  parse (health wide (bytes_of "node" ++ [x07]) false 0) = None.
Proof. split; vm_compute; reflexivity. Qed.

Lemma demo_steps : process_steps demo_process demo_life = Ret (Some demo_end).
Proof.
  assert (match process_steps demo_process demo_life with Ret (Some _) => true | _ => false end = true) as E
    by (vm_compute; reflexivity).
  unfold demo_end. by destruct (process_steps demo_process demo_life) as [[q|]| | |].
Qed.

Lemma process_life_witness :
  exists fl cfg, main_config (fun _ => inl "no file"%string) demo_boot_flags = Ret (fl, cfg) /\
    lived (grpcAddr fl) demo_life demo_end.
Proof.
  destruct (process_life (fun _ => inl "no file"%string) demo_system demo_boot_flags)
    as [[e He]|(fl&cfg&d&r&p0&Hc&Hm&_&_&Hl)].
  - apply (f_equal (fun o => match snd o with Err _ => true | _ => false end)) in He. vm_compute in He. discriminate He.
  - exists fl, cfg. split; [exact Hc|]. apply Hl.
    pose proof (f_equal the_process Hm) as E. cbn [the_process snd] in E. fold demo_process in E.
    rewrite <-E. exact demo_steps.
Defined.
